(* ===== verification/_CoqProject ===== *)
-Q . S2P
Prelude.v
Key.v
Wire.v
Proto.v
Codec.v
Pebble.v
Query.v
TableSpec.v
QueryCorrect.v
Command.v
CommandCorrect.v
Fsm.v
FsmCorrect.v
Snapshot.v
Table.v
LogReader.v
GoStd.v
Effects.v
Chunks.v
KvStore.v
Manager.v
ManagerCorrect.v
Replication.v
ReplicationCorrect.v
ReplicationManager.v
View.v
Paths.v
Md5.v
Recovery.v
RecoveryCorrect.v
PowerLoss.v
RecoveryTheorems.v
Backup.v
BackupCorrect.v
BackupTable.v
Dns.v
Cluster.v
ClusterCorrect.v
Config.v
Engine.v
ManagerLife.v
