(* ===== verification/Prelude.v ===== *)
(** * Regatta: a verification development (root file)

    Regatta is a replicated key-value store.  A leader cluster holds tables,
    each a Raft shard whose state machine keeps its data in a Pebble store;
    follower clusters copy the tables.  This library translates the program
    under [src/] into Rocq definitions, keeping the names of the source, and
    proves what makes it correct.

    ** Parts of the program and the files that model them

    Data on the wire and on disk
    - [Key]: internal keys ([storage/table/key]).
    - [Proto], [Wire], [Codec]: the messages that are proposed and stored and
      the generated code that encodes and decodes them
      ([regattapb/mvcc.pb.go], [mvcc_vtproto.pb.go]).

    The state machine of a table ([storage/table/fsm])
    - [Pebble]: the storage engine, an interface with its documented laws and
      an implementation in memory.
    - [Query], [Command], [Fsm]: lookups ([query.go], [iter.go]), command
      handlers ([command*.go]), [Update], [Lookup] and [GetHash] ([fsm.go]).
    - [TableSpec]: what a table promises, on a map of user keys; [QueryCorrect],
      [CommandCorrect], [FsmCorrect]: the code refines it.
    - [Md5], [Paths], [Recovery], [RecoveryCorrect], [PowerLoss],
      [RecoveryTheorems]: the directory of a store ([pebble/dir.go]), [Open],
      [Sync], [Close] and the two ways to save and recover a replica
      ([snapshot_snapshot.go], [snapshot_checkpoint.go], [encode.go]).

    What runs on the state machine
    - [Table]: the API of a table ([storage/table/table.go]) over an interface
      of the Raft library, and the KV services ([regattaserver/kv.go]).
    - [Engine]: what the services call ([storage/engine.go]), which finds the
      table of a request and fills the header of its response, and the map
      behind a lock of [util/sync.go].
    - [LogReader]: reading the Raft log with a cache ([storage/logreader]).
    - [Snapshot]: the snapshot file of a table ([replication/snapshot]) and
      its restore ([readIntoTable] of [storage/table/manager.go]).

    The cluster
    - [KvStore]: the metadata store ([storage/kv]).
    - [Manager], [ManagerCorrect]: tables, shard ids, leases, reconciliation
      ([storage/table/manager.go]).
    - [ManagerLife]: starting and closing the manager, its routines.
    - [View]: what a node knows of the shards ([storage/cluster/view.go]).
    - [Dns]: finding the members ([storage/cluster/dns]); [Cluster],
      [ClusterCorrect]: gossip of views, messages and their listeners, starting
      and closing a node ([storage/cluster/cluster.go]).
    - [Config]: configurations and how commands fill them from settings, the
      options of the storage engine, tokens ([storage/config.go],
      [storage/table/config.go], [pebble/pebble.go], [cmd]).

    Replication between clusters
    - [Replication], [ReplicationCorrect], [ReplicationManager]: the services
      of the leader ([regattaserver/replication.go]), the workers of a follower
      and their manager ([replication/worker.go], [replication.go]).
    - [Chunks]: streams cut into chunks ([replication/snapshot]).

    Backups
    - [Backup], [BackupCorrect], [BackupTable]: the client that backs up and
      restores all tables ([replication/backup]) and the maintenance service
      ([regattaserver/maintenance.go]).

    Shared: this file (Go outcomes, machine integers, bytes, lists), [GoStd]
    (what is used of the Go standard library) and [Effects] (programs).

    ** How the code is translated

    A function that may fail returns [res]: a value, a named error or a panic.
    Integers are [Z] with the wrap-around of their width written out.  State
    that one goroutine owns is passed along.  Code that calls services shared
    with others (the metadata store, the Raft host, the clock, streams, the
    file system) is a [prog] of [Effects]: the tree of its calls, with what
    the program does after each answer.  A relation says which answers a call
    may get and what it does to the shared state; [exec] runs a program alone,
    [pool_step] interleaves the programs of many nodes at every call, and
    [cut] stops a program between any two calls.  Third-party code (Pebble,
    Dragonboat, JSON, tar, sstables) is a class of operations with the laws
    the source relies on, and an instance that satisfies the laws.

    ** What is shown

    - Tables: [Update] and all command handlers refine the map of user keys,
      on every command, errors and panics included; so do lookups, with the
      exact content, count, size and [More] of a range; replicas agree; the
      cut of the log into batches does not matter except for the leader index;
      a read-only transaction may be served as a lookup.
    - Codecs: commands and results round trip, sizes are exact, decoding ends
      on every input; keys round trip.
    - Stores: a recovery or an opening that is cut off anywhere, by the end of
      the process or by a loss of power, leaves the old store or the whole new
      one; saved snapshots are recovered to the same contents; without faults
      both return.  Three theorems show how a replica is lost: a damaged
      [current] file, a crash of the first opening, and a failed sync of the
      directory that is not noticed.
    - Log: a query is answered with a gapless piece of the shard's log, from
      every state of the cache; one inside the log is answered, with the entry
      asked for first.
    - Tables as clients see them, from the KV service through the engine to
      the state machine: a put changes its key and no other table, and is seen
      by a linearizable read; followers do not write.
    - Metadata: [Set] is a compare-and-set; however the manager operations of
      all nodes interleave, an unexpired lease changes only by its holder and
      no two tables share a shard, unless a table has a reserved name; the
      manager is ready only once its shard has had a leader and its routines
      run.
    - Gossip: whatever arrives, views are well formed and hold the newest of
      what was heard; what a node knows is true of some time and does not go
      back; two nodes that exchange states agree; listeners get their messages
      once and in order; closing waits a bounded time and then leaves.  The
      advertised address is ignored.
    - Backups: a restore gives every table the stream its backup wrote; files
      that are missing or damaged are not restored; a token is needed.
    - Replication: the leader streams its log; after every round, complete or
      not, the follower's table is the leader's table at some index that has
      not gone back; a snapshot is restored from exactly the file that was
      sent; [reconcileWorkers] returns only when no worker has to be stopped.

    ** Bounds and assumptions

    Fuel bounds loops that read a stream or a log: [readIntoTable],
    [snapshot_read] and the decoders use the length of the input plus one,
    which is enough because every round consumes a byte; [Replicate_loop] is
    bounded by the entries of the log, each round sending at least one, and
    [do_loop] by the messages of the stream; closing a node waits at most forty
    rounds.  Theorems that claim a result
    show that the fuel is enough.

    The theorems on leases compare the clocks of nodes, so they take one clock
    for all.  In the theorems on rounds of replication a proposal is settled
    when its call returns, applied or not.  Directory names are new because
    the clock has moved on since the last one.  A table name that shares its
    key with the sequence of ids ([sys/idseq]) or with a lease (one that ends in
    [/lease]) is excluded from the theorems on the manager; the source accepts
    it, and [deleted_sequence_shares_shard] shows what follows.

    In the theorems on crashes any call of a recovery may fail, having done
    nothing, some or all of its work; a crash in the middle of a call is one
    after a call that failed.  A restarted process has to learn truly whether
    [current] exists: [IsNewRun] takes a failing Stat for a missing file and
    starts an empty store.  The theorem on power loss also needs the directory
    of the replica to be synced when the code asks for it, since
    [SaveCurrentDBDirName] ignores the error; and the storage engine to sync
    its own directory before a call of it returns.

    ** Not modelled

    Flags, certificates, starting servers and logging ([cmd], [cert], [log],
    [main.go]), which pass values to libraries; gRPC and HTTP servers and their
    compressors; the gossip transport, of which the delegate is modelled;
    metrics; random strings; the generated codecs of the service messages,
    which are the code of [Codec] for other messages; the timers that start the
    rounds of the workers of a follower. *)

From stdpp Require Export base tactics decidable option list sorting gmap strings.
From Stdlib Require Export ZArith Lia.
From Stdlib Require Strings.Byte.

Open Scope Z_scope.

(** ** Go outcomes

    A Go call either returns, returns an [error], or panics.  [Err] carries
    the sentinel error the source names; errors that the source only formats
    ([fmt.Errorf]) get a constructor of their own. *)

Inductive error : Type :=
  (* storage/errors/errors.go *)
  | ErrTableNotFound | ErrEmptyKey | ErrKeyLengthExceeded | ErrValueLengthExceeded
  | ErrUnknownQueryType | ErrInvalidNodeID | ErrInvalidClusterID | ErrStateMachineClosed
  | ErrNoResultFound | ErrUnknownResultType
  | ErrTableExists | ErrManagerClosed | ErrLeaseNotAcquired | ErrNodeHostInfoUnavailable
  | ErrLogBehind | ErrLogAhead
  (* storage/table/key *)
  | ErrUnknownKeyVersion | ErrMissingKeyHeader | ErrMalformedKeyHeader | ErrMissingKeyType
  (* storage/kv *)
  | ErrNotExist | ErrVersionMismatch | ErrInvalidQuery
  (* generated protobuf code *)
  | ErrInvalidLength | ErrIntOverflow | ErrUnexpectedEndOfGroup | ErrUnexpectedEOF
  | ErrEndGroupForNonGroup | ErrIllegalTag | ErrWrongWireType | ErrIllegalWireType
  (* io and the libraries the source calls *)
  | ErrNotFound | ErrNotIndexed | ErrEOF | ErrSnapshotStopped | ErrShortBuffer | ErrShardNotReady | ErrShardNotFound
  | ErrSyntax | ErrRange
  | ErrExternal (code : nat)
  (* google.golang.org/grpc/status, the codes used *)
  | ErrStatusInvalidArgument | ErrStatusUnavailable | ErrStatusUnimplemented | ErrStatusInternal | ErrStatusNotFound
  | ErrStatusUnauthenticated
  (* replication/backup and regattaserver/maintenance.go *)
  | ErrNotDirectory | ErrChecksumMismatch | ErrInfoExpected | ErrChunkExpected
  (* net.SplitHostPort, storage/cluster/dns *)
  | ErrMissingPort | ErrTooManyColons | ErrMissingBracket | ErrUnexpectedBracket
  | ErrInvalidLookupScheme | ErrDNSNotFound
  (* the fuel of a bounded loop of the model ran out; theorems show it never does *)
  | ErrOutOfFuel.

#[export] Instance error_eq_dec : EqDecision error.
Proof. solve_decision. Defined.

Inductive res (A : Type) : Type :=
  | Ok (a : A)
  | Err (e : error)
  | Panic.
Arguments Ok {A} a.
Arguments Err {A} e.
Arguments Panic {A}.

#[export] Instance res_ret : MRet res := fun A a => Ok a.
#[export] Instance res_bind : MBind res := fun A B f r =>
  match r with Ok a => f a | Err e => Err e | Panic => Panic end.
#[export] Instance res_fmap : FMap res := fun A B f r =>
  match r with Ok a => Ok (f a) | Err e => Err e | Panic => Panic end.

#[export] Instance res_eq_dec {A} `{EqDecision A} : EqDecision (res A).
Proof. solve_decision. Defined.

Definition is_Ok {A} (r : res A) : Prop := exists a, r = Ok a.

(** Whether a call returns without an error. *)
Definition succeeds {A} (r : res A) : bool := match r with Ok _ => true | _ => false end.
Definition panics {A} (r : res A) : bool := match r with Panic => true | _ => false end.

Definition res_get {A} (d : A) (r : res A) : A :=
  match r with Ok a => a | _ => d end.

(** [for _, x := range l { ... }] over a state that the body may abort. *)
Fixpoint res_fold {A S} (f : S -> A -> res S) (l : list A) (s : S) : res S :=
  match l with
  | [] => Ok s
  | x :: l' => s' ← f s x; res_fold f l' s'
  end.

Lemma bind_Ok_inv {A B} (r : res A) (f : A -> res B) b :
  (r ≫= f) = Ok b -> exists a, r = Ok a /\ f a = Ok b.
Proof. destruct r; simpl; intros; simplify_eq; eauto. Qed.

Lemma res_bind_assoc {A B C} (r : res A) (f : A -> res B) (g : B -> res C) :
  ((r ≫= f) ≫= g) = (r ≫= fun a => f a ≫= g).
Proof. by destruct r. Qed.

Lemma res_fold_app {A S} (f : S -> A -> res S) l1 l2 s :
  res_fold f (l1 ++ l2) s = (res_fold f l1 s ≫= fun s' => res_fold f l2 s').
Proof.
  revert s; induction l1 as [|x l1 IH]; intros s; simpl; [done|].
  destruct (f s x); simpl; auto.
Qed.

(** Splits a monadic hypothesis or the [match]/[if] at the head of the goal. *)
Ltac res_inv :=
  repeat match goal with
  | H : (_ ≫= _) = Ok _ |- _ =>
      let a := fresh "a" in let H1 := fresh H in
      apply bind_Ok_inv in H as (a & H1 & H)
  | p : (_ * _)%type |- _ => destruct p
  end; simplify_eq/=.

(** ** Machine integers

    Go's [uint64], [int64]/[int] and [int32] are integers in [Z] kept in range
    by an explicit wrap-around. *)

Definition uint64 (z : Z) : Z := z mod 2 ^ 64.
Definition int64 (z : Z) : Z := (z + 2 ^ 63) mod 2 ^ 64 - 2 ^ 63.
Definition int32 (z : Z) : Z := (z + 2 ^ 31) mod 2 ^ 32 - 2 ^ 31.

Definition is_uint64 (z : Z) : Prop := 0 <= z < 2 ^ 64.
Definition is_int64 (z : Z) : Prop := - 2 ^ 63 <= z < 2 ^ 63.
Definition is_int32 (z : Z) : Prop := - 2 ^ 31 <= z < 2 ^ 31.

Lemma uint64_id z : is_uint64 z -> uint64 z = z.
Proof. intros. unfold uint64. by apply Z.mod_small. Qed.

Lemma int64_add_l a b : int64 (int64 a + b) = int64 (a + b).
Proof.
  unfold int64. 
  replace ((a + 2 ^ 63) mod 2 ^ 64 - 2 ^ 63 + b + 2 ^ 63) with ((a + 2 ^ 63) mod 2 ^ 64 + b) by lia.
  rewrite Z.add_mod_idemp_l by done. do 2 f_equal. lia.
Qed.

Lemma int64_id z : is_int64 z -> int64 z = z.
Proof. unfold is_int64, int64. intros. rewrite Z.mod_small; lia. Qed.

Lemma int32_id z : is_int32 z -> int32 z = z.
Proof. unfold is_int32, int32. intros. rewrite Z.mod_small; lia. Qed.

Lemma uint64_range z : is_uint64 (uint64 z).
Proof. apply Z.mod_pos_bound. lia. Qed.

Lemma int64_range z : is_int64 (int64 z).
Proof.
  unfold is_int64, int64.
  pose proof (Z.mod_pos_bound (z + 2 ^ 63) (2 ^ 64)). lia.
Qed.

(** A signed value survives the conversion to [uint64] and back. *)
Lemma int64_uint64 z : is_int64 z -> int64 (uint64 z) = z.
Proof.
  unfold is_int64, int64, uint64. intros.
  rewrite Zplus_mod_idemp_l. rewrite Z.mod_small; lia.
Qed.

Lemma int32_uint64 z : is_int32 z -> int32 (uint64 z) = z.
Proof.
  unfold is_int32, int32, uint64. intros.
  replace (2 ^ 64) with (2 ^ 32 * 2 ^ 32) by done.
  rewrite <- Zplus_mod_idemp_l.
  rewrite Z.mod_mod_divide by (exists (2 ^ 32); lia).
  rewrite Zplus_mod_idemp_l. rewrite Z.mod_small; lia.
Qed.

(** ** Bytes and byte slices *)

Abbreviation byte := Byte.byte.
Abbreviation bytes := (list byte).

#[export] Instance byte_eq_dec : EqDecision byte := Byte.byte_eq_dec.
#[export] Program Instance byte_countable : Countable byte :=
  inj_countable Byte.to_N Byte.of_N Byte.of_to_N.

Definition byte_Z (b : byte) : Z := Z.of_N (Byte.to_N b).

(** Conversion [byte(z)]: the low eight bits. *)
Definition Z_byte (z : Z) : byte :=
  match Byte.of_N (Z.to_N (z mod 256)) with
  | Some b => b
  | None => Byte.x00
  end.

Lemma byte_Z_range b : 0 <= byte_Z b < 256.
Proof. unfold byte_Z. pose proof (Byte.to_N_bounded b). lia. Qed.

Lemma byte_Z_of z : byte_Z (Z_byte z) = z mod 256.
Proof.
  unfold Z_byte, byte_Z.
  pose proof (Z.mod_pos_bound z 256 ltac:(lia)) as Hr.
  destruct (Byte.of_N _) as [b|] eqn:E.
  - apply Byte.to_of_N_iff in E. rewrite E. lia.
  - apply Byte.of_N_None_iff in E. lia.
Qed.

Lemma byte_Z_inj b1 b2 : byte_Z b1 = byte_Z b2 -> b1 = b2.
Proof.
  unfold byte_Z. intros H%N2Z.inj.
  pose proof (Byte.of_to_N b1). pose proof (Byte.of_to_N b2). congruence.
Qed.

Lemma Z_byte_Z b : Z_byte (byte_Z b) = b.
Proof.
  apply byte_Z_inj. rewrite byte_Z_of. apply Z.mod_small, byte_Z_range.
Qed.

Definition len {A} (l : list A) : Z := Z.of_nat (length l).

Lemma len_nonneg {A} (l : list A) : 0 <= len l.
Proof. unfold len. lia. Qed.

Lemma len_app {A} (l1 l2 : list A) : len (l1 ++ l2) = len l1 + len l2.
Proof. unfold len. rewrite length_app. lia. Qed.

Lemma len_cons {A} (x : A) l : len (x :: l) = 1 + len l.
Proof. unfold len. simpl length. lia. Qed.

Lemma len_nil {A} : len (@nil A) = 0.
Proof. done. Qed.

Lemma len_pos {A} (l : list A) : l <> [] -> 0 < len l.
Proof. destruct l as [|x l]; [done|]. intros _. rewrite len_cons. pose proof (len_nonneg l). lia. Qed.

(** [[]byte("...")]. *)
Definition str (s : string) : bytes := String.list_byte_of_string s.

(** ** [bytes.Compare]: lexicographic order on unsigned bytes *)

Fixpoint bytes_compare (a b : bytes) : comparison :=
  match a, b with
  | [], [] => Eq
  | [], _ :: _ => Lt
  | _ :: _, [] => Gt
  | x :: a', y :: b' =>
      match byte_Z x ?= byte_Z y with
      | Eq => bytes_compare a' b'
      | c => c
      end
  end.

Definition bytes_lt (a b : bytes) : Prop := bytes_compare a b = Lt.
Definition bytes_le (a b : bytes) : Prop := bytes_compare a b <> Gt.

#[export] Instance bytes_lt_dec a b : Decision (bytes_lt a b).
Proof. unfold bytes_lt. solve_decision. Defined.
#[export] Instance bytes_le_dec a b : Decision (bytes_le a b).
Proof. unfold bytes_le. solve_decision. Defined.

Lemma bytes_compare_refl a : bytes_compare a a = Eq.
Proof. induction a; simpl; [done|]. by rewrite Z.compare_refl. Qed.

Lemma bytes_compare_eq a b : bytes_compare a b = Eq <-> a = b.
Proof.
  split; [|intros ->; apply bytes_compare_refl].
  revert b; induction a as [|x a IH]; intros [|y b]; simpl; try done.
  destruct (Z.compare_spec (byte_Z x) (byte_Z y)) as [E| |]; try done.
  intros ?%IH. apply byte_Z_inj in E. congruence.
Qed.

Lemma bytes_compare_antisym a b : bytes_compare b a = CompOpp (bytes_compare a b).
Proof.
  revert b; induction a as [|x a IH]; intros [|y b]; simpl; try done.
  rewrite (Z.compare_antisym (byte_Z x) (byte_Z y)). destruct (byte_Z x ?= byte_Z y); simpl; auto.
Qed.

#[export] Instance bytes_lt_trans : Transitive bytes_lt.
Proof.
  unfold bytes_lt. intros a; induction a as [|x a IH]; intros [|y b] [|z c]; simpl; try done.
  destruct (Z.compare_spec (byte_Z x) (byte_Z y)); try done;
  destruct (Z.compare_spec (byte_Z y) (byte_Z z)); try done; intros H1 H2.
  - replace (byte_Z x ?= byte_Z z) with Eq by (symmetry; apply Z.compare_eq_iff; lia). eauto.
  - replace (byte_Z x ?= byte_Z z) with Lt by (symmetry; apply Z.compare_lt_iff; lia). done.
  - replace (byte_Z x ?= byte_Z z) with Lt by (symmetry; apply Z.compare_lt_iff; lia). done.
  - replace (byte_Z x ?= byte_Z z) with Lt by (symmetry; apply Z.compare_lt_iff; lia). done.
Qed.

#[export] Instance bytes_lt_irrefl : Irreflexive bytes_lt.
Proof. intros a H. unfold bytes_lt in H. by rewrite bytes_compare_refl in H. Qed.

Lemma bytes_le_lt_or_eq a b : bytes_le a b <-> bytes_lt a b \/ a = b.
Proof.
  unfold bytes_le, bytes_lt. rewrite <- (bytes_compare_eq a b).
  destruct (bytes_compare a b); simpl; intuition congruence.
Qed.

Lemma bytes_nlt a b : ~ bytes_lt a b <-> bytes_le b a.
Proof.
  unfold bytes_le, bytes_lt. rewrite (bytes_compare_antisym a b).
  destruct (bytes_compare a b); simpl; intuition congruence.
Qed.

Lemma bytes_nle a b : ~ bytes_le a b <-> bytes_lt b a.
Proof.
  unfold bytes_le, bytes_lt. rewrite (bytes_compare_antisym a b).
  destruct (bytes_compare a b); simpl; intuition congruence.
Qed.

#[export] Instance bytes_le_trans : Transitive bytes_le.
Proof.
  intros a b c. rewrite !bytes_le_lt_or_eq.
  intros [?| ->] [?| ->]; auto. left. by transitivity b.
Qed.

#[export] Instance bytes_le_refl : Reflexive bytes_le.
Proof. intros a. rewrite bytes_le_lt_or_eq. auto. Qed.

#[export] Instance bytes_le_total : Total bytes_le.
Proof.
  intros a b. rewrite !bytes_le_lt_or_eq. unfold bytes_lt.
  rewrite <- (bytes_compare_eq a b), (bytes_compare_antisym a b).
  destruct (bytes_compare a b); simpl; intuition congruence.
Qed.

Lemma bytes_le_nil a : bytes_le [] a.
Proof. by destruct a. Qed.

(** A common prefix does not matter. *)
Lemma bytes_compare_app p a b : bytes_compare (p ++ a) (p ++ b) = bytes_compare a b.
Proof. induction p; simpl; [done|]. by rewrite Z.compare_refl. Qed.

(** ** Little-endian [uint64] *)

Fixpoint le_bytes (n : nat) (z : Z) : bytes :=
  match n with
  | O => []
  | S n' => Z_byte z :: le_bytes n' (z / 256)
  end.

Fixpoint le_Z (bs : bytes) : Z :=
  match bs with
  | [] => 0
  | b :: bs' => byte_Z b + 256 * le_Z bs'
  end.

(** [binary.LittleEndian.PutUint64] into a fresh 8-byte slice. *)
Definition PutUint64 (z : Z) : bytes := le_bytes 8 z.

(** [binary.LittleEndian.Uint64]: reads the first eight bytes, panics on a
    shorter slice. *)
Definition Uint64 (bs : bytes) : res Z :=
  if (8 <=? length bs)%nat then Ok (le_Z (take 8 bs)) else Panic.

Lemma le_bytes_length n z : length (le_bytes n z) = n.
Proof. revert z; induction n; simpl; auto. Qed.

Lemma le_Z_bytes n z : 0 <= z < 256 ^ Z.of_nat n -> le_Z (le_bytes n z) = z.
Proof.
  revert z; induction n as [|n IH]; intros z Hz.
  - simpl in *. lia.
  - cbn [le_bytes le_Z]. rewrite byte_Z_of. rewrite Nat2Z.inj_succ, Z.pow_succ_r in Hz by lia.
    rewrite IH; [|split; [apply Z.div_pos|apply Z.div_lt_upper_bound]; lia].
    pose proof (Z.div_mod z 256). lia.
Qed.

Lemma le_Z_range bs : 0 <= le_Z bs < 256 ^ Z.of_nat (length bs).
Proof.
  induction bs as [|b bs IH]; [simpl; lia|]. cbn [le_Z length].
  rewrite Nat2Z.inj_succ, Z.pow_succ_r by lia. pose proof (byte_Z_range b). lia.
Qed.

Lemma Uint64_PutUint64 z : is_uint64 z -> Uint64 (PutUint64 z) = Ok z.
Proof.
  intros Hz. unfold Uint64, PutUint64. rewrite le_bytes_length. simpl Nat.leb. cbv iota.
  rewrite take_ge by (by rewrite le_bytes_length).
  rewrite le_Z_bytes; [done|]. apply Hz.
Qed.

(** ** Strictly sorted lists are determined by their elements *)

Lemma StronglySorted_ext {A} (R : relation A) `{!Transitive R, !Irreflexive R} l1 l2 :
  StronglySorted R l1 -> StronglySorted R l2 ->
  (forall x, x ∈ l1 <-> x ∈ l2) -> l1 = l2.
Proof.
  intros H1; revert l2; induction H1 as [|x l1 H1 IH HF1]; intros l2 H2 Hin.
  - destruct l2 as [|y l2]; [done|].
    exfalso. apply (not_elem_of_nil y), Hin. by left.
  - destruct H2 as [|y l2 H2 HF2].
    { exfalso. apply (not_elem_of_nil x), Hin. by left. }
    rewrite Forall_forall in HF1. rewrite Forall_forall in HF2.
    assert (x = y) as ->.
    { pose proof (proj1 (Hin x)) as Hx. pose proof (proj2 (Hin y)) as Hy.
      rewrite !elem_of_cons in Hx, Hy.
      destruct Hx as [|Hx]; [by left|done|]. destruct Hy as [|Hy]; [by left|done|].
      exfalso. apply (irreflexivity R x). transitivity y; auto. }
    f_equal. apply IH; [done|]. intros z. specialize (Hin z). rewrite !elem_of_cons in Hin.
    split; intros Hz.
    + destruct (proj1 Hin (or_intror Hz)) as [->|]; [|done].
      exfalso. apply (irreflexivity R y); auto.
    + destruct (proj2 Hin (or_intror Hz)) as [->|]; [|done].
      exfalso. apply (irreflexivity R y); auto.
Qed.
