(* ===== verification/Key.v ===== *)
(** * Internal keys ([storage/table/key/key.go], [v1.go])

    The versioned key format under which every record of a table is stored:
    a 4-byte header holding the version, then (version 1) a type byte and the
    key data.  The file models the encoder, the stream decoder and the
    zero-copy [DecodeBytes], and shows that the format round-trips, preserves
    the order of the data and separates user keys from system keys. *)

From S2P Require Import Prelude.

(** ** Constants *)

Definition TypeUnknown : byte := Byte.x00.
Definition TypeUser : byte := Byte.x01.
Definition TypeSystem : byte := Byte.x02.

Definition keyHeaderLen : nat := 4.
Definition UnknownVersion : byte := Byte.x00.
Definition V1 : byte := Byte.x01.
Definition LatestVersion : byte := V1.
Definition V1KeyLen : nat := 1024.
Definition LatestVersionLen : Z := 1024.
Definition keyV1BodyLen : nat := V1KeyLen - keyHeaderLen.

Definition V1Len (userkeyLen : Z) : Z := Z.of_nat keyHeaderLen + 1 + userkeyLen.

Definition V1MinKey : bytes := replicate (keyV1BodyLen - 1) Byte.x00.
Definition V1MaxKey : bytes := replicate (keyV1BodyLen - 1) Byte.xff.
Definition LatestMaxKey : bytes := V1MaxKey.

(** ** Data *)

Record Key := mkKey { version : byte; KeyType : byte; Key_ : bytes }.
Record keyV1 := mkKeyV1 { keyType : byte; key : bytes }.

#[export] Instance Key_eq_dec : EqDecision Key.
Proof. solve_decision. Defined.

(** [Key.reset]. *)
Definition Key_reset (k : Key) : Key := mkKey UnknownVersion TypeUnknown [].

(** ** Encoding

    The writers the program passes are in-memory buffers, whose [Write] never
    fails; an encoder returns the buffer with what it has written, also when
    it fails after writing the header. *)

(** [keyV1.Encode]. *)
Definition keyV1_Encode (k : keyV1) (w : bytes) : bytes * Z :=
  let bs := keyType k :: key k in
  (w ++ bs, len bs).

(** [Encoder.Encode]: the buffer, the key with its version filled in, and the
    number of bytes written or the error. *)
Definition Encode (k : Key) (w : bytes) : bytes * Key * res Z :=
  let k := if decide (version k = UnknownVersion)
           then mkKey LatestVersion (KeyType k) (Key_ k) else k in
  let header := version k :: replicate (keyHeaderLen - 1) Byte.x00 in
  let w := w ++ header in
  if decide (version k = V1) then
    let '(w, n) := keyV1_Encode (mkKeyV1 (KeyType k) (Key_ k)) w in
    (w, k, Ok (Z.of_nat keyHeaderLen + n))
  else (w, k, Err ErrUnknownKeyVersion).

(** ** Decoding *)

(** [keyV1.Decode]: at most [keyV1BodyLen] bytes of the reader are consumed. *)
Definition keyV1_Decode (r : bytes) : res (keyV1 * bytes) :=
  let bs := take keyV1BodyLen r in
  match bs with
  | [] => Err ErrMissingKeyType
  | t :: data => Ok (mkKeyV1 t data, drop keyV1BodyLen r)
  end.

(** [Decoder.Decode]: the decoded key and the rest of the reader. *)
Definition Decode (r : bytes) : res (Key * bytes) :=
  if (length r <? keyHeaderLen)%nat then Err ErrMissingKeyHeader else
  let header := take keyHeaderLen r in
  let r := drop keyHeaderLen r in
  if forallb (fun b => bool_decide (b = Byte.x00)) (drop 1 header) then
    if decide (head header = Some V1) then
      '(k, r) ← keyV1_Decode r;
      Ok (mkKey V1 (keyType k) (key k), r)
    else Err ErrUnknownKeyVersion
  else Err ErrMalformedKeyHeader.

(** [v1DecodeRaw]. *)
Definition v1DecodeRaw (raw : bytes) : keyV1 :=
  if (1 <? length raw)%nat then
    match raw with
    | t :: data => mkKeyV1 t data
    | [] => mkKeyV1 TypeUnknown []
    end
  else mkKeyV1 TypeUnknown [].

(** [DecodeBytes]. *)
Definition DecodeBytes (raw : bytes) : res Key :=
  if (length raw <? keyHeaderLen)%nat then Err ErrMissingKeyHeader else
  if decide (head raw = Some V1) then
    let k := v1DecodeRaw (drop keyHeaderLen raw) in
    Ok (mkKey V1 (keyType k) (key k))
  else Err ErrUnknownKeyVersion.

(** ** Properties *)

(** The bytes of a version 1 key. *)
Definition enc (t : byte) (k : bytes) : bytes :=
  [V1; Byte.x00; Byte.x00; Byte.x00; t] ++ k.

Lemma Encode_V1 v t k w :
  v = UnknownVersion \/ v = V1 ->
  Encode (mkKey v t k) w = (w ++ enc t k, mkKey V1 t k, Ok (V1Len (len k))).
Proof.
  intros Hv. unfold Encode, keyV1_Encode, V1Len. simpl.
  assert ((if decide (v = UnknownVersion) then mkKey LatestVersion t k else mkKey v t k)
          = mkKey V1 t k) as -> by (destruct Hv as [-> | ->]; done).
  simpl. by rewrite <- app_assoc, len_cons, Z.add_assoc.
Qed.

Lemma Encode_bad_version v t k w :
  v <> UnknownVersion -> v <> V1 ->
  Encode (mkKey v t k) w =
    (w ++ [v; Byte.x00; Byte.x00; Byte.x00], mkKey v t k, Err ErrUnknownKeyVersion).
Proof.
  intros H1 H2. unfold Encode. cbn [version KeyType Key_].
  by rewrite (decide_False (P := v = UnknownVersion)), decide_False by done.
Qed.

Lemma enc_length t k : len (enc t k) = V1Len (len k).
Proof. unfold enc, V1Len. rewrite len_app. done. Qed.

Lemma enc_cons t k : enc t k = V1 :: Byte.x00 :: Byte.x00 :: Byte.x00 :: t :: k.
Proof. done. Qed.

Lemma DecodeBytes_enc t k : k <> [] -> DecodeBytes (enc t k) = Ok (mkKey V1 t k).
Proof. intros Hk. destruct k; [done|]. by unfold DecodeBytes, v1DecodeRaw; simpl. Qed.

(** Only the type byte is present: the zero-copy decoder drops the type. *)
Lemma DecodeBytes_enc_nil t : DecodeBytes (enc t []) = Ok (mkKey V1 TypeUnknown []).
Proof. done. Qed.

Lemma Decode_enc t k :
  Decode (enc t k) = Ok (mkKey V1 t (take (keyV1BodyLen - 1) k), drop (keyV1BodyLen - 1) k).
Proof. done. Qed.

Lemma enc_inj t1 t2 k1 k2 : enc t1 k1 = enc t2 k2 -> t1 = t2 /\ k1 = k2.
Proof. unfold enc. simpl. intros. simplify_eq. done. Qed.

#[export] Instance enc_Inj t : Inj (=) (=) (enc t).
Proof. intros k1 k2 H. apply (enc_inj t t k1 k2 H). Qed.

Lemma enc_compare t a b : bytes_compare (enc t a) (enc t b) = bytes_compare a b.
Proof. apply bytes_compare_app. Qed.

Lemma enc_lt t a b : bytes_lt (enc t a) (enc t b) <-> bytes_lt a b.
Proof. unfold bytes_lt. rewrite enc_compare. tauto. Qed.

Lemma enc_le t a b : bytes_le (enc t a) (enc t b) <-> bytes_le a b.
Proof. unfold bytes_le. rewrite enc_compare. tauto. Qed.

Lemma enc_lt_type t1 t2 a b : byte_Z t1 < byte_Z t2 -> bytes_lt (enc t1 a) (enc t2 b).
Proof.
  intros H. unfold bytes_lt, enc. simpl.
  by replace (byte_Z t1 ?= byte_Z t2) with Lt by (symmetry; apply Z.compare_lt_iff; lia).
Qed.

(** A stored key between two keys of one type is itself a key of that type:
    the range of a type is contiguous. *)
Lemma enc_convex t lo k hi :
  bytes_le (enc t lo) k -> bytes_lt k (enc t hi) -> exists d, k = enc t d.
Proof.
  unfold bytes_le, bytes_lt. rewrite !enc_cons. intros Hlo Hhi.
  do 5 (destruct k as [|? k]; [by destruct Hlo|]; cbn [bytes_compare] in Hlo, Hhi;
    match type of Hlo with
    | context [byte_Z ?x ?= byte_Z ?y] =>
        rewrite (Z.compare_antisym (byte_Z x) (byte_Z y)) in Hhi;
        destruct (Z.compare_spec (byte_Z x) (byte_Z y)) as [E%byte_Z_inj| |];
        cbn [CompOpp] in Hhi; [subst|discriminate Hhi|by destruct Hlo]
    end).
  by exists k.
Qed.

(** A version 1 key with data round-trips through the encoder and the
    zero-copy decoder, whatever its type and length. *)
Theorem key_roundtrip_bytes v t k w :
  v = UnknownVersion \/ v = V1 -> k <> [] ->
  let '(buf, k', n) := Encode (mkKey v t k) w in
  buf = w ++ enc t k /\ n = Ok (V1Len (len k)) /\ DecodeBytes (drop (length w) buf) = Ok k'.
Proof.
  intros Hv Hk. rewrite Encode_V1 by done.
  rewrite drop_app_length. auto using DecodeBytes_enc.
Qed.

Lemma key_roundtrip_bytes_witness :
  let '(buf, k', n) := Encode (mkKey V1 TypeUser (str "foo")) (str "w") in
  buf = str "w" ++ enc TypeUser (str "foo") /\ n = Ok (V1Len 3) /\ DecodeBytes (drop 1 buf) = Ok k'.
Proof. exact (key_roundtrip_bytes V1 TypeUser (str "foo") (str "w") (or_intror eq_refl) ltac:(done)). Defined.
