(* ===== verification/Wire.v ===== *)
(** * Protobuf wire primitives ([regattapb/mvcc_vtproto.pb.go])

    The code that [protoc-gen-go-vtproto] repeats in every message: varints
    ([sov], [encodeVarint] and the decoding loop), length-delimited fields,
    [skip] for unknown fields, and the field loop of [UnmarshalVT].  The
    generated code inlines the loops; here each is one definition, used by the
    messages of [Codec]. *)

From S2P Require Import Prelude.

(** ** Writing

    [MarshalToSizedBufferVT] fills a buffer from its end: [i] moves down and
    everything from [i] on is final.  The model keeps that final suffix, so
    [i -= n; copy(dAtA[i:], x)] is [x ++ d]. *)

(** [bits.Len64]. *)
Definition Len64 (x : Z) : Z := if x =? 0 then 0 else Z.log2 x + 1.

(** [sov]: the number of bytes of the varint of [x]. *)
Definition sov (x : Z) : Z := (Len64 (Z.lor x 1) + 6) / 7.

(** The writing loop of [encodeVarint]: at most ten bytes for a [uint64]. *)
Fixpoint varint_loop (fuel : nat) (v : Z) : bytes :=
  match fuel with
  | O => []
  | S fuel' =>
      if 128 <=? v
      then Z_byte (Z.lor (Z.land v 127) 128) :: varint_loop fuel' (Z.shiftr v 7)
      else [Z_byte v]
  end.
Definition varint_bytes (v : Z) : bytes := varint_loop 10 v.

(** [encodeVarint]: makes room for [sov v] bytes in front of [d] and writes the
    varint there, going on over [d] if there was not enough room. *)
Definition encodeVarint (v : Z) (d : bytes) : bytes :=
  let room := replicate (Z.to_nat (sov v)) Byte.x00 ++ d in
  varint_bytes v ++ drop (length (varint_bytes v)) room.

(** A length-delimited field with a one-byte tag. *)
Definition put_bytes (tag : byte) (x : bytes) (d : bytes) : bytes :=
  tag :: encodeVarint (len x) (x ++ d).

(** A varint field with a one-byte tag. *)
Definition put_varint (tag : byte) (v : Z) (d : bytes) : bytes :=
  tag :: encodeVarint v d.

(** A [bool] field, written only when it is true. *)
Definition put_bool (tag : byte) (b : bool) (d : bytes) : bytes :=
  if b then tag :: Byte.x01 :: d else d.

(** [MarshalVT]: a buffer of [size] bytes, of which [MarshalToSizedBufferVT]
    fills the end with [d]; the first [n] bytes of the buffer are returned.
    A buffer that is too small is an index out of range. *)
Definition marshal_sized (size : Z) (d : bytes) : res bytes :=
  if len d <=? size
  then Ok (take (length d) (replicate (Z.to_nat (size - len d)) Byte.x00 ++ d))
  else Panic.

(** ** Reading

    A reader position is the unread suffix; [l] is the length of the whole
    slice, so the index [iNdEx] of the code is [l - len d]. *)

(** The decoding loop of a varint, accumulated as a [uint64]; the fields of a
    narrower or signed type take the low bits of it. *)
Fixpoint varint_go (d : bytes) (shift acc : Z) : res (Z * bytes) :=
  if 64 <=? shift then Err ErrIntOverflow else
  match d with
  | [] => Err ErrUnexpectedEOF
  | b :: d' =>
      let acc := Z.lor acc (uint64 (Z.shiftl (Z.land (byte_Z b) 127) shift)) in
      if byte_Z b <? 128 then Ok (acc, d') else varint_go d' (shift + 7) acc
  end.
Definition read_varint (d : bytes) : res (Z * bytes) := varint_go d 0 0.

(** A length-delimited field: its contents and what follows. *)
Definition read_delimited (l : Z) (d : bytes) : res (bytes * bytes) :=
  '(v, d) ← read_varint d;
  let byteLen := int64 v in
  if byteLen <? 0 then Err ErrInvalidLength else
  let postIndex := int64 (l - len d + byteLen) in
  if postIndex <? 0 then Err ErrInvalidLength else
  if l <? postIndex then Err ErrUnexpectedEOF else
  Ok (take (Z.to_nat byteLen) d, drop (Z.to_nat byteLen) d).

(** The varint that [skip] passes over without keeping its value. *)
Fixpoint skip_varint (d : bytes) (iNdEx shift : Z) : res Z :=
  if 64 <=? shift then Err ErrIntOverflow else
  match d with
  | [] => Err ErrUnexpectedEOF
  | b :: d' => if byte_Z b <? 128 then Ok (iNdEx + 1) else skip_varint d' (iNdEx + 1) (shift + 7)
  end.

(** One round of [skip]: the tag at [iNdEx] and what it announces; the new
    index and nesting depth. *)
Definition skip_step (dAtA : bytes) (iNdEx depth : Z) : res (Z * Z) :=
  let l := len dAtA in
  '(wire, d) ← read_varint (drop (Z.to_nat iNdEx) dAtA);
  let i := l - len d in
  match Z.land wire 7 with
  | 0 => j ← skip_varint d i 0; Ok (j, depth)
  | 1 => Ok (int64 (i + 8), depth)
  | 2 => '(v, d) ← read_varint d;
         let length := int64 v in
         if length <? 0 then Err ErrInvalidLength
         else Ok (int64 (l - len d + length), depth)
  | 3 => Ok (i, depth + 1)
  | 4 => if depth =? 0 then Err ErrUnexpectedEndOfGroup else Ok (i, depth - 1)
  | 5 => Ok (int64 (i + 4), depth)
  | _ => Err ErrIllegalWireType
  end.

(** [skip]: the length of the first field of [d], groups included.  Each round
    reads a tag, so [length d] rounds are enough. *)
Fixpoint skip_go (fuel : nat) (dAtA : bytes) (iNdEx depth : Z) : res Z :=
  if iNdEx <? len dAtA then
    match fuel with
    | O => Err ErrOutOfFuel
    | S fuel' =>
        '(i, depth) ← skip_step dAtA iNdEx depth;
        if i <? 0 then Err ErrInvalidLength else
        if depth =? 0 then Ok i else skip_go fuel' dAtA i depth
    end
  else Err ErrUnexpectedEOF.
Definition skip (dAtA : bytes) : res Z := skip_go (length dAtA) dAtA 0 0.

(** What one [case] of the [switch] does: read the field that starts at [d]
    and return the message with the field set and the rest; [None] is the
    [default] case. *)
Definition field_reader (M : Type) : Type := M -> Z -> Z -> Z -> bytes -> option (res (M * bytes)).

Section Loop.
Context {M : Type} (field : field_reader M) (add_unknown : bytes -> M -> M).

(** The [for iNdEx < l] loop of [UnmarshalVT]. *)
Fixpoint unmarshal_loop (fuel : nat) (l : Z) (d : bytes) (m : M) : res M :=
  match d with
  | [] => Ok m
  | _ :: _ =>
      match fuel with
      | O => Err ErrOutOfFuel
      | S fuel' =>
          '(wire, d') ← read_varint d;
          let fieldNum := int32 (Z.shiftr wire 3) in
          let wireType := Z.land wire 7 in
          if wireType =? 4 then Err ErrEndGroupForNonGroup else
          if fieldNum <=? 0 then Err ErrIllegalTag else
          match field m l fieldNum wireType d' with
          | Some r => '(m', d'') ← r; unmarshal_loop fuel' l d'' m'
          | None =>
              skippy ← skip d;
              let iNdEx := l - len d in
              if (skippy <? 0) || (int64 (iNdEx + skippy) <? 0) then Err ErrInvalidLength else
              if l <? iNdEx + skippy then Err ErrUnexpectedEOF else
              unmarshal_loop fuel' l (drop (Z.to_nat skippy) d)
                (add_unknown (take (Z.to_nat skippy) d) m)
          end
      end
  end.

Definition unmarshal (dAtA : bytes) (m : M) : res M :=
  unmarshal_loop (length dAtA) (len dAtA) dAtA m.
End Loop.

(** The [case] of a field of each kind. *)
Definition bytes_field {M} (set : bytes -> M -> M) (m : M) (l wireType : Z) (d : bytes)
    : option (res (M * bytes)) :=
  Some (if wireType =? 2 then '(x, d) ← read_delimited l d; Ok (set x m, d)
        else Err ErrWrongWireType).

Definition varint_field {M} (set : Z -> M -> M) (m : M) (wireType : Z) (d : bytes)
    : option (res (M * bytes)) :=
  Some (if wireType =? 0 then '(v, d) ← read_varint d; Ok (set v m, d)
        else Err ErrWrongWireType).

Definition message_field {M} (set : bytes -> M -> res M) (m : M) (l wireType : Z) (d : bytes)
    : option (res (M * bytes)) :=
  Some (if wireType =? 2 then '(x, d) ← read_delimited l d; m ← set x m; Ok (m, d)
        else Err ErrWrongWireType).

(** ** Varints *)

Lemma sov_log2 v : 0 <= v -> sov v = Z.log2 v / 7 + 1.
Proof.
  intros Hv. unfold sov, Len64.
  assert (0 < Z.lor v 1) as Hpos.
  { assert (0 <= Z.lor v 1) by (apply Z.lor_nonneg; lia).
    assert (Z.lor v 1 <> 0) by (rewrite Z.lor_eq_0_iff; lia). lia. }
  rewrite (proj2 (Z.eqb_neq _ _)) by lia.
  rewrite Z.log2_lor by lia. change (Z.log2 1) with 0.
  rewrite Z.max_l by apply Z.log2_nonneg.
  replace (Z.log2 v + 1 + 6) with (Z.log2 v + 1 * 7) by lia.
  by rewrite Z.div_add by lia.
Qed.

Lemma sov_small v : 0 <= v < 128 -> sov v = 1.
Proof.
  intros Hv. rewrite sov_log2 by lia. rewrite Z.div_small; [done|].
  split; [apply Z.log2_nonneg|].
  destruct (Z.eq_dec v 0) as [-> |]; [done|]. apply Z.log2_lt_pow2; lia.
Qed.

Lemma sov_step v : 128 <= v -> sov v = 1 + sov (Z.shiftr v 7).
Proof.
  intros Hv. rewrite !sov_log2 by (try apply Z.shiftr_nonneg; lia).
  assert (7 <= Z.log2 v) by (apply Z.log2_le_pow2; lia).
  rewrite Z.log2_shiftr by lia. rewrite Z.max_r by lia.
  replace (Z.log2 v) with (Z.log2 v - 7 + 1 * 7) at 1 by lia.
  rewrite Z.div_add by lia. lia.
Qed.

Lemma sov_pos v : 0 <= v -> 1 <= sov v.
Proof.
  intros Hv. rewrite sov_log2 by done.
  pose proof (Z.div_pos (Z.log2 v) 7 (Z.log2_nonneg v)). lia.
Qed.

(** The varint of a value below [2^(7 n)] has at most [n] bytes. *)
Lemma sov_le v n : 0 < n -> 0 <= v < 2 ^ (7 * n) -> sov v <= n.
Proof.
  intros Hn Hv. rewrite sov_log2 by lia.
  destruct (Z.eq_dec v 0) as [-> |]; [simpl; change (0 / 7) with 0; lia|].
  assert (Z.log2 v < 7 * n) by (apply Z.log2_lt_pow2; lia).
  assert (Z.log2 v / 7 < n) by (apply Z.div_lt_upper_bound; lia). lia.
Qed.

Lemma land127_range v : 0 <= Z.land v 127 < 128.
Proof.
  change 127 with (Z.ones 7). rewrite Z.land_ones by lia.
  apply Z.mod_pos_bound. lia.
Qed.

Lemma lor_128 x : 0 <= x < 128 -> Z.lor x 128 = x + 128.
Proof.
  intros Hx. assert (Z.land x 128 = 0) as H0.
  { apply Z.bits_inj'. intros n Hn. rewrite Z.land_spec, Z.bits_0.
    change 128 with (2 ^ 7). rewrite Z.pow2_bits_eqb by lia.
    destruct (Z.eqb_spec 7 n) as [<-|]; [|by rewrite andb_false_r].
    rewrite <- (Z.mod_small x (2 ^ 7)) by lia.
    by rewrite Z.mod_pow2_bits_high. }
  rewrite <- Z.lxor_lor by done. by rewrite Z.add_nocarry_lxor.
Qed.

Lemma varint_byte v : byte_Z (Z_byte (Z.lor (Z.land v 127) 128)) = Z.land v 127 + 128.
Proof.
  pose proof (land127_range v). rewrite byte_Z_of, lor_128 by lia.
  apply Z.mod_small. lia.
Qed.

Lemma varint_byte_low v :
  Z.land (byte_Z (Z_byte (Z.lor (Z.land v 127) 128))) 127 = Z.land v 127.
Proof.
  rewrite varint_byte. rewrite <- lor_128 by apply land127_range.
  rewrite Z.land_lor_distr_l. change (Z.land 128 127) with 0. rewrite Z.lor_0_r.
  by rewrite <- Z.land_assoc.
Qed.

Lemma split7 v : Z.lor (Z.land v 127) (Z.shiftl (Z.shiftr v 7) 7) = v.
Proof.
  apply Z.bits_inj'. intros n Hn. rewrite Z.lor_spec, Z.land_spec.
  change 127 with (Z.ones 7).
  destruct (Z.lt_ge_cases n 7).
  - rewrite Z.ones_spec_low, Z.shiftl_spec_low by lia. by rewrite andb_true_r, orb_false_r.
  - rewrite Z.ones_spec_high by lia. rewrite Z.shiftl_spec, Z.shiftr_spec by lia.
    rewrite andb_false_r. simpl. f_equal. lia.
Qed.

Lemma varint_loop_length fuel v :
  0 <= v < 2 ^ (7 * Z.of_nat fuel) -> (0 < fuel)%nat -> len (varint_loop fuel v) = sov v.
Proof.
  revert v; induction fuel as [|fuel IH]; intros v Hv Hf; [lia|].
  cbn [varint_loop]. destruct (Z.leb_spec 128 v).
  - rewrite len_cons, sov_step by done. f_equal. apply IH.
    + split; [apply Z.shiftr_nonneg; lia|]. rewrite Z.shiftr_div_pow2 by lia.
      apply Z.div_lt_upper_bound; [lia|]. rewrite <- Z.pow_add_r by lia.
      replace (7 + 7 * Z.of_nat fuel) with (7 * Z.of_nat (S fuel)) by lia. lia.
    + destruct fuel; [|lia]. simpl in Hv. lia.
  - rewrite sov_small by lia. done.
Qed.

Lemma uint64_fuel v : is_uint64 v -> 0 <= v < 2 ^ (7 * Z.of_nat 10).
Proof. unfold is_uint64. intros. simpl. lia. Qed.

Lemma varint_bytes_length v : is_uint64 v -> len (varint_bytes v) = sov v.
Proof. intros. apply varint_loop_length; [by apply uint64_fuel|lia]. Qed.

Lemma encodeVarint_eq v d : is_uint64 v -> encodeVarint v d = varint_bytes v ++ d.
Proof.
  intros Hv. unfold encodeVarint. f_equal.
  pose proof (varint_bytes_length v Hv) as Hl. unfold len in Hl.
  apply drop_app_length'. rewrite length_replicate. lia.
Qed.

Lemma encodeVarint_len_ge v d : len d <= len (encodeVarint v d).
Proof. unfold encodeVarint, len. rewrite length_app, length_drop, length_app. lia. Qed.

Lemma varint_go_loop fuel v d shift acc :
  0 <= shift -> 0 <= v -> Z.shiftl v shift < 2 ^ 64 ->
  v < 2 ^ (7 * Z.of_nat fuel) -> (0 < fuel)%nat ->
  (v = 0 -> shift < 64) ->
  varint_go (varint_loop fuel v ++ d) shift acc = Ok (Z.lor acc (Z.shiftl v shift), d).
Proof.
  revert v shift acc; induction fuel as [|fuel IH]; intros v shift acc Hs Hv Hlt Hfuel Hf H0; [lia|].
  assert (shift < 64) as Hs64.
  { destruct (Z.eq_dec v 0); [auto|]. destruct (Z.lt_ge_cases shift 64); [done|].
    rewrite Z.shiftl_mul_pow2 in Hlt by lia.
    assert (2 ^ 64 <= 2 ^ shift) by (apply Z.pow_le_mono_r; lia). nia. }
  assert (Hsmall : forall x, 0 <= x <= v -> uint64 (Z.shiftl x shift) = Z.shiftl x shift).
  { intros x Hx. apply uint64_id. unfold is_uint64.
    rewrite Z.shiftl_mul_pow2 in * by lia. nia. }
  assert (Z.land v 127 <= v) as Hland.
  { change 127 with (Z.ones 7). rewrite Z.land_ones by lia. apply Z.mod_le; lia. }
  cbn [varint_loop]. destruct (Z.leb_spec 128 v); simpl app; cbn [varint_go];
    rewrite (proj2 (Z.leb_gt 64 shift)) by lia.
  - rewrite varint_byte_low, varint_byte.
    rewrite (proj2 (Z.ltb_ge _ 128)) by (pose proof (land127_range v); lia).
    rewrite Hsmall by (pose proof (land127_range v); lia).
    rewrite IH.
    + rewrite <- Z.lor_assoc. repeat f_equal.
      rewrite Z.add_comm, <- Z.shiftl_shiftl by lia. rewrite <- Z.shiftl_lor. by rewrite split7.
    + lia.
    + apply Z.shiftr_nonneg; lia.
    + apply Z.le_lt_trans with (Z.shiftl v shift); [|done].
      rewrite Z.shiftr_div_pow2, !Z.shiftl_mul_pow2 by lia.
      rewrite Z.pow_add_r by lia. pose proof (Z.mul_div_le v (2 ^ 7)). nia.
    + rewrite Z.shiftr_div_pow2 by lia. apply Z.div_lt_upper_bound; [lia|].
      rewrite <- Z.pow_add_r by lia.
      replace (7 + 7 * Z.of_nat fuel) with (7 * Z.of_nat (S fuel)) by lia. lia.
    + destruct fuel; [|lia]. simpl in Hfuel. lia.
    + intros Hz. rewrite Z.shiftr_div_pow2 in Hz by lia.
      apply Z.div_small_iff in Hz; [|lia]. lia.
  - rewrite byte_Z_of, (Z.mod_small v 256) by lia.
    rewrite (proj2 (Z.ltb_lt v 128)) by lia.
    change 127 with (Z.ones 7). rewrite Z.land_ones, Z.mod_small by lia.
    by rewrite Hsmall by lia.
Qed.

Lemma read_varint_bytes v d : is_uint64 v -> read_varint (varint_bytes v ++ d) = Ok (v, d).
Proof.
  intros Hv. unfold read_varint, varint_bytes.
  pose proof (uint64_fuel v Hv). unfold is_uint64 in Hv.
  rewrite varint_go_loop; rewrite ?Z.shiftl_0_r; try lia. by rewrite Z.lor_0_l.
Qed.

Lemma read_varint_encode v d : is_uint64 v -> read_varint (encodeVarint v d) = Ok (v, d).
Proof. intros. by rewrite encodeVarint_eq, read_varint_bytes. Qed.

(** ** Progress: every reader consumes at least one byte *)

Lemma varint_go_shrinks d shift acc v d' :
  varint_go d shift acc = Ok (v, d') -> (length d' < length d)%nat.
Proof.
  revert shift acc; induction d as [|b d IH]; intros shift acc; simpl;
    destruct (64 <=? shift); try done.
  destruct (byte_Z b <? 128); intros H; simplify_eq; [lia|].
  apply IH in H. lia.
Qed.

Lemma read_varint_shrinks d v d' : read_varint d = Ok (v, d') -> (length d' < length d)%nat.
Proof. apply varint_go_shrinks. Qed.

Lemma read_delimited_shrinks l d x d' :
  read_delimited l d = Ok (x, d') -> (length x + length d' < length d)%nat.
Proof.
  unfold read_delimited. intros H. res_inv.
  apply read_varint_shrinks in H0.
  repeat case_match; simplify_eq. rewrite length_take, length_drop. lia.
Qed.

Lemma varint_go_range d shift acc v d' :
  0 <= shift -> is_uint64 acc -> varint_go d shift acc = Ok (v, d') -> is_uint64 v.
Proof.
  revert shift acc; induction d as [|b d IH]; intros shift acc Hs Ha; simpl;
    destruct (64 <=? shift); try done.
  assert (is_uint64 (Z.lor acc (uint64 (Z.shiftl (Z.land (byte_Z b) 127) shift)))) as Ha'.
  { pose proof (uint64_range (Z.shiftl (Z.land (byte_Z b) 127) shift)) as Hu.
    unfold is_uint64 in *. split; [apply Z.lor_nonneg; lia|].
    rewrite <- (Z.mod_small acc (2 ^ 64)), <- (Z.mod_small (uint64 _) (2 ^ 64)) by lia.
    rewrite <- !Z.land_ones by lia. rewrite <- Z.land_lor_distr_l, Z.land_ones by lia.
    apply Z.mod_pos_bound. lia. }
  destruct (byte_Z b <? 128); intros H; simplify_eq; [done|].
  eapply IH; [..|done]; [lia|done].
Qed.

Lemma read_varint_range d v d' : read_varint d = Ok (v, d') -> is_uint64 v.
Proof. apply varint_go_range; [lia|]. unfold is_uint64. lia. Qed.

Lemma skip_varint_ge d i shift j : skip_varint d i shift = Ok j -> i < j.
Proof.
  revert i shift; induction d as [|b d IH]; intros i shift; simpl; destruct (64 <=? shift); try done.
  destruct (byte_Z b <? 128); intros H; simplify_eq; [lia|]. apply IH in H. lia.
Qed.

(** Adding a length to an index: the result is at least the index, or wraps to
    a negative number. *)
Lemma int64_add i n : 0 <= i < 2 ^ 63 -> 0 <= n < 2 ^ 63 -> int64 (i + n) < 0 \/ i <= int64 (i + n).
Proof.
  intros Hi Hn. unfold int64. destruct (Z.lt_ge_cases (i + n) (2 ^ 63)).
  - right. rewrite Z.mod_small; lia.
  - left. replace (i + n + 2 ^ 63) with (i + n - 2 ^ 63 + 1 * 2 ^ 64) by lia.
    rewrite Z.mod_add by lia. rewrite Z.mod_small; lia.
Qed.

Lemma skip_step_progress dAtA i depth i' depth' :
  len dAtA < 2 ^ 63 -> 0 <= i < len dAtA ->
  skip_step dAtA i depth = Ok (i', depth') -> i' < 0 \/ i < i'.
Proof.
  intros Hl Hi Hs. apply bind_Ok_inv in Hs as ([wire d] & Hr & Hc).
  apply read_varint_shrinks in Hr. rewrite length_drop in Hr.
  assert (i < len dAtA - len d < 2 ^ 63) as Hk by (unfold len in *; lia).
  destruct (Z.land wire 7) as [|p|]; [| |done].
  - apply bind_Ok_inv in Hc as (j' & Hj & ?). simplify_eq/=. apply skip_varint_ge in Hj. lia.
  - destruct p as [[[]|[]|]|[[]|[]|]|]; try done; simplify_eq/=; try lia.
    + destruct (int64_add (len dAtA - len d) 4); lia.
    + case_match; simplify_eq; lia.
    + apply bind_Ok_inv in Hc as ([v d'] & Hv & Hc).
      destruct (Z.ltb_spec (int64 v) 0); simplify_eq.
      apply read_varint_shrinks in Hv. pose proof (int64_range v). unfold is_int64 in *.
      destruct (int64_add (len dAtA - len d') (int64 v)); unfold len in *; lia.
    + destruct (int64_add (len dAtA - len d) 8); lia.
Qed.

Lemma skip_go_ge fuel dAtA i depth j :
  len dAtA < 2 ^ 63 -> 0 <= i -> skip_go fuel dAtA i depth = Ok j -> i < j.
Proof.
  intros Hl; revert i depth; induction fuel as [|fuel IH]; intros i depth Hi; cbn [skip_go];
    destruct (Z.ltb_spec i (len dAtA)); try done.
  intros Hs. apply bind_Ok_inv in Hs as ([i' depth'] & Hc & Hs).
  apply skip_step_progress in Hc; [|lia..].
  destruct (Z.ltb_spec i' 0); [done|]. destruct (depth' =? 0); simplify_eq; [lia|].
  apply IH in Hs; lia.
Qed.

Lemma skip_pos d n : len d < 2 ^ 63 -> skip d = Ok n -> 0 < n.
Proof. intros ?. apply skip_go_ge; [done|lia]. Qed.

Lemma varint_go_fuel d shift acc : varint_go d shift acc <> Err ErrOutOfFuel.
Proof.
  revert shift acc; induction d as [|b d IH]; intros shift acc; simpl; destruct (64 <=? shift); try done.
  destruct (byte_Z b <? 128); [done|apply IH].
Qed.

Lemma skip_varint_fuel d i shift : skip_varint d i shift <> Err ErrOutOfFuel.
Proof.
  revert i shift; induction d as [|b d IH]; intros i shift; simpl; destruct (64 <=? shift); try done.
  destruct (byte_Z b <? 128); [done|apply IH].
Qed.

Lemma skip_step_fuel dAtA i depth : skip_step dAtA i depth <> Err ErrOutOfFuel.
Proof.
  unfold skip_step. destruct (read_varint _) as [[wire d]|e|] eqn:Er; simpl; [|..|done];
    [|intros [= ->]; by apply varint_go_fuel in Er].
  destruct (Z.land wire 7) as [|p|]; [| |done].
  - destruct (skip_varint _ _ _) eqn:E; try done. intros [= ->]. by apply skip_varint_fuel in E.
  - destruct p as [[[]|[]|]|[[]|[]|]|]; try done; [by case_match|].
    destruct (read_varint d) as [[v d']|e|] eqn:E; simpl; [by case_match|..|done].
    intros [= ->]. by apply varint_go_fuel in E.
Qed.

Lemma skip_go_fuel fuel dAtA i depth :
  len dAtA < 2 ^ 63 -> 0 <= i -> len dAtA - i <= Z.of_nat fuel ->
  skip_go fuel dAtA i depth <> Err ErrOutOfFuel.
Proof.
  intros Hl; revert i depth; induction fuel as [|fuel IH]; intros i depth Hi Hf; cbn [skip_go];
    destruct (Z.ltb_spec i (len dAtA)); try done; [lia|].
  destruct (skip_step dAtA i depth) as [[i' depth']|e|] eqn:Es; simpl; [|..|done].
  - apply skip_step_progress in Es; [|lia..].
    destruct (Z.ltb_spec i' 0); [done|]. destruct (depth' =? 0); [done|]. apply IH; lia.
  - intros [= ->]. by apply skip_step_fuel in Es.
Qed.

Lemma skip_fuel d : len d < 2 ^ 63 -> skip d <> Err ErrOutOfFuel.
Proof. intros. apply skip_go_fuel; [done|lia|]. unfold len. lia. Qed.

(** ** The field loop *)

Lemma read_varint_tag b d : byte_Z b < 128 -> read_varint (b :: d) = Ok (byte_Z b, d).
Proof.
  intros Hb. pose proof (byte_Z_range b). unfold read_varint. cbn [varint_go].
  rewrite (proj2 (Z.ltb_lt _ 128)) by lia. simpl (64 <=? 0). cbv iota. rewrite Z.shiftl_0_r.
  change 127 with (Z.ones 7). rewrite Z.land_ones, Z.mod_small by lia.
  rewrite uint64_id by (unfold is_uint64; lia). by rewrite Z.lor_0_l.
Qed.

Lemma put_bytes_len tag x d :
  is_uint64 (len x) -> len (put_bytes tag x d) = 1 + len x + sov (len x) + len d.
Proof.
  intros. unfold put_bytes. rewrite len_cons, encodeVarint_eq, !len_app by done.
  rewrite varint_bytes_length by done. lia.
Qed.

Lemma put_varint_len tag v d :
  is_uint64 v -> len (put_varint tag v d) = 1 + sov v + len d.
Proof.
  intros. unfold put_varint. rewrite len_cons, encodeVarint_eq, !len_app by done.
  rewrite varint_bytes_length by done. lia.
Qed.

Lemma put_bool_len tag b d : len (put_bool tag b d) = (if b then 2 else 0) + len d.
Proof. destruct b; simpl; rewrite ?len_cons; lia. Qed.

Lemma read_delimited_put l x d :
  len x + len d <= l -> l < 2 ^ 63 ->
  read_delimited l (encodeVarint (len x) (x ++ d)) = Ok (x, d).
Proof.
  intros H1 H2. pose proof (len_nonneg x). pose proof (len_nonneg d).
  unfold read_delimited.
  rewrite read_varint_encode by (unfold is_uint64; lia). simpl.
  rewrite int64_id by (unfold is_int64; lia). rewrite len_app.
  rewrite int64_id by (unfold is_int64; lia).
  rewrite (proj2 (Z.ltb_ge _ _)) by lia. rewrite (proj2 (Z.ltb_ge _ _)) by lia.
  rewrite (proj2 (Z.ltb_ge _ _)) by lia. unfold len. rewrite Nat2Z.id.
  by rewrite take_app_length, drop_app_length.
Qed.

(** The value a decoded bool takes, [bool(v != 0)]. *)
Lemma b2z_bool b : negb (Z.b2z b =? 0) = b.
Proof. by destruct b. Qed.

Section LoopLemmas.
Context {M : Type} (field : field_reader M) (add_unknown : bytes -> M -> M).
Local Abbreviation loop := (unmarshal_loop field add_unknown).

(** [parses l d m r]: with enough fuel the loop reads all of [d], starting
    from [m], and returns [r]. *)
Definition parses (l : Z) (d : bytes) (m r : M) : Prop :=
  len d <= l -> forall fuel, (length d <= fuel)%nat -> loop fuel l d m = Ok r.

Lemma parses_nil l m : parses l [] m m.
Proof. intros _ [|fuel] _; done. Qed.

Lemma parses_step l d wire d1 m m' d' r :
  read_varint d = Ok (wire, d1) ->
  0 < int32 (Z.shiftr wire 3) -> Z.land wire 7 <> 4 ->
  (len d1 <= l ->
   field m l (int32 (Z.shiftr wire 3)) (Z.land wire 7) d1 = Some (Ok (m', d'))) ->
  (length d' <= length d1)%nat ->
  parses l d' m' r -> parses l d m r.
Proof.
  intros Hr Hf Hw Hfield Hlen Hp Hl fuel Hfuel.
  pose proof (read_varint_shrinks _ _ _ Hr) as Hsh.
  destruct d as [|b d]; [simpl in Hsh; lia|].
  destruct fuel as [|fuel]; [simpl in Hfuel; lia|].
  cbn [unmarshal_loop]. rewrite Hr. simpl.
  rewrite (proj2 (Z.eqb_neq _ _)) by done. rewrite (proj2 (Z.leb_gt _ _)) by done.
  rewrite Hfield by (unfold len in *; lia). simpl.
  apply Hp; unfold len in *; simpl in *; lia.
Qed.

(** One field with a one-byte tag [tag = 8 f + wt]. *)
Lemma parses_tag l f wt tag d1 m m' d' r :
  byte_Z tag = 8 * f + wt -> 0 < f < 16 -> (wt = 0 \/ wt = 2) ->
  (len d1 <= l -> field m l f wt d1 = Some (Ok (m', d'))) ->
  (length d' <= length d1)%nat ->
  parses l d' m' r -> parses l (tag :: d1) m r.
Proof.
  intros Ht Hf Hwt Hfield Hlen Hp.
  assert (Z.shiftr (byte_Z tag) 3 = f) as Ef.
  { rewrite Z.shiftr_div_pow2 by lia. rewrite Ht.
    replace (8 * f + wt) with (wt + f * 2 ^ 3) by lia.
    rewrite Z.div_add, Z.div_small by lia. lia. }
  assert (Z.land (byte_Z tag) 7 = wt) as Ew.
  { change 7 with (Z.ones 3). rewrite Z.land_ones by lia. rewrite Ht.
    replace (8 * f + wt) with (wt + f * 2 ^ 3) by lia.
    rewrite Z.mod_add, Z.mod_small by lia. done. }
  assert (int32 f = f) as Ei by (apply int32_id; unfold is_int32; lia).
  eapply parses_step; [apply read_varint_tag; lia|..|done|done];
    rewrite ?Ef, ?Ew, ?Ei; [lia|lia|done].
Qed.

Lemma parses_varint l f set tag v d m r :
  is_uint64 v -> byte_Z tag = 8 * f + 0 -> 0 < f < 16 ->
  (forall d, field m l f 0 d = varint_field set m 0 d) ->
  parses l d (set v m) r -> parses l (put_varint tag v d) m r.
Proof.
  intros Hv Ht Hf Hc Hp. eapply (parses_tag l f 0); [done|done|auto|..]; [|..|exact Hp].
  - intros _. rewrite Hc. unfold varint_field. simpl. by rewrite read_varint_encode.
  - rewrite encodeVarint_eq by done. rewrite !length_app. lia.
Qed.

Lemma parses_bool l f set tag b d m r :
  byte_Z tag = 8 * f + 0 -> 0 < f < 16 ->
  (forall d, field m l f 0 d = varint_field set m 0 d) ->
  (b = false -> set (Z.b2z b) m = m) ->
  parses l d (set (Z.b2z b) m) r -> parses l (put_bool tag b d) m r.
Proof.
  intros Ht Hf Hc Hb Hp. destruct b; simpl; [|by rewrite <- Hb].
  eapply (parses_tag l f 0); [done|done|auto|..]; [|..|exact Hp].
  - intros _. rewrite Hc. unfold varint_field. by rewrite read_varint_tag.
  - simpl. lia.
Qed.

Lemma parses_message l f set tag x d m m' r :
  l < 2 ^ 63 -> byte_Z tag = 8 * f + 2 -> 0 < f < 16 ->
  (forall d, field m l f 2 d = message_field set m l 2 d) ->
  (len x < l -> set x m = Ok m') ->
  parses l d m' r -> parses l (put_bytes tag x d) m r.
Proof.
  intros Hl Ht Hf Hc Hset Hp. unfold put_bytes. intros Hlen.
  pose proof (encodeVarint_len_ge (len x) (x ++ d)) as Hge.
  pose proof (len_nonneg x). pose proof (len_nonneg d).
  assert (len x + len d < l) as Hx by (rewrite len_cons, len_app in *; lia).
  revert Hlen. eapply (parses_tag l f 2); [done|done|auto|..]; [|..|exact Hp].
  - intros _. rewrite Hc. unfold message_field. simpl. rewrite read_delimited_put by lia.
    simpl. by rewrite Hset by lia.
  - rewrite encodeVarint_eq; [rewrite !length_app; lia|]. unfold is_uint64. lia.
Qed.

Lemma parses_bytes l f set tag x d m r :
  l < 2 ^ 63 -> byte_Z tag = 8 * f + 2 -> 0 < f < 16 ->
  (forall d, field m l f 2 d = bytes_field set m l 2 d) ->
  parses l d (set x m) r -> parses l (put_bytes tag x d) m r.
Proof.
  intros Hl Ht Hf Hc Hp.
  by eapply (parses_message l f (fun x m => Ok (set x m))).
Qed.

(** The fuel that [unmarshal] gives is enough on every input: a loop that
    starts with at least [length d] rounds does not run out. *)
Hypothesis field_shrinks : forall m l f wt d m' d',
  field m l f wt d = Some (Ok (m', d')) -> (length d' <= length d)%nat.
Context (bound : nat).
Hypothesis field_fuel : forall m l f wt d,
  (length d < bound)%nat -> len d < 2 ^ 63 -> field m l f wt d <> Some (Err ErrOutOfFuel).

Lemma unmarshal_loop_fuel fuel l d m :
  len d < 2 ^ 63 -> (length d <= fuel)%nat -> (length d <= bound)%nat ->
  loop fuel l d m <> Err ErrOutOfFuel.
Proof using field_shrinks field_fuel.
  revert d m; induction fuel as [|fuel IH]; intros [|b d] m Hd Hfuel Hbound; try done.
  { simpl in Hfuel. lia. }
  cbn [unmarshal_loop].
  destruct (read_varint (b :: d)) as [[wire d1]|e|] eqn:Er; simpl; [|..|done].
  - apply read_varint_shrinks in Er.
    repeat (case_match; [done|]).
    destruct (field m l _ _ d1) as [r|] eqn:Ef.
    + destruct r as [[m' d']|e|] eqn:Erf; simpl; [|..|done].
      * apply field_shrinks in Ef. apply IH; unfold len in *; simpl in *; lia.
      * intros [= ->]. eapply field_fuel, Ef; unfold len in *; simpl in *; lia.
    + destruct (skip (b :: d)) as [n|e|] eqn:Es; simpl; [|..|done].
      * apply skip_pos in Es; [|done]. repeat (case_match; [done|]).
        apply IH; unfold len in *; rewrite length_drop; lia.
      * intros [= ->]. by apply skip_fuel in Es.
  - intros [= ->]. by apply varint_go_fuel in Er.
Qed.
End LoopLemmas.
