(* ===== verification/Proto.v ===== *)
(** * Protobuf messages ([proto/mvcc.proto], [regattapb/mvcc.pb.go])

    The structs that travel in the Raft log and in its results.  A Go [[]byte]
    is [bytes]; where the program distinguishes a nil slice from an empty one
    ([RangeEnd]) it is an [option].  A pointer to a message is an [option],
    except in the repeated fields the program never fills with nil.  Numbers
    are [Z] within the width of their Go type, see the [wf] predicates. *)

From S2P Require Import Prelude.

Record KeyValue := mkKeyValue {
  kv_Key : bytes;
  kv_CreateRevision : Z;
  kv_ModRevision : Z;
  kv_Value : bytes;
  kv_unknownFields : bytes
}.

Module RequestOp.
Record Range := mkRange {
  rr_Key : bytes;
  rr_RangeEnd : option bytes;
  rr_Limit : Z;
  rr_KeysOnly : bool;
  rr_CountOnly : bool;
  rr_unknownFields : bytes
}.
Record Put := mkPut {
  rp_Key : bytes;
  rp_Value : bytes;
  rp_PrevKv : bool;
  rp_unknownFields : bytes
}.
Record DeleteRange := mkDeleteRange {
  rd_Key : bytes;
  rd_RangeEnd : option bytes;
  rd_PrevKv : bool;
  rd_Count : bool;
  rd_unknownFields : bytes
}.
(** The [oneof request]. *)
Inductive Request :=
  | RequestRange (r : Range)
  | RequestPut (p : Put)
  | RequestDeleteRange (d : DeleteRange).
Record t := mk { ro_Request : option Request; ro_unknownFields : bytes }.
End RequestOp.

Module ResponseOp.
Record Range := mkRange {
  sr_Kvs : list KeyValue;
  sr_More : bool;
  sr_Count : Z;
  sr_unknownFields : bytes
}.
Record Put := mkPut {
  sp_PrevKv : option KeyValue;
  sp_unknownFields : bytes
}.
Record DeleteRange := mkDeleteRange {
  sd_Deleted : Z;
  sd_PrevKvs : list KeyValue;
  sd_unknownFields : bytes
}.
(** The [oneof response]. *)
Inductive Response :=
  | ResponseRange (r : Range)
  | ResponsePut (p : Put)
  | ResponseDeleteRange (d : DeleteRange).
Record t := mk { so_Response : option Response; so_unknownFields : bytes }.
End ResponseOp.

(** [Compare.CompareResult] and [Compare.CompareTarget]: open [int32] enums. *)
Definition Compare_EQUAL : Z := 0.
Definition Compare_GREATER : Z := 1.
Definition Compare_LESS : Z := 2.
Definition Compare_NOT_EQUAL : Z := 3.
Definition Compare_VALUE : Z := 0.

Record Compare := mkCompare {
  cmp_Result : Z;
  cmp_Target : Z;
  cmp_Key : bytes;
  cmp_TargetUnion : option bytes;   (* the oneof has the single case [Compare_Value] *)
  cmp_RangeEnd : option bytes;
  cmp_unknownFields : bytes
}.

Record Txn := mkTxn {
  txn_Compare : list Compare;
  txn_Success : list RequestOp.t;
  txn_Failure : list RequestOp.t;
  txn_unknownFields : bytes
}.

(** [Command.CommandType]. *)
Definition Command_PUT : Z := 0.
Definition Command_DELETE : Z := 1.
Definition Command_DUMMY : Z := 2.
Definition Command_PUT_BATCH : Z := 3.
Definition Command_DELETE_BATCH : Z := 4.
Definition Command_TXN : Z := 5.
Definition Command_SEQUENCE : Z := 6.

(** [Batch] can hold nil pointers: [Manager.readIntoTable] appends the [Kv] of
    a command that has none. *)
Inductive Command := mkCommand {
  cmd_Table : bytes;
  cmd_Type : Z;
  cmd_Kv : option KeyValue;
  cmd_LeaderIndex : option Z;
  cmd_Batch : list (option KeyValue);
  cmd_Txn : option Txn;
  cmd_RangeEnd : option bytes;
  cmd_PrevKvs : bool;
  cmd_Sequence : list Command;
  cmd_Count : bool;
  cmd_unknownFields : bytes
}.

Record CommandResult := mkCommandResult {
  cr_Responses : list ResponseOp.t;
  cr_Revision : Z;
  cr_unknownFields : bytes
}.

(** ** Zero values *)

Definition KeyValue_zero : KeyValue := mkKeyValue [] 0 0 [] [].
Definition Range_zero : RequestOp.Range := RequestOp.mkRange [] None 0 false false [].
Definition Put_zero : RequestOp.Put := RequestOp.mkPut [] [] false [].
Definition DeleteRange_zero : RequestOp.DeleteRange := RequestOp.mkDeleteRange [] None false false [].
Definition RequestOp_zero : RequestOp.t := RequestOp.mk None [].
Definition RangeResp_zero : ResponseOp.Range := ResponseOp.mkRange [] false 0 [].
Definition PutResp_zero : ResponseOp.Put := ResponseOp.mkPut None [].
Definition DeleteRangeResp_zero : ResponseOp.DeleteRange := ResponseOp.mkDeleteRange 0 [] [].
Definition ResponseOp_zero : ResponseOp.t := ResponseOp.mk None [].
Definition Compare_zero : Compare := mkCompare 0 0 [] None None [].
Definition Txn_zero : Txn := mkTxn [] [] [] [].
Definition Command_zero : Command := mkCommand [] 0 None None [] None None false [] false [].
Definition CommandResult_zero : CommandResult := mkCommandResult [] 0 [].

(** ** Induction over nested commands *)

Section Command_ind.
Context (P : Command -> Prop)
  (step : forall t ty kv li b tx re pk s c u, Forall P s -> P (mkCommand t ty kv li b tx re pk s c u)).
Fixpoint Command_nested_ind (m : Command) : P m :=
  match m with
  | mkCommand t ty kv li b tx re pk s c u =>
      step t ty kv li b tx re pk s c u
        ((fix go (l : list Command) : Forall P l :=
            match l with
            | [] => Forall_nil_2 P
            | x :: l' => Forall_cons_2 P x l' (Command_nested_ind x) (go l')
            end) s)
  end.
End Command_ind.

(** ** Accessors *)

(** [RequestOp.GetRequestRange]: nil unless the request is a range. *)
Definition GetRequestRange (op : RequestOp.t) : option RequestOp.Range :=
  match RequestOp.ro_Request op with
  | Some (RequestOp.RequestRange r) => Some r
  | _ => None
  end.

(** [Compare.GetValue]: the zero value when the oneof is not set. *)
Definition Compare_GetValue (c : Compare) : bytes := default [] (cmp_TargetUnion c).

(** ** Decidable equality *)

#[export] Instance KeyValue_eq_dec : EqDecision KeyValue.
Proof. solve_decision. Defined.
#[export] Instance rRange_eq_dec : EqDecision RequestOp.Range.
Proof. solve_decision. Defined.
#[export] Instance rPut_eq_dec : EqDecision RequestOp.Put.
Proof. solve_decision. Defined.
#[export] Instance rDeleteRange_eq_dec : EqDecision RequestOp.DeleteRange.
Proof. solve_decision. Defined.
#[export] Instance Request_eq_dec : EqDecision RequestOp.Request.
Proof. solve_decision. Defined.
#[export] Instance RequestOp_eq_dec : EqDecision RequestOp.t.
Proof. solve_decision. Defined.
#[export] Instance sRange_eq_dec : EqDecision ResponseOp.Range.
Proof. solve_decision. Defined.
#[export] Instance sPut_eq_dec : EqDecision ResponseOp.Put.
Proof. solve_decision. Defined.
#[export] Instance sDeleteRange_eq_dec : EqDecision ResponseOp.DeleteRange.
Proof. solve_decision. Defined.
#[export] Instance Response_eq_dec : EqDecision ResponseOp.Response.
Proof. solve_decision. Defined.
#[export] Instance ResponseOp_eq_dec : EqDecision ResponseOp.t.
Proof. solve_decision. Defined.
#[export] Instance Compare_eq_dec : EqDecision Compare.
Proof. solve_decision. Defined.
#[export] Instance Txn_eq_dec : EqDecision Txn.
Proof. solve_decision. Defined.
#[export] Instance CommandResult_eq_dec : EqDecision CommandResult.
Proof. solve_decision. Defined.
