(* ===== verification/Codec.v ===== *)
(** * Codec of the messages ([regattapb/mvcc_vtproto.pb.go])

    [SizeVT], [MarshalToSizedBufferVT] (as the suffix of the buffer it fills),
    [MarshalVT] and [UnmarshalVT] of every message of [Proto], field by field
    in the order of the generated code, and the theorems that the size is
    exact, that marshalling never runs out of its buffer, that unmarshalling
    terminates on every input, and that it inverts marshalling. *)

From S2P Require Import Prelude Wire Proto.

(** The size of a length-delimited field with a one-byte tag. *)
Definition delimited_size (l : Z) : Z := 1 + l + sov l.

(** [for _, e := range xs { l = e.SizeVT(); n += 1 + l + sov(l) }] *)
Definition repeated_size {A} (size : A -> Z) (xs : list A) : Z :=
  foldr (fun e n => delimited_size (size e) + n) 0 xs.

(** [for iNdEx := len(xs) - 1; iNdEx >= 0; iNdEx--]: the last element is
    written first, just in front of [d]. *)
Definition put_repeated {A} (tag : byte) (marshal : A -> bytes) (xs : list A) (d : bytes) : bytes :=
  foldr (fun e d => put_bytes tag (marshal e) d) d xs.

(** [if len(x) > 0]. *)
Definition put_nonempty (tag : byte) (x : bytes) (d : bytes) : bytes :=
  match x with [] => d | _ => put_bytes tag x d end.
Definition nonempty_size (x : bytes) : Z :=
  match x with [] => 0 | _ => delimited_size (len x) end.

(** A scalar field, written only when it is not zero; [uint64(v)] sign-extends. *)
Definition put_scalar (tag : byte) (v : Z) (d : bytes) : bytes :=
  if v =? 0 then d else put_varint tag (uint64 v) d.
Definition scalar_size (v : Z) : Z := if v =? 0 then 0 else 1 + sov (uint64 v).

(** A field with explicit presence, written whenever it is set. *)
Definition put_optional (tag : byte) (x : option bytes) (d : bytes) : bytes :=
  match x with Some x => put_bytes tag x d | None => d end.
Definition optional_size (x : option bytes) : Z :=
  match x with Some x => delimited_size (len x) | None => 0 end.
Definition put_optional_varint (tag : byte) (v : option Z) (d : bytes) : bytes :=
  match v with Some v => put_varint tag (uint64 v) d | None => d end.
Definition optional_varint_size (v : option Z) : Z :=
  match v with Some v => 1 + sov (uint64 v) | None => 0 end.

Definition bool_size (b : bool) : Z := if b then 2 else 0.

(** ** KeyValue *)

Definition KeyValue_SizeVT (m : KeyValue) : Z :=
  nonempty_size (kv_Key m) + scalar_size (kv_CreateRevision m) + scalar_size (kv_ModRevision m)
  + nonempty_size (kv_Value m) + len (kv_unknownFields m).

Definition KeyValue_Marshal (m : KeyValue) : bytes :=
  put_nonempty Byte.x0a (kv_Key m) $
  put_scalar Byte.x10 (kv_CreateRevision m) $
  put_scalar Byte.x18 (kv_ModRevision m) $
  put_nonempty Byte.x22 (kv_Value m) $
  kv_unknownFields m.

Definition KeyValue_field : field_reader KeyValue := fun m l fieldNum wireType d =>
  match fieldNum with
  | 1 => bytes_field (fun x m => mkKeyValue x (kv_CreateRevision m) (kv_ModRevision m) (kv_Value m) (kv_unknownFields m)) m l wireType d
  | 2 => varint_field (fun v m => mkKeyValue (kv_Key m) (int64 v) (kv_ModRevision m) (kv_Value m) (kv_unknownFields m)) m wireType d
  | 3 => varint_field (fun v m => mkKeyValue (kv_Key m) (kv_CreateRevision m) (int64 v) (kv_Value m) (kv_unknownFields m)) m wireType d
  | 4 => bytes_field (fun x m => mkKeyValue (kv_Key m) (kv_CreateRevision m) (kv_ModRevision m) x (kv_unknownFields m)) m l wireType d
  | _ => None
  end.

Definition KeyValue_unknown (u : bytes) (m : KeyValue) : KeyValue :=
  mkKeyValue (kv_Key m) (kv_CreateRevision m) (kv_ModRevision m) (kv_Value m) (kv_unknownFields m ++ u).

Definition KeyValue_UnmarshalVT (dAtA : bytes) (m : KeyValue) : res KeyValue :=
  unmarshal KeyValue_field KeyValue_unknown dAtA m.

(** ** RequestOp *)

Definition Range_SizeVT (m : RequestOp.Range) : Z :=
  nonempty_size (RequestOp.rr_Key m) + nonempty_size (default [] (RequestOp.rr_RangeEnd m))
  + scalar_size (RequestOp.rr_Limit m) + bool_size (RequestOp.rr_KeysOnly m)
  + bool_size (RequestOp.rr_CountOnly m) + len (RequestOp.rr_unknownFields m).

Definition Range_Marshal (m : RequestOp.Range) : bytes :=
  put_nonempty Byte.x0a (RequestOp.rr_Key m) $
  put_nonempty Byte.x12 (default [] (RequestOp.rr_RangeEnd m)) $
  put_scalar Byte.x18 (RequestOp.rr_Limit m) $
  put_bool Byte.x20 (RequestOp.rr_KeysOnly m) $
  put_bool Byte.x28 (RequestOp.rr_CountOnly m) $
  RequestOp.rr_unknownFields m.

Definition Range_field : field_reader RequestOp.Range := fun m l fieldNum wireType d =>
  match fieldNum with
  | 1 => bytes_field (fun x '(RequestOp.mkRange _ re li ko co u) => RequestOp.mkRange x re li ko co u) m l wireType d
  | 2 => bytes_field (fun x '(RequestOp.mkRange k _ li ko co u) => RequestOp.mkRange k (Some x) li ko co u) m l wireType d
  | 3 => varint_field (fun v '(RequestOp.mkRange k re _ ko co u) => RequestOp.mkRange k re (int64 v) ko co u) m wireType d
  | 4 => varint_field (fun v '(RequestOp.mkRange k re li _ co u) => RequestOp.mkRange k re li (negb (v =? 0)) co u) m wireType d
  | 5 => varint_field (fun v '(RequestOp.mkRange k re li ko _ u) => RequestOp.mkRange k re li ko (negb (v =? 0)) u) m wireType d
  | _ => None
  end.

Definition Range_unknown (x : bytes) (m : RequestOp.Range) : RequestOp.Range :=
  let '(RequestOp.mkRange k re li ko co u) := m in RequestOp.mkRange k re li ko co (u ++ x).

Definition Range_UnmarshalVT (dAtA : bytes) (m : RequestOp.Range) : res RequestOp.Range :=
  unmarshal Range_field Range_unknown dAtA m.

Definition Put_SizeVT (m : RequestOp.Put) : Z :=
  nonempty_size (RequestOp.rp_Key m) + nonempty_size (RequestOp.rp_Value m)
  + bool_size (RequestOp.rp_PrevKv m) + len (RequestOp.rp_unknownFields m).

Definition Put_Marshal (m : RequestOp.Put) : bytes :=
  put_nonempty Byte.x0a (RequestOp.rp_Key m) $
  put_nonempty Byte.x12 (RequestOp.rp_Value m) $
  put_bool Byte.x18 (RequestOp.rp_PrevKv m) $
  RequestOp.rp_unknownFields m.

Definition Put_field : field_reader RequestOp.Put := fun m l fieldNum wireType d =>
  match fieldNum with
  | 1 => bytes_field (fun x '(RequestOp.mkPut _ v p u) => RequestOp.mkPut x v p u) m l wireType d
  | 2 => bytes_field (fun x '(RequestOp.mkPut k _ p u) => RequestOp.mkPut k x p u) m l wireType d
  | 3 => varint_field (fun v '(RequestOp.mkPut k x _ u) => RequestOp.mkPut k x (negb (v =? 0)) u) m wireType d
  | _ => None
  end.

Definition Put_unknown (x : bytes) (m : RequestOp.Put) : RequestOp.Put :=
  let '(RequestOp.mkPut k v p u) := m in RequestOp.mkPut k v p (u ++ x).

Definition Put_UnmarshalVT (dAtA : bytes) (m : RequestOp.Put) : res RequestOp.Put :=
  unmarshal Put_field Put_unknown dAtA m.

Definition DeleteRange_SizeVT (m : RequestOp.DeleteRange) : Z :=
  nonempty_size (RequestOp.rd_Key m) + nonempty_size (default [] (RequestOp.rd_RangeEnd m))
  + bool_size (RequestOp.rd_PrevKv m) + bool_size (RequestOp.rd_Count m)
  + len (RequestOp.rd_unknownFields m).

Definition DeleteRange_Marshal (m : RequestOp.DeleteRange) : bytes :=
  put_nonempty Byte.x0a (RequestOp.rd_Key m) $
  put_nonempty Byte.x12 (default [] (RequestOp.rd_RangeEnd m)) $
  put_bool Byte.x20 (RequestOp.rd_PrevKv m) $
  put_bool Byte.x28 (RequestOp.rd_Count m) $
  RequestOp.rd_unknownFields m.

Definition DeleteRange_field : field_reader RequestOp.DeleteRange := fun m l fieldNum wireType d =>
  match fieldNum with
  | 1 => bytes_field (fun x '(RequestOp.mkDeleteRange _ re p c u) => RequestOp.mkDeleteRange x re p c u) m l wireType d
  | 2 => bytes_field (fun x '(RequestOp.mkDeleteRange k _ p c u) => RequestOp.mkDeleteRange k (Some x) p c u) m l wireType d
  | 4 => varint_field (fun v '(RequestOp.mkDeleteRange k re _ c u) => RequestOp.mkDeleteRange k re (negb (v =? 0)) c u) m wireType d
  | 5 => varint_field (fun v '(RequestOp.mkDeleteRange k re p _ u) => RequestOp.mkDeleteRange k re p (negb (v =? 0)) u) m wireType d
  | _ => None
  end.

Definition DeleteRange_unknown (x : bytes) (m : RequestOp.DeleteRange) : RequestOp.DeleteRange :=
  let '(RequestOp.mkDeleteRange k re p c u) := m in RequestOp.mkDeleteRange k re p c (u ++ x).

Definition DeleteRange_UnmarshalVT (dAtA : bytes) (m : RequestOp.DeleteRange) : res RequestOp.DeleteRange :=
  unmarshal DeleteRange_field DeleteRange_unknown dAtA m.

Definition Request_SizeVT (r : RequestOp.Request) : Z :=
  match r with
  | RequestOp.RequestRange r => delimited_size (Range_SizeVT r)
  | RequestOp.RequestPut r => delimited_size (Put_SizeVT r)
  | RequestOp.RequestDeleteRange r => delimited_size (DeleteRange_SizeVT r)
  end.

Definition RequestOp_SizeVT (m : RequestOp.t) : Z :=
  match RequestOp.ro_Request m with Some r => Request_SizeVT r | None => 0 end
  + len (RequestOp.ro_unknownFields m).

Definition put_Request (r : RequestOp.Request) (d : bytes) : bytes :=
  match r with
  | RequestOp.RequestRange r => put_bytes Byte.x0a (Range_Marshal r) d
  | RequestOp.RequestPut r => put_bytes Byte.x12 (Put_Marshal r) d
  | RequestOp.RequestDeleteRange r => put_bytes Byte.x1a (DeleteRange_Marshal r) d
  end.

Definition RequestOp_Marshal (m : RequestOp.t) : bytes :=
  match RequestOp.ro_Request m with
  | Some r => put_Request r (RequestOp.ro_unknownFields m)
  | None => RequestOp.ro_unknownFields m
  end.

(** A oneof case: a message of the same case is merged into, another one is
    replaced. *)
Definition RequestOp_field : field_reader RequestOp.t := fun m l fieldNum wireType d =>
  match fieldNum with
  | 1 => message_field (fun x m =>
           let v := match RequestOp.ro_Request m with
                    | Some (RequestOp.RequestRange v) => v | _ => Range_zero end in
           v ← Range_UnmarshalVT x v;
           Ok (RequestOp.mk (Some (RequestOp.RequestRange v)) (RequestOp.ro_unknownFields m)))
           m l wireType d
  | 2 => message_field (fun x m =>
           let v := match RequestOp.ro_Request m with
                    | Some (RequestOp.RequestPut v) => v | _ => Put_zero end in
           v ← Put_UnmarshalVT x v;
           Ok (RequestOp.mk (Some (RequestOp.RequestPut v)) (RequestOp.ro_unknownFields m)))
           m l wireType d
  | 3 => message_field (fun x m =>
           let v := match RequestOp.ro_Request m with
                    | Some (RequestOp.RequestDeleteRange v) => v | _ => DeleteRange_zero end in
           v ← DeleteRange_UnmarshalVT x v;
           Ok (RequestOp.mk (Some (RequestOp.RequestDeleteRange v)) (RequestOp.ro_unknownFields m)))
           m l wireType d
  | _ => None
  end.

Definition RequestOp_unknown (x : bytes) (m : RequestOp.t) : RequestOp.t :=
  RequestOp.mk (RequestOp.ro_Request m) (RequestOp.ro_unknownFields m ++ x).

Definition RequestOp_UnmarshalVT (dAtA : bytes) (m : RequestOp.t) : res RequestOp.t :=
  unmarshal RequestOp_field RequestOp_unknown dAtA m.

(** ** ResponseOp *)

Definition RangeResp_SizeVT (m : ResponseOp.Range) : Z :=
  repeated_size KeyValue_SizeVT (ResponseOp.sr_Kvs m) + bool_size (ResponseOp.sr_More m)
  + scalar_size (ResponseOp.sr_Count m) + len (ResponseOp.sr_unknownFields m).

Definition RangeResp_Marshal (m : ResponseOp.Range) : bytes :=
  put_repeated Byte.x0a KeyValue_Marshal (ResponseOp.sr_Kvs m) $
  put_bool Byte.x10 (ResponseOp.sr_More m) $
  put_scalar Byte.x18 (ResponseOp.sr_Count m) $
  ResponseOp.sr_unknownFields m.

(** Appending a freshly decoded element to a repeated field. *)
Definition RangeResp_field : field_reader ResponseOp.Range := fun m l fieldNum wireType d =>
  match fieldNum with
  | 1 => message_field (fun x '(ResponseOp.mkRange kvs mo c u) =>
           kv ← KeyValue_UnmarshalVT x KeyValue_zero;
           Ok (ResponseOp.mkRange (kvs ++ [kv]) mo c u)) m l wireType d
  | 2 => varint_field (fun v '(ResponseOp.mkRange kvs _ c u) => ResponseOp.mkRange kvs (negb (v =? 0)) c u) m wireType d
  | 3 => varint_field (fun v '(ResponseOp.mkRange kvs mo _ u) => ResponseOp.mkRange kvs mo (int64 v) u) m wireType d
  | _ => None
  end.

Definition RangeResp_unknown (x : bytes) (m : ResponseOp.Range) : ResponseOp.Range :=
  let '(ResponseOp.mkRange kvs mo c u) := m in ResponseOp.mkRange kvs mo c (u ++ x).

Definition RangeResp_UnmarshalVT (dAtA : bytes) (m : ResponseOp.Range) : res ResponseOp.Range :=
  unmarshal RangeResp_field RangeResp_unknown dAtA m.

(** [if m.X != nil] for an embedded message. *)
Definition put_embedded {A} (tag : byte) (marshal : A -> bytes) (x : option A) (d : bytes) : bytes :=
  match x with Some x => put_bytes tag (marshal x) d | None => d end.
Definition embedded_size {A} (size : A -> Z) (x : option A) : Z :=
  match x with Some x => delimited_size (size x) | None => 0 end.

Definition PutResp_SizeVT (m : ResponseOp.Put) : Z :=
  embedded_size KeyValue_SizeVT (ResponseOp.sp_PrevKv m) + len (ResponseOp.sp_unknownFields m).

Definition PutResp_Marshal (m : ResponseOp.Put) : bytes :=
  put_embedded Byte.x0a KeyValue_Marshal (ResponseOp.sp_PrevKv m) $
  ResponseOp.sp_unknownFields m.

Definition PutResp_field : field_reader ResponseOp.Put := fun m l fieldNum wireType d =>
  match fieldNum with
  | 1 => message_field (fun x '(ResponseOp.mkPut kv u) =>
           kv ← KeyValue_UnmarshalVT x (default KeyValue_zero kv);
           Ok (ResponseOp.mkPut (Some kv) u)) m l wireType d
  | _ => None
  end.

Definition PutResp_unknown (x : bytes) (m : ResponseOp.Put) : ResponseOp.Put :=
  let '(ResponseOp.mkPut kv u) := m in ResponseOp.mkPut kv (u ++ x).

Definition PutResp_UnmarshalVT (dAtA : bytes) (m : ResponseOp.Put) : res ResponseOp.Put :=
  unmarshal PutResp_field PutResp_unknown dAtA m.

Definition DeleteRangeResp_SizeVT (m : ResponseOp.DeleteRange) : Z :=
  scalar_size (ResponseOp.sd_Deleted m) + repeated_size KeyValue_SizeVT (ResponseOp.sd_PrevKvs m)
  + len (ResponseOp.sd_unknownFields m).

Definition DeleteRangeResp_Marshal (m : ResponseOp.DeleteRange) : bytes :=
  put_scalar Byte.x08 (ResponseOp.sd_Deleted m) $
  put_repeated Byte.x12 KeyValue_Marshal (ResponseOp.sd_PrevKvs m) $
  ResponseOp.sd_unknownFields m.

Definition DeleteRangeResp_field : field_reader ResponseOp.DeleteRange := fun m l fieldNum wireType d =>
  match fieldNum with
  | 1 => varint_field (fun v '(ResponseOp.mkDeleteRange _ kvs u) => ResponseOp.mkDeleteRange (int64 v) kvs u) m wireType d
  | 2 => message_field (fun x '(ResponseOp.mkDeleteRange n kvs u) =>
           kv ← KeyValue_UnmarshalVT x KeyValue_zero;
           Ok (ResponseOp.mkDeleteRange n (kvs ++ [kv]) u)) m l wireType d
  | _ => None
  end.

Definition DeleteRangeResp_unknown (x : bytes) (m : ResponseOp.DeleteRange) : ResponseOp.DeleteRange :=
  let '(ResponseOp.mkDeleteRange n kvs u) := m in ResponseOp.mkDeleteRange n kvs (u ++ x).

Definition DeleteRangeResp_UnmarshalVT (dAtA : bytes) (m : ResponseOp.DeleteRange) : res ResponseOp.DeleteRange :=
  unmarshal DeleteRangeResp_field DeleteRangeResp_unknown dAtA m.

Definition Response_SizeVT (r : ResponseOp.Response) : Z :=
  match r with
  | ResponseOp.ResponseRange r => delimited_size (RangeResp_SizeVT r)
  | ResponseOp.ResponsePut r => delimited_size (PutResp_SizeVT r)
  | ResponseOp.ResponseDeleteRange r => delimited_size (DeleteRangeResp_SizeVT r)
  end.

Definition ResponseOp_SizeVT (m : ResponseOp.t) : Z :=
  match ResponseOp.so_Response m with Some r => Response_SizeVT r | None => 0 end
  + len (ResponseOp.so_unknownFields m).

Definition put_Response (r : ResponseOp.Response) (d : bytes) : bytes :=
  match r with
  | ResponseOp.ResponseRange r => put_bytes Byte.x0a (RangeResp_Marshal r) d
  | ResponseOp.ResponsePut r => put_bytes Byte.x12 (PutResp_Marshal r) d
  | ResponseOp.ResponseDeleteRange r => put_bytes Byte.x1a (DeleteRangeResp_Marshal r) d
  end.

Definition ResponseOp_Marshal (m : ResponseOp.t) : bytes :=
  match ResponseOp.so_Response m with
  | Some r => put_Response r (ResponseOp.so_unknownFields m)
  | None => ResponseOp.so_unknownFields m
  end.

Definition ResponseOp_field : field_reader ResponseOp.t := fun m l fieldNum wireType d =>
  match fieldNum with
  | 1 => message_field (fun x m =>
           let v := match ResponseOp.so_Response m with
                    | Some (ResponseOp.ResponseRange v) => v | _ => RangeResp_zero end in
           v ← RangeResp_UnmarshalVT x v;
           Ok (ResponseOp.mk (Some (ResponseOp.ResponseRange v)) (ResponseOp.so_unknownFields m)))
           m l wireType d
  | 2 => message_field (fun x m =>
           let v := match ResponseOp.so_Response m with
                    | Some (ResponseOp.ResponsePut v) => v | _ => PutResp_zero end in
           v ← PutResp_UnmarshalVT x v;
           Ok (ResponseOp.mk (Some (ResponseOp.ResponsePut v)) (ResponseOp.so_unknownFields m)))
           m l wireType d
  | 3 => message_field (fun x m =>
           let v := match ResponseOp.so_Response m with
                    | Some (ResponseOp.ResponseDeleteRange v) => v | _ => DeleteRangeResp_zero end in
           v ← DeleteRangeResp_UnmarshalVT x v;
           Ok (ResponseOp.mk (Some (ResponseOp.ResponseDeleteRange v)) (ResponseOp.so_unknownFields m)))
           m l wireType d
  | _ => None
  end.

Definition ResponseOp_unknown (x : bytes) (m : ResponseOp.t) : ResponseOp.t :=
  ResponseOp.mk (ResponseOp.so_Response m) (ResponseOp.so_unknownFields m ++ x).

Definition ResponseOp_UnmarshalVT (dAtA : bytes) (m : ResponseOp.t) : res ResponseOp.t :=
  unmarshal ResponseOp_field ResponseOp_unknown dAtA m.

(** ** Compare and Txn *)

(** Field 64 has the two-byte tag [0x82 0x04]. *)
Definition put_range_end (x : bytes) (d : bytes) : bytes :=
  match x with [] => d | _ => Byte.x82 :: put_bytes Byte.x04 x d end.
Definition range_end_size (x : bytes) : Z :=
  match x with [] => 0 | _ => 2 + len x + sov (len x) end.

Definition Compare_SizeVT (m : Compare) : Z :=
  scalar_size (cmp_Result m) + scalar_size (cmp_Target m) + nonempty_size (cmp_Key m)
  + optional_size (cmp_TargetUnion m) + range_end_size (default [] (cmp_RangeEnd m))
  + len (cmp_unknownFields m).

Definition Compare_Marshal (m : Compare) : bytes :=
  put_scalar Byte.x08 (cmp_Result m) $
  put_scalar Byte.x10 (cmp_Target m) $
  put_nonempty Byte.x1a (cmp_Key m) $
  put_range_end (default [] (cmp_RangeEnd m)) $
  put_optional Byte.x22 (cmp_TargetUnion m) $
  cmp_unknownFields m.

Definition Compare_field : field_reader Compare := fun m l fieldNum wireType d =>
  match fieldNum with
  | 1 => varint_field (fun v '(mkCompare _ t k tu re u) => mkCompare (int32 v) t k tu re u) m wireType d
  | 2 => varint_field (fun v '(mkCompare r _ k tu re u) => mkCompare r (int32 v) k tu re u) m wireType d
  | 3 => bytes_field (fun x '(mkCompare r t _ tu re u) => mkCompare r t x tu re u) m l wireType d
  | 4 => bytes_field (fun x '(mkCompare r t k _ re u) => mkCompare r t k (Some x) re u) m l wireType d
  | 64 => bytes_field (fun x '(mkCompare r t k tu _ u) => mkCompare r t k tu (Some x) u) m l wireType d
  | _ => None
  end.

Definition Compare_unknown (x : bytes) (m : Compare) : Compare :=
  let '(mkCompare r t k tu re u) := m in mkCompare r t k tu re (u ++ x).

Definition Compare_UnmarshalVT (dAtA : bytes) (m : Compare) : res Compare :=
  unmarshal Compare_field Compare_unknown dAtA m.

Definition Txn_SizeVT (m : Txn) : Z :=
  repeated_size Compare_SizeVT (txn_Compare m) + repeated_size RequestOp_SizeVT (txn_Success m)
  + repeated_size RequestOp_SizeVT (txn_Failure m) + len (txn_unknownFields m).

Definition Txn_Marshal (m : Txn) : bytes :=
  put_repeated Byte.x0a Compare_Marshal (txn_Compare m) $
  put_repeated Byte.x12 RequestOp_Marshal (txn_Success m) $
  put_repeated Byte.x1a RequestOp_Marshal (txn_Failure m) $
  txn_unknownFields m.

Definition Txn_field : field_reader Txn := fun m l fieldNum wireType d =>
  match fieldNum with
  | 1 => message_field (fun x '(mkTxn c s f u) =>
           e ← Compare_UnmarshalVT x Compare_zero; Ok (mkTxn (c ++ [e]) s f u)) m l wireType d
  | 2 => message_field (fun x '(mkTxn c s f u) =>
           e ← RequestOp_UnmarshalVT x RequestOp_zero; Ok (mkTxn c (s ++ [e]) f u)) m l wireType d
  | 3 => message_field (fun x '(mkTxn c s f u) =>
           e ← RequestOp_UnmarshalVT x RequestOp_zero; Ok (mkTxn c s (f ++ [e]) u)) m l wireType d
  | _ => None
  end.

Definition Txn_unknown (x : bytes) (m : Txn) : Txn :=
  let '(mkTxn c s f u) := m in mkTxn c s f (u ++ x).

Definition Txn_UnmarshalVT (dAtA : bytes) (m : Txn) : res Txn :=
  unmarshal Txn_field Txn_unknown dAtA m.

(** ** Command and CommandResult *)

(** A nil element of [Batch] has size 0 and no bytes. *)
Definition KeyValue_ptr_SizeVT (m : option KeyValue) : Z :=
  match m with Some m => KeyValue_SizeVT m | None => 0 end.
Definition KeyValue_ptr_Marshal (m : option KeyValue) : bytes :=
  match m with Some m => KeyValue_Marshal m | None => [] end.

Fixpoint Command_SizeVT (m : Command) : Z :=
  let '(mkCommand table ty kv li batch txn re pk seq count u) := m in
  nonempty_size table + scalar_size ty + embedded_size KeyValue_SizeVT kv
  + optional_varint_size li
  + repeated_size KeyValue_ptr_SizeVT batch + embedded_size Txn_SizeVT txn
  + optional_size re
  + bool_size pk + repeated_size Command_SizeVT seq + bool_size count + len u.

Fixpoint Command_Marshal (m : Command) : bytes :=
  let '(mkCommand table ty kv li batch txn re pk seq count u) := m in
  put_nonempty Byte.x0a table $
  put_scalar Byte.x10 ty $
  put_embedded Byte.x1a KeyValue_Marshal kv $
  put_optional_varint Byte.x28 li $
  put_repeated Byte.x32 KeyValue_ptr_Marshal batch $
  put_embedded Byte.x3a Txn_Marshal txn $
  put_optional Byte.x42 re $
  put_bool Byte.x48 pk $
  put_repeated Byte.x52 Command_Marshal seq $
  put_bool Byte.x58 count $
  u.

(** [Sequence] nests commands: [unmarshal_command] decodes one that is at a
    smaller depth. *)
Definition Command_field (unmarshal_command : bytes -> Command -> res Command)
    : field_reader Command := fun m l fieldNum wireType d =>
  match fieldNum with
  | 1 => bytes_field (fun x '(mkCommand _ ty kv li b tx re pk s c u) => mkCommand x ty kv li b tx re pk s c u) m l wireType d
  | 2 => varint_field (fun v '(mkCommand t _ kv li b tx re pk s c u) => mkCommand t (int32 v) kv li b tx re pk s c u) m wireType d
  | 3 => message_field (fun x '(mkCommand t ty kv li b tx re pk s c u) =>
           kv ← KeyValue_UnmarshalVT x (default KeyValue_zero kv);
           Ok (mkCommand t ty (Some kv) li b tx re pk s c u)) m l wireType d
  | 5 => varint_field (fun v '(mkCommand t ty kv _ b tx re pk s c u) => mkCommand t ty kv (Some v) b tx re pk s c u) m wireType d
  | 6 => message_field (fun x '(mkCommand t ty kv li b tx re pk s c u) =>
           e ← KeyValue_UnmarshalVT x KeyValue_zero;
           Ok (mkCommand t ty kv li (b ++ [Some e]) tx re pk s c u)) m l wireType d
  | 7 => message_field (fun x '(mkCommand t ty kv li b tx re pk s c u) =>
           tx ← Txn_UnmarshalVT x (default Txn_zero tx);
           Ok (mkCommand t ty kv li b (Some tx) re pk s c u)) m l wireType d
  | 8 => bytes_field (fun x '(mkCommand t ty kv li b tx _ pk s c u) => mkCommand t ty kv li b tx (Some x) pk s c u) m l wireType d
  | 9 => varint_field (fun v '(mkCommand t ty kv li b tx re _ s c u) => mkCommand t ty kv li b tx re (negb (v =? 0)) s c u) m wireType d
  | 10 => message_field (fun x '(mkCommand t ty kv li b tx re pk s c u) =>
           e ← unmarshal_command x Command_zero;
           Ok (mkCommand t ty kv li b tx re pk (s ++ [e]) c u)) m l wireType d
  | 11 => varint_field (fun v '(mkCommand t ty kv li b tx re pk s _ u) => mkCommand t ty kv li b tx re pk s (negb (v =? 0)) u) m wireType d
  | _ => None
  end.

Definition Command_unknown (x : bytes) (m : Command) : Command :=
  let '(mkCommand t ty kv li b tx re pk s c u) := m in mkCommand t ty kv li b tx re pk s c (u ++ x).

Fixpoint Command_Unmarshal_at (depth : nat) (dAtA : bytes) (m : Command) : res Command :=
  match depth with
  | O => Err ErrOutOfFuel
  | S depth' => unmarshal (Command_field (Command_Unmarshal_at depth')) Command_unknown dAtA m
  end.

(** Every nested command is shorter than the one that holds it, so the depth
    [S (length dAtA)] is never reached. *)
Definition Command_UnmarshalVT (dAtA : bytes) (m : Command) : res Command :=
  Command_Unmarshal_at (S (length dAtA)) dAtA m.

Definition CommandResult_SizeVT (m : CommandResult) : Z :=
  repeated_size ResponseOp_SizeVT (cr_Responses m) + scalar_size (cr_Revision m)
  + len (cr_unknownFields m).

Definition CommandResult_Marshal (m : CommandResult) : bytes :=
  put_repeated Byte.x0a ResponseOp_Marshal (cr_Responses m) $
  put_scalar Byte.x10 (cr_Revision m) $
  cr_unknownFields m.

Definition CommandResult_field : field_reader CommandResult := fun m l fieldNum wireType d =>
  match fieldNum with
  | 1 => message_field (fun x '(mkCommandResult r v u) =>
           e ← ResponseOp_UnmarshalVT x ResponseOp_zero; Ok (mkCommandResult (r ++ [e]) v u)) m l wireType d
  | 2 => varint_field (fun v '(mkCommandResult r _ u) => mkCommandResult r v u) m wireType d
  | _ => None
  end.

Definition CommandResult_unknown (x : bytes) (m : CommandResult) : CommandResult :=
  let '(mkCommandResult r v u) := m in mkCommandResult r v (u ++ x).

Definition CommandResult_UnmarshalVT (dAtA : bytes) (m : CommandResult) : res CommandResult :=
  unmarshal CommandResult_field CommandResult_unknown dAtA m.

(** [MarshalVT]. *)
Definition Command_MarshalVT (m : Command) : res bytes :=
  marshal_sized (Command_SizeVT m) (Command_Marshal m).
Definition CommandResult_MarshalVT (m : CommandResult) : res bytes :=
  marshal_sized (CommandResult_SizeVT m) (CommandResult_Marshal m).

(** ** Sizes are exact *)

Lemma scalar_size_nonneg v : 0 <= scalar_size v.
Proof.
  unfold scalar_size. case_match; [lia|].
  pose proof (sov_pos (uint64 v)). pose proof (uint64_range v). unfold is_uint64 in *. lia.
Qed.
Lemma bool_size_nonneg b : 0 <= bool_size b.
Proof. destruct b; simpl; lia. Qed.
Lemma delimited_size_ge l : 0 <= l -> l + 2 <= delimited_size l.
Proof. intros. unfold delimited_size. pose proof (sov_pos l). lia. Qed.
Lemma nonempty_size_ge x : len x <= nonempty_size x.
Proof. destruct x; simpl; [done|]. pose proof (delimited_size_ge (len (b :: x))). pose proof (len_nonneg (b :: x)). lia. Qed.
Lemma embedded_size_nonneg {A} (size : A -> Z) x : (forall a, 0 <= size a) -> 0 <= embedded_size size x.
Proof. intros H. destruct x as [a|]; simpl; [|lia]. pose proof (H a). pose proof (delimited_size_ge (size a)). lia. Qed.
Lemma repeated_size_nonneg {A} (size : A -> Z) xs : Forall (fun a => 0 <= size a) xs -> 0 <= repeated_size size xs.
Proof. induction 1; simpl; [lia|]. pose proof (delimited_size_ge (size x)). lia. Qed.

(** The bytes that [put] adds in front of [d] are as many as [size] says,
    provided the buffer length is a Go [int]. *)
Definition sized (size : Z) (put : bytes -> bytes) : Prop :=
  0 <= size /\ (size < 2 ^ 63 -> forall d, len (put d) = size + len d).

Lemma sized_compose n1 n2 p1 p2 : sized n1 p1 -> sized n2 p2 -> sized (n1 + n2) (fun d => p1 (p2 d)).
Proof. intros [? H1] [? H2]. split; [lia|]. intros ? d. rewrite H1, H2; lia. Qed.

Lemma sized_id : sized 0 (fun d => d).
Proof. split; [lia|]. intros; lia. Qed.

Lemma sized_app x : sized (len x) (app x).
Proof. split; [apply len_nonneg|]. intros ? d. apply len_app. Qed.

Lemma sized_bytes tag x : sized (delimited_size (len x)) (put_bytes tag x).
Proof.
  pose proof (len_nonneg x). pose proof (delimited_size_ge (len x)).
  split; [lia|]. intros ? d. rewrite put_bytes_len; [|unfold is_uint64; lia].
  unfold delimited_size. lia.
Qed.

Lemma sized_nonempty tag x : sized (nonempty_size x) (put_nonempty tag x).
Proof. destruct x; [apply sized_id|apply sized_bytes]. Qed.

Lemma sized_varint tag v : sized (1 + sov (uint64 v)) (put_varint tag (uint64 v)).
Proof.
  pose proof (uint64_range v) as Hr.
  pose proof (sov_pos (uint64 v)). split; [unfold is_uint64 in *; lia|]. intros ? d.
  by rewrite put_varint_len.
Qed.

Lemma sized_scalar tag v : sized (scalar_size v) (put_scalar tag v).
Proof. unfold scalar_size, put_scalar. case_match; [apply sized_id|apply sized_varint]. Qed.

Lemma sized_bool tag b : sized (bool_size b) (put_bool tag b).
Proof. split; [apply bool_size_nonneg|]. intros ? d. apply put_bool_len. Qed.

(** A message is well sized when its [SizeVT] is the length of its bytes. *)
Definition msg_sized (size : Z) (bs : bytes) : Prop := 0 <= size /\ (size < 2 ^ 63 -> len bs = size).

Lemma sized_message tag n bs : msg_sized n bs -> sized (delimited_size n) (put_bytes tag bs).
Proof.
  intros [Hn H]. pose proof (delimited_size_ge n Hn). split; [lia|]. intros Hlt d.
  rewrite put_bytes_len, H; [unfold delimited_size; lia|lia|]. rewrite H by lia.
  unfold is_uint64. lia.
Qed.

Lemma sized_embedded {A} tag size marshal (x : option A) :
  (forall a, msg_sized (size a) (marshal a)) ->
  sized (embedded_size size x) (put_embedded tag marshal x).
Proof. intros H. destruct x; [by apply sized_message|apply sized_id]. Qed.

Lemma sized_repeated {A} tag size marshal (xs : list A) :
  Forall (fun a => msg_sized (size a) (marshal a)) xs ->
  sized (repeated_size size xs) (put_repeated tag marshal xs).
Proof.
  induction 1 as [|x xs Hx Hxs IH]; simpl; [apply sized_id|].
  apply (sized_compose _ _ (put_bytes tag (marshal x))); [by apply sized_message|done].
Qed.

Lemma sized_optional tag x : sized (optional_size x) (put_optional tag x).
Proof. destruct x; [apply sized_bytes|apply sized_id]. Qed.

Lemma sized_optional_varint tag v : sized (optional_varint_size v) (put_optional_varint tag v).
Proof. destruct v; [apply sized_varint|apply sized_id]. Qed.

Lemma sized_range_end x : sized (range_end_size x) (put_range_end x).
Proof.
  destruct x as [|b x]; [apply sized_id|]. unfold range_end_size, put_range_end.
  destruct (sized_bytes Byte.x04 (b :: x)) as [Hn H]. unfold delimited_size in *.
  split; [lia|]. intros Hlt d. rewrite len_cons, H; lia.
Qed.

Lemma msg_sized_put n k put bs : sized n put -> msg_sized k bs -> msg_sized (n + k) (put bs).
Proof. intros [? H1] [? H2]. split; [lia|]. intros. rewrite H1, H2; lia. Qed.

Lemma msg_sized_unknown u : msg_sized (len u) u.
Proof. split; [apply len_nonneg|done]. Qed.

Create HintDb sized.
#[export] Hint Resolve sized_nonempty sized_scalar sized_bool sized_optional sized_optional_varint
  sized_range_end sized_message sized_embedded sized_repeated msg_sized_unknown : sized.

Ltac solve_sized :=
  rewrite <- ?Z.add_assoc; repeat (apply msg_sized_put; [auto with sized|]); auto with sized.

Lemma KeyValue_sized m : msg_sized (KeyValue_SizeVT m) (KeyValue_Marshal m).
Proof. unfold KeyValue_SizeVT, KeyValue_Marshal. solve_sized. Qed.
#[export] Hint Resolve KeyValue_sized : sized.

Lemma Forall_sized {A} (size : A -> Z) (marshal : A -> bytes) xs :
  (forall a, msg_sized (size a) (marshal a)) -> Forall (fun a => msg_sized (size a) (marshal a)) xs.
Proof. intros. by apply Forall_true. Qed.
#[export] Hint Resolve Forall_sized : sized.

Lemma Range_sized m : msg_sized (Range_SizeVT m) (Range_Marshal m).
Proof. unfold Range_SizeVT, Range_Marshal. solve_sized. Qed.
Lemma Put_sized m : msg_sized (Put_SizeVT m) (Put_Marshal m).
Proof. unfold Put_SizeVT, Put_Marshal. solve_sized. Qed.
Lemma DeleteRange_sized m : msg_sized (DeleteRange_SizeVT m) (DeleteRange_Marshal m).
Proof. unfold DeleteRange_SizeVT, DeleteRange_Marshal. solve_sized. Qed.
#[export] Hint Resolve Range_sized Put_sized DeleteRange_sized : sized.

Lemma RequestOp_sized m : msg_sized (RequestOp_SizeVT m) (RequestOp_Marshal m).
Proof.
  unfold RequestOp_SizeVT, RequestOp_Marshal.
  destruct (RequestOp.ro_Request m) as [[]|]; cbn [put_Request put_Response Request_SizeVT Response_SizeVT];
    rewrite ?Z.add_0_l; solve_sized.
Qed.

Lemma RangeResp_sized m : msg_sized (RangeResp_SizeVT m) (RangeResp_Marshal m).
Proof. unfold RangeResp_SizeVT, RangeResp_Marshal. solve_sized. Qed.
Lemma PutResp_sized m : msg_sized (PutResp_SizeVT m) (PutResp_Marshal m).
Proof. unfold PutResp_SizeVT, PutResp_Marshal. solve_sized. Qed.
Lemma DeleteRangeResp_sized m : msg_sized (DeleteRangeResp_SizeVT m) (DeleteRangeResp_Marshal m).
Proof. unfold DeleteRangeResp_SizeVT, DeleteRangeResp_Marshal. solve_sized. Qed.
#[export] Hint Resolve RangeResp_sized PutResp_sized DeleteRangeResp_sized RequestOp_sized : sized.

Lemma ResponseOp_sized m : msg_sized (ResponseOp_SizeVT m) (ResponseOp_Marshal m).
Proof.
  unfold ResponseOp_SizeVT, ResponseOp_Marshal.
  destruct (ResponseOp.so_Response m) as [[]|]; cbn [put_Request put_Response Request_SizeVT Response_SizeVT];
    rewrite ?Z.add_0_l; solve_sized.
Qed.

Lemma Compare_sized m : msg_sized (Compare_SizeVT m) (Compare_Marshal m).
Proof.
  unfold Compare_SizeVT, Compare_Marshal.
  rewrite <- (Z.add_assoc _ (optional_size _)), (Z.add_comm (optional_size _)), Z.add_assoc.
  solve_sized.
Qed.
#[export] Hint Resolve ResponseOp_sized Compare_sized : sized.

Lemma Txn_sized m : msg_sized (Txn_SizeVT m) (Txn_Marshal m).
Proof. unfold Txn_SizeVT, Txn_Marshal. solve_sized. Qed.
Lemma KeyValue_ptr_sized m : msg_sized (KeyValue_ptr_SizeVT m) (KeyValue_ptr_Marshal m).
Proof. destruct m; simpl; [auto with sized|]. split; [lia|done]. Qed.
#[export] Hint Resolve Txn_sized KeyValue_ptr_sized : sized.

Lemma Command_sized m : msg_sized (Command_SizeVT m) (Command_Marshal m).
Proof.
  induction m using Command_nested_ind. cbn [Command_SizeVT Command_Marshal]. solve_sized.
Qed.

Lemma CommandResult_sized m : msg_sized (CommandResult_SizeVT m) (CommandResult_Marshal m).
Proof. unfold CommandResult_SizeVT, CommandResult_Marshal. solve_sized. Qed.

Lemma marshal_sized_exact n bs : msg_sized n bs -> n < 2 ^ 63 -> marshal_sized n bs = Ok bs.
Proof.
  intros [_ H] Hn. unfold marshal_sized. rewrite H by done. rewrite Z.leb_refl, Z.sub_diag. simpl.
  by rewrite take_ge.
Qed.

(** ** Round trips

    The decoder reads back what the encoder wrote.  The codec forgets one
    distinction, an empty [RangeEnd] of a request is not written and comes
    back as nil, so the predicates below ask for a nil one. *)

Definition KeyValue_wf (m : KeyValue) : Prop :=
  is_int64 (kv_CreateRevision m) /\ is_int64 (kv_ModRevision m) /\ kv_unknownFields m = [].
Definition Range_wf (m : RequestOp.Range) : Prop :=
  is_int64 (RequestOp.rr_Limit m) /\ RequestOp.rr_RangeEnd m <> Some [] /\ RequestOp.rr_unknownFields m = [].
Definition Put_wf (m : RequestOp.Put) : Prop := RequestOp.rp_unknownFields m = [].
Definition DeleteRange_wf (m : RequestOp.DeleteRange) : Prop :=
  RequestOp.rd_RangeEnd m <> Some [] /\ RequestOp.rd_unknownFields m = [].
Definition Request_wf (r : RequestOp.Request) : Prop :=
  match r with
  | RequestOp.RequestRange r => Range_wf r
  | RequestOp.RequestPut r => Put_wf r
  | RequestOp.RequestDeleteRange r => DeleteRange_wf r
  end.
Definition RequestOp_wf (m : RequestOp.t) : Prop :=
  (forall r, RequestOp.ro_Request m = Some r -> Request_wf r) /\ RequestOp.ro_unknownFields m = [].
Definition RangeResp_wf (m : ResponseOp.Range) : Prop :=
  Forall KeyValue_wf (ResponseOp.sr_Kvs m) /\ is_int64 (ResponseOp.sr_Count m)
  /\ ResponseOp.sr_unknownFields m = [].
Definition PutResp_wf (m : ResponseOp.Put) : Prop :=
  (forall kv, ResponseOp.sp_PrevKv m = Some kv -> KeyValue_wf kv) /\ ResponseOp.sp_unknownFields m = [].
Definition DeleteRangeResp_wf (m : ResponseOp.DeleteRange) : Prop :=
  is_int64 (ResponseOp.sd_Deleted m) /\ Forall KeyValue_wf (ResponseOp.sd_PrevKvs m)
  /\ ResponseOp.sd_unknownFields m = [].
Definition Response_wf (r : ResponseOp.Response) : Prop :=
  match r with
  | ResponseOp.ResponseRange r => RangeResp_wf r
  | ResponseOp.ResponsePut r => PutResp_wf r
  | ResponseOp.ResponseDeleteRange r => DeleteRangeResp_wf r
  end.
Definition ResponseOp_wf (m : ResponseOp.t) : Prop :=
  (forall r, ResponseOp.so_Response m = Some r -> Response_wf r) /\ ResponseOp.so_unknownFields m = [].
Definition Compare_wf (m : Compare) : Prop :=
  is_int32 (cmp_Result m) /\ is_int32 (cmp_Target m) /\ cmp_RangeEnd m <> Some []
  /\ cmp_unknownFields m = [].
Definition Txn_wf (m : Txn) : Prop :=
  Forall Compare_wf (txn_Compare m) /\ Forall RequestOp_wf (txn_Success m)
  /\ Forall RequestOp_wf (txn_Failure m) /\ txn_unknownFields m = [].
Inductive Command_wf : Command -> Prop :=
  | Command_wf_intro t ty kv li b tx re pk s c :
      is_int32 ty -> (forall k, kv = Some k -> KeyValue_wf k) -> (forall i, li = Some i -> is_uint64 i) ->
      Forall (fun e => exists k, e = Some k /\ KeyValue_wf k) b -> (forall x, tx = Some x -> Txn_wf x) ->
      Forall Command_wf s -> Command_wf (mkCommand t ty kv li b tx re pk s c []).
Definition CommandResult_wf (m : CommandResult) : Prop :=
  Forall ResponseOp_wf (cr_Responses m) /\ is_uint64 (cr_Revision m) /\ cr_unknownFields m = [].

Section ParsePuts.
Context {M : Type} {field : field_reader M} {add_unknown : bytes -> M -> M}.
Local Abbreviation parses := (parses field add_unknown).

Lemma parses_nonempty l f set tag x d m r :
  l < 2 ^ 63 -> byte_Z tag = 8 * f + 2 -> 0 < f < 16 ->
  (forall d, field m l f 2 d = bytes_field set m l 2 d) ->
  (x = [] -> set x m = m) ->
  parses l d (set x m) r -> parses l (put_nonempty tag x d) m r.
Proof.
  intros Hl Ht Hf Hc H0 Hp. destruct x; [by rewrite <- H0|]. by eapply parses_bytes.
Qed.

Lemma parses_scalar l f set tag v d m r :
  byte_Z tag = 8 * f + 0 -> 0 < f < 16 ->
  (forall d, field m l f 0 d = varint_field set m 0 d) ->
  (v = 0 -> set (uint64 v) m = m) ->
  parses l d (set (uint64 v) m) r -> parses l (put_scalar tag v d) m r.
Proof.
  intros Ht Hf Hc H0 Hp. unfold put_scalar. destruct (Z.eqb_spec v 0); [by rewrite <- H0|].
  eapply parses_varint; eauto using uint64_range.
Qed.

Lemma parses_optional l f set tag x d m m' r :
  l < 2 ^ 63 -> byte_Z tag = 8 * f + 2 -> 0 < f < 16 ->
  (forall d, field m l f 2 d = bytes_field set m l 2 d) ->
  (forall y, x = Some y -> set y m = m') -> (x = None -> m' = m) ->
  parses l d m' r -> parses l (put_optional tag x d) m r.
Proof.
  intros Hl Ht Hf Hc Hset H0 Hp. destruct x as [x|]; simpl; [|by rewrite <- H0].
  eapply parses_bytes; eauto. by rewrite (Hset x).
Qed.

Lemma parses_optional_varint l f set tag v d m m' r :
  (forall i, v = Some i -> is_uint64 i) -> byte_Z tag = 8 * f + 0 -> 0 < f < 16 ->
  (forall d, field m l f 0 d = varint_field set m 0 d) ->
  (forall i, v = Some i -> set i m = m') -> (v = None -> m' = m) ->
  parses l d m' r -> parses l (put_optional_varint tag v d) m r.
Proof.
  intros Hv Ht Hf Hc Hset H0 Hp. destruct v as [v|]; simpl; [|by rewrite <- H0].
  rewrite uint64_id by auto. eapply parses_varint; eauto. by rewrite (Hset v).
Qed.

Lemma parses_embedded {A} l f set tag marshal (x : option A) d m m' r :
  l < 2 ^ 63 -> byte_Z tag = 8 * f + 2 -> 0 < f < 16 ->
  (forall d, field m l f 2 d = message_field set m l 2 d) ->
  (forall a, x = Some a -> len (marshal a) < l -> set (marshal a) m = Ok m') ->
  (x = None -> m' = m) ->
  parses l d m' r -> parses l (put_embedded tag marshal x d) m r.
Proof.
  intros Hl Ht Hf Hc Hset H0 Hp. destruct x as [x|]; simpl; [|by rewrite <- H0].
  eapply parses_message; eauto.
Qed.

Lemma parses_repeated {A} l f set tag marshal (mk : list A -> M) (ys xs : list A) d r :
  l < 2 ^ 63 -> byte_Z tag = 8 * f + 2 -> 0 < f < 16 ->
  (forall ys d, field (mk ys) l f 2 d = message_field set (mk ys) l 2 d) ->
  (forall a ys, a ∈ xs -> len (marshal a) < l -> set (marshal a) (mk ys) = Ok (mk (ys ++ [a]))) ->
  parses l d (mk (ys ++ xs)) r -> parses l (put_repeated tag marshal xs d) (mk ys) r.
Proof.
  intros Hl Ht Hf Hc Hset. revert ys. induction xs as [|x xs IH]; intros ys Hp.
  { by rewrite app_nil_r in Hp. }
  simpl. eapply parses_message; [done..| |].
  - intros. apply Hset; [by left|done].
  - apply IH; [|by rewrite <- app_assoc]. intros a ys' Ha. apply Hset. by right.
Qed.

(** The tag [0x82 0x04] of field 64 is the varint 514. *)
Lemma parses_range_end l set x d m m' r :
  l < 2 ^ 63 -> x <> Some [] ->
  (forall d, field m l 64 2 d = bytes_field set m l 2 d) ->
  (forall y, x = Some y -> set y m = m') -> (x = None -> m' = m) ->
  parses l d m' r -> parses l (put_range_end (default [] x) d) m r.
Proof.
  intros Hl Hx Hc Hset H0 Hp. destruct x as [[|b y]|]; simpl; [done| |by rewrite <- H0].
  unfold put_bytes. remember (b :: y) as x eqn:Ex. intros Hlen.
  pose proof (encodeVarint_len_ge (len x) (x ++ d)) as Hge.
  pose proof (len_nonneg x). pose proof (len_nonneg d).
  assert (len x + len d < l) as Hxl by (rewrite !len_cons, len_app in *; lia).
  revert Hlen. eapply parses_step; [by apply (read_varint_bytes 514)|done|done|..]; [..|exact Hp].
  - intros _. rewrite <- (Hset x) by done.
    change (field m l 64 2 (encodeVarint (len x) (x ++ d)) = Some (Ok (set x m, d))).
    rewrite Hc. unfold bytes_field. simpl. by rewrite read_delimited_put by lia.
  - rewrite encodeVarint_eq; [rewrite !length_app; lia|]. unfold is_uint64. lia.
Qed.
End ParsePuts.

Lemma parses_unmarshal {M} (field : field_reader M) add_unknown d m r :
  parses field add_unknown (len d) d m r -> unmarshal field add_unknown d m = Ok r.
Proof. intros H. apply H; lia. Qed.

#[local] Arguments put_nonempty : simpl never.
#[local] Arguments put_scalar : simpl never.
#[local] Arguments put_bool : simpl never.
#[local] Arguments put_bytes : simpl never.
#[local] Arguments put_optional : simpl never.
#[local] Arguments put_optional_varint : simpl never.
#[local] Arguments put_embedded : simpl never.
#[local] Arguments put_repeated : simpl never.
#[local] Arguments put_range_end : simpl never.

(** Reads one field, given its number; leaves the rest of the message. *)
Ltac parse_side :=
  first [ done | lia | (intros; reflexivity) | (intros; subst; reflexivity) | idtac ].
Tactic Notation "parse_put" constr(n) :=
  match goal with
  | |- parses _ _ _ (put_nonempty _ _ _) _ _ => eapply parses_nonempty with (f := n)
  | |- parses _ _ _ (put_scalar _ _ _) _ _ => eapply parses_scalar with (f := n)
  | |- parses _ _ _ (put_bool _ _ _) _ _ => eapply parses_bool with (f := n)
  | |- parses _ _ _ (put_bytes _ _ _) _ _ => eapply parses_message with (f := n)
  end; [parse_side..|].
(** The same for a field with presence, given the message read so far. *)
Tactic Notation "parse_put" constr(n) "giving" uconstr(m) :=
  match goal with
  | |- parses _ _ _ (put_optional _ _ _) _ _ => eapply parses_optional with (f := n) (m' := m)
  | |- parses _ _ _ (put_optional_varint _ _ _) _ _ => eapply parses_optional_varint with (f := n) (m' := m)
  | |- parses _ _ _ (put_embedded _ _ _ _) _ _ => eapply parses_embedded with (f := n) (m' := m)
  end; [parse_side..|].
(** The same for a repeated field, given the message around the list. *)
Tactic Notation "parse_each" constr(n) uconstr(m) :=
  eapply parses_repeated with (f := n) (mk := m) (ys := []); [parse_side..|].
Ltac parse_done :=
  simpl; rewrite ?b2z_bool, ?int64_uint64, ?int32_uint64, ?uint64_id, ?app_nil_r by done; try apply parses_nil.
(** Turns the goal into one about [parses] with the length abstracted. *)
Ltac parse_start :=
  match goal with
  | Hl : len ?d < 2 ^ 63 |- unmarshal _ _ ?d _ = Ok _ =>
      apply parses_unmarshal; revert Hl; generalize (len d); intros l Hl
  end.

Lemma KeyValue_roundtrip m :
  KeyValue_wf m -> len (KeyValue_Marshal m) < 2 ^ 63 ->
  KeyValue_UnmarshalVT (KeyValue_Marshal m) KeyValue_zero = Ok m.
Proof.
  destruct m as [k c mo v u]; intros (Hc & Hm & Hu) Hl; simpl in Hc, Hm, Hu; subst u.
  unfold KeyValue_UnmarshalVT. parse_start. unfold KeyValue_Marshal; simpl.
  parse_put 1. parse_put 2. parse_put 3. parse_put 4. parse_done.
Qed.

(** A nil or non-empty [RangeEnd] is written exactly when it is present. *)
Lemma put_nonempty_optional tag x d :
  x <> Some [] -> put_nonempty tag (default [] x) d = put_optional tag x d.
Proof. destruct x as [[]|]; done. Qed.

Lemma Range_roundtrip m :
  Range_wf m -> len (Range_Marshal m) < 2 ^ 63 ->
  Range_UnmarshalVT (Range_Marshal m) Range_zero = Ok m.
Proof.
  destruct m as [k re li ko co u]; intros (Hli & Hre & Hu) Hl; simpl in Hli, Hre, Hu; subst u.
  unfold Range_UnmarshalVT. parse_start. unfold Range_Marshal; simpl.
  rewrite put_nonempty_optional by done.
  parse_put 1. parse_put 2 giving (RequestOp.mkRange k re 0 false false []).
  parse_put 3. parse_put 4. parse_put 5. parse_done.
Qed.

Lemma Put_roundtrip m :
  Put_wf m -> len (Put_Marshal m) < 2 ^ 63 -> Put_UnmarshalVT (Put_Marshal m) Put_zero = Ok m.
Proof.
  destruct m as [k v p u]; intros Hu Hl; compute in Hu; subst u.
  unfold Put_UnmarshalVT. parse_start. unfold Put_Marshal; simpl.
  parse_put 1. parse_put 2. parse_put 3. parse_done.
Qed.

Lemma DeleteRange_roundtrip m :
  DeleteRange_wf m -> len (DeleteRange_Marshal m) < 2 ^ 63 ->
  DeleteRange_UnmarshalVT (DeleteRange_Marshal m) DeleteRange_zero = Ok m.
Proof.
  destruct m as [k re p c u]; intros (Hre & Hu) Hl; simpl in Hre, Hu; subst u.
  unfold DeleteRange_UnmarshalVT. parse_start. unfold DeleteRange_Marshal; simpl.
  rewrite put_nonempty_optional by done.
  parse_put 1. parse_put 2 giving (RequestOp.mkDeleteRange k re false false []).
  parse_put 4. parse_put 5. parse_done.
Qed.

Lemma RequestOp_roundtrip m :
  RequestOp_wf m -> len (RequestOp_Marshal m) < 2 ^ 63 ->
  RequestOp_UnmarshalVT (RequestOp_Marshal m) RequestOp_zero = Ok m.
Proof.
  destruct m as [r u]; intros (Hr & Hu) Hl; simpl in Hr, Hu; subst u.
  unfold RequestOp_UnmarshalVT. parse_start. unfold RequestOp_Marshal; simpl.
  destruct r as [[r|r|r]|]; [..|apply parses_nil]; specialize (Hr _ eq_refl); simpl in *.
  - parse_put 1; [|apply parses_nil]. intros. cbn. rewrite Range_roundtrip by (done || lia). done.
  - parse_put 2; [|apply parses_nil]. intros. cbn. rewrite Put_roundtrip by (done || lia). done.
  - parse_put 3; [|apply parses_nil]. intros. cbn. rewrite DeleteRange_roundtrip by (done || lia). done.
Qed.

Lemma RangeResp_roundtrip m :
  RangeResp_wf m -> len (RangeResp_Marshal m) < 2 ^ 63 ->
  RangeResp_UnmarshalVT (RangeResp_Marshal m) RangeResp_zero = Ok m.
Proof.
  destruct m as [kvs mo c u]; intros (Hk & Hc & Hu) Hl; simpl in Hk, Hc, Hu; subst u.
  unfold RangeResp_UnmarshalVT. parse_start. unfold RangeResp_Marshal; simpl.
  parse_each 1 (fun kvs => ResponseOp.mkRange kvs false 0 []).
  { intros kv ys Hkv ?. rewrite Forall_forall in Hk. rewrite KeyValue_roundtrip; auto with lia. }
  parse_put 2. parse_put 3. parse_done.
Qed.

Lemma PutResp_roundtrip m :
  PutResp_wf m -> len (PutResp_Marshal m) < 2 ^ 63 ->
  PutResp_UnmarshalVT (PutResp_Marshal m) PutResp_zero = Ok m.
Proof.
  destruct m as [kv u]; intros (Hk & Hu) Hl; simpl in Hk, Hu; subst u.
  unfold PutResp_UnmarshalVT. parse_start. unfold PutResp_Marshal; simpl.
  parse_put 1 giving (ResponseOp.mkPut kv []).
  { intros x -> ?. simpl. rewrite KeyValue_roundtrip; auto with lia. }
  apply parses_nil.
Qed.

Lemma DeleteRangeResp_roundtrip m :
  DeleteRangeResp_wf m -> len (DeleteRangeResp_Marshal m) < 2 ^ 63 ->
  DeleteRangeResp_UnmarshalVT (DeleteRangeResp_Marshal m) DeleteRangeResp_zero = Ok m.
Proof.
  destruct m as [n kvs u]; intros (Hn & Hk & Hu) Hl; simpl in Hn, Hk, Hu; subst u.
  unfold DeleteRangeResp_UnmarshalVT. parse_start. unfold DeleteRangeResp_Marshal; simpl.
  parse_put 1. simpl. rewrite int64_uint64 by done.
  parse_each 2 (fun kvs => ResponseOp.mkDeleteRange n kvs []).
  { intros kv ys Hkv ?. rewrite Forall_forall in Hk. rewrite KeyValue_roundtrip; auto with lia. }
  parse_done.
Qed.

Lemma ResponseOp_roundtrip m :
  ResponseOp_wf m -> len (ResponseOp_Marshal m) < 2 ^ 63 ->
  ResponseOp_UnmarshalVT (ResponseOp_Marshal m) ResponseOp_zero = Ok m.
Proof.
  destruct m as [r u]; intros (Hr & Hu) Hl; simpl in Hr, Hu; subst u.
  unfold ResponseOp_UnmarshalVT. parse_start. unfold ResponseOp_Marshal; simpl.
  destruct r as [[r|r|r]|]; [..|apply parses_nil]; specialize (Hr _ eq_refl); simpl in Hr; simpl.
  - parse_put 1; [|apply parses_nil]. intros. cbn. rewrite RangeResp_roundtrip by (done || lia). done.
  - parse_put 2; [|apply parses_nil]. intros. cbn. rewrite PutResp_roundtrip by (done || lia). done.
  - parse_put 3; [|apply parses_nil]. intros. cbn. rewrite DeleteRangeResp_roundtrip by (done || lia). done.
Qed.

Lemma Compare_roundtrip m :
  Compare_wf m -> len (Compare_Marshal m) < 2 ^ 63 ->
  Compare_UnmarshalVT (Compare_Marshal m) Compare_zero = Ok m.
Proof.
  destruct m as [re t k tu rg u]; intros (Hr & Ht & Hg & Hu) Hl; simpl in Hr, Ht, Hg, Hu; subst u.
  unfold Compare_UnmarshalVT. parse_start. unfold Compare_Marshal; simpl.
  parse_put 1. parse_put 2. parse_put 3. simpl. rewrite !int32_uint64 by done.
  eapply parses_range_end with (m' := mkCompare re t k None rg []); [parse_side..|].
  parse_put 4 giving (mkCompare re t k tu rg []). apply parses_nil.
Qed.

Lemma Txn_roundtrip m :
  Txn_wf m -> len (Txn_Marshal m) < 2 ^ 63 -> Txn_UnmarshalVT (Txn_Marshal m) Txn_zero = Ok m.
Proof.
  destruct m as [c s f u]; intros (Hc & Hs & Hf & Hu) Hl; simpl in Hc, Hs, Hf, Hu; subst u.
  rewrite Forall_forall in Hc; rewrite Forall_forall in Hs; rewrite Forall_forall in Hf.
  unfold Txn_UnmarshalVT. parse_start. unfold Txn_Marshal; simpl.
  parse_each 1 (fun c => mkTxn c [] [] []).
  { intros. cbn. rewrite Compare_roundtrip; auto with lia. }
  parse_each 2 (fun s => mkTxn c s [] []).
  { intros. cbn. rewrite RequestOp_roundtrip; auto with lia. }
  parse_each 3 (fun f => mkTxn c s f []).
  { intros. cbn. rewrite RequestOp_roundtrip; auto with lia. }
  apply parses_nil.
Qed.

Lemma Command_roundtrip_at m depth :
  Command_wf m -> len (Command_Marshal m) < Z.min (2 ^ 63) (Z.of_nat depth) ->
  Command_Unmarshal_at depth (Command_Marshal m) Command_zero = Ok m.
Proof.
  revert depth. induction m as [t ty kv li b tx re pk s c u IH] using Command_nested_ind.
  intros [|depth] Hwf Hl; [pose proof (len_nonneg (Command_Marshal (mkCommand t ty kv li b tx re pk s c u))); lia|].
  inversion Hwf as [? ? ? ? ? ? ? ? ? ? Hty Hkv Hli Hb Htx Hs]; subst.
  cbn [Command_Unmarshal_at]. apply parses_unmarshal. revert Hl.
  generalize (len (Command_Marshal (mkCommand t ty kv li b tx re pk s c []))). intros l Hl.
  cbn [Command_Marshal]. rewrite Forall_forall in IH; rewrite Forall_forall in Hb; rewrite Forall_forall in Hs. assert (l < 2 ^ 63) by lia.
  parse_put 1. parse_put 2. simpl. rewrite int32_uint64 by done.
  parse_put 3 giving (mkCommand t ty kv None [] None None false [] false []).
  { intros x -> ?. simpl. rewrite KeyValue_roundtrip; auto with lia. }
  parse_put 5 giving (mkCommand t ty kv li [] None None false [] false []).
  parse_each 6 (fun b => mkCommand t ty kv li b None None false [] false []).
  { intros a ys (k & -> & ?)%Hb ?. simpl in *. rewrite KeyValue_roundtrip; auto with lia. }
  parse_put 7 giving (mkCommand t ty kv li b tx None false [] false []).
  { intros x -> ?. simpl. rewrite Txn_roundtrip; auto with lia. }
  parse_put 8 giving (mkCommand t ty kv li b tx re false [] false []).
  parse_put 9. cbn beta iota. rewrite b2z_bool.
  parse_each 10 (fun s => mkCommand t ty kv li b tx re pk s false []).
  { intros x ys Hx ?. cbn. rewrite IH; auto with lia. }
  parse_put 11. parse_done.
Qed.

Lemma CommandResult_unmarshal_marshal m :
  CommandResult_wf m -> len (CommandResult_Marshal m) < 2 ^ 63 ->
  CommandResult_UnmarshalVT (CommandResult_Marshal m) CommandResult_zero = Ok m.
Proof.
  destruct m as [r v u]; intros (Hr & Hv & Hu) Hl; simpl in Hr, Hv, Hu; subst u.
  rewrite Forall_forall in Hr.
  unfold CommandResult_UnmarshalVT. parse_start. unfold CommandResult_Marshal; simpl.
  parse_each 1 (fun r => mkCommandResult r 0 []).
  { intros. cbn. rewrite ResponseOp_roundtrip; auto with lia. }
  parse_put 2. parse_done.
Qed.

(** ** Termination

    A [field_reader] is fine up to [bound] when it consumes what it reads and
    does not run out of fuel on inputs shorter than [bound]; the decoding loop
    over such a reader does not run out either. *)

Definition step_ok {M} (bound : nat) (d : bytes) (r : option (res (M * bytes))) : Prop :=
  match r with
  | Some (Ok (_, d')) => (length d' <= length d)%nat
  | Some (Err ErrOutOfFuel) => ~ ((length d < bound)%nat /\ len d < 2 ^ 63)
  | _ => True
  end.
Definition reader_ok {M} (bound : nat) (field : field_reader M) : Prop :=
  forall m l f wt d, step_ok bound d (field m l f wt d).
Definition decoder_ok {M} (bound : nat) (decode : bytes -> M -> res M) : Prop :=
  forall d m, (length d <= bound)%nat -> len d < 2 ^ 63 -> decode d m <> Err ErrOutOfFuel.

Lemma unmarshal_ok {M} bound (field : field_reader M) add_unknown :
  reader_ok bound field -> decoder_ok bound (unmarshal field add_unknown).
Proof.
  intros H d m Hb Hd. eapply unmarshal_loop_fuel; [..|done|done|exact Hb].
  - intros m0 l f wt d0 m' d' E. specialize (H m0 l f wt d0). by rewrite E in H.
  - intros m0 l f wt d0 ? ? E. specialize (H m0 l f wt d0). rewrite E in H. by apply H.
Qed.

Lemma read_delimited_fuel l d : read_delimited l d <> Err ErrOutOfFuel.
Proof.
  unfold read_delimited. destruct (read_varint d) as [[v d']|e|] eqn:E; simpl; [..|done].
  - by repeat case_match.
  - intros [= ->]. by apply varint_go_fuel in E.
Qed.

Lemma varint_field_ok {M} bound set (m : M) wt d : step_ok bound d (varint_field set m wt d).
Proof.
  unfold varint_field. case_match; [|done].
  destruct (read_varint d) as [[v d']|e|] eqn:E; simpl; [|destruct e; try done|done].
  - apply read_varint_shrinks in E. lia.
  - by apply varint_go_fuel in E.
Qed.

Lemma message_field_ok {M} bound set (m : M) l wt d :
  (forall x m, (length x < bound)%nat -> len x < 2 ^ 63 -> set x m <> Err ErrOutOfFuel) ->
  step_ok bound d (message_field set m l wt d).
Proof.
  intros Hset. unfold message_field. case_match; [|done].
  destruct (read_delimited l d) as [[x d']|e|] eqn:E; simpl; [|destruct e; try done|done].
  - apply read_delimited_shrinks in E. specialize (Hset x m).
    destruct (set x m) as [m'|e|]; simpl; [lia|destruct e; try done|done].
    intros [? ?]. apply Hset; unfold len in *; [lia|lia|done].
  - by apply read_delimited_fuel in E.
Qed.

Lemma bytes_field_ok {M} bound set (m : M) l wt d : step_ok bound d (bytes_field set m l wt d).
Proof.
  apply (message_field_ok bound (fun x m => Ok (set x m))). done.
Qed.

Lemma step_ok_None {M} bound d : step_ok bound d (@None (res (M * bytes))).
Proof. done. Qed.

Lemma bind_fuel {A B} (r : res A) (k : A -> res B) :
  r <> Err ErrOutOfFuel -> (forall a, k a <> Err ErrOutOfFuel) -> mbind k r <> Err ErrOutOfFuel.
Proof. destruct r; simpl; auto. intros H _ [= ->]. done. Qed.

Create HintDb decoder.
#[export] Hint Resolve varint_field_ok bytes_field_ok step_ok_None : decoder.

Lemma decoder_use {M} bound (decode : bytes -> M -> res M) x m :
  decoder_ok bound decode -> (length x < bound)%nat -> len x < 2 ^ 63 -> decode x m <> Err ErrOutOfFuel.
Proof. intros H ? ?. apply H; [lia|done]. Qed.

(** One case per field of the [switch]. *)
Ltac solve_reader field :=
  intros m l f wt d; unfold field;
  repeat match goal with
  | |- step_ok _ _ (match ?x with _ => _ end) => destruct x
  end; auto with decoder;
  (apply message_field_ok; intros ? [] ? ?; cbv beta iota zeta;
   apply bind_fuel; [first [by auto | by eapply decoder_use; [auto with decoder| |]] | intros; done]).

Lemma KeyValue_UnmarshalVT_ok bound : decoder_ok bound KeyValue_UnmarshalVT.
Proof. apply unmarshal_ok. solve_reader KeyValue_field. Qed.
Lemma Range_UnmarshalVT_ok bound : decoder_ok bound Range_UnmarshalVT.
Proof. apply unmarshal_ok. solve_reader Range_field. Qed.
Lemma Put_UnmarshalVT_ok bound : decoder_ok bound Put_UnmarshalVT.
Proof. apply unmarshal_ok. solve_reader Put_field. Qed.
Lemma DeleteRange_UnmarshalVT_ok bound : decoder_ok bound DeleteRange_UnmarshalVT.
Proof. apply unmarshal_ok. solve_reader DeleteRange_field. Qed.
#[export] Hint Resolve KeyValue_UnmarshalVT_ok Range_UnmarshalVT_ok Put_UnmarshalVT_ok
  DeleteRange_UnmarshalVT_ok : decoder.
Lemma RequestOp_UnmarshalVT_ok bound : decoder_ok bound RequestOp_UnmarshalVT.
Proof. apply unmarshal_ok. solve_reader RequestOp_field. Qed.
Lemma RangeResp_UnmarshalVT_ok bound : decoder_ok bound RangeResp_UnmarshalVT.
Proof. apply unmarshal_ok. solve_reader RangeResp_field. Qed.
Lemma PutResp_UnmarshalVT_ok bound : decoder_ok bound PutResp_UnmarshalVT.
Proof. apply unmarshal_ok. solve_reader PutResp_field. Qed.
Lemma DeleteRangeResp_UnmarshalVT_ok bound : decoder_ok bound DeleteRangeResp_UnmarshalVT.
Proof. apply unmarshal_ok. solve_reader DeleteRangeResp_field. Qed.
#[export] Hint Resolve RequestOp_UnmarshalVT_ok RangeResp_UnmarshalVT_ok PutResp_UnmarshalVT_ok
  DeleteRangeResp_UnmarshalVT_ok : decoder.
Lemma ResponseOp_UnmarshalVT_ok bound : decoder_ok bound ResponseOp_UnmarshalVT.
Proof. apply unmarshal_ok. solve_reader ResponseOp_field. Qed.
Lemma Compare_UnmarshalVT_ok bound : decoder_ok bound Compare_UnmarshalVT.
Proof. apply unmarshal_ok. solve_reader Compare_field. Qed.
#[export] Hint Resolve ResponseOp_UnmarshalVT_ok Compare_UnmarshalVT_ok : decoder.
Lemma Txn_UnmarshalVT_ok bound : decoder_ok bound Txn_UnmarshalVT.
Proof. apply unmarshal_ok. solve_reader Txn_field. Qed.
Lemma CommandResult_UnmarshalVT_ok bound : decoder_ok bound CommandResult_UnmarshalVT.
Proof. apply unmarshal_ok. solve_reader CommandResult_field. Qed.
#[export] Hint Resolve Txn_UnmarshalVT_ok : decoder.

Lemma Command_Unmarshal_at_ok depth : decoder_ok depth (Command_Unmarshal_at (S depth)).
Proof.
  assert (forall bound dec, (forall x m, (length x < bound)%nat -> len x < 2 ^ 63 -> dec x m <> Err ErrOutOfFuel) ->
    reader_ok bound (Command_field dec)) as H.
  { intros bound dec Hdec. solve_reader Command_field. }
  induction depth as [|depth IH]; apply unmarshal_ok, H; intros x m Hx ?; [lia|].
  apply IH; [lia|done].
Qed.

(** ** Claims *)

Lemma Command_MarshalVT_exact m :
  Command_SizeVT m < 2 ^ 63 -> Command_MarshalVT m = Ok (Command_Marshal m).
Proof. apply marshal_sized_exact, Command_sized. Qed.

Lemma Command_Marshal_len m : Command_SizeVT m < 2 ^ 63 -> len (Command_Marshal m) = Command_SizeVT m.
Proof. apply Command_sized. Qed.

(** A command with every kind of field set, a nested command included. *)
Definition sample_kv : KeyValue := mkKeyValue (str "key") 3 (-4) (str "value") [].
Definition sample_command : Command :=
  mkCommand (str "table") Command_SEQUENCE (Some sample_kv) (Some 300) [Some sample_kv]
    (Some (mkTxn [mkCompare Compare_EQUAL Compare_VALUE (str "k") (Some (str "v")) (Some (str "z")) []]
       [RequestOp.mk (Some (RequestOp.RequestPut (RequestOp.mkPut (str "k") (str "v") true []))) []] [] []))
    (Some []) true
    [mkCommand (str "table") Command_PUT (Some sample_kv) None [] None None false [] false []] true [].

Lemma sample_kv_wf : KeyValue_wf sample_kv.
Proof. by repeat split. Defined.

Lemma sample_op_wf r u : Request_wf r -> u = [] -> RequestOp_wf (RequestOp.mk (Some r) u).
Proof. intros. split; [|done]. simpl. intros; by simplify_eq. Defined.

Lemma sample_command_wf : Command_wf sample_command.
Proof.
  constructor; [by vm_compute|intros; simplify_eq; apply sample_kv_wf|intros; by simplify_eq|..].
  - constructor; [|done]. exists sample_kv. split; [done|apply sample_kv_wf].
  - intros x [= <-]. split; [|split; [|by split]].
    + constructor; [|done]. by repeat split.
    + constructor; [|done]. by apply sample_op_wf.
  - constructor; [|done]. constructor; try done. intros; simplify_eq; apply sample_kv_wf.
Defined.

(** [Command.MarshalVT] never fails and never overruns its buffer: the
    buffer of [SizeVT()] bytes is filled exactly, for every command whose size
    is a Go [int]. *)
Theorem Command_marshal_exact m :
  Command_SizeVT m < 2 ^ 63 ->
  Command_MarshalVT m = Ok (Command_Marshal m) /\ len (Command_Marshal m) = Command_SizeVT m.
Proof. split; [by apply Command_MarshalVT_exact|by apply Command_Marshal_len]. Qed.

Lemma Command_marshal_exact_witness :
  Command_MarshalVT sample_command = Ok (Command_Marshal sample_command)
  /\ len (Command_Marshal sample_command) = Command_SizeVT sample_command.
Proof. apply (Command_marshal_exact sample_command). vm_compute. reflexivity. Defined.

(** C21. Decoding inverts encoding: [UnmarshalVT] into a fresh command returns
    the command that [MarshalVT] wrote, nested sequences, batches and
    transactions included.  A nil batch element and a non-nil empty
    [RangeEnd] of a transaction operation are the values the wire format
    cannot tell from their defaults; well-formed commands have neither. *)
Theorem Command_roundtrip m :
  Command_wf m -> Command_SizeVT m < 2 ^ 63 ->
  exists bs, Command_MarshalVT m = Ok bs /\ Command_UnmarshalVT bs Command_zero = Ok m.
Proof.
  intros Hwf Hs. exists (Command_Marshal m). split; [by apply Command_MarshalVT_exact|].
  apply Command_roundtrip_at; [done|]. rewrite <- (Command_Marshal_len m) in Hs by done.
  unfold len in *. lia.
Qed.

Lemma Command_roundtrip_witness :
  exists bs, Command_MarshalVT sample_command = Ok bs
             /\ Command_UnmarshalVT bs Command_zero = Ok sample_command.
Proof.
  apply (Command_roundtrip sample_command); [exact sample_command_wf|]. vm_compute. reflexivity.
Defined.

(** The same for the results that the state machine returns to the
    proposer. *)
Theorem CommandResult_roundtrip m :
  CommandResult_wf m -> CommandResult_SizeVT m < 2 ^ 63 ->
  exists bs, CommandResult_MarshalVT m = Ok bs
             /\ CommandResult_UnmarshalVT bs CommandResult_zero = Ok m.
Proof.
  intros Hwf Hs. pose proof (CommandResult_sized m) as Hm.
  exists (CommandResult_Marshal m). split; [by apply marshal_sized_exact|].
  apply CommandResult_unmarshal_marshal; [done|]. by rewrite (proj2 Hm).
Qed.

Lemma CommandResult_roundtrip_witness :
  let m := mkCommandResult
    [ResponseOp.mk (Some (ResponseOp.ResponseDeleteRange (ResponseOp.mkDeleteRange 1 [sample_kv] []))) []] 7 [] in
  exists bs, CommandResult_MarshalVT m = Ok bs /\ CommandResult_UnmarshalVT bs CommandResult_zero = Ok m.
Proof.
  intros m. apply (CommandResult_roundtrip m); [|vm_compute; reflexivity].
  repeat split; repeat constructor; simpl; intros; simplify_eq; try done.
  repeat split; repeat constructor; done.
Defined.

(** Decoding terminates: on every input, well formed or not, and whatever
    the nesting of its sequences, the loops of [Command.UnmarshalVT] end
    before the rounds that the model gives them do. *)
Theorem Command_unmarshal_terminates d m :
  len d < 2 ^ 63 -> Command_UnmarshalVT d m <> Err ErrOutOfFuel.
Proof. intros Hd. by apply Command_Unmarshal_at_ok. Qed.

Lemma Command_unmarshal_terminates_witness :
  Command_UnmarshalVT (str "garbage") Command_zero <> Err ErrOutOfFuel.
Proof. apply (Command_unmarshal_terminates (str "garbage") Command_zero). reflexivity. Defined.
