(* ===== verification/Pebble.v ===== *)
(** * The storage engine interface

    Pebble is a library that the table state machine only calls.  [PebbleOps]
    names the operations the source uses and [PebbleLaws] what it relies on:
    the documented behaviour of a sorted key-value store with snapshots and
    of write batches, an indexed batch reading through to the store.  Writes
    can fail; [PebbleHealthy] adds that they do not, for the theorems that
    claim a result.  [mem_pebble] is an in-memory implementation that
    discharges the laws, so that the theorems apply to concrete stores.

    The order of keys is [DefaultComparer.Compare] ([bytes.Compare]) and
    [split] is the program's own ([pebble/pebble.go]). *)

From S2P Require Import Prelude.

(** [split], the [Comparer.Split] of [DefaultOptions]: the whole key is the prefix. *)
Definition split (b : bytes) : Z := len b.

(** ** Batches *)

Inductive batch_op :=
  | BSet (k v : bytes)
  | BDelete (k : bytes)
  | BDeleteRange (lo hi : bytes).

(** [lo <= k < hi]. *)
Definition in_bounds (lo hi k : bytes) : bool :=
  bool_decide (bytes_le lo k) && bool_decide (bytes_lt k hi).

Definition apply_op (m : gmap bytes bytes) (o : batch_op) : gmap bytes bytes :=
  match o with
  | BSet k v => <[k := v]> m
  | BDelete k => delete k m
  | BDeleteRange lo hi => filter (fun kv => in_bounds lo hi kv.1 = false) m
  end.
Definition apply_ops (ops : list batch_op) (m : gmap bytes bytes) : gmap bytes bytes :=
  foldl apply_op m ops.

(** [IterOptions]: the bounds of an iterator, if any. *)
Abbreviation IterOptions := (option (bytes * bytes)).
Definition opts_admit (o : IterOptions) (k : bytes) : bool :=
  match o with None => true | Some (lo, hi) => in_bounds lo hi k end.

(** ** Interface *)

Class PebbleOps := {
  DB : Type;
  Batch : Type;
  (** [pebble.Reader]: a store (or a snapshot of it) or a batch over a store. *)
  Reader : Type;
  read_db : DB -> Reader;
  read_batch : DB -> Batch -> Reader;
  Get : Reader -> bytes -> res bytes;
  (** The entries that [First], [Next], ... of [NewIter opts] run through. *)
  NewIter : Reader -> IterOptions -> list (bytes * bytes);
  (** [NewIter(nil)] positioned by [SeekPrefixGE], for the [Split] given. *)
  SeekPrefixGE : (bytes -> Z) -> Reader -> bytes -> option (bytes * bytes);
  NewBatch : DB -> Batch;
  NewIndexedBatch : DB -> Batch;
  Indexed : Batch -> bool;
  batch_Apply : Batch -> Batch -> res Batch;
  batch_Set : Batch -> bytes -> bytes -> res Batch;
  batch_Delete : Batch -> bytes -> res Batch;
  batch_DeleteRange : Batch -> bytes -> bytes -> res Batch;
  batch_Close : Batch -> res unit;
  batch_Commit : DB -> Batch -> res DB
}.

Definition entry_lt (a b : bytes * bytes) : Prop := bytes_lt a.1 b.1.
Definition entry_le (a b : bytes * bytes) : Prop := bytes_le a.1 b.1.

#[export] Instance entry_lt_trans : Transitive entry_lt.
Proof. intros a b c. unfold entry_lt. apply transitivity. Qed.
#[export] Instance entry_lt_irrefl : Irreflexive entry_lt.
Proof. intros a. unfold complement, entry_lt. apply irreflexivity, _. Qed.
#[export] Instance entry_le_dec : RelDecision entry_le.
Proof. intros a b. unfold entry_le. apply _. Defined.
#[export] Instance entry_le_trans : Transitive entry_le.
Proof. intros a b c. unfold entry_le. apply transitivity. Qed.
#[export] Instance entry_le_total : Total entry_le.
Proof. intros a b. unfold entry_le. apply total, _. Qed.

(** The entry that [SeekPrefixGE] stops at: the first at or after [key] with
    the prefix of [key]. *)
Definition same_prefix (sp : bytes -> Z) (key k : bytes) : Prop :=
  take (Z.to_nat (sp k)) k = take (Z.to_nat (sp key)) key.

Class PebbleLaws (P : PebbleOps) := {
  db_view : DB -> gmap bytes bytes;
  batch_log : Batch -> list batch_op;
  (** [None]: the reader is a batch without an index, which cannot be read. *)
  view : Reader -> option (gmap bytes bytes);
  view_db db : view (read_db db) = Some (db_view db);
  view_batch db b :
    view (read_batch db b) =
      if Indexed b then Some (apply_ops (batch_log b) (db_view db)) else None;
  Get_spec r m k :
    view r = Some m -> Get r k = match m !! k with Some v => Ok v | None => Err ErrNotFound end;
  NewIter_sorted r o : StronglySorted entry_lt (NewIter r o);
  NewIter_spec r m o k v :
    view r = Some m -> (k, v) ∈ NewIter r o <-> m !! k = Some v /\ opts_admit o k = true;
  SeekPrefixGE_spec sp r m key :
    view r = Some m ->
    match SeekPrefixGE sp r key with
    | Some (k, v) => m !! k = Some v /\ bytes_le key k /\ same_prefix sp key k
    | None => forall k v, m !! k = Some v -> bytes_le key k -> ~ same_prefix sp key k
    end;
  NewBatch_spec db : Indexed (NewBatch db) = false /\ batch_log (NewBatch db) = [];
  NewIndexedBatch_spec db : Indexed (NewIndexedBatch db) = true /\ batch_log (NewIndexedBatch db) = [];
  batch_Apply_spec b b' b'' :
    batch_Apply b b' = Ok b'' -> batch_log b'' = batch_log b ++ batch_log b' /\ Indexed b'' = Indexed b;
  batch_Set_spec b k v b' :
    batch_Set b k v = Ok b' -> batch_log b' = batch_log b ++ [BSet k v] /\ Indexed b' = Indexed b;
  batch_Delete_spec b k b' :
    batch_Delete b k = Ok b' -> batch_log b' = batch_log b ++ [BDelete k] /\ Indexed b' = Indexed b;
  batch_DeleteRange_spec b lo hi b' :
    batch_DeleteRange b lo hi = Ok b' ->
    batch_log b' = batch_log b ++ [BDeleteRange lo hi] /\ Indexed b' = Indexed b;
  batch_Commit_spec db b db' :
    batch_Commit db b = Ok db' -> db_view db' = apply_ops (batch_log b) (db_view db)
}.

(** No write fails. *)
Class PebbleHealthy (P : PebbleOps) := {
  batch_Apply_ok b b' : is_Ok (batch_Apply b b');
  batch_Set_ok b k v : is_Ok (batch_Set b k v);
  batch_Delete_ok b k : is_Ok (batch_Delete b k);
  batch_DeleteRange_ok b lo hi : is_Ok (batch_DeleteRange b lo hi);
  batch_Close_ok b : is_Ok (batch_Close b);
  batch_Commit_ok db b : is_Ok (batch_Commit db b)
}.

(** ** Consequences *)

Lemma apply_ops_app l1 l2 m : apply_ops (l1 ++ l2) m = apply_ops l2 (apply_ops l1 m).
Proof. apply foldl_app. Qed.

Lemma in_bounds_spec lo hi k : in_bounds lo hi k = true <-> bytes_le lo k /\ bytes_lt k hi.
Proof. unfold in_bounds. rewrite andb_true_iff, !bool_decide_eq_true. done. Qed.

Lemma lookup_delete_range (lo hi k : bytes) (m : gmap bytes bytes) :
  apply_op m (BDeleteRange lo hi) !! k = if in_bounds lo hi k then None else m !! k.
Proof.
  simpl. destruct (in_bounds lo hi k) eqn:E.
  - apply map_lookup_filter_None. right. intros v _. simpl. by rewrite E.
  - destruct (m !! k) as [v|] eqn:Ek.
    + by apply map_lookup_filter_Some.
    + apply map_lookup_filter_None. by left.
Qed.

(** The entries of a map in the order of their keys. *)
Definition sorted_entries (m : gmap bytes bytes) : list (bytes * bytes) :=
  merge_sort entry_le (map_to_list m).

Lemma elem_of_sorted_entries m k v : (k, v) ∈ sorted_entries m <-> m !! k = Some v.
Proof. unfold sorted_entries. rewrite merge_sort_Permutation. apply elem_of_map_to_list. Qed.

Lemma entry_le_lt a b : entry_le a b -> a.1 <> b.1 -> entry_lt a b.
Proof. intros [H|H]%bytes_le_lt_or_eq Hne; done. Qed.

Lemma sorted_entries_sorted m : StronglySorted entry_lt (sorted_entries m).
Proof.
  assert (NoDup (sorted_entries m).*1) as Hnd.
  { unfold sorted_entries. rewrite merge_sort_Permutation. apply NoDup_fst_map_to_list. }
  pose proof (StronglySorted_merge_sort entry_le (map_to_list m)) as Hs.
  fold (sorted_entries m) in Hs. revert Hnd. induction Hs as [|x l _ IH HF]; intros Hnd; constructor.
  - apply IH. by inversion Hnd.
  - rewrite Forall_forall in *. intros y Hy. apply entry_le_lt; [auto|].
    inversion Hnd as [|?? Hx]; subst. intros E. apply Hx. rewrite E. apply list_elem_of_fmap. by exists y.
Qed.

(** Seeking with the program's [split] finds exactly the key. *)
Lemma SeekPrefixGE_split `{PebbleLaws} r m key :
  view r = Some m -> SeekPrefixGE split r key = (fun v => (key, v)) <$> m !! key.
Proof.
  intros Hv. pose proof (SeekPrefixGE_spec split r m key Hv) as Hs.
  assert (forall k, same_prefix split key k -> k = key) as Hpre.
  { intros k Hk. unfold same_prefix, split, len in Hk.
    rewrite !Nat2Z.id, !take_ge in Hk by done. done. }
  destruct (SeekPrefixGE split r key) as [[k v]|].
  - destruct Hs as (Hk & _ & Hp%Hpre). subst. by rewrite Hk.
  - destruct (m !! key) as [v|] eqn:E; [|done]. exfalso. eapply Hs; [done|apply reflexivity|done].
Qed.

(** The iterator of a reader is determined by its contents. *)
Lemma NewIter_unique `{PebbleLaws} r m o l :
  view r = Some m -> StronglySorted entry_lt l ->
  (forall k v, (k, v) ∈ l <-> m !! k = Some v /\ opts_admit o k = true) -> NewIter r o = l.
Proof.
  intros Hv Hs Hl.
  apply (StronglySorted_ext entry_lt); [apply NewIter_sorted|done|].
  intros [k v]. rewrite (NewIter_spec r m) by done. by rewrite Hl.
Qed.

(** ** An in-memory store *)

Record mem_batch := mkMemBatch { mb_indexed : bool; mb_log : list batch_op }.
Definition mem_push (b : mem_batch) (ops : list batch_op) : res mem_batch :=
  Ok (mkMemBatch (mb_indexed b) (mb_log b ++ ops)).
Definition mem_entries (r : option (gmap bytes bytes)) : list (bytes * bytes) :=
  match r with Some m => sorted_entries m | None => [] end.

#[export] Instance mem_pebble : PebbleOps := {
  DB := gmap bytes bytes;
  Batch := mem_batch;
  Reader := option (gmap bytes bytes);
  read_db db := Some db;
  read_batch db b := if mb_indexed b then Some (apply_ops (mb_log b) db) else None;
  Get r k := match r with
             | Some m => match m !! k with Some v => Ok v | None => Err ErrNotFound end
             | None => Err ErrNotIndexed
             end;
  NewIter r o := filter (fun kv => opts_admit o kv.1 = true) (mem_entries r);
  SeekPrefixGE sp r key :=
    head (filter (fun kv => bytes_le key kv.1 /\ take (Z.to_nat (sp kv.1)) kv.1 = take (Z.to_nat (sp key)) key)
            (mem_entries r));
  NewBatch _ := mkMemBatch false [];
  NewIndexedBatch _ := mkMemBatch true [];
  Indexed := mb_indexed;
  batch_Apply b b' := mem_push b (mb_log b');
  batch_Set b k v := mem_push b [BSet k v];
  batch_Delete b k := mem_push b [BDelete k];
  batch_DeleteRange b lo hi := mem_push b [BDeleteRange lo hi];
  batch_Close _ := Ok tt;
  batch_Commit db b := Ok (apply_ops (mb_log b) db)
}.

Lemma StronglySorted_filter {A} (R : relation A) (P : A -> Prop) `{!forall x, Decision (P x)} l :
  StronglySorted R l -> StronglySorted R (filter P l).
Proof.
  induction 1 as [|x l Hl IH HF]; [constructor|]. rewrite filter_cons. case_decide; [|done].
  constructor; [done|]. rewrite Forall_forall in *. intros y Hy. apply HF.
  by apply list_elem_of_filter in Hy as [_ ?].
Qed.

#[export, refine] Instance mem_pebble_laws : PebbleLaws mem_pebble := {
  db_view db := db;
  batch_log := mb_log;
  view r := r
}.
Proof.
  all: simpl; try done.
  - by intros r m k ->.
  - intros [m|] o; simpl; [|constructor]. apply StronglySorted_filter, sorted_entries_sorted.
  - intros r m o k v ->. rewrite list_elem_of_filter. simpl. rewrite elem_of_sorted_entries. tauto.
  - intros sp r m key ->. simpl. unfold same_prefix.
    destruct (filter _ _) as [|[k v] l] eqn:E; simpl.
    + intros k v Hk Hle Hsp. apply (not_elem_of_nil (k, v)). rewrite <- E.
      apply list_elem_of_filter. by rewrite elem_of_sorted_entries.
    + assert ((k, v) ∈ (k, v) :: l) as Hin by left. rewrite <- E in Hin.
      apply list_elem_of_filter in Hin as [? ?%elem_of_sorted_entries]. tauto.
  - intros b b' b'' [= <-]. done.
  - intros b k v b'' [= <-]. done.
  - intros b k b'' [= <-]. done.
  - intros b lo hi b'' [= <-]. done.
  - by intros db b db' [= <-].
Defined.

#[export] Instance mem_pebble_healthy : PebbleHealthy mem_pebble.
Proof. constructor; intros; eexists; reflexivity. Qed.
