(* ===== verification/Query.v ===== *)
(** * Reading a table ([storage/table/fsm/query.go], [iter.go], parts of [fsm.go])

    The stored keys of the state machine (encoded user keys and the two system
    keys), the iterator bounds of a range, single and range lookups with their
    limits on count and size, the index keys, and the stream of [PUT] commands
    that a table snapshot is.  Reads go through a [Reader] of [Pebble]. *)

From S2P Require Import Prelude Key Wire Proto Codec Pebble.

(** ** Stored keys ([fsm.go]) *)

(** [encodeUserKey]: the buffer with the encoded key appended. *)
Definition encodeUserKey (dst : bytes) (keyBytes : bytes) : res bytes :=
  let '(dst, _, r) := Encode (mkKey UnknownVersion TypeUser keyBytes) dst in
  _ ← r; Ok dst.

(** [mustEncodeKey]. *)
Definition mustEncodeKey (k : Key) : res bytes :=
  let '(buff, _, r) := Encode k [] in
  match r with
  | Ok n => Ok (take (Z.to_nat n) buff)
  | Err _ | Panic => Panic
  end.

(** The package variables; [mustEncodeKey] does not panic on them. *)
Definition wildcard : bytes := [Byte.x00].
Definition sysLocalIndex : bytes :=
  res_get [] (mustEncodeKey (mkKey UnknownVersion TypeSystem (str "index"))).
Definition sysLeaderIndex : bytes :=
  res_get [] (mustEncodeKey (mkKey UnknownVersion TypeSystem (str "leader_index"))).
Definition maxUserKey : bytes :=
  res_get [] (mustEncodeKey (mkKey UnknownVersion TypeUser LatestMaxKey)).

(** [prependByte]. *)
Definition prependByte (x : bytes) (y : byte) : bytes := y :: x.

(** [incrementRightmostByte]: the loop runs from the last byte to the first,
    so over the reversed input; the result is reversed as well.  [in[i] + 1]
    wraps around at 256. *)
Fixpoint increment_go (r : bytes) : bytes :=
  match r with
  | [] => []
  | b :: r' =>
      let b := Z_byte (byte_Z b + 1) in
      if decide (b <> Byte.x00) then b :: r' else
      match r' with
      | [] => reverse (prependByte (reverse [b]) Byte.x01)
      | _ => b :: increment_go r'
      end
  end.
Definition incrementRightmostByte (input : bytes) : bytes := reverse (increment_go (reverse input)).

(** ** Iterator bounds ([iter.go]) *)

Definition iterOptionsForBounds (low high : bytes) : res (bytes * bytes) :=
  LowerBound ← encodeUserKey [] low;
  UpperBound ← (if decide (high = wildcard) then Ok (incrementRightmostByte maxUserKey)
                else encodeUserKey [] high);
  Ok (LowerBound, UpperBound).

(** ** Responses ([query.go]) *)

Definition maxRangeSize : Z := 4 * 1024 * 1024 - 1024.

Definition fillEntriesFunc : Type := bytes -> bytes -> ResponseOp.Range -> ResponseOp.Range.
Definition sizeEntriesFunc : Type := bytes -> bytes -> Z.

Definition addKVPair : fillEntriesFunc := fun key value response =>
  ResponseOp.mkRange (ResponseOp.sr_Kvs response ++ [mkKeyValue key 0 0 value []])
    (ResponseOp.sr_More response) (int64 (ResponseOp.sr_Count response + 1))
    (ResponseOp.sr_unknownFields response).
Definition sizeKVPair : sizeEntriesFunc := fun key value => uint64 (len key + len value).

Definition addKeyOnly : fillEntriesFunc := fun key _ response =>
  ResponseOp.mkRange (ResponseOp.sr_Kvs response ++ [mkKeyValue key 0 0 [] []])
    (ResponseOp.sr_More response) (int64 (ResponseOp.sr_Count response + 1))
    (ResponseOp.sr_unknownFields response).
Definition sizeKeyOnly : sizeEntriesFunc := fun key _ => uint64 (len key).

Definition addCountOnly : fillEntriesFunc := fun _ _ response =>
  ResponseOp.mkRange (ResponseOp.sr_Kvs response)
    (ResponseOp.sr_More response) (int64 (ResponseOp.sr_Count response + 1))
    (ResponseOp.sr_unknownFields response).
Definition sizeCountOnly : sizeEntriesFunc := fun _ _ => 0.

Definition iterFuncsFromReq (req : RequestOp.Range) : fillEntriesFunc * sizeEntriesFunc :=
  if RequestOp.rr_KeysOnly req then (addKeyOnly, sizeKeyOnly)
  else if RequestOp.rr_CountOnly req then (addCountOnly, sizeCountOnly)
  else (addKVPair, sizeKVPair).

(** The stop condition of the loop of [iterate], with [i] entries added. *)
Definition iterate_stop (limit : Z) (s : sizeEntriesFunc) (i : Z) (key value : bytes)
    (response : ResponseOp.Range) : bool :=
  (i =? limit) && negb (limit =? 0)
  || (maxRangeSize <=? uint64 (uint64 (RangeResp_SizeVT response) + s key value)).

Definition set_More (response : ResponseOp.Range) (more : bool) : ResponseOp.Range :=
  ResponseOp.mkRange (ResponseOp.sr_Kvs response) more (ResponseOp.sr_Count response)
    (ResponseOp.sr_unknownFields response).

(** The loop of [iterate] over the entries that the iterator has left.  The
    loop counter counts entries of the store, so it does not wrap. *)
Fixpoint iterate_go (limit : Z) (f : fillEntriesFunc) (s : sizeEntriesFunc)
    (entries : list (bytes * bytes)) (i : Z) (response : ResponseOp.Range) : res ResponseOp.Range :=
  match entries with
  | [] => Ok response
  | (k, v) :: entries' =>
      k ← DecodeBytes k;
      if iterate_stop limit s i (Key_ k) v response
      then Ok (set_More response (match entries' with [] => false | _ => true end))
      else iterate_go limit f s entries' (i + 1) (f (Key_ k) v response)
  end.

Definition iterate (entries : list (bytes * bytes)) (limit : Z) (f : fillEntriesFunc)
    (s : sizeEntriesFunc) : res ResponseOp.Range :=
  iterate_go limit f s entries 0 RangeResp_zero.

(** ** Lookups *)

Section Lookups.
Context {P : PebbleOps}.

Definition rangeLookup (reader : Reader) (req : RequestOp.Range) : res ResponseOp.Range :=
  opts ← iterOptionsForBounds (RequestOp.rr_Key req) (default [] (RequestOp.rr_RangeEnd req));
  let iter := NewIter reader (Some opts) in
  let '(fill, sf) := iterFuncsFromReq req in
  iterate iter (RequestOp.rr_Limit req) fill sf.

Definition singleLookup (reader : Reader) (req : RequestOp.Range) : res ResponseOp.Range :=
  keyBuf ← encodeUserKey [] (RequestOp.rr_Key req);
  match SeekPrefixGE split reader keyBuf with
  | None => Ok RangeResp_zero
  | Some (_, value) =>
      let kv := mkKeyValue (RequestOp.rr_Key req) 0 0
        (if negb (RequestOp.rr_KeysOnly req || RequestOp.rr_CountOnly req) && (0 <? len value)
         then value else []) [] in
      let kvs := if RequestOp.rr_CountOnly req then [] else [kv] in
      Ok (ResponseOp.mkRange kvs false 1 [])
  end.

Definition fsm_lookup (reader : Reader) (req : RequestOp.Range) : res ResponseOp.Range :=
  match RequestOp.rr_RangeEnd req with
  | Some _ => rangeLookup reader req
  | None => singleLookup reader req
  end.

(** [readLocalIndex]: 0 for a store that has no index yet. *)
Definition readLocalIndex (db : Reader) (indexKey : bytes) : res Z :=
  match Get db indexKey with
  | Ok indexVal => Uint64 indexVal
  | Err e => if decide (e = ErrNotFound) then Ok 0 else Err e
  | Panic => Panic
  end.

(** ** Command snapshot

    The writer is the caller's: [Write] appends to it or fails. *)

Definition writeCommand (tableName key val : bytes) : res bytes :=
  Command_MarshalVT (mkCommand tableName Command_PUT (Some (mkKeyValue key 0 0 val [])) None [] None
    None false [] false []).

Section Snapshot.
Context {W : Type} (Write : W -> bytes -> res W).

(** The loop over the iterator; [stopc n] tells whether the stop channel is
    readable in the [n]-th round. *)
Fixpoint commandSnapshot_go (tableName : bytes) (stopc : nat -> bool) (n : nat)
    (entries : list (bytes * bytes)) (w : W) : res W :=
  match entries with
  | [] => Ok w
  | (k, v) :: entries' =>
      if stopc n then Err ErrSnapshotStopped else
      k ← DecodeBytes k;
      w ← (if decide (KeyType k = TypeUser)
           then buffer ← writeCommand tableName (Key_ k) v; Write w buffer
           else Ok w);
      commandSnapshot_go tableName stopc (S n) entries' w
  end.

Definition commandSnapshot (reader : Reader) (tableName : bytes) (w : W) (stopc : nat -> bool)
    : res (Z * W) :=
  idx ← readLocalIndex reader sysLocalIndex;
  w ← commandSnapshot_go tableName stopc 0 (NewIter reader None) w;
  Ok (idx, w).
End Snapshot.
End Lookups.
