(* ===== verification/TableSpec.v ===== *)
(** * What a table promises

    The abstract state of a table is a map from user keys to values and two
    numbers, the local and the leader index.  This file says how a store
    represents it ([user_view], [local_index], [leader_index], [table_wf])
    and gives the meaning of every command and query directly on the map,
    without key encoding, write batches, iterators or indexes.  [Query],
    [Command] and [Fsm] prove that the code implements it. *)

From S2P Require Import Prelude Key Wire Proto Codec Pebble Query.

Abbreviation kvmap := (gmap bytes bytes).

(** ** Representation *)

(** The user key of a stored key. *)
Definition user_key (k : bytes) : option bytes :=
  match k with
  | b0 :: b1 :: b2 :: b3 :: b4 :: d =>
      if decide (k = enc TypeUser d) then Some d else None
  | _ => None
  end.

#[global] Arguments user_key : simpl never.
#[global] Arguments enc : simpl never.
#[global] Arguments encodeUserKey : simpl never.
#[global] Arguments iterOptionsForBounds : simpl never.
#[global] Arguments in_bounds : simpl never.
#[global] Arguments DecodeBytes : simpl never.

Definition user_view (m : kvmap) : kvmap :=
  list_to_map (omap (fun kv => (fun d => (d, kv.2)) <$> user_key kv.1) (map_to_list m)).

(** Every stored key is an encoded user key or one of the two index keys. *)
Definition table_wf (m : kvmap) : Prop :=
  forall k v, m !! k = Some v ->
    (exists d, k = enc TypeUser d) \/ k = sysLocalIndex \/ k = sysLeaderIndex.

(** The index stored under a system key: 0 when there is none, and no value
    when the bytes are too short to hold one. *)
Definition index_at (m : kvmap) (sys : bytes) : res Z :=
  match m !! sys with Some v => Uint64 v | None => Ok 0 end.

(** ** Queries *)

(** [lo <= d < hi], or [lo <= d] when [hi] is the wildcard. *)
Definition in_range (lo hi d : bytes) : bool :=
  bool_decide (bytes_le lo d) && (bool_decide (hi = wildcard) || bool_decide (bytes_lt d hi)).

Definition range_entries (kv : kvmap) (lo hi : bytes) : list (bytes * bytes) :=
  filter (fun e => in_range lo hi e.1 = true) (sorted_entries kv).

(** The response after adding entries, from the first, until one of them does
    not fit the limits any more. *)
Fixpoint range_loop (limit : Z) (f : fillEntriesFunc) (s : sizeEntriesFunc)
    (entries : list (bytes * bytes)) (i : Z) (r : ResponseOp.Range) : ResponseOp.Range :=
  match entries with
  | [] => r
  | (k, v) :: rest =>
      if iterate_stop limit s i k v r then set_More r (match rest with [] => false | _ => true end)
      else range_loop limit f s rest (i + 1) (f k v r)
  end.

Definition spec_range (kv : kvmap) (req : RequestOp.Range) (hi : bytes) : ResponseOp.Range :=
  let '(f, s) := iterFuncsFromReq req in
  range_loop (RequestOp.rr_Limit req) f s (range_entries kv (RequestOp.rr_Key req) hi) 0 RangeResp_zero.

Definition spec_single (kv : kvmap) (req : RequestOp.Range) : ResponseOp.Range :=
  match kv !! RequestOp.rr_Key req with
  | None => RangeResp_zero
  | Some v =>
      ResponseOp.mkRange
        (if RequestOp.rr_CountOnly req then []
         else [mkKeyValue (RequestOp.rr_Key req) 0 0 (if RequestOp.rr_KeysOnly req then [] else v) []])
        false 1 []
  end.

Definition spec_lookup (kv : kvmap) (req : RequestOp.Range) : ResponseOp.Range :=
  match RequestOp.rr_RangeEnd req with
  | Some hi => spec_range kv req hi
  | None => spec_single kv req
  end.

(** ** Commands *)

Definition del_range (lo hi : bytes) (kv : kvmap) : kvmap :=
  filter (fun e => in_range lo hi e.1 = false) kv.

(** [PUT]; asking for the previous value of a missing key panics. *)
Definition spec_put (kv : kvmap) (p : RequestOp.Put) : res (kvmap * ResponseOp.Put) :=
  let k := RequestOp.rp_Key p in
  prev ← (if RequestOp.rp_PrevKv p then
            match kv !! k with Some v => Ok (Some (mkKeyValue k 0 0 v [])) | None => Panic end
          else Ok None);
  Ok (<[k := RequestOp.rp_Value p]> kv, ResponseOp.mkPut prev []).

(** [DELETE]: the count and the previous values are only found when asked
    for, and a single key counts as deleted whether or not it was there. *)
Definition spec_delete (kv : kvmap) (d : RequestOp.DeleteRange) : kvmap * ResponseOp.DeleteRange :=
  let k := RequestOp.rd_Key d in
  let ask := RequestOp.rd_PrevKv d || RequestOp.rd_Count d in
  let count_only := RequestOp.rd_Count d && negb (RequestOp.rd_PrevKv d) in
  match RequestOp.rd_RangeEnd d with
  | Some hi =>
      let rng := spec_range kv (RequestOp.mkRange k (Some hi) 0 false count_only []) hi in
      (del_range k hi kv,
       if ask then ResponseOp.mkDeleteRange (ResponseOp.sr_Count rng) (ResponseOp.sr_Kvs rng) []
       else DeleteRangeResp_zero)
  | None =>
      let rng := spec_single kv (RequestOp.mkRange k None 0 false count_only []) in
      (delete k kv,
       if ask then ResponseOp.mkDeleteRange 1 (ResponseOp.sr_Kvs rng) [] else DeleteRangeResp_zero)
  end.

(** A comparison holds of a range when it is not empty and holds of every
    value in it, and of a key when it is there with such a value. *)
Definition spec_compare_value (c : Compare) (v : bytes) : bool :=
  if (cmp_Target c =? Compare_VALUE) && bool_decide (is_Some (cmp_TargetUnion c)) then
    let w := Compare_GetValue c in
    if cmp_Result c =? Compare_EQUAL then bool_decide (v = w)
    else if cmp_Result c =? Compare_NOT_EQUAL then bool_decide (v <> w)
    else if cmp_Result c =? Compare_GREATER then bool_decide (bytes_lt w v)
    else if cmp_Result c =? Compare_LESS then bool_decide (bytes_lt v w)
    else true
  else true.

Definition spec_compare (kv : kvmap) (c : Compare) : bool :=
  match cmp_RangeEnd c with
  | Some hi =>
      let vs := (range_entries kv (cmp_Key c) hi).*2 in
      bool_decide (vs <> []) && forallb (spec_compare_value c) vs
  | None => match kv !! cmp_Key c with Some v => spec_compare_value c v | None => false end
  end.

Definition spec_op (kv : kvmap) (op : RequestOp.t) : res (kvmap * list ResponseOp.t) :=
  match RequestOp.ro_Request op with
  | Some (RequestOp.RequestRange r) =>
      Ok (kv, [ResponseOp.mk (Some (ResponseOp.ResponseRange (spec_lookup kv r))) []])
  | Some (RequestOp.RequestPut p) =>
      '(kv, r) ← spec_put kv p; Ok (kv, [ResponseOp.mk (Some (ResponseOp.ResponsePut r)) []])
  | Some (RequestOp.RequestDeleteRange d) =>
      let '(kv, r) := spec_delete kv d in
      Ok (kv, [ResponseOp.mk (Some (ResponseOp.ResponseDeleteRange r)) []])
  | None => Ok (kv, [])
  end.

(** Steps one after the other, their responses concatenated. *)
Fixpoint spec_steps {A S R} (step : S -> A -> res (S * list R)) (l : list A) (s : S)
    : res (S * list R) :=
  match l with
  | [] => Ok (s, [])
  | a :: l' => '(s, r) ← step s a; '(s, rs) ← spec_steps step l' s; Ok (s, r ++ rs)
  end.

Definition spec_txn (kv : kvmap) (t : Txn) : res (kvmap * (bool * list ResponseOp.t)) :=
  let ok := forallb (spec_compare kv) (txn_Compare t) in
  '(kv, rs) ← spec_steps spec_op (if ok then txn_Success t else txn_Failure t) kv;
  Ok (kv, (ok, rs)).

Definition put_response (r : ResponseOp.Put) : ResponseOp.t :=
  ResponseOp.mk (Some (ResponseOp.ResponsePut r)) [].
Definition delete_response (r : ResponseOp.DeleteRange) : ResponseOp.t :=
  ResponseOp.mk (Some (ResponseOp.ResponseDeleteRange r)) [].

(** The map after a command, whether it counts as a success, and its
    responses.  A command without the part its type needs panics, as does
    one of an unknown type. *)
Fixpoint spec_command (kv : kvmap) (c : Command) : res (kvmap * (bool * list ResponseOp.t)) :=
  let '(mkCommand _ ty ckv _ batch txn re pk seq count _) := c in
  if ty =? Command_PUT then
    match ckv with
    | Some x => '(kv, r) ← spec_put kv (RequestOp.mkPut (kv_Key x) (kv_Value x) pk []);
                Ok (kv, (true, [put_response r]))
    | None => Panic
    end
  else if ty =? Command_DELETE then
    match ckv with
    | Some x => let '(kv, r) := spec_delete kv (RequestOp.mkDeleteRange (kv_Key x) re pk count []) in
                Ok (kv, (true, [delete_response r]))
    | None => Panic
    end
  else if ty =? Command_PUT_BATCH then
    match mapM (M := option) id batch with
    | Some xs => Ok (foldl (fun kv x => <[kv_Key x := kv_Value x]> kv) kv xs,
                     (true, map (fun _ => put_response PutResp_zero) xs))
    | None => Panic
    end
  else if ty =? Command_DELETE_BATCH then
    match mapM (M := option) id batch with
    | Some xs => Ok (foldl (fun kv x => delete (kv_Key x) kv) kv xs,
                     (true, map (fun _ => delete_response DeleteRangeResp_zero) xs))
    | None => Panic
    end
  else if ty =? Command_TXN then
    match txn with Some t => spec_txn kv t | None => Panic end
  else if ty =? Command_SEQUENCE then
    '(kv, rs) ← spec_steps (fun kv c => '(kv, (_, rs)) ← spec_command kv c; Ok (kv, rs)) seq kv;
    Ok (kv, (true, rs))
  else if ty =? Command_DUMMY then Ok (kv, (true, []))
  else Panic.

(** ** The view of a store *)

Lemma user_key_spec k d : user_key k = Some d <-> k = enc TypeUser d.
Proof.
  unfold user_key. split.
  - destruct k as [|b0 [|b1 [|b2 [|b3 [|b4 k]]]]]; try done.
    case_decide; [|done]. by intros [= <-].
  - intros ->. rewrite enc_cons. by rewrite decide_True.
Qed.

Lemma lookup_user_view m d : user_view m !! d = m !! enc TypeUser d.
Proof.
  unfold user_view. set (l := omap _ _).
  assert (forall v, (d, v) ∈ l <-> m !! enc TypeUser d = Some v) as Hl.
  { intros v. unfold l. rewrite list_elem_of_omap. split.
    - intros ([k w] & Hk & E). apply elem_of_map_to_list in Hk. simpl in E.
      destruct (user_key k) as [d'|] eqn:Ek; simpl in E; [|done]. simplify_eq.
      by apply user_key_spec in Ek as ->.
    - intros H. exists (enc TypeUser d, v). rewrite elem_of_map_to_list. split; [done|].
      simpl. by rewrite (proj2 (user_key_spec _ d)). }
  assert (NoDup l.*1) as Hnd.
  { unfold l. clear. pose proof (NoDup_fst_map_to_list m) as Hn.
    induction (map_to_list m) as [|[k v] ms IH]; simpl in *; [constructor|].
    inversion Hn as [|?? Hk Hms]; subst. destruct (user_key k) as [d|] eqn:Ek; simpl; [|by apply IH].
    constructor; [|by apply IH]. rewrite list_elem_of_fmap. intros ([d' w] & -> & Hw).
    apply list_elem_of_omap in Hw as ([k' w'] & Hk' & E). simpl in E.
    destruct (user_key k') as [d''|] eqn:Ek'; simpl in E; [|done]. simplify_eq.
    apply user_key_spec in Ek, Ek'. subst. apply Hk, list_elem_of_fmap. by exists (enc TypeUser d', w). }
  destruct (m !! enc TypeUser d) as [v|] eqn:E.
  - apply elem_of_list_to_map; [done|]. by apply Hl.
  - apply not_elem_of_list_to_map. intros ([d' v] & -> & Hin)%list_elem_of_fmap.
    apply Hl in Hin. simpl in *. congruence.
Qed.

(** The keys of the package, computed. *)
Lemma sysLocalIndex_enc : sysLocalIndex = enc TypeSystem (str "index").
Proof. reflexivity. Qed.
Lemma sysLeaderIndex_enc : sysLeaderIndex = enc TypeSystem (str "leader_index").
Proof. reflexivity. Qed.

Lemma encodeUserKey_enc dst k : encodeUserKey dst k = Ok (dst ++ enc TypeUser k).
Proof. unfold encodeUserKey. by rewrite Encode_V1 by (by left). Qed.

(** The upper bound of the wildcard: the first stored key of the next type,
    followed by zeros. *)
Definition wildcard_upper : bytes := enc TypeSystem (replicate 1019 Byte.x00).
#[global] Arguments wildcard_upper : simpl never.

Lemma wildcard_bound : incrementRightmostByte maxUserKey = wildcard_upper.
Proof. vm_compute. reflexivity. Qed.

Definition upper (hi : bytes) : bytes :=
  if decide (hi = wildcard) then wildcard_upper else enc TypeUser hi.
#[global] Arguments upper : simpl never.

Lemma iterOptionsForBounds_eq lo hi : iterOptionsForBounds lo hi = Ok (enc TypeUser lo, upper hi).
Proof.
  unfold iterOptionsForBounds, upper. rewrite wildcard_bound, !encodeUserKey_enc.
  by destruct (decide (hi = wildcard)).
Qed.

Lemma in_bounds_user lo hi d :
  in_bounds (enc TypeUser lo) (upper hi) (enc TypeUser d) = in_range lo hi d.
Proof.
  apply eq_true_iff_eq. rewrite in_bounds_spec. unfold in_range, upper.
  rewrite andb_true_iff, orb_true_iff, !bool_decide_eq_true, enc_le. case_decide as E.
  - split; [tauto|]. intros [? _]. split; [done|]. by apply enc_lt_type.
  - rewrite enc_lt. tauto.
Qed.

Lemma in_bounds_sys lo hi sys :
  sys = sysLocalIndex \/ sys = sysLeaderIndex -> in_bounds (enc TypeUser lo) (upper hi) sys = false.
Proof.
  intros Hs. apply not_true_iff_false. rewrite in_bounds_spec. intros [_ H]. unfold upper in H.
  case_decide.
  - destruct Hs as [-> | ->]; by vm_compute in H.
  - assert (bytes_lt (enc TypeUser hi) sys) as H'.
    { destruct Hs as [-> | ->]; rewrite ?sysLocalIndex_enc, ?sysLeaderIndex_enc; by apply enc_lt_type. }
    apply (irreflexivity bytes_lt sys). by transitivity (enc TypeUser hi).
Qed.

Lemma sys_not_user sys d : sys = sysLocalIndex \/ sys = sysLeaderIndex -> sys <> enc TypeUser d.
Proof. intros [-> | ->]; rewrite ?sysLocalIndex_enc, ?sysLeaderIndex_enc; by intros [? ?]%enc_inj. Qed.

Lemma sys_distinct : sysLocalIndex <> sysLeaderIndex.
Proof. by vm_compute. Qed.

(** ** Effects of the writes the commands make *)

Inductive user_op : batch_op -> Prop :=
  | user_op_set k v : user_op (BSet (enc TypeUser k) v)
  | user_op_delete k : user_op (BDelete (enc TypeUser k))
  | user_op_delete_range lo hi : user_op (BDeleteRange (enc TypeUser lo) (upper hi)).
#[export] Hint Constructors user_op : core.

Lemma user_view_set m k v :
  user_view (apply_op m (BSet (enc TypeUser k) v)) = <[k := v]> (user_view m).
Proof.
  apply map_eq. intros d. rewrite lookup_user_view. simpl.
  destruct (decide (k = d)) as [->|Hne]; [by rewrite !lookup_insert_eq|].
  rewrite !lookup_insert_ne, lookup_user_view; [done|done|]. by intros ?%(inj _).
Qed.

Lemma user_view_delete m k :
  user_view (apply_op m (BDelete (enc TypeUser k))) = delete k (user_view m).
Proof.
  apply map_eq. intros d. rewrite lookup_user_view. simpl.
  destruct (decide (k = d)) as [->|Hne]; [by rewrite !lookup_delete_eq|].
  rewrite !lookup_delete_ne, lookup_user_view; [done|done|]. by intros ?%(inj _).
Qed.

Lemma lookup_del_range lo hi kv d :
  del_range lo hi kv !! d = if in_range lo hi d then None else kv !! d.
Proof.
  unfold del_range. destruct (in_range lo hi d) eqn:E.
  - apply map_lookup_filter_None. right. intros v _. simpl. by rewrite E.
  - destruct (kv !! d) as [v|] eqn:Ek.
    + by apply map_lookup_filter_Some.
    + apply map_lookup_filter_None. by left.
Qed.

Lemma user_view_delete_range m lo hi :
  user_view (apply_op m (BDeleteRange (enc TypeUser lo) (upper hi))) = del_range lo hi (user_view m).
Proof.
  apply map_eq. intros d.
  by rewrite lookup_user_view, lookup_delete_range, in_bounds_user, lookup_del_range, lookup_user_view.
Qed.

Lemma user_op_sys m o sys :
  user_op o -> sys = sysLocalIndex \/ sys = sysLeaderIndex -> apply_op m o !! sys = m !! sys.
Proof.
  intros Ho Hs. destruct Ho.
  - simpl. rewrite lookup_insert_ne; [done|]. symmetry. by apply sys_not_user.
  - simpl. rewrite lookup_delete_ne; [done|]. symmetry. by apply sys_not_user.
  - rewrite lookup_delete_range. by rewrite in_bounds_sys.
Qed.

Lemma user_op_wf m o : user_op o -> table_wf m -> table_wf (apply_op m o).
Proof.
  intros Ho Hwf k v. destruct Ho.
  - simpl. rewrite lookup_insert_Some. intros [[<- _]|[_ ?]]; eauto.
  - simpl. rewrite lookup_delete_Some. intros [_ ?]; eauto.
  - rewrite lookup_delete_range. case_match; [done|]. eauto.
Qed.

(** Writing an index leaves the user keys alone. *)
Lemma user_view_sys m sys v :
  sys = sysLocalIndex \/ sys = sysLeaderIndex -> user_view (apply_op m (BSet sys v)) = user_view m.
Proof.
  intros Hs. apply map_eq. intros d. rewrite !lookup_user_view. simpl.
  rewrite lookup_insert_ne; [done|]. by apply sys_not_user.
Qed.

Lemma sys_set_wf m sys v :
  sys = sysLocalIndex \/ sys = sysLeaderIndex -> table_wf m -> table_wf (apply_op m (BSet sys v)).
Proof.
  intros Hs Hwf k w. simpl. rewrite lookup_insert_Some. intros [[<- _]|[_ ?]]; [tauto|eauto].
Qed.

(** ** Reading a range of a store *)

Definition enc_entry (e : bytes * bytes) : bytes * bytes := (enc TypeUser e.1, e.2).

Lemma range_entries_sorted kv lo hi : StronglySorted entry_lt (range_entries kv lo hi).
Proof. apply StronglySorted_filter, sorted_entries_sorted. Qed.

Lemma elem_of_range_entries kv lo hi d v :
  (d, v) ∈ range_entries kv lo hi <-> kv !! d = Some v /\ in_range lo hi d = true.
Proof.
  unfold range_entries. rewrite list_elem_of_filter, elem_of_sorted_entries. simpl. tauto.
Qed.

Lemma StronglySorted_enc l : StronglySorted entry_lt l -> StronglySorted entry_lt (map enc_entry l).
Proof.
  induction 1 as [|x l Hl IH HF]; simpl; constructor; [done|].
  rewrite Forall_forall in *. intros y (z & -> & Hz)%list_elem_of_fmap.
  apply enc_lt. by apply HF.
Qed.

Section Reading.
Context {P : PebbleOps} {L : PebbleLaws P}.

Lemma NewIter_range r m lo hi :
  view r = Some m -> table_wf m ->
  NewIter r (Some (enc TypeUser lo, upper hi)) = map enc_entry (range_entries (user_view m) lo hi).
Proof.
  intros Hv Hwf. apply (NewIter_unique r m); [done|apply StronglySorted_enc, range_entries_sorted|].
  intros k v. simpl. rewrite list_elem_of_fmap. split.
  - intros ([d w] & E & Hin). injection E as -> ->. apply elem_of_range_entries in Hin as [Hd Hr].
    rewrite lookup_user_view in Hd. split; [done|]. by rewrite in_bounds_user.
  - intros [Hk Hb]. destruct (Hwf k v Hk) as [[d ->]|Hs].
    + exists (d, v). split; [done|]. rewrite elem_of_range_entries, lookup_user_view.
      by rewrite in_bounds_user in Hb.
    + by rewrite in_bounds_sys in Hb.
Qed.

End Reading.
