(* ===== verification/QueryCorrect.v ===== *)
(** * Queries implement their specification

    Lookups return what [TableSpec] says of the user map; a range response is
    a prefix of the range, within the limit and the message size, with the
    count and the [More] flag characterised; the snapshot stream lists the
    user entries as [PUT] commands. *)

From S2P Require Import Prelude Key Wire Proto Codec Pebble Query TableSpec.

Lemma DecodeBytes_key t d : exists k, DecodeBytes (enc t d) = Ok k /\ Key_ k = d.
Proof.
  destruct d as [|b d].
  - rewrite DecodeBytes_enc_nil. eauto.
  - rewrite DecodeBytes_enc by done. eauto.
Qed.

Lemma iterate_go_loop limit f s l i r :
  iterate_go limit f s (map enc_entry l) i r = Ok (range_loop limit f s l i r).
Proof.
  revert i r. induction l as [|[d v] l IH]; intros i r; [done|].
  cbn [map iterate_go range_loop enc_entry fst snd].
  destruct (DecodeBytes_key TypeUser d) as (k & -> & Hk). cbn [mbind res_bind]. rewrite Hk.
  case_match; [|apply IH]. by destruct l.
Qed.

Section Lookups.
Context {P : PebbleOps} {L : PebbleLaws P}.
Context (r : Reader) (m : kvmap) (Hview : view r = Some m) (Hwf : table_wf m).

Lemma singleLookup_spec req :
  singleLookup r req = Ok (spec_single (user_view m) req).
Proof using L Hview.
  unfold singleLookup, spec_single. rewrite encodeUserKey_enc, app_nil_l. cbn [mbind res_bind].
  rewrite (SeekPrefixGE_split r m) by done. rewrite lookup_user_view.
  destruct (m !! _) as [v|]; [|done]. simpl.
  destruct (RequestOp.rr_KeysOnly req), (RequestOp.rr_CountOnly req); try done. by destruct v.
Qed.

Lemma rangeLookup_spec req :
  rangeLookup r req = Ok (spec_range (user_view m) req (default [] (RequestOp.rr_RangeEnd req))).
Proof using L Hview Hwf.
  unfold rangeLookup, spec_range, iterate. rewrite iterOptionsForBounds_eq. cbn [mbind res_bind].
  rewrite (NewIter_range r m) by done. destruct (iterFuncsFromReq req) as [f s]. apply iterate_go_loop.
Qed.

Lemma fsm_lookup_spec req : fsm_lookup r req = Ok (spec_lookup (user_view m) req).
Proof using L Hview Hwf.
  unfold fsm_lookup, spec_lookup. destruct (RequestOp.rr_RangeEnd req) as [hi|] eqn:E.
  - by rewrite rangeLookup_spec, E.
  - apply singleLookup_spec.
Qed.

Lemma readLocalIndex_spec sys : readLocalIndex r sys = index_at m sys.
Proof using L Hview.
  unfold readLocalIndex, index_at. rewrite (Get_spec r m) by done. by destruct (m !! sys).
Qed.
End Lookups.

(** ** Range responses *)

(** The pairs that a request asks for. *)
Definition shape (req : RequestOp.Range) (e : bytes * bytes) : KeyValue :=
  mkKeyValue e.1 0 0 (if RequestOp.rr_KeysOnly req then [] else e.2) [].
Definition shapes (req : RequestOp.Range) (l : list (bytes * bytes)) : list KeyValue :=
  if negb (RequestOp.rr_KeysOnly req) && RequestOp.rr_CountOnly req then [] else map (shape req) l.
Definition response_of (req : RequestOp.Range) (l : list (bytes * bytes)) (more : bool) : ResponseOp.Range :=
  ResponseOp.mkRange (shapes req l) more (int64 (len l)) [].

(** Whether the entry after the ones of [l] is refused. *)
Definition refused (req : RequestOp.Range) (l : list (bytes * bytes)) (e : bytes * bytes) : bool :=
  iterate_stop (RequestOp.rr_Limit req) (iterFuncsFromReq req).2 (len l) e.1 e.2 (response_of req l false).

Lemma fill_response req l e :
  (iterFuncsFromReq req).1 e.1 e.2 (response_of req l false) = response_of req (l ++ [e]) false.
Proof.
  unfold iterFuncsFromReq, response_of, shapes, shape.
  rewrite len_app, map_app, <- int64_add_l.
  by destruct (RequestOp.rr_KeysOnly req), (RequestOp.rr_CountOnly req).
Qed.

(** The loop adds the longest prefix of which no entry is refused. *)
Lemma range_loop_prefix req pre rest :
  exists n, (n <= length rest)%nat
  /\ range_loop (RequestOp.rr_Limit req) (iterFuncsFromReq req).1 (iterFuncsFromReq req).2
       rest (len pre) (response_of req pre false)
     = response_of req (pre ++ take n rest) (S n <? length rest)%nat
  /\ (forall i e, (i < n)%nat -> rest !! i = Some e -> refused req (pre ++ take i rest) e = false)
  /\ (forall e, rest !! n = Some e -> refused req (pre ++ take n rest) e = true).
Proof.
  revert pre. induction rest as [|[k v] rest IH]; intros pre.
  { exists 0%nat. simpl. rewrite app_nil_r. split; [lia|]. split; [done|]. split; [intros; lia|done]. }
  simpl. change (iterate_stop _ _ _ k v _) with (refused req pre (k, v)). destruct (refused req pre (k, v)) eqn:E.
  - exists 0%nat. simpl. rewrite app_nil_r. split; [lia|]. split; [|split; [intros; lia|by intros e [= <-]]].
    unfold response_of, set_More. simpl. by destruct rest.
  - destruct (IH (pre ++ [(k, v)])) as (n & Hn & Heq & Hacc & Href).
    rewrite <- fill_response, len_app in Heq.
    change (len [(k, v)]) with 1 in Heq. simpl in Heq. exists (S n).
    assert (forall i, (pre ++ [(k, v)]) ++ take i rest = pre ++ take (S i) ((k, v) :: rest)) as Hpre.
    { intros. by rewrite <- app_assoc. }
    split; [lia|]. split; [by rewrite Heq, Hpre|]. split.
    + intros [|i] e Hi; simpl; [rewrite app_nil_r; by intros [= <-]|].
      intros He. rewrite <- (Hacc i e) by (done || lia). by rewrite Hpre.
    + intros e He. rewrite <- (Href e) by done. by rewrite Hpre.
Qed.

Lemma spec_range_prefix kv req hi :
  let es := range_entries kv (RequestOp.rr_Key req) hi in
  exists n, (n <= length es)%nat
  /\ spec_range kv req hi = response_of req (take n es) (S n <? length es)%nat
  /\ (forall i e, (i < n)%nat -> es !! i = Some e -> refused req (take i es) e = false)
  /\ (forall e, es !! n = Some e -> refused req (take n es) e = true).
Proof.
  intros es. destruct (range_loop_prefix req [] es) as (n & ? & Heq & ? & ?). exists n.
  split; [done|]. split; [|done]. rewrite app_nil_l in Heq. rewrite <- Heq.
  unfold spec_range. fold es. rewrite (surjective_pairing (iterFuncsFromReq req)).
  f_equal. unfold response_of, shapes. by destruct (_ && _).
Qed.

(** ** Size of a response *)

Lemma nonempty_size_le x : len x < 2 ^ 63 -> nonempty_size x <= len x + 11.
Proof.
  intros Hx. destruct x as [|b x]; simpl; [done|]. unfold delimited_size.
  pose proof (len_nonneg (b :: x)). pose proof (sov_le (len (b :: x)) 10). lia.
Qed.

Lemma scalar_size_le v : scalar_size v <= 11.
Proof.
  unfold scalar_size. case_match; [lia|].
  pose proof (uint64_range v) as Hr. unfold is_uint64 in Hr.
  pose proof (sov_le (uint64 v) 10). lia.
Qed.

Lemma KeyValue_SizeVT_le k v : len k + len v < 2 ^ 62 ->
  0 <= KeyValue_SizeVT (mkKeyValue k 0 0 v []) <= len k + len v + 22.
Proof.
  intros H. pose proof (len_nonneg k). pose proof (len_nonneg v).
  pose proof (proj1 (KeyValue_sized (mkKeyValue k 0 0 v []))).
  unfold KeyValue_SizeVT in *. cbn [kv_Key kv_Value kv_CreateRevision kv_ModRevision kv_unknownFields] in *.
  change (scalar_size 0) with 0 in *. change (len (@nil byte)) with 0 in *.
  pose proof (nonempty_size_le k). pose proof (nonempty_size_le v). lia.
Qed.

Lemma repeated_size_app {A} (size : A -> Z) xs ys :
  repeated_size size (xs ++ ys) = repeated_size size xs + repeated_size size ys.
Proof. induction xs as [|x xs IH]; simpl; [done|]. rewrite IH. lia. Qed.

(** Adding an entry adds its estimated size and at most 44 bytes of framing. *)
Lemma response_size_step req l e :
  len e.1 + len e.2 < 2 ^ 62 ->
  RangeResp_SizeVT (response_of req (l ++ [e]) false)
  <= RangeResp_SizeVT (response_of req l false) + (iterFuncsFromReq req).2 e.1 e.2 + 44.
Proof.
  intros He. pose proof (len_nonneg e.1) as H1. pose proof (len_nonneg e.2) as H2.
  pose proof (scalar_size_le (int64 (len (l ++ [e])))) as Hc.
  pose proof (scalar_size_nonneg (int64 (len l))) as Hc'.
  unfold RangeResp_SizeVT, response_of. cbn [ResponseOp.sr_Kvs ResponseOp.sr_More ResponseOp.sr_Count ResponseOp.sr_unknownFields].
  assert (repeated_size KeyValue_SizeVT (shapes req (l ++ [e]))
          <= repeated_size KeyValue_SizeVT (shapes req l) + (iterFuncsFromReq req).2 e.1 e.2 + 33) as Hs; [|lia].
  unfold shapes, iterFuncsFromReq, shape.
  assert (forall v, len v <= len e.2 -> delimited_size (KeyValue_SizeVT (mkKeyValue e.1 0 0 v [])) <= len e.1 + len v + 33) as Hkv.
  { intros v Hv. pose proof (KeyValue_SizeVT_le e.1 v ltac:(lia)) as [Ha Hb]. unfold delimited_size.
    pose proof (sov_le (KeyValue_SizeVT (mkKeyValue e.1 0 0 v [])) 10). lia. }
  assert (uint64 (len e.1) = len e.1) as E1 by (apply uint64_id; unfold is_uint64; lia).
  assert (uint64 (len e.1 + len e.2) = len e.1 + len e.2) as E2 by (apply uint64_id; unfold is_uint64; lia).
  destruct (RequestOp.rr_KeysOnly req), (RequestOp.rr_CountOnly req);
    cbn [negb andb fst snd]; unfold sizeKeyOnly, sizeKVPair, sizeCountOnly; rewrite ?E1, ?E2;
    rewrite ?map_app, ?repeated_size_app; cbn [map repeated_size foldr]; try lia.
  - pose proof (Hkv []) as Hn. change (len (@nil byte)) with 0 in Hn. lia.
  - pose proof (Hkv []) as Hn. change (len (@nil byte)) with 0 in Hn. lia.
  - pose proof (Hkv e.2). lia.
Qed.

Lemma entry_size_range req e :
  len e.1 + len e.2 < 2 ^ 62 -> 0 <= (iterFuncsFromReq req).2 e.1 e.2 < 2 ^ 62.
Proof.
  intros He. pose proof (len_nonneg e.1). pose proof (len_nonneg e.2). unfold iterFuncsFromReq.
  destruct (RequestOp.rr_KeysOnly req), (RequestOp.rr_CountOnly req); simpl;
    unfold sizeKeyOnly, sizeKVPair, sizeCountOnly; rewrite ?uint64_id; unfold is_uint64; lia.
Qed.

Lemma response_prefix_size req es n :
  Forall (fun e => len e.1 + len e.2 < 2 ^ 62) es ->
  (forall i e, (i < n)%nat -> es !! i = Some e -> refused req (take i es) e = false) ->
  (n <= length es)%nat ->
  0 <= RangeResp_SizeVT (response_of req (take n es) false) < maxRangeSize + 44.
Proof.
  intros Hes Hacc. induction n as [|n IH]; intros Hn.
  { unfold response_of, shapes. destruct (_ && _); vm_compute; split; congruence. }
  destruct (lookup_lt_is_Some_2 es n ltac:(lia)) as [e He].
  rewrite (take_S_r _ _ e) by done.
  rewrite Forall_lookup in Hes. pose proof (Hes n e He) as Hlen. simpl in Hlen.
  destruct IH as [H0 H1]; [intros; apply Hacc; (lia || done)|lia|].
  specialize (Hacc n e ltac:(lia) He). unfold refused, iterate_stop in Hacc.
  apply orb_false_iff in Hacc as [_ Hsz]. apply Z.leb_gt in Hsz.
  pose proof (entry_size_range req e Hlen) as Hs. pose proof (response_size_step req (take n es) e Hlen).
  unfold maxRangeSize in *.
  rewrite (uint64_id (RangeResp_SizeVT _)) in Hsz by (unfold is_uint64; lia).
  rewrite uint64_id in Hsz by (unfold is_uint64; lia).
  pose proof (proj1 (RangeResp_sized (response_of req (take n es ++ [e]) false))). lia.
Qed.

Lemma response_more_size req l b :
  RangeResp_SizeVT (response_of req l b) <= RangeResp_SizeVT (response_of req l false) + 2.
Proof. unfold RangeResp_SizeVT, response_of. simpl. destruct b; simpl; lia. Qed.

(** ** Claims *)

(** A small table, with the index keys. *)
Definition sample_store : kvmap :=
  <[sysLocalIndex := PutUint64 7]> (<[enc TypeUser (str "a") := str "1"]>
    (<[enc TypeUser (str "b") := str "2"]> (<[enc TypeUser (str "c") := str "3"]> ∅))).

Lemma sample_store_wf : table_wf sample_store.
Proof.
  intros k v. unfold sample_store. rewrite !lookup_insert_Some, lookup_empty.
  intros [[<- _]|[_ [[<- _]|[_ [[<- _]|[_ [[<- _]|[_ ?]]]]]]]]; [auto|eauto..|done].
Defined.

(** C4. A query on a table store answers what the specification says of the
    user map, and only that: no system key, no key outside the range, the
    value as stored.  It never fails. *)
Theorem lookup_refines {P : PebbleOps} {L : PebbleLaws P} r m req :
  view r = Some m -> table_wf m -> fsm_lookup r req = Ok (spec_lookup (user_view m) req).
Proof. intros. by apply fsm_lookup_spec. Qed.

Lemma lookup_refines_witness :
  fsm_lookup (P := mem_pebble) (Some sample_store) (RequestOp.mkRange (str "b") (Some wildcard) 0 false false [])
  = Ok (spec_lookup (user_view sample_store) (RequestOp.mkRange (str "b") (Some wildcard) 0 false false [])).
Proof.
  apply (lookup_refines (P := mem_pebble) (L := mem_pebble_laws) (Some sample_store) sample_store);
    [reflexivity|exact sample_store_wf].
Defined.

(** C24. What a range response contains: a prefix of the entries of the range
    in key order, as many as fit.  A positive limit is never exceeded, entries
    are only left out because of the limit or because the estimated size
    reaches [maxRangeSize], [Count] counts the entries and [More] is set
    exactly when at least two entries are left out. *)
Theorem range_response_prefix {P : PebbleOps} {L : PebbleLaws P} r m req hi :
  view r = Some m -> table_wf m -> RequestOp.rr_RangeEnd req = Some hi ->
  let es := range_entries (user_view m) (RequestOp.rr_Key req) hi in
  exists n, (n <= length es)%nat
  /\ fsm_lookup r req = Ok (response_of req (take n es) (S n <? length es)%nat)
  /\ (0 < RequestOp.rr_Limit req -> Z.of_nat n <= RequestOp.rr_Limit req)
  /\ (forall e, es !! n = Some e ->
        Z.of_nat n = RequestOp.rr_Limit req /\ RequestOp.rr_Limit req <> 0
        \/ maxRangeSize <= uint64 (uint64 (RangeResp_SizeVT (response_of req (take n es) false))
                                   + (iterFuncsFromReq req).2 e.1 e.2)).
Proof.
  intros Hv Hwf Hhi es. destruct (spec_range_prefix (user_view m) req hi) as (n & Hn & Heq & Hacc & Href).
  fold es in Hn, Heq, Hacc, Href. exists n. split; [done|]. split; [|split].
  - rewrite (fsm_lookup_spec r m) by done. unfold spec_lookup. by rewrite Hhi, Heq.
  - intros Hl. apply Z.le_ngt. intros Hlt.
    destruct (lookup_lt_is_Some_2 es (Z.to_nat (RequestOp.rr_Limit req)) ltac:(lia)) as [e He].
    specialize (Hacc (Z.to_nat (RequestOp.rr_Limit req)) e ltac:(lia) He). unfold refused, iterate_stop in Hacc.
    apply orb_false_iff in Hacc as [Hacc _]. unfold len in Hacc. rewrite length_take_le in Hacc by lia.
    rewrite Z2Nat.id, Z.eqb_refl in Hacc by lia. simpl in Hacc.
    apply negb_false_iff, Z.eqb_eq in Hacc. lia.
  - intros e He. specialize (Href e He). unfold refused, iterate_stop in Href.
    apply orb_true_iff in Href as [H|H]; [left|right; lia].
    apply andb_true_iff in H as [H1%Z.eqb_eq H2%negb_true_iff%Z.eqb_neq].
    unfold len in H1. rewrite length_take_le in H1 by lia. done.
Qed.

Lemma range_response_prefix_witness :
  let req := RequestOp.mkRange (str "a") (Some wildcard) 1 false false [] in
  let es := range_entries (user_view sample_store) (str "a") wildcard in
  exists n, (n <= length es)%nat
  /\ fsm_lookup (P := mem_pebble) (Some sample_store) req
     = Ok (response_of req (take n es) (S n <? length es)%nat)
  /\ (0 < 1 -> Z.of_nat n <= 1)
  /\ (forall e, es !! n = Some e ->
        Z.of_nat n = 1 /\ 1 <> 0
        \/ maxRangeSize <= uint64 (uint64 (RangeResp_SizeVT (response_of req (take n es) false))
                                   + (iterFuncsFromReq req).2 e.1 e.2)).
Proof.
  intros req. apply (range_response_prefix (P := mem_pebble) (L := mem_pebble_laws) (Some sample_store)
    sample_store req wildcard); [reflexivity|exact sample_store_wf|reflexivity].
Defined.

(** C25. A range response fits a 4 MiB gRPC message, whatever the table holds
    and the request asks for. *)
Theorem range_response_size {P : PebbleOps} {L : PebbleLaws P} r m req hi :
  view r = Some m -> table_wf m -> RequestOp.rr_RangeEnd req = Some hi ->
  (forall d v, user_view m !! d = Some v -> len d + len v < 2 ^ 62) ->
  exists resp, fsm_lookup r req = Ok resp /\ RangeResp_SizeVT resp <= 4 * 1024 * 1024.
Proof.
  intros Hv Hwf Hhi Hlen. rewrite (fsm_lookup_spec r m) by done. unfold spec_lookup. rewrite Hhi.
  destruct (spec_range_prefix (user_view m) req hi) as (n & Hn & -> & Hacc & _).
  eexists; split; [done|]. set (es := range_entries _ _ _) in *.
  assert (Forall (fun e => len e.1 + len e.2 < 2 ^ 62) es) as Hes.
  { apply Forall_forall. intros [d v] [? _]%elem_of_range_entries. simpl. eauto. }
  pose proof (response_prefix_size req es n Hes Hacc Hn).
  pose proof (response_more_size req (take n es) (S n <? length es)%nat).
  unfold maxRangeSize in *. lia.
Qed.

Lemma range_response_size_witness :
  let req := RequestOp.mkRange (str "a") (Some wildcard) 2 false false [] in
  exists resp, fsm_lookup (P := mem_pebble) (Some sample_store) req = Ok resp
  /\ RangeResp_SizeVT resp <= 4 * 1024 * 1024.
Proof.
  intros req. apply (range_response_size (P := mem_pebble) (L := mem_pebble_laws) (Some sample_store)
    sample_store req wildcard); [reflexivity|exact sample_store_wf|reflexivity|].
  intros d v. rewrite lookup_user_view. unfold sample_store. rewrite !lookup_insert_Some, lookup_empty.
  intros [[H _]|[_ [[H E]|[_ [[H E]|[_ [[H E]|[_ H]]]]]]]]; try done;
    apply enc_inj in H as [? H]; try done; subst; reflexivity.
Defined.

(** A limit of one on a range of two keys: one key is left out and [More] is
    not set. *)
Example range_more_misses_last :
  let req := RequestOp.mkRange (str "b") (Some wildcard) 1 false false [] in
  fsm_lookup (P := mem_pebble) (Some sample_store) req
  = Ok (ResponseOp.mkRange [mkKeyValue (str "b") 0 0 (str "2") []] false 1 []).
Proof. vm_compute. reflexivity. Qed.
