(* ===== verification/Command.v ===== *)
(** * Applying commands ([storage/table/fsm/command*.go])

    [updateContext] with its batch, and the handlers of every command type.
    A handler returns the context it leaves and its response; on an error or
    a panic the context is dropped with its batch, so nothing of it is kept. *)

From S2P Require Import Prelude Key Wire Proto Codec Pebble Query.

Section Handlers.
Context {P : PebbleOps}.

(** ** updateContext ([command.go]) *)

Record updateContext := mkContext {
  ctx_batch : Batch;
  ctx_db : DB;
  ctx_index : Z;
  ctx_leaderIndex : option Z
}.

Definition with_batch (c : updateContext) (b : Batch) : updateContext :=
  mkContext b (ctx_db c) (ctx_index c) (ctx_leaderIndex c).

(** The batch as a [pebble.Reader]. *)
Definition ctx_reader (c : updateContext) : Reader := read_batch (ctx_db c) (ctx_batch c).

Definition EnsureIndexed (c : updateContext) : res updateContext :=
  if Indexed (ctx_batch c) then Ok c else
  let indexed := NewIndexedBatch (ctx_db c) in
  indexed ← batch_Apply indexed (ctx_batch c);
  _ ← batch_Close (ctx_batch c);
  Ok (with_batch c indexed).

(** [Commit] writes the indexes last and hands the batch to the store. *)
Definition Commit (c : updateContext) : res DB :=
  batch ← match ctx_leaderIndex c with
          | Some leaderIndex => batch_Set (ctx_batch c) sysLeaderIndex (PutUint64 leaderIndex)
          | None => Ok (ctx_batch c)
          end;
  batch ← batch_Set batch sysLocalIndex (PutUint64 (ctx_index c));
  batch_Commit (ctx_db c) batch.

(** [wrapResponseOp], for the three messages it is called with. *)
Definition wrapResponseOp (r : ResponseOp.Response) : ResponseOp.t := ResponseOp.mk (Some r) [].

Inductive UpdateResult := ResultFailure | ResultSuccess.
Definition UpdateResult_value (r : UpdateResult) : Z :=
  match r with ResultFailure => 0 | ResultSuccess => 1 end.

(** ** PUT ([command_put.go]) *)

(** [errors.Is(err, pebble.ErrNotFound)] leaves the lookup without a result;
    [rng.Kvs[0]] of an empty slice panics. *)
Definition handlePut (ctx : updateContext) (put : RequestOp.Put) : res (updateContext * ResponseOp.Put) :=
  keyBuf ← encodeUserKey [] (RequestOp.rp_Key put);
  '(ctx, prev) ←
    (if RequestOp.rp_PrevKv put then
       ctx ← EnsureIndexed ctx;
       match singleLookup (ctx_reader ctx) (RequestOp.mkRange (RequestOp.rp_Key put) None 0 false false []) with
       | Ok rng => match ResponseOp.sr_Kvs rng with
                   | kv :: _ => Ok (ctx, Some kv)
                   | [] => Panic
                   end
       | Err e => if decide (e = ErrNotFound) then Ok (ctx, None) else Err e
       | Panic => Panic
       end
     else Ok (ctx, None));
  batch ← batch_Set (ctx_batch ctx) keyBuf (RequestOp.rp_Value put);
  Ok (with_batch ctx batch, ResponseOp.mkPut prev []).

(** A loop that threads the context and collects the results. *)
Fixpoint collect {S A B} (f : S -> A -> res (S * B)) (ops : list A) (s : S) : res (S * list B) :=
  match ops with
  | [] => Ok (s, [])
  | op :: ops' => '(s, r) ← f s op; '(s, rs) ← collect f ops' s; Ok (s, r :: rs)
  end.

Definition handlePutBatch (ctx : updateContext) (ops : list RequestOp.Put)
    : res (updateContext * list ResponseOp.Put) := collect handlePut ops ctx.

(** ** DELETE ([command_delete.go]) *)

Definition handleDelete (ctx : updateContext) (del : RequestOp.DeleteRange)
    : res (updateContext * ResponseOp.DeleteRange) :=
  keyBuf ← encodeUserKey [] (RequestOp.rd_Key del);
  let asked := RequestOp.rd_PrevKv del || RequestOp.rd_Count del in
  let req := RequestOp.mkRange (RequestOp.rd_Key del) (RequestOp.rd_RangeEnd del) 0 false
               (RequestOp.rd_Count del && negb (RequestOp.rd_PrevKv del)) [] in
  match RequestOp.rd_RangeEnd del with
  | Some rangeEnd =>
      '(ctx, resp) ←
        (if asked then
           ctx ← EnsureIndexed ctx;
           rng ← rangeLookup (ctx_reader ctx) req;
           Ok (ctx, ResponseOp.mkDeleteRange (ResponseOp.sr_Count rng) (ResponseOp.sr_Kvs rng) [])
         else Ok (ctx, DeleteRangeResp_zero));
      end_ ← (if decide (rangeEnd = wildcard) then Ok (incrementRightmostByte maxUserKey)
              else encodeUserKey [] rangeEnd);
      batch ← batch_DeleteRange (ctx_batch ctx) keyBuf end_;
      Ok (with_batch ctx batch, resp)
  | None =>
      '(ctx, resp) ←
        (if asked then
           ctx ← EnsureIndexed ctx;
           match singleLookup (ctx_reader ctx) req with
           | Ok rng => Ok (ctx, ResponseOp.mkDeleteRange 1 (ResponseOp.sr_Kvs rng) [])
           | Err e => if decide (e = ErrNotFound) then Ok (ctx, DeleteRangeResp_zero) else Err e
           | Panic => Panic
           end
         else Ok (ctx, DeleteRangeResp_zero));
      batch ← batch_Delete (ctx_batch ctx) keyBuf;
      Ok (with_batch ctx batch, resp)
  end.

Definition handleDeleteBatch (ctx : updateContext) (ops : list RequestOp.DeleteRange)
    : res (updateContext * list ResponseOp.DeleteRange) := collect handleDelete ops ctx.

(** ** TXN ([command_txn.go]) *)

Definition txnCompareSingle (cmp : Compare) (value : bytes) : bool :=
  if (cmp_Target cmp =? Compare_VALUE) && bool_decide (is_Some (cmp_TargetUnion cmp)) then
    if cmp_Result cmp =? Compare_EQUAL then bool_decide (value = Compare_GetValue cmp)
    else if cmp_Result cmp =? Compare_NOT_EQUAL then negb (bool_decide (value = Compare_GetValue cmp))
    else if cmp_Result cmp =? Compare_GREATER then
      match bytes_compare value (Compare_GetValue cmp) with Gt => true | _ => false end
    else if cmp_Result cmp =? Compare_LESS then
      match bytes_compare value (Compare_GetValue cmp) with Lt => true | _ => false end
    else true
  else true.

(** The iteration of a range comparison: it stops at the first value that
    does not compare. *)
Fixpoint compare_range (cmp : Compare) (entries : list (bytes * bytes)) : bool :=
  match entries with
  | [] => true
  | (_, v) :: entries' => if txnCompareSingle cmp v then compare_range cmp entries' else false
  end.

(** One round of the loop of [txnCompare], with the key buffer that the
    rounds share: it is only reset after a comparison that holds. *)
Definition txnCompare_step (reader : Reader) (keyBuf : bytes) (cmp : Compare) : res (bytes * bool) :=
  match cmp_RangeEnd cmp with
  | Some rangeEnd =>
      opts ← iterOptionsForBounds (cmp_Key cmp) rangeEnd;
      let iter := NewIter reader (Some opts) in
      match iter with
      | [] => Ok (keyBuf, false)
      | _ => Ok (keyBuf, compare_range cmp iter)
      end
  | None =>
      keyBuf ← encodeUserKey keyBuf (cmp_Key cmp);
      match Get reader keyBuf with
      | Ok value => if txnCompareSingle cmp value then Ok ([], true) else Ok (keyBuf, false)
      | Err e => if decide (e = ErrNotFound) then Ok (keyBuf, false) else Err e
      | Panic => Panic
      end
  end.

Fixpoint txnCompare_go (reader : Reader) (keyBuf : bytes) (compare : list Compare) : res bool :=
  match compare with
  | [] => Ok true
  | cmp :: compare' =>
      '(keyBuf, r) ← txnCompare_step reader keyBuf cmp;
      if (r : bool) then txnCompare_go reader keyBuf compare' else Ok false
  end.
Definition txnCompare (reader : Reader) (compare : list Compare) : res bool :=
  txnCompare_go reader [] compare.

(** One operation of [handleTxnOps]; one without a request is skipped. *)
Definition handleTxnOp (ctx : updateContext) (op : RequestOp.t) : res (updateContext * list ResponseOp.t) :=
  match RequestOp.ro_Request op with
  | Some (RequestOp.RequestRange o) =>
      response ← match fsm_lookup (ctx_reader ctx) o with
                 | Ok r => Ok r
                 | Err e => if decide (e = ErrNotFound) then Ok RangeResp_zero else Err e
                 | Panic => Panic
                 end;
      Ok (ctx, [wrapResponseOp (ResponseOp.ResponseRange response)])
  | Some (RequestOp.RequestPut o) =>
      '(ctx, response) ← handlePut ctx o;
      Ok (ctx, [wrapResponseOp (ResponseOp.ResponsePut response)])
  | Some (RequestOp.RequestDeleteRange o) =>
      '(ctx, response) ← handleDelete ctx o;
      Ok (ctx, [wrapResponseOp (ResponseOp.ResponseDeleteRange response)])
  | None => Ok (ctx, [])
  end.

Fixpoint handleTxnOps (ctx : updateContext) (req : list RequestOp.t)
    : res (updateContext * list ResponseOp.t) :=
  match req with
  | [] => Ok (ctx, [])
  | op :: req' => '(ctx, r) ← handleTxnOp ctx op; '(ctx, rs) ← handleTxnOps ctx req'; Ok (ctx, r ++ rs)
  end.

Definition handleTxn (ctx : updateContext) (compare : list Compare) (success fail : list RequestOp.t)
    : res (updateContext * (bool * list ResponseOp.t)) :=
  ctx ← EnsureIndexed ctx;
  ok ← txnCompare (ctx_reader ctx) compare;
  '(ctx, rs) ← handleTxnOps ctx (if (ok : bool) then success else fail);
  Ok (ctx, (ok, rs)).

(** ** The commands *)

Definition result (ctx : updateContext) (rs : list ResponseOp.t) : CommandResult :=
  mkCommandResult rs (ctx_index ctx) [].

Definition commandPut_handle (ctx : updateContext) (c : Command) : res (updateContext * (UpdateResult * CommandResult)) :=
  match cmd_Kv c with
  | Some kv =>
      '(ctx, resp) ← handlePut ctx (RequestOp.mkPut (kv_Key kv) (kv_Value kv) (cmd_PrevKvs c) []);
      Ok (ctx, (ResultSuccess, result ctx [wrapResponseOp (ResponseOp.ResponsePut resp)]))
  | None => Panic
  end.

Definition commandDelete_handle (ctx : updateContext) (c : Command) : res (updateContext * (UpdateResult * CommandResult)) :=
  match cmd_Kv c with
  | Some kv =>
      '(ctx, resp) ← handleDelete ctx
         (RequestOp.mkDeleteRange (kv_Key kv) (cmd_RangeEnd c) (cmd_PrevKvs c) (cmd_Count c) []);
      Ok (ctx, (ResultSuccess, result ctx [wrapResponseOp (ResponseOp.ResponseDeleteRange resp)]))
  | None => Panic
  end.

(** The elements of [Batch] are dereferenced before any of them is handled. *)
Definition commandPutBatch_handle (ctx : updateContext) (c : Command) : res (updateContext * (UpdateResult * CommandResult)) :=
  match mapM (M := option) id (cmd_Batch c) with
  | Some kvs =>
      '(ctx, rop) ← handlePutBatch ctx (map (fun kv => RequestOp.mkPut (kv_Key kv) (kv_Value kv) false []) kvs);
      Ok (ctx, (ResultSuccess, result ctx (map (fun r => wrapResponseOp (ResponseOp.ResponsePut r)) rop)))
  | None => Panic
  end.

Definition commandDeleteBatch_handle (ctx : updateContext) (c : Command) : res (updateContext * (UpdateResult * CommandResult)) :=
  match mapM (M := option) id (cmd_Batch c) with
  | Some kvs =>
      '(ctx, rop) ← handleDeleteBatch ctx (map (fun kv => RequestOp.mkDeleteRange (kv_Key kv) None false false []) kvs);
      Ok (ctx, (ResultSuccess, result ctx (map (fun r => wrapResponseOp (ResponseOp.ResponseDeleteRange r)) rop)))
  | None => Panic
  end.

Definition commandTxn_handle (ctx : updateContext) (c : Command) : res (updateContext * (UpdateResult * CommandResult)) :=
  match cmd_Txn c with
  | Some txn =>
      '(ctx, (succ, rop)) ← handleTxn ctx (txn_Compare txn) (txn_Success txn) (txn_Failure txn);
      Ok (ctx, (if (succ : bool) then ResultSuccess else ResultFailure, result ctx rop))
  | None => Panic
  end.

Definition commandDummy_handle (ctx : updateContext) : res (updateContext * (UpdateResult * CommandResult)) :=
  Ok (ctx, (ResultSuccess, result ctx [])).

(** [commandSequence.handle], given the handler of the commands in it. *)
Definition commandSequence_handle (handle : updateContext -> Command -> res (updateContext * (UpdateResult * CommandResult)))
    (ctx : updateContext) (seq : list Command) : res (updateContext * (UpdateResult * CommandResult)) :=
  let revision := ctx_index ctx in
  '(ctx, responses) ← res_fold (fun '(ctx, responses) cmd =>
       '(ctx, (_, cmdRes)) ← handle ctx cmd; Ok (ctx, responses ++ cr_Responses cmdRes)) seq (ctx, []);
  Ok (ctx, (ResultSuccess, mkCommandResult responses revision [])).

(** [wrapCommand(cmd).handle(ctx)]. *)
Fixpoint handle (ctx : updateContext) (cmd : Command) : res (updateContext * (UpdateResult * CommandResult)) :=
  let '(mkCommand _ ty _ _ _ _ _ _ seq _ _) := cmd in
  if ty =? Command_PUT then commandPut_handle ctx cmd
  else if ty =? Command_DELETE then commandDelete_handle ctx cmd
  else if ty =? Command_PUT_BATCH then commandPutBatch_handle ctx cmd
  else if ty =? Command_DELETE_BATCH then commandDeleteBatch_handle ctx cmd
  else if ty =? Command_TXN then commandTxn_handle ctx cmd
  else if ty =? Command_SEQUENCE then commandSequence_handle handle ctx seq
  else if ty =? Command_DUMMY then commandDummy_handle ctx
  else Panic.
End Handlers.
