(* ===== verification/CommandCorrect.v ===== *)
(** * The command handlers implement the specification

    Every handler, run on a store whose writes do not fail, does to the user
    map what [TableSpec] says, returns the responses it says, panics exactly
    when it says, leaves the index keys alone, and only reads a batch that
    has an index. *)

From S2P Require Import Prelude Key Wire Proto Codec Pebble Query TableSpec QueryCorrect Command.

Section Refinement.
Context {P : PebbleOps} {L : PebbleLaws P} {H : PebbleHealthy P}.

(** The contents of the store once the batch is committed. *)
Definition cur (c : updateContext) : kvmap := apply_ops (batch_log (ctx_batch c)) (db_view (ctx_db c)).

Record step_to (c c' : updateContext) : Prop := {
  step_db : ctx_db c' = ctx_db c;
  step_index : ctx_index c' = ctx_index c;
  step_leader : ctx_leaderIndex c' = ctx_leaderIndex c;
  step_wf : table_wf (cur c) -> table_wf (cur c');
  step_sys sys : sys = sysLocalIndex \/ sys = sysLeaderIndex -> cur c' !! sys = cur c !! sys;
  step_indexed : Indexed (ctx_batch c) = true -> Indexed (ctx_batch c') = true
}.

#[global] Instance step_to_refl : Reflexive step_to.
Proof. intros c. by split. Qed.
#[global] Instance step_to_trans : Transitive step_to.
Proof.
  intros c1 c2 c3 [] []. split; try congruence; auto.
  intros sys Hs. by rewrite step_sys1, step_sys0.
Qed.

(** The outcome [c] of a handler run in [ctx] against the outcome [s] that is
    specified, with the results related by [R]. *)
Definition refines {A B} (ctx : updateContext) (R : A -> B -> Prop)
    (c : res (updateContext * A)) (s : res (kvmap * B)) : Prop :=
  match c, s with
  | Ok (ctx', a), Ok (kv', b) => step_to ctx ctx' /\ user_view (cur ctx') = kv' /\ R a b
  | Panic, Panic => True
  | _, _ => False
  end.

Lemma refines_bind {A B A' B'} ctx (R : A -> B -> Prop) (R' : A' -> B' -> Prop) c s k k' :
  refines ctx R c s ->
  (forall ctx' a b, step_to ctx ctx' -> R a b ->
     refines ctx' R' (k (ctx', a)) (k' (user_view (cur ctx'), b))) ->
  refines ctx R' (c ≫= k) (s ≫= k').
Proof.
  intros Hc Hk. destruct c as [[ctx' a]|e|], s as [[kv b]|e'|]; simpl in *; try done.
  destruct Hc as (Hs & <- & HR). specialize (Hk ctx' a b Hs HR). unfold refines in *.
  destruct (k (ctx', a)) as [[c2 a2]|e|], (k' (user_view (cur ctx'), b)) as [[kv2 b2]|e'|]; try done.
  destruct Hk as (? & ? & ?). split; [by transitivity ctx'|done].
Qed.

Lemma refines_ret {A B} ctx (R : A -> B -> Prop) a b :
  R a b -> refines ctx R (Ok (ctx, a)) (Ok (user_view (cur ctx), b)).
Proof. by intros. Qed.

Lemma refines_step {A B} ctx c (R : A -> B -> Prop) x s :
  step_to ctx c -> refines c R x s -> refines ctx R x s.
Proof.
  intros Hst. unfold refines. destruct x as [[c' a]|e|], s as [[kv b]|e'|]; try done.
  intros (? & ? & ?). split; [by transitivity c|done].
Qed.

(** ** Batches *)

Lemma EnsureIndexed_spec c : exists c', EnsureIndexed c = Ok c' /\ Indexed (ctx_batch c') = true
  /\ cur c' = cur c /\ step_to c c'.
Proof using L H.
  unfold EnsureIndexed. destruct (Indexed (ctx_batch c)) eqn:E; [by exists c|].
  destruct (NewIndexedBatch_spec (ctx_db c)) as [Hi Hl].
  destruct (batch_Apply_ok (NewIndexedBatch (ctx_db c)) (ctx_batch c)) as [b Hb].
  destruct (batch_Close_ok (ctx_batch c)) as [u Hu]. rewrite Hb, Hu. simpl.
  apply batch_Apply_spec in Hb as [Hlog Hidx].
  exists (with_batch c b). split; [done|]. split; [simpl; congruence|].
  assert (cur (with_batch c b) = cur c) as Hcur by (unfold cur; simpl; by rewrite Hlog, Hl).
  split; [done|]. split; rewrite ?Hcur; try done. simpl. congruence.
Qed.

Lemma view_indexed c : Indexed (ctx_batch c) = true -> view (ctx_reader c) = Some (cur c).
Proof using L. intros Hi. unfold ctx_reader. by rewrite view_batch, Hi. Qed.

(** A write to a user key. *)
Lemma write_spec c o b :
  user_op o -> batch_log b = batch_log (ctx_batch c) ++ [o] -> Indexed b = Indexed (ctx_batch c) ->
  cur (with_batch c b) = apply_op (cur c) o /\ step_to c (with_batch c b).
Proof using L.
  intros Ho Hlog Hidx.
  assert (cur (with_batch c b) = apply_op (cur c) o) as Hcur.
  { unfold cur. simpl. by rewrite Hlog, apply_ops_app. }
  split; [done|]. split; try done; rewrite ?Hcur.
  - by apply user_op_wf.
  - intros. by apply user_op_sys.
  - simpl. congruence.
Qed.

(** The last step of a handler: one write to the batch of the context [c],
    whose contents are still those of [ctx], and the response. *)
Lemma write_refines {A} ctx c o (w : res Batch) (a : A) kv :
  user_op o -> is_Ok w ->
  (forall b, w = Ok b -> batch_log b = batch_log (ctx_batch c) ++ [o] /\ Indexed b = Indexed (ctx_batch c)) ->
  cur c = cur ctx -> step_to ctx c -> user_view (apply_op (cur ctx) o) = kv ->
  refines ctx eq (batch ← w; Ok (with_batch c batch, a)) (Ok (kv, a)).
Proof using L.
  intros Ho [b ->] Hb Hcur Hst <-. destruct (Hb b eq_refl) as [Hlog Hidx].
  destruct (write_spec c o b Ho Hlog Hidx) as [Hcur' Hst']. simpl.
  split; [by transitivity c|]. by rewrite Hcur', Hcur.
Qed.

(** ** Handlers *)

Lemma handlePut_refines ctx put :
  refines ctx eq (handlePut ctx put) (spec_put (user_view (cur ctx)) put).
Proof using L H.
  unfold handlePut, spec_put. rewrite encodeUserKey_enc, app_nil_l. cbn [mbind res_bind].
  assert (forall c prev, cur c = cur ctx -> step_to ctx c ->
    refines ctx eq (batch ← batch_Set (ctx_batch c) (enc TypeUser (RequestOp.rp_Key put)) (RequestOp.rp_Value put);
                    Ok (with_batch c batch, ResponseOp.mkPut prev []))
      (Ok (<[RequestOp.rp_Key put := RequestOp.rp_Value put]> (user_view (cur ctx)), ResponseOp.mkPut prev []))) as Hw.
  { intros c prev Hcur Hst. eapply write_refines; [constructor|apply batch_Set_ok| |done|done|apply user_view_set].
    intros b. apply batch_Set_spec. }
  destruct (RequestOp.rp_PrevKv put); [|by apply Hw].
  destruct (EnsureIndexed_spec ctx) as (c & -> & Hi & Hcur & Hst). cbn [mbind res_bind].
  rewrite (singleLookup_spec _ (cur c)) by (by apply view_indexed). rewrite Hcur. unfold spec_single.
  cbn [RequestOp.rr_Key RequestOp.rr_CountOnly RequestOp.rr_KeysOnly].
  destruct (user_view (cur ctx) !! _) as [v|]; [|done]. by apply Hw.
Qed.

Lemma handleDelete_refines ctx del :
  table_wf (cur ctx) ->
  refines ctx eq (handleDelete ctx del) (Ok (spec_delete (user_view (cur ctx)) del)).
Proof using L H.
  intros Hwf. unfold handleDelete, spec_delete. rewrite encodeUserKey_enc, app_nil_l. cbn [mbind res_bind].
  destruct (EnsureIndexed_spec ctx) as (c & Hc & Hi & Hcur & Hst).
  assert (view (ctx_reader c) = Some (cur ctx)) as Hview by (rewrite <- Hcur; by apply view_indexed).
  destruct (RequestOp.rd_RangeEnd del) as [hi|].
  - assert ((if decide (hi = wildcard) then Ok (incrementRightmostByte maxUserKey) else encodeUserKey [] hi)
            = Ok (upper hi)) as Hup.
    { unfold upper. rewrite wildcard_bound. case_decide; [done|]. by rewrite encodeUserKey_enc. }
    destruct (_ || _); cbn [mbind res_bind]; rewrite ?Hc; cbn [mbind res_bind];
      [rewrite (rangeLookup_spec _ (cur ctx)) by done|]; cbn [mbind res_bind]; rewrite Hup; cbn [mbind res_bind];
      (eapply write_refines; [constructor|apply batch_DeleteRange_ok|intros b; apply batch_DeleteRange_spec
                             |done|done|apply user_view_delete_range]).
  - destruct (_ || _); cbn [mbind res_bind]; rewrite ?Hc; cbn [mbind res_bind];
      [rewrite (singleLookup_spec _ (cur ctx)) by done|]; cbn [mbind res_bind];
      (eapply write_refines; [constructor|apply batch_Delete_ok|intros b; apply batch_Delete_spec
                             |done|done|apply user_view_delete]).
Qed.

(** ** Transactions *)

Lemma txnCompareSingle_spec cmp v : txnCompareSingle cmp v = spec_compare_value cmp v.
Proof.
  unfold txnCompareSingle, spec_compare_value. case_match; [|done].
  destruct (cmp_Result cmp =? Compare_EQUAL); [done|].
  destruct (cmp_Result cmp =? Compare_NOT_EQUAL); [by rewrite <- bool_decide_not|].
  destruct (cmp_Result cmp =? Compare_GREATER); [|destruct (cmp_Result cmp =? Compare_LESS); [|done]].
  - apply eq_true_iff_eq. rewrite bool_decide_eq_true. unfold bytes_lt.
    rewrite (bytes_compare_antisym v (Compare_GetValue cmp)). by destruct (bytes_compare v _).
  - apply eq_true_iff_eq. rewrite bool_decide_eq_true. unfold bytes_lt. by destruct (bytes_compare v _).
Qed.

Lemma compare_range_spec cmp l :
  compare_range cmp (map enc_entry l) = forallb (spec_compare_value cmp) l.*2.
Proof.
  induction l as [|[d v] l IH]; [done|]. simpl. rewrite txnCompareSingle_spec, IH.
  by destruct (spec_compare_value cmp v).
Qed.

(** A round starts and, if the comparison holds, ends with an empty buffer. *)
Lemma txnCompare_step_spec r m cmp :
  view r = Some m -> table_wf m ->
  exists buf, txnCompare_step r [] cmp = Ok (buf, spec_compare (user_view m) cmp)
              /\ (spec_compare (user_view m) cmp = true -> buf = []).
Proof using L.
  intros Hv Hwf. unfold txnCompare_step, spec_compare. destruct (cmp_RangeEnd cmp) as [hi|].
  - rewrite iterOptionsForBounds_eq. cbn [mbind res_bind]. rewrite (NewIter_range r m) by done.
    destruct (range_entries _ _ _) as [|e es] eqn:E; [by exists []|].
    exists []. split; [|done]. by rewrite <- E, compare_range_spec, E.
  - rewrite encodeUserKey_enc, app_nil_l. cbn [mbind res_bind]. rewrite (Get_spec r m), lookup_user_view by done.
    destruct (m !! _) as [v|]; [|by eexists]. rewrite txnCompareSingle_spec.
    destruct (spec_compare_value cmp v); eexists; done.
Qed.

Lemma txnCompare_spec r m cs :
  view r = Some m -> table_wf m -> txnCompare r cs = Ok (forallb (spec_compare (user_view m)) cs).
Proof using L.
  intros Hv Hwf. unfold txnCompare. induction cs as [|cmp cs IH]; [done|]. simpl.
  destruct (txnCompare_step_spec r m cmp Hv Hwf) as (buf & -> & Hbuf). simpl.
  destruct (spec_compare _ cmp); [|done]. by rewrite Hbuf, IH.
Qed.

Lemma handleTxnOp_refines ctx op :
  table_wf (cur ctx) -> Indexed (ctx_batch ctx) = true ->
  refines ctx eq (handleTxnOp ctx op) (spec_op (user_view (cur ctx)) op).
Proof using L H.
  intros Hwf Hi. unfold handleTxnOp, spec_op. destruct (RequestOp.ro_Request op) as [[r|p|d]|].
  - rewrite (fsm_lookup_spec _ (cur ctx)) by (auto using view_indexed). by apply refines_ret.
  - eapply refines_bind; [apply handlePut_refines|]. intros c a b _ <-. by apply refines_ret.
  - destruct (spec_delete (user_view (cur ctx)) d) as [kv resp] eqn:E.
    change (Ok (kv, [ResponseOp.mk (Some (ResponseOp.ResponseDeleteRange resp)) []]))
      with ('(kv, r) ← Ok (kv, resp); Ok (kv, [ResponseOp.mk (Some (ResponseOp.ResponseDeleteRange r)) []])).
    eapply refines_bind; [rewrite <- E; by apply handleDelete_refines|]. intros c a b _ <-. by apply refines_ret.
  - by apply refines_ret.
Qed.

Lemma handleTxnOps_refines ctx ops :
  table_wf (cur ctx) -> Indexed (ctx_batch ctx) = true ->
  refines ctx eq (handleTxnOps ctx ops) (spec_steps spec_op ops (user_view (cur ctx))).
Proof using L H.
  revert ctx. induction ops as [|op ops IH]; intros ctx Hwf Hi; [by apply refines_ret|]. simpl.
  eapply refines_bind; [by apply handleTxnOp_refines|]. intros c a b Hst <-.
  eapply refines_bind; [apply IH; by apply Hst|]. intros c' a' b' _ <-. by apply refines_ret.
Qed.

Lemma handleTxn_refines ctx t :
  table_wf (cur ctx) ->
  refines ctx eq (handleTxn ctx (txn_Compare t) (txn_Success t) (txn_Failure t)) (spec_txn (user_view (cur ctx)) t).
Proof using L H.
  intros Hwf. unfold handleTxn, spec_txn.
  destruct (EnsureIndexed_spec ctx) as (c & -> & Hi & Hcur & Hst). cbn [mbind res_bind].
  assert (table_wf (cur c)) as Hwf' by (by apply Hst).
  rewrite (txnCompare_spec _ (cur c)) by (auto using view_indexed). cbn [mbind res_bind]. rewrite Hcur.
  set (ok := forallb _ _). rewrite <- Hcur.
  apply (refines_step _ c); [done|].
  eapply refines_bind; [by apply handleTxnOps_refines|]. intros c' a b _ <-. by apply refines_ret.
Qed.

(** ** Commands *)

Lemma collect_refines {A B B'} (f : updateContext -> A -> res (updateContext * B))
    (g : kvmap -> A -> res (kvmap * B')) (R : B -> B' -> Prop) ops ctx :
  (forall c op, table_wf (cur c) -> refines c R (f c op) (g (user_view (cur c)) op)) ->
  table_wf (cur ctx) -> refines ctx (Forall2 R) (collect f ops ctx) (collect g ops (user_view (cur ctx))).
Proof using L.
  intros Hf. revert ctx. induction ops as [|op ops IH]; intros ctx Hwf; simpl.
  { by apply refines_ret. }
  eapply refines_bind; [by apply Hf|]. intros c a b Hst HR.
  eapply refines_bind; [apply IH; by apply Hst|]. intros c' a' b' _ HR'. apply refines_ret. by constructor.
Qed.

Lemma collect_put kv xs :
  collect spec_put (map (fun x => RequestOp.mkPut (kv_Key x) (kv_Value x) false []) xs) kv
  = Ok (foldl (fun kv x => <[kv_Key x := kv_Value x]> kv) kv xs, map (fun _ => PutResp_zero) xs).
Proof. revert kv. induction xs as [|x xs IH]; intros kv; simpl; [done|]. by rewrite IH. Qed.

Lemma collect_delete kv xs :
  collect (fun kv d => Ok (spec_delete kv d)) (map (fun x => RequestOp.mkDeleteRange (kv_Key x) None false false []) xs) kv
  = Ok (foldl (fun kv x => delete (kv_Key x) kv) kv xs, map (fun _ => DeleteRangeResp_zero) xs).
Proof. revert kv. induction xs as [|x xs IH]; intros kv; simpl; [done|]. by rewrite IH. Qed.

(** The result of a command against what is specified of it. *)
Definition result_of (index : Z) (r : UpdateResult * CommandResult) (s : bool * list ResponseOp.t) : Prop :=
  r = (if s.1 then ResultSuccess else ResultFailure, mkCommandResult s.2 index []).

Lemma commandPutBatch_refines ctx c kvs :
  table_wf (cur ctx) -> mapM (M := option) id (cmd_Batch c) = Some kvs ->
  refines ctx (result_of (ctx_index ctx)) (commandPutBatch_handle ctx c)
    (Ok (foldl (fun kv x => <[kv_Key x := kv_Value x]> kv) (user_view (cur ctx)) kvs,
         (true, map (fun _ => put_response PutResp_zero) kvs))).
Proof using L H.
  intros Hwf Hb. unfold commandPutBatch_handle, handlePutBatch. rewrite Hb.
  pose proof (collect_refines handlePut spec_put eq
    (map (fun x => RequestOp.mkPut (kv_Key x) (kv_Value x) false []) kvs) ctx) as Hr.
  rewrite collect_put in Hr. specialize (Hr (fun c op _ => handlePut_refines c op) Hwf).
  destruct (collect handlePut _ ctx) as [[ctx' rs]|e|]; simpl in *; try done.
  destruct Hr as (Hst & Hkv & Hrs). split; [done|]. split; [done|].
  apply list_eq_Forall2 in Hrs. subst. unfold result_of, result. simpl.
  by rewrite map_map, (step_index _ _ Hst).
Qed.

Lemma commandDeleteBatch_refines ctx c kvs :
  table_wf (cur ctx) -> mapM (M := option) id (cmd_Batch c) = Some kvs ->
  refines ctx (result_of (ctx_index ctx)) (commandDeleteBatch_handle ctx c)
    (Ok (foldl (fun kv x => delete (kv_Key x) kv) (user_view (cur ctx)) kvs,
         (true, map (fun _ => delete_response DeleteRangeResp_zero) kvs))).
Proof using L H.
  intros Hwf Hb. unfold commandDeleteBatch_handle, handleDeleteBatch. rewrite Hb.
  pose proof (collect_refines handleDelete (fun kv d => Ok (spec_delete kv d)) eq
    (map (fun x => RequestOp.mkDeleteRange (kv_Key x) None false false []) kvs) ctx) as Hr.
  rewrite collect_delete in Hr. specialize (Hr handleDelete_refines Hwf).
  destruct (collect handleDelete _ ctx) as [[ctx' rs]|e|]; simpl in *; try done.
  destruct Hr as (Hst & Hkv & Hrs). split; [done|]. split; [done|].
  apply list_eq_Forall2 in Hrs. subst. unfold result_of, result. simpl.
  by rewrite map_map, (step_index _ _ Hst).
Qed.

Abbreviation spec_seq := (spec_steps (fun kv c => '(kv, (_, rs)) ← spec_command kv c; Ok (kv, rs))).

Lemma sequence_refines seq ctx acc :
  Forall (fun cmd => forall c, table_wf (cur c) ->
    refines c (result_of (ctx_index c)) (handle c cmd) (spec_command (user_view (cur c)) cmd)) seq ->
  table_wf (cur ctx) ->
  refines ctx (fun rs b => rs = acc ++ b)
    (res_fold (fun '(ctx, responses) cmd =>
       '(ctx, (_, cmdRes)) ← handle ctx cmd; Ok (ctx, responses ++ cr_Responses cmdRes)) seq (ctx, acc))
    (spec_seq seq (user_view (cur ctx))).
Proof using L.
  intros Hseq. revert ctx acc. induction Hseq as [|cmd seq Hcmd _ IH]; intros ctx acc Hwf; simpl.
  { apply refines_ret. by rewrite app_nil_r. }
  specialize (Hcmd ctx Hwf). rewrite !res_bind_assoc.
  eapply refines_bind; [exact Hcmd|]. intros c [u rs] [b bs] Hst [= -> ->]. simpl.
  specialize (IH c (acc ++ bs) ltac:(by apply Hst)).
  destruct (res_fold _ seq _) as [[c' rs']|e|], (spec_seq seq _) as [[kv' b']|e'|]; simpl in *; try done.
  destruct IH as (? & ? & ->). split; [done|]. split; [done|]. by rewrite app_assoc.
Qed.

Lemma handle_refines cmd ctx :
  table_wf (cur ctx) ->
  refines ctx (result_of (ctx_index ctx)) (handle ctx cmd) (spec_command (user_view (cur ctx)) cmd).
Proof using L H.
  revert ctx. induction cmd as [t ty kv li b tx re pk s c u IH] using Command_nested_ind. intros ctx Hwf.
  cbn [handle spec_command].
  destruct (ty =? Command_PUT); [|destruct (ty =? Command_DELETE); [|destruct (ty =? Command_PUT_BATCH);
    [|destruct (ty =? Command_DELETE_BATCH); [|destruct (ty =? Command_TXN); [|destruct (ty =? Command_SEQUENCE);
    [|by destruct (ty =? Command_DUMMY); [apply refines_ret|]]]]]]].
  - unfold commandPut_handle. cbn [cmd_Kv cmd_PrevKvs]. destruct kv as [x|]; [|done].
    eapply refines_bind; [apply handlePut_refines|]. intros c' a b' Hst <-. apply refines_ret.
    unfold result_of, result. by rewrite (step_index _ _ Hst).
  - unfold commandDelete_handle. cbn [cmd_Kv cmd_PrevKvs cmd_RangeEnd cmd_Count]. destruct kv as [x|]; [|done].
    pose proof (handleDelete_refines ctx (RequestOp.mkDeleteRange (kv_Key x) re pk c []) Hwf) as Hr.
    destruct (spec_delete _ _) as [kv' r], (handleDelete _ _) as [[c' a]|e|]; simpl in *; try done.
    destruct Hr as (Hst & ? & ->). split; [done|]. split; [done|].
    unfold result_of, result. by rewrite (step_index _ _ Hst).
  - destruct (mapM id b) as [kvs|] eqn:Eb; [by apply commandPutBatch_refines|].
    unfold commandPutBatch_handle. cbn [cmd_Batch]. by rewrite Eb.
  - destruct (mapM id b) as [kvs|] eqn:Eb; [by apply commandDeleteBatch_refines|].
    unfold commandDeleteBatch_handle. cbn [cmd_Batch]. by rewrite Eb.
  - unfold commandTxn_handle. cbn [cmd_Txn]. destruct tx as [tx|]; [|done].
    pose proof (handleTxn_refines ctx tx Hwf) as Hr.
    destruct (handleTxn _ _ _ _) as [[c' [ok rs]]|e|], (spec_txn _ tx) as [[kv' b']|e'|]; simpl in *; try done.
    destruct Hr as (Hst & ? & <-). split; [done|]. split; [done|].
    unfold result_of, result. by rewrite (step_index _ _ Hst).
  - unfold commandSequence_handle.
    eapply refines_bind; [by apply sequence_refines|]. intros c' a b' Hst ->. by apply refines_ret.
Qed.
End Refinement.
