(* ===== verification/Fsm.v ===== *)
(** * The table state machine ([storage/table/fsm/fsm.go])

    [Update] applies a batch of Raft log entries to the store; [Lookup] serves
    the queries; [Open] returns the index to continue from.  The snapshot
    header selects the recovery type.  Metrics other than the applied index
    and logging are not part of the model; the rest of [Open] is in [Recovery]. *)

From S2P Require Import Prelude Key Wire Proto Codec Pebble Query Command.

(** [sm.Entry] with its [Result]. *)
Record Entry := mkEntry { e_Index : Z; e_Cmd : bytes; e_Value : Z; e_Data : bytes }.

(** The messages of the KV service that reach the state machine. *)
Record TxnRequest := mkTxnRequest {
  txr_Table : bytes;
  txr_Compare : list Compare;
  txr_Success : list RequestOp.t;
  txr_Failure : list RequestOp.t
}.
Record ResponseHeader := mkResponseHeader {
  rh_ShardId : Z; rh_ReplicaId : Z; rh_Revision : Z; rh_RaftTerm : Z; rh_RaftLeaderId : Z
}.
Record TxnResponse := mkTxnResponse {
  txs_Header : option ResponseHeader;
  txs_Succeeded : bool;
  txs_Responses : list ResponseOp.t
}.

(** [SnapshotRecoveryType] and [snapshotHeader]. *)
Definition RecoveryTypeSnapshot : byte := Byte.x00.
Definition RecoveryTypeCheckpoint : byte := Byte.x01.
Definition snapshotHeader : Type := bytes.
Definition snapshotHeader_zero : snapshotHeader := replicate 8 Byte.x00.
Definition setSnapshotType (s : snapshotHeader) (recoveryType : byte) : snapshotHeader :=
  <[6%nat := recoveryType]> s.
Definition snapshotType (s : snapshotHeader) : byte := default Byte.x00 (s !! 6%nat).

Inductive snapshotRecoverer := RSnapshot | RCheckpoint.

(** [getHeader] of the two recoverers. *)
Definition getHeader (r : snapshotRecoverer) : snapshotHeader :=
  match r with
  | RSnapshot => setSnapshotType snapshotHeader_zero RecoveryTypeSnapshot
  | RCheckpoint => setSnapshotType snapshotHeader_zero RecoveryTypeCheckpoint
  end.

(** [getRecoverer]. *)
Definition getRecoverer (recoveryType : byte) : res snapshotRecoverer :=
  if decide (recoveryType = RecoveryTypeSnapshot) then Ok RSnapshot
  else if decide (recoveryType = RecoveryTypeCheckpoint) then Ok RCheckpoint
  else Panic.

Section Fsm.
Context {P : PebbleOps}.

(** [FSM]: the store, the applied index and the fields that never change. *)
Record FSM := mkFSM {
  fsm_pebble : DB;
  fsm_applied : Z;
  fsm_tableName : bytes;
  fsm_dirname : bytes
}.

(** [parseCommand] with [wrapCommand], whose panic on an unknown type is the
    one of [handle]. *)
Definition parseCommand (c : updateContext) (entry : Entry) : res (updateContext * Command) :=
  let c := mkContext (ctx_batch c) (ctx_db c) (e_Index entry) (ctx_leaderIndex c) in
  cmd ← Command_UnmarshalVT (e_Cmd entry) Command_zero;
  Ok (mkContext (ctx_batch c) (ctx_db c) (ctx_index c) (cmd_LeaderIndex cmd), cmd).

(** One round of the loop of [Update]: the context and the entry with its
    result. *)
Definition update_entry (ctx : updateContext) (entry : Entry) : res (updateContext * Entry) :=
  '(ctx, cmd) ← parseCommand ctx entry;
  '(ctx, (updateResult, r)) ← handle ctx cmd;
  data ← (if 0 <? len (cr_Responses r) then CommandResult_MarshalVT r else Ok (e_Data entry));
  Ok (ctx, mkEntry (e_Index entry) (e_Cmd entry) (UpdateResult_value updateResult) data).

Definition Update (p : FSM) (updates : list Entry) : res (FSM * list Entry) :=
  let db := fsm_pebble p in
  let ctx := mkContext (NewBatch db) db 0 None in
  '(ctx, updates) ← collect update_entry updates ctx;
  let idx := default 0 (e_Index <$> last updates) in
  db ← Commit ctx;
  Ok (mkFSM db idx (fsm_tableName p) (fsm_dirname p), updates).

(** The reading end of [Open]: the last applied index of the store. *)
Definition open_index (db : DB) : res Z := readLocalIndex (read_db db) sysLocalIndex.

(** ** Lookup *)

(** The ranges of a read-only transaction, in order; [op.GetRequestRange()]
    is nil for another operation, which [lookup] dereferences. *)
Fixpoint txn_lookups (reader : Reader) (ops : list (option RequestOp.Range)) : res (list ResponseOp.t) :=
  match ops with
  | [] => Ok []
  | None :: _ => Panic
  | Some op :: ops' =>
      rr ← fsm_lookup reader op;
      rs ← txn_lookups reader ops';
      Ok (wrapResponseOp (ResponseOp.ResponseRange rr) :: rs)
  end.

Section Lookup.
Context {W : Type} (Write : W -> bytes -> res W).

Inductive LookupRequest :=
  | LTxn (req : TxnRequest)
  | LRange (req : RequestOp.Range)
  | LSnapshot (w : W) (stopper : nat -> bool)
  | LLocalIndex
  | LLeaderIndex
  | LPath
  | LUnknown.
Inductive LookupResponse :=
  | LTxnResponse (resp : TxnResponse)
  | LRangeResponse (resp : ResponseOp.Range)
  | LSnapshotResponse (index : Z) (w : W)
  | LIndexResponse (index : Z)
  | LPathResponse (path : bytes).

Definition Lookup (p : FSM) (l : LookupRequest) : res LookupResponse :=
  let db := read_db (fsm_pebble p) in
  match l with
  | LTxn req =>
      ok ← txnCompare db (txr_Compare req);
      let ops := map GetRequestRange (if (ok : bool) then txr_Success req else txr_Failure req) in
      responses ← txn_lookups db ops;
      Ok (LTxnResponse (mkTxnResponse None ok responses))
  | LRange req => rr ← fsm_lookup db req; Ok (LRangeResponse rr)
  | LSnapshot w stopper =>
      '(idx, w) ← commandSnapshot Write db (fsm_tableName p) w stopper;
      Ok (LSnapshotResponse idx w)
  | LLocalIndex => idx ← readLocalIndex db sysLocalIndex; Ok (LIndexResponse idx)
  | LLeaderIndex => idx ← readLocalIndex db sysLeaderIndex; Ok (LIndexResponse idx)
  | LPath => Ok (LPathResponse (fsm_dirname p))
  | LUnknown => Err ErrUnknownQueryType
  end.
End Lookup.

(** [GetHash]: the entries are written to the hash in key order, key and value
    in turn; the hash is FNV-64 of the standard library. *)
Definition hash_input (p : FSM) : bytes :=
  concat (map (fun e => e.1 ++ e.2) (NewIter (read_db (fsm_pebble p)) None)).
Definition fnv64_step (h : Z) (b : byte) : Z := Z.lxor (uint64 (h * 1099511628211)) (byte_Z b).
Definition GetHash (p : FSM) : Z := foldl fnv64_step 14695981039346656037 (hash_input p).
End Fsm.
