(* ===== verification/FsmCorrect.v ===== *)
(** * The state machine implements the table

    [Update] and [Lookup] against the specification of [TableSpec]: results,
    indexes, what a cut of the log into batches changes, agreement of
    replicas, and the claims about commands that follow. *)

From S2P Require Import Prelude Key Wire Proto Codec Pebble.
From S2P Require Import Query TableSpec QueryCorrect Command CommandCorrect Fsm.

(** ** Abstract state machine *)

Record tstate := mkTState { t_kv : kvmap; t_index : Z; t_leader : Z }.

(** A store represents an abstract state. *)
Record represents (m : kvmap) (st : tstate) : Prop := {
  rep_kv : user_view m = t_kv st;
  rep_wf : table_wf m;
  rep_index : index_at m sysLocalIndex = Ok (t_index st);
  rep_leader : index_at m sysLeaderIndex = Ok (t_leader st)
}.

(** The map and the leader index of the last command, after one entry. *)
Definition spec_entry (s : kvmap * option Z) (e : Entry) : res ((kvmap * option Z) * Entry) :=
  cmd ← Command_UnmarshalVT (e_Cmd e) Command_zero;
  '(kv, (ok, rs)) ← spec_command s.1 cmd;
  data ← (if decide (rs = []) then Ok (e_Data e) else CommandResult_MarshalVT (mkCommandResult rs (e_Index e) []));
  Ok ((kv, cmd_LeaderIndex cmd), mkEntry (e_Index e) (e_Cmd e) (Z.b2z ok) data).

(** A batch: the local index is that of the last entry; the leader index is
    the one the last command carries, and stays when it carries none. *)
Definition spec_update (st : tstate) (es : list Entry) : res (tstate * list Entry) :=
  '((kv, leader), es') ← collect spec_entry es (t_kv st, None);
  Ok (mkTState kv (default 0 (e_Index <$> last es)) (default (t_leader st) leader), es').

(** ** Indexes that are decoded fit 64 bits *)

Definition leader_ok (c : Command) : Prop := forall i, cmd_LeaderIndex c = Some i -> is_uint64 i.

Lemma unmarshal_inv {M} (field : field_reader M) add_unknown (Inv : M -> Prop) d m m' :
  (forall m l f wt d m' d', Inv m -> field m l f wt d = Some (Ok (m', d')) -> Inv m') ->
  (forall u m, Inv m -> Inv (add_unknown u m)) ->
  Inv m -> unmarshal field add_unknown d m = Ok m' -> Inv m'.
Proof.
  intros Hf Hu. unfold unmarshal. generalize (len d) (length d). intros l fuel. revert d m.
  induction fuel as [|fuel IH]; intros [|b d] m HI; simpl; [by intros [= <-]|done|by intros [= <-]|].
  intros ([wire d1] & Hr & Hk)%bind_Ok_inv. repeat (case_match; [done|]).
  destruct (field m l _ _ d1) as [r|] eqn:Ef.
  - apply bind_Ok_inv in Hk as ([m2 d2] & -> & Hk). eapply IH; [|exact Hk]. eauto.
  - apply bind_Ok_inv in Hk as (n & _ & Hk). repeat (case_match; [done|]). eapply IH; [|exact Hk]. eauto.
Qed.

Lemma bytes_field_inv {M} set (m : M) l wt d m' d' :
  bytes_field set m l wt d = Some (Ok (m', d')) -> exists x, m' = set x m.
Proof.
  unfold bytes_field. case_match; [|done].
  intros [= ([x d2] & _ & [= <- _])%bind_Ok_inv]. eauto.
Qed.

Lemma varint_field_inv {M} set (m : M) wt d m' d' :
  varint_field set m wt d = Some (Ok (m', d')) -> exists v, is_uint64 v /\ m' = set v m.
Proof.
  unfold varint_field. case_match; [|done].
  intros [= ([v d2] & Hv%read_varint_range & [= <- _])%bind_Ok_inv]. eauto.
Qed.

Lemma message_field_inv {M} set (m : M) l wt d m' d' :
  message_field set m l wt d = Some (Ok (m', d')) -> exists x, set x m = Ok m'.
Proof.
  unfold message_field. case_match; [|done].
  intros [= ([x d2] & _ & (m2 & Hm & [= <- _])%bind_Ok_inv)%bind_Ok_inv]. eauto.
Qed.

Lemma Command_UnmarshalVT_leader d m m' :
  leader_ok m -> Command_UnmarshalVT d m = Ok m' -> leader_ok m'.
Proof.
  unfold Command_UnmarshalVT. cbn [Command_Unmarshal_at]. intros Hm. apply unmarshal_inv; [| |done].
  - clear. intros m l f wt d0 m' d' Hm Hf. unfold Command_field in Hf.
    repeat match type of Hf with match ?x with _ => _ end = _ => destruct x end; try done;
      first [ apply bytes_field_inv in Hf as [x ->]; by destruct m
            | apply varint_field_inv in Hf as (v & Hv & ->); destruct m; first [done|by intros i [= <-]]
            | apply message_field_inv in Hf as [x Hx]; destruct m;
              apply bind_Ok_inv in Hx as (e & _ & [= <-]); done ].
  - by intros u [].
Qed.

Section Update.
Context {P : PebbleOps} {L : PebbleLaws P} {H : PebbleHealthy P}.

Definition with_entry (c : updateContext) (e : Entry) (leader : option Z) : updateContext :=
  mkContext (ctx_batch c) (ctx_db c) (e_Index e) leader.

(** The context against the abstract accumulator. *)
Definition ctx_rel (c0 c : updateContext) (s : kvmap * option Z) : Prop :=
  user_view (cur c) = s.1 /\ table_wf (cur c) /\ ctx_leaderIndex c = s.2
  /\ (forall i, ctx_leaderIndex c = Some i -> is_uint64 i)
  /\ (forall sys, sys = sysLocalIndex \/ sys = sysLeaderIndex -> cur c !! sys = cur c0 !! sys)
  /\ ctx_db c = ctx_db c0.

Lemma update_entry_refines c0 c s e :
  ctx_rel c0 c s ->
  match update_entry c e, spec_entry s e with
  | Ok (c', e'), Ok (s', e'') => ctx_rel c0 c' s' /\ ctx_index c' = e_Index e /\ e' = e''
  | Err x, Err y => x = y
  | Panic, Panic => True
  | _, _ => False
  end.
Proof using L H.
  intros (Hkv & Hwf & _ & _ & Hsys & Hdb). unfold update_entry, spec_entry, parseCommand.
  destruct (Command_UnmarshalVT (e_Cmd e) Command_zero) as [cmd|x|] eqn:Ecmd; simpl; [|done|done].
  apply Command_UnmarshalVT_leader in Ecmd; [|done].
  set (c1 := mkContext _ _ _ _). pose proof (handle_refines cmd c1 Hwf) as Hr.
  change (cur c1) with (cur c) in Hr. rewrite Hkv in Hr.
  destruct (handle c1 cmd) as [[c2 [ur r]]|x|], (spec_command s.1 cmd) as [[kv [ok rs]]|y|]; simpl in *; try done.
  destruct Hr as ([] & Hkv2 & [= -> ->]). simpl.
  assert (ctx_rel c0 c2 (kv, cmd_LeaderIndex cmd)) as Hrel.
  { split; [done|]. split; [by apply step_wf|]. split; [done|]. split; [by rewrite step_leader|].
    split; [|by rewrite step_db]. intros sys Hs. rewrite step_sys by done. by apply Hsys. }
  assert (UpdateResult_value (if ok then ResultSuccess else ResultFailure) = Z.b2z ok) as -> by (by destruct ok).
  destruct rs as [|r rs]; simpl.
  - by rewrite step_index.
  - destruct (CommandResult_MarshalVT _); simpl; [|done|done]. by rewrite step_index.
Qed.

Lemma updates_refine c0 c s es :
  ctx_rel c0 c s ->
  match collect update_entry es c, collect spec_entry es s with
  | Ok (c', es'), Ok (s', es'') =>
      ctx_rel c0 c' s' /\ ctx_index c' = default (ctx_index c) (e_Index <$> last es) /\ es' = es''
      /\ map e_Index es' = map e_Index es
  | Err x, Err y => x = y
  | Panic, Panic => True
  | _, _ => False
  end.
Proof using L H.
  revert c s. induction es as [|e es IH]; intros c s Hrel; [done|]. simpl.
  pose proof (update_entry_refines c0 c s e Hrel) as He.
  assert (forall c' e', update_entry c e = Ok (c', e') -> e_Index e' = e_Index e) as Hidx.
  { intros c' e'. unfold update_entry. intros ([? ?] & _ & ([? [? ?]] & _ & (? & _ & [= _ <-])%bind_Ok_inv)%bind_Ok_inv)%bind_Ok_inv. done. }
  destruct (update_entry c e) as [[c1 e1]|x|], (spec_entry s e) as [[s1 e2]|y|]; simpl; try done.
  destruct He as (Hrel1 & Hi & <-). specialize (IH c1 s1 Hrel1). specialize (Hidx c1 e1 eq_refl).
  destruct (collect update_entry es c1) as [[c2 es1]|x|], (collect spec_entry es s1) as [[s2 es2]|y|]; simpl; try done.
  destruct IH as (Hrel2 & Hi2 & <- & Hmap). split; [done|]. split; [|split; [done|by rewrite Hidx, Hmap]].
  rewrite Hi2, Hi. rewrite last_cons. by destruct (last es).
Qed.

Lemma Commit_spec c :
  exists db, Commit c = Ok db /\
    db_view db = apply_op (match ctx_leaderIndex c with
                           | Some l => apply_op (cur c) (BSet sysLeaderIndex (PutUint64 l))
                           | None => cur c
                           end) (BSet sysLocalIndex (PutUint64 (ctx_index c))).
Proof using L H.
  unfold Commit.
  assert (exists b, match ctx_leaderIndex c with
                    | Some l => batch_Set (ctx_batch c) sysLeaderIndex (PutUint64 l)
                    | None => Ok (ctx_batch c) end = Ok b
    /\ batch_log b = batch_log (ctx_batch c) ++ match ctx_leaderIndex c with
                    | Some l => [BSet sysLeaderIndex (PutUint64 l)] | None => [] end) as (b & -> & Hb).
  { destruct (ctx_leaderIndex c) as [l|]; [|exists (ctx_batch c); by rewrite app_nil_r].
    destruct (batch_Set_ok (ctx_batch c) sysLeaderIndex (PutUint64 l)) as [b Hb]. exists b.
    split; [done|]. by apply batch_Set_spec in Hb as [? _]. }
  simpl. destruct (batch_Set_ok b sysLocalIndex (PutUint64 (ctx_index c))) as [b' Hb'].
  rewrite Hb'. simpl. apply batch_Set_spec in Hb' as [Hl _].
  destruct (batch_Commit_ok (ctx_db c) b') as [db Hdb]. exists db. split; [done|].
  rewrite (batch_Commit_spec _ _ _ Hdb), Hl, apply_ops_app, Hb, apply_ops_app. fold (cur c).
  by destruct (ctx_leaderIndex c).
Qed.

Lemma index_at_set m sys i :
  is_uint64 i -> index_at (apply_op m (BSet sys (PutUint64 i))) sys = Ok i.
Proof. intros. unfold index_at. simpl. rewrite lookup_insert_eq. by apply Uint64_PutUint64. Qed.

Lemma index_at_set_ne m sys sys' v :
  sys <> sys' -> index_at (apply_op m (BSet sys' v)) sys = index_at m sys.
Proof. intros. unfold index_at. simpl. by rewrite lookup_insert_ne. Qed.

Lemma Update_spec p st es :
  represents (db_view (fsm_pebble p)) st -> Forall (fun e => is_uint64 (e_Index e)) es ->
  match spec_update st es with
  | Ok (st', es') => exists p', Update p es = Ok (p', es')
      /\ represents (db_view (fsm_pebble p')) st' /\ fsm_applied p' = t_index st'
      /\ fsm_tableName p' = fsm_tableName p
  | Err x => Update p es = Err x
  | Panic => Update p es = Panic
  end.
Proof using L H.
  intros [Hkv Hwf Hidx Hlead] Hes. unfold Update, spec_update.
  set (c0 := mkContext (NewBatch (fsm_pebble p)) (fsm_pebble p) 0 None).
  destruct (NewBatch_spec (fsm_pebble p)) as [_ Hlog].
  assert (cur c0 = db_view (fsm_pebble p)) as Hcur by (unfold cur; simpl; by rewrite Hlog).
  assert (ctx_rel c0 c0 (t_kv st, None)) as Hrel.
  { unfold ctx_rel. rewrite Hcur. done. }
  pose proof (updates_refine c0 c0 _ es Hrel) as Hu.
  destruct (collect update_entry es c0) as [[c es1]|x|], (collect spec_entry es _) as [[[kv lead] es2]|y|];
    simpl in *; try done; [|by rewrite Hu].
  destruct Hu as ((Hkv' & Hwf' & Hl & Hlr & Hsys & Hdb) & Hi & <- & Hmap). simpl in *.
  destruct (Commit_spec c) as (db & -> & Hview). simpl. eexists. split; [done|].
  assert (is_uint64 (ctx_index c)) as Hiu.
  { rewrite Hi. destruct (last es) as [e|] eqn:El; simpl; [|done].
    rewrite Forall_forall in Hes. apply Hes. apply last_Some in El as [l' ->]. apply elem_of_app. right. by left. }
  assert (default 0 (e_Index <$> last es1) = default 0 (e_Index <$> last es)) as Hlast.
  { change (map e_Index es1) with (e_Index <$> es1) in Hmap. by rewrite <- !fmap_last, Hmap. }
  simpl. rewrite Hlast. split; [|done]. rewrite Hview, <- Hl, Hi.
  assert (index_at (cur c) sysLeaderIndex = Ok (t_leader st)) as Hcl.
  { unfold index_at. rewrite Hsys, Hcur by auto. exact Hlead. }
  rewrite Hi in Hiu. split; cbn [t_kv t_index t_leader].
  - rewrite user_view_sys by auto. destruct (ctx_leaderIndex c); [rewrite user_view_sys by auto|]; done.
  - apply sys_set_wf; [auto|]. destruct (ctx_leaderIndex c); [apply sys_set_wf; auto|done].
  - by apply index_at_set.
  - rewrite index_at_set_ne by (symmetry; apply sys_distinct).
    destruct (ctx_leaderIndex c) as [l|]; [apply index_at_set; auto|done].
Qed.
End Update.

(** ** Batches of entries *)

Lemma collect_app {S A B} (f : S -> A -> res (S * B)) l1 l2 s :
  collect f (l1 ++ l2) s = '(s1, r1) ← collect f l1 s; '(s2, r2) ← collect f l2 s1; Ok (s2, r1 ++ r2).
Proof.
  revert s. induction l1 as [|a l1 IH]; intros s; simpl.
  - by destruct (collect f l2 s) as [[]| |].
  - destruct (f s a) as [[s1 r]| |]; simpl; [|done|done]. rewrite IH.
    destruct (collect f l1 s1) as [[s2 rs]| |]; simpl; [|done|done].
    by destruct (collect f l2 s2) as [[]| |].
Qed.

(** The leader index that the last command of a batch carries. *)
Definition last_leader (es : list Entry) : option Z :=
  match last es with
  | Some e => match Command_UnmarshalVT (e_Cmd e) Command_zero with Ok c => cmd_LeaderIndex c | _ => None end
  | None => None
  end.

(** The accumulated leader index is not read by the entries that follow. *)
Lemma collect_spec_leader es kv l l' :
  es <> [] -> collect spec_entry es (kv, l) = collect spec_entry es (kv, l').
Proof. destruct es as [|e es]; [done|]. by intros _. Qed.

Lemma collect_last_leader es s s' es' :
  es <> [] -> collect spec_entry es s = Ok (s', es') -> s'.2 = last_leader es.
Proof.
  revert s es'. induction es as [|e es IH]; intros s es' Hne; [done|]. simpl.
  intros ([s1 e1] & He & ([s2 es2] & Hes & [= <- <-])%bind_Ok_inv)%bind_Ok_inv.
  destruct es as [|e2 es3].
  - simpl in Hes. injection Hes as <- <-. unfold last_leader. simpl. unfold spec_entry in He.
    apply bind_Ok_inv in He as (cmd & -> & ([kv [ok rs]] & _ & (data & _ & [= <- _])%bind_Ok_inv)%bind_Ok_inv).
    done.
  - rewrite (IH s1 es2) by done. unfold last_leader. by rewrite last_cons_cons.
Qed.

Lemma spec_update_app st es1 es2 st1 r1 st2 r2 :
  es1 <> [] -> es2 <> [] -> (last_leader es1 = None \/ last_leader es2 <> None) ->
  spec_update st es1 = Ok (st1, r1) -> spec_update st1 es2 = Ok (st2, r2) ->
  spec_update st (es1 ++ es2) = Ok (st2, r1 ++ r2).
Proof.
  intros Hne1 Hne2 Hl. unfold spec_update. rewrite collect_app.
  intros ([[kv1 l1] e1] & H1 & [= <- <-])%bind_Ok_inv. simpl.
  intros ([[kv2 l2] e2] & H2 & [= <- <-])%bind_Ok_inv. rewrite H1. simpl.
  rewrite (collect_spec_leader _ _ _ None), H2 by done. simpl. rewrite last_app.
  apply collect_last_leader in H1, H2; [|done..]. simpl in H1, H2. subst.
  destruct (last es2) as [e|] eqn:El; [|by apply last_None in El].
  do 3 f_equal. destruct (last_leader es2); [done|]. destruct Hl as [->|?]; done.
Qed.

(** ** Reads *)

Lemma index_response {P : PebbleOps} {L : PebbleLaws P} (p : FSM) st :
  represents (db_view (fsm_pebble p)) st ->
  readLocalIndex (read_db (fsm_pebble p)) sysLocalIndex = Ok (t_index st)
  /\ readLocalIndex (read_db (fsm_pebble p)) sysLeaderIndex = Ok (t_leader st).
Proof.
  intros [_ _ Hi Hl]. by rewrite !(readLocalIndex_spec _ _ (view_db _)).
Qed.

Definition is_range (op : RequestOp.t) : bool := bool_decide (is_Some (GetRequestRange op)).

Lemma readonly_ops {P : PebbleOps} {L : PebbleLaws P} db m ops :
  view (read_db db) = Some m -> table_wf m -> forallb is_range ops = true ->
  exists rs, txn_lookups (read_db db) (map GetRequestRange ops) = Ok rs
    /\ spec_steps spec_op ops (user_view m) = Ok (user_view m, rs).
Proof.
  intros Hv Hwf. induction ops as [|op ops IH]; intros Hops; [by exists []|].
  simpl in Hops. apply andb_true_iff in Hops as [Hop Hops]. destruct (IH Hops) as (rs & Hrs & Hspec).
  apply bool_decide_eq_true in Hop as [r Hr].
  assert (spec_op (user_view m) op
          = Ok (user_view m, [ResponseOp.mk (Some (ResponseOp.ResponseRange (spec_lookup (user_view m) r))) []])) as Hs.
  { unfold spec_op. unfold GetRequestRange in Hr. destruct (RequestOp.ro_Request op) as [[]|]; by simplify_eq. }
  cbn [map txn_lookups spec_steps]. rewrite Hr, (fsm_lookup_spec _ m) by done. rewrite Hs.
  cbn [mbind res_bind]. rewrite Hrs, Hspec. by eexists.
Qed.

(** ** Claims *)

(** An empty table and entries for it. *)
Definition empty_fsm : FSM (P := mem_pebble) := mkFSM (P := mem_pebble) ∅ 0 (str "t") (str "/data").
Definition empty_state : tstate := mkTState ∅ 0 0.
Definition entry (i : Z) (c : Command) : Entry := mkEntry i (Command_Marshal c) 0 [].
Definition put_cmd (k v : bytes) (leader : option Z) (prev : bool) : Command :=
  mkCommand (str "t") Command_PUT (Some (mkKeyValue k 0 0 v [])) leader [] None None prev [] false [].
Definition delete_cmd (k : bytes) (re : option bytes) (prev count : bool) : Command :=
  mkCommand (str "t") Command_DELETE (Some (mkKeyValue k 0 0 [] [])) None [] None re prev [] count [].

Lemma empty_represents : represents (db_view (PebbleLaws := mem_pebble_laws) (fsm_pebble empty_fsm)) empty_state.
Proof. by split. Defined.

Definition sample_entries : list Entry :=
  [entry 1 (put_cmd (str "a") (str "1") None false); entry 2 (put_cmd (str "b") (str "2") (Some 9) false);
   entry 3 (delete_cmd (str "a") (Some wildcard) true true)].

(** C7. Every command handler implements its specification: run in an update
    context over any batch, it changes the user map, answers, and panics as
    [spec_command] says, keeps the store well formed and the index keys
    untouched, whatever part of the map is in the batch and not yet in the
    store. *)
Theorem command_refines {P : PebbleOps} {L : PebbleLaws P} {H : PebbleHealthy P} ctx cmd :
  table_wf (cur ctx) ->
  match handle ctx cmd, spec_command (user_view (cur ctx)) cmd with
  | Ok (ctx', (ur, r)), Ok (kv', (ok, rs)) =>
      user_view (cur ctx') = kv' /\ table_wf (cur ctx')
      /\ cur ctx' !! sysLocalIndex = cur ctx !! sysLocalIndex
      /\ cur ctx' !! sysLeaderIndex = cur ctx !! sysLeaderIndex
      /\ ur = (if ok then ResultSuccess else ResultFailure)
      /\ r = mkCommandResult rs (ctx_index ctx) []
  | Panic, Panic => True
  | _, _ => False
  end.
Proof.
  intros Hwf. pose proof (handle_refines cmd ctx Hwf) as Hr.
  destruct (handle ctx cmd) as [[ctx' [ur r]]|e|], (spec_command _ cmd) as [[kv' [ok rs]]|e'|]; try done.
  destruct Hr as ([] & ? & [= -> ->]). repeat split; auto.
Qed.

Lemma command_refines_witness :
  let ctx := mkContext (P := mem_pebble) (mkMemBatch false [BSet (enc TypeUser (str "a")) (str "1")]) ∅ 5 None in
  match handle ctx (delete_cmd (str "a") None true true),
        spec_command (user_view (cur (L := mem_pebble_laws) ctx)) (delete_cmd (str "a") None true true) with
  | Ok (ctx', (ur, r)), Ok (kv', (ok, rs)) =>
      user_view (cur (L := mem_pebble_laws) ctx') = kv' /\ table_wf (cur (L := mem_pebble_laws) ctx')
      /\ cur (L := mem_pebble_laws) ctx' !! sysLocalIndex = cur (L := mem_pebble_laws) ctx !! sysLocalIndex
      /\ cur (L := mem_pebble_laws) ctx' !! sysLeaderIndex = cur (L := mem_pebble_laws) ctx !! sysLeaderIndex
      /\ ur = (if ok then ResultSuccess else ResultFailure)
      /\ r = mkCommandResult rs (ctx_index ctx) []
  | Panic, Panic => True
  | _, _ => False
  end.
Proof.
  intros ctx. apply (command_refines (H := mem_pebble_healthy) ctx (delete_cmd (str "a") None true true)).
  intros k v Hk. left. exists (str "a").
  assert (cur (L := mem_pebble_laws) ctx = {[ enc TypeUser (str "a") := str "1" ]}) as E by reflexivity.
  rewrite E in Hk. by apply lookup_singleton_Some in Hk as [<- _].
Defined.

(** C1. [FSM.Update] implements the abstract table: from a store that
    represents a state it returns the entries with the results that the
    specification gives, in a store that represents the specified state, with
    the applied index; it fails only on an undecodable command, with that
    error, and panics only where the specification does. *)
Theorem Update_refines {P : PebbleOps} {L : PebbleLaws P} {H : PebbleHealthy P} p st es :
  represents (db_view (fsm_pebble p)) st -> Forall (fun e => is_uint64 (e_Index e)) es ->
  match spec_update st es with
  | Ok (st', es') => exists p', Update p es = Ok (p', es')
      /\ represents (db_view (fsm_pebble p')) st' /\ fsm_applied p' = t_index st'
      /\ fsm_tableName p' = fsm_tableName p
  | Err x => Update p es = Err x
  | Panic => Update p es = Panic
  end.
Proof. apply Update_spec. Qed.

Lemma Update_refines_witness :
  match spec_update empty_state sample_entries with
  | Ok (st', es') => exists p', Update empty_fsm sample_entries = Ok (p', es')
      /\ represents (db_view (PebbleLaws := mem_pebble_laws) (fsm_pebble p')) st' /\ fsm_applied p' = t_index st'
      /\ fsm_tableName p' = fsm_tableName empty_fsm
  | Err x => Update empty_fsm sample_entries = Err x
  | Panic => Update empty_fsm sample_entries = Panic
  end.
Proof.
  apply (Update_refines (H := mem_pebble_healthy) empty_fsm empty_state sample_entries);
    [exact empty_represents|]. by repeat constructor.
Defined.

(** C10. Replicas agree: two replicas, on whatever storage engines, that
    represent the same table and apply the same batch return the same results
    and represent the same table again, or fail in the same way. *)
Theorem replicas_agree {P1 P2 : PebbleOps} {L1 : PebbleLaws P1} {L2 : PebbleLaws P2}
    {H1 : PebbleHealthy P1} {H2 : PebbleHealthy P2} (p1 : FSM (P := P1)) (p2 : FSM (P := P2)) st es :
  represents (db_view (fsm_pebble p1)) st -> represents (db_view (fsm_pebble p2)) st ->
  Forall (fun e => is_uint64 (e_Index e)) es ->
  match Update p1 es, Update p2 es with
  | Ok (p1', es1), Ok (p2', es2) => es1 = es2 /\ exists st',
      represents (db_view (fsm_pebble p1')) st' /\ represents (db_view (fsm_pebble p2')) st'
  | Err e1, Err e2 => e1 = e2
  | Panic, Panic => True
  | _, _ => False
  end.
Proof.
  intros Hr1 Hr2 Hes. pose proof (Update_spec p1 st es Hr1 Hes) as U1.
  pose proof (Update_spec p2 st es Hr2 Hes) as U2.
  destruct (spec_update st es) as [[st' es']|e|]; [|by rewrite U1, U2|by rewrite U1, U2].
  destruct U1 as (p1' & -> & ? & _), U2 as (p2' & -> & ? & _). eauto.
Qed.

Lemma replicas_agree_witness :
  match Update empty_fsm sample_entries, Update empty_fsm sample_entries with
  | Ok (p1', es1), Ok (p2', es2) => es1 = es2 /\ exists st',
      represents (db_view (PebbleLaws := mem_pebble_laws) (fsm_pebble p1')) st'
      /\ represents (db_view (PebbleLaws := mem_pebble_laws) (fsm_pebble p2')) st'
  | Err e1, Err e2 => e1 = e2
  | Panic, Panic => True
  | _, _ => False
  end.
Proof.
  apply (replicas_agree (H1 := mem_pebble_healthy) (H2 := mem_pebble_healthy) empty_fsm empty_fsm empty_state
    sample_entries); [exact empty_represents|exact empty_represents|]. by repeat constructor.
Defined.

(** C23. How the log is cut into batches does not matter, as long as a batch
    that ends in a command with a leader index is not extended by one that
    ends in a command without: the results are the same and so is the table. *)
Theorem Update_batching {P : PebbleOps} {L : PebbleLaws P} {H : PebbleHealthy P} p st es1 es2 p1 r1 p2 r2 :
  represents (db_view (fsm_pebble p)) st ->
  Forall (fun e => is_uint64 (e_Index e)) (es1 ++ es2) -> es1 <> [] -> es2 <> [] ->
  (last_leader es1 = None \/ last_leader es2 <> None) ->
  Update p es1 = Ok (p1, r1) -> Update p1 es2 = Ok (p2, r2) ->
  exists p' st', Update p (es1 ++ es2) = Ok (p', r1 ++ r2)
    /\ represents (db_view (fsm_pebble p2)) st' /\ represents (db_view (fsm_pebble p')) st'.
Proof.
  intros Hr Hes Hne1 Hne2 Hl U1 U2. apply Forall_app in Hes as Hes12. destruct Hes12 as [Hes1 Hes2].
  pose proof (Update_spec p st es1 Hr Hes1) as S1.
  destruct (spec_update st es1) as [[st1 q1]|e|] eqn:E1; [|congruence|congruence].
  destruct S1 as (p1' & U1' & Hr1 & _). rewrite U1 in U1'. injection U1' as <- <-.
  pose proof (Update_spec p1 st1 es2 Hr1 Hes2) as S2.
  destruct (spec_update st1 es2) as [[st2 q2]|e|] eqn:E2; [|congruence|congruence].
  destruct S2 as (p2' & U2' & Hr2 & _). rewrite U2 in U2'. injection U2' as <- <-.
  pose proof (Update_spec p st (es1 ++ es2) Hr Hes) as S.
  rewrite (spec_update_app st es1 es2 st1 r1 st2 r2) in S by done.
  destruct S as (p' & ? & ? & _). eauto.
Qed.

Lemma Update_batching_witness :
  let es1 := [entry 1 (put_cmd (str "a") (str "1") None false)] in
  let es2 := [entry 2 (put_cmd (str "b") (str "2") (Some 9) false)] in
  exists p1 r1 p2 r2 p' st',
    Update empty_fsm es1 = Ok (p1, r1) /\ Update p1 es2 = Ok (p2, r2)
    /\ Update empty_fsm (es1 ++ es2) = Ok (p', r1 ++ r2)
    /\ represents (db_view (PebbleLaws := mem_pebble_laws) (fsm_pebble p2)) st'
    /\ represents (db_view (PebbleLaws := mem_pebble_laws) (fsm_pebble p')) st'.
Proof.
  intros es1 es2.
  assert (match Update empty_fsm es1 with Ok (p1, _) => succeeds (Update p1 es2) | _ => false end = true) as Hs
    by (vm_compute; reflexivity).
  destruct (Update empty_fsm es1) as [[p1 r1]| |] eqn:E1; [|discriminate Hs..].
  destruct (Update p1 es2) as [[p2 r2]| |] eqn:E2; [|discriminate Hs..].
  destruct (Update_batching (H := mem_pebble_healthy) empty_fsm empty_state es1 es2 p1 r1 p2 r2)
    as (p' & st' & HU & HR & HR');
    [exact empty_represents|by repeat constructor|discriminate|discriminate|left; reflexivity|exact E1|exact E2|].
  exists p1, r1, p2, r2, p', st'. exact (conj eq_refl (conj E2 (conj HU (conj HR HR')))).
Defined.

(** A replica that restarts continues where it stopped: after a batch the
    index that [Open] reads back from the store is that of the last entry. *)
Theorem open_after_update {P : PebbleOps} {L : PebbleLaws P} {H : PebbleHealthy P} p st es e p' es' :
  represents (db_view (fsm_pebble p)) st -> Forall (fun e => is_uint64 (e_Index e)) (es ++ [e]) ->
  Update p (es ++ [e]) = Ok (p', es') ->
  open_index (fsm_pebble p') = Ok (e_Index e) /\ fsm_applied p' = e_Index e.
Proof.
  intros Hr Hes U. pose proof (Update_spec p st (es ++ [e]) Hr Hes) as S.
  destruct (spec_update st (es ++ [e])) as [[st' q]|x|] eqn:E; [|congruence|congruence].
  destruct S as (p2 & U' & Hr' & Happ & _). rewrite U in U'. injection U' as <- <-.
  unfold spec_update in E. apply bind_Ok_inv in E as ([[kv l] q'] & _ & [= <- _]).
  rewrite last_snoc in *. split; [|done]. by apply index_response in Hr' as [? _].
Qed.

Lemma open_after_update_witness :
  exists p' es', Update empty_fsm [entry 4 (put_cmd (str "a") (str "1") None false)] = Ok (p', es')
    /\ open_index (fsm_pebble p') = Ok 4 /\ fsm_applied p' = 4.
Proof.
  set (e := entry 4 (put_cmd (str "a") (str "1") None false)).
  assert (succeeds (Update empty_fsm [e]) = true) as Hs by (vm_compute; reflexivity).
  destruct (Update empty_fsm [e]) as [[p' es']| |] eqn:E; [|discriminate Hs..].
  exists p', es'. split; [reflexivity|].
  apply (open_after_update (L := mem_pebble_laws) (H := mem_pebble_healthy) empty_fsm empty_state [] e p' es');
    [exact empty_represents|by repeat constructor|exact E].
Defined.

(** C31. Serving a read-only transaction from a snapshot is the same as
    proposing it: the lookup answers what the transaction command would, and
    the command would not change the table. *)
Theorem readonly_txn_agrees {P : PebbleOps} {L : PebbleLaws P} {W} (Write : W -> bytes -> res W) p st req :
  represents (db_view (fsm_pebble p)) st ->
  forallb is_range (txr_Success req) = true -> forallb is_range (txr_Failure req) = true ->
  exists ok rs,
    Lookup Write p (LTxn req) = Ok (LTxnResponse (mkTxnResponse None ok rs))
    /\ spec_txn (t_kv st) (mkTxn (txr_Compare req) (txr_Success req) (txr_Failure req) [])
       = Ok (t_kv st, (ok, rs)).
Proof.
  intros [<- Hwf _ _] Hs Hf. pose proof (view_db (fsm_pebble p)) as Hv. simpl.
  rewrite (txnCompare_spec _ _ _ Hv Hwf). cbn [mbind res_bind]. unfold spec_txn. simpl.
  set (ok := forallb _ _). exists ok.
  destruct (readonly_ops (fsm_pebble p) _ (if ok then txr_Success req else txr_Failure req) Hv Hwf)
    as (rs & -> & ->); [by destruct ok|]. by exists rs.
Qed.

Lemma readonly_txn_agrees_witness :
  let req := mkTxnRequest (str "t") [mkCompare Compare_EQUAL Compare_VALUE (str "a") None None []]
    [RequestOp.mk (Some (RequestOp.RequestRange (RequestOp.mkRange (str "a") None 0 false false []))) []] [] in
  exists ok rs,
    Lookup (fun w b => Ok (w ++ b)) empty_fsm (LTxn req) = Ok (LTxnResponse (mkTxnResponse None ok rs))
    /\ spec_txn (t_kv empty_state) (mkTxn (txr_Compare req) (txr_Success req) (txr_Failure req) [])
       = Ok (t_kv empty_state, (ok, rs)).
Proof.
  intros req. apply (readonly_txn_agrees (L := mem_pebble_laws) _ empty_fsm empty_state req);
    [exact empty_represents|reflexivity|reflexivity].
Defined.

(** ** Behaviours worth knowing *)

(** A batch whose last command has no leader index forgets the leader index
    of the command before it; applied one by one, the same entries keep it. *)
Example leader_index_depends_on_batching :
  let e1 := entry 1 (put_cmd (str "a") (str "1") (Some 9) false) in
  let e2 := entry 2 (put_cmd (str "b") (str "2") None false) in
  let leader (r : res (FSM (P := mem_pebble) * list Entry)) :=
    '(p, _) ← r; readLocalIndex (read_db (fsm_pebble p)) sysLeaderIndex in
  leader (Update empty_fsm [e1; e2]) = Ok 0
  /\ leader ('(p, _) ← Update empty_fsm [e1]; Update p [e2]) = Ok 9.
Proof. split; vm_compute; reflexivity. Qed.

(** Asking for the previous value of a key that is not there crashes the
    state machine. *)
Example put_prev_kv_of_missing_key_panics :
  panics (Update empty_fsm [entry 1 (put_cmd (str "a") (str "1") None true)]) = true.
Proof. vm_compute. reflexivity. Qed.

(** Deleting a key that is not there, with a count, reports one deleted key. *)
Example delete_of_missing_key_counts_one :
  spec_command ∅ (delete_cmd (str "a") None false true)
  = Ok (∅, (true, [delete_response (ResponseOp.mkDeleteRange 1 [] [])])).
Proof. vm_compute. reflexivity. Qed.
