(* ===== verification/Snapshot.v ===== *)
(** * Table snapshots: the stream, the file and the restore

    A table is copied as a stream of [PUT] commands ([commandSnapshot] of
    [Query]), framed in a snapshot file ([replication/snapshot/snapshot.go]),
    closed by a [DUMMY] command that carries the leader index
    ([SnapshotServer.Stream] of [regattaserver/replication.go]) and proposed
    in batches to an empty table ([Manager.readIntoTable] of
    [storage/table/manager.go]).

    Snappy is a library that gives back the bytes it was given; the model of
    the file is the uncompressed stream. *)

From S2P Require Import Prelude Key Wire Proto Codec Pebble.
From S2P Require Import Query Command Fsm TableSpec QueryCorrect CommandCorrect FsmCorrect.

(** ** Snapshot file *)

(** [snapshotFile.Write]: the file with the record appended. *)
Definition sf_Write (file p : bytes) : bytes :=
  if len p =? 0 then file else file ++ PutUint64 (uint64 (len p)) ++ p.

(** [io.ReadFull] of [n] bytes: [io.EOF] when there is nothing to read. *)
Definition ReadFull (file : bytes) (n : Z) : res (bytes * bytes) :=
  if n <=? 0 then Ok ([], file)
  else if len file =? 0 then Err ErrEOF
  else if len file <? n then Err ErrUnexpectedEOF
  else Ok (take (Z.to_nat n) file, drop (Z.to_nat n) file).

(** [snapshotFile.Read] into a buffer of [cap] bytes: the record and the rest
    of the file.  Slicing the buffer beyond its capacity panics. *)
Definition sf_Read (file : bytes) (cap : Z) : res (bytes * bytes) :=
  '(buf, file) ← ReadFull file 8;
  size ← Uint64 buf;
  if cap <? size then Panic else
  ReadFull file size.

(** ** Restore ([Manager.readIntoTable]) *)

Definition msgCap : Z := 1024 * 1024 * 4.

Definition batch_of (table : bytes) (leader : option Z) (batch : list (option KeyValue)) : Command :=
  mkCommand table Command_PUT_BATCH None leader batch None None false [] false [].

(** The state of the loop: [batchCmd] and [estimatedSize]. *)
Record restore_state := mkRestore {
  rs_table : bytes;
  rs_leader : option Z;
  rs_batch : list (option KeyValue);
  rs_size : Z
}.
Definition restore_init : restore_state := mkRestore [] None [] 0.

(** The loop; [fuel] bounds the records of the file, of which there are no
    more than bytes.  The result is the sequence of proposals, each made until
    it is accepted. *)
Fixpoint readIntoTable_go (fuel : nat) (maxInMemLogSize : Z) (file : bytes) (s : restore_state)
    : res (list bytes) :=
  match fuel with
  | O => Err ErrOutOfFuel
  | S fuel' =>
      match sf_Read file msgCap with
      | Ok (msg, file) =>
          let estimatedSize := rs_size s + len msg in
          cmd ← Command_UnmarshalVT msg Command_zero;
          if uint64 estimatedSize <? maxInMemLogSize / 2 then
            readIntoTable_go fuel' maxInMemLogSize file
              (mkRestore (cmd_Table cmd) (cmd_LeaderIndex cmd) (rs_batch s ++ [cmd_Kv cmd]) estimatedSize)
          else
            bb ← Command_MarshalVT (batch_of (cmd_Table cmd) (cmd_LeaderIndex cmd) (rs_batch s));
            rest ← readIntoTable_go fuel' maxInMemLogSize file (mkRestore (cmd_Table cmd) None [] 0);
            Ok (bb :: rest)
      | Err e =>
          if decide (e = ErrEOF) then
            bb ← Command_MarshalVT (batch_of (rs_table s) (rs_leader s) (rs_batch s));
            Ok [bb]
          else Err e
      | Panic => Panic
      end
  end.
Definition readIntoTable (maxInMemLogSize : Z) (file : bytes) : res (list bytes) :=
  readIntoTable_go (S (length file)) maxInMemLogSize file restore_init.

(** ** Stream ([SnapshotServer.Stream]) *)

(** The command that closes the file. *)
Definition final_command (table : bytes) (index : Z) : Command :=
  mkCommand table Command_DUMMY None (Some index) [] None None false [] false [].

Section Stream.
Context {P : PebbleOps}.

(** The snapshot file that is sent for a table. *)
Definition snapshot_file (p : FSM) (table : bytes) (stopc : nat -> bool) : res bytes :=
  r ← Lookup (fun f b => Ok (sf_Write f b)) p (LSnapshot [] stopc);
  match r with
  | LSnapshotResponse index file =>
      final ← Command_MarshalVT (final_command table index);
      Ok (sf_Write file final)
  | _ => Panic
  end.
End Stream.

(** ** Framing *)

Lemma PutUint64_len z : len (PutUint64 z) = 8.
Proof. unfold len, PutUint64. by rewrite le_bytes_length. Qed.

Lemma ReadFull_app a b : a <> [] -> ReadFull (a ++ b) (len a) = Ok (a, b).
Proof.
  intros Ha. unfold ReadFull. pose proof (len_nonneg b). rewrite len_app.
  assert (0 < len a) by (destruct a; [done|]; rewrite len_cons; pose proof (len_nonneg a); lia).
  rewrite (proj2 (Z.leb_gt _ _)), (proj2 (Z.eqb_neq _ _)), (proj2 (Z.ltb_ge _ _)) by lia.
  unfold len. by rewrite Nat2Z.id, take_app_length, drop_app_length.
Qed.

Definition frame (p : bytes) : bytes := PutUint64 (len p) ++ p.

Lemma sf_Write_frame file p : p <> [] -> len p < 2 ^ 63 -> sf_Write file p = file ++ frame p.
Proof.
  intros Hp Hl. unfold sf_Write, frame. pose proof (len_nonneg p).
  assert (len p <> 0) by (destruct p; [done|]; rewrite len_cons; pose proof (len_nonneg p); lia).
  rewrite (proj2 (Z.eqb_neq _ _)) by done. rewrite uint64_id; [done|]. unfold is_uint64. lia.
Qed.

Lemma sf_Read_frame p rest cap :
  p <> [] -> len p <= cap -> len p < 2 ^ 63 -> sf_Read (frame p ++ rest) cap = Ok (p, rest).
Proof.
  intros Hp Hc Hl. unfold sf_Read, frame. rewrite <- app_assoc, <- (PutUint64_len (len p)).
  pose proof (len_nonneg p). rewrite ReadFull_app by done. cbn [mbind res_bind].
  rewrite Uint64_PutUint64 by (unfold is_uint64; lia). cbn [mbind res_bind].
  rewrite (proj2 (Z.ltb_ge _ _)) by done. by apply ReadFull_app.
Qed.

Lemma sf_Read_nil cap : sf_Read [] cap = Err ErrEOF.
Proof. done. Qed.

(** ** The stream lists the user entries *)

(** Entries with an empty key are not streamed: the decoder of the stored key
    does not see their type. *)
Definition snapshot_entries (kv : kvmap) : list (bytes * bytes) :=
  filter (fun e => e.1 <> []) (sorted_entries kv).

Definition put_command (table : bytes) (e : bytes * bytes) : Command :=
  mkCommand table Command_PUT (Some (mkKeyValue e.1 0 0 e.2 [])) None [] None None false [] false [].

Definition streamed (e : bytes * bytes) : option (bytes * bytes) :=
  match user_key e.1 with
  | Some d => if decide (d = []) then None else Some (d, e.2)
  | None => None
  end.

Lemma streamed_entries m : omap streamed (sorted_entries m) = snapshot_entries (user_view m).
Proof.
  assert (forall x y, streamed x = Some y -> x = enc_entry y /\ y.1 <> []) as Hs.
  { intros [k v] [d w]. unfold streamed. simpl. destruct (user_key k) as [d'|] eqn:E; [|done].
    case_decide; [done|]. intros [= <- <-]. apply user_key_spec in E as ->. done. }
  apply (StronglySorted_ext entry_lt).
  - pose proof (sorted_entries_sorted m) as Hm. induction Hm as [|x l _ IH HF]; simpl; [constructor|].
    destruct (streamed x) as [y|] eqn:Ey; [|done]. constructor; [done|].
    rewrite Forall_forall in *. intros z (x' & Hx' & Ez)%list_elem_of_omap.
    apply Hs in Ey as [-> _], Ez as [-> _]. by apply HF, enc_lt in Hx'.
  - apply StronglySorted_filter, sorted_entries_sorted.
  - intros [d v]. unfold snapshot_entries.
    rewrite list_elem_of_filter, elem_of_sorted_entries, lookup_user_view, list_elem_of_omap. split.
    + intros ([k w] & Hk & [E Hd]%Hs). injection E as -> ->. by apply elem_of_sorted_entries in Hk.
    + intros [Hd Hv]. exists (enc TypeUser d, v). rewrite elem_of_sorted_entries. split; [done|].
      unfold streamed. simpl. rewrite (proj2 (user_key_spec _ d)) by done. by rewrite decide_False.
Qed.

Definition small_entry (table : bytes) (e : bytes * bytes) : Prop :=
  len table + len e.1 + len e.2 < 2 ^ 61.

Lemma put_command_size table e :
  small_entry table e -> 0 < Command_SizeVT (put_command table e) <= len table + len e.1 + len e.2 + 44.
Proof.
  intros He. unfold small_entry in He. pose proof (len_nonneg table). pose proof (len_nonneg e.1).
  pose proof (len_nonneg e.2). unfold put_command. cbn [Command_SizeVT embedded_size optional_varint_size optional_size repeated_size foldr bool_size].
  change (scalar_size Command_PUT) with 0. change (len (@nil byte)) with 0. unfold delimited_size.
  pose proof (KeyValue_SizeVT_le e.1 e.2 ltac:(lia)) as [Hk1 Hk2].
  pose proof (nonempty_size_le table ltac:(lia)). pose proof (nonempty_size_ge table).
  pose proof (sov_le (KeyValue_SizeVT (mkKeyValue e.1 0 0 e.2 [])) 10).
  pose proof (sov_pos (KeyValue_SizeVT (mkKeyValue e.1 0 0 e.2 []))). lia.
Qed.

Lemma writeCommand_eq table e :
  small_entry table e ->
  writeCommand table e.1 e.2 = Ok (Command_Marshal (put_command table e)).
Proof.
  intros He. pose proof (put_command_size table e He). unfold small_entry in He.
  apply Command_MarshalVT_exact. fold (put_command table e). lia.
Qed.

Lemma streamed_user d v :
  streamed (enc TypeUser d, v) = if decide (d = []) then None else Some (d, v).
Proof. unfold streamed. by rewrite (proj2 (user_key_spec _ d)). Qed.

Lemma omap_streamed_cons e l :
  omap streamed (e :: l) = match streamed e with Some y => y :: omap streamed l | None => omap streamed l end.
Proof. done. Qed.

Section Stream_correct.
Context {P : PebbleOps} {L : PebbleLaws P} {W : Type} (Write : W -> bytes -> res W).

Lemma commandSnapshot_go_streamed table entries n w :
  (forall k v, (k, v) ∈ entries -> (exists d, k = enc TypeUser d) \/ k = sysLocalIndex \/ k = sysLeaderIndex) ->
  Forall (small_entry table) (omap streamed entries) ->
  commandSnapshot_go Write table (fun _ => false) n entries w
  = res_fold Write (map (fun e => Command_Marshal (put_command table e)) (omap streamed entries)) w.
Proof.
  revert n w. induction entries as [|[k v] entries IH]; intros n w Hk Hsm; [done|].
  assert (forall w, commandSnapshot_go Write table (fun _ => false) (S n) entries w
     = res_fold Write (map (fun e => Command_Marshal (put_command table e)) (omap streamed entries)) w) as IH'.
  { intros w'. apply IH; [intros; eapply Hk; right; done|].
    rewrite omap_streamed_cons in Hsm. destruct (streamed (k, v)); [by inversion Hsm|done]. }
  cbn [commandSnapshot_go]. rewrite omap_streamed_cons in *. destruct (Hk k v ltac:(left)) as [[d ->]|Hsys].
  - rewrite streamed_user in *. destruct d as [|b d].
    + rewrite DecodeBytes_enc_nil. apply IH'.
    + rewrite DecodeBytes_enc by done. rewrite decide_False in Hsm |- * by done.
      cbn [mbind res_bind KeyType Key_]. rewrite decide_True by done. inversion Hsm as [|?? He _]; subst.
      change (writeCommand table (b :: d) v) with (writeCommand table (b :: d, v).1 (b :: d, v).2).
      rewrite writeCommand_eq by done. cbn [mbind res_bind map res_fold].
      destruct (Write w _); [apply IH'|done|done].
  - assert (streamed (k, v) = None) as ->.
    { unfold streamed. destruct (user_key (k, v).1) as [d|] eqn:E; [|done].
      apply user_key_spec in E. by apply sys_not_user in E. }
    assert (exists x, DecodeBytes k = Ok x /\ KeyType x <> TypeUser) as (x & -> & Hx).
    { destruct Hsys as [-> | ->]; eexists; split; try reflexivity; done. }
    cbn [mbind res_bind]. rewrite decide_False by done. apply IH'.
Qed.

Lemma commandSnapshot_spec r m table w :
  view r = Some m -> table_wf m -> Forall (small_entry table) (snapshot_entries (user_view m)) ->
  commandSnapshot Write r table w (fun _ => false)
  = (idx ← index_at m sysLocalIndex;
     w ← res_fold Write (map (fun e => Command_Marshal (put_command table e)) (snapshot_entries (user_view m))) w;
     Ok (idx, w)).
Proof using L.
  intros Hv Hwf Hsm. unfold commandSnapshot. rewrite (readLocalIndex_spec r m) by done.
  assert (NewIter r None = sorted_entries m) as ->.
  { apply (NewIter_unique r m); [done|apply sorted_entries_sorted|].
    intros k v. rewrite elem_of_sorted_entries. simpl. tauto. }
  rewrite <- streamed_entries in *. rewrite commandSnapshot_go_streamed; [done| |done].
  intros k v Hk%elem_of_sorted_entries. by apply Hwf in Hk.
Qed.
End Stream_correct.

#[local] Arguments Command_Marshal : simpl never.
#[local] Arguments Command_SizeVT : simpl never.

(** ** The restore loop on the commands of the file *)

Fixpoint restore_loop (max : Z) (cmds : list Command) (s : restore_state) : list Command :=
  match cmds with
  | [] => [batch_of (rs_table s) (rs_leader s) (rs_batch s)]
  | cmd :: cmds' =>
      let size := rs_size s + Command_SizeVT cmd in
      if uint64 size <? max / 2 then
        restore_loop max cmds' (mkRestore (cmd_Table cmd) (cmd_LeaderIndex cmd) (rs_batch s ++ [cmd_Kv cmd]) size)
      else batch_of (cmd_Table cmd) (cmd_LeaderIndex cmd) (rs_batch s)
           :: restore_loop max cmds' (mkRestore (cmd_Table cmd) None [] 0)
  end.

Definition restorable (c : Command) : Prop := Command_wf c /\ 0 < Command_SizeVT c <= msgCap.

Definition framed (cmds : list Command) : bytes := concat (map (fun c => frame (Command_Marshal c)) cmds).

Lemma restorable_marshal c :
  restorable c -> Command_Marshal c <> [] /\ len (Command_Marshal c) = Command_SizeVT c
                  /\ Command_UnmarshalVT (Command_Marshal c) Command_zero = Ok c.
Proof.
  intros [Hwf Hs]. unfold msgCap in Hs.
  assert (len (Command_Marshal c) = Command_SizeVT c) as Hl by (apply Command_Marshal_len; lia).
  split; [|split; [done|]].
  - intros E. rewrite E in Hl. change (len (@nil byte)) with 0 in Hl. lia.
  - apply Command_roundtrip_at; [done|]. unfold len in *. lia.
Qed.

Lemma readIntoTable_loop max cmds s fuel :
  Forall restorable cmds -> (length cmds < fuel)%nat ->
  readIntoTable_go fuel max (framed cmds) s = mapM Command_MarshalVT (restore_loop max cmds s).
Proof.
  intros Hc. revert s fuel. induction Hc as [|c cmds Hc _ IH]; intros s [|fuel] Hf; [simpl in Hf; lia| |simpl in Hf; lia|].
  { simpl. by destruct (Command_MarshalVT _). }
  destruct (restorable_marshal c Hc) as (Hne & Hlen & Hdec). destruct Hc as [_ Hs].
  cbn [readIntoTable_go]. unfold framed. cbn [map concat].
  rewrite sf_Read_frame; [|done|lia|unfold msgCap in *; lia]. fold (framed cmds).
  rewrite Hdec, Hlen. cbn [mbind res_bind restore_loop]. simpl in Hf.
  destruct (_ <? max / 2); [apply IH; lia|].
  cbn [mapM]. destruct (Command_MarshalVT _); simpl; [|done|done]. by rewrite IH by lia.
Qed.

Lemma framed_length cmds : Forall restorable cmds -> (length cmds <= length (framed cmds))%nat.
Proof.
  induction 1 as [|c cmds Hc _ IH]; [done|]. unfold framed. cbn [map concat length].
  rewrite length_app. fold (framed cmds). unfold frame. rewrite length_app.
  pose proof (PutUint64_len (len (Command_Marshal c))). unfold len in *. lia.
Qed.

(** The file of a table: the puts and the closing command. *)
Lemma file_framed table es file :
  Forall restorable (map (put_command table) es) ->
  res_fold (fun f b => Ok (sf_Write f b)) (map (fun e => Command_Marshal (put_command table e)) es) file
  = Ok (file ++ framed (map (put_command table) es)).
Proof.
  revert file. induction es as [|e es IH]; intros file Hr; simpl; [by rewrite app_nil_r|].
  inversion Hr as [|?? He Hes]; subst. destruct (restorable_marshal _ He) as (Hne & Hlen & _).
  destruct He as [_ Hs]. unfold msgCap in Hs.
  rewrite sf_Write_frame by (done || lia). rewrite IH by done. by rewrite <- app_assoc.
Qed.

Definition total_size (cmds : list Command) : Z := foldr (fun c n => Command_SizeVT c + n) 0 cmds.

(** Commands that together stay below the threshold make one batch. *)
Lemma restore_loop_small max cmds s :
  max < 2 ^ 60 -> Forall restorable cmds -> 0 <= rs_size s -> rs_size s + total_size cmds < max / 2 ->
  restore_loop max cmds s
  = [batch_of (default (rs_table s) (cmd_Table <$> last cmds))
       (match last cmds with Some c => cmd_LeaderIndex c | None => rs_leader s end)
       (rs_batch s ++ map cmd_Kv cmds)].
Proof.
  intros Hmax Hc. revert s. induction Hc as [|c cmds [_ Hs] Hcs IH]; intros s H0 Hsz; simpl in *.
  { by rewrite app_nil_r. }
  assert (0 <= total_size cmds) as Ht.
  { clear -Hcs. induction Hcs as [|c' cs [_ ?] _ ?]; simpl; lia. }
  assert (max / 2 <= 2 ^ 59) by (apply Z.div_le_upper_bound; lia).
  rewrite uint64_id by (unfold is_uint64; lia). rewrite (proj2 (Z.ltb_lt _ _)) by lia.
  rewrite IH; simpl; [|lia|lia]. rewrite <- app_assoc, last_cons. simpl. by destruct (last cmds).
Qed.

(** A nil element of a batch is written as an empty pair. *)
Lemma Command_Marshal_nil_kv table leader batch :
  Command_Marshal (batch_of table leader batch)
  = Command_Marshal (batch_of table leader (map (fun kv => Some (default KeyValue_zero kv)) batch)).
Proof.
  unfold batch_of, Command_Marshal.
  assert (forall d, put_repeated Byte.x32 KeyValue_ptr_Marshal batch d
    = put_repeated Byte.x32 KeyValue_ptr_Marshal (map (fun kv => Some (default KeyValue_zero kv)) batch) d) as E.
  { intros d. induction batch as [|kv batch IH]; [done|]. unfold put_repeated in *. simpl.
    rewrite IH. by destruct kv. }
  by rewrite E.
Qed.

(** The restored map. *)
Lemma foldl_insert_entries (es : list (bytes * bytes)) (m : kvmap) :
  NoDup es.*1 ->
  foldl (fun kv x => <[kv_Key x := kv_Value x]> kv) m (map (fun e => mkKeyValue e.1 0 0 e.2 []) es)
  = list_to_map es ∪ m.
Proof.
  revert m. induction es as [|[k v] es IH]; intros m Hnd; simpl; [by rewrite (left_id_L ∅ (∪))|].
  inversion Hnd as [|?? Hk Hes]; subst. rewrite IH by done.
  assert ((list_to_map es : kvmap) !! k = None) as Hn by (by apply not_elem_of_list_to_map).
  rewrite <- insert_union_r by done. by rewrite insert_union_l.
Qed.

Lemma sorted_NoDup (es : list (bytes * bytes)) : StronglySorted entry_lt es -> NoDup es.*1.
Proof.
  induction 1 as [|x es _ IH HF]; simpl; constructor; [|done].
  intros (y & E & Hy)%list_elem_of_fmap. rewrite Forall_forall in HF. specialize (HF y Hy).
  unfold entry_lt in HF. rewrite <- E in HF. by apply (irreflexivity bytes_lt) in HF.
Qed.

Lemma snapshot_entries_map kv : list_to_map (snapshot_entries kv) = delete [] kv.
Proof.
  assert (NoDup (snapshot_entries kv).*1) as Hnd.
  { apply sorted_NoDup, StronglySorted_filter, sorted_entries_sorted. }
  apply map_eq. intros d. apply option_eq. intros v.
  rewrite <- elem_of_list_to_map by done. unfold snapshot_entries.
  rewrite list_elem_of_filter, elem_of_sorted_entries, lookup_delete_Some. simpl. split; intros []; auto.
Qed.

Lemma restored_map kv :
  foldl (fun kv x => <[kv_Key x := kv_Value x]> kv) ∅
    (map (fun e => mkKeyValue e.1 0 0 e.2 []) (snapshot_entries kv) ++ [KeyValue_zero])
  = <[[] := []]> (delete [] kv).
Proof.
  rewrite foldl_app, foldl_insert_entries by apply sorted_NoDup, StronglySorted_filter, sorted_entries_sorted.
  simpl. by rewrite snapshot_entries_map, (right_id_L ∅ (∪)).
Qed.

(** ** From a table to its copy *)

Lemma mapM_id_Some {A} (xs : list A) : mapM (M := option) id (map Some xs) = Some xs.
Proof. induction xs as [|x xs IH]; [done|]. cbn [map mapM]. by rewrite IH. Qed.

Definition some_kvs (es : list (bytes * bytes)) : list KeyValue :=
  map (fun e => mkKeyValue e.1 0 0 e.2 []) es ++ [KeyValue_zero].

Lemma put_command_restorable table e :
  len table + len e.1 + len e.2 <= 3 * 1024 * 1024 -> restorable (put_command table e).
Proof.
  intros H. split.
  - constructor; try done. intros k [= <-]. by repeat split.
  - pose proof (put_command_size table e). unfold small_entry, msgCap in *. lia.
Qed.

Lemma final_command_size table idx :
  is_uint64 idx -> len table <= 1024 * 1024 ->
  3 <= Command_SizeVT (final_command table idx) <= len table + 24
  /\ nonempty_size table <= Command_SizeVT (final_command table idx).
Proof.
  intros Hi Ht. unfold final_command, Command_SizeVT, embedded_size, optional_size, repeated_size, bool_size.
  change (scalar_size Command_DUMMY) with 2. change (len (@nil byte)) with 0. simpl foldr.
  unfold optional_varint_size. rewrite uint64_id by done. unfold is_uint64 in Hi.
  pose proof (sov_le idx 10). pose proof (sov_pos idx). pose proof (nonempty_size_le table).
  pose proof (nonempty_size_ge table). pose proof (len_nonneg table). lia.
Qed.

Lemma final_command_restorable table idx :
  is_uint64 idx -> len table <= 1024 * 1024 -> restorable (final_command table idx).
Proof.
  intros Hi Ht. split.
  - constructor; try done. by intros i [= <-].
  - pose proof (final_command_size table idx Hi Ht). unfold msgCap. lia.
Qed.

Lemma restored_kvs_size tn es :
  Forall (fun e => len tn + len e.1 + len e.2 <= 3 * 1024 * 1024) es ->
  repeated_size KeyValue_ptr_SizeVT (map cmd_Kv (map (put_command tn) es)) <= total_size (map (put_command tn) es).
Proof.
  induction 1 as [|e es He _ IH]; simpl; [done|].
  assert (delimited_size (KeyValue_SizeVT (mkKeyValue e.1 0 0 e.2 [])) <= Command_SizeVT (put_command tn e)); [|lia].
  unfold put_command, Command_SizeVT, embedded_size, optional_varint_size, optional_size, repeated_size, bool_size.
  change (scalar_size Command_PUT) with 0. change (len (@nil byte)) with 0. simpl foldr.
  pose proof (nonempty_size_ge tn). pose proof (len_nonneg tn). lia.
Qed.

Lemma batch_size tn es table idx max :
  Forall (fun e => len tn + len e.1 + len e.2 <= 3 * 1024 * 1024) es ->
  is_uint64 idx -> len table <= 1024 * 1024 -> max < 2 ^ 60 ->
  total_size (map (put_command tn) es ++ [final_command table idx]) < max / 2 ->
  Command_SizeVT (batch_of table (Some idx) (map cmd_Kv (map (put_command tn) es) ++ [None])) < 2 ^ 62.
Proof.
  intros Hes Hi Ht Hm Htot. assert (max / 2 <= 2 ^ 59) by (apply Z.div_le_upper_bound; lia).
  assert (total_size (map (put_command tn) es ++ [final_command table idx])
          = total_size (map (put_command tn) es) + Command_SizeVT (final_command table idx)) as Heq.
  { clear. induction es as [|e es IH]; simpl; [lia|]. rewrite IH. lia. }
  pose proof (restored_kvs_size tn es Hes). pose proof (final_command_size table idx Hi Ht) as [Hf1 Hf2].
  unfold batch_of, Command_SizeVT at 1. rewrite repeated_size_app.
  unfold embedded_size, optional_size, bool_size, optional_varint_size. rewrite uint64_id by done.
  change (scalar_size Command_PUT_BATCH) with 2. change (len (@nil byte)) with 0.
  change (repeated_size KeyValue_ptr_SizeVT [None]) with 2. change (repeated_size _ []) with 0.
  unfold is_uint64 in Hi. pose proof (sov_le idx 10). lia.
Qed.

Lemma results_size {A} (xs : list A) i :
  CommandResult_SizeVT (mkCommandResult (map (fun _ => put_response PutResp_zero) xs) i []) <= 4 * len xs + 11.
Proof.
  unfold CommandResult_SizeVT. cbn [cr_Responses cr_Revision cr_unknownFields]. change (len (@nil byte)) with 0.
  pose proof (scalar_size_le i).
  assert (repeated_size ResponseOp_SizeVT (map (fun _ => put_response PutResp_zero) xs) = 4 * len xs) as ->; [|lia].
  induction xs as [|x xs IH]; [done|]. rewrite len_cons. cbn [map repeated_size foldr].
  change (delimited_size (ResponseOp_SizeVT (put_response PutResp_zero))) with 4. unfold repeated_size in IH. lia.
Qed.

(** Applying the one batch of a small restore to an empty table. *)
Lemma apply_restored tn kv table idx max i :
  let es := snapshot_entries kv in
  Forall (fun e => len tn + len e.1 + len e.2 <= 3 * 1024 * 1024) es ->
  is_uint64 idx -> len table <= 1024 * 1024 -> max < 2 ^ 60 -> len es < 2 ^ 59 ->
  total_size (map (put_command tn) es ++ [final_command table idx]) < max / 2 ->
  let prop := Command_Marshal (batch_of table (Some idx) (map cmd_Kv (map (put_command tn) es) ++ [None])) in
  exists data, spec_update empty_state [mkEntry i prop 0 []]
    = Ok (mkTState (<[[] := []]> (delete [] kv)) i idx, [mkEntry i prop 1 data]).
Proof.
  intros es Hes Hi Ht Hm Hn Htot prop.
  pose proof (batch_size tn es table idx max Hes Hi Ht Hm Htot) as Hsize.
  assert (len prop < 2 ^ 62) as Hlen.
  { unfold prop. rewrite Command_Marshal_len; [done|]. eapply Z.lt_trans; [exact Hsize|done]. }
  assert (map cmd_Kv (map (put_command tn) es) ++ [None]
          = map (fun e => Some (mkKeyValue e.1 0 0 e.2 [])) es ++ [None]) as Hkvs by (by rewrite map_map).
  set (b := batch_of table (Some idx) (map Some (some_kvs es))).
  assert (prop = Command_Marshal b) as Hprop.
  { unfold prop, b. rewrite Command_Marshal_nil_kv, Hkvs. unfold some_kvs.
    by rewrite !map_app, !map_map. }
  assert (Command_UnmarshalVT prop Command_zero = Ok b) as Hdec.
  { rewrite Hprop. apply Command_roundtrip_at.
    - constructor; try done; [by intros ? [= <-]|]. apply Forall_forall. intros x (y & -> & Hy)%list_elem_of_fmap.
      exists y. split; [done|]. unfold some_kvs in Hy. apply elem_of_app in Hy as [(e & -> & _)%list_elem_of_fmap|Hy].
      + by repeat split.
      + apply list_elem_of_singleton in Hy as ->. by repeat split.
    - rewrite <- Hprop. unfold len in *. lia. }
  assert (spec_command ∅ b = Ok (<[[] := []]> (delete [] kv), (true, map (fun _ => put_response PutResp_zero) (some_kvs es)))) as Hcmd.
  { unfold b, batch_of. cbn [spec_command]. change (Command_PUT_BATCH =? Command_PUT) with false.
    change (Command_PUT_BATCH =? Command_DELETE) with false. change (Command_PUT_BATCH =? Command_PUT_BATCH) with true.
    cbv iota. rewrite mapM_id_Some. pose proof (restored_map kv) as Hr. fold es in Hr. fold (some_kvs es) in Hr.
    by rewrite Hr. }
  unfold spec_update, empty_state. cbn [collect]. unfold spec_entry. cbn [e_Cmd t_kv fst]. rewrite Hdec.
  cbn [mbind res_bind]. rewrite Hcmd. cbn [mbind res_bind].
  rewrite decide_False by (unfold some_kvs; rewrite map_app; by intros [_ ?]%app_nil).
  unfold CommandResult_MarshalVT. rewrite marshal_sized_exact; [|apply CommandResult_sized|].
  - eexists. cbn [mbind res_bind e_Index]. done.
  - eapply Z.le_lt_trans; [apply results_size|]. unfold some_kvs. rewrite len_app.
    unfold len in *. rewrite length_map. simpl length. lia.
Qed.

(** The file of a table that is not stopped. *)
Lemma snapshot_file_spec {P : PebbleOps} {L : PebbleLaws P} (p : FSM) st table :
  represents (db_view (fsm_pebble p)) st ->
  let es := snapshot_entries (t_kv st) in
  Forall (fun e => len (fsm_tableName p) + len e.1 + len e.2 <= 3 * 1024 * 1024) es ->
  is_uint64 (t_index st) -> len table <= 1024 * 1024 ->
  let cmds := map (put_command (fsm_tableName p)) es ++ [final_command table (t_index st)] in
  snapshot_file p table (fun _ => false) = Ok (framed cmds) /\ Forall restorable cmds.
Proof.
  intros [<- Hwf Hi _] es Hes Hu Ht cmds.
  assert (Forall restorable (map (put_command (fsm_tableName p)) es)) as Hr.
  { apply Forall_map. eapply Forall_impl; [exact Hes|]. intros e. apply put_command_restorable. }
  pose proof (final_command_restorable table (t_index st) Hu Ht) as Hf.
  split; [|by apply Forall_app_2; [|constructor]]. unfold snapshot_file. cbn [Lookup].
  rewrite (commandSnapshot_spec _ _ (db_view (fsm_pebble p))); [|apply view_db|done|].
  - rewrite Hi. cbn [mbind res_bind]. rewrite file_framed by done. cbn [mbind res_bind].
    destruct (restorable_marshal _ Hf) as (Hne & Hlen & _). destruct Hf as [_ Hs]. unfold msgCap in Hs.
    rewrite Command_MarshalVT_exact by lia. cbn [mbind res_bind].
    rewrite sf_Write_frame by (done || lia). unfold cmds, framed.
    by rewrite map_app, concat_app, app_nil_l; simpl; rewrite app_nil_r.
  - eapply Forall_impl; [exact Hes|]. intros e. unfold small_entry. lia.
Qed.

(** C12. Copying a table: the snapshot file of a table, read back into an empty
    table, restores every key with its value and sets the leader index to the
    index of the snapshot, provided the stream stays below half of the
    in-memory log size.  The closing command adds one pair, the empty key with
    the empty value. *)
Theorem snapshot_restore {P Q : PebbleOps} {L : PebbleLaws P} {L' : PebbleLaws Q} {H : PebbleHealthy Q}
    (p : FSM (P := P)) (q : FSM (P := Q)) st table max i :
  represents (db_view (fsm_pebble p)) st -> represents (db_view (fsm_pebble q)) empty_state ->
  let es := snapshot_entries (t_kv st) in
  Forall (fun e => len (fsm_tableName p) + len e.1 + len e.2 <= 3 * 1024 * 1024) es ->
  len es < 2 ^ 59 -> is_uint64 (t_index st) -> is_uint64 i -> len table <= 1024 * 1024 -> max < 2 ^ 60 ->
  total_size (map (put_command (fsm_tableName p)) es ++ [final_command table (t_index st)]) < max / 2 ->
  exists file prop r q',
    snapshot_file p table (fun _ => false) = Ok file /\ readIntoTable max file = Ok [prop]
    /\ Update q [mkEntry i prop 0 []] = Ok (q', [r])
    /\ represents (db_view (fsm_pebble q')) (mkTState (<[[] := []]> (delete [] (t_kv st))) i (t_index st)).
Proof.
  intros Hp Hq es Hes Hn Hu Hi Ht Hm Htot.
  destruct (snapshot_file_spec p st table Hp Hes Hu Ht) as [Hfile Hr]. fold es in Hfile, Hr.
  set (tn := fsm_tableName p) in *.
  exists (framed (map (put_command tn) es ++ [final_command table (t_index st)])),
    (Command_Marshal (batch_of table (Some (t_index st)) (map cmd_Kv (map (put_command tn) es) ++ [None]))).
  destruct (apply_restored tn (t_kv st) table (t_index st) max i Hes Hu Ht Hm Hn Htot) as [data Hspec].
  pose proof (Update_spec q empty_state [mkEntry i (Command_Marshal (batch_of table (Some (t_index st))
    (map cmd_Kv (map (put_command tn) es) ++ [None]))) 0 []] Hq) as HU.
  fold es in Hspec. rewrite Hspec in HU. destruct HU as (q' & HU & Hrep & _); [by constructor|].
  exists (mkEntry i (Command_Marshal (batch_of table (Some (t_index st)) (map cmd_Kv (map (put_command tn) es) ++ [None]))) 1 data), q'.
  split; [done|]. split; [|done]. unfold readIntoTable.
  rewrite readIntoTable_loop by (done || (pose proof (framed_length _ Hr); lia)).
  rewrite restore_loop_small by (done || simpl; lia). rewrite last_snoc, map_app. simpl.
  pose proof (batch_size tn es table (t_index st) max Hes Hu Ht Hm Htot) as Hsize.
  rewrite Command_MarshalVT_exact; [done|]. eapply Z.lt_trans; [exact Hsize|done].
Qed.

(** A table with two keys. *)
Definition two_keys : FSM (P := mem_pebble) :=
  mkFSM (P := mem_pebble) (<[sysLocalIndex := PutUint64 7]> (<[enc TypeUser (str "a") := str "1"]>
    {[enc TypeUser (str "b") := str "2"]})) 7 (str "t") (str "/data").
Definition two_keys_state : tstate := mkTState (<[str "a" := str "1"]> {[str "b" := str "2"]}) 7 0.

Lemma two_keys_represents :
  represents (db_view (PebbleLaws := mem_pebble_laws) (fsm_pebble two_keys)) two_keys_state.
Proof.
  split; [vm_compute; reflexivity| |reflexivity|reflexivity].
  intros k v. simpl. rewrite !lookup_insert_Some, lookup_singleton_Some.
  intros [[<- _]|[_ [[<- _]|[_ [<- _]]]]]; [auto|eauto..].
Defined.

Lemma snapshot_restore_witness :
  exists file prop r q',
    snapshot_file two_keys (str "t") (fun _ => false) = Ok file /\ readIntoTable (1024 * 1024) file = Ok [prop]
    /\ Update empty_fsm [mkEntry 1 prop 0 []] = Ok (q', [r])
    /\ represents (db_view (PebbleLaws := mem_pebble_laws) (fsm_pebble q'))
         (mkTState (<[[] := []]> (delete [] (t_kv two_keys_state))) 1 (t_index two_keys_state)).
Proof.
  apply (snapshot_restore (H := mem_pebble_healthy) two_keys empty_fsm two_keys_state (str "t") (1024 * 1024) 1);
    [exact two_keys_represents|exact empty_represents| |reflexivity| | | | |reflexivity].
  - apply Forall_forall. intros [k v]. unfold snapshot_entries. rewrite list_elem_of_filter, elem_of_sorted_entries.
    simpl. rewrite lookup_insert_Some, lookup_singleton_Some.
    intros [_ [[<- <-]|[_ [<- <-]]]]; vm_compute; congruence.
  - vm_compute; split; congruence.
  - vm_compute; split; congruence.
  - vm_compute; congruence.
  - reflexivity.
Defined.

(** The pair of the command that crosses the threshold is in no batch: of
    three keys, restored with a threshold that the second one reaches, only
    the first and the third arrive. *)
Example restore_loses_key :
  let put k v := put_command (str "t") (str k, str v) in
  match readIntoTable 60 (framed [put "a" "1"; put "b" "22222222222"; put "c" "3"]) with
  | Ok props =>
      (mapM (fun p => Command_UnmarshalVT p Command_zero) props) =
      Ok [batch_of (str "t") None [Some (mkKeyValue (str "a") 0 0 (str "1") [])];
          batch_of (str "t") None [Some (mkKeyValue (str "c") 0 0 (str "3") [])]]
  | _ => False
  end.
Proof. vm_compute. reflexivity. Qed.
