(* ===== verification/Table.v ===== *)
(** * Tables as clients see them ([storage/table/table.go], [regattaserver/kv.go])

    [ActiveTable] turns requests into commands that are proposed to Raft, or
    into queries, and responses back.  The Raft library is an interface:
    [RaftOps] has the three calls the source makes and [RaftLaws] says that a
    proposal that succeeds has been applied to the state machine of the shard
    and that a linearizable read sees the state machine.  The KV server checks
    requests and maps errors to status codes. *)

From S2P Require Import Prelude Key Wire Proto Codec Pebble.
From S2P Require Import Query Command Fsm TableSpec QueryCorrect CommandCorrect FsmCorrect.

(** ** Messages *)

Record RangeRequest := mkRangeRequest {
  rq_Table : bytes; rq_Key : bytes; rq_RangeEnd : option bytes; rq_Limit : Z; rq_Linearizable : bool;
  rq_KeysOnly : bool; rq_CountOnly : bool;
  rq_MinModRevision : Z; rq_MaxModRevision : Z; rq_MinCreateRevision : Z; rq_MaxCreateRevision : Z
}.
Record RangeResponse := mkRangeResponse {
  rp_Header : option ResponseHeader; rp_Kvs : list KeyValue; rp_More : bool; rp_Count : Z
}.
Record PutRequest := mkPutRequest { pq_Table : bytes; pq_Key : bytes; pq_Value : bytes; pq_PrevKv : bool }.
Record PutResponse := mkPutResponse { pp_Header : option ResponseHeader; pp_PrevKv : option KeyValue }.
Record DeleteRangeRequest := mkDeleteRangeRequest {
  dq_Table : bytes; dq_Key : bytes; dq_RangeEnd : option bytes; dq_PrevKv : bool; dq_Count : bool
}.
Record DeleteRangeResponse := mkDeleteRangeResponse {
  dp_Header : option ResponseHeader; dp_Deleted : Z; dp_PrevKvs : list KeyValue
}.

(** [&ResponseHeader{Revision: rev}]. *)
Definition revision_header (rev : Z) : ResponseHeader := mkResponseHeader 0 0 rev 0 0.

Definition MaxValueLen : Z := 2 * 1024 * 1024.

(** ** Raft ([raftHandler]) *)

Section Table.
Context {P : PebbleOps} {W : Type} (Write : W -> bytes -> res W).

Class RaftOps := {
  Host : Type;
  SyncRead : Host -> Z -> LookupRequest (W := W) -> res (LookupResponse (W := W));
  StaleRead : Host -> Z -> LookupRequest (W := W) -> res (LookupResponse (W := W));
  (** The result is the [Value] and the [Data] of the entry. *)
  SyncPropose : Host -> Z -> bytes -> res (Host * (Z * bytes))
}.

Class RaftLaws (R : RaftOps) := {
  (** The state machine of a shard with everything committed so far applied. *)
  shard : Host -> Z -> option FSM;
  SyncRead_spec h id q r :
    SyncRead h id q = Ok r -> exists p, shard h id = Some p /\ Lookup Write p q = Ok r;
  SyncPropose_spec h id b h' v d :
    SyncPropose h id b = Ok (h', (v, d)) ->
    exists p i p', shard h id = Some p /\ is_uint64 i
      /\ Update p [mkEntry i b 0 []] = Ok (p', [mkEntry i b v d]) /\ shard h' id = Some p'
      /\ forall id', id' <> id -> shard h' id' = shard h id'
}.

Context {R : RaftOps}.

(** [ActiveTable]: the stored table; the session is the one of its shard. *)
Record TableInfo := mkTable { tbl_Name : bytes; tbl_ClusterID : Z; tbl_RecoverID : Z }.

(** [readTable], with the type assertion [val.(S)]. *)
Definition readTable {S} (select : LookupResponse -> option S) (t : TableInfo) (h : Host)
    (linearizable : bool) (req : LookupRequest) : res S :=
  val ← (if linearizable then SyncRead h (tbl_ClusterID t) req else StaleRead h (tbl_ClusterID t) req);
  match select val with Some s => Ok s | None => Panic end.

(** [proposeTable], with the type switch on the first response. *)
Definition proposeTable {S} (select : ResponseOp.Response -> option S) (t : TableInfo) (h : Host)
    (cmd : Command) : res (Host * (S * Z)) :=
  bts ← Command_MarshalVT cmd;
  '(h, (_, data)) ← SyncPropose h (tbl_ClusterID t) bts;
  pr ← CommandResult_UnmarshalVT data CommandResult_zero;
  match cr_Responses pr with
  | [] => Err ErrNoResultFound
  | r :: _ =>
      match ResponseOp.so_Response r ≫= select with
      | Some s => Ok (h, (s, cr_Revision pr))
      | None => Err ErrUnknownResultType
      end
  end.

Definition select_range (r : LookupResponse (W := W)) : option ResponseOp.Range :=
  match r with LRangeResponse r => Some r | _ => None end.
Definition select_txn (r : LookupResponse (W := W)) : option TxnResponse :=
  match r with LTxnResponse r => Some r | _ => None end.
Definition select_index (r : LookupResponse (W := W)) : option Z :=
  match r with LIndexResponse i => Some i | _ => None end.
Definition select_put (r : ResponseOp.Response) : option ResponseOp.Put :=
  match r with ResponseOp.ResponsePut p => Some p | _ => None end.
Definition select_delete (r : ResponseOp.Response) : option ResponseOp.DeleteRange :=
  match r with ResponseOp.ResponseDeleteRange p => Some p | _ => None end.

(** ** ActiveTable *)

Definition Range (t : TableInfo) (h : Host) (req : RangeRequest) : res RangeResponse :=
  if LatestVersionLen <? len (rq_Key req) then Err ErrKeyLengthExceeded else
  if LatestVersionLen <? len (default [] (rq_RangeEnd req)) then Err ErrKeyLengthExceeded else
  response ← readTable select_range t h (rq_Linearizable req)
    (LRange (RequestOp.mkRange (rq_Key req) (rq_RangeEnd req) (rq_Limit req) (rq_KeysOnly req) (rq_CountOnly req) []));
  Ok (mkRangeResponse None (ResponseOp.sr_Kvs response) (ResponseOp.sr_More response) (ResponseOp.sr_Count response)).

Definition put_command_of (req : PutRequest) : Command :=
  mkCommand (pq_Table req) Command_PUT (Some (mkKeyValue (pq_Key req) 0 0 (pq_Value req) [])) None [] None None
    (pq_PrevKv req) [] false [].

Definition Put (t : TableInfo) (h : Host) (req : PutRequest) : res (Host * PutResponse) :=
  if len (pq_Key req) =? 0 then Err ErrEmptyKey else
  if LatestVersionLen <? len (pq_Key req) then Err ErrKeyLengthExceeded else
  if MaxValueLen <? len (pq_Value req) then Err ErrValueLengthExceeded else
  '(h, (r, rev)) ← proposeTable select_put t h (put_command_of req);
  Ok (h, mkPutResponse (Some (revision_header rev)) (ResponseOp.sp_PrevKv r)).

Definition delete_command_of (req : DeleteRangeRequest) : Command :=
  mkCommand (dq_Table req) Command_DELETE (Some (mkKeyValue (dq_Key req) 0 0 [] [])) None [] None (dq_RangeEnd req)
    (dq_PrevKv req) [] (dq_Count req) [].

Definition Delete (t : TableInfo) (h : Host) (req : DeleteRangeRequest) : res (Host * DeleteRangeResponse) :=
  if len (dq_Key req) =? 0 then Err ErrEmptyKey else
  if LatestVersionLen <? len (dq_Key req) then Err ErrKeyLengthExceeded else
  '(h, (r, rev)) ← proposeTable select_delete t h (delete_command_of req);
  Ok (h, mkDeleteRangeResponse (Some (revision_header rev)) (ResponseOp.sd_Deleted r) (ResponseOp.sd_PrevKvs r)).

(** [isReadonlyTransaction], in [table.go] and in [kv.go]. *)
Definition is_range_op (op : RequestOp.t) : bool :=
  match RequestOp.ro_Request op with Some (RequestOp.RequestRange _) => true | _ => false end.
Fixpoint all_ranges (ops : list RequestOp.t) : bool :=
  match ops with
  | [] => true
  | op :: ops' => if is_range_op op then all_ranges ops' else false
  end.
Definition isReadonlyTransaction (req : TxnRequest) : bool :=
  if all_ranges (txr_Success req) then all_ranges (txr_Failure req) else false.

Definition txn_command_of (req : TxnRequest) : Command :=
  mkCommand (txr_Table req) Command_TXN None None []
    (Some (mkTxn (txr_Compare req) (txr_Success req) (txr_Failure req) [])) None false [] false [].

Definition table_Txn (t : TableInfo) (h : Host) (req : TxnRequest) : res (Host * TxnResponse) :=
  if isReadonlyTransaction req then
    r ← readTable select_txn t h true (LTxn req); Ok (h, r)
  else
    bts ← Command_MarshalVT (txn_command_of req);
    '(h, (value, data)) ← SyncPropose h (tbl_ClusterID t) bts;
    txr ← CommandResult_UnmarshalVT data CommandResult_zero;
    Ok (h, mkTxnResponse (Some (revision_header (cr_Revision txr))) (value =? UpdateResult_value ResultSuccess)
             (cr_Responses txr)).

Definition select_snapshot (r : LookupResponse (W := W)) : option (Z * W) :=
  match r with LSnapshotResponse i w => Some (i, w) | _ => None end.
(** [Snapshot]; the writer is part of the result. *)
Definition table_Snapshot (t : TableInfo) (h : Host) (w : W) (stopper : nat -> bool) : res (Z * W) :=
  readTable select_snapshot t h true (LSnapshot w stopper).

Definition LocalIndex (t : TableInfo) (h : Host) (linearizable : bool) : res Z :=
  readTable select_index t h linearizable LLocalIndex.
Definition LeaderIndex (t : TableInfo) (h : Host) (linearizable : bool) : res Z :=
  readTable select_index t h linearizable LLeaderIndex.

(** [Reset]: a dummy command that sets the leader index to 0. *)
Definition reset_command (t : TableInfo) : Command :=
  mkCommand (tbl_Name t) Command_DUMMY None (Some 0) [] None None false [] false [].
Definition Reset_table (t : TableInfo) (h : Host) : res Host :=
  bts ← Command_MarshalVT (reset_command t);
  '(h, _) ← SyncPropose h (tbl_ClusterID t) bts;
  Ok h.
End Table.
Arguments shard {_ _ _ _ _} h id.
Arguments SyncPropose_spec {_ _ _ _ _} h id b h' v d.
Arguments SyncRead_spec {_ _ _ _ _} h id q r.

(** ** KV server ([regattaserver/kv.go]) *)

(** [google.golang.org/grpc/codes], the ones used. *)
Inductive code := InvalidArgument | Unimplemented | NotFound | Internal.
Inductive reply (A : Type) := Reply (a : A) | Status (c : code) | ServerPanic.
Arguments Reply {A} a.
Arguments Status {A} c.
Arguments ServerPanic {A}.

(** The mapping of a storage error to a status. *)
Definition to_reply {A} (r : res A) : reply A :=
  match r with
  | Ok a => Reply a
  | Err e => if decide (e = ErrTableNotFound) then Status NotFound else Status Internal
  | Panic => ServerPanic
  end.

Section Server.
Context {S : Type}.

Definition KVServer_Range (storage : RangeRequest -> res RangeResponse) (req : RangeRequest) : reply RangeResponse :=
  if rq_Limit req <? 0 then Status InvalidArgument
  else if rq_KeysOnly req && rq_CountOnly req then Status InvalidArgument
  else if 0 <? rq_MinModRevision req then Status Unimplemented
  else if 0 <? rq_MaxModRevision req then Status Unimplemented
  else if 0 <? rq_MinCreateRevision req then Status Unimplemented
  else if 0 <? rq_MaxCreateRevision req then Status Unimplemented
  else if len (rq_Table req) =? 0 then Status InvalidArgument
  else if len (rq_Key req) =? 0 then Status InvalidArgument
  else to_reply (storage req).

Definition KVServer_Put (storage : PutRequest -> res (S * PutResponse)) (req : PutRequest) : reply (S * PutResponse) :=
  if len (pq_Table req) =? 0 then Status InvalidArgument
  else if len (pq_Key req) =? 0 then Status InvalidArgument
  else to_reply (storage req).

Definition KVServer_DeleteRange (storage : DeleteRangeRequest -> res (S * DeleteRangeResponse))
    (req : DeleteRangeRequest) : reply (S * DeleteRangeResponse) :=
  if len (dq_Table req) =? 0 then Status InvalidArgument
  else if len (dq_Key req) =? 0 then Status InvalidArgument
  else to_reply (storage req).

Definition KVServer_Txn (storage : TxnRequest -> res (S * TxnResponse)) (req : TxnRequest) : reply (S * TxnResponse) :=
  if len (txr_Table req) =? 0 then Status InvalidArgument
  else to_reply (storage req).

(** [ReadonlyKVServer], which followers run. *)
Definition ReadonlyKVServer_Put (req : PutRequest) : reply (S * PutResponse) := Status Unimplemented.
Definition ReadonlyKVServer_DeleteRange (req : DeleteRangeRequest) : reply (S * DeleteRangeResponse) :=
  Status Unimplemented.
Definition ReadonlyKVServer_Txn (storage : TxnRequest -> res (S * TxnResponse)) (req : TxnRequest)
    : reply (S * TxnResponse) :=
  if isReadonlyTransaction req then KVServer_Txn storage req else Status Unimplemented.
End Server.

(** ** Properties *)

Lemma isReadonlyTransaction_spec req :
  isReadonlyTransaction req = true ->
  forallb is_range (txr_Success req) = true /\ forallb is_range (txr_Failure req) = true.
Proof.
  assert (forall ops, all_ranges ops = true -> forallb is_range ops = true) as Hall.
  { induction ops as [|op ops IH]; [done|]. simpl. unfold is_range_op, is_range, GetRequestRange.
    destruct (RequestOp.ro_Request op) as [[]|]; try done. }
  unfold isReadonlyTransaction. case_match; [|done]. auto.
Qed.

(** The responses of the single-key commands survive their encoding. *)
Lemma put_response_roundtrip prev rev :
  (forall x, prev = Some x -> KeyValue_wf x /\ len (kv_Key x) + len (kv_Value x) < 2 ^ 61 /\ kv_CreateRevision x = 0
    /\ kv_ModRevision x = 0) ->
  is_uint64 rev ->
  let r := mkCommandResult [ResponseOp.mk (Some (ResponseOp.ResponsePut (ResponseOp.mkPut prev []))) []] rev [] in
  exists data, CommandResult_MarshalVT r = Ok data /\ CommandResult_UnmarshalVT data CommandResult_zero = Ok r.
Proof.
  intros Hp Hrev r.
  assert (CommandResult_SizeVT r < 2 ^ 63) as Hs.
  { unfold r, CommandResult_SizeVT. cbn [cr_Responses cr_Revision cr_unknownFields repeated_size foldr].
    unfold ResponseOp_SizeVT. cbn [ResponseOp.so_Response ResponseOp.so_unknownFields Response_SizeVT].
    unfold PutResp_SizeVT. cbn [ResponseOp.sp_PrevKv ResponseOp.sp_unknownFields]. change (len (@nil byte)) with 0.
    pose proof (scalar_size_le rev).
    assert (0 <= embedded_size KeyValue_SizeVT prev <= 2 ^ 61 + 40) as He.
    { destruct prev as [x|]; simpl; [|lia]. destruct (Hp x eq_refl) as ((_ & _ & Hu) & Hl & Hc & Hm).
      destruct x as [k c m v u]; simpl in *; subst. pose proof (KeyValue_SizeVT_le k v ltac:(lia)) as Hkv.
      unfold delimited_size. pose proof (sov_le (KeyValue_SizeVT (mkKeyValue k 0 0 v [])) 10).
      pose proof (sov_pos (KeyValue_SizeVT (mkKeyValue k 0 0 v []))). lia. }
    unfold delimited_size. set (e := embedded_size _ _) in *.
    pose proof (sov_le (e + 0) 10). pose proof (sov_pos (e + 0)).
    pose proof (sov_le (1 + (e + 0) + sov (e + 0) + 0) 10). lia. }
  exists (CommandResult_Marshal r). pose proof (CommandResult_sized r) as Hsz.
  split; [by apply marshal_sized_exact|]. apply CommandResult_unmarshal_marshal; [|by rewrite (proj2 Hsz)].
  split; [|done]. constructor; [|done]. split; [|done]. intros ? [= <-]. split; [|done].
  simpl. intros x Hx. by destruct (Hp x Hx).
Qed.

Section Clients.
Context {P : PebbleOps} {L : PebbleLaws P} {H : PebbleHealthy P}.
Context {W : Type} {Write : W -> bytes -> res W} {R : RaftOps (W := W)} {RL : RaftLaws Write R}.

(** A proposal that succeeds has run the command of the specification. *)
Lemma propose_spec h id cmd h' v d p st :
  Command_wf cmd -> Command_SizeVT cmd < 2 ^ 63 ->
  shard h id = Some p -> represents (db_view (fsm_pebble p)) st ->
  SyncPropose h id (Command_Marshal cmd) = Ok (h', (v, d)) ->
  exists p' i kv' ok rs, spec_command (t_kv st) cmd = Ok (kv', (ok, rs)) /\ shard h' id = Some p' /\ is_uint64 i
    /\ represents (db_view (fsm_pebble p')) (mkTState kv' i (default (t_leader st) (cmd_LeaderIndex cmd)))
    /\ v = Z.b2z ok
    /\ (if decide (rs = []) then Ok [] else CommandResult_MarshalVT (mkCommandResult rs i [])) = Ok d.
Proof using L H RL.
  intros Hwf Hs Hp Hrep Hprop.
  apply SyncPropose_spec in Hprop as (p0 & i & p' & Hp0 & Hi & HU & Hp' & _).
  rewrite Hp in Hp0. injection Hp0 as <-.
  pose proof (Update_spec p st [mkEntry i (Command_Marshal cmd) 0 []] Hrep ltac:(by constructor)) as Hspec.
  assert (Command_UnmarshalVT (Command_Marshal cmd) Command_zero = Ok cmd) as Hdec.
  { apply Command_roundtrip_at; [done|]. rewrite <- (Command_Marshal_len cmd Hs) in Hs. unfold len in *. lia. }
  unfold spec_update in Hspec. cbn [collect] in Hspec. unfold spec_entry in Hspec. cbn [e_Cmd e_Data e_Index fst] in Hspec.
  rewrite Hdec in Hspec. cbn [mbind res_bind] in Hspec.
  destruct (spec_command (t_kv st) cmd) as [[kv' [ok rs]]|e|]; cbn [mbind res_bind] in Hspec; [|congruence|congruence].
  destruct (if decide (rs = []) then _ else _) as [data|e|] eqn:Ed; cbn [mbind res_bind last fmap option_fmap option_map default] in Hspec;
    [|congruence|congruence].
  destruct Hspec as (p2 & HU2 & Hrep' & _). rewrite HU in HU2. injection HU2 as <- -> ->.
  exists p', i, kv', ok, rs. done.
Qed.

Lemma put_command_of_ok req :
  len (pq_Table req) < 2 ^ 60 -> len (pq_Key req) <= LatestVersionLen -> len (pq_Value req) <= MaxValueLen ->
  Command_wf (put_command_of req) /\ Command_SizeVT (put_command_of req) < 2 ^ 63.
Proof.
  intros Ht Hk Hv. unfold LatestVersionLen, MaxValueLen in *. split.
  - constructor; try done. intros k [= <-]. by repeat split.
  - unfold put_command_of. cbn [Command_SizeVT embedded_size optional_varint_size optional_size repeated_size foldr].
    change (scalar_size Command_PUT) with 0. change (len (@nil byte)) with 0. unfold delimited_size.
    pose proof (len_nonneg (pq_Table req)). pose proof (len_nonneg (pq_Key req)). pose proof (len_nonneg (pq_Value req)).
    pose proof (KeyValue_SizeVT_le (pq_Key req) (pq_Value req) ltac:(lia)).
    pose proof (nonempty_size_le (pq_Table req)).
    pose proof (sov_le (KeyValue_SizeVT (mkKeyValue (pq_Key req) 0 0 (pq_Value req) [])) 10).
    assert (bool_size (pq_PrevKv req) <= 2) by (destruct (pq_PrevKv req); simpl; lia). simpl bool_size. lia.
Qed.

Definition prev_of (kv : kvmap) (k : bytes) : option KeyValue := (fun v => mkKeyValue k 0 0 v []) <$> kv !! k.

Lemma Put_spec t h req h' resp p st :
  shard h (tbl_ClusterID t) = Some p -> represents (db_view (fsm_pebble p)) st ->
  len (pq_Table req) < 2 ^ 60 -> (forall d v, t_kv st !! d = Some v -> len d + len v < 2 ^ 61) ->
  Put t h req = Ok (h', resp) ->
  exists p' rev, shard h' (tbl_ClusterID t) = Some p'
    /\ represents (db_view (fsm_pebble p')) (mkTState (<[pq_Key req := pq_Value req]> (t_kv st)) rev (t_leader st))
    /\ resp = mkPutResponse (Some (revision_header rev)) (if pq_PrevKv req then prev_of (t_kv st) (pq_Key req) else None).
Proof using L H RL.
  intros Hp Hrep Ht Hlen HPut. unfold Put in HPut.
  destruct (_ =? 0); [done|]. destruct (Z.ltb_spec LatestVersionLen (len (pq_Key req))); [done|].
  destruct (Z.ltb_spec MaxValueLen (len (pq_Value req))); [done|].
  apply bind_Ok_inv in HPut as ([h2 [r rev]] & Hprop & [= <- <-]). unfold proposeTable in Hprop.
  destruct (put_command_of_ok req) as [Hwf Hs]; [done|lia|lia|].
  rewrite Command_MarshalVT_exact in Hprop by done. cbn [mbind res_bind] in Hprop.
  apply bind_Ok_inv in Hprop as ([h3 [v d]] & HS & (pr & Hdec & Hsel)%bind_Ok_inv).
  destruct (propose_spec _ _ _ _ _ _ _ _ Hwf Hs Hp Hrep HS) as (p' & i & kv' & ok & rs & Hcmd & Hp' & Hi & Hrep' & _ & Hdata).
  cbn [put_command_of spec_command] in Hcmd. change (Command_PUT =? Command_PUT) with true in Hcmd. cbv iota in Hcmd.
  unfold spec_put in Hcmd. cbn [kv_Key kv_Value RequestOp.rp_Key RequestOp.rp_Value RequestOp.rp_PrevKv] in Hcmd.
  set (prev := if pq_PrevKv req then prev_of (t_kv st) (pq_Key req) else None).
  assert (Ok (<[pq_Key req := pq_Value req]> (t_kv st), (true, [put_response (ResponseOp.mkPut prev [])])) = Ok (kv', (ok, rs))) as Hc.
  { rewrite <- Hcmd. unfold prev, prev_of. destruct (pq_PrevKv req); [|done].
    by destruct (t_kv st !! pq_Key req). }
  injection Hc as <- <- <-. rewrite decide_False in Hdata by done.
  destruct (put_response_roundtrip prev i) as (data & Hm & Hu); [|done|].
  { unfold prev, prev_of. intros x Hx. destruct (pq_PrevKv req); [|done].
    destruct (t_kv st !! pq_Key req) as [w|] eqn:Ew; [|done]. injection Hx as <-. simpl.
    split; [by repeat split|]. split; [by apply Hlen|done]. }
  unfold put_response in Hdata. rewrite Hm in Hdata. injection Hdata as <-. rewrite Hu in Hdec. injection Hdec as <-. injection Hsel as <- <- <-.
  exists p', i. done.
Qed.

(** A proposal leaves the other shards alone. *)
Lemma proposeTable_other {S} (select : ResponseOp.Response -> option S) t h cmd h' r id :
  proposeTable select t h cmd = Ok (h', r) -> id <> tbl_ClusterID t -> shard h' id = shard h id.
Proof using RL.
  intros (bts & _ & ([h2 [v d]] & HS & Hrest)%bind_Ok_inv)%bind_Ok_inv Hid.
  apply bind_Ok_inv in Hrest as (pr & _ & Hsel).
  assert (h2 = h') as <- by (destruct (cr_Responses pr); [done|]; destruct (_ ≫= select); by inversion Hsel).
  apply SyncPropose_spec in HS as (p & i & p' & _ & _ & _ & _ & Ho). by apply Ho.
Qed.
End Clients.

(** ** A single-replica Raft host *)

Definition append_writer (w b : bytes) : res bytes := Ok (w ++ b).

Definition mem_propose (p : FSM (P := mem_pebble)) (id : Z) (b : bytes) : res (FSM (P := mem_pebble) * (Z * bytes)) :=
  if (id =? 1) && (0 <=? fsm_applied p) && (fsm_applied p + 1 <? 2 ^ 64) then
    '(p, es) ← Update p [mkEntry (fsm_applied p + 1) b 0 []];
    match es with
    | [e] => Ok (p, (e_Value e, e_Data e))
    | _ => Err (ErrExternal 0)
    end
  else Err ErrShardNotFound.

#[export] Instance mem_raft : RaftOps (W := bytes) := {
  Host := FSM (P := mem_pebble);
  SyncRead p id q := if id =? 1 then Lookup append_writer p q else Err ErrShardNotFound;
  StaleRead p id q := if id =? 1 then Lookup append_writer p q else Err ErrShardNotFound;
  SyncPropose := mem_propose
}.

#[export, refine] Instance mem_raft_laws : RaftLaws append_writer mem_raft := {
  shard p id := if id =? 1 then Some p else None
}.
Proof.
  - intros h id q r. simpl. destruct (id =? 1); [|done]. eauto.
  - intros h id b h' v d. simpl. unfold mem_propose.
    destruct (id =? 1) eqn:Eid; [|done]. destruct (0 <=? fsm_applied h) eqn:E0; [|done].
    destruct (fsm_applied h + 1 <? 2 ^ 64) eqn:E1; [|done]. cbn [andb].
    intros ([p es] & HU & Hes)%bind_Ok_inv.
    exists h, (fsm_applied h + 1), h'. destruct es as [|e [|e' es]]; [done| |done]. injection Hes as <- <- <-.
    split; [done|]. split; [unfold is_uint64; lia|].
    assert (e = mkEntry (fsm_applied h + 1) b (e_Value e) (e_Data e)) as <-.
    { unfold Update in HU. apply bind_Ok_inv in HU as ([c es'] & Hc & (db & _ & [= _ ->])%bind_Ok_inv).
      cbn [collect] in Hc. apply bind_Ok_inv in Hc as ([c1 e1] & He & [= _ <-]).
      unfold update_entry in He. apply bind_Ok_inv in He as ([c2 cmd] & _ & He).
      apply bind_Ok_inv in He as ([c3 [ur r]] & _ & (data & _ & [= _ <-])%bind_Ok_inv). done. }
    split; [done|]. split; [done|]. intros id' Hid'. apply Z.eqb_eq in Eid. subst.
    by rewrite (proj2 (Z.eqb_neq id' 1)).
Defined.

(** ** Claims *)

Definition table1 : TableInfo := mkTable (str "t") 1 0.
Definition put_a : PutRequest := mkPutRequest (str "t") (str "a") (str "1") false.

(** A linearizable range query for the key, after a put that succeeded,
    answers with the value that was put. *)
Lemma Put_then_Range {P : PebbleOps} {L : PebbleLaws P} {HH : PebbleHealthy P} {W} {Write : W -> bytes -> res W}
    {R : RaftOps (W := W)} {RL : RaftLaws Write R} t h req h' presp p st rreq resp :
  shard h (tbl_ClusterID t) = Some p -> represents (db_view (fsm_pebble p)) st ->
  len (pq_Table req) < 2 ^ 60 -> (forall d v, t_kv st !! d = Some v -> len d + len v < 2 ^ 61) ->
  Put t h req = Ok (h', presp) ->
  rq_Key rreq = pq_Key req -> rq_RangeEnd rreq = None -> rq_Linearizable rreq = true ->
  rq_KeysOnly rreq = false -> rq_CountOnly rreq = false -> Range t h' rreq = Ok resp ->
  resp = mkRangeResponse None [mkKeyValue (pq_Key req) 0 0 (pq_Value req) []] false 1.
Proof.
  intros Hp Hrep Ht Hlen HPut Hk Hre Hlin Hko Hco HR.
  destruct (Put_spec t h req h' presp p st Hp Hrep Ht Hlen HPut) as (p' & rev & Hp' & [Hkv Hwf _ _] & _).
  unfold Range in HR. case_match; [done|]. case_match; [done|].
  apply bind_Ok_inv in HR as (r & Hread & [= <-]). unfold readTable in Hread. rewrite Hlin in Hread.
  apply bind_Ok_inv in Hread as (val & (p2 & Hp2 & Hl)%SyncRead_spec & Hsel).
  rewrite Hp' in Hp2. injection Hp2 as <-. cbn [Lookup] in Hl.
  rewrite (fsm_lookup_spec _ _ (view_db _) Hwf) in Hl. cbn [mbind res_bind] in Hl. injection Hl as <-.
  injection Hsel as <-. rewrite Hkv, Hk, Hre, Hko, Hco. unfold spec_lookup, spec_single. cbn [t_kv RequestOp.rr_Key RequestOp.rr_RangeEnd].
  by rewrite lookup_insert_eq.
Qed.

Definition get_a : RangeRequest := mkRangeRequest (str "t") (str "a") None 0 true false false 0 0 0 0.

(** C32. A follower never writes through the KV service: whatever transaction
    its server accepts, the state of the cluster is the one before, and the
    answer is what the transaction yields on the table of the shard. *)
Theorem follower_txn_readonly {P : PebbleOps} {L : PebbleLaws P} {W} {Write : W -> bytes -> res W}
    {R : RaftOps (W := W)} {RL : RaftLaws Write R} t h req h' resp p st :
  shard h (tbl_ClusterID t) = Some p -> represents (db_view (fsm_pebble p)) st ->
  ReadonlyKVServer_Txn (table_Txn t h) req = Reply (h', resp) ->
  h' = h /\ exists ok rs, resp = mkTxnResponse None ok rs
    /\ spec_txn (t_kv st) (mkTxn (txr_Compare req) (txr_Success req) (txr_Failure req) []) = Ok (t_kv st, (ok, rs)).
Proof.
  intros Hp [<- Hwf _ _] HT. unfold ReadonlyKVServer_Txn, KVServer_Txn in HT.
  destruct (isReadonlyTransaction req) eqn:Ero; [|done]. case_match; [done|].
  unfold table_Txn in HT. rewrite Ero in HT. unfold readTable in HT.
  destruct (SyncRead h (tbl_ClusterID t) (LTxn req)) as [val|e|] eqn:Er; cbn [mbind res_bind] in HT; [|simpl in HT; by case_decide|done].
  apply SyncRead_spec in Er as (p2 & Hp2 & Hl). rewrite Hp in Hp2. injection Hp2 as <-.
  apply isReadonlyTransaction_spec in Ero as [Hs Hf]. cbn [Lookup] in Hl.
  rewrite (txnCompare_spec _ _ _ (view_db _) Hwf) in Hl. cbn [mbind res_bind] in Hl.
  set (ok := forallb _ _) in Hl.
  destruct (readonly_ops (fsm_pebble p) _ (if ok then txr_Success req else txr_Failure req) (view_db _) Hwf)
    as (rs & Hrs & Hspec); [by destruct ok|].
  rewrite Hrs in Hl. injection Hl as <-. simpl in HT. injection HT as <- <-. split; [done|].
  exists ok, rs. split; [done|]. unfold spec_txn. cbn [txn_Compare txn_Success txn_Failure]. fold ok. by rewrite Hspec.
Qed.

Definition read_txn : TxnRequest :=
  mkTxnRequest (str "t") [] [RequestOp.mk (Some (RequestOp.RequestRange (RequestOp.mkRange (str "a") None 0 false false []))) []] [].

Lemma follower_txn_readonly_witness :
  match ReadonlyKVServer_Txn (table_Txn (R := mem_raft) table1 empty_fsm) read_txn with
  | Reply (h', resp) => h' = empty_fsm /\ exists ok rs, resp = mkTxnResponse None ok rs
    /\ spec_txn (t_kv empty_state) (mkTxn (txr_Compare read_txn) (txr_Success read_txn) (txr_Failure read_txn) [])
       = Ok (t_kv empty_state, (ok, rs))
  | _ => False
  end.
Proof.
  assert (match ReadonlyKVServer_Txn (table_Txn (R := mem_raft) table1 empty_fsm) read_txn with Reply _ => true | _ => false end = true)
    as Hok by (vm_compute; reflexivity).
  destruct (ReadonlyKVServer_Txn (table_Txn (R := mem_raft) table1 empty_fsm) read_txn) as [[h' resp]|c|] eqn:E;
    [|discriminate Hok|discriminate Hok].
  apply (follower_txn_readonly (L := mem_pebble_laws) (RL := mem_raft_laws) table1 empty_fsm read_txn h' resp empty_fsm empty_state);
    [reflexivity|exact empty_represents|exact E].
Defined.
