(* ===== verification/LogReader.v ===== *)
(** * Reading the Raft log ([storage/logreader])

    The cache of log entries of a shard ([cache.go]) and the log readers
    ([logreader.go]).  The log itself belongs to the Raft library: a
    [LogQuerier] gives the range of indexes of a shard's log and entries of
    it, no more than a size limit allows but at least one.

    Slices of the cache buffer are handed out and appended to.  The writes
    this makes to a shared backing array put the entries there that the cache
    itself appends at the same place, so the model works on values. *)

From S2P Require Import Prelude.

(** [raftpb.Entry]; [EncodedEntry] is the type of an application entry. *)
Record rentry := mkREntry { re_Term : Z; re_Index : Z; re_Type : Z; re_Cmd : bytes }.

#[export] Instance rentry_eq_dec : EqDecision rentry.
Proof. solve_decision. Defined.

(** [dragonboat.LogRange], right half-open. *)
Record LogRange := mkRange { FirstIndex : Z; LastIndex : Z }.
Definition emptyRange : LogRange := mkRange 0 0.

(** ** sort.Search *)

(** The loop of the standard library's [sort.Search] between [i] and [j]; the
    interval shrinks in every round. *)
Fixpoint search_go (fuel : nat) (f : Z -> bool) (i j : Z) : Z :=
  match fuel with
  | O => i
  | S fuel' =>
      if i <? j then
        let h := (i + j) / 2 in
        if negb (f h) then search_go fuel' f (h + 1) j else search_go fuel' f i h
      else i
  end.
Definition Search (n : Z) (f : Z -> bool) : Z := search_go (Z.to_nat n) f 0 n.

(** ** cache *)

Record cache := mkCache { buffer : list rentry; size : Z }.

Definition newCache (size : Z) : cache := mkCache [] size.
Definition cache_len (c : cache) : Z := len (buffer c).

Definition index_at_or (d : Z) (l : list rentry) (i : Z) : Z :=
  match l !! Z.to_nat i with Some e => re_Index e | None => d end.

(** [findIndex]; [entries] is not empty. *)
Definition findIndex (entries : list rentry) (f : Z -> bool) : Z :=
  if f (index_at_or 0 entries 0) then 0
  else if negb (f (index_at_or 0 entries (len entries - 1))) then len entries
  else Search (len entries) (fun i => f (index_at_or 0 entries i)).

Definition smallestIndex (c : cache) : Z :=
  match buffer c with [] => 0 | e :: _ => re_Index e end.
Definition largestIndex (c : cache) : Z :=
  match last (buffer c) with None => 0 | Some e => re_Index e end.

Definition makeRoomAndAppend (c : cache) (entries : list rentry) : cache :=
  let b := if size c <? len entries + len (buffer c)
           then drop (Z.to_nat (len entries + len (buffer c) - size c)) (buffer c)
           else buffer c in
  mkCache (b ++ entries) (size c).

Definition put (c : cache) (entries : list rentry) : cache :=
  if len entries =? 0 then c else
  let entries := if size c <? len entries then drop (Z.to_nat (len entries - size c)) entries else entries in
  let maxIndex := largestIndex c in
  if maxIndex =? 0 then makeRoomAndAppend c entries else
  let i := findIndex entries (fun index => maxIndex <? index) in
  if i =? len entries then c else
  makeRoomAndAppend c (drop (Z.to_nat i) entries).

(** [get]: the cached entries of the range, and the ranges to read in front
    of them and after them; [c.buffer[start:end]] panics when [end < start]. *)
Definition get (c : cache) (r : LogRange) : res (list rentry * LogRange * LogRange) :=
  if len (buffer c) =? 0 then Ok ([], r, emptyRange) else
  let smallest := smallestIndex c in
  if LastIndex r <? smallest then Ok ([], r, emptyRange) else
  let largest := largestIndex c in
  if largest <? FirstIndex r then Ok ([], emptyRange, r) else
  let start := findIndex (buffer c) (fun index => FirstIndex r <=? index) in
  let end_ := findIndex (buffer c) (fun index => LastIndex r <=? index) in
  if end_ <? start then Panic else
  let entries := take (Z.to_nat (end_ - start)) (drop (Z.to_nat start) (buffer c)) in
  if len entries =? 0 then Ok (entries, emptyRange, emptyRange) else
  Ok (entries,
      (if FirstIndex r <? smallest then mkRange (FirstIndex r) smallest else emptyRange),
      (if uint64 (largest + 1) <? LastIndex r then mkRange (uint64 (largest + 1)) (LastIndex r) else emptyRange)).

(** ** Log readers *)

(** [dragonboat.ReadonlyLogReader]. *)
Record LogView := mkLogView {
  GetRange : Z * Z;
  Entries : Z -> Z -> Z -> res (list rentry)
}.

Section Readers.
Context (GetLogReader : Z -> res LogView) (SizeUpperLimit : rentry -> Z).

Definition readLog (clusterID : Z) (r : LogRange) (maxSize : Z) : res (list rentry) :=
  v ← GetLogReader clusterID;
  let '(rFirst, rLast) := GetRange v in
  if uint64 (rLast + 1) =? FirstIndex r then Ok [] else
  if rLast <? FirstIndex r then Err ErrLogBehind else
  if FirstIndex r <? rFirst then Err ErrLogAhead else
  Entries v (FirstIndex r) (LastIndex r) maxSize.

(** The loop of [fixSize]: the entries in front of the one that reaches the
    limit. *)
Fixpoint fixSize_go (entries : list rentry) (size maxSize : Z) : list rentry :=
  match entries with
  | [] => []
  | e :: entries' =>
      let size := size + SizeUpperLimit e in
      if maxSize <=? uint64 size then [] else e :: fixSize_go entries' size maxSize
  end.
Definition fixSize (entries : list rentry) (maxSize : Z) : list rentry := fixSize_go entries 0 maxSize.

(** [Simple.QueryRaftLog]. *)
Definition Simple_QueryRaftLog (clusterID : Z) (r : LogRange) (maxSize : Z) : res (list rentry) :=
  if FirstIndex r =? LastIndex r then Ok [] else readLog clusterID r maxSize.

Definition set_range (r : LogRange) : bool := negb (FirstIndex r =? 0) && negb (LastIndex r =? 0).

(** [Cached.QueryRaftLog] on the cache of the shard, which it holds locked:
    the entries and the cache it leaves. *)
Definition query_shard (sh : cache) (clusterID : Z) (r : LogRange) (maxSize : Z) : res (list rentry * cache) :=
  '(cachedEntries, prependIndices, appendIndices) ← get sh r;
  if set_range prependIndices then
    le ← readLog clusterID prependIndices maxSize;
    match last le with
    | None => Ok (fixSize cachedEntries maxSize, sh)
    | Some lastEntry =>
        if match cachedEntries with
           | e :: _ => re_Index lastEntry =? uint64 (re_Index e - 1)
           | [] => false
           end
        then Ok (fixSize (le ++ cachedEntries) maxSize, sh)
        else Ok (le, if cache_len sh =? 0 then put sh le else sh)
    end
  else if set_range appendIndices then
    le ← readLog clusterID appendIndices maxSize;
    match le with
    | [] => Ok (fixSize cachedEntries maxSize, sh)
    | e :: _ =>
        if 0 <? len cachedEntries then Ok (fixSize (cachedEntries ++ le) maxSize, put sh le)
        else Ok (le, if uint64 (re_Index e - 1) =? largestIndex sh then put sh le else sh)
    end
  else Ok (fixSize cachedEntries maxSize, sh).

(** [Cached]: the caches of the shards that are ready. *)
Record Cached := mkCached { ShardCacheSize : Z; shardCache : gmap Z cache }.

Definition Cached_QueryRaftLog (l : Cached) (clusterID : Z) (r : LogRange) (maxSize : Z)
    : res (list rentry * Cached) :=
  if FirstIndex r =? LastIndex r then Ok ([], l) else
  match shardCache l !! clusterID with
  | None => Err ErrShardNotReady
  | Some sh =>
      '(entries, sh) ← query_shard sh clusterID r maxSize;
      Ok (entries, mkCached (ShardCacheSize l) (<[clusterID := sh]> (shardCache l)))
  end.

(** The system events. *)
Definition NodeDeleted (l : Cached) (shardID : Z) : Cached :=
  mkCached (ShardCacheSize l) (delete shardID (shardCache l)).
Definition NodeReady (l : Cached) (shardID : Z) : Cached :=
  match shardCache l !! shardID with
  | Some _ => l
  | None => mkCached (ShardCacheSize l) (<[shardID := newCache (ShardCacheSize l)]> (shardCache l))
  end.
Definition LogCompacted (l : Cached) (shardID : Z) : Cached :=
  mkCached (ShardCacheSize l) (<[shardID := newCache (ShardCacheSize l)]> (shardCache l)).
End Readers.

(** ** Binary search *)

Lemma search_go_spec fuel f i j n :
  0 <= i <= j -> j <= n -> j - i <= Z.of_nat fuel ->
  (forall a b, 0 <= a <= b -> b < n -> f a = true -> f b = true) ->
  (forall k, 0 <= k < i -> f k = false) -> (forall k, j <= k < n -> f k = true) ->
  let r := search_go fuel f i j in
  i <= r <= j /\ (forall k, 0 <= k < r -> f k = false) /\ (forall k, r <= k < n -> f k = true).
Proof.
  revert i j. induction fuel as [|fuel IH]; intros i j Hij Hjn Hf Hmono Hlo Hhi; simpl.
  { assert (i = j) as -> by lia. split; [lia|]. auto. }
  destruct (Z.ltb_spec i j); [|assert (i = j) as -> by lia; split; [lia|]; auto].
  assert (i <= (i + j) / 2 < j) as Hh by (split; [apply Z.div_le_lower_bound|apply Z.div_lt_upper_bound]; lia).
  set (h := (i + j) / 2) in *. destruct (f h) eqn:E; simpl.
  - destruct (IH i h) as (? & ? & ?); [lia|lia|lia|done|done| |split; [lia|auto]].
    intros k Hk. apply (Hmono h k); [lia|lia|done].
  - destruct (IH (h + 1) j) as (? & ? & ?); [lia|lia|lia|done| |done|split; [lia|auto]].
    intros k Hk. destruct (f k) eqn:Ek; [|done]. rewrite (Hmono k h) in E; [done|lia|lia|done].
Qed.

Lemma Search_spec n f :
  0 <= n -> (forall a b, 0 <= a <= b -> b < n -> f a = true -> f b = true) ->
  0 <= Search n f <= n /\ (forall k, 0 <= k < Search n f -> f k = false)
  /\ (forall k, Search n f <= k < n -> f k = true).
Proof. intros Hn Hm. apply search_go_spec; auto; intros; lia. Qed.

(** ** Consecutive entries *)

Fixpoint consec (i : Z) (l : list rentry) : Prop :=
  match l with [] => True | e :: l' => re_Index e = i /\ consec (i + 1) l' end.

Lemma consec_lookup i l k e : consec i l -> l !! k = Some e -> re_Index e = i + Z.of_nat k.
Proof.
  revert i k. induction l as [|x l IH]; intros i [|k]; simpl; [done|done| |].
  - intros [? _] [= <-]. lia.
  - intros [_ Hl] Hk. rewrite (IH (i + 1) k) by done. lia.
Qed.

Lemma consec_app i a b : consec i (a ++ b) <-> consec i a /\ consec (i + len a) b.
Proof.
  revert i. induction a as [|x a IH]; intros i; simpl.
  - unfold len. simpl. rewrite Z.add_0_r. tauto.
  - rewrite IH, len_cons. replace (i + 1 + len a) with (i + (1 + len a)) by lia. tauto.
Qed.

Lemma consec_index_at i l k : consec i l -> 0 <= k < len l -> index_at_or 0 l k = i + k.
Proof.
  intros Hl Hk. unfold index_at_or, len in *.
  destruct (lookup_lt_is_Some_2 l (Z.to_nat k) ltac:(lia)) as [e He]. rewrite He.
  rewrite (consec_lookup _ _ _ _ Hl He). lia.
Qed.

(** [findIndex] on consecutive entries, for a lower bound on the index. *)
Lemma findIndex_consec i l x :
  consec i l -> l <> [] ->
  findIndex l (fun index => x <=? index) = Z.max 0 (Z.min (len l) (x - i)).
Proof.
  intros Hl Hne. assert (0 < len l) as Hlen.
  { destruct l; [done|]. rewrite len_cons. pose proof (len_nonneg l). lia. }
  unfold findIndex. rewrite !(consec_index_at i) by (done || lia).
  destruct (Z.leb_spec x (i + 0)); [lia|]. destruct (Z.leb_spec x (i + (len l - 1))); simpl; [|lia].
  destruct (Search_spec (len l) (fun k => x <=? index_at_or 0 l k)) as (Hr & Hlo & Hhi); [lia| |].
  - intros a b Hab Hb. rewrite !(consec_index_at i) by (done || lia). rewrite !Z.leb_le. lia.
  - set (r := Search _ _) in *. destruct (Z.lt_trichotomy r (x - i)) as [Hlt|[Heq|Hgt]]; [|lia|].
    + assert ((x <=? index_at_or 0 l r) = true) as Ht by (apply Hhi; lia).
      rewrite (consec_index_at i) in Ht by (done || lia). apply Z.leb_le in Ht. lia.
    + assert ((x <=? index_at_or 0 l (r - 1)) = false) as Ht by (apply Hlo; lia).
      rewrite (consec_index_at i) in Ht by (done || lia). apply Z.leb_gt in Ht. lia.
Qed.

(** ** The cache holds part of the log *)

Section Log.
Context (first : Z) (log : list rentry).
Context (Hlog : consec first log) (Hfirst : 1 <= first) (Hmax : first + len log < 2 ^ 64).

(** The entries [l] are those of the log from index [lo] on. *)
Definition at_index (lo : Z) (l : list rentry) : Prop :=
  first <= lo /\ l `prefix_of` drop (Z.to_nat (lo - first)) log.

Lemma at_app lo a b : at_index lo (a ++ b) <-> at_index lo a /\ at_index (lo + len a) b.
Proof using.
  unfold at_index, len. split.
  - intros [H0 [k Hk]]. split; [split; [done|]|split; [lia|]].
    + exists (b ++ k). by rewrite Hk, app_assoc.
    + exists k. replace (Z.to_nat (lo + Z.of_nat (length a) - first)) with (Z.to_nat (lo - first) + length a)%nat by lia.
      by rewrite <- drop_drop, Hk, <- app_assoc, drop_app_length.
  - intros [[H0 [k Hk]] [_ [k' Hk']]]. split; [done|].
    replace (Z.to_nat (lo + Z.of_nat (length a) - first)) with (Z.to_nat (lo - first) + length a)%nat in Hk' by lia.
    rewrite <- drop_drop, Hk, drop_app_length in Hk'. subst k. exists k'. by rewrite Hk, app_assoc.
Qed.

Lemma at_prefix lo l l' : at_index lo l -> l' `prefix_of` l -> at_index lo l'.
Proof using. intros [H0 H] Hp. split; [done|]. by trans l. Qed.

Lemma at_drop lo l k : at_index lo l -> (k <= length l)%nat -> at_index (lo + Z.of_nat k) (drop k l).
Proof using.
  intros H Hk. rewrite <- (take_drop k l) in H. apply at_app in H as [_ H].
  unfold len in H. by rewrite length_take_le in H.
Qed.

Lemma at_consec lo l : at_index lo l -> consec lo l.
Proof using Hlog.
  intros [H0 [k Hk]]. destruct l as [|e l]; [done|].
  rewrite <- (take_drop (Z.to_nat (lo - first)) log), Hk in Hlog. apply consec_app in Hlog as [_ H].
  apply consec_app in H as [H _]. unfold len in H.
  assert (Z.to_nat (lo - first) <= length log)%nat.
  { destruct (decide (Z.to_nat (lo - first) <= length log)%nat); [done|]. rewrite drop_ge in Hk by lia. done. }
  rewrite length_take_le in H by done. by replace (first + Z.of_nat (Z.to_nat (lo - first))) with lo in H by lia.
Qed.

Lemma at_bound lo l : at_index lo l -> l <> [] -> lo + len l <= first + len log.
Proof using.
  intros [H0 Hp] Hne. apply prefix_length in Hp. rewrite length_drop in Hp. unfold len.
  destruct l; [done|]. simpl in *. lia.
Qed.

Definition cache_ok (c : cache) : Prop :=
  0 <= size c /\ len (buffer c) <= size c /\ (buffer c <> [] -> exists lo, at_index lo (buffer c)).

(** A cache that is not empty, with its bounds. *)
Lemma cache_bounds c lo :
  at_index lo (buffer c) -> buffer c <> [] ->
  smallestIndex c = lo /\ largestIndex c = lo + len (buffer c) - 1 /\ 1 <= lo /\ 0 < len (buffer c)
  /\ lo + len (buffer c) < 2 ^ 64.
Proof using Hlog Hfirst Hmax.
  intros H Hne. pose proof (at_consec _ _ H) as Hc. pose proof (at_bound _ _ H Hne) as Hb.
  destruct H as [H0 _].
  unfold smallestIndex, largestIndex. destruct (buffer c) as [|e b] eqn:E; [done|]. rewrite <- E in *.
  assert (0 < len (buffer c)) by (rewrite E, len_cons; pose proof (len_nonneg b); lia).
  split; [rewrite E in Hc; simpl in Hc; tauto|]. split; [|lia].
  destruct (last (buffer c)) as [x|] eqn:El; [|apply last_None in El; congruence].
  rewrite last_lookup in El. rewrite (consec_lookup _ _ _ _ Hc El). unfold len in *. lia.
Qed.

Lemma makeRoom_ok c lo es :
  0 <= size c -> (buffer c <> [] -> at_index lo (buffer c)) -> len es <= size c -> at_index (lo + len (buffer c)) es ->
  cache_ok (makeRoomAndAppend c es).
Proof using.
  intros Hs Hb Hl He. unfold makeRoomAndAppend, cache_ok. simpl. split; [done|].
  destruct (decide (buffer c = [])) as [E|Hne].
  { rewrite E in *. rewrite drop_nil. change (len []) with 0 in *. rewrite !Z.add_0_r in *.
    destruct (size c <? len es); simpl; eauto. }
  destruct (Z.ltb_spec (size c) (len es + len (buffer c))).
  - set (k := Z.to_nat _). assert (Z.of_nat k <= len (buffer c)) as Hk by lia. unfold len in *.
    rewrite length_app, length_drop. split; [lia|]. intros _. exists (lo + Z.of_nat k). apply at_app.
    split; [apply at_drop; auto; lia|]. unfold len. rewrite length_drop.
    by replace (lo + Z.of_nat k + Z.of_nat (length (buffer c) - k)) with (lo + Z.of_nat (length (buffer c))) by lia.
  - unfold len in *. rewrite length_app. split; [lia|]. intros _. exists lo. apply at_app. auto.
Qed.

(** [put] of entries that follow the cached ones, or into an empty cache. *)
Lemma put_ok c lo es :
  cache_ok c -> at_index lo es -> es <> [] -> (buffer c <> [] -> lo = largestIndex c + 1) -> cache_ok (put c es).
Proof using Hlog Hfirst Hmax.
  intros (Hs & Hlen & Hb) Hes Hne Hlo. unfold put.
  assert (0 < len es) as Hles by (destruct es; [done|]; rewrite len_cons; pose proof (len_nonneg es); lia).
  rewrite (proj2 (Z.eqb_neq _ _)) by lia.
  set (es' := if size c <? len es then _ else es).
  assert (exists lo', lo <= lo' /\ at_index lo' es' /\ len es' = Z.min (len es) (size c)
          /\ (lo' = lo \/ len es' = size c)) as (lo' & Hle & Hes' & Hl' & Hcase).
  { unfold es'. destruct (Z.ltb_spec (size c) (len es)); [|exists lo; auto with lia].
    exists (lo + Z.of_nat (Z.to_nat (len es - size c))). unfold len in *. split; [lia|].
    split; [apply at_drop; [done|lia]|]. rewrite length_drop. lia. }
  clearbody es'. destruct (decide (buffer c = [])) as [E|Hbne].
  { unfold largestIndex. rewrite E. simpl. apply makeRoom_ok with lo'; [done|congruence|lia|].
    rewrite E. change (len []) with 0. by rewrite Z.add_0_r. }
  destruct (Hb Hbne) as [blo Hat]. destruct (cache_bounds c blo Hat Hbne) as (_ & HL & ? & ? & ?).
  specialize (Hlo Hbne). rewrite (proj2 (Z.eqb_neq _ _)) by lia.
  assert (findIndex es' (fun index => largestIndex c <? index) = 0) as ->.
  { destruct es' as [|e es'']; [unfold len in *; simpl in *; lia|]. apply at_consec in Hes'. destruct Hes' as [He _].
    unfold findIndex, index_at_or. simpl. rewrite (proj2 (Z.ltb_lt _ _)) by lia. done. }
  destruct (Z.eqb_spec 0 (len es')); [by split|]. rewrite drop_0.
  destruct Hcase as [->|Hfull].
  - apply makeRoom_ok with blo; auto; [lia|]. by replace (blo + len (buffer c)) with lo by lia.
  - unfold makeRoomAndAppend, cache_ok. simpl. rewrite (proj2 (Z.ltb_lt _ _)) by lia.
    rewrite drop_ge by (unfold len in *; lia). simpl. eauto with lia.
Qed.

(** The buffer cut to the indexes from [max lo first] to [min hi last]. *)
Lemma cut_at c lo a b :
  at_index lo (buffer c) -> lo <= a <= b -> b <= lo + len (buffer c) ->
  let es := take (Z.to_nat (b - a)) (drop (Z.to_nat (a - lo)) (buffer c)) in
  at_index a es /\ len es = b - a.
Proof using.
  intros Hat Hab Hb. unfold len in *. split.
  - eapply at_prefix; [|apply prefix_take]. replace a with (lo + Z.of_nat (Z.to_nat (a - lo))) at 1 by lia.
    apply at_drop; [done|lia].
  - rewrite length_take, length_drop. lia.
Qed.

(** What [get] answers for a range that is not empty: nothing, with the whole
    range to read, or a part of the log with the ranges around it. *)
Inductive get_answer (c : cache) (r : LogRange) : list rentry * LogRange * LogRange -> Prop :=
| get_before : get_answer c r ([], r, emptyRange)
| get_after : buffer c <> [] -> get_answer c r ([], emptyRange, r)
| get_touching : smallestIndex c = LastIndex r -> get_answer c r ([], emptyRange, emptyRange)
| get_hit a es :
    buffer c <> [] -> es <> [] -> a = Z.max (FirstIndex r) (smallestIndex c) ->
    at_index a es -> a + len es = Z.min (LastIndex r) (largestIndex c + 1) ->
    get_answer c r
      (es, (if FirstIndex r <? smallestIndex c then mkRange (FirstIndex r) (smallestIndex c) else emptyRange),
       (if largestIndex c + 1 <? LastIndex r then mkRange (largestIndex c + 1) (LastIndex r) else emptyRange)).

Lemma get_spec c r :
  cache_ok c -> FirstIndex r < LastIndex r -> exists ans, get c r = Ok ans /\ get_answer c r ans.
Proof using Hlog Hfirst Hmax.
  intros (Hs & Hlen & Hb) Hr. unfold get. destruct (Z.eqb_spec (len (buffer c)) 0) as [E|E].
  { eexists. split; [done|]. constructor. }
  assert (buffer c <> []) as Hne by (intros H; by rewrite H in E).
  destruct (Hb Hne) as [lo Hat]. destruct (cache_bounds c lo Hat Hne) as (HS & HL & Hlo1 & Hpos & Hub).
  destruct (Z.ltb_spec (LastIndex r) (smallestIndex c)); [eexists; split; [done|constructor]|].
  destruct (Z.ltb_spec (largestIndex c) (FirstIndex r)); [eexists; split; [done|by constructor]|].
  pose proof (at_consec _ _ Hat) as Hc. rewrite !(findIndex_consec lo) by done.
  set (a := Z.max (FirstIndex r) lo). set (b := Z.min (LastIndex r) (lo + len (buffer c))).
  replace (Z.max 0 (Z.min (len (buffer c)) (FirstIndex r - lo))) with (a - lo) by lia.
  replace (Z.max 0 (Z.min (len (buffer c)) (LastIndex r - lo))) with (b - lo) by lia.
  rewrite (proj2 (Z.ltb_ge _ _)) by lia. replace (b - lo - (a - lo)) with (b - a) by lia.
  destruct (cut_at c lo a b Hat) as [Hes Hel]; [lia|lia|]. set (es := take _ _) in *. clearbody es.
  destruct (Z.eqb_spec (len es) 0) as [E0|E0].
  { eexists. split; [done|]. unfold len in E0. destruct es; [apply get_touching; change (len []) with 0 in Hel; lia|simpl in E0; lia]. }
  rewrite (uint64_id (largestIndex c + 1)) by (unfold is_uint64; lia). eexists. split; [done|].
  apply get_hit with a; [done|intros ->; done|lia|done|lia].
Qed.

(** ** Queries *)

(** The log reader of the Raft library shows this log: the range of its
    indexes, and entries from an index on, at least one if there is one. *)
Definition shows (v : LogView) : Prop :=
  GetRange v = (first, first + len log - 1)
  /\ forall lo hi max l, Entries v lo hi max = Ok l -> first <= lo < first + len log -> lo < hi ->
     at_index lo l /\ l <> [] /\ lo + len l <= hi.

(** Entries that may be sent for the range [r]. *)
Definition served (r : LogRange) (l : list rentry) : Prop :=
  at_index (FirstIndex r) l /\ FirstIndex r + len l <= LastIndex r.

Section Query.
Context (GetLogReader : Z -> res LogView) (SizeUpperLimit : rentry -> Z) (clusterID : Z).
Context (Hview : forall v, GetLogReader clusterID = Ok v -> shows v).

Lemma readLog_spec r max l :
  readLog GetLogReader clusterID r max = Ok l -> FirstIndex r < LastIndex r ->
  (l = [] /\ FirstIndex r = first + len log) \/ (served r l /\ l <> []).
Proof using Hfirst Hmax Hview.
  unfold readLog. intros H Hr. destruct (GetLogReader clusterID) as [v| |] eqn:Ev; [|done|done].
  destruct (Hview v eq_refl) as [Hg He]. cbn [mbind res_bind] in H. rewrite Hg in H.
  pose proof (len_nonneg log). rewrite uint64_id in H by (unfold is_uint64; lia).
  destruct (Z.eqb_spec (first + len log - 1 + 1) (FirstIndex r)); [left; split; [congruence|lia]|].
  destruct (Z.ltb_spec (first + len log - 1) (FirstIndex r)); [done|].
  destruct (Z.ltb_spec (FirstIndex r) first); [done|].
  apply He in H as (? & ? & ?); [right; split; [split|]; done|lia|lia].
Qed.

Lemma fixSize_go_prefix l size max : fixSize_go SizeUpperLimit l size max `prefix_of` l.
Proof using.
  revert size. induction l as [|e l IH]; intros size; simpl; [done|].
  destruct (_ <=? _); [apply prefix_nil|by apply prefix_cons].
Qed.

Lemma served_fixSize r l max : served r l -> served r (fixSize SizeUpperLimit l max).
Proof using.
  intros [Hat Hl]. pose proof (fixSize_go_prefix l 0 max) as Hp. split; [by eapply at_prefix|].
  apply prefix_length in Hp. unfold fixSize, len in *. lia.
Qed.

Lemma fixSize_nonempty l max :
  l <> [] -> (forall e, e ∈ l -> 0 <= SizeUpperLimit e < max /\ max < 2 ^ 64) -> fixSize SizeUpperLimit l max <> [].
Proof using.
  destruct l as [|e l]; [done|]. intros _ H. destruct (H e) as [He Hm]; [apply list_elem_of_here|]. unfold fixSize. simpl.
  rewrite uint64_id by (unfold is_uint64; lia). by rewrite (proj2 (Z.leb_gt _ _)) by lia.
Qed.

Lemma at_in_log lo l e : at_index lo l -> e ∈ l -> e ∈ log.
Proof using.
  intros [_ [k Hk]] He. apply list_elem_of_lookup in He as [i Hi].
  rewrite <- (take_drop (Z.to_nat (lo - first)) log), Hk. apply elem_of_app. right. apply elem_of_app. left.
  by apply list_elem_of_lookup_2 with i.
Qed.

(** Every entry of the log fits the size limit. *)
Definition fits (max : Z) : Prop := max < 2 ^ 64 /\ forall e, e ∈ log -> 0 <= SizeUpperLimit e < max.

(** The answer to a query: what it serves and the cache it leaves. *)
Definition good_answer (sh : cache) (r : LogRange) (max : Z) (ans : list rentry * cache) : Prop :=
  cache_ok ans.2 /\ (ans.1 = [] \/ served r ans.1)
  /\ (fits max -> FirstIndex r < first + len log -> smallestIndex sh <> LastIndex r -> ans.1 <> []).

Lemma good_fixSize sh r max l sh' :
  cache_ok sh' -> served r l -> l <> [] -> good_answer sh r max (fixSize SizeUpperLimit l max, sh').
Proof using.
  intros Hc Hs Hne. repeat split; simpl; [apply Hc..|right; by apply served_fixSize|].
  intros [Hm Hf] _ _. apply fixSize_nonempty; [done|]. intros e He. split; [|done].
  apply Hf. eapply at_in_log; [apply Hs|done].
Qed.

Lemma good_read sh r max l sh' : cache_ok sh' -> served r l -> l <> [] -> good_answer sh r max (l, sh').
Proof using. intros. split; [done|]. split; [by right|done]. Qed.

Lemma good_nothing sh r max sh' :
  cache_ok sh' -> first + len log <= FirstIndex r \/ smallestIndex sh = LastIndex r -> good_answer sh r max ([], sh').
Proof using. intros Hc H. split; [done|]. split; [by left|]. intros _ H1 H2. simpl. destruct H; [lia|done]. Qed.

Lemma served_head r e l : served r (e :: l) -> re_Index e = FirstIndex r.
Proof using Hlog. intros [Hat _]. apply at_consec in Hat. apply Hat. Qed.

Lemma served_last r l e : served r l -> last l = Some e -> re_Index e = FirstIndex r + len l - 1.
Proof using Hlog.
  intros [Hat _] He. apply at_consec in Hat. rewrite last_lookup in He.
  rewrite (consec_lookup _ _ _ _ Hat He). destruct l; [done|]. unfold len. simpl. lia.
Qed.

(** Nothing of the range is cached and it does not follow the cache. *)
Lemma query_before sh r max ans :
  cache_ok sh -> 1 <= FirstIndex r < LastIndex r -> get sh r = Ok ([], r, emptyRange) ->
  query_shard GetLogReader SizeUpperLimit sh clusterID r max = Ok ans -> good_answer sh r max ans.
Proof using Hlog Hfirst Hmax Hview.
  intros Hc Hr Hget. unfold query_shard. rewrite Hget. cbn [mbind res_bind]. unfold set_range at 1.
  rewrite !(proj2 (Z.eqb_neq _ 0)) by lia. cbn [negb andb].
  destruct (readLog _ _ _ _) as [le| |] eqn:El; [|done|done]. cbn [mbind res_bind].
  apply readLog_spec in El as [[-> E]|[Hs Hne]]; [| |lia].
  { simpl. intros [= <-]. apply good_nothing; [done|]. left. lia. }
  destruct (last le) as [x|] eqn:Ex; [|apply last_None in Ex; congruence]. intros [= <-].
  apply good_read; [|done|done]. destruct (Z.eqb_spec (cache_len sh) 0) as [E|E]; [|done].
  apply put_ok with (FirstIndex r); [done|apply Hs|done|]. intros Hb. destruct (buffer sh) eqn:Eb; [done|].
  unfold cache_len in E. rewrite Eb, len_cons in E. pose proof (len_nonneg l). lia.
Qed.

(** The range starts after the cached entries. *)
Lemma query_after sh r max ans :
  cache_ok sh -> 1 <= FirstIndex r < LastIndex r -> get sh r = Ok ([], emptyRange, r) -> buffer sh <> [] ->
  query_shard GetLogReader SizeUpperLimit sh clusterID r max = Ok ans -> good_answer sh r max ans.
Proof using Hlog Hfirst Hmax Hview.
  intros Hc Hr Hget Hb. unfold query_shard. rewrite Hget. cbn [mbind res_bind]. unfold set_range. simpl.
  rewrite !(proj2 (Z.eqb_neq _ 0)) by lia. cbn [negb andb].
  destruct (readLog _ _ _ _) as [le| |] eqn:El; [|done|done]. cbn [mbind res_bind].
  apply readLog_spec in El as [[-> E]|[Hs Hne]]; [| |lia].
  { simpl. intros [= <-]. apply good_nothing; [done|]. left. lia. }
  destruct le as [|e le]; [done|]. simpl. intros [= <-]. apply good_read; [|done|done].
  pose proof (served_head _ _ _ Hs) as He. destruct Hs as [Hat Hl].
  pose proof (at_bound _ _ Hat Hne). rewrite len_cons in *. pose proof (len_nonneg le).
  rewrite uint64_id by (unfold is_uint64; lia). destruct (Z.eqb_spec (re_Index e - 1) (largestIndex sh)); [|done].
  apply put_ok with (FirstIndex r); [done|done|done|]. lia.
Qed.

Lemma served_app r a l l' :
  served (mkRange (FirstIndex r) a) l -> FirstIndex r + len l = a -> served (mkRange a (LastIndex r)) l' ->
  served r (l ++ l').
Proof using.
  intros [H1 H2] <- [H3 H4]. simpl in *. split; [by apply at_app|]. unfold len in *. rewrite length_app. lia.
Qed.

(** The first part of the range is in the log only, the next one is cached. *)
Lemma query_prepend sh r max ans e es app :
  cache_ok sh -> buffer sh <> [] -> 1 <= FirstIndex r < smallestIndex sh ->
  served (mkRange (smallestIndex sh) (LastIndex r)) (e :: es) ->
  get sh r = Ok (e :: es, mkRange (FirstIndex r) (smallestIndex sh), app) ->
  query_shard GetLogReader SizeUpperLimit sh clusterID r max = Ok ans -> good_answer sh r max ans.
Proof using Hlog Hfirst Hmax Hview.
  intros Hc Hb Hr Hes Hget. unfold query_shard. rewrite Hget. cbn [mbind res_bind]. unfold set_range at 1. simpl.
  rewrite !(proj2 (Z.eqb_neq _ 0)) by lia. cbn [negb andb].
  destruct (readLog _ _ _ _) as [le| |] eqn:El; [|done|done]. cbn [mbind res_bind].
  pose proof (served_head _ _ _ Hes) as He. pose proof (at_bound _ _ (proj1 Hes) ltac:(done)) as Hbd.
  destruct Hes as [Hat Hl]. simpl in *. rewrite len_cons in *. pose proof (len_nonneg es).
  apply readLog_spec in El as [[-> E]|[Hs Hne]]; simpl in *; [lia| |lia].
  destruct (last le) as [x|] eqn:Ex; [|apply last_None in Ex; congruence].
  pose proof (served_last _ _ _ Hs Ex) as Hx. simpl in Hx.
  rewrite uint64_id by (unfold is_uint64; lia).
  destruct (Z.eqb_spec (re_Index x) (re_Index e - 1)); intros [= <-].
  - apply good_fixSize; [done| |by destruct le]. apply served_app with (smallestIndex sh); [done|lia|].
    split; simpl; [done|]. rewrite len_cons. lia.
  - apply good_read; [|split; [apply Hs|destruct Hs; simpl in *; lia]|done].
    destruct (Z.eqb_spec (cache_len sh) 0) as [E|E]; [|done].
    unfold cache_len, len in E. destruct (buffer sh); [done|]. simpl in E. lia.
Qed.

(** The range starts with cached entries. *)
Lemma query_append sh r max ans es :
  cache_ok sh -> buffer sh <> [] -> es <> [] -> served r es ->
  FirstIndex r + len es = Z.min (LastIndex r) (largestIndex sh + 1) ->
  get sh r = Ok (es, emptyRange,
    if largestIndex sh + 1 <? LastIndex r then mkRange (largestIndex sh + 1) (LastIndex r) else emptyRange) ->
  query_shard GetLogReader SizeUpperLimit sh clusterID r max = Ok ans -> good_answer sh r max ans.
Proof using Hlog Hfirst Hmax Hview.
  intros Hc Hb Hne Hes Hl Hget. unfold query_shard. rewrite Hget. cbn [mbind res_bind]. unfold set_range. simpl.
  destruct (proj2 (proj2 Hc) Hb) as [lo Hat]. destruct (cache_bounds sh lo Hat Hb) as (_ & HL & ? & ? & ?).
  destruct (Z.ltb_spec (largestIndex sh + 1) (LastIndex r)); simpl; [|intros [= <-]; by apply good_fixSize].
  rewrite !(proj2 (Z.eqb_neq _ 0)) by lia. cbn [negb andb].
  destruct (readLog _ _ _ _) as [le| |] eqn:El; [|done|done]. cbn [mbind res_bind].
  apply readLog_spec in El as [[-> E]|[Hs Hne']]; simpl in *; [| |lia].
  { intros [= <-]. by apply good_fixSize. }
  destruct le as [|e le]; [done|]. rewrite (proj2 (Z.ltb_lt 0 (len es))).
  2: { destruct es; [done|]. rewrite len_cons. pose proof (len_nonneg es). lia. }
  intros [= <-]. apply good_fixSize; [| |by destruct es].
  - apply put_ok with (largestIndex sh + 1); [done|apply Hs|done|done].
  - apply served_app with (largestIndex sh + 1); [|lia|done]. split; simpl; [apply Hes|lia].
Qed.

Lemma query_shard_spec sh r max ans :
  cache_ok sh -> 1 <= FirstIndex r < LastIndex r ->
  query_shard GetLogReader SizeUpperLimit sh clusterID r max = Ok ans -> good_answer sh r max ans.
Proof using Hlog Hfirst Hmax Hview.
  intros Hc Hr H. destruct (get_spec sh r Hc ltac:(lia)) as (g & Hget & Hg).
  destruct Hg as [|Hb|Ht|a es Hb Hne Ha Hat Hl].
  - by apply query_before.
  - by apply query_after.
  - unfold query_shard in H. rewrite Hget in H. cbn in H. injection H as <-. apply good_nothing; [done|by right].
  - destruct (Z.ltb_spec (FirstIndex r) (smallestIndex sh)) as [Hlt|Hge].
    + destruct es as [|e es]; [done|]. eapply query_prepend; [done|done|lia| |done|done].
      replace a with (smallestIndex sh) in * by lia. split; simpl; [done|lia].
    + replace a with (FirstIndex r) in * by lia. apply query_append with es; try done. split; [done|lia].
Qed.

(** A view that does not fail on a range inside the log. *)
Definition readable (v : LogView) : Prop :=
  forall lo hi max, first <= lo < hi -> hi <= first + len log -> is_Ok (Entries v lo hi max).

(** A range that is not set, or lies inside the log. *)
Definition inside (r : LogRange) : Prop :=
  set_range r = false \/ (first <= FirstIndex r < LastIndex r /\ LastIndex r <= first + len log).

Context (v : LogView) (Hv : GetLogReader clusterID = Ok v) (Hread : readable v).

Lemma readLog_can r max : set_range r = true -> inside r -> is_Ok (readLog GetLogReader clusterID r max).
Proof using Hfirst Hmax Hview Hv Hread.
  intros E [?|[Hr Hl]]; [congruence|]. unfold readLog. rewrite Hv. cbn [mbind res_bind]. rewrite (proj1 (Hview _ Hv)).
  rewrite uint64_id by (unfold is_uint64; lia).
  rewrite (proj2 (Z.eqb_neq _ _)), !(proj2 (Z.ltb_ge _ _)) by lia. by apply Hread.
Qed.

Lemma get_inside sh r es pre app :
  cache_ok sh -> first <= FirstIndex r < LastIndex r -> LastIndex r <= first + len log ->
  get_answer sh r (es, pre, app) -> inside pre /\ inside app.
Proof using Hlog Hfirst Hmax.
  intros Hc Hr Hl Hg. inversion Hg as [|Hb|Ht|a es' Hb Hne Ha Hat Hes]; subst; [by split; [right|left]|by split; [left|right]|by split; left|].
  destruct (proj2 (proj2 Hc) Hb) as [lo Hlo]. destruct (cache_bounds sh lo Hlo Hb) as (-> & -> & ? & ? & ?).
  pose proof (at_bound _ _ Hlo Hb). destruct Hlo as [? _].
  split; [destruct (Z.ltb_spec (FirstIndex r) lo)|destruct (Z.ltb_spec (lo + len (buffer sh) - 1 + 1) (LastIndex r))];
    [right|by left|right|by left]; simpl; lia.
Qed.

(** A query of a range inside the log is answered. *)
Lemma query_shard_can sh r max :
  cache_ok sh -> first <= FirstIndex r < LastIndex r -> LastIndex r <= first + len log ->
  is_Ok (query_shard GetLogReader SizeUpperLimit sh clusterID r max).
Proof using Hlog Hfirst Hmax Hview Hv Hread.
  intros Hc Hr Hl. destruct (get_spec sh r Hc ltac:(lia)) as ([[es pre] app] & Hget & Hg).
  destruct (get_inside sh r es pre app Hc Hr Hl Hg) as [Hp Ha]. unfold query_shard. rewrite Hget. cbn [mbind res_bind].
  destruct (set_range pre) eqn:Ep; [|destruct (set_range app) eqn:Ea; [|by eexists]].
  - destruct (readLog_can pre max Ep Hp) as [le ->]. cbn [mbind res_bind].
    destruct (last le); [|by eexists]. by destruct (match es with [] => _ | _ => _ end); eexists.
  - destruct (readLog_can app max Ea Ha) as [le ->]. cbn [mbind res_bind].
    destruct le; [by eexists|]. by destruct (0 <? len es); eexists.
Qed.
End Query.
End Log.

(** ** The reader and the logs of the shards over time *)

Lemma cache_ok_grow first log es c : cache_ok first log c -> cache_ok first (log ++ es) c.
Proof.
  intros (H1 & H2 & H3). repeat split; [done|done|]. intros Hb. destruct (H3 Hb) as [lo [Hlo Hp]].
  exists lo. split; [done|]. rewrite drop_app. by apply prefix_app_r.
Qed.

Lemma cache_ok_new first log n : 0 <= n -> cache_ok first log (newCache n).
Proof. intros. split; [done|]. split; [done|]. done. Qed.

(** The applied part of the log of a shard: the index of its first entry and
    its entries. *)
Definition slog : Type := Z * list rentry.
Definition slog_wf (g : slog) : Prop := consec g.1 g.2 /\ 1 <= g.1 /\ g.1 + len g.2 < 2 ^ 64.

Lemma slog_wf_drop g n :
  slog_wf g -> 0 <= n <= len g.2 -> slog_wf (g.1 + n, drop (Z.to_nat n) g.2).
Proof.
  intros (H1 & H2 & H3) Hn. unfold slog_wf. simpl. unfold len in *. rewrite length_drop.
  split; [|lia]. rewrite <- (take_drop (Z.to_nat n) g.2) in H1. apply consec_app in H1 as [_ H1].
  unfold len in H1. rewrite length_take_le in H1 by lia. by rewrite Z2Nat.id in H1 by lia.
Qed.

Section System.
Context (view : slog -> LogView) (SizeUpperLimit : rentry -> Z).

(** [NodeHost.GetLogReader]. *)
Definition log_reader (logs : gmap Z slog) (id : Z) : res LogView :=
  match logs !! id with Some g => Ok (view g) | None => Err ErrShardNotReady end.

Record system := mkSystem { logs : gmap Z slog; reader : Cached }.

(** What happens to a reader: Raft starts a shard, removes it, appends to its
    log or compacts it, and somebody queries. *)
Inductive step : system -> system -> Prop :=
| step_ready s id (g : slog) :
    logs s !! id = None \/ logs s !! id = Some g -> slog_wf g ->
    step s (mkSystem (<[id := g]> (logs s)) (NodeReady (reader s) id))
| step_deleted s id :
    step s (mkSystem (delete id (logs s)) (NodeDeleted (reader s) id))
| step_append s id (g : slog) es :
    logs s !! id = Some g -> slog_wf (g.1, g.2 ++ es) ->
    step s (mkSystem (<[id := (g.1, g.2 ++ es)]> (logs s)) (reader s))
| step_compacted s id (g : slog) n :
    logs s !! id = Some g -> 0 <= n <= len g.2 ->
    step s (mkSystem (<[id := (g.1 + n, drop (Z.to_nat n) g.2)]> (logs s)) (LogCompacted (reader s) id))
| step_query s id r max l rd :
    1 <= FirstIndex r -> FirstIndex r < LastIndex r ->
    Cached_QueryRaftLog (log_reader (logs s)) SizeUpperLimit (reader s) id r max = Ok (l, rd) ->
    step s (mkSystem (logs s) rd).

Inductive reachable (n : Z) : system -> Prop :=
| reachable_init : reachable n (mkSystem ∅ (mkCached n ∅))
| reachable_step s s' : reachable n s -> step s s' -> reachable n s'.

Definition system_ok (s : system) : Prop :=
  0 <= ShardCacheSize (reader s)
  /\ (forall id (g : slog), logs s !! id = Some g -> slog_wf g)
  /\ (forall id c, shardCache (reader s) !! id = Some c -> exists g : slog, logs s !! id = Some g /\ cache_ok g.1 g.2 c).

Context (Hview : forall g, slog_wf g -> shows g.1 g.2 (view g)).

(** A query of a system in a good state. *)
Lemma query_ok s id r max l rd :
  system_ok s -> 1 <= FirstIndex r < LastIndex r ->
  Cached_QueryRaftLog (log_reader (logs s)) SizeUpperLimit (reader s) id r max = Ok (l, rd) ->
  exists (g : slog) sh sh', logs s !! id = Some g /\ shardCache (reader s) !! id = Some sh
    /\ good_answer g.1 g.2 SizeUpperLimit sh r max (l, sh')
    /\ rd = mkCached (ShardCacheSize (reader s)) (<[id := sh']> (shardCache (reader s))).
Proof using Hview.
  intros (Hn & Hg & Hc) Hr. unfold Cached_QueryRaftLog. rewrite (proj2 (Z.eqb_neq _ _)) by lia.
  destruct (shardCache (reader s) !! id) as [sh|] eqn:Esh; [|done].
  destruct (Hc _ _ Esh) as (g & Eg & Hok). destruct (Hg _ _ Eg) as (W1 & W2 & W3).
  destruct (query_shard _ _ _ _ _ _) as [[l' sh']| |] eqn:Eq; [|done|done]. intros [= <- <-].
  exists g, sh, sh'. repeat (split; [done|]). split; [|done].
  eapply query_shard_spec; [done|done|done| |done|done|exact Eq].
  unfold log_reader. rewrite Eg. intros v [= <-]. apply Hview. by split.
Qed.

Lemma query_can s id r max (g : slog) sh :
  (forall g, slog_wf g -> readable g.1 g.2 (view g)) -> system_ok s ->
  logs s !! id = Some g -> shardCache (reader s) !! id = Some sh ->
  g.1 <= FirstIndex r < LastIndex r -> LastIndex r <= g.1 + len g.2 ->
  exists l rd, Cached_QueryRaftLog (log_reader (logs s)) SizeUpperLimit (reader s) id r max = Ok (l, rd).
Proof using Hview.
  intros Hread (Hn & Hg & Hc) Eg Esh Hr Hl. pose proof (Hg _ _ Eg) as Hwf. pose proof Hwf as (W1 & W2 & W3).
  destruct (Hc _ _ Esh) as (g' & Eg' & Hok). assert (g' = g) as -> by congruence.
  unfold Cached_QueryRaftLog. rewrite (proj2 (Z.eqb_neq _ _)) by lia. rewrite Esh.
  destruct (query_shard_can g.1 g.2 W1 W2 W3 (log_reader (logs s)) SizeUpperLimit id
              ltac:(unfold log_reader; rewrite Eg; intros v [= <-]; by apply Hview) (view g)
              ltac:(unfold log_reader; by rewrite Eg) (Hread _ Hwf) sh r max Hok Hr Hl) as [[l sh'] ->].
  by eexists _, _.
Qed.

Lemma step_system_ok s s' : step s s' -> system_ok s -> system_ok s'.
Proof using Hview.
  intros Hs Hok. pose proof Hok as (Hn & Hg & Hc).
  destruct Hs as [s id g Hid Hwf|s id|s id g es Hid Hwf|s id g n Hid Hr|s id r max l rd Hr1 Hr2 Hq].
  - split; [unfold NodeReady; by destruct (shardCache (reader s) !! id)|]. simpl. split.
    { intros id' g'. rewrite lookup_insert_Some. intros [[_ <-]|[_ H]]; eauto. }
    intros id' c. rewrite lookup_insert. unfold NodeReady. case_decide as E.
    + subst id'. destruct (shardCache (reader s) !! id) as [c'|] eqn:Ec.
      * intros H. destruct (Hc _ _ H) as (g' & Hg' & Hco). exists g. split; [done|].
        destruct Hid; congruence.
      * simpl. rewrite lookup_insert_eq. intros [= <-]. exists g. split; [done|]. by apply cache_ok_new.
    + destruct (shardCache (reader s) !! id); [apply Hc|]. simpl. rewrite lookup_insert_ne by done. apply Hc.
  - split; [done|]. simpl. split; intros id' x; rewrite lookup_delete_Some; intros [? H]; [eauto|].
    rewrite lookup_delete_ne by done. by apply Hc.
  - split; [done|]. simpl. split.
    { intros id' g'. rewrite lookup_insert_Some. intros [[_ <-]|[_ H]]; eauto. }
    intros id' c H. destruct (Hc _ _ H) as (g' & Hg' & Hco). rewrite lookup_insert. case_decide as E; [|eauto].
    subst id'. eexists. split; [done|]. assert (g' = g) as -> by congruence. by apply cache_ok_grow.
  - destruct (Hg _ _ Hid) as (W1 & W2 & W3). split; [done|]. simpl. split.
    { intros id' g'. rewrite lookup_insert_Some. intros [[_ <-]|[_ H]]; [by apply slog_wf_drop|eauto]. }
    intros id' c. rewrite !lookup_insert. case_decide as E; [|apply Hc].
    intros [= <-]. eexists. split; [done|]. by apply cache_ok_new.
  - destruct (query_ok _ _ _ _ _ _ Hok (conj Hr1 Hr2) Hq) as (g & sh & sh' & Eg & _ & Hans & ->).
    split; [done|]. simpl. split; [done|]. intros id' c. rewrite lookup_insert_Some.
    intros [[<- <-]|[_ H]]; [|by apply Hc]. exists g. split; [done|]. apply Hans.
Qed.

Lemma reachable_ok n s : 0 <= n -> reachable n s -> system_ok s.
Proof using Hview.
  intros Hn. induction 1 as [|s s' _ IH Hs]; [|by eapply step_system_ok].
  split; [done|]. split; intros id x; simpl; by rewrite lookup_empty.
Qed.
End System.

(** ** Claims *)

(** C11. What a follower is sent is the leader's log: from every state the log
    reader can reach while shards are started, deleted, appended to,
    compacted and queried, the answer to a query is either empty or exactly
    the entries of the shard's log from the first index asked for on, none
    skipped, none repeated, and none at or after the end of the range. *)
Theorem log_query_serves_log view SizeUpperLimit n s id r max l rd :
  (forall g, slog_wf g -> shows g.1 g.2 (view g)) -> 0 <= n ->
  reachable view SizeUpperLimit n s -> 1 <= FirstIndex r < LastIndex r ->
  Cached_QueryRaftLog (log_reader view (logs s)) SizeUpperLimit (reader s) id r max = Ok (l, rd) ->
  exists g : slog, logs s !! id = Some g /\ (l = [] \/ served g.1 g.2 r l).
Proof.
  intros Hv Hn Hs Hr Hq. apply (reachable_ok _ _ Hv) in Hs; [|done].
  destruct (query_ok _ _ Hv _ _ _ _ _ _ Hs Hr Hq) as (g & sh & sh' & Hg & _ & Hans & _).
  exists g. split; [done|]. apply Hans.
Qed.

(** C33. A lagging follower makes progress: from every state the log reader
    can reach, a query of a range inside the log of a shard is answered, never
    refused, if the Raft log can be read; when every entry is smaller than the
    size limit, the answer has at least the entry at the first index asked
    for, except when the cache starts exactly where the range ends. *)
Theorem log_query_progress view SizeUpperLimit n s id r max (g : slog) sh :
  (forall g, slog_wf g -> shows g.1 g.2 (view g)) -> (forall g, slog_wf g -> readable g.1 g.2 (view g)) ->
  0 <= n -> reachable view SizeUpperLimit n s ->
  logs s !! id = Some g -> shardCache (reader s) !! id = Some sh ->
  g.1 <= FirstIndex r < LastIndex r -> LastIndex r <= g.1 + len g.2 ->
  exists l rd,
    Cached_QueryRaftLog (log_reader view (logs s)) SizeUpperLimit (reader s) id r max = Ok (l, rd)
    /\ (fits g.2 SizeUpperLimit max -> smallestIndex sh <> LastIndex r ->
        served g.1 g.2 r l /\ exists e, head l = Some e /\ re_Index e = FirstIndex r).
Proof.
  intros Hv Hread Hn Hs Eg Esh Hr Hl. apply (reachable_ok _ _ Hv) in Hs; [|done].
  destruct (query_can view SizeUpperLimit Hv s id r max g sh Hread Hs Eg Esh Hr Hl) as (l & rd & Hq). exists l, rd. split; [done|].
  pose proof (proj1 (proj2 Hs) _ _ Eg) as (W1 & W2 & W3).
  assert (1 <= FirstIndex r < LastIndex r) as Hr1 by lia.
  destruct (query_ok _ _ Hv _ _ _ _ _ _ Hs Hr1 Hq) as (g' & sh1 & sh' & Eg' & Esh' & (_ & Hans & Hne) & _).
  assert (g' = g) as -> by congruence. assert (sh1 = sh) as -> by congruence. simpl in Hans, Hne.
  intros Hfit Hsm. assert (l <> []) by (apply Hne; [done|lia|done]). destruct Hans as [|Hans]; [done|]. split; [done|].
  destruct l as [|e l]; [done|]. exists e. split; [done|]. by eapply served_head.
Qed.

(** ** A log in memory *)

Definition mem_view (g : slog) : LogView :=
  mkLogView (g.1, g.1 + len g.2 - 1)
    (fun lo hi _ => Ok (take (Z.to_nat (hi - lo)) (drop (Z.to_nat (lo - g.1)) g.2))).

Lemma mem_view_shows g : slog_wf g -> shows g.1 g.2 (mem_view g).
Proof.
  intros _. split; [done|]. intros lo hi max l [= <-] Hlo Hhi. split; [|split].
  - split; [lia|]. apply prefix_take.
  - intros H. apply (f_equal length) in H. rewrite length_take, length_drop in H. unfold len in *. simpl in H. lia.
  - unfold len. rewrite length_take. lia.
Qed.

Definition ex_entry (i : Z) : rentry := mkREntry 1 i 0 [Byte.x01].
Definition ex_slog : slog := (5, [ex_entry 5; ex_entry 6; ex_entry 7; ex_entry 8]).
Definition ex_size (e : rentry) : Z := len (re_Cmd e) + 16.
(** The shard is ready, and the entries 5 and 6 have been asked for. *)
Definition ex_system (c : list rentry) : system := mkSystem {[1 := ex_slog]} (mkCached 3 {[1 := mkCache c 3]}).

Lemma ex_slog_wf : slog_wf ex_slog.
Proof. split; [simpl; tauto|]. unfold len. simpl. lia. Qed.

Lemma ex_reachable : reachable mem_view ex_size 3 (ex_system [ex_entry 5; ex_entry 6]).
Proof.
  apply (reachable_step _ _ _ (ex_system [])); [eapply reachable_step; [apply reachable_init|]|].
  - exact (step_ready _ _ (mkSystem ∅ (mkCached 3 ∅)) 1 ex_slog (or_introl eq_refl) ex_slog_wf).
  - apply (step_query _ _ (ex_system []) 1 (mkRange 5 7) 1000 [ex_entry 5; ex_entry 6]
             (reader (ex_system [ex_entry 5; ex_entry 6]))); [simpl; lia..|by vm_compute].
Qed.

Lemma log_query_serves_log_witness :
  Cached_QueryRaftLog (log_reader mem_view (logs (ex_system [ex_entry 5; ex_entry 6]))) ex_size
    (reader (ex_system [ex_entry 5; ex_entry 6])) 1 (mkRange 6 9) 1000
  = Ok ([ex_entry 6; ex_entry 7; ex_entry 8], reader (ex_system [ex_entry 6; ex_entry 7; ex_entry 8]))
  /\ exists g : slog, logs (ex_system [ex_entry 5; ex_entry 6]) !! 1 = Some g
     /\ ([ex_entry 6; ex_entry 7; ex_entry 8] = [] \/ served g.1 g.2 (mkRange 6 9) [ex_entry 6; ex_entry 7; ex_entry 8]).
Proof.
  split; [by vm_compute|].
  apply (log_query_serves_log mem_view ex_size 3 (ex_system [ex_entry 5; ex_entry 6]) 1 (mkRange 6 9) 1000 _
           (reader (ex_system [ex_entry 6; ex_entry 7; ex_entry 8])));
    [apply mem_view_shows|lia|apply ex_reachable|simpl; lia|by vm_compute].
Defined.

Lemma mem_view_readable g : slog_wf g -> readable g.1 g.2 (mem_view g).
Proof. intros _ lo hi max _ _. by eexists. Qed.

Lemma ex_fits : fits ex_slog.2 ex_size 1000.
Proof.
  split; [lia|]. simpl. intros e He. assert (ex_size e = 17) as ->; [|lia].
  repeat (apply elem_of_cons in He as [->|He]; [done|]). by apply elem_of_nil in He.
Qed.

Lemma log_query_progress_witness :
  exists l rd,
    Cached_QueryRaftLog (log_reader mem_view (logs (ex_system [ex_entry 5; ex_entry 6]))) ex_size
      (reader (ex_system [ex_entry 5; ex_entry 6])) 1 (mkRange 6 9) 1000 = Ok (l, rd)
    /\ l <> [] /\ head l = Some (ex_entry 6).
Proof.
  destruct (log_query_progress mem_view ex_size 3 (ex_system [ex_entry 5; ex_entry 6]) 1 (mkRange 6 9) 1000
              ex_slog (mkCache [ex_entry 5; ex_entry 6] 3) mem_view_shows mem_view_readable ltac:(lia)
              ex_reachable eq_refl eq_refl ltac:(simpl; lia) ltac:(by vm_compute)) as (l & rd & Hq & H).
  exists l, rd. split; [exact Hq|]. destruct (H ex_fits ltac:(by vm_compute)) as (_ & e & He & _).
  vm_compute in Hq. injection Hq as <- <-. done.
Defined.

(** ** Where a lagging follower is told that nothing is new *)

(** The cache starts where the range ends: the entries in front of it are not
    read from the log. *)
Example query_before_cache_is_empty :
  let sh := mkCache [ex_entry 7; ex_entry 8] 3 in
  cache_ok 5 (snd ex_slog) sh
  /\ query_shard (fun _ => Ok (mem_view ex_slog)) ex_size sh 1 (mkRange 5 7) 1000 = Ok ([], sh)
  /\ Simple_QueryRaftLog (fun _ => Ok (mem_view ex_slog)) 1 (mkRange 5 7) 1000 = Ok [ex_entry 5; ex_entry 6].
Proof.
  split; [|by vm_compute]. split; [done|]. split; [done|]. intros _. exists 7. split; [lia|]. by exists [].
Qed.

(** A cached entry that reaches the size limit is never sent. *)
Example query_of_large_entry_is_empty :
  let sh := mkCache [ex_entry 5] 3 in
  cache_ok 5 (snd ex_slog) sh
  /\ query_shard (fun _ => Ok (mem_view ex_slog)) ex_size sh 1 (mkRange 5 6) 17 = Ok ([], sh).
Proof.
  split; [|by vm_compute]. split; [done|]. split; [done|]. intros _. exists 5. split; [lia|]. by eexists.
Qed.
