(* ===== verification/GoStd.v ===== *)
(** * What the program uses of the Go standard library

    Strings and paths ([strings], [path], [path/filepath] on Unix), decimal
    numbers ([strconv]), valid UTF-8, sorting, and the interface of
    [encoding/json] with its documented law. *)

From S2P Require Import Prelude.

(** ** strings *)

Definition slash : byte := Byte.x2f.
Definition dot : byte := Byte.x2e.

Fixpoint HasPrefix (s prefix : bytes) : bool :=
  match prefix, s with
  | [], _ => true
  | p :: prefix', c :: s' => bool_decide (p = c) && HasPrefix s' prefix'
  | _ :: _, [] => false
  end.
Definition TrimPrefix (s prefix : bytes) : bytes :=
  if HasPrefix s prefix then drop (length prefix) s else s.

(** [strings.Split(s, "/")]. *)
Fixpoint split_slash (s : bytes) : list bytes :=
  match s with
  | [] => [[]]
  | c :: s' =>
      if decide (c = slash) then [] :: split_slash s'
      else match split_slash s' with
           | [] => [[c]]
           | t :: ts => (c :: t) :: ts
           end
  end.

Fixpoint join_slash (ts : list bytes) : bytes :=
  match ts with
  | [] => []
  | [t] => t
  | t :: ts' => t ++ slash :: join_slash ts'
  end.

(** ** path *)

(** One element of [path.Clean]: the elements kept so far, last first. *)
Definition clean_step (rooted : bool) (kept : list bytes) (t : bytes) : list bytes :=
  if decide (t = []) then kept
  else if decide (t = [dot]) then kept
  else if decide (t = [dot; dot]) then
    match kept with
    | x :: kept' => if decide (x = [dot; dot]) then t :: kept else kept'
    | [] => if rooted then [] else [t]
    end
  else t :: kept.

Definition path_Clean (p : bytes) : bytes :=
  let rooted := match p with c :: _ => bool_decide (c = slash) | [] => false end in
  let ts := join_slash (reverse (foldl (clean_step rooted) [] (split_slash p))) in
  if rooted then slash :: ts else match ts with [] => [dot] | _ => ts end.

(** [path.Join]: the non-empty elements, cleaned. *)
Definition path_Join (elem : list bytes) : bytes :=
  match filter (fun e => e <> []) elem with
  | [] => []
  | es => path_Clean (join_slash es)
  end.

(** What follows the last slash, last byte first, and what precedes it. *)
Fixpoint cut_slash (r : bytes) : bytes * bytes :=
  match r with
  | [] => ([], [])
  | c :: r' => if decide (c = slash) then ([], r) else let '(f, d) := cut_slash r' in (c :: f, d)
  end.
Definition path_Split (p : bytes) : bytes * bytes :=
  let '(f, d) := cut_slash (reverse p) in (reverse d, reverse f).
Definition path_Dir (p : bytes) : bytes := path_Clean (path_Split p).1.

Fixpoint strip_slashes (r : bytes) : bytes :=
  match r with c :: r' => if decide (c = slash) then strip_slashes r' else r | [] => [] end.
Definition path_Base (p : bytes) : bytes :=
  if decide (p = []) then [dot] else
  let p := reverse (strip_slashes (reverse p)) in
  match (path_Split p).2 with [] => [slash] | b => b end.

(** [path.Match] for patterns of literal bytes and stars, the only ones the
    program builds: a star matches any bytes but a slash. *)
Definition star : byte := Byte.x2a.
Fixpoint path_Match (pattern : bytes) : bytes -> bool :=
  match pattern with
  | [] => fun name => bool_decide (name = [])
  | c :: pattern' =>
      if decide (c = star) then
        fix skip name :=
          path_Match pattern' name ||
          match name with
          | [] => false
          | x :: name' => negb (bool_decide (x = slash)) && skip name'
          end
      else fun name => match name with [] => false | x :: name' => bool_decide (c = x) && path_Match pattern' name' end
  end.

(** ** strconv *)

Definition digit (d : Z) : byte := Z_byte (48 + d).

(** The digits of a [uint64], of which there are at most 20. *)
Fixpoint digits_go (fuel : nat) (n : Z) (acc : bytes) : bytes :=
  match fuel with
  | O => acc
  | S fuel' => let acc := digit (n mod 10) :: acc in if n <? 10 then acc else digits_go fuel' (n / 10) acc
  end.
(** [strconv.FormatUint(n, 10)]. *)
Definition FormatUint (n : Z) : bytes := digits_go 20 n [].

(** [strconv.ParseUint(s, 10, 64)]. *)
Fixpoint parse_go (s : bytes) (n : Z) : res Z :=
  match s with
  | [] => Ok n
  | c :: s' =>
      let d := byte_Z c - 48 in
      if (d <? 0) || (9 <? d) then Err ErrSyntax
      else if (2 ^ 64 - 1) / 10 + 1 <=? n then Err ErrRange
      else if 2 ^ 64 <=? n * 10 + d then Err ErrRange
      else parse_go s' (n * 10 + d)
  end.
Definition ParseUint (s : bytes) : res Z := match s with [] => Err ErrSyntax | _ => parse_go s 0 end.

(** ** Valid UTF-8 ([utf8.Valid]) *)

Definition between (lo hi : Z) (b : byte) : bool := (lo <=? byte_Z b) && (byte_Z b <=? hi).
Definition cont (b : byte) : bool := between 0x80 0xBF b.
Fixpoint utf8_valid (s : bytes) : bool :=
  match s with
  | [] => true
  | a :: s1 =>
      if between 0 0x7F a then utf8_valid s1 else
      match s1 with
      | [] => false
      | b :: s2 =>
          if between 0xC2 0xDF a then cont b && utf8_valid s2 else
          match s2 with
          | [] => false
          | c :: s3 =>
              if between 0xE0 0xEF a then
                (if decide (a = Byte.xe0) then between 0xA0 0xBF b
                 else if decide (a = Byte.xed) then between 0x80 0x9F b else cont b)
                && cont c && utf8_valid s3
              else
                match s3 with
                | [] => false
                | d :: s4 =>
                    between 0xF0 0xF4 a
                    && (if decide (a = Byte.xf0) then between 0x90 0xBF b
                        else if decide (a = Byte.xf4) then between 0x80 0x8F b else cont b)
                    && cont c && cont d && utf8_valid s4
                end
          end
      end
  end.

(** ** slices.Sort on strings *)

Definition sort_strings (l : list bytes) : list bytes := merge_sort bytes_le l.

(** ** encoding/json *)

(** [json.Marshal] and [json.Unmarshal] into a fresh value of the type. *)
Class Json (A : Type) := {
  json_Marshal : A -> res bytes;
  json_Unmarshal : bytes -> res A
}.
(** Values that JSON can represent, in particular all their strings are
    valid UTF-8, come back. *)
Class JsonLaws (A : Type) {J : Json A} (representable : A -> Prop) := {
  json_total a : representable a -> exists b, json_Marshal a = Ok b;
  json_roundtrip a b : representable a -> json_Marshal a = Ok b -> json_Unmarshal b = Ok a;
  json_decoded b a : json_Unmarshal b = Ok a -> representable a;
  json_utf8 a b : json_Marshal a = Ok b -> utf8_valid b = true
}.

(** ** Lemmas *)

Lemma HasPrefix_spec s prefix : HasPrefix s prefix = true <-> exists t, s = prefix ++ t.
Proof.
  revert s. induction prefix as [|p prefix IH]; intros [|c s]; simpl.
  - split; [by exists []|done].
  - split; [by eexists|done].
  - split; [done|]. by intros [t ?].
  - rewrite andb_true_iff, bool_decide_eq_true, IH. split.
    + intros [-> [t ->]]. by exists t.
    + intros [t [= -> ->]]. eauto.
Qed.

Lemma path_Match_star_end name : path_Match [star] name = true <-> slash ∉ name.
Proof.
  simpl. induction name as [|x name IH]; simpl; [by split; [intros _; apply not_elem_of_nil|]|].
  rewrite not_elem_of_cons. destruct (decide (x = slash)) as [->|Hx].
  - rewrite bool_decide_eq_true_2 by done. simpl. split; [done|]. by intros [? _].
  - rewrite bool_decide_eq_false_2 by done. simpl. rewrite IH. split; [done|]. by intros [_ ?].
Qed.

(** A literal followed by a star. *)
Lemma path_Match_prefix p name :
  star ∉ p -> path_Match (p ++ [star]) name = true <-> exists t, name = p ++ t /\ slash ∉ t.
Proof.
  intros Hp. revert name. induction p as [|c p IH]; intros name.
  - rewrite path_Match_star_end. split; [by exists name|]. by intros (t & -> & ?).
  - apply not_elem_of_cons in Hp as [Hc Hp]. cbn [app path_Match]. rewrite decide_False by done.
    destruct name as [|x name]; [split; [done|]; by intros (t & ? & _)|].
    rewrite andb_true_iff, bool_decide_eq_true, (IH Hp). split.
    + intros (-> & t & -> & Ht). by exists t.
    + intros (t & [= -> ->] & Ht). eauto.
Qed.

Lemma digits_go_app fuel n acc : digits_go fuel n acc = digits_go fuel n [] ++ acc.
Proof.
  revert n acc. induction fuel as [|fuel IH]; intros n acc; simpl; [done|].
  destruct (n <? 10); [done|]. rewrite IH, (IH _ [_]), <- app_assoc. done.
Qed.

Lemma parse_go_app a b n : parse_go (a ++ b) n = (parse_go a n ≫= parse_go b).
Proof. revert n. induction a as [|c a IH]; intros n; simpl; [done|]. repeat (case_match; [done|]). apply IH. Qed.

Lemma parse_digit n d :
  0 <= d <= 9 -> 0 <= n -> n * 10 + d < 2 ^ 64 -> parse_go [digit d] n = Ok (n * 10 + d).
Proof.
  intros Hd Hn Hlt. simpl. unfold digit. rewrite byte_Z_of, Z.mod_small by lia.
  replace (48 + d - 48) with d by lia.
  rewrite (proj2 (Z.ltb_ge d 0)), (proj2 (Z.ltb_ge 9 d)) by lia. simpl.
  change ((2 ^ 64 - 1) / 10 + 1) with 1844674407370955162. change (2 ^ 64) with 18446744073709551616 in *.
  rewrite (proj2 (Z.leb_gt 1844674407370955162 n)), (proj2 (Z.leb_gt 18446744073709551616 (n * 10 + d))) by lia. done.
Qed.

Lemma parse_digits_go fuel n :
  0 <= n < 2 ^ 64 -> n < 10 ^ Z.of_nat fuel -> fuel <> O -> parse_go (digits_go fuel n []) 0 = Ok n.
Proof.
  revert n. induction fuel as [|fuel IH]; intros n Hn Hf Hne; [done|]. cbn [digits_go].
  pose proof (Z.mod_pos_bound n 10 ltac:(lia)). pose proof (Z.div_mod n 10 ltac:(lia)).
  destruct (Z.ltb_spec n 10).
  - rewrite Z.mod_small by lia. rewrite parse_digit by lia. done.
  - rewrite digits_go_app, parse_go_app.
    rewrite Nat2Z.inj_succ, Z.pow_succ_r in Hf by lia.
    rewrite IH; [|split; [apply Z.div_pos|apply Z.div_lt_upper_bound]; lia|apply Z.div_lt_upper_bound; lia|].
    + cbn [mbind res_bind]. rewrite parse_digit; [f_equal; lia|lia|apply Z.div_pos; lia|lia].
    + intros ->. simpl in Hf. lia.
Qed.

Lemma digits_go_nonempty fuel n acc : digits_go (S fuel) n acc <> [].
Proof.
  cbn [digits_go]. destruct (n <? 10); [done|]. rewrite digits_go_app. by intros [_ ?]%app_nil.
Qed.

Lemma ParseUint_FormatUint n : is_uint64 n -> ParseUint (FormatUint n) = Ok n.
Proof.
  intros Hn. unfold ParseUint, FormatUint.
  destruct (digits_go 20 n []) as [|c l] eqn:E; [by apply digits_go_nonempty in E|].
  rewrite <- E. apply parse_digits_go; [done| |done]. unfold is_uint64 in Hn. simpl. lia.
Qed.

Lemma ParseUint_range s n : ParseUint s = Ok n -> is_uint64 n.
Proof.
  assert (forall s m, 0 <= m < 2 ^ 64 -> parse_go s m = Ok n -> is_uint64 n) as H.
  { clear s. induction s as [|c s IH]; intros m Hm; simpl; [by intros [= <-]|].
    destruct ((byte_Z c - 48 <? 0) || (9 <? byte_Z c - 48)) eqn:E; [done|].
    apply orb_false_iff in E as [E1%Z.ltb_ge E2%Z.ltb_ge]. case_match; [done|].
    destruct (Z.leb_spec (2 ^ 64) (m * 10 + (byte_Z c - 48))); [done|]. apply IH. lia. }
  unfold ParseUint. destruct s; [done|]. by apply H.
Qed.

Lemma FormatUint_digits n c : c ∈ FormatUint n -> between 48 57 c = true.
Proof.
  unfold FormatUint. generalize 20%nat. intros fuel. assert (c ∈ @nil byte -> between 48 57 c = true) as H by (by intros ?%not_elem_of_nil).
  revert H. generalize (@nil byte). revert n. induction fuel as [|fuel IH]; intros n acc Hacc; simpl; [done|].
  assert (c ∈ digit (n mod 10) :: acc -> between 48 57 c = true) as Hc.
  { intros [->|?]%elem_of_cons; [|auto]. unfold between, digit. pose proof (Z.mod_pos_bound n 10 ltac:(lia)).
    rewrite byte_Z_of, Z.mod_small by lia. rewrite (proj2 (Z.leb_le _ _)), (proj2 (Z.leb_le _ _)) by lia. done. }
  destruct (n <? 10); [done|]. by apply IH.
Qed.

(** ** A codec for witnesses

    Any countable type has a codec that satisfies the laws of [Json]. *)

Fixpoint pos_bytes (p : positive) : bytes :=
  match p with
  | xH => []
  | xO p' => Byte.x30 :: pos_bytes p'
  | xI p' => Byte.x31 :: pos_bytes p'
  end.
Fixpoint bytes_pos (b : bytes) : option positive :=
  match b with
  | [] => Some xH
  | c :: b' => if decide (c = Byte.x30) then xO <$> bytes_pos b'
               else if decide (c = Byte.x31) then xI <$> bytes_pos b' else None
  end.

Lemma bytes_pos_bytes p : bytes_pos (pos_bytes p) = Some p.
Proof. induction p as [p IH|p IH|]; simpl; [by rewrite IH|by rewrite IH|done]. Qed.

Lemma pos_bytes_utf8 p : utf8_valid (pos_bytes p) = true.
Proof. induction p; simpl; done. Qed.

Section CountableJson.
Context {A : Type} {EqA : EqDecision A} {CA : Countable A} (ok : A -> bool).

Definition countable_json : Json A := {|
  json_Marshal a := Ok (pos_bytes (encode a));
  json_Unmarshal b :=
    match bytes_pos b ≫= decode with
    | Some a => if ok a then Ok a else Err ErrSyntax
    | None => Err ErrSyntax
    end
|}.

Lemma countable_json_laws : @JsonLaws A countable_json (fun a => ok a = true).
Proof.
  constructor; simpl.
  - eauto.
  - intros a b Ha [= <-]. rewrite bytes_pos_bytes. simpl. rewrite decode_encode. by rewrite Ha.
  - intros b a. destruct (bytes_pos b ≫= decode) as [x|]; [|done]. destruct (ok x) eqn:E; [|done]. by intros [= <-].
  - intros a b [= <-]. apply pos_bytes_utf8.
Qed.
End CountableJson.

(** ** UTF-8 lemmas *)

Lemma utf8_ascii s : (forall c, c ∈ s -> between 0 0x7F c = true) -> utf8_valid s = true.
Proof.
  induction s as [|a s IH]; intros H; [done|]. cbn [utf8_valid]. rewrite (H a) by (apply list_elem_of_here).
  apply IH. intros c Hc. apply H. by apply list_elem_of_further.
Qed.

Lemma utf8_app a b : utf8_valid a = true -> utf8_valid b = true -> utf8_valid (a ++ b) = true.
Proof.
  intros Ha Hb. remember (length a) as n eqn:Hn. revert a Ha Hn.
  induction n as [n IH] using lt_wf_ind. intros [|x a] Ha ->; [done|]. revert Ha. cbn [app utf8_valid].
  destruct (between 0 127 x); [intros Ha; by eapply IH; [|exact Ha|reflexivity]; simpl; lia|].
  destruct a as [|y a]; [done|]. cbn [app].
  destruct (between 194 223 x).
  { rewrite !andb_true_iff. intros [-> Ha]. split; [done|]. eapply IH; [|exact Ha|reflexivity]. simpl. lia. }
  destruct a as [|z a]; [done|]. cbn [app].
  destruct (between 224 239 x).
  { rewrite !andb_true_iff. intros [[-> ->] Ha]. repeat (split; [done|]). eapply IH; [|exact Ha|reflexivity]. simpl. lia. }
  destruct a as [|u a]; [done|]. cbn [app].
  rewrite !andb_true_iff. intros [[[[-> ->] ->] ->] Ha]. repeat (split; [done|]). eapply IH; [|exact Ha|reflexivity]. simpl. lia.
Qed.

Lemma FormatUint_utf8 n : utf8_valid (FormatUint n) = true.
Proof.
  apply utf8_ascii. intros c Hc%FormatUint_digits. unfold between in *.
  rewrite !andb_true_iff, !Z.leb_le in *. lia.
Qed.
