(* ===== verification/Effects.v ===== *)
(** * Programs with effects and their interleavings

    The manager and the replication code are sequences of calls to shared
    services: the metadata store, the Raft host, the clock.  A program is the
    tree of its calls; several programs run on several nodes, their calls
    interleaved.  [wp] says that a program keeps a guarantee at every call of
    its own when everybody else does the same in between, and [pool_sound]
    that a pool of such programs keeps the invariant. *)

From S2P Require Import Prelude.

(** ** Programs *)

Inductive prog (E : Type -> Type) (A : Type) : Type :=
  | Ret (a : A)
  | Vis {X : Type} (e : E X) (k : X -> prog E A).
Arguments Ret {E A} a.
Arguments Vis {E A X} e k.

Fixpoint pbind {E A B} (p : prog E A) (f : A -> prog E B) : prog E B :=
  match p with
  | Ret a => f a
  | Vis e k => Vis e (fun x => pbind (k x) f)
  end.

(** A program whose result is a Go outcome: an error or a panic ends it. *)
Definition M (E : Type -> Type) (A : Type) : Type := prog E (res A).
Definition M_ret {E A} (a : A) : M E A := Ret (Ok a).
Definition M_err {E A} (e : error) : M E A := Ret (Err e).
Definition M_bind {E A B} (p : M E A) (f : A -> M E B) : M E B :=
  pbind p (fun r => match r with Ok a => f a | Err e => Ret (Err e) | Panic => Ret Panic end).

(** One call; its own result may be an outcome. *)
Definition perform {E X} (e : E X) : prog E X := Vis e Ret.
Definition lift {E A} (r : res A) : M E A := Ret r.

Declare Scope prog_scope.
Delimit Scope prog_scope with prog.
Notation "x <- p ; q" := (M_bind p (fun x => q)) (at level 20, p at level 100, q at level 200) : prog_scope.
Notation "' pat <- p ; q" := (M_bind p (fun x => match x with pat => q end))
  (at level 20, pat pattern, p at level 100, q at level 200) : prog_scope.
(** Binds the outcome itself, for code that looks at the error. *)
Notation "x <~ p ; q" := (pbind p (fun x => q)) (at level 20, p at level 100, q at level 200) : prog_scope.

(** [for _, x := range l { ... }]. *)
Fixpoint M_iter {E A} (f : A -> M E unit) (l : list A) : M E unit :=
  match l with
  | [] => M_ret tt
  | x :: l' => M_bind (f x) (fun _ => M_iter f l')
  end.

(** ** One program alone *)

Section Exec.
Context {E : Type -> Type} {St : Type} (handles : St -> forall X, E X -> X -> St -> Prop).

(** A run of a program from a state to a result and a state. *)
Fixpoint exec {A} (p : prog E A) (s : St) (a : A) (s' : St) : Prop :=
  match p with
  | Ret x => x = a /\ s = s'
  | @Vis _ _ X e k => exists (x : X) s1, handles s X e x s1 /\ exec (k x) s1 a s'
  end.

Lemma exec_bind {A B} (p : prog E A) (f : A -> prog E B) s b s' :
  exec (pbind p f) s b s' <-> exists a s1, exec p s a s1 /\ exec (f a) s1 b s'.
Proof.
  revert s. induction p as [a|X e k IH]; simpl; intros s.
  - split; [intros H; by exists a, s|]. by intros (a' & s1 & [<- <-] & H).
  - split.
    + intros (x & s1 & Hx & (a & s2 & ? & ?)%IH). eauto 10.
    + intros (a & s1 & (x & s2 & Hx & Hk) & Hf). exists x, s2. split; [done|]. apply IH. eauto.
Qed.

(** The bind of outcomes: the rest runs after a success. *)
Lemma exec_M_bind {A B} (p : M E A) (f : A -> M E B) s b s' :
  exec (M_bind p f) s (Ok b) s' -> exists a s1, exec p s (Ok a) s1 /\ exec (f a) s1 (Ok b) s'.
Proof.
  unfold M_bind. rewrite exec_bind. intros ([a|e|] & s1 & Hp & Hf); [eauto|by destruct Hf..].
Qed.

Lemma exec_perform {X} (e : E X) s x s' : exec (perform e) s x s' -> handles s X e x s'.
Proof. intros (x' & s1 & H & <- & <-). done. Qed.

(** A call that has to succeed to go on. *)
Lemma exec_M_call {A B} (p : M E A) (f : A -> M E B) s out s' :
  exec (M_bind p f) s out s' ->
  exists x s1, exec p s x s1
    /\ match x with Ok a => exec (f a) s1 out s' | Err e => out = Err e /\ s' = s1 | Panic => out = Panic /\ s' = s1 end.
Proof.
  intros (x & s1 & Hp & Hf)%exec_bind. exists x, s1. split; [done|]. destruct x; [done|by destruct Hf as [<- <-]..].
Qed.

Lemma exec_M_ok {A B} (p : M E A) (f : A -> M E B) s a s1 out s' :
  exec p s (Ok a) s1 -> exec (f a) s1 out s' -> exec (M_bind p f) s out s'.
Proof. intros Hp Hf. apply exec_bind. eauto. Qed.
Lemma exec_call {X} (e : E X) s x s' : handles s X e x s' -> exec (perform e) s x s'.
Proof. intros Hx. by exists x, s'. Qed.
End Exec.

(** ** Crashes *)

Section Crash.
Context {E : Type -> Type} {St : Type} (handles : St -> forall X, E X -> X -> St -> Prop).

(** The states in which a run may be cut off: between any two calls. *)
Fixpoint cut {A} (p : prog E A) (s s' : St) : Prop :=
  s = s' \/ match p with
            | Ret _ => False
            | @Vis _ _ X e k => exists (x : X) s1, handles s X e x s1 /\ cut (k x) s1 s'
            end.

Lemma cut_bind {A B} (p : prog E A) (f : A -> prog E B) s s' :
  cut (pbind p f) s s' -> cut p s s' \/ exists a s1, exec handles p s a s1 /\ cut (f a) s1 s'.
Proof.
  revert s. induction p as [a|X e k IH]; cbn; intros s H; [right; by exists a, s|].
  destruct H as [H|(x & s1 & Hx & H)]; [by left; left|]. apply IH in H as [H|(a & s2 & Ha & H)].
  - left. right. eauto.
  - right. exists a, s2. eauto 10.
Qed.

Lemma cut_M_bind {A B} (p : M E A) (f : A -> M E B) s s' :
  cut (M_bind p f) s s' -> cut p s s' \/ exists a s1, exec handles p s (Ok a) s1 /\ cut (f a) s1 s'.
Proof.
  intros [H|(r & s1 & Hr & H)]%cut_bind; [by left|]. destruct r as [a|e|]; [by right; exists a, s1| |].
  all: destruct H as [<-|[]]; left; clear -Hr; revert s Hr; induction p as [a|X ev k IH]; cbn; [by intros s [_ ->]; left|].
  all: intros s (x & s2 & Hx & Hk); right; exists x, s2; eauto.
Qed.

Lemma cut_after {A B} (p : prog E A) (f : A -> prog E B) s a s1 s' :
  exec handles p s a s1 -> cut (f a) s1 s' -> cut (pbind p f) s s'.
Proof.
  revert s. induction p as [x|X e k IH]; cbn; intros s; [by intros [-> ->]|].
  intros (x & s2 & Hx & Hk) Hf. right. eauto.
Qed.
Lemma cut_M_after {A B} (p : M E A) (f : A -> M E B) s a s1 s' :
  exec handles p s (Ok a) s1 -> cut (f a) s1 s' -> cut (M_bind p f) s s'.
Proof. intros Hp Hf. by eapply cut_after. Qed.
Lemma cut_within {A B} (p : prog E A) (f : A -> prog E B) s s' : cut p s s' -> cut (pbind p f) s s'.
Proof.
  revert s. induction p as [x|X e k IH]; cbn; intros s [<-|H]; [destruct (f x); by left|done|by left|].
  destruct H as (x & s1 & Hx & H). right. eauto.
Qed.
Lemma cut_here {A} (p : prog E A) s : cut p s s.
Proof. destruct p; by left. Qed.

Lemma exec_cut {A} (p : prog E A) s a s' : exec handles p s a s' -> cut p s s'.
Proof.
  revert s. induction p as [x|X e k IH]; cbn; intros s; [intros [_ ->]; by left|].
  intros (x & s1 & Hx & Hk). right. eauto.
Qed.

(** A program whose calls all keep a property of the state and whose result
    satisfies [Q]. *)
Fixpoint keeps (J : St -> Prop) {A} (p : prog E A) (Q : A -> Prop) : Prop :=
  match p with
  | Ret a => Q a
  | @Vis _ _ X e k => forall s (x : X) s1, J s -> handles s X e x s1 -> J s1 /\ keeps J (k x) Q
  end.

Lemma keeps_cut J {A} (p : prog E A) Q s s' : keeps J p Q -> J s -> cut p s s' -> J s'.
Proof.
  revert s. induction p as [a|X e k IH]; cbn; intros s Hk HJ [<-|H]; try done.
  destruct H as (x & s1 & Hx & H). destruct (Hk s x s1 HJ Hx). eauto.
Qed.

Lemma keeps_exec J {A} (p : prog E A) Q s a s' : keeps J p Q -> J s -> exec handles p s a s' -> J s' /\ Q a.
Proof.
  revert s. induction p as [x|X e k IH]; cbn; intros s Hk HJ; [by intros [-> ->]|].
  intros (x & s1 & Hx & H). destruct (Hk s x s1 HJ Hx). eauto.
Qed.

Lemma keeps_mono J {A} (p : prog E A) (Q Q' : A -> Prop) : (forall a, Q a -> Q' a) -> keeps J p Q -> keeps J p Q'.
Proof. intros HQ. induction p as [a|X e k IH]; cbn; [apply HQ|]. intros Hp s x s1 HJ Hx. destruct (Hp s x s1 HJ Hx). eauto. Qed.

Lemma keeps_bind J {A B} (p : prog E A) (f : A -> prog E B) Q :
  keeps J p (fun a => keeps J (f a) Q) -> keeps J (pbind p f) Q.
Proof.
  intros Hp. induction p as [a|X e k IH]; cbn in *; [done|]. intros s x s1 HJ Hx. destruct (Hp s x s1 HJ Hx). eauto.
Qed.

Lemma keeps_M_bind J {A B} (p : M E A) (f : A -> M E B) :
  keeps J p (fun r => forall a, r = Ok a -> keeps J (f a) (fun _ => True)) -> keeps J (M_bind p f) (fun _ => True).
Proof. intros Hp. apply keeps_bind. eapply keeps_mono; [|done]. intros [a|e|] H; [by apply H|done..]. Qed.

(** Two parts, one after the other. *)
Lemma keeps_seq J {A B} (p : M E A) (f : A -> M E B) :
  keeps J p (fun _ => True) -> (forall a, keeps J (f a) (fun _ => True)) -> keeps J (M_bind p f) (fun _ => True).
Proof. intros Hp Hf. apply keeps_M_bind. eapply keeps_mono; [|done]. eauto. Qed.
Lemma keeps_then J {A B} (p : prog E A) (f : A -> prog E B) :
  keeps J p (fun _ => True) -> (forall a, keeps J (f a) (fun _ => True)) -> keeps J (pbind p f) (fun _ => True).
Proof. intros Hp Hf. apply keeps_bind. eapply keeps_mono; [|done]. eauto. Qed.

Lemma keeps_call J {X} (e : E X) (Q : X -> Prop) :
  (forall s x s1, J s -> handles s X e x s1 -> J s1 /\ Q x) -> keeps J (perform e) Q.
Proof. intros H s x s1 HJ Hx. by eapply H. Qed.

Lemma keeps_iter J {A} (f : A -> M E unit) l :
  (forall x, x ∈ l -> keeps J (f x) (fun _ => True)) -> keeps J (M_iter f l) (fun _ => True).
Proof.
  induction l as [|x l IH]; intros H; [done|]. cbn [M_iter]. apply keeps_M_bind.
  eapply keeps_mono; [|apply H, list_elem_of_here]. intros r _ [] _.
  apply IH. intros y Hy. apply H. by apply list_elem_of_further.
Qed.

(** A program all of whose calls satisfy [C], whatever their results. *)
Fixpoint calls (C : forall X, E X -> Prop) {A} (p : prog E A) : Prop :=
  match p with
  | Ret _ => True
  | @Vis _ _ X e k => C X e /\ forall x : X, calls C (k x)
  end.

Lemma calls_keeps C J {A} (p : prog E A) :
  (forall X (e : E X) s x s', C X e -> J s -> handles s X e x s' -> J s') -> calls C p -> keeps J p (fun _ => True).
Proof. intros HC. induction p as [a|X e k IH]; cbn; [done|]. intros [He Hk] s x s1 HJ Hx. split; [by eapply HC|auto]. Qed.

Lemma calls_bind C {A B} (p : prog E A) (f : A -> prog E B) :
  calls C p -> (forall a, calls C (f a)) -> calls C (pbind p f).
Proof. intros Hp Hf. induction p as [a|X e k IH]; cbn in *; [done|]. destruct Hp as [He Hk]. auto. Qed.

Lemma calls_M_bind C {A B} (p : M E A) (f : A -> M E B) :
  calls C p -> (forall a, calls C (f a)) -> calls C (M_bind p f).
Proof. intros Hp Hf. apply calls_bind; [done|]. by intros [a|e|]. Qed.

Lemma calls_perform (C : forall X, E X -> Prop) {X} (e : E X) : C X e -> calls C (perform e).
Proof. done. Qed.
End Crash.

(** ** Interleavings *)

Section Interleaving.
Context {E : Type -> Type} {St G Node : Type}.
(** A call of a node in a state, its result and the state after it; what
    happens without a call (time passes). *)
Context (handles : Node -> St -> forall X, E X -> X -> St -> Prop) (env : St -> St -> Prop).
(** What a node may do, on the state and a ghost state; what always holds. *)
Context (guar : Node -> St * G -> St * G -> Prop) (Inv : St * G -> Prop).

(** A step of somebody. *)
Definition any (w w' : St * G) : Prop :=
  (exists n, guar n w w') \/ (env w.1 w'.1 /\ w.2 = w'.2).

(** At every call, after any steps of others, the guarantee is kept for some
    ghost state, and so on; [Q] holds of the result. *)
Fixpoint wp {A} (n : Node) (p : prog E A) (Q : A -> St * G -> Prop) (w : St * G) {struct p} : Prop :=
  match p with
  | Ret a => forall w1, rtc any w w1 -> Inv w1 -> Q a w1
  | @Vis _ _ X e k =>
      forall w1, rtc any w w1 -> Inv w1 ->
      forall (x : X) s2, handles n w1.1 X e x s2 ->
      exists g2, guar n w1 (s2, g2) /\ Inv (s2, g2) /\ wp n (k x) Q (s2, g2)
  end.

Lemma wp_rely {A} n (p : prog E A) Q w w' : wp n p Q w -> rtc any w w' -> wp n p Q w'.
Proof. destruct p; simpl; intros H Hr w1 H1; apply H; by etrans. Qed.

Lemma wp_mono {A} n (p : prog E A) (Q Q' : A -> St * G -> Prop) w :
  (forall a w, Q a w -> Q' a w) -> wp n p Q w -> wp n p Q' w.
Proof.
  intros HQ. revert w. induction p as [a|X e k IH]; simpl; intros w H; [eauto|].
  intros w1 Hr HI x s2 Hx. destruct (H w1 Hr HI x s2 Hx) as (g2 & ? & ? & ?). eauto.
Qed.

Lemma wp_bind {A B} n (p : prog E A) (f : A -> prog E B) Q w :
  wp n p (fun a w' => wp n (f a) Q w') w -> wp n (pbind p f) Q w.
Proof.
  revert w. induction p as [a|X e k IH]; simpl; intros w H.
  - destruct (f a) as [b|X e k]; simpl in *; intros w1 Hr HI; [by apply (H w1)|].
    intros x s2 Hx. by apply (H w1 Hr HI w1).
  - intros w1 Hr HI x s2 Hx. destruct (H w1 Hr HI x s2 Hx) as (g2 & ? & ? & ?). eauto.
Qed.

Lemma wp_ret {A} n (a : A) (Q : A -> St * G -> Prop) w :
  (forall w1, rtc any w w1 -> Inv w1 -> Q a w1) -> wp n (Ret a) Q w.
Proof. done. Qed.

Lemma wp_call {A X} n (e : E X) (k : X -> prog E A) Q w :
  (forall w1, rtc any w w1 -> Inv w1 -> forall x s2, handles n w1.1 X e x s2 ->
   exists g2, guar n w1 (s2, g2) /\ Inv (s2, g2) /\ wp n (k x) Q (s2, g2)) -> wp n (Vis e k) Q w.
Proof. done. Qed.

(** *** Pools *)

Definition pool : Type := St * list (Node * prog E unit).

Inductive pool_step (spawns : Node -> prog E unit -> Prop) : pool -> pool -> Prop :=
  | pool_call s s' ts i n X (e : E X) k x :
      ts !! i = Some (n, Vis e k) -> handles n s X e x s' ->
      pool_step spawns (s, ts) (s', <[i := (n, k x)]> ts)
  | pool_env s s' ts : env s s' -> pool_step spawns (s, ts) (s', ts)
  | pool_spawn s ts n p : spawns n p -> pool_step spawns (s, ts) (s, ts ++ [(n, p)]).

(** A program of the pool that runs alone. *)
Lemma pool_exec (spawns : Node -> prog E unit -> Prop) {A} n (p : prog E A) k s a s' ts i :
  exec (handles n) p s a s' -> ts !! i = Some (n, pbind p k) ->
  rtc (pool_step spawns) (s, ts) (s', <[i := (n, k a)]> ts).
Proof using.
  revert s ts. induction p as [a'|X e f IH]; intros s ts; simpl.
  - intros [-> <-] Hi. by rewrite list_insert_id.
  - intros (x & s1 & Hx & Hrest) Hi. eapply rtc_l; [by eapply pool_call|].
    eapply (IH x s1 (<[i:=(n, pbind (f x) k)]> ts)) in Hrest; [rewrite list_insert_insert_eq in Hrest; exact Hrest|].
    apply list_lookup_insert_eq. by eapply lookup_lt_Some.
Qed.

Definition pool_ok (c : pool) (g : G) : Prop :=
  Inv (c.1, g) /\ forall n p, (n, p) ∈ c.2 -> wp n p (fun _ _ => True) (c.1, g).

Context (spawns : Node -> prog E unit -> Prop).
Context (Hspawn : forall n p w, spawns n p -> Inv w -> wp n p (fun _ _ => True) w).
Context (Henv : forall s s' g, env s s' -> Inv (s, g) -> Inv (s', g)).

(** A step of the pool keeps it good, and is a step of somebody. *)
Lemma pool_step_ok c c' g :
  pool_ok c g -> pool_step spawns c c' -> exists g', pool_ok c' g' /\ rtc any (c.1, g) (c'.1, g').
Proof using Hspawn Henv.
  intros [HI Hts] Hs. destruct Hs as [s s' ts i n X e k x Hi Hx|s s' ts He|s ts n p Hp]; simpl in *.
  - pose proof (Hts n (Vis e k) ltac:(by eapply list_elem_of_lookup_2)) as Hw. simpl in Hw.
    destruct (Hw (s, g) ltac:(done) HI x s' Hx) as (g2 & Hg & HI2 & Hk).
    assert (rtc any (s, g) (s', g2)) as Hr by (apply rtc_once; left; eauto).
    exists g2. split; [|done]. split; [done|]. simpl. intros n' p' Hin.
    apply list_elem_of_lookup in Hin as [j Hj]. destruct (decide (i = j)) as [->|Hne].
    + rewrite list_lookup_insert_eq in Hj by (by eapply lookup_lt_Some). by simplify_eq.
    + rewrite list_lookup_insert_ne in Hj by done. eapply wp_rely; [|done].
      apply Hts. by eapply list_elem_of_lookup_2.
  - assert (rtc any (s, g) (s', g)) as Hr by (apply rtc_once; right; done).
    exists g. split; [|done]. split; [by eapply Henv|]. simpl. intros n p Hin. eapply wp_rely; eauto.
  - exists g. split; [|done]. split; [done|]. simpl. intros n' p' [Hin|Hin]%elem_of_app; [auto|].
    apply list_elem_of_singleton in Hin. simplify_eq. by apply Hspawn.
Qed.

Lemma pool_sound c c' g :
  pool_ok c g -> rtc (pool_step spawns) c c' -> exists g', pool_ok c' g' /\ rtc any (c.1, g) (c'.1, g').
Proof using Hspawn Henv.
  intros Hok Hs. revert g Hok. induction Hs as [c|c c2 c3 Hs Hrest IH]; intros g Hok; [by exists g|].
  destruct (pool_step_ok c c2 g Hok Hs) as (g2 & Hok2 & H12).
  destruct (IH g2 Hok2) as (g3 & Hok3 & H23). exists g3. split; [done|]. by etrans.
Qed.

(** A call of a program of the pool keeps the guarantee of its node. *)
Lemma pool_call_guar s ts g i n X (e : E X) k x s' :
  pool_ok (s, ts) g -> ts !! i = Some (n, Vis e k) -> handles n s X e x s' ->
  exists g', guar n (s, g) (s', g') /\ Inv (s', g').
Proof using.
  intros [HI Hts] Hi Hx. pose proof (Hts n (Vis e k) ltac:(by eapply list_elem_of_lookup_2)) as Hw.
  destruct (Hw (s, g) ltac:(done) HI x s' Hx) as (g2 & ? & ? & _). eauto.
Qed.
End Interleaving.
