(* ===== verification/Chunks.v ===== *)
(** * Files as streams of chunks ([replication/snapshot/snapshot.go])

    A file travels over a gRPC stream in chunks: [Writer] sends what it reads,
    [Reader] writes what it receives.  Both are used by the replication of
    snapshots and by the backups, with different files and different streams
    at their ends, so that they are programs over any calls that read, send,
    receive and write. *)

From S2P Require Import Prelude Effects.

Open Scope prog_scope.

(** [SnapshotChunk]. *)
Record SnapshotChunk := mkChunk { ck_Data : bytes; ck_Len : Z }.

#[export] Instance SnapshotChunk_eq_dec : EqDecision SnapshotChunk.
Proof. solve_decision. Defined.

Definition DefaultSnapshotChunkSize : Z := 1024 * 1024.

Section Streams.
Context {E : Type -> Type}.

(** [Writer.ReadFrom], which [io.Copy] calls: what is read is sent, until the
    end of the file.  [fuel] bounds the number of reads. *)
Fixpoint Writer_ReadFrom (read : Z -> prog E (bytes * option error)) (send : SnapshotChunk -> M E unit)
    (fuel : nat) (count : Z) : M E Z :=
  match fuel with
  | O => M_err ErrOutOfFuel
  | S fuel' =>
      x <~ read DefaultSnapshotChunkSize;
      let '(data, err) := x in
      count <- (if 0 <? len data then
                  _ <- send (mkChunk data (uint64 (len data)));
                  M_ret (count + len data)
                else M_ret count);
      match err with
      | Some e => if decide (e = ErrEOF) then M_ret count else M_err e
      | None => Writer_ReadFrom read send fuel' count
      end
  end.

(** [Writer.Write]. *)
Definition Writer_Write (send : SnapshotChunk -> M E unit) (p : bytes) : M E Z :=
  _ <- send (mkChunk p (uint64 (len p)));
  M_ret (len p).

(** [Reader.WriteTo], which [io.Copy] calls; no chunk is [io.EOF].  The
    limiter only waits. *)
Fixpoint Reader_WriteTo (recv : M E (option SnapshotChunk)) (write : bytes -> M E unit)
    (fuel : nat) (n : Z) : M E Z :=
  match fuel with
  | O => M_err ErrOutOfFuel
  | S fuel' =>
      c <- recv;
      match c with
      | None => M_ret n
      | Some chunk =>
          _ <- write (ck_Data chunk);
          Reader_WriteTo recv write fuel' (n + len (ck_Data chunk))
      end
  end.

(** [Reader.Read] into a buffer of [cap] bytes: what is copied to it. *)
Definition Reader_Read (recv : M E (option SnapshotChunk)) (cap : Z) : M E bytes :=
  c <- recv;
  match c with
  | None => M_err ErrEOF
  | Some chunk =>
      if cap <? int64 (ck_Len chunk) then M_err ErrShortBuffer
      else M_ret (take (Z.to_nat cap) (ck_Data chunk))
  end.

(** [io.Copy], between a reader and a writer without shortcuts: reads of at
    most [size] bytes, each written as it comes. *)
Fixpoint io_Copy (size : Z) (read : Z -> prog E (bytes * option error)) (write : bytes -> M E unit)
    (fuel : nat) (written : Z) : M E Z :=
  match fuel with
  | O => M_err ErrOutOfFuel
  | S fuel' =>
      x <~ read size;
      let '(data, err) := x in
      written <- (if 0 <? len data then _ <- write data; M_ret (written + len data) else M_ret written);
      match err with
      | Some e => if decide (e = ErrEOF) then M_ret written else M_err e
      | None => io_Copy size read write fuel' written
      end
  end.

(** [io.Copy] from a [bufio.Reader] that nothing has been read from: its
    [WriteTo] flushes the empty buffer first, in the versions of the library
    that do not check for it, and goes on with [rest]. *)
Definition bufio_Copy (emptyWrite : bool) (write : bytes -> M E unit) (rest : M E Z) : M E Z :=
  if emptyWrite then _ <- write []; rest else rest.
End Streams.

(** ** What the loops transfer *)

Definition chunk_data (cs : list SnapshotChunk) : bytes := concat (map ck_Data cs).

Definition chunk_ok (c : SnapshotChunk) : Prop :=
  ck_Len c = len (ck_Data c) /\ ck_Len c <= DefaultSnapshotChunkSize.

Lemma chunk_data_app a b : chunk_data (a ++ b) = chunk_data a ++ chunk_data b.
Proof. unfold chunk_data. by rewrite map_app, concat_app. Qed.

(** A call that fails does so with an error of the outside, and only where
    there are faults. *)
Definition failed (faults : bool) (e : error) : Prop := faults = true /\ exists c, e = ErrExternal c.

(** [same] relates the parts of the state that the calls do not touch. *)
Section Transfer.
Context {E : Type -> Type} {St : Type} (handles : St -> forall X, E X -> X -> St -> Prop).
Context (same : St -> St -> Prop) {Hpre : PreOrder same} (faults : bool).

(** A read of a file gives some of the bytes that are left, and [io.EOF] when
    there are none. *)
Definition reads (file : St -> bytes) (max : Z) (s : St) (x : bytes * option error) (s' : St) : Prop :=
  same s s' /\
  ((exists d, d <> [] /\ len d <= max /\ file s = d ++ file s' /\ x = (d, None))
   \/ (file s = [] /\ file s' = [] /\ x = ([], Some ErrEOF))
   \/ (exists e, failed faults e /\ file s' = file s /\ x = ([], Some e))).

(** A copy between a file that is read and something that is written to. *)
Section Copy.
Context (size : Z) (read : Z -> prog E (bytes * option error)) (write : bytes -> M E unit).
Context (file saved : St -> bytes).
Context (Hread : forall max s x s', exec handles (read max) s x s' -> reads file max s x s' /\ saved s' = saved s).
Context (Hwrite : forall d s x s', len d <= size -> exec handles (write d) s x s' ->
  same s s' /\ file s' = file s
  /\ ((x = Ok tt /\ saved s' = saved s ++ d) \/ (exists e, failed faults e /\ x = Err e))).

(** A copy that succeeds has written the file. *)
Lemma io_Copy_spec fuel count s out s' :
  exec handles (io_Copy size read write fuel count) s out s' ->
  same s s'
  /\ (forall n, out = Ok n -> saved s' = saved s ++ file s)
  /\ (is_Ok out \/ (exists e, failed faults e /\ out = Err e) \/ (out = Err ErrOutOfFuel /\ (fuel <= length (file s))%nat)).
Proof using Hpre Hread Hwrite.
  revert count s. induction fuel as [|fuel IH]; intros count s; cbn [io_Copy].
  { intros [<- <-]. split_and!; [done..|]. right. right. split; [done|lia]. }
  intros (x & s1 & [[Hsame Hx] Hsaved]%Hread & H)%exec_bind.
  destruct Hx as [(d & Hd & Hm & Hf & ->)|[(Hf & _ & ->)|(e & He & _ & ->)]].
  - pose proof (len_pos d Hd) as Hl. rewrite (proj2 (Z.ltb_lt _ _) Hl) in H.
    apply exec_M_call in H as (x & s2 & Hs & H). apply exec_M_call in Hs as (y & s3 & Hy & Hr).
    apply Hwrite in Hy as (Hsame3 & Hf3 & [[-> Hs3]|(e & He & ->)]); [| |done].
    + destruct Hr as [<- <-]. apply IH in H as (H1 & H2 & H3).
      rewrite Hs3, Hsaved, Hf3 in *. split_and!; [by do 2 (etrans; [eassumption|])|..].
      * intros n Hn. by rewrite (H2 n Hn), Hf, <- app_assoc.
      * destruct H3 as [?|[?|[-> ?]]]; [by left|by right; left|]. right. right. split; [done|].
        rewrite Hf, length_app. unfold len in Hl. lia.
    + destruct Hr as [-> ->]. destruct H as [-> ->]. split_and!; [by etrans|done|eauto].
  - destruct H as [<- <-]. rewrite Hf, app_nil_r, Hsaved. split_and!; [done..|]. left. eexists; reflexivity.
  - destruct He as [Hfl [c ->]]. destruct H as [<- <-]. split_and!; [done..|].
    right. left. exists (ErrExternal c). split; [split; eauto|done].
Qed.

Lemma bufio_Copy_spec emptyWrite fuel s out s' :
  0 <= size -> exec handles (bufio_Copy emptyWrite write (io_Copy size read write fuel 0)) s out s' ->
  same s s'
  /\ (forall n, out = Ok n -> saved s' = saved s ++ file s)
  /\ (is_Ok out \/ (exists e, failed faults e /\ out = Err e) \/ (out = Err ErrOutOfFuel /\ (fuel <= length (file s))%nat)).
Proof using Hpre Hread Hwrite.
  intros Hsz. unfold bufio_Copy. destruct emptyWrite; [|apply io_Copy_spec].
  intros (x & s1 & Hx & H)%exec_M_call. apply Hwrite in Hx as (Hsame & Hf & [[-> Hs1]|(e & He & ->)]); [| |done].
  - apply io_Copy_spec in H as (H1 & H2 & H3). rewrite Hs1, Hf, app_nil_r in *. split_and!; [by etrans|done..].
  - destruct H as [-> ->]. split_and!; [done..|eauto].
Qed.
End Copy.

(** [Writer.ReadFrom] is the copy whose writes send a chunk. *)
Lemma Writer_ReadFrom_copy read send fuel count s out s' :
  exec handles (Writer_ReadFrom read send fuel count) s out s' <->
  exec handles (io_Copy DefaultSnapshotChunkSize read (fun d => send (mkChunk d (uint64 (len d)))) fuel count) s out s'.
Proof using.
  revert count s. induction fuel as [|fuel IH]; intros count s; [done|]. cbn [Writer_ReadFrom io_Copy].
  rewrite !exec_bind. apply exist_proper. intros [d [e|]]; apply exist_proper; intros s1; apply and_iff_compat_l; [done|].
  unfold M_bind at 1 3. rewrite !exec_bind. apply exist_proper. intros y. apply exist_proper. intros s2.
  apply and_iff_compat_l. destruct y; [apply IH|done..].
Qed.

Section Receiver.
Context (recv : M E (option SnapshotChunk)) (write : bytes -> M E unit).
Context (chunks : St -> list SnapshotChunk) (saved : St -> bytes) (complete : St -> bool).
Context (Hrecv : forall s x s', exec handles recv s x s' ->
  same s s' /\ saved s' = saved s /\ complete s' = complete s
  /\ ((exists c, chunks s = c :: chunks s' /\ x = Ok (Some c))
      \/ (complete s = true /\ chunks s = [] /\ chunks s' = [] /\ x = Ok None)
      \/ (exists e, failed faults e /\ x = Err e)
      \/ (complete s = false /\ chunks s = [] /\ exists e, x = Err (ErrExternal e)))).
Context (Hwrite : forall d s x s', exec handles (write d) s x s' ->
  same s s' /\ chunks s' = chunks s /\ complete s' = complete s
  /\ ((x = Ok tt /\ saved s' = saved s ++ d) \/ exists e, failed faults e /\ x = Err e)).

(** A copy that succeeds has saved all chunks. *)
Lemma Reader_WriteTo_spec fuel n s out s' :
  exec handles (Reader_WriteTo recv write fuel n) s out s' ->
  same s s'
  /\ (forall m, out = Ok m -> complete s = true /\ saved s' = saved s ++ chunk_data (chunks s))
  /\ (is_Ok out
      \/ (exists e, (failed faults e \/ complete s = false /\ exists c, e = ErrExternal c) /\ out = Err e)
      \/ (out = Err ErrOutOfFuel /\ (fuel <= length (chunks s))%nat)).
Proof using Hpre Hrecv Hwrite.
  revert n s. induction fuel as [|fuel IH]; intros n s; cbn [Reader_WriteTo].
  { intros [<- <-]. split_and!; [done..|]. right. right. split; [done|lia]. }
  intros (x & s1 & (Hsame & Hsv & Hc & Hx)%Hrecv & H)%exec_M_call.
  destruct Hx as [(c & Hck & ->)|[(Hc1 & Hck & _ & ->)|[(e & He & ->)|(Hc0 & _ & e & ->)]]].
  - apply exec_M_call in H as (x & s2 & (Hsame2 & Hck2 & Hc2 & Hx)%Hwrite & H).
    destruct Hx as [[-> Hs2]|(e & He & ->)].
    + apply IH in H as (H1 & H2 & H3). rewrite Hck2, Hc2, Hs2, Hsv, Hc, Hck in *.
      split_and!; [by do 2 (etrans; [eassumption|])|..].
      * intros m Hm. destruct (H2 m Hm) as [-> ->]. split; [done|]. unfold chunk_data. simpl. by rewrite <- app_assoc.
      * destruct H3 as [?|[?|[-> ?]]]; [by left|by right; left|]. right. right. split; [done|]. simpl. lia.
    + destruct H as [-> ->]. split_and!; [by etrans|done|]. right. left. eauto 10.
  - destruct H as [<- <-]. rewrite Hck, Hsv. split_and!; [done| |left; eexists; reflexivity].
    intros m _. unfold chunk_data. simpl. by rewrite app_nil_r.
  - destruct H as [-> ->]. split_and!; [done..|eauto 10].
  - destruct H as [-> ->]. split_and!; [done..|]. right. left. eexists. split; [right; split; [done|by exists e]|done].
Qed.
End Receiver.
End Transfer.

(** A file that is sent in chunks. *)
Section Sender.
Context {E : Type -> Type} {St : Type} (handles : St -> forall X, E X -> X -> St -> Prop).
Context (same : St -> St -> Prop) {Hpre : PreOrder same} (faults : bool).
Context (read : Z -> prog E (bytes * option error)) (send : SnapshotChunk -> M E unit).
Context (file : St -> bytes) (sent : St -> list SnapshotChunk).
Context (Hread : forall max s x s', exec handles (read max) s x s' -> reads same faults file max s x s' /\ sent s' = sent s).
Context (Hsend : forall c s x s', exec handles (send c) s x s' ->
  same s s' /\ file s' = file s
  /\ ((x = Ok tt /\ sent s' = sent s ++ [c]) \/ (sent s' = sent s /\ exists e, failed faults e /\ x = Err e))).

Let keeps_chunks (a b : St) : Prop := same a b /\ (Forall chunk_ok (sent a) -> Forall chunk_ok (sent b)).

#[local] Instance keeps_chunks_preorder : PreOrder keeps_chunks.
Proof using Hpre. split; [by intros a|]. intros a b c [H1 H2] [H3 H4]. split; [by etrans|auto]. Qed.

Lemma send_chunk d s x s' :
  len d <= DefaultSnapshotChunkSize -> exec handles (send (mkChunk d (uint64 (len d)))) s x s' ->
  keeps_chunks s s' /\ file s' = file s
  /\ ((x = Ok tt /\ chunk_data (sent s') = chunk_data (sent s) ++ d) \/ (exists e, failed faults e /\ x = Err e)).
Proof using Hsend.
  intros Hd (Hsame & Hf & Hx)%Hsend. destruct Hx as [[-> Hs]|[Hs He]].
  - split_and!; [split; [done|]|done|left; split; [done|]].
    + intros Hall. rewrite Hs. apply Forall_app. split; [done|]. constructor; [|done]. unfold chunk_ok. simpl.
      pose proof (len_nonneg d). rewrite uint64_id by (unfold is_uint64, DefaultSnapshotChunkSize in *; lia). done.
    + rewrite Hs, chunk_data_app. unfold chunk_data at 2. simpl. by rewrite app_nil_r.
  - split_and!; [split; [done|by rewrite Hs]|done|by right].
Qed.

(** A copy that succeeds has sent the file. *)
Lemma Writer_ReadFrom_spec emptyWrite fuel s out s' :
  exec handles (bufio_Copy emptyWrite (fun d => _ <- Writer_Write send d; M_ret tt) (Writer_ReadFrom read send fuel 0)) s out s' ->
  same s s'
  /\ (forall n, out = Ok n -> chunk_data (sent s') = chunk_data (sent s) ++ file s)
  /\ (Forall chunk_ok (sent s) -> Forall chunk_ok (sent s'))
  /\ (is_Ok out \/ (exists e, failed faults e /\ out = Err e) \/ (out = Err ErrOutOfFuel /\ (fuel <= length (file s))%nat)).
Proof using Hpre Hread Hsend.
  intros H.
  assert (exec handles (bufio_Copy emptyWrite (fun d => send (mkChunk d (uint64 (len d))))
            (io_Copy DefaultSnapshotChunkSize read (fun d => send (mkChunk d (uint64 (len d)))) fuel 0)) s out s') as H'.
  { unfold bufio_Copy, Writer_Write in *. destruct emptyWrite; [|by apply Writer_ReadFrom_copy].
    apply exec_M_call in H as (x & s1 & (y & s2 & (z & s3 & Hz & Hy)%exec_M_call & Hx)%exec_M_call & H).
    apply exec_bind. exists z, s3. split; [done|]. destruct z as [[]|e|].
    - destruct Hy as [<- <-]. destruct Hx as [<- <-]. by apply Writer_ReadFrom_copy.
    - destruct Hy as [-> ->]. destruct Hx as [-> ->]. by destruct H as [-> ->].
    - destruct Hy as [-> ->]. destruct Hx as [-> ->]. by destruct H as [-> ->]. }
  apply (bufio_Copy_spec handles keeps_chunks faults DefaultSnapshotChunkSize read _ file (fun s => chunk_data (sent s))) in H' as ([H1 H2] & H3 & H4); [done| | |done].
  - intros max s0 x s1 [[Hsm Hx] Hs]%Hread. split; [split; [|exact Hx]|by rewrite Hs]. split; [done|by rewrite Hs].
  - intros. by apply send_chunk.
Qed.
End Sender.
