(* ===== verification/KvStore.v ===== *)
(** * The metadata store ([storage/kv])

    [MapStore] of [map.go], the replicated state machine [LFSM] over it and
    its client [RaftStore] of [raft.go], and the path helpers of [kv.go].
    Every pair has the Raft index of its last write as its version; an update
    of an existing key has to name that version.

    Strings are byte lists.  Go iterates over a map in no particular order;
    the results are sorted, and [getAll_order] shows that the order does not
    matter.  A [RaftStore] method is a program of calls to the Raft host. *)

From S2P Require Import Prelude GoStd Effects.

(** ** Pairs and paths ([kv.go]) *)

Record Pair := mkPair { p_Key : bytes; p_Value : bytes; p_Ver : Z }.
Definition Pair_zero : Pair := mkPair [] [] 0.

#[export] Instance Pair_eq_dec : EqDecision Pair.
Proof. solve_decision. Defined.

Definition stripKey (key prefix : bytes) : bytes := TrimPrefix (TrimPrefix key prefix) (str "/").
Definition pathToTerms (filePath : bytes) : list bytes := split_slash (path_Clean filePath).

Fixpoint sameTerms_go (prefix test : list bytes) : bool :=
  match prefix, test with
  | [], _ => true
  | p :: prefix', t :: test' => if decide (p <> t) then false else sameTerms_go prefix' test'
  | _ :: _, [] => false
  end.
Definition samePrefixTerms (prefix test : list bytes) : bool :=
  if len test <? len prefix then false else sameTerms_go prefix test.

(** ** MapStore ([map.go]) *)

(** [MapStore.m]. *)
Abbreviation MapStore := (gmap bytes Pair).
Definition NewMapStore : MapStore := ∅.

Definition MapStore_Delete (s : MapStore) (key : bytes) (ver : Z) : MapStore := delete key s.
Definition MapStore_Exists (s : MapStore) (key : bytes) : bool :=
  match s !! key with Some _ => true | None => false end.
Definition MapStore_Get (s : MapStore) (key : bytes) : res Pair :=
  match s !! key with Some p => Ok p | None => Err ErrNotExist end.
Definition MapStore_Set (s : MapStore) (key value : bytes) (ver : Z) : MapStore * Pair :=
  let p := mkPair key value ver in (<[key := p]> s, p).

(** The pairs of the store in the order of the iteration. *)
Definition pairs (s : MapStore) : list Pair := (map_to_list s).*2.

Definition pair_le (a b : Pair) : Prop := bytes_le (p_Key a) (p_Key b).
#[export] Instance pair_le_dec a b : Decision (pair_le a b).
Proof. unfold pair_le. apply _. Defined.
#[export] Instance pair_le_total : Total pair_le.
Proof. intros a b. apply bytes_le_total. Qed.
#[export] Instance pair_le_trans : Transitive pair_le.
Proof. intros a b c. apply bytes_le_trans. Qed.

Definition getAll (kvs : list Pair) (pattern : bytes) : list Pair :=
  merge_sort pair_le (filter (fun kv => path_Match pattern (p_Key kv) = true) kvs).
Definition MapStore_GetAll (s : MapStore) (pattern : bytes) : list Pair := getAll (pairs s) pattern.
Definition MapStore_GetAllValues (s : MapStore) (pattern : bytes) : list bytes :=
  sort_strings (map p_Value (MapStore_GetAll s pattern)).

(** The name that [List] adds for a pair. *)
Definition list_item (filePath : bytes) (kv : Pair) : option bytes :=
  if decide (p_Key kv = filePath) then Some (path_Base (p_Key kv)) else
  let target := pathToTerms (path_Dir (p_Key kv)) in
  if samePrefixTerms (pathToTerms filePath) target then head (split_slash (stripKey (p_Key kv) filePath)) else None.
Definition MapStore_List (s : MapStore) (filePath : bytes) : list bytes :=
  sort_strings (elements (list_to_set (omap (list_item filePath) (pairs s)) : gset bytes)).

Definition listdir_item (filePath : bytes) (kv : Pair) : option bytes :=
  if HasPrefix (p_Key kv) filePath then
    let prefix := pathToTerms filePath in
    let items := pathToTerms (path_Dir (p_Key kv)) in
    if samePrefixTerms prefix items && (1 <=? len items - len prefix) then items !! length prefix else None
  else None.
Definition MapStore_ListDir (s : MapStore) (filePath : bytes) : list bytes :=
  sort_strings (elements (list_to_set (omap (listdir_item filePath) (pairs s)) : gset bytes)).

(** ** LFSM ([raft.go]) *)

Definition ResultCodeFailure : Z := 0.
Definition ResultCodeSuccess : Z := 1.
Definition ResultCodeVersionMismatch : Z := 2.

Definition UpdateOpSet : bytes := str "set".
Definition UpdateOpDelete : bytes := str "delete".
Record KvUpdate := mkUpdate { u_Op : bytes; u_KVPair : Pair }.

#[export] Instance KvUpdate_eq_dec : EqDecision KvUpdate.
Proof. solve_decision. Defined.

Inductive Query :=
  | QueryExist (key : bytes) | QueryKey (key : bytes) | QueryAll (pattern : bytes)
  | QueryAllValues (pattern : bytes) | QueryList (path : bytes) | QueryListDir (path : bytes).
Inductive Answer :=
  | ABool (b : bool) | APair (p : Pair) | APairs (ps : list Pair) | AStrings (ss : list bytes).

Section LFSM.
Context {JU : Json KvUpdate} {JP : Json Pair} {JM : Json MapStore}.

(** One entry of [LFSM.Update]: its index and command; the store and the
    value and data of the result. *)
Definition lfsm_entry (store : MapStore) (index : Z) (cmd : bytes) : res (MapStore * (Z * bytes)) :=
  update ← json_Unmarshal (A := KvUpdate) cmd;
  let kv := u_KVPair update in
  let apply :=
    let kv := mkPair (p_Key kv) (p_Value kv) index in
    let store :=
      if decide (u_Op update = UpdateOpSet) then (MapStore_Set store (p_Key kv) (p_Value kv) (p_Ver kv)).1
      else if decide (u_Op update = UpdateOpDelete) then MapStore_Delete store (p_Key kv) (p_Ver kv)
      else store in
    Ok (store, (ResultCodeSuccess, res_get [] (json_Marshal kv))) in
  match MapStore_Get store (p_Key kv) with
  | Ok v =>
      if negb (p_Ver v =? p_Ver kv) then Ok (store, (ResultCodeVersionMismatch, res_get [] (json_Marshal v)))
      else apply
  | _ => apply
  end.

Fixpoint lfsm_Update (store : MapStore) (entries : list (Z * bytes)) : res (MapStore * list (Z * bytes)) :=
  match entries with
  | [] => Ok (store, [])
  | (index, cmd) :: entries' =>
      '(store, r) ← lfsm_entry store index cmd;
      '(store, rs) ← lfsm_Update store entries';
      Ok (store, r :: rs)
  end.

Definition lfsm_Lookup (store : MapStore) (e : Query) : res Answer :=
  match e with
  | QueryExist key => Ok (ABool (MapStore_Exists store key))
  | QueryKey key => p ← MapStore_Get store key; Ok (APair p)
  | QueryAll pattern => Ok (APairs (MapStore_GetAll store pattern))
  | QueryAllValues pattern => Ok (AStrings (MapStore_GetAllValues store pattern))
  | QueryList path => Ok (AStrings (MapStore_List store path))
  | QueryListDir path => Ok (AStrings (MapStore_ListDir store path))
  end.

(** Snapshots: [MarshalJSON] and [UnmarshalJSON] of the map. *)
Definition lfsm_PrepareSnapshot (store : MapStore) : res bytes := json_Marshal store.
Definition lfsm_SaveSnapshot (ctx w : bytes) : bytes := w ++ ctx.
Definition lfsm_RecoverFromSnapshot (r : bytes) : res MapStore := json_Unmarshal r.
End LFSM.

(** ** RaftStore ([raft.go]) *)

(** The calls to the Raft host on the metadata shard: the result of a
    proposal is the value and the data. *)
Inductive raft_ev : Type -> Type :=
  | MetaPropose (cmd : bytes) : raft_ev (res (Z * bytes))
  | MetaRead (q : Query) : raft_ev (res Answer).

Section RaftStore.
Context {E : Type -> Type} (raft : forall X, raft_ev X -> E X).
Context {JU : Json KvUpdate} {JP : Json Pair}.
Open Scope prog_scope.

Definition rs_Delete (key : bytes) (ver : Z) : M E unit :=
  b <- lift (json_Marshal (mkUpdate UpdateOpDelete (mkPair key [] ver)));
  '(value, _) <- perform (raft _ (MetaPropose b));
  if value =? ResultCodeVersionMismatch then M_err ErrVersionMismatch else M_ret tt.

(** The type assertions panic on an answer of another type. *)
Definition rs_Exists (key : bytes) : M E bool :=
  ok <- perform (raft _ (MetaRead (QueryExist key)));
  match ok with ABool b => M_ret b | _ => lift Panic end.
Definition rs_Get (key : bytes) : M E Pair :=
  val <- perform (raft _ (MetaRead (QueryKey key)));
  match val with APair p => M_ret p | _ => lift Panic end.
Definition rs_GetAll (pattern : bytes) : M E (list Pair) :=
  val <- perform (raft _ (MetaRead (QueryAll pattern)));
  match val with APairs ps => M_ret ps | _ => lift Panic end.
Definition rs_GetAllValues (pattern : bytes) : M E (list bytes) :=
  val <- perform (raft _ (MetaRead (QueryAllValues pattern)));
  match val with AStrings ss => M_ret ss | _ => lift Panic end.
Definition rs_List (filePath : bytes) : M E (list bytes) :=
  val <- perform (raft _ (MetaRead (QueryList filePath)));
  match val with AStrings ss => M_ret ss | _ => lift Panic end.
Definition rs_ListDir (filePath : bytes) : M E (list bytes) :=
  val <- perform (raft _ (MetaRead (QueryListDir filePath)));
  match val with AStrings ss => M_ret ss | _ => lift Panic end.

(** [Set]; with the version mismatch the source also returns the stored pair,
    which no caller uses. *)
Definition rs_Set (key value : bytes) (ver : Z) : M E Pair :=
  b <- lift (json_Marshal (mkUpdate UpdateOpSet (mkPair key value ver)));
  '(code, data) <- perform (raft _ (MetaPropose b));
  p <- lift (json_Unmarshal data);
  if code =? ResultCodeVersionMismatch then M_err ErrVersionMismatch else M_ret p.
End RaftStore.

(** ** The store over time *)

(** What JSON can represent. *)
Definition Pair_rep (p : Pair) : bool :=
  utf8_valid (p_Key p) && utf8_valid (p_Value p) && (0 <=? p_Ver p) && (p_Ver p <? 2 ^ 64).
Definition Update_rep (u : KvUpdate) : bool := utf8_valid (u_Op u) && Pair_rep (u_KVPair u).

Class KvJson := {
  kvj_update :: Json KvUpdate; kvj_update_laws :: JsonLaws KvUpdate (fun u => Update_rep u = true);
  kvj_pair :: Json Pair; kvj_pair_laws :: JsonLaws Pair (fun p => Pair_rep p = true)
}.

(** A store at a Raft index: keys are where they belong, versions are indexes
    of the past, everything can be represented. *)
Definition store_ok (m : MapStore) (idx : Z) : Prop :=
  forall k p, m !! k = Some p -> p_Key p = k /\ 1 <= p_Ver p <= idx /\ Pair_rep p = true.

(** Later states of the store: a pair with an old version is the old pair. *)
Definition evolves (m : MapStore) (idx : Z) (m' : MapStore) : Prop :=
  forall k p, m' !! k = Some p -> p_Ver p <= idx -> m !! k = Some p.

Section Store.
Context {K : KvJson}.

(** An entry either leaves the store as it is, and reports the mismatch, or
    the key was absent or had the named version. *)
Lemma lfsm_entry_spec m j cmd m' r :
  lfsm_entry m j cmd = Ok (m', r) ->
  exists u, json_Unmarshal cmd = Ok u /\ Update_rep u = true /\
  let kv := u_KVPair u in
  (exists v, m !! p_Key kv = Some v /\ p_Ver v <> p_Ver kv /\ m' = m
     /\ r = (ResultCodeVersionMismatch, res_get [] (json_Marshal v)))
  \/ (match m !! p_Key kv with Some v => p_Ver v = p_Ver kv | None => True end
      /\ r = (ResultCodeSuccess, res_get [] (json_Marshal (mkPair (p_Key kv) (p_Value kv) j)))
      /\ m' = (if decide (u_Op u = UpdateOpSet) then <[p_Key kv := mkPair (p_Key kv) (p_Value kv) j]> m
               else if decide (u_Op u = UpdateOpDelete) then delete (p_Key kv) m else m)).
Proof.
  unfold lfsm_entry. intros H. apply bind_Ok_inv in H as (u & Hu & H). exists u. split; [done|].
  split; [exact (json_decoded (representable := fun u => Update_rep u = true) cmd u Hu)|]. unfold MapStore_Get, MapStore_Set, MapStore_Delete in H. simpl in *.
  destruct (m !! p_Key (u_KVPair u)) as [v|] eqn:Ev; simpl in H; [|right; split; [done|]; by simplify_eq].
  destruct (Z.eqb_spec (p_Ver v) (p_Ver (u_KVPair u))) as [E|E]; simpl in H; [right|left; exists v]; by simplify_eq.
Qed.

Lemma lfsm_entry_ok m i j cmd m' r :
  store_ok m i -> i < j < 2 ^ 63 -> 0 <= i -> lfsm_entry m j cmd = Ok (m', r) ->
  store_ok m' j /\ evolves m i m'.
Proof.
  intros Hok Hj Hi H. apply lfsm_entry_spec in H as (u & _ & Hrep & Hcase).
  assert (store_ok m j) as Hmj by (intros k p Hp; destruct (Hok k p Hp) as (? & ? & ?); repeat split; auto; lia).
  destruct Hcase as [(v & _ & _ & -> & _)|(_ & _ & ->)]; [split; [done|]; by intros k p|].
  unfold Update_rep, Pair_rep in Hrep. rewrite !andb_true_iff in Hrep. destruct Hrep as (_ & ((Hk & Hv) & _) & _).
  case_decide; [|case_decide]; split; try done.
  - intros k p [[<- <-]|[_ Hp]]%lookup_insert_Some; [|by apply Hmj]. simpl. split; [done|]. split; [lia|].
    unfold Pair_rep. simpl. rewrite Hk, Hv, (proj2 (Z.leb_le _ _)), (proj2 (Z.ltb_lt _ _)) by lia. done.
  - intros k p [[<- <-]|[_ Hp]]%lookup_insert_Some Hle; [simpl in Hle; lia|done].
  - intros k p [_ Hp]%lookup_delete_Some. by apply Hmj.
  - by intros k p [_ Hp]%lookup_delete_Some.
  - by intros k p.
Qed.

Lemma evolves_trans m1 i1 m2 i2 m3 : i1 <= i2 -> evolves m1 i1 m2 -> evolves m2 i2 m3 -> evolves m1 i1 m3.
Proof. intros Hi H12 H23 k p Hp Hle. apply H12; [|done]. apply H23; [done|lia]. Qed.

(** Entries at increasing indexes. *)
Fixpoint increasing (i : Z) (es : list (Z * bytes)) : Prop :=
  match es with [] => True | (j, _) :: es' => i < j < 2 ^ 63 /\ increasing j es' end.

Lemma lfsm_Update_ok m i es m' rs :
  store_ok m i -> 0 <= i -> increasing i es -> lfsm_Update m es = Ok (m', rs) ->
  (exists i', i <= i' /\ store_ok m' i') /\ evolves m i m'.
Proof.
  revert m i rs. induction es as [|[j cmd] es IH]; intros m i rs Hok Hi Hinc H; simpl in H.
  { simplify_eq. split; [by exists i|]. by intros k p. }
  destruct Hinc as [Hj Hinc]. apply bind_Ok_inv in H as ([m1 r] & H1 & H).
  apply bind_Ok_inv in H as ([m2 rs'] & H2 & [= <- <-]).
  destruct (lfsm_entry_ok m i j cmd m1 r Hok Hj Hi H1) as [Hok1 Hev1].
  destruct (IH m1 j rs' Hok1 ltac:(lia) Hinc H2) as [(i' & ? & ?) Hev2].
  split; [exists i'; split; [lia|done]|]. eapply evolves_trans; [|done|done]. lia.
Qed.

(** *** The Raft host on the metadata shard

    A proposal is applied at a later index, with its result or a lost answer,
    or fails; a read is linearizable or fails.  The host's own errors are not
    those of the store. *)
Definition kv_handles (s : MapStore * Z) X (e : raft_ev X) : X -> MapStore * Z -> Prop :=
  match e with
  | MetaPropose cmd => fun x s' =>
      (exists j m' r, s.2 < j < 2 ^ 63 /\ lfsm_entry s.1 j cmd = Ok (m', r) /\ s' = (m', j)
         /\ (x = Ok r \/ exists c, x = Err (ErrExternal c)))
      \/ (exists c, x = Err (ErrExternal c)) /\ s' = s
  | MetaRead q => fun x s' => s' = s /\ (x = lfsm_Lookup s.1 q \/ exists c, x = Err (ErrExternal c))
  end.

Lemma Pair_rep_new key value ver : utf8_valid key = true -> utf8_valid value = true -> is_uint64 ver ->
  Pair_rep (mkPair key value ver) = true.
Proof.
  intros Hk Hv Hr. unfold Pair_rep, is_uint64 in *. simpl.
  by rewrite Hk, Hv, (proj2 (Z.leb_le _ _)), (proj2 (Z.ltb_lt _ _)) by lia.
Qed.

(** The update that [Set] and [Delete] propose. *)
Lemma update_roundtrip op key value ver b :
  utf8_valid op = true -> utf8_valid key = true -> utf8_valid value = true -> is_uint64 ver ->
  json_Marshal (mkUpdate op (mkPair key value ver)) = Ok b ->
  json_Unmarshal b = Ok (mkUpdate op (mkPair key value ver)).
Proof.
  intros Ho Hk Hv Hr Hb. apply (json_roundtrip (representable := fun u => Update_rep u = true)); [|done].
  unfold Update_rep. simpl. rewrite Ho. by apply Pair_rep_new.
Qed.

Lemma pair_data p : Pair_rep p = true -> json_Unmarshal (res_get [] (json_Marshal p)) = Ok p.
Proof.
  intros Hp. destruct (json_total (representable := fun p => Pair_rep p = true) p Hp) as [b Hb].
  rewrite Hb. simpl. exact (json_roundtrip (representable := fun p => Pair_rep p = true) p b Hp Hb).
Qed.

(** What a proposal of [Set] does when it is applied. *)
Lemma set_entry m i j key value ver b m' r :
  store_ok m i -> 0 <= i < j -> j < 2 ^ 63 ->
  utf8_valid key = true -> utf8_valid value = true -> is_uint64 ver ->
  json_Marshal (mkUpdate UpdateOpSet (mkPair key value ver)) = Ok b -> lfsm_entry m j b = Ok (m', r) ->
  (exists v, m !! key = Some v /\ p_Ver v <> ver /\ m' = m /\ r.1 = ResultCodeVersionMismatch
     /\ json_Unmarshal r.2 = Ok v)
  \/ (match m !! key with Some v => p_Ver v = ver | None => True end
      /\ m' = <[key := mkPair key value j]> m /\ r.1 = ResultCodeSuccess
      /\ json_Unmarshal r.2 = Ok (mkPair key value j)).
Proof.
  intros Hok Hj Hj2 Hk Hv Hr Hb H. apply lfsm_entry_spec in H as (u & Hu & _ & Hcase).
  rewrite (update_roundtrip UpdateOpSet key value ver b) in Hu by done. injection Hu as <-. simpl in Hcase.
  destruct Hcase as [(v & Hv1 & Hv2 & -> & ->)|(Hm & -> & ->)].
  - left. exists v. repeat split; try done. simpl. apply pair_data. by apply (Hok key v).
  - right. repeat split; try done. simpl. apply pair_data, Pair_rep_new; [done..|]. unfold is_uint64. lia.
Qed.

Lemma delete_entry m j key ver b m' r :
  utf8_valid key = true -> is_uint64 ver ->
  json_Marshal (mkUpdate UpdateOpDelete (mkPair key [] ver)) = Ok b -> lfsm_entry m j b = Ok (m', r) ->
  (exists v, m !! key = Some v /\ p_Ver v <> ver /\ m' = m /\ r.1 = ResultCodeVersionMismatch)
  \/ (match m !! key with Some v => p_Ver v = ver | None => True end
      /\ m' = delete key m /\ r.1 = ResultCodeSuccess).
Proof.
  intros Hk Hr Hb H. apply lfsm_entry_spec in H as (u & Hu & _ & Hcase).
  rewrite (update_roundtrip UpdateOpDelete key [] ver b) in Hu by done. injection Hu as <-. simpl in Hcase.
  destruct Hcase as [(v & Hv1 & Hv2 & -> & ->)|(Hm & -> & ->)]; [left; by exists v|right; done].
Qed.
End Store.

(** A set that goes through. *)
Lemma set_succeeds {K : KvJson} m i j key value ver :
  i < j < 2 ^ 63 -> 0 <= i -> utf8_valid key = true -> utf8_valid value = true -> is_uint64 ver ->
  match m !! key with Some v => p_Ver v = ver | None => True end ->
  exec kv_handles (rs_Set (fun _ e => e) key value ver) (m, i) (Ok (mkPair key value j))
    (<[key := mkPair key value j]> m, j).
Proof.
  intros Hj Hi Hk Hv Hr Hm. unfold rs_Set, M_bind. simpl.
  destruct (json_total (representable := fun u => Update_rep u = true) (mkUpdate UpdateOpSet (mkPair key value ver)))
    as [b Hb]; [unfold Update_rep; simpl; by apply Pair_rep_new|]. rewrite Hb. simpl.
  exists (Ok (ResultCodeSuccess, res_get [] (json_Marshal (mkPair key value j)))), (<[key := mkPair key value j]> m, j).
  split.
  - left. eexists j, _, _. split; [done|]. split; [|split; [done|by left]]. unfold lfsm_entry.
    rewrite (update_roundtrip UpdateOpSet key value ver b) by done. simpl. unfold MapStore_Get.
    destruct (m !! key) as [v|]; [|done]. rewrite (proj2 (Z.eqb_eq _ _)) by done. done.
  - simpl. rewrite pair_data; [done|]. apply Pair_rep_new; [done..|]. unfold is_uint64. lia.
Qed.

Lemma rs_Set_exec {K : KvJson} m i key value ver out m' i' :
  store_ok m i -> 0 <= i -> utf8_valid key = true -> utf8_valid value = true -> is_uint64 ver ->
  exec kv_handles (rs_Set (fun _ e => e) key value ver) (m, i) out (m', i') ->
  match out with
  | Ok p => p = mkPair key value i' /\ i < i' /\ m' = <[key := p]> m
            /\ (m !! key = None \/ exists v, m !! key = Some v /\ p_Ver v = ver)
  | Err ErrVersionMismatch => m' = m /\ exists v, m !! key = Some v /\ p_Ver v <> ver
  | _ => True
  end.
Proof.
  intros Hok Hi Hk Hv Hr. unfold rs_Set, M_bind. simpl. destruct (json_Marshal _) as [b|e|] eqn:Hb; simpl.
  2: { intros [<- [= <- <-]].
       destruct (json_total (representable := fun u => Update_rep u = true) (mkUpdate UpdateOpSet (mkPair key value ver)))
         as [b Hb']; [|congruence]. unfold Update_rep. simpl. by apply Pair_rep_new. }
  2: { by intros [<- _]. }
  intros (x & s1 & [(j & m1 & [code data] & Hj & He & -> & Hx)|[[c ->] ->]] & Hrest); simpl in *;
    [|by destruct Hrest as [<- _]].
  destruct Hx as [->|[c ->]]; simpl in Hrest; [|by destruct Hrest as [<- _]].
  destruct (set_entry m i j key value ver b m1 (code, data)) as [(v & ? & ? & -> & Hc & Hd)|(Hm & -> & Hc & Hd)];
    try done; try lia; simpl in *; rewrite Hd in Hrest; simpl in Hrest; subst code; simpl in Hrest;
    destruct Hrest as [<- [= <- <-]].
  - split; [done|]. by exists v.
  - split; [done|]. split; [lia|]. split; [done|]. destruct (m !! key) as [v|]; [right; by exists v|by left].
Qed.

(** ** Claims *)

(** C20. [RaftStore.Set] is an atomic compare-and-set.  When it succeeds the
    key was absent or had the version that was named, at the moment of the
    write; the pair it returns is what is stored, with the index of the write
    as its version, and no other key changes.  A version mismatch changes
    nothing and means that the stored version is another one. *)
Theorem set_is_compare_and_set {K : KvJson} m i key value ver out m' i' :
  store_ok m i -> 0 <= i -> utf8_valid key = true -> utf8_valid value = true -> is_uint64 ver ->
  exec kv_handles (rs_Set (fun _ e => e) key value ver) (m, i) out (m', i') ->
  match out with
  | Ok p => p = mkPair key value i' /\ i < i' /\ m' = <[key := p]> m
            /\ (m !! key = None \/ exists v, m !! key = Some v /\ p_Ver v = ver)
  | Err ErrVersionMismatch => m' = m /\ exists v, m !! key = Some v /\ p_Ver v <> ver
  | _ => True
  end.
Proof. by apply rs_Set_exec. Qed.

(** C22. A version identifies a pair for ever: whatever updates are applied
    later, a key that still has a version from before has the very same pair,
    even if it was deleted and written again in between. *)
Theorem version_identifies_pair {K : KvJson} m i es m' rs k p :
  store_ok m i -> 0 <= i -> increasing i es -> lfsm_Update m es = Ok (m', rs) ->
  m' !! k = Some p -> p_Ver p <= i -> m !! k = Some p.
Proof. intros Hok Hi Hinc H. by apply (lfsm_Update_ok m i es m' rs Hok Hi Hinc H). Qed.

(** Pairs with the keys they are stored under. *)
Lemma elem_of_pairs m i p : store_ok m i -> p ∈ pairs m <-> m !! p_Key p = Some p.
Proof.
  intros Hok. unfold pairs. rewrite list_elem_of_fmap. split.
  - intros ([k q] & -> & Hq%elem_of_map_to_list). simpl. destruct (Hok k q Hq) as [-> _]. done.
  - intros H. exists (p_Key p, p). split; [done|]. by apply elem_of_map_to_list.
Qed.

Lemma pairs_keys m i : store_ok m i -> NoDup (map p_Key (pairs m)).
Proof.
  intros Hok. unfold pairs. replace (map p_Key (map_to_list m).*2) with (map_to_list m).*1.
  { apply NoDup_fst_map_to_list. }
  rewrite <- list_fmap_compose. apply list_fmap_ext. intros ? [k q] H%list_elem_of_lookup_2%elem_of_map_to_list.
  simpl. by destruct (Hok k q H) as [-> _].
Qed.

Lemma sorted_pairs_unique l1 l2 :
  l1 ≡ₚ l2 -> NoDup (map p_Key l1) -> StronglySorted pair_le l1 -> StronglySorted pair_le l2 -> l1 = l2.
Proof.
  intros Hp Hnd H1 H2. apply (StronglySorted_unique_strong pair_le); [|done..].
  intros x y Hx Hy Hxy Hyx. assert (p_Key x = p_Key y) as E.
  { unfold pair_le in *. rewrite bytes_le_lt_or_eq in Hxy, Hyx. destruct Hxy as [Hxy|]; [|done].
    destruct Hyx as [Hyx|]; [|done]. exfalso. apply (irreflexivity bytes_lt (p_Key x)). by trans (p_Key y). }
  apply list_elem_of_lookup in Hx as [i Hi]. rewrite <- Hp in Hy. apply list_elem_of_lookup in Hy as [j Hj].
  assert (i = j) as ->; [|congruence].
  apply (NoDup_lookup (map p_Key l1) i j (p_Key x)); [done| |rewrite E];
    rewrite list_lookup_fmap; [by rewrite Hi|by rewrite Hj].
Qed.

Lemma elem_of_GetAll m i pattern p :
  store_ok m i -> p ∈ MapStore_GetAll m pattern <-> m !! p_Key p = Some p /\ path_Match pattern (p_Key p) = true.
Proof.
  intros Hok. unfold MapStore_GetAll, getAll.
  rewrite merge_sort_Permutation, list_elem_of_filter, (elem_of_pairs m i p Hok). tauto.
Qed.

(** [GetAll] does not depend on the order in which Go visits the map: for
    any order the result is the list of the pairs that match, sorted by key,
    each once. *)
Theorem getAll_order m i pattern l :
  store_ok m i -> l ≡ₚ pairs m ->
  getAll l pattern = MapStore_GetAll m pattern
  /\ StronglySorted (fun a b => bytes_lt (p_Key a) (p_Key b)) (MapStore_GetAll m pattern)
  /\ forall p, p ∈ MapStore_GetAll m pattern <-> m !! p_Key p = Some p /\ path_Match pattern (p_Key p) = true.
Proof.
  intros Hok Hl. unfold MapStore_GetAll, getAll. set (P := fun kv => path_Match pattern (p_Key kv) = true).
  assert (NoDup (map p_Key (merge_sort pair_le (filter P (pairs m))))) as Hnd.
  { rewrite merge_sort_Permutation. apply (sublist_NoDup _ (map p_Key (pairs m))); [by eapply pairs_keys|].
    apply fmap_sublist, sublist_filter. }
  split; [|split].
  - symmetry. apply sorted_pairs_unique; [|done|apply (StronglySorted_merge_sort _)..].
    by rewrite !merge_sort_Permutation, Hl.
  - pose proof (StronglySorted_merge_sort pair_le (filter P (pairs m))) as Hs. revert Hnd.
    induction Hs as [|x ls Hs IH HF]; intros Hnd; constructor; [apply IH; by inversion Hnd|].
    apply NoDup_cons in Hnd as [Hx _]. rewrite Forall_forall in *. intros y Hy.
    pose proof (HF y Hy) as Hle. unfold pair_le in Hle. rewrite bytes_le_lt_or_eq in Hle.
    destruct Hle as [|E]; [done|]. destruct Hx. rewrite E. by apply list_elem_of_fmap_2.
  - intros p. by apply (elem_of_GetAll m i).
Qed.

(** ** Witnesses *)

#[export] Program Instance Pair_countable : Countable Pair :=
  inj_countable' (fun p => (p_Key p, p_Value p, p_Ver p)) (fun x => mkPair x.1.1 x.1.2 x.2) _.
Next Obligation. by intros []. Qed.
#[export] Program Instance KvUpdate_countable : Countable KvUpdate :=
  inj_countable' (fun u => (u_Op u, u_KVPair u)) (fun x => mkUpdate x.1 x.2) _.
Next Obligation. by intros []. Qed.

(** A codec that satisfies the laws. *)
Definition ex_kvjson : KvJson := {|
  kvj_update := countable_json Update_rep; kvj_update_laws := countable_json_laws Update_rep;
  kvj_pair := countable_json Pair_rep; kvj_pair_laws := countable_json_laws Pair_rep
|}.

Definition ex_store : MapStore := <[str "/tables/a" := mkPair (str "/tables/a") (str "x") 4]> NewMapStore.

Lemma ex_store_ok : store_ok ex_store 4.
Proof. 
  unfold ex_store, NewMapStore. intros k p [[<- <-]|[_ H]]%lookup_insert_Some; [|by apply lookup_empty_Some in H].
  repeat split; simpl; done || lia.
Qed.

(** The proposal of a set. *)
Definition ex_set (key value : bytes) (ver : Z) : bytes :=
  res_get [] (json_Marshal (Json := @kvj_update ex_kvjson) (mkUpdate UpdateOpSet (mkPair key value ver))).

Lemma set_is_compare_and_set_witness :
  exec (kv_handles (K := ex_kvjson)) (rs_Set (JU := @kvj_update ex_kvjson) (JP := @kvj_pair ex_kvjson) (fun _ e => e) (str "/tables/a") (str "y") 4)
    (ex_store, 4) (Ok (mkPair (str "/tables/a") (str "y") 9)) (<[str "/tables/a" := mkPair (str "/tables/a") (str "y") 9]> ex_store, 9)
  /\ (ex_store !! str "/tables/a" = None \/ exists v, ex_store !! str "/tables/a" = Some v /\ p_Ver v = 4).
Proof.
  pose proof (set_succeeds (K := ex_kvjson) ex_store 4 9 (str "/tables/a") (str "y") 4 ltac:(lia) ltac:(lia)
    eq_refl eq_refl ltac:(done) eq_refl) as H.
  split; [exact H|].
  apply (set_is_compare_and_set (K := ex_kvjson) ex_store 4 (str "/tables/a") (str "y") 4 _ _ _
    ex_store_ok ltac:(lia) eq_refl eq_refl ltac:(done) H).
Defined.

(** Whether the update leaves the pair. *)
Definition ex_keeps (r : res (MapStore * list (Z * bytes))) (p : Pair) : bool :=
  match r with Ok (m', _) => bool_decide (m' !! p_Key p = Some p) | _ => false end.

Lemma version_identifies_pair_witness :
  exists m' rs, lfsm_Update (JU := @kvj_update ex_kvjson) (JP := @kvj_pair ex_kvjson) ex_store
          [(5, ex_set (str "/tables/b") (str "y") 0); (7, ex_set (str "/tables/b") (str "z") 5)] = Ok (m', rs)
    /\ ex_store !! str "/tables/a" = Some (mkPair (str "/tables/a") (str "x") 4).
Proof.
  set (es := [(5, _); (7, _)]). set (p := mkPair (str "/tables/a") (str "x") 4).
  assert (ex_keeps (lfsm_Update (JU := @kvj_update ex_kvjson) (JP := @kvj_pair ex_kvjson) ex_store es) p = true) as Hk
    by (vm_compute; reflexivity).
  destruct (lfsm_Update _ es) as [[m' rs]| |] eqn:E; [|discriminate Hk..].
  exists m', rs. split; [reflexivity|]. simpl in Hk. apply bool_decide_eq_true in Hk.
  apply (version_identifies_pair (K := ex_kvjson) ex_store 4 es m' rs (str "/tables/a") p);
    [exact ex_store_ok|lia|simpl; lia|exact E|exact Hk|simpl; lia].
Defined.

Lemma getAll_order_witness :
  getAll [mkPair (str "/tables/a") (str "x") 4] (str "/tables/*") = [mkPair (str "/tables/a") (str "x") 4].
Proof.
  rewrite (proj1 (getAll_order ex_store 4 (str "/tables/*") [mkPair (str "/tables/a") (str "x") 4] ex_store_ok ltac:(by vm_compute))).
  reflexivity.
Defined.
