(* ===== verification/Manager.v ===== *)
(** * The table manager ([storage/table/manager.go])

    The manager keeps the list of tables, their Raft shard ids and the leases
    on tables in the metadata store, starts and stops the shards of the node
    and restores tables.  Its methods are programs: calls to the metadata
    store ([RaftStore] of [KvStore]), to the Raft host, to the clock and to
    the cache of active tables, which every node runs concurrently with the
    others.  The loops that call [reconcile] and [cleanup] on a timer, [Start]
    and [Close] are outside the model; so are the locks of one process, which
    only rule out interleavings. *)

From S2P Require Import Prelude GoStd Effects KvStore Proto Codec Snapshot Table.

(** ** Data *)

Definition keyPrefix : bytes := str "/tables/".
Definition sequenceKey : bytes := keyPrefix ++ str "sys/idseq".
Definition tableIDsRangeStart : Z := 10000.

(** [Lease], [Cleanup]; times are nanoseconds. *)
Record Lease := mkLease { l_ID : Z; l_Until : Z }.
Record Cleanup := mkCleanup { c_Created : Z; c_ClusterID : Z; c_SMDataPath : bytes }.
Definition TableInfo_zero : TableInfo := mkTable [] 0 0.

(** What the manager uses of its configuration. *)
Record ManagerConfig := mkConfig {
  cfg_NodeID : Z;
  cfg_MaxInMemLogSize : Z;
  cfg_members : gmap Z bytes;
  cfg_cleanupGracePeriod : Z
}.

Definition Table_rep (t : TableInfo) : bool :=
  utf8_valid (tbl_Name t) && (0 <=? tbl_ClusterID t) && (tbl_ClusterID t <? 2 ^ 64)
  && (0 <=? tbl_RecoverID t) && (tbl_RecoverID t <? 2 ^ 64).

Class ManagerJson := {
  mj_kv :: KvJson;
  mj_table :: Json TableInfo; mj_table_laws :: JsonLaws TableInfo (fun t => Table_rep t = true);
  mj_lease :: Json Lease; lease_rep : Lease -> Prop; mj_lease_laws :: JsonLaws Lease lease_rep;
  mj_cleanup :: Json Cleanup; cleanup_rep : Cleanup -> Prop; mj_cleanup_laws :: JsonLaws Cleanup cleanup_rep
}.

(** ** Calls *)

Inductive mgr_ev : Type -> Type :=
  (** The metadata shard. *)
  | Meta {X} (e : raft_ev X) : mgr_ev X
  (** [time.Now]. *)
  | Now : mgr_ev Z
  (** The Raft host of the node. *)
  | HasNodeInfo (shardID nodeID : Z) : mgr_ev bool
  | StartOnDiskReplica (initial : gmap Z bytes) (name : bytes) (shardID : Z) : mgr_ev (res unit)
  | StopShard (shardID : Z) : mgr_ev (res unit)
  | StaleReadPath (shardID : Z) : mgr_ev (res bytes)
  | GetNodeHostInfo : mgr_ev (option (list Z))
  | SyncRemoveData (shardID nodeID : Z) : mgr_ev (res unit)
  (** A proposal to a table shard, retried until it is accepted or the shard
      is not there; waiting for a leader of the shard. *)
  | ProposeRetry (shardID : Z) (cmd : bytes) : mgr_ev (res unit)
  | WaitForLeader (shardID : Z) : mgr_ev (res unit)
  | RemoveAll (path : bytes) : mgr_ev (res unit)
  (** The cache of active tables of the node. *)
  | CacheGet (name : bytes) : mgr_ev (option TableInfo)
  | CachePut (t : TableInfo) : mgr_ev unit
  | CacheClear (clusterID : Z) : mgr_ev unit.

Definition meta X (e : raft_ev X) : mgr_ev X := Meta e.

Section Manager.
Context {J : ManagerJson} (cfg : ManagerConfig).
Open Scope prog_scope.

Definition storedTableName (name : bytes) : bytes := keyPrefix ++ name.
Definition leaseKey (name : bytes) : bytes := storedTableName name ++ str "/lease".
Definition cleanupKey (nodeID clusterID : Z) : bytes :=
  str "/cleanup/" ++ FormatUint nodeID ++ str "/" ++ FormatUint clusterID.

(** ** Leases *)

(** The branch of [LeaseTable] that takes the lease. *)
Definition claimLease (key : bytes) (lease ver : Z) : M mgr_ev unit :=
  now <~ perform Now;
  bts <- lift (json_Marshal (mkLease (cfg_NodeID cfg) (now + lease)));
  _ <- rs_Set meta key bts ver;
  M_ret tt.

Definition LeaseTable (name : bytes) (lease : Z) : M mgr_ev unit :=
  let key := leaseKey name in
  get <~ rs_Get meta key;
  match get with
  | Ok get =>
      l <- lift (json_Unmarshal (A := Lease) (p_Value get));
      if l_ID l =? cfg_NodeID cfg then claimLease key lease (p_Ver get) else
      now <~ perform Now;
      if l_Until l <? now then claimLease key lease (p_Ver get) else M_err ErrLeaseNotAcquired
  | Err e => if decide (e = ErrNotExist) then claimLease key lease 0 else M_err e
  | Panic => lift Panic
  end.

Definition ReturnTable (name : bytes) : M mgr_ev bool :=
  let key := leaseKey name in
  get <~ rs_Get meta key;
  match get with
  | Ok get =>
      l <- lift (json_Unmarshal (A := Lease) (p_Value get));
      if negb (l_ID l =? cfg_NodeID cfg) then M_ret false else
      _ <- rs_Delete meta key (p_Ver get);
      M_ret true
  | Err e => if decide (e = ErrNotExist) then M_ret false else M_err e
  | Panic => lift Panic
  end.

(** ** Tables *)

Definition incAndGetIDSeq : M mgr_ev Z :=
  seq <~ rs_Get meta sequenceKey;
  seq <- match seq with
         | Err e => if decide (e = ErrNotExist) then M_ret (mkPair sequenceKey (FormatUint tableIDsRangeStart) 0)
                    else M_err e
         | _ => lift seq
         end;
  currSeq <- lift (ParseUint (p_Value seq));
  let next := uint64 (currSeq + 1) in
  _ <- rs_Set meta (p_Key seq) (FormatUint next) (p_Ver seq);
  M_ret next.

Definition getTableVersion (name : bytes) : M mgr_ev (TableInfo * Z) :=
  v <~ rs_Get meta (storedTableName name);
  match v with
  | Ok v => tab <- lift (json_Unmarshal (A := TableInfo) (p_Value v)); M_ret (tab, p_Ver v)
  | Err e => if decide (e = ErrNotExist) then M_err ErrTableNotFound else M_err e
  | Panic => lift Panic
  end.

Definition setTableVersion (tbl : TableInfo) (version : Z) : M mgr_ev unit :=
  bts <- lift (json_Marshal tbl);
  _ <- rs_Set meta (storedTableName (tbl_Name tbl)) bts version;
  M_ret tt.

Definition createTable (name : bytes) : M mgr_ev TableInfo :=
  exists_ <- rs_Exists meta (storedTableName name);
  if (exists_ : bool) then M_err ErrTableExists else
  seq <- incAndGetIDSeq;
  let tab := mkTable name seq 0 in
  r <~ setTableVersion tab 0;
  match r with
  | Err e => if decide (e = ErrVersionMismatch) then M_err ErrTableExists else M_err e
  | Panic => lift Panic
  | Ok _ => M_ret tab
  end.

Definition startTable (name : bytes) (id : Z) : M mgr_ev unit :=
  has <~ perform (HasNodeInfo id (cfg_NodeID cfg));
  if (has : bool) then perform (StartOnDiskReplica ∅ name id)
  else perform (StartOnDiskReplica (cfg_members cfg) name id).

Definition CreateTable (name : bytes) : M mgr_ev unit :=
  created <- createTable name;
  startTable (tbl_Name created) (tbl_ClusterID created).

Definition DeleteTable (name : bytes) : M mgr_ev unit :=
  let storeName := storedTableName name in
  tab <- rs_Get meta storeName;
  rs_Delete meta storeName (p_Ver tab).

Definition GetTable (name : bytes) : M mgr_ev TableInfo :=
  t <~ perform (CacheGet name);
  match t with
  | Some t => M_ret t
  | None => '(tab, _) <- getTableVersion name; M_ret tab
  end.

(** The tables of the pairs, by name. *)
Fixpoint decodeTables (all : list Pair) (tables : gmap bytes TableInfo) : res (gmap bytes TableInfo) :=
  match all with
  | [] => Ok tables
  | v :: all' => tab ← json_Unmarshal (A := TableInfo) (p_Value v); decodeTables all' (<[tbl_Name tab := tab]> tables)
  end.
Definition getTables : M mgr_ev (gmap bytes TableInfo) :=
  all <- rs_GetAll meta (keyPrefix ++ str "*");
  lift (decodeTables all ∅).

Definition GetTableByID (id : Z) : M mgr_ev TableInfo :=
  tables <- getTables;
  match list_find (fun t => tbl_ClusterID t = id) (map_to_list tables).*2 with
  | Some (_, t) => M_ret t
  | None => M_err ErrTableNotFound
  end.
Definition GetTables : M mgr_ev (list TableInfo) :=
  tabs <- getTables;
  M_ret (map_to_list tabs).*2.

(** ** Reconciliation *)

Definition table_ids (tables : list TableInfo) : gmap Z TableInfo :=
  foldl (fun ids t =>
    let ids := if decide (tbl_ClusterID t <> 0) then <[tbl_ClusterID t := t]> ids else ids in
    if decide (tbl_RecoverID t <> 0) then <[tbl_RecoverID t := t]> ids else ids) ∅ tables.

Definition diffTables (tables : gmap bytes TableInfo) (raftInfo : list Z) : gmap Z TableInfo * list Z :=
  let tableIDs := table_ids (map_to_list tables).*2 in
  let raftTableIDs : gset Z := list_to_set raftInfo in
  (filter (fun x => x.1 ∉ raftTableIDs /\ tableIDsRangeStart < x.1) tableIDs,
   filter (fun rID => tableIDs !! rID = None /\ tableIDsRangeStart < rID) (elements raftTableIDs)).

Definition stopTable (clusterID : Z) : M mgr_ev unit :=
  path <- perform (StaleReadPath clusterID);
  now <~ perform Now;
  b <- lift (json_Marshal (mkCleanup now clusterID path));
  let key := cleanupKey (cfg_NodeID cfg) clusterID in
  c <~ rs_Get meta key;
  c <- match c with Err e => if decide (e = ErrNotExist) then M_ret Pair_zero else M_err e | _ => lift c end;
  _ <- rs_Set meta key b (p_Ver c);
  perform (StopShard clusterID).

Definition reconcile : M mgr_ev unit :=
  tabs <- getTables;
  nhi <~ perform GetNodeHostInfo;
  match nhi with
  | None => M_err ErrNodeHostInfoUnavailable
  | Some shards =>
      _ <- M_iter (fun t => x <~ perform (CachePut t); M_ret x) (map_to_list tabs).*2;
      let '(start, stop) := diffTables tabs shards in
      _ <- M_iter (fun '(id, tbl) =>
             _ <- startTable (tbl_Name tbl) id; x <~ perform (CachePut tbl); M_ret x) (map_to_list start);
      M_iter (fun tab => _ <- stopTable tab; x <~ perform (CacheClear tab); M_ret x) stop
  end.

(** ** Cleanup *)

Fixpoint cleanup_go (ls : list Pair) : M mgr_ev unit :=
  match ls with
  | [] => M_ret tt
  | l :: ls' =>
      c <- lift (json_Unmarshal (A := Cleanup) (p_Value l));
      now <~ perform Now;
      if c_Created c <? now - cfg_cleanupGracePeriod cfg then
        r <~ GetTableByID (c_ClusterID c);
        match r with
        | Err ErrTableNotFound =>
            _ <- perform (SyncRemoveData (c_ClusterID c) (cfg_NodeID cfg));
            _ <- perform (RemoveAll (c_SMDataPath c));
            _ <- rs_Delete meta (p_Key l) (p_Ver l);
            cleanup_go ls'
        | Panic => lift Panic
        | _ => rs_Delete meta (p_Key l) (p_Ver l)
        end
      else cleanup_go ls'
  end.
Definition cleanup : M mgr_ev unit :=
  ls <- rs_GetAll meta (str "/cleanup/" ++ FormatUint (cfg_NodeID cfg) ++ str "/*");
  cleanup_go ls.

(** ** Restore *)

(** [readIntoTable] with its proposals. *)
Fixpoint readInto_go (fuel : nat) (id : Z) (file : bytes) (s : restore_state) : M mgr_ev unit :=
  match fuel with
  | O => M_err ErrOutOfFuel
  | S fuel' =>
      match sf_Read file msgCap with
      | Ok (msg, file) =>
          let estimatedSize := rs_size s + len msg in
          cmd <- lift (Command_UnmarshalVT msg Command_zero);
          if uint64 estimatedSize <? cfg_MaxInMemLogSize cfg / 2 then
            readInto_go fuel' id file
              (mkRestore (cmd_Table cmd) (cmd_LeaderIndex cmd) (rs_batch s ++ [cmd_Kv cmd]) estimatedSize)
          else
            bb <- lift (Command_MarshalVT (batch_of (cmd_Table cmd) (cmd_LeaderIndex cmd) (rs_batch s)));
            _ <- perform (ProposeRetry id bb);
            readInto_go fuel' id file (mkRestore (cmd_Table cmd) None [] 0)
      | Err e =>
          if decide (e = ErrEOF) then
            bb <- lift (Command_MarshalVT (batch_of (rs_table s) (rs_leader s) (rs_batch s)));
            perform (ProposeRetry id bb)
          else M_err e
      | Panic => lift Panic
      end
  end.
Definition readInto (id : Z) (file : bytes) : M mgr_ev unit := readInto_go (S (length file)) id file restore_init.

Definition Restore (name file : bytes) : M mgr_ev unit :=
  r <~ getTableVersion name;
  '(tbl, version) <- match r with
                     | Err e => if decide (e = ErrTableNotFound) then M_ret (TableInfo_zero, 0) else M_err e
                     | _ => lift r
                     end;
  recoveryID <- incAndGetIDSeq;
  let tbl := mkTable name (tbl_ClusterID tbl) recoveryID in
  _ <- startTable (tbl_Name tbl) (tbl_RecoverID tbl);
  _ <- setTableVersion tbl version;
  _ <- perform (WaitForLeader (tbl_RecoverID tbl));
  _ <- readInto (tbl_RecoverID tbl) file;
  '(tbl, version) <- getTableVersion name;
  let tbl := mkTable (tbl_Name tbl) recoveryID 0 in
  _ <- setTableVersion tbl version;
  x <~ perform (CachePut tbl);
  M_ret x.
End Manager.
