(* ===== verification/ManagerCorrect.v ===== *)
(** * The table manager is safe under concurrency

    Many nodes run manager operations at the same time, their calls to the
    metadata store interleaved in any way, answers lost or proposals failed.
    Two things hold throughout.  A lease that has not expired is only changed
    by the node that holds it; and every shard id belongs to one table, the
    one it was allocated for, so no two tables share a shard.  Both need that
    no table has the key of the sequence of ids or of a lease; the end of
    section [World] shows what happens otherwise.

    The ghost state is the map from the ids allocated so far to the names of
    the tables they were allocated for. *)

From S2P Require Import Prelude GoStd Effects KvStore Snapshot Table Manager.

(** ** Names and keys *)

(** The keys of the store that are not records of tables: the sequence of the
    ids and the leases.  A table with one of these names would share its key. *)
Definition reserved (name : bytes) : Prop := name = str "sys/idseq" \/ exists a, name = a ++ str "/lease".
Definition name_ok (name : bytes) : Prop := utf8_valid name = true /\ ~ reserved name.

Lemma stored_inj a b : storedTableName a = storedTableName b -> a = b.
Proof. apply app_inv_head. Qed.

Lemma lease_not_table a b : name_ok b -> leaseKey a <> storedTableName b.
Proof.
  intros [_ Hs] H. unfold leaseKey, storedTableName in H. rewrite <- app_assoc in H. apply app_inv_head in H.
  apply Hs. right. by exists a.
Qed.

Lemma seq_not_table b : name_ok b -> sequenceKey <> storedTableName b.
Proof. intros [_ Hs] H. apply app_inv_head in H. apply Hs. by left. Qed.

Lemma lease_not_seq a : leaseKey a <> sequenceKey.
Proof.
  unfold leaseKey, sequenceKey, storedTableName. rewrite <- app_assoc. intros H%app_inv_head.
  change (str "sys/idseq") with (str "sys" ++ str "/idseq") in H. apply app_inj_2 in H as [_ H]; done.
Qed.

(** Keys outside [/tables/]. *)
Lemma cleanup_not_tables rest a : str "/cleanup/" ++ rest <> keyPrefix ++ a.
Proof. intros H. by apply (f_equal (take 2)) in H. Qed.

Lemma storedTableName_utf8 name : name_ok name -> utf8_valid (storedTableName name) = true.
Proof. intros [H _]. by apply utf8_app. Qed.

Lemma leaseKey_utf8 name : utf8_valid name = true -> utf8_valid (leaseKey name) = true.
Proof. intros H. by repeat apply utf8_app. Qed.

(** ** The world *)

(** The metadata store at its Raft index, and the time. *)
Record world := mkWorld { w_meta : MapStore; w_idx : Z; w_now : Z }.
Abbreviation gworld := (world * gmap Z bytes)%type.

Section World.
Context {J : ManagerJson}.

(** Nothing is assumed about the Raft host and the caches. *)
Definition mgr_handles (n : Z) (w : world) X (e : mgr_ev X) : X -> world -> Prop :=
  match e with
  | Meta e => fun x w' => exists s', kv_handles (w_meta w, w_idx w) _ e x s' /\ w' = mkWorld s'.1 s'.2 (w_now w)
  | Now => fun x w' => x = w_now w /\ w' = w
  | _ => fun _ w' => w' = w
  end.

Definition mgr_env (w w' : world) : Prop :=
  w_meta w' = w_meta w /\ w_idx w' = w_idx w /\ w_now w <= w_now w'.

(** An unexpired lease of another node stays as it is. *)
Definition lease_kept (n : Z) (w w' : world) : Prop :=
  forall name p l, w_meta w !! leaseKey name = Some p -> json_Unmarshal (p_Value p) = Ok l ->
    l_ID l <> n -> w_now w <= l_Until l -> w_meta w' !! leaseKey name = Some p.

Definition stable (w w' : gworld) : Prop :=
  w_idx w.1 <= w_idx w'.1 /\ w_now w.1 <= w_now w'.1 /\ evolves (w_meta w.1) (w_idx w.1) (w_meta w'.1)
  /\ w.2 ⊆ w'.2 /\ (is_Some (w_meta w.1 !! sequenceKey) -> is_Some (w_meta w'.1 !! sequenceKey)).

Definition guar (n : Z) (w w' : gworld) : Prop := stable w w' /\ lease_kept n w.1 w'.1.

(** An id of the table [name], or none. *)
Definition id_ok (g : gmap Z bytes) (name : bytes) (id : Z) : Prop := id = 0 \/ g !! id = Some name.
Definition table_ok (g : gmap Z bytes) (name : bytes) (t : TableInfo) : Prop :=
  tbl_Name t = name /\ id_ok g name (tbl_ClusterID t) /\ id_ok g name (tbl_RecoverID t).

Definition seq_ok (w : world) (g : gmap Z bytes) : Prop :=
  match w_meta w !! sequenceKey with
  | Some p => exists v, ParseUint (p_Value p) = Ok v /\ tableIDsRangeStart <= v <= tableIDsRangeStart + w_idx w
                        /\ forall id name, g !! id = Some name -> tableIDsRangeStart < id <= v
  | None => g = ∅
  end.
Definition tables_ok (m : MapStore) (g : gmap Z bytes) : Prop :=
  forall name p, name_ok name -> m !! storedTableName name = Some p ->
    exists t, json_Unmarshal (p_Value p) = Ok t /\ table_ok g name t.

Definition Inv (w : gworld) : Prop :=
  store_ok (w_meta w.1) (w_idx w.1) /\ 0 <= w_idx w.1 < 2 ^ 63 /\ seq_ok w.1 w.2 /\ tables_ok (w_meta w.1) w.2.

Ltac split_stable := refine (conj _ (conj _ (conj _ (conj _ _)))); simpl in *; [try lia|try lia|try done|try done|try done].
Ltac split_inv := refine (conj _ (conj _ (conj _ _))); simpl in *; [try done|try lia|try done|try done].

(** ** Stability *)

#[global] Instance stable_preorder : PreOrder stable.
Proof.
  split.
  - intros w. split_stable. by intros k p.
  - intros w1 w2 w3 (I1 & N1 & E1 & G1 & S1) (I2 & N2 & E2 & G2 & S2).
    split_stable; [|by etrans|auto]. eapply evolves_trans; [|done|done]. lia.
Qed.

Lemma guar_refl n w : guar n w w.
Proof. split; [done|]. intros name p l Hp _ _ _. done. Qed.

Lemma rely_stable w w' : rtc (any mgr_env guar) w w' -> stable w w'.
Proof.
  induction 1 as [w|w w1 w2 Hs _ IH]; [done|]. etrans; [|done]. destruct Hs as [[n [H _]]|[(Em & Ei & En) Eg]]; [done|].
  destruct w as [w g], w1 as [w1 g1]. simpl in *. subst g1. split_stable; rewrite ?Em; [by intros k p|done].
Qed.

Lemma table_ok_mono g g' name t : g ⊆ g' -> table_ok g name t -> table_ok g' name t.
Proof.
  intros Hg (Hn & Hc & Hr). split; [done|].
  split; [destruct Hc as [|H]|destruct Hr as [|H]]; [by left|right|by left|right]; by eapply lookup_weaken.
Qed.
Lemma tables_ok_mono m g g' : g ⊆ g' -> tables_ok m g -> tables_ok m g'.
Proof. intros Hg H name p Hn Hp. destruct (H name p Hn Hp) as (t & ? & ?). eauto using table_ok_mono. Qed.

(** A version that is still there identifies the pair that was read. *)
Lemma stable_version w w' k p q :
  Inv w -> stable w w' -> w_meta w.1 !! k = Some p -> w_meta w'.1 !! k = Some q -> p_Ver q = p_Ver p -> q = p.
Proof.
  intros (Hok & _) (_ & _ & Hev & _) Hp Hq Hv. destruct (Hok k p Hp) as (_ & Hr & _).
  specialize (Hev k q Hq ltac:(lia)). congruence.
Qed.

(** ** Writes *)

Lemma store_ok_later m i j : store_ok m i -> i <= j -> store_ok m j.
Proof. intros H Hj k p Hp. destruct (H k p Hp) as (? & ? & ?). repeat split; auto; lia. Qed.

Lemma store_ok_insert m j key value :
  store_ok m j -> utf8_valid key = true -> utf8_valid value = true -> 0 < j < 2 ^ 63 ->
  store_ok (<[key := mkPair key value j]> m) j.
Proof.
  intros H Hk Hv Hj k p [[<- <-]|[_ Hp]]%lookup_insert_Some; [|by apply H]. split; [done|]. split; [simpl; lia|].
  apply Pair_rep_new; [done..|]. unfold is_uint64. lia.
Qed.

Lemma seq_ok_later w g m' j t :
  seq_ok w g -> w_idx w <= j -> m' !! sequenceKey = w_meta w !! sequenceKey -> seq_ok (mkWorld m' j t) g.
Proof.
  unfold seq_ok. simpl. intros H Hj ->. destruct (w_meta w !! sequenceKey) as [p|]; [|done].
  destruct H as (v & ? & ? & ?). exists v. split; [done|]. split; [lia|done].
Qed.

(** A write to a key that is neither the sequence nor a table. *)
Lemma write_other n w g k m' j :
  Inv (w, g) -> w_idx w < j < 2 ^ 63 -> store_ok m' j -> evolves (w_meta w) (w_idx w) m' ->
  (forall k', k' <> k -> m' !! k' = w_meta w !! k') ->
  k <> sequenceKey -> (forall name, name_ok name -> k <> storedTableName name) ->
  lease_kept n w (mkWorld m' j (w_now w)) ->
  guar n (w, g) (mkWorld m' j (w_now w), g) /\ Inv (mkWorld m' j (w_now w), g).
Proof.
  intros (Hok & Hi & Hseq & Ht) Hj Hok' Hev Hk Hks Hkt Hl. split; [split; [split_stable|done]|split_inv].
  - rewrite Hk by done. done.
  - apply seq_ok_later with w; [done|lia|]. by apply Hk, not_eq_sym.
  - intros name p Hn Hp. rewrite Hk in Hp by (by apply not_eq_sym, Hkt). by apply Ht.
Qed.

(** An update that changes nothing. *)
Lemma write_nothing n w g j :
  Inv (w, g) -> w_idx w < j < 2 ^ 63 ->
  guar n (w, g) (mkWorld (w_meta w) j (w_now w), g) /\ Inv (mkWorld (w_meta w) j (w_now w), g).
Proof.
  intros HI Hj. pose proof HI as (Hok & Hi & Hseq & Ht). split; [split; [split_stable; by intros k p|by intros name p l]|split_inv].
  - by apply store_ok_later with (w_idx w); [|simpl in *; lia].
  - apply seq_ok_later with w; [done|lia|done].
Qed.

(** The next id is allocated to a name. *)
Lemma write_seq n w g name v j :
  Inv (w, g) -> w_idx w < j < 2 ^ 63 ->
  match w_meta w !! sequenceKey with
  | Some p => ParseUint (p_Value p) = Ok v
  | None => v = tableIDsRangeStart
  end ->
  let next := uint64 (v + 1) in
  let m' := <[sequenceKey := mkPair sequenceKey (FormatUint next) j]> (w_meta w) in
  store_ok m' j -> evolves (w_meta w) (w_idx w) m' ->
  let w' := (mkWorld m' j (w_now w), <[next := name]> g) in
  guar n (w, g) w' /\ Inv w' /\ w'.2 !! next = Some name.
Proof.
  intros (Hok & Hi & Hseq & Ht) Hj Hv next m' Hok' Hev w'. simpl in *.
  assert (tableIDsRangeStart <= v <= tableIDsRangeStart + w_idx w
          /\ forall id nm, g !! id = Some nm -> tableIDsRangeStart < id <= v) as [Hr Hg].
  { unfold seq_ok in Hseq. simpl in Hseq. destruct (w_meta w !! sequenceKey) as [p|].
    - destruct Hseq as (v' & Hv' & ? & ?). assert (v' = v) as -> by congruence. auto.
    - subst v. unfold tableIDsRangeStart in *. split; [lia|]. subst g. intros id nm H. by apply lookup_empty_Some in H. }
  unfold tableIDsRangeStart in *. assert (next = v + 1) as Hnext by (apply uint64_id; unfold is_uint64; lia).
  assert (g ⊆ <[next := name]> g) as Hsub.
  { apply insert_subseteq. destruct (g !! next) as [x|] eqn:E; [|done]. apply Hg in E. lia. }
  split; [split|split; [split; [done|split; [simpl; lia|split]]|apply lookup_insert_eq]].
  - split_stable. intros _. unfold m'. rewrite lookup_insert_eq. eauto.
  - intros nm p l Hp _ _ _. simpl. unfold m'. rewrite lookup_insert_ne by apply not_eq_sym, lease_not_seq. done.
  - unfold seq_ok. simpl. unfold m'. rewrite lookup_insert_eq. simpl. exists next.
    split; [apply ParseUint_FormatUint; unfold is_uint64; lia|]. unfold tableIDsRangeStart. split; [lia|].
    intros id nm [[<- _]|[_ H]]%lookup_insert_Some; [lia|]. apply Hg in H. lia.
  - intros nm p Hn. simpl. unfold m'. rewrite lookup_insert_ne by (by apply seq_not_table).
    by apply (tables_ok_mono (w_meta w) g).
Qed.

(** A table entry is written or deleted. *)
Lemma write_table n w g name m' j :
  Inv (w, g) -> name_ok name -> w_idx w < j < 2 ^ 63 -> store_ok m' j -> evolves (w_meta w) (w_idx w) m' ->
  (forall k', k' <> storedTableName name -> m' !! k' = w_meta w !! k') ->
  (forall p, m' !! storedTableName name = Some p -> exists t, json_Unmarshal (p_Value p) = Ok t /\ table_ok g name t) ->
  guar n (w, g) (mkWorld m' j (w_now w), g) /\ Inv (mkWorld m' j (w_now w), g).
Proof.
  intros (Hok & Hi & Hseq & Ht) Hn Hj Hok' Hev Hk Hnew.
  assert (m' !! sequenceKey = w_meta w !! sequenceKey) as Es by (apply Hk; by apply seq_not_table).
  split; [split|]; [split_stable; by rewrite Es| |].
  - intros nm p l Hp _ _ _. simpl. rewrite Hk; [done|]. by apply lease_not_table.
  - split_inv; [apply seq_ok_later with w; [done|simpl in *; lia|done]|].
    intros nm p Hnm Hp. destruct (decide (nm = name)) as [->|Hne]; [by apply Hnew|].
    rewrite Hk in Hp by (by intros ?%stored_inj). by apply Ht.
Qed.

(** ** Rules for the calls *)

Abbreviation rely := (rtc (any mgr_env guar)).
Definition wpm {A} (n : Z) (p : prog mgr_ev A) (Q : A -> gworld -> Prop) (w : gworld) : Prop :=
  wp mgr_handles mgr_env guar Inv n p Q w.

(** [Q] at every state from here on. *)
Definition ever (w : gworld) (Q : gworld -> Prop) : Prop := forall w1, rely w w1 -> Inv w1 -> Q w1.

Lemma ever_rely w w' Q : ever w Q -> rely w w' -> ever w' Q.
Proof. intros H Hr w1 H1 HI. apply H; [by etrans|done]. Qed.

Lemma wpm_ret {A} n (a : A) Q w : ever w (Q a) -> wpm n (Ret a) Q w.
Proof. done. Qed.

Lemma wpm_bind {A B} n (p : prog mgr_ev A) (f : A -> prog mgr_ev B) Q w :
  wpm n p (fun a w' => wpm n (f a) Q w') w -> wpm n (pbind p f) Q w.
Proof. apply wp_bind. Qed.

Lemma wpm_mono {A} n (p : prog mgr_ev A) (Q Q' : A -> gworld -> Prop) w :
  (forall a w, Q a w -> Q' a w) -> wpm n p Q w -> wpm n p Q' w.
Proof. apply wp_mono. Qed.

Lemma wpm_later {A} n (a : A) Q w w1 : ever w (Q a) -> rely w w1 -> wpm n (Ret a) Q w1.
Proof. intros H Hr. exact (wpm_ret n a Q w1 (ever_rely w w1 _ H Hr)). Qed.

(** The bind of outcomes. *)
Lemma wpm_M_bind {A B} n (p : M mgr_ev A) (f : A -> M mgr_ev B) (Q : res B -> gworld -> Prop) w :
  wpm n p (fun r w' => match r with
                       | Ok a => wpm n (f a) Q w'
                       | Err e => ever w' (Q (Err e))
                       | Panic => ever w' (Q Panic)
                       end) w -> wpm n (M_bind p f) Q w.
Proof. intros H. apply wpm_bind. eapply wpm_mono; [|exact H]. intros [a|e|] w'; [done|apply wpm_ret..]. Qed.

(** A call that leaves the world alone. *)
Lemma wpm_skip {X} n (e : mgr_ev X) (Q : X -> gworld -> Prop) w :
  (forall w1 x w2, mgr_handles n w1 X e x w2 -> w2 = w1) ->
  (forall w1 x, rely w w1 -> Inv w1 -> mgr_handles n w1.1 X e x w1.1 -> ever w1 (Q x)) ->
  wpm n (perform e) Q w.
Proof.
  intros Hs H w1 Hr HI x s2 Hx. pose proof (Hs _ _ _ Hx) as ->. destruct w1 as [w1 g1]. simpl in *. exists g1.
  split; [apply guar_refl|]. split; [done|]. exact (wpm_ret n x Q (w1, g1) (H (w1, g1) x Hr HI Hx)).
Qed.

Lemma wpm_Get n key (Q : res Pair -> gworld -> Prop) w :
  (forall w1, rely w w1 -> Inv w1 ->
     ever w1 (Q (match w_meta w1.1 !! key with Some p => Ok p | None => Err ErrNotExist end))
     /\ forall c, ever w1 (Q (Err (ErrExternal c)))) ->
  wpm n (rs_Get meta key) Q w.
Proof.
  intros H. apply wpm_bind, wpm_skip.
  - intros w1 x w2 (s' & [-> _] & ->). by destruct w1.
  - intros w1 x Hr HI (s' & [_ Hx] & _). destruct (H w1 Hr HI) as [HQ HE]. simpl in Hx. unfold MapStore_Get in Hx.
    destruct Hx as [->|[c ->]]; [|intros w2 Hr2 HI2; exact (wpm_later n _ Q w1 w2 (HE c) Hr2)].
    destruct (w_meta w1.1 !! key); simpl; intros w2 Hr2 HI2; exact (wpm_later n _ Q w1 w2 HQ Hr2).
Qed.

Lemma wpm_Exists n key (Q : res bool -> gworld -> Prop) w :
  (forall w1 r, rely w w1 -> Inv w1 -> ever w1 (Q r)) -> wpm n (rs_Exists meta key) Q w.
Proof.
  intros H. apply wpm_bind, wpm_skip.
  - intros w1 x w2 (s' & [-> _] & ->). by destruct w1.
  - intros w1 x Hr HI _ w2 Hr2 HI2. destruct x as [[]| |]; exact (wpm_later n _ Q w1 w2 (H w1 _ Hr HI) Hr2).
Qed.

Lemma wpm_GetAll n pattern (Q : res (list Pair) -> gworld -> Prop) w :
  (forall w1, rely w w1 -> Inv w1 ->
     ever w1 (Q (Ok (MapStore_GetAll (w_meta w1.1) pattern))) /\ forall c, ever w1 (Q (Err (ErrExternal c)))) ->
  wpm n (rs_GetAll meta pattern) Q w.
Proof.
  intros H. apply wpm_bind, wpm_skip.
  - intros w1 x w2 (s' & [-> _] & ->). by destruct w1.
  - intros w1 x Hr HI (s' & [_ Hx] & _). destruct (H w1 Hr HI) as [HQ HE]. simpl in Hx.
    destruct Hx as [->|[c ->]]; intros w2 Hr2 HI2; [exact (wpm_later n _ Q w1 w2 HQ Hr2)|exact (wpm_later n _ Q w1 w2 (HE c) Hr2)].
Qed.

Lemma guar_rely n w w1 w2 : rely w w1 -> guar n w1 w2 -> rely w w2.
Proof. intros H Hg. eapply rtc_r; [done|]. left. eauto. Qed.

(** The proposal of an update: refused, lost or applied. *)
Lemma wpm_propose {A} n b (k : res (Z * bytes) -> prog mgr_ev A) Q w :
  (forall w1 c, rely w w1 -> Inv w1 -> wpm n (k (Err (ErrExternal c))) Q w1) ->
  (forall w1 j m' r, rely w w1 -> Inv w1 -> w_idx w1.1 < j < 2 ^ 63 -> lfsm_entry (w_meta w1.1) j b = Ok (m', r) ->
     store_ok m' j -> evolves (w_meta w1.1) (w_idx w1.1) m' ->
     exists g', let w' := (mkWorld m' j (w_now w1.1), g') in guar n w1 w' /\ Inv w' /\ wpm n (k (Ok r)) Q w') ->
  wpm n (pbind (perform (Meta (MetaPropose b))) k) Q w.
Proof.
  intros Hext Happ w1 Hr HI x s2 (s' & Hx & ->). destruct w1 as [w1 g1].
  destruct Hx as [(j & m' & r & Hj & He & -> & Hx)|[[c ->] ->]]; simpl in *.
  - destruct HI as (Hok & Hi & Hrest). destruct (lfsm_entry_ok _ _ _ _ _ _ Hok Hj ltac:(simpl in *; lia) He) as [Hok' Hev].
    destruct (Happ (w1, g1) j m' r Hr ltac:(done) Hj He Hok' Hev) as (g' & Hg & HI' & Hk). exists g'.
    split; [done|]. split; [done|]. destruct Hx as [->|[c ->]]; [done|]. apply Hext; [by eapply guar_rely|done].
  - exists g1. assert (mkWorld (w_meta w1) (w_idx w1) (w_now w1) = w1) as -> by (by destruct w1).
    split; [apply guar_refl|]. split; [done|]. by apply Hext.
Qed.

Lemma wpm_Set n key value ver (Q : res Pair -> gworld -> Prop) w :
  utf8_valid key = true -> utf8_valid value = true -> is_uint64 ver ->
  (forall w1, rely w w1 -> Inv w1 -> Q (Err ErrVersionMismatch) w1 /\ forall c, Q (Err (ErrExternal c)) w1) ->
  (forall w1 j, rely w w1 -> Inv w1 -> w_idx w1.1 < j < 2 ^ 63 ->
     match w_meta w1.1 !! key with Some v => p_Ver v = ver | None => True end ->
     let m' := <[key := mkPair key value j]> (w_meta w1.1) in
     store_ok m' j -> evolves (w_meta w1.1) (w_idx w1.1) m' ->
     exists g', let w' := (mkWorld m' j (w_now w1.1), g') in
       guar n w1 w' /\ Inv w' /\ ever w' (Q (Ok (mkPair key value j)))) ->
  wpm n (rs_Set meta key value ver) Q w.
Proof.
  intros Hk Hv Hr Hfail Happ. unfold rs_Set, M_bind. simpl.
  destruct (json_total (representable := fun u => Update_rep u = true) (mkUpdate UpdateOpSet (mkPair key value ver)))
    as [b Hb]; [unfold Update_rep; simpl; by apply Pair_rep_new|]. rewrite Hb.
  apply (wpm_propose n b (fun r => _)).
  - intros w1 c Hr1 HI1. apply wpm_ret. intros w2 Hr2 HI2. apply Hfail; [by etrans|done].
  - intros w1 j m' [code data] Hr1 HI1 Hj He Hok' Hev. pose proof HI1 as (Hok & Hi & _).
    destruct (set_entry _ _ j key value ver b m' (code, data) Hok ltac:(lia) ltac:(lia) Hk Hv Hr Hb He)
      as [(v & Hm & Hver & -> & Hc & Hd)|(Hm & -> & Hc & Hd)]; simpl in Hc, Hd; subst code.
    + destruct w1 as [w1 g1]. destruct (write_nothing n w1 g1 j HI1 Hj) as [Hg HI2]. exists g1.
      split; [done|]. split; [done|]. simpl. rewrite Hd. apply wpm_ret. intros w2 Hr2 HI3.
      apply Hfail; [|done]. etrans; [by eapply guar_rely|done].
    + destruct (Happ w1 j Hr1 HI1 Hj Hm Hok' Hev) as (g' & Hg & HI' & HQ). exists g'.
      split; [done|]. split; [done|]. simpl. rewrite Hd. by apply wpm_ret.
Qed.

Lemma wpm_Delete n key ver (Q : res unit -> gworld -> Prop) w :
  utf8_valid key = true -> is_uint64 ver ->
  (forall w1 r, rely w w1 -> Inv w1 -> Q r w1) ->
  (forall w1 j, rely w w1 -> Inv w1 -> w_idx w1.1 < j < 2 ^ 63 ->
     match w_meta w1.1 !! key with Some v => p_Ver v = ver | None => True end ->
     let m' := delete key (w_meta w1.1) in
     store_ok m' j -> evolves (w_meta w1.1) (w_idx w1.1) m' ->
     exists g', let w' := (mkWorld m' j (w_now w1.1), g') in guar n w1 w' /\ Inv w') ->
  wpm n (rs_Delete meta key ver) Q w.
Proof.
  intros Hk Hr HQ Happ. unfold rs_Delete, M_bind. simpl.
  destruct (json_total (representable := fun u => Update_rep u = true) (mkUpdate UpdateOpDelete (mkPair key [] ver)))
    as [b Hb]; [unfold Update_rep; simpl; by apply Pair_rep_new|]. rewrite Hb.
  apply (wpm_propose n b (fun r => _)).
  - intros w1 c Hr1 HI1. apply wpm_ret. intros w2 Hr2 HI2. apply HQ; [by etrans|done].
  - intros w1 j m' [code data] Hr1 HI1 Hj He Hok' Hev.
    assert (exists g', let w' := (mkWorld m' j (w_now w1.1), g') in guar n w1 w' /\ Inv w') as (g' & Hg & HI').
    { destruct (delete_entry _ j key ver b m' (code, data) Hk Hr Hb He) as [(v & _ & _ & -> & _)|(Hm & -> & _)]; [|by apply Happ].
      destruct w1 as [w1 g1]. exists g1. by apply write_nothing. }
    exists g'. split; [done|]. split; [done|]. simpl.
    destruct (code =? ResultCodeVersionMismatch); apply wpm_ret; intros w2 Hr2 HI2; apply HQ; try done;
      (etrans; [by eapply guar_rely|done]).
Qed.

(** ** The operations *)

Definition any_result {A} : A -> gworld -> Prop := fun _ _ => True.

Lemma ever_True w : ever w (fun _ => True).
Proof. done. Qed.

(** A call that leaves the world alone, and nothing is needed of its result. *)
Lemma wpm_skip_any {X} n (e : mgr_ev X) (Q : X -> gworld -> Prop) w :
  (forall w1 x w2, mgr_handles n w1 X e x w2 -> w2 = w1) ->
  (forall w1 x, rely w w1 -> Inv w1 -> Q x w1) -> wpm n (perform e) Q w.
Proof.
  intros Hs H. apply wpm_skip; [done|]. intros w1 x Hr HI _ w2 Hr2 HI2. apply H; [by etrans|done].
Qed.

(** The post-condition may use that the world has moved on properly. *)
Lemma wpm_strengthen {A} n (p : prog mgr_ev A) Q w :
  wpm n p Q w -> wpm n p (fun a w' => Q a w' /\ rely w w' /\ Inv w') w.
Proof.
  assert (forall w0, rely w0 w -> wpm n p Q w -> wpm n p (fun a w' => Q a w' /\ rely w0 w' /\ Inv w') w) as H;
    [|by apply H].
  revert w. induction p as [a|X e k IH]; intros w w0 Hr0 H.
  - intros w1 Hr HI. split; [by apply H|]. split; [by etrans|done].
  - intros w1 Hr HI x s2 Hx. destruct (H w1 Hr HI x s2 Hx) as (g2 & Hg & HI2 & Hk). exists g2.
    split; [done|]. split; [done|]. apply IH; [|done]. eapply guar_rely; [|done]. by etrans.
Qed.

(** Sequencing when only the state of the world matters. *)
Lemma wpm_then {A B} n (p : M mgr_ev A) (f : A -> M mgr_ev B) w :
  wpm n p any_result w -> (forall a w1, rely w w1 -> Inv w1 -> wpm n (f a) any_result w1) ->
  wpm n (M_bind p f) any_result w.
Proof.
  intros Hp Hf. apply wpm_M_bind. eapply wpm_mono; [|by apply wpm_strengthen].
  intros [a|e|] w1 (_ & Hr & HI); [by apply Hf|done|done].
Qed.
Lemma wpm_pthen {A B} n (p : prog mgr_ev A) (f : A -> prog mgr_ev B) w :
  wpm n p any_result w -> (forall a w1, rely w w1 -> Inv w1 -> wpm n (f a) any_result w1) ->
  wpm n (pbind p f) any_result w.
Proof.
  intros Hp Hf. apply wpm_bind. eapply wpm_mono; [|by apply wpm_strengthen].
  intros a w1 (_ & Hr & HI). by apply Hf.
Qed.

Lemma wpm_lift {A B} n (r : res A) (f : A -> M mgr_ev B) w :
  (forall a, r = Ok a -> wpm n (f a) any_result w) -> wpm n (M_bind (lift r) f) any_result w.
Proof. intros H. destruct r as [a|e|]; [by apply H|by apply wpm_ret..]. Qed.

Lemma wpm_M_iter {A} n (f : A -> M mgr_ev unit) l w :
  (forall x w1, x ∈ l -> rely w w1 -> Inv w1 -> wpm n (f x) any_result w1) -> Inv w ->
  wpm n (M_iter f l) any_result w.
Proof.
  revert w. induction l as [|x l IH]; intros w Hf HI; simpl; [by apply wpm_ret|].
  apply wpm_then; [apply Hf; [apply list_elem_of_here|done|done]|].
  intros _ w1 Hr HI1. apply IH; [|done]. intros y w2 Hy Hr2 HI2. apply Hf; [by apply list_elem_of_further|by etrans|done].
Qed.

Lemma version_uint64 w k p : Inv w -> w_meta w.1 !! k = Some p -> is_uint64 (p_Ver p).
Proof. intros (Hok & Hi & _) Hp. destruct (Hok k p Hp) as (_ & ? & _). unfold is_uint64. lia. Qed.

Section Ops.
Context (cfg : ManagerConfig).
Abbreviation n := (cfg_NodeID cfg).

(** *** Leases *)

(** The lease with this version, if it is still there, may be taken. *)
Definition may_claim (key : bytes) (ver : Z) (w : gworld) : Prop :=
  forall w1 q l, rely w w1 -> Inv w1 -> w_meta w1.1 !! key = Some q -> p_Ver q = ver ->
    json_Unmarshal (p_Value q) = Ok l -> l_ID l = n \/ l_Until l < w_now w1.1.

Lemma lease_written name w m' j :
  (forall k', k' <> leaseKey name -> m' !! k' = w_meta w !! k') ->
  (forall q l, w_meta w !! leaseKey name = Some q -> json_Unmarshal (p_Value q) = Ok l ->
     l_ID l = n \/ l_Until l < w_now w) ->
  lease_kept n w (mkWorld m' j (w_now w)).
Proof.
  intros Hk Hl nm p l Hp Hd Hne Hun. simpl. destruct (decide (leaseKey nm = leaseKey name)) as [E|E]; [|by rewrite Hk].
  rewrite E in *. destruct (Hl p l Hp Hd); [done|lia].
Qed.

Lemma claimLease_ok name lease ver w :
  utf8_valid name = true -> is_uint64 ver -> may_claim (leaseKey name) ver w -> wpm n (claimLease cfg (leaseKey name) lease ver) any_result w.
Proof.
  intros Hn Hver Hmay. apply wpm_pthen; [by apply wpm_skip_any; [intros w1 x w2 [_ ->]|]|].
  intros now w1 Hr1 HI1. apply wpm_lift. intros bts Hb. apply wpm_then; [|intros; by apply wpm_ret].
  apply wpm_Set; [by apply leaseKey_utf8|exact (json_utf8 (representable := lease_rep) _ _ Hb)|done|done|].
  intros w2 j Hr2 HI2 Hj Hm m' Hok' Hev. destruct w2 as [w2 g2]. exists g2.
  assert (forall k', k' <> leaseKey name -> m' !! k' = w_meta w2 !! k') as Hk
    by (intros k' Hne; apply lookup_insert_ne; by apply not_eq_sym).
  destruct (write_other n w2 g2 (leaseKey name) m' j) as [? ?]; try done; [apply lease_not_seq|..].
  - intros nm Hnm. by apply lease_not_table.
  - apply lease_written with name; [done|]. intros q l Hq Hl. simpl in Hm. rewrite Hq in Hm.
    apply (Hmay (w2, g2) q l); try done. by etrans.
Qed.

Lemma LeaseTable_ok name lease w : utf8_valid name = true -> Inv w -> wpm n (LeaseTable cfg name lease) any_result w.
Proof.
  intros Hn HI. unfold LeaseTable. apply wpm_bind, wpm_Get. intros w1 Hr1 HI1.
  split; [|intros c w2 Hr2 HI2; by apply wpm_ret].
  destruct (w_meta w1.1 !! leaseKey name) as [p|] eqn:Hp; intros w2 Hr2 HI2.
  - pose proof (version_uint64 w1 _ p HI1 Hp) as Hv.
    assert (forall w3 q, rely w1 w3 -> Inv w3 -> w_meta w3.1 !! leaseKey name = Some q -> p_Ver q = p_Ver p -> q = p) as Hsame.
    { intros w3 q Hr3 HI3 Hq Hver. eapply stable_version; [exact HI1|by apply rely_stable|done|done|done]. }
    apply wpm_lift. intros l Hl. destruct (Z.eqb_spec (l_ID l) n) as [E|E].
    { apply claimLease_ok; [done|done|]. intros w3 q l' Hr3 HI3 Hq Hver Hl'.
      rewrite (Hsame w3 q) in Hl' by (done || by etrans). left. congruence. }
    apply wpm_bind, wpm_skip; [by intros w3 x w4 [_ ->]|]. intros w3 now Hr3 HI3 [-> _] w4 Hr4 HI4.
    destruct (Z.ltb_spec (l_Until l) (w_now w3.1)); [|by apply wpm_ret].
    apply claimLease_ok; [done|done|]. intros w5 q l' Hr5 HI5 Hq Hver Hl'.
    assert (rely w1 w5) as Hr15 by (do 3 (etrans; [eassumption|]); done).
    rewrite (Hsame w5 q) in Hl' by done. right.
    assert (l' = l) as -> by congruence.
    assert (stable w3 w5) as (_ & Hnow & _) by (apply rely_stable; by etrans). lia.
  - apply claimLease_ok; [done|by split|]. intros w3 q l' Hr3 (Hok & _) Hq Hver _.
    destruct (Hok _ q Hq) as (_ & ? & _). lia.
Qed.

Lemma ReturnTable_ok name w : utf8_valid name = true -> Inv w -> wpm n (ReturnTable cfg name) any_result w.
Proof.
  intros Hn HI. unfold ReturnTable. apply wpm_bind, wpm_Get. intros w1 Hr1 HI1.
  split; [|intros c w2 Hr2 HI2; by apply wpm_ret].
  destruct (w_meta w1.1 !! leaseKey name) as [p|] eqn:Hp; intros w2 Hr2 HI2; [|by apply wpm_ret].
  pose proof (version_uint64 w1 _ p HI1 Hp) as Hv.
  apply wpm_lift. intros l Hl. destruct (Z.eqb_spec (l_ID l) n) as [E|E]; simpl; [|by apply (wpm_ret n (Ok false))].
  apply wpm_then; [|intros; by apply wpm_ret].
  apply wpm_Delete; [by apply leaseKey_utf8|done|done|].
  intros w3 j Hr3 HI3 Hj Hm m' Hok' Hev. destruct w3 as [w3 g3]. exists g3.
  assert (forall k', k' <> leaseKey name -> m' !! k' = w_meta w3 !! k') as Hk
    by (intros k' Hne; apply lookup_delete_ne; by apply not_eq_sym).
  apply write_other with (leaseKey name); try done; [apply lease_not_seq|intros nm Hnm; by apply lease_not_table|].
  apply lease_written with name; [done|]. intros q l' Hq Hl'. simpl in Hm, Hq. rewrite Hq in Hm.
  assert (q = p) as ->; [|left; congruence].
  eapply (stable_version w1 (w3, g3)); [done|apply rely_stable; by etrans|done|done|done].
Qed.

(** *** Tables *)

Definition id_post (name : bytes) (r : res Z) (w : gworld) : Prop :=
  match r with Ok id => w.2 !! id = Some name | _ => True end.

Lemma wpm_lift_post {A B} (r : res A) (f : A -> M mgr_ev B) (Q : res B -> gworld -> Prop) w :
  (forall a, r = Ok a -> wpm n (f a) Q w) -> (forall e w1, Q (Err e) w1) -> (forall w1, Q Panic w1) ->
  wpm n (M_bind (lift r) f) Q w.
Proof. intros H HE HP. destruct r as [a|e|]; [by apply H|apply wpm_ret; intros w1 _ _; done..]. Qed.

(** The write of the next id, given the pair that was read. *)
Lemma incSeq_set name p v w :
  is_uint64 (p_Ver p) -> ParseUint (p_Value p) = Ok v -> p_Key p = sequenceKey ->
  (forall w1, rely w w1 -> Inv w1 -> match w_meta w1.1 !! sequenceKey with Some q => p_Ver q = p_Ver p | None => True end ->
     match w_meta w1.1 !! sequenceKey with Some q => ParseUint (p_Value q) = Ok v | None => v = tableIDsRangeStart end) ->
  wpm n (M_bind (rs_Set meta (p_Key p) (FormatUint (uint64 (v + 1))) (p_Ver p)) (fun _ => M_ret (uint64 (v + 1))))
    (id_post name) w.
Proof.
  intros Hver Hv Hk Hcur. apply wpm_M_bind. rewrite Hk. apply wpm_Set; [done|apply FormatUint_utf8|done|done|].
  intros w1 j Hr1 HI1 Hj Hm m' Hok' Hev. pose proof (Hcur w1 Hr1 HI1 Hm) as Hc. destruct w1 as [w1 g1].
  destruct (write_seq n w1 g1 name v j HI1 Hj Hc Hok' Hev) as (Hg & HI' & Hid).
  exists (<[uint64 (v + 1) := name]> g1). split; [done|]. split; [done|]. intros w2 Hr2 HI2. apply wpm_ret.
  intros w3 Hr3 HI3. simpl. apply rely_stable in Hr2 as (_ & _ & _ & Hs2 & _), Hr3 as (_ & _ & _ & Hs3 & _).
  eapply lookup_weaken; [exact Hid|]. by etrans.
Qed.

Lemma incAndGetIDSeq_ok name w : Inv w -> wpm n incAndGetIDSeq (id_post name) w.
Proof.
  intros HI. unfold incAndGetIDSeq. apply wpm_bind, wpm_Get. intros w1 Hr1 HI1.
  split; [|intros c w2 Hr2 HI2; by apply wpm_ret].
  destruct (w_meta w1.1 !! sequenceKey) as [p|] eqn:Hp; intros w2 Hr2 HI2.
  - apply wpm_lift_post; [|done|done]. intros p' [= <-]. apply wpm_lift_post; [|done|done]. intros v Hv.
    apply incSeq_set; [exact (version_uint64 w1 _ p HI1 Hp)|done|by apply (proj1 HI1)|].
    intros w3 Hr3 HI3 Hm. assert (rely w1 w3) as Hr13 by (by etrans).
    pose proof (rely_stable _ _ Hr13) as Hst. destruct Hst as (_ & _ & _ & _ & Hs). destruct Hs as [q Hq]; [eauto|].
    rewrite Hq in *. assert (q = p) as ->; [|done].
    eapply stable_version; [exact HI1|by apply rely_stable|done|done|done].
  - apply (wpm_lift_post (Ok (mkPair sequenceKey (FormatUint tableIDsRangeStart) 0))); [|done|done].
    intros p' [= <-]. apply wpm_lift_post; [|done|done]. intros v Hv.
    assert (v = tableIDsRangeStart) as ->.
    { assert (Ok v = Ok tableIDsRangeStart) as [= ->]; [|done]. rewrite <- Hv. by apply ParseUint_FormatUint. }
    apply incSeq_set; [done|done|done|]. intros w3 Hr3 HI3 Hm.
    destruct (w_meta w3.1 !! sequenceKey) as [q|] eqn:Hq; [|done]. simpl in Hm.
    destruct (proj1 HI3 _ q Hq) as (_ & ? & _). lia.
Qed.

Lemma setTableVersion_ok name t version w :
  name_ok name -> is_uint64 version -> Table_rep t = true -> table_ok w.2 name t ->
  wpm n (setTableVersion t version) any_result w.
Proof.
  intros Hn Hver Hrep Ht. unfold setTableVersion. apply wpm_lift. intros bts Hb.
  pose proof Ht as [Et _]. apply wpm_then; [|intros; by apply wpm_ret]. rewrite Et.
  apply wpm_Set; [by apply storedTableName_utf8|exact (json_utf8 (representable := fun t => Table_rep t = true) _ _ Hb)|done|done|].
  intros w1 j Hr1 HI1 Hj Hm m' Hok' Hev. pose proof (rely_stable _ _ Hr1) as (_ & _ & _ & Hsub & _).
  destruct w1 as [w1 g1]. exists g1.
  destruct (write_table n w1 g1 name m' j) as [? ?]; try done.
  - intros k' Hne. apply lookup_insert_ne. by apply not_eq_sym.
  - unfold m'. rewrite lookup_insert_eq. intros p [= <-]. simpl. exists t.
    split; [exact (json_roundtrip (representable := fun t => Table_rep t = true) t bts Hrep Hb)|].
    by eapply table_ok_mono.
Qed.

Definition table_post (name : bytes) (r : res (TableInfo * Z)) (w : gworld) : Prop :=
  match r with
  | Ok (t, version) => table_ok w.2 name t /\ is_uint64 version /\ Table_rep t = true
  | _ => True
  end.

Lemma getTableVersion_ok name w : name_ok name -> Inv w -> wpm n (getTableVersion name) (table_post name) w.
Proof.
  intros Hn HI. unfold getTableVersion. apply wpm_bind, wpm_Get. intros w1 Hr1 HI1.
  split; [|intros c w2 Hr2 HI2; by apply wpm_ret].
  destruct (w_meta w1.1 !! storedTableName name) as [p|] eqn:Hp; intros w2 Hr2 HI2;
    [|by apply (wpm_ret n (Err ErrTableNotFound))].
  apply wpm_lift_post; [|done|done]. intros t Ht. apply wpm_ret. intros w3 Hr3 HI3. simpl.
  destruct HI1 as (Hok & Hi & Hs & Htab). destruct (Htab name p Hn Hp) as (t' & Ht' & Htok).
  assert (t' = t) as -> by congruence. apply rely_stable in Hr2 as (_ & _ & _ & Hs2 & _), Hr3 as (_ & _ & _ & Hs3 & _).
  split; [eapply table_ok_mono; [|done]; by etrans|].
  split; [by eapply version_uint64; [split; [exact Hok|exact (conj Hi (conj Hs Htab))]|exact Hp]|].
  exact (json_decoded (representable := fun t => Table_rep t = true) _ _ Ht).
Qed.

Lemma Table_rep_new name id1 id2 : utf8_valid name = true -> is_uint64 id1 -> is_uint64 id2 ->
  Table_rep (mkTable name id1 id2) = true.
Proof.
  intros Hn H1 H2. unfold Table_rep, is_uint64 in *. simpl. rewrite Hn. simpl.
  by rewrite !(proj2 (Z.leb_le _ _)), !(proj2 (Z.ltb_lt _ _)) by lia.
Qed.

(** An allocated id is in range. *)
Lemma id_range w id name : Inv w -> w.2 !! id = Some name -> is_uint64 id.
Proof.
  intros (_ & Hi & Hs & _) Hid. unfold seq_ok, tableIDsRangeStart, is_uint64 in *.
  destruct (w_meta w.1 !! sequenceKey) as [p|].
  - destruct Hs as (v & _ & Hv & Hg). apply Hg in Hid. lia.
  - rewrite Hs in Hid. by apply lookup_empty_Some in Hid.
Qed.

Lemma startTable_ok name id w : wpm n (startTable cfg name id) any_result w.
Proof.
  unfold startTable. apply wpm_pthen; [by apply wpm_skip_any|]. intros [] w1 Hr HI; by apply wpm_skip_any.
Qed.

Lemma createTable_ok name w : name_ok name -> Inv w -> wpm n (createTable name) any_result w.
Proof.
  intros Hn HI. unfold createTable. apply wpm_then; [by apply wpm_Exists|]. intros ex w1 Hr1 HI1.
  destruct ex; [by apply wpm_ret|]. apply wpm_M_bind. eapply wpm_mono; [|apply wpm_strengthen, (incAndGetIDSeq_ok name); done].
  intros [id|e|] w2 (Hid & Hr2 & HI2); [|done|done]. simpl in Hid. apply wpm_pthen.
  - apply (setTableVersion_ok name); [done|done|apply Table_rep_new; [apply Hn|by eapply id_range|done]|].
    split; [done|]. split; [by right|by left].
  - intros [u|e|] w3 _ _; [by apply wpm_ret| |by apply wpm_ret]. destruct (decide (e = ErrVersionMismatch)); by apply wpm_ret.
Qed.

Lemma CreateTable_ok name w : name_ok name -> Inv w -> wpm n (CreateTable cfg name) any_result w.
Proof. intros Hn HI. apply wpm_then; [by apply createTable_ok|]. intros t w1 _ _. apply startTable_ok. Qed.

Lemma DeleteTable_ok name w : name_ok name -> Inv w -> wpm n (DeleteTable name) any_result w.
Proof.
  intros Hn HI. unfold DeleteTable. apply wpm_M_bind, wpm_Get. intros w1 Hr1 HI1. split; [|done].
  destruct (w_meta w1.1 !! storedTableName name) as [p|] eqn:Hp; intros w2 Hr2 HI2; [|done].
  apply wpm_Delete; [by apply storedTableName_utf8|exact (version_uint64 w1 _ p HI1 Hp)|done|].
  intros w3 j Hr3 HI3 Hj Hm m' Hok' Hev. destruct w3 as [w3 g3]. exists g3.
  apply (write_table n w3 g3 name m' j); try done.
  - intros k' Hne. apply lookup_delete_ne. by apply not_eq_sym.
  - unfold m'. rewrite lookup_delete_eq. done.
Qed.

(** *** Restore *)

Lemma readInto_ok id file w : wpm n (readInto cfg id file) any_result w.
Proof.
  unfold readInto. generalize (S (length file)). intros fuel. generalize restore_init. revert file w.
  induction fuel as [|fuel IH]; intros file w st; [by apply wpm_ret|]. cbn [readInto_go].
  destruct (sf_Read file msgCap) as [[msg file']|e|]; [|destruct (decide (e = ErrEOF)); [|by apply wpm_ret]|by apply wpm_ret].
  - apply wpm_lift. intros cmd _. destruct (_ <? _); [apply IH|]. apply wpm_lift. intros bb _.
    apply wpm_then; [by apply wpm_skip_any|]. intros _ w1 _ _. apply IH.
  - apply wpm_lift. intros bb _. by apply wpm_skip_any.
Qed.

(** A use of a table with its version. *)
Lemma wpm_getTable {B} name (f : TableInfo * Z -> M mgr_ev B) w :
  name_ok name -> Inv w ->
  (forall t version w1, rely w w1 -> Inv w1 -> table_ok w1.2 name t -> is_uint64 version -> Table_rep t = true ->
     wpm n (f (t, version)) any_result w1) ->
  wpm n (M_bind (getTableVersion name) f) any_result w.
Proof.
  intros Hn HI Hf. apply wpm_M_bind. eapply wpm_mono; [|by apply wpm_strengthen, getTableVersion_ok].
  intros [[t v]|e|] w1 (Hp & Hr & HI1); [|done|done]. destruct Hp as (? & ? & ?). by apply Hf.
Qed.

(** The second half of [Restore]: the recovered shard becomes the table's. *)
Lemma restore_finish name id w :
  name_ok name -> Inv w -> w.2 !! id = Some name ->
  wpm n (M_bind (getTableVersion name) (fun '(tbl, version) =>
    M_bind (setTableVersion (mkTable (tbl_Name tbl) id 0) version) (fun _ =>
    pbind (perform (CachePut (mkTable (tbl_Name tbl) id 0))) (fun x => M_ret x)))) any_result w.
Proof.
  intros Hn HI Hid. apply wpm_getTable; [done|done|]. intros t version w1 Hr HI1 [Et _] Hv _.
  apply rely_stable in Hr as (_ & _ & _ & Hsub & _). assert (w1.2 !! id = Some name) as Hid1 by (by eapply lookup_weaken).
  apply wpm_then.
  - apply (setTableVersion_ok name); [done|done| |].
    + apply Table_rep_new; [rewrite Et; apply Hn|by eapply id_range|done].
    + split; [done|]. split; [by right|by left].
  - intros _ w2 _ _. apply wpm_pthen; [by apply wpm_skip_any|]. intros x w3 _ _. by apply wpm_ret.
Qed.

Lemma restore_rest name file tbl version w :
  name_ok name -> Inv w -> table_ok w.2 name (mkTable name (tbl_ClusterID tbl) 0) -> is_uint64 (tbl_ClusterID tbl) ->
  is_uint64 version ->
  wpm n (M_bind incAndGetIDSeq (fun recoveryID =>
    let tbl := mkTable name (tbl_ClusterID tbl) recoveryID in
    M_bind (startTable cfg (tbl_Name tbl) (tbl_RecoverID tbl)) (fun _ =>
    M_bind (setTableVersion tbl version) (fun _ =>
    M_bind (perform (WaitForLeader (tbl_RecoverID tbl))) (fun _ =>
    M_bind (readInto cfg (tbl_RecoverID tbl) file) (fun _ =>
    M_bind (getTableVersion name) (fun '(tbl, version) =>
    M_bind (setTableVersion (mkTable (tbl_Name tbl) recoveryID 0) version) (fun _ =>
    pbind (perform (CachePut (mkTable (tbl_Name tbl) recoveryID 0))) (fun x => M_ret x))))))))) any_result w.
Proof.
  intros Hn HI (_ & Hc & _) Hcr Hv. apply wpm_M_bind. eapply wpm_mono; [|apply wpm_strengthen, (incAndGetIDSeq_ok name); done].
  intros [id|e|] w2 (Hid & Hr2 & HI2); [|done|done]. simpl in Hid.
  assert (forall w3, rely w2 w3 -> w3.2 !! id = Some name /\ id_ok w3.2 name (tbl_ClusterID tbl)) as Hown.
  { intros w3 Hr3. apply rely_stable in Hr2 as (_ & _ & _ & Hs2 & _), Hr3 as (_ & _ & _ & Hs3 & _).
    split; [by eapply lookup_weaken|]. destruct Hc as [|Hc]; [by left|right]. eapply lookup_weaken; [exact Hc|]. by etrans. }
  apply wpm_then; [apply startTable_ok|]. intros _ w3 Hr3 HI3. destruct (Hown w3 Hr3) as [Hid3 Hc3].
  apply wpm_then.
  { apply (setTableVersion_ok name); [done|done|apply Table_rep_new; [apply Hn|done|by eapply id_range]|].
    split; [done|]. split; [done|by right]. }
  intros _ w4 Hr4 HI4. apply wpm_then; [by apply wpm_skip_any|]. intros _ w5 Hr5 HI5.
  apply wpm_then; [apply readInto_ok|]. intros _ w6 Hr6 HI6.
  apply restore_finish; [done|done|]. apply Hown. do 3 (etrans; [eassumption|]). done.
Qed.

Lemma Restore_ok name file w : name_ok name -> Inv w -> wpm n (Restore cfg name file) any_result w.
Proof.
  intros Hn HI. unfold Restore. apply wpm_bind. eapply wpm_mono; [|by apply wpm_strengthen, getTableVersion_ok].
  intros [[t v]|e|] w1 (Hp & Hr & HI1); [|destruct (decide (e = ErrTableNotFound)); [|by apply wpm_ret]|by apply wpm_ret].
  - destruct Hp as ((Et & Hc & _) & Hv & Hrep). apply (wpm_lift n (Ok (t, v))). intros tv [= <-].
    apply (restore_rest name file t v); [done|done| | |done].
    + split; [done|]. split; [done|by left].
    + unfold Table_rep in Hrep. rewrite !andb_true_iff, !Z.leb_le, !Z.ltb_lt in Hrep. unfold is_uint64. tauto.
  - apply (wpm_lift n (Ok (TableInfo_zero, 0))). intros tv [= <-].
    apply (restore_rest name file TableInfo_zero 0); [done|done| |done|done].
    split; [done|]. split; by left.
Qed.

(** *** Reconciliation and cleanup *)

Lemma getTables_ok (Q : res (gmap bytes TableInfo) -> gworld -> Prop) w :
  (forall w1 r, rely w w1 -> Inv w1 -> Q r w1) -> wpm n getTables Q w.
Proof.
  intros H. unfold getTables. apply wpm_M_bind, wpm_GetAll. intros w1 Hr1 HI1.
  split; [|intros c w2 Hr2 HI2 w3 Hr3 HI3; apply H; [by do 2 (etrans; [eassumption|])|done]].
  intros w2 Hr2 HI2. apply wpm_ret. intros w3 Hr3 HI3. apply H; [|done]. by do 2 (etrans; [eassumption|]).
Qed.

Lemma GetTableByID_ok id w : wpm n (GetTableByID id) any_result w.
Proof.
  unfold GetTableByID. apply wpm_then; [by apply getTables_ok|]. intros tabs w1 _ _.
  destruct (list_find _ _) as [[]|]; by apply wpm_ret.
Qed.
Lemma GetTables_ok w : wpm n GetTables any_result w.
Proof. unfold GetTables. apply wpm_then; [by apply getTables_ok|]. intros tabs w1 _ _. by apply wpm_ret. Qed.

Lemma GetTable_ok name w : name_ok name -> Inv w -> wpm n (GetTable name) any_result w.
Proof.
  intros Hn HI. unfold GetTable. apply wpm_pthen; [by apply wpm_skip_any|]. intros [t|] w1 _ HI1; [by apply wpm_ret|].
  apply wpm_getTable; [done|done|]. intros t v w2 _ _ _ _ _. by apply wpm_ret.
Qed.

(** Writes under [/cleanup/]. *)
Lemma write_cleanup w g rest m' j :
  Inv (w, g) -> w_idx w < j < 2 ^ 63 -> store_ok m' j -> evolves (w_meta w) (w_idx w) m' ->
  (forall k', k' <> str "/cleanup/" ++ rest -> m' !! k' = w_meta w !! k') ->
  guar n (w, g) (mkWorld m' j (w_now w), g) /\ Inv (mkWorld m' j (w_now w), g).
Proof.
  intros HI Hj Hok' Hev Hk. apply write_other with (str "/cleanup/" ++ rest); try done.
  - intros name p l Hp _ _ _. simpl. rewrite Hk; [done|]. unfold leaseKey, storedTableName. rewrite <- app_assoc.
    apply not_eq_sym, cleanup_not_tables.
Qed.

Lemma cleanupKey_utf8 a b : utf8_valid (cleanupKey a b) = true.
Proof. unfold cleanupKey. repeat apply utf8_app; try done; apply FormatUint_utf8. Qed.

Lemma stopTable_ok id w : wpm n (stopTable cfg id) any_result w.
Proof.
  unfold stopTable. apply wpm_then; [by apply wpm_skip_any|]. intros path w1 _ _.
  apply wpm_pthen; [by apply wpm_skip_any; [intros w2 x w3 [_ ->]|]|]. intros now w2 _ HI2.
  apply wpm_lift. intros b Hb. apply wpm_bind, wpm_Get. intros w3 Hr3 HI3. split; [|intros c w4 Hr4 HI4; by apply wpm_ret].
  assert (forall c w4, is_uint64 (p_Ver c) -> wpm n (M_bind (lift (Ok c)) (fun c =>
    M_bind (rs_Set meta (cleanupKey n id) b (p_Ver c)) (fun _ => perform (StopShard id)))) any_result w4) as Hset.
  { intros c w4 Hc. apply wpm_lift. intros c' [= <-]. apply wpm_then; [|intros _ w5 _ _; by apply wpm_skip_any].
    apply wpm_Set; [apply cleanupKey_utf8|exact (json_utf8 (representable := cleanup_rep) _ _ Hb)|done|done|].
    intros w5 j Hr5 HI5 Hj Hm m' Hok' Hev. destruct w5 as [w5 g5]. exists g5.
    destruct (write_cleanup w5 g5 (FormatUint n ++ str "/" ++ FormatUint id) m' j) as [? ?]; try done.
    intros k' Hne. apply lookup_insert_ne. by apply not_eq_sym. }
  destruct (w_meta w3.1 !! cleanupKey n id) as [p|] eqn:Hp; intros w4 Hr4 HI4.
  - apply Hset. exact (version_uint64 w3 _ p HI3 Hp).
  - by apply (Hset Pair_zero).
Qed.

Lemma reconcile_ok w : Inv w -> wpm n (reconcile cfg) any_result w.
Proof.
  intros HI. unfold reconcile. apply wpm_then; [by apply getTables_ok|]. intros tabs w1 _ HI1.
  apply wpm_pthen; [by apply wpm_skip_any|]. intros [shards|] w2 _ HI2; [|by apply wpm_ret].
  assert (forall (e : mgr_ev unit) w3, (forall w1 x w2, mgr_handles n w1 unit e x w2 -> w2 = w1) ->
    wpm n (pbind (perform e) (fun x => M_ret x)) any_result w3) as Hcache.
  { intros e w3 He. apply wpm_pthen; [by apply wpm_skip_any|]. intros x w4 _ _. by apply wpm_ret. }
  apply wpm_then; [apply wpm_M_iter; [|done]; intros t w3 _ _ _; by apply Hcache|]. intros _ w3 _ HI3.
  destruct (diffTables tabs shards) as [start stop]. apply wpm_then.
  - apply wpm_M_iter; [|done]. intros [id t] w4 _ _ HI4. apply wpm_then; [apply startTable_ok|]. intros _ w5 _ _. by apply Hcache.
  - intros _ w4 _ HI4. apply wpm_M_iter; [|done]. intros id w5 _ _ HI5.
    apply wpm_then; [apply stopTable_ok|]. intros _ w6 _ _. by apply Hcache.
Qed.

(** The pairs under [/cleanup/] that were read. *)
Definition cleanup_pair (l : Pair) : Prop :=
  (exists rest, p_Key l = str "/cleanup/" ++ rest) /\ utf8_valid (p_Key l) = true /\ is_uint64 (p_Ver l).

Lemma cleanup_delete l w : cleanup_pair l -> wpm n (rs_Delete meta (p_Key l) (p_Ver l)) any_result w.
Proof.
  intros ([rest Hk] & Hu & Hv). apply wpm_Delete; [done|done|done|].
  intros w1 j Hr HI Hj Hm m' Hok' Hev. destruct w1 as [w1 g1]. exists g1.
  apply write_cleanup with rest; try done. intros k' Hne. unfold m'. rewrite Hk. apply lookup_delete_ne. by apply not_eq_sym.
Qed.

Lemma cleanup_go_ok ls w : Forall cleanup_pair ls -> wpm n (cleanup_go cfg ls) any_result w.
Proof.
  revert w. induction ls as [|l ls IH]; intros w Hls; [by apply wpm_ret|].
  apply Forall_cons in Hls as [Hl Hls]. cbn [cleanup_go]. apply wpm_lift. intros c _.
  apply wpm_pthen; [by apply wpm_skip_any; [intros w1 x w2 [_ ->]|]|]. intros now w1 _ _.
  destruct (_ <? _); [|by apply IH]. apply wpm_pthen; [apply GetTableByID_ok|]. intros r w2 _ _.
  assert (forall w3, wpm n (M_bind (perform (SyncRemoveData (c_ClusterID c) n)) (fun _ =>
    M_bind (perform (RemoveAll (c_SMDataPath c))) (fun _ =>
    M_bind (rs_Delete meta (p_Key l) (p_Ver l)) (fun _ => cleanup_go cfg ls)))) any_result w3) as Hclean.
  { intros w3. apply wpm_then; [by apply wpm_skip_any|]. intros _ w4 _ _. apply wpm_then; [by apply wpm_skip_any|].
    intros _ w5 _ _. apply wpm_then; [by apply cleanup_delete|]. intros _ w6 _ _. by apply IH. }
  destruct r as [t|[]|]; try (by apply cleanup_delete); [by apply Hclean|by apply wpm_ret].
Qed.

Lemma cleanup_ok w : wpm n (cleanup cfg) any_result w.
Proof.
  unfold cleanup. apply wpm_M_bind, wpm_GetAll. intros w1 Hr1 HI1. split; [|done]. intros w2 _ _. apply cleanup_go_ok.
  apply Forall_forall. intros l Hl. pose proof (proj1 HI1) as Hok.
  apply (elem_of_GetAll _ _ _ _ Hok) in Hl as [Hl Hmatch]. destruct (Hok _ _ Hl) as (_ & _ & Hrep).
  split; [|split; [|exact (version_uint64 w1 _ l HI1 Hl)]].
  - change (str "/*") with (str "/" ++ [star]) in Hmatch. rewrite !app_assoc in Hmatch.
    apply path_Match_prefix in Hmatch as (t & Ht & _).
    + exists (FormatUint n ++ str "/" ++ t). by rewrite Ht, <- !app_assoc.
    + rewrite !not_elem_of_app. split; [split|]; [by apply (bool_decide_unpack _)| |by apply (bool_decide_unpack _)].
      intros Hs%FormatUint_digits. done.
  - unfold Pair_rep in Hrep. rewrite !andb_true_iff in Hrep. tauto.
Qed.
End Ops.

(** ** Every node, every operation *)

Definition run {A} (p : prog mgr_ev A) : prog mgr_ev unit := pbind p (fun _ => Ret tt).

(** What a node with the id [n] may start at any time. *)
Inductive mgr_op (n : Z) : prog mgr_ev unit -> Prop :=
  | op_LeaseTable cfg name d : cfg_NodeID cfg = n -> utf8_valid name = true -> mgr_op n (run (LeaseTable cfg name d))
  | op_ReturnTable cfg name : cfg_NodeID cfg = n -> utf8_valid name = true -> mgr_op n (run (ReturnTable cfg name))
  | op_CreateTable cfg name : cfg_NodeID cfg = n -> name_ok name -> mgr_op n (run (CreateTable cfg name))
  | op_DeleteTable name : name_ok name -> mgr_op n (run (DeleteTable name))
  | op_GetTable name : name_ok name -> mgr_op n (run (GetTable name))
  | op_GetTables : mgr_op n (run GetTables)
  | op_GetTableByID id : mgr_op n (run (GetTableByID id))
  | op_Restore cfg name file : cfg_NodeID cfg = n -> name_ok name -> mgr_op n (run (Restore cfg name file))
  | op_reconcile cfg : cfg_NodeID cfg = n -> mgr_op n (run (reconcile cfg))
  | op_cleanup cfg : cfg_NodeID cfg = n -> mgr_op n (run (cleanup cfg)).

Lemma run_ok {A} n (p : M mgr_ev A) w : wpm n p any_result w -> wpm n (run p) (fun _ _ => True) w.
Proof. intros H. apply wpm_bind. eapply wpm_mono; [|exact H]. intros a w1 _. by apply wpm_ret. Qed.

(** The operations that only read do not look at the configuration. *)
Definition config_of (n : Z) : ManagerConfig := mkConfig n 0 ∅ 0.

Lemma mgr_op_ok n p w : mgr_op n p -> Inv w -> wpm n p (fun _ _ => True) w.
Proof.
  intros Hop HI. destruct Hop; subst; apply run_ok;
    eauto using LeaseTable_ok, ReturnTable_ok, CreateTable_ok, Restore_ok, reconcile_ok, cleanup_ok.
  - by apply (DeleteTable_ok (config_of n)).
  - by apply (GetTable_ok (config_of n)).
  - by apply (GetTables_ok (config_of n)).
  - by apply (GetTableByID_ok (config_of n)).
Qed.

Lemma mgr_env_ok s s' g : mgr_env s s' -> Inv (s, g) -> Inv (s', g).
Proof.
  destruct s as [m i t], s' as [m' i' t']. intros (E1 & E2 & _) HI. simpl in *. subst m' i'. exact HI.
Qed.

(** A cluster that has just been set up: nothing in the store, nothing running. *)
Definition mgr_pool : Type := world * list (Z * prog mgr_ev unit).
Definition fresh (t : Z) : mgr_pool := (mkWorld ∅ 0 t, []).

Lemma fresh_ok t : pool_ok mgr_handles mgr_env guar Inv (fresh t) ∅.
Proof.
  split; [|by intros n p ?%not_elem_of_nil]. split_inv.
Qed.

(** The pools that can come about. *)
Definition mgr_step : mgr_pool -> mgr_pool -> Prop := pool_step mgr_handles mgr_env mgr_op.

Lemma pool_reachable_ok t c : rtc mgr_step (fresh t) c -> exists g, pool_ok mgr_handles mgr_env guar Inv c g.
Proof.
  intros H. destruct (pool_sound _ _ _ _ _ mgr_op_ok mgr_env_ok _ c ∅ (fresh_ok t) H) as (g & ? & _). eauto.
Qed.

(** *** One operation alone *)

Lemma exec_Set n key value ver w out w' :
  exec (mgr_handles n) (rs_Set meta key value ver) w out w' ->
  exists s', exec kv_handles (rs_Set (fun _ e => e) key value ver) (w_meta w, w_idx w) out s'
    /\ w' = mkWorld s'.1 s'.2 (w_now w).
Proof.
  unfold rs_Set, M_bind. simpl. destruct (json_Marshal _) as [b|e|]; simpl.
  - intros (x & w1 & (s1 & Hx & ->) & Hrest). exists s1.
    destruct x as [[code data]|e|]; [destruct (json_Unmarshal data) as [p|e|] eqn:Hd|..];
      simpl in Hrest; rewrite ?Hd in Hrest; simpl in Hrest; [destruct (code =? _) eqn:Hc|..];
      destruct Hrest as [<- <-]; (split; [|done]);
      eexists _, s1; (split; [exact Hx|]); simpl; rewrite ?Hd; simpl; rewrite ?Hc; done.
  - intros [<- <-]. exists (w_meta w, w_idx w). split; [done|]. by destruct w.
  - intros [<- <-]. exists (w_meta w, w_idx w). split; [done|]. by destruct w.
Qed.

Lemma meta_Set n key value ver s out s' t :
  exec kv_handles (rs_Set (fun _ e => e) key value ver) s out s' ->
  exec (mgr_handles n) (rs_Set meta key value ver) (mkWorld s.1 s.2 t) out (mkWorld s'.1 s'.2 t).
Proof.
  destruct s as [m i]. unfold rs_Set, M_bind. simpl. destruct (json_Marshal _) as [b|e|]; simpl; [|by intros [<- <-]..].
  intros (x & s1 & Hx & Hrest). exists x, (mkWorld s1.1 s1.2 t). split; [by exists s1|].
  destruct x as [[code data]|e|]; [destruct (json_Unmarshal data) as [p|e|] eqn:Hd|..];
    simpl in *; rewrite ?Hd in *; simpl in *; [destruct (code =? _)|..]; by destruct Hrest as [<- <-].
Qed.

Lemma meta_Set_can n key value ver m i j t :
  i < j < 2 ^ 63 -> 0 <= i -> utf8_valid key = true -> utf8_valid value = true -> is_uint64 ver ->
  match m !! key with Some v => p_Ver v = ver | None => True end ->
  exec (mgr_handles n) (rs_Set meta key value ver) (mkWorld m i t) (Ok (mkPair key value j))
    (mkWorld (<[key := mkPair key value j]> m) j t).
Proof. intros Hj Hi Hk Hv Hr Hm. exact (meta_Set n _ _ _ _ _ _ t (set_succeeds m i j key value ver Hj Hi Hk Hv Hr Hm)). Qed.

Lemma exec_Get n key w out w' :
  exec (mgr_handles n) (rs_Get meta key) w out w' ->
  w' = w /\ (out = match w_meta w !! key with Some p => Ok p | None => Err ErrNotExist end \/ exists c, out = Err (ErrExternal c)).
Proof.
  intros (x & w1 & (s' & [-> Hx] & ->) & Hrest). destruct w as [m i t]. simpl in *. unfold MapStore_Get in Hx.
  destruct Hx as [->|[c ->]]; [destruct (m !! key)|]; destruct Hrest as [<- <-]; (split; [done|]); eauto.
Qed.

Lemma meta_Get n key p w : w_meta w !! key = Some p -> exec (mgr_handles n) (rs_Get meta key) w (Ok p) w.
Proof.
  intros Hp. exists (Ok (APair p)), w. split; [|done]. exists (w_meta w, w_idx w). split; [|by destruct w].
  split; [done|]. left. simpl. unfold MapStore_Get. by rewrite Hp.
Qed.
Lemma meta_Get_none n key w :
  w_meta w !! key = None -> exec (mgr_handles n) (rs_Get meta key) w (Err ErrNotExist) w.
Proof.
  intros Hp. exists (Err ErrNotExist), w. split; [|done]. exists (w_meta w, w_idx w). split; [|by destruct w].
  split; [done|]. left. simpl. unfold MapStore_Get. by rewrite Hp.
Qed.

Lemma meta_Exists_none n key w :
  w_meta w !! key = None -> exec (mgr_handles n) (rs_Exists meta key) w (Ok false) w.
Proof.
  intros Hp. exists (Ok (ABool false)), w. split; [|done]. exists (w_meta w, w_idx w). split; [|by destruct w].
  split; [done|]. left. simpl. unfold MapStore_Exists. by rewrite Hp.
Qed.

Lemma exec_claimLease cfg key lease ver w w' :
  store_ok (w_meta w) (w_idx w) -> 0 <= w_idx w -> utf8_valid key = true -> is_uint64 ver ->
  exec (mgr_handles (cfg_NodeID cfg)) (claimLease cfg key lease ver) w (Ok tt) w' ->
  exists b, json_Marshal (mkLease (cfg_NodeID cfg) (w_now w + lease)) = Ok b
    /\ w_meta w' = <[key := mkPair key b (w_idx w')]> (w_meta w) /\ w_now w' = w_now w.
Proof.
  intros Hok Hi Hk Hv (now & w1 & [-> ->] & H). cbn in H. unfold lift in H.
  destruct (json_Marshal _) as [b|e|] eqn:Hb; [|by destruct H..]. exists b. split; [done|].
  apply exec_M_bind in H as (p & w1 & Hset & [_ ->]). apply exec_Set in Hset as ([m' i'] & Hset & ->).
  apply rs_Set_exec in Hset as (-> & _ & -> & _); try done. exact (json_utf8 (representable := lease_rep) _ _ Hb).
Qed.

Lemma claimLease_can cfg key lease ver w :
  0 <= w_idx w < 2 ^ 63 - 1 -> utf8_valid key = true -> is_uint64 ver ->
  lease_rep (mkLease (cfg_NodeID cfg) (w_now w + lease)) ->
  match w_meta w !! key with Some v => p_Ver v = ver | None => True end ->
  exists w', exec (mgr_handles (cfg_NodeID cfg)) (claimLease cfg key lease ver) w (Ok tt) w'.
Proof.
  intros Hi Hk Hv Hrep Hm. destruct (json_total (representable := lease_rep) _ Hrep) as [b Hb].
  destruct w as [m i t]. simpl in *.
  pose proof (meta_Set_can (cfg_NodeID cfg) key b ver m i (i + 1) t ltac:(lia) ltac:(lia) Hk
    (json_utf8 (representable := lease_rep) _ _ Hb) Hv Hm) as Hset.
  eexists. exists t, (mkWorld m i t). split; [done|]. rewrite Hb. cbn. apply exec_bind. eexists _, _.
  split; [exact Hset|done].
Qed.

(** [LeaseTable] takes a lease only when it may: it succeeds only if the
    table had no lease, a lease of this node or an expired one, and then the
    lease of this node until the end of the term is what is stored.  While
    another node holds an unexpired lease it fails and changes nothing. *)
Theorem LeaseTable_result cfg name lease w r w' :
  store_ok (w_meta w) (w_idx w) -> 0 <= w_idx w < 2 ^ 63 -> name_ok name ->
  exec (mgr_handles (cfg_NodeID cfg)) (LeaseTable cfg name lease) w r w' ->
  let free := forall p l, w_meta w !! leaseKey name = Some p -> json_Unmarshal (p_Value p) = Ok l ->
                l_ID l = cfg_NodeID cfg \/ l_Until l < w_now w in
  (r = Ok tt -> free /\ exists b, json_Marshal (mkLease (cfg_NodeID cfg) (w_now w + lease)) = Ok b
     /\ w_meta w' = <[leaseKey name := mkPair (leaseKey name) b (w_idx w')]> (w_meta w))
  /\ (~ free -> r <> Ok tt /\ w' = w).
Proof.
  intros Hok Hi Hn H free. apply exec_bind in H as (g & w1 & Hget & H). apply exec_Get in Hget as [-> Hg].
  assert (forall ver w2, is_uint64 ver -> free -> exec (mgr_handles (cfg_NodeID cfg))
     (claimLease cfg (leaseKey name) lease ver) w r w2 -> w2 = w' -> (r = Ok tt -> free /\ exists b,
      json_Marshal (mkLease (cfg_NodeID cfg) (w_now w + lease)) = Ok b
     /\ w_meta w' = <[leaseKey name := mkPair (leaseKey name) b (w_idx w')]> (w_meta w))
     /\ (~ free -> r <> Ok tt /\ w' = w)) as Hclaim.
  { intros ver w2 Hver Hf He ->. split; [|done]. intros ->. split; [done|].
    apply exec_claimLease in He as (b & ? & ? & _); [by exists b|done|lia|by apply leaseKey_utf8, Hn|done]. }
  destruct Hg as [->|[c ->]]; [|destruct H as [<- <-]; done].
  destruct (w_meta w !! leaseKey name) as [p|] eqn:Hp.
  - cbn in H. unfold lift in H. destruct (json_Unmarshal (p_Value p)) as [l|e|] eqn:Hl; [|by destruct H as [<- <-]..].
    cbn in H. assert (is_uint64 (p_Ver p)) as Hv by (destruct (Hok _ p Hp) as (_ & ? & _); unfold is_uint64; lia).
    destruct (Z.eqb_spec (l_ID l) (cfg_NodeID cfg)) as [E|E].
    { apply (Hclaim (p_Ver p) w'); [done| |done|done]. intros p' l' [= <-] Hl'. left. congruence. }
    destruct H as (now & w1 & [-> ->] & H). destruct (Z.ltb_spec (l_Until l) (w_now w)).
    + apply (Hclaim (p_Ver p) w'); [done| |done|done]. intros p' l' [= <-] Hl'. right.
      by assert (l' = l) as -> by congruence.
    + by destruct H as [<- <-].
  - apply (Hclaim 0 w'); [done| |exact H|done]. by intros p l ?.
Qed.

Lemma LeaseTable_can cfg name lease w :
  store_ok (w_meta w) (w_idx w) -> 0 <= w_idx w < 2 ^ 63 - 1 -> name_ok name ->
  lease_rep (mkLease (cfg_NodeID cfg) (w_now w + lease)) ->
  (forall p, w_meta w !! leaseKey name = Some p -> exists l, json_Unmarshal (p_Value p) = Ok l
     /\ (l_ID l = cfg_NodeID cfg \/ l_Until l < w_now w)) ->
  exists w', exec (mgr_handles (cfg_NodeID cfg)) (LeaseTable cfg name lease) w (Ok tt) w' /\ is_Some (w_meta w' !! leaseKey name).
Proof.
  intros Hok Hi Hn Hrep Hfree. pose proof (leaseKey_utf8 name (proj1 Hn)) as Hk.
  destruct (w_meta w !! leaseKey name) as [p|] eqn:Hp.
  - destruct (Hfree p eq_refl) as (l & Hl & Hf).
    assert (is_uint64 (p_Ver p)) as Hv by (destruct (Hok _ p Hp) as (_ & ? & _); unfold is_uint64; lia).
    destruct (claimLease_can cfg (leaseKey name) lease (p_Ver p) w) as [w' Hw]; [done..|by rewrite Hp|].
    exists w'. split; [|apply exec_claimLease in Hw as (b & _ & -> & _); [rewrite lookup_insert_eq; by eexists|done|lia|done|done]].
    apply exec_bind. exists (Ok p), w. split; [by apply (meta_Get _ _ p)|]. cbn. rewrite Hl. cbn.
    destruct (Z.eqb_spec (l_ID l) (cfg_NodeID cfg)); [done|]. exists (w_now w), w. split; [done|].
    destruct (Z.ltb_spec (l_Until l) (w_now w)); [done|]. destruct Hf; [done|lia].
  - destruct (claimLease_can cfg (leaseKey name) lease 0 w) as [w' Hw]; [done..|by rewrite Hp|].
    exists w'. split; [|apply exec_claimLease in Hw as (b & _ & -> & _); [rewrite lookup_insert_eq; by eexists|done|lia|done|done]].
    apply exec_bind. exists (Err ErrNotExist), w. split; [by apply meta_Get_none|]. exact Hw.
Qed.

(** A table whose lease is free can be leased: there is a run of
    [LeaseTable] that succeeds, as long as the store holds a lease record and
    has not used up the Raft indices. *)
Theorem LeaseTable_available cfg name lease w :
  store_ok (w_meta w) (w_idx w) -> 0 <= w_idx w < 2 ^ 63 - 1 -> name_ok name ->
  lease_rep (mkLease (cfg_NodeID cfg) (w_now w + lease)) ->
  (forall p, w_meta w !! leaseKey name = Some p -> exists l, json_Unmarshal (p_Value p) = Ok l
     /\ (l_ID l = cfg_NodeID cfg \/ l_Until l < w_now w)) ->
  exists w', exec (mgr_handles (cfg_NodeID cfg)) (LeaseTable cfg name lease) w (Ok tt) w'.
Proof.
  intros Hok Hi Hn Hrep Hfree. destruct (LeaseTable_can cfg name lease w Hok Hi Hn Hrep Hfree) as (w' & ? & _). by exists w'.
Qed.

(** The sequence of table ids stands at [v]. *)
Definition seq_at (m : MapStore) (v : Z) : Prop :=
  match m !! sequenceKey with Some p => ParseUint (p_Value p) = Ok v | None => v = tableIDsRangeStart end.

Lemma incAndGetIDSeq_can n v w :
  store_ok (w_meta w) (w_idx w) -> 0 <= w_idx w < 2 ^ 63 - 1 -> 0 <= v < 2 ^ 64 - 1 -> seq_at (w_meta w) v ->
  exec (mgr_handles n) incAndGetIDSeq w (Ok (v + 1))
    (mkWorld (<[sequenceKey := mkPair sequenceKey (FormatUint (v + 1)) (w_idx w + 1)]> (w_meta w)) (w_idx w + 1) (w_now w)).
Proof.
  intros Hok Hi Hv Hs. unfold seq_at in Hs. destruct w as [m i t]. cbn [w_meta w_idx w_now] in *. unfold incAndGetIDSeq. apply exec_bind.
  assert (uint64 (v + 1) = v + 1) as Eu by (apply uint64_id; unfold is_uint64; lia).
  assert (forall q, p_Key q = sequenceKey -> is_uint64 (p_Ver q) -> ParseUint (p_Value q) = Ok v ->
    match m !! sequenceKey with Some p => p_Ver p = p_Ver q | None => True end ->
    exec (mgr_handles n) (M_bind (lift (ParseUint (p_Value q))) (fun currSeq =>
      M_bind (rs_Set meta (p_Key q) (FormatUint (uint64 (currSeq + 1))) (p_Ver q)) (fun _ => M_ret (uint64 (currSeq + 1)))))
      (mkWorld m i t) (Ok (v + 1))
      (mkWorld (<[sequenceKey := mkPair sequenceKey (FormatUint (v + 1)) (i + 1)]> m) (i + 1) t)) as Hset.
  { intros q Hk Hver Hp Hm. rewrite Hp, Hk. cbn. rewrite Eu. apply exec_bind. eexists _, _. split.
    - apply (meta_Set_can n _ _ _ m i (i + 1)); try done; try lia. apply FormatUint_utf8.
    - done. }
  destruct (m !! sequenceKey) as [p|] eqn:Hp.
  - exists (Ok p), (mkWorld m i t). split; [by apply meta_Get|]. destruct (Hok _ p Hp) as (Hk & ? & _).
    apply (Hset p); [done|unfold is_uint64; lia|done|done].
  - exists (Err ErrNotExist), (mkWorld m i t). split; [by apply meta_Get_none|].
    apply (Hset (mkPair sequenceKey (FormatUint tableIDsRangeStart) 0)); simpl; [done|by split| |done].
    by rewrite Hs.
Qed.

Lemma createTable_can n name v w :
  store_ok (w_meta w) (w_idx w) -> 0 <= w_idx w < 2 ^ 63 - 2 -> name_ok name ->
  w_meta w !! storedTableName name = None -> seq_at (w_meta w) v -> 0 <= v < 2 ^ 64 - 1 ->
  exists b, json_Unmarshal b = Ok (mkTable name (v + 1) 0) /\ utf8_valid b = true
    /\ exec (mgr_handles n) (createTable name) w (Ok (mkTable name (v + 1) 0))
         (mkWorld (<[storedTableName name := mkPair (storedTableName name) b (w_idx w + 2)]>
                     (<[sequenceKey := mkPair sequenceKey (FormatUint (v + 1)) (w_idx w + 1)]> (w_meta w)))
            (w_idx w + 2) (w_now w)).
Proof.
  intros Hok Hi Hn Hno Hs Hv. destruct w as [m i t]. cbn [w_meta w_idx w_now] in *.
  assert (Table_rep (mkTable name (v + 1) 0) = true) as Hrep
    by (apply Table_rep_new; [apply Hn|unfold is_uint64; lia|done]).
  destruct (json_total (representable := fun t => Table_rep t = true) _ Hrep) as [b Hb]. exists b.
  split; [exact (json_roundtrip (representable := fun t => Table_rep t = true) _ _ Hrep Hb)|].
  split; [exact (json_utf8 (representable := fun t => Table_rep t = true) _ _ Hb)|].
  apply exec_bind. exists (Ok false), (mkWorld m i t). split; [by apply meta_Exists_none|].
  apply exec_bind. eexists _, _. split; [by apply (incAndGetIDSeq_can n v (mkWorld m i t)); [|simpl; lia|..]|].
  cbn -[setTableVersion]. apply exec_bind. exists (Ok tt). eexists. split; [|cbn; split; reflexivity].
  unfold setTableVersion. rewrite Hb. cbn. apply exec_bind. eexists _, _. split.
  - apply (meta_Set_can n _ _ _ _ (i + 1) (i + 2)); try done; try lia;
      [by apply storedTableName_utf8|exact (json_utf8 (representable := fun t => Table_rep t = true) _ _ Hb)|].
    rewrite lookup_insert_ne by (by apply seq_not_table).
    change (match m !! storedTableName name with Some v => p_Ver v = 0 | None => True end). by rewrite Hno.
  - done.
Qed.

Lemma CreateTable_can cfg name v w :
  store_ok (w_meta w) (w_idx w) -> 0 <= w_idx w < 2 ^ 63 - 2 -> name_ok name ->
  w_meta w !! storedTableName name = None -> seq_at (w_meta w) v -> 0 <= v < 2 ^ 64 - 1 ->
  exists w' p, exec (mgr_handles (cfg_NodeID cfg)) (CreateTable cfg name) w (Ok tt) w'
    /\ w_meta w' !! storedTableName name = Some p /\ json_Unmarshal (p_Value p) = Ok (mkTable name (v + 1) 0)
    /\ seq_at (w_meta w') (v + 1)
    /\ (forall k, k <> storedTableName name -> k <> sequenceKey -> w_meta w' !! k = w_meta w !! k)
    /\ store_ok (w_meta w') (w_idx w') /\ w_idx w' = w_idx w + 2.
Proof.
  intros Hok Hi Hn Hno Hs Hv.
  destruct (createTable_can (cfg_NodeID cfg) name v w Hok Hi Hn Hno Hs Hv) as (b & Hb & Hu & He).
  match type of He with exec _ _ _ _ ?x => exists x end. eexists. split.
  { apply exec_bind. eexists _, _. split; [exact He|]. cbn. exists true. eexists. split; [done|]. exists (Ok tt). eexists. by split. }
  split; [apply lookup_insert_eq|split; [exact Hb|split; [|split; [|split; [|done]]]]].
  - unfold seq_at. cbn. rewrite lookup_insert_ne by (by apply not_eq_sym, seq_not_table).
    rewrite lookup_insert_eq. apply ParseUint_FormatUint. unfold is_uint64. lia.
  - intros k Hk1 Hk2. cbn. by rewrite !lookup_insert_ne.
  - simpl. apply store_ok_insert; [|by apply storedTableName_utf8|exact Hu|lia].
    apply (store_ok_later _ (w_idx w + 1)); [|lia]. apply store_ok_insert; [by apply (store_ok_later _ (w_idx w)); [|lia]|done|apply FormatUint_utf8|lia].
Qed.

(** [CreateTable] on a name that has no table can succeed, and then the
    table is stored under its name with the next id of the sequence, which is
    advanced, and nothing else in the store changes. *)
Theorem CreateTable_creates cfg name v w :
  store_ok (w_meta w) (w_idx w) -> 0 <= w_idx w < 2 ^ 63 - 2 -> name_ok name ->
  w_meta w !! storedTableName name = None -> seq_at (w_meta w) v -> 0 <= v < 2 ^ 64 - 1 ->
  exists w' p, exec (mgr_handles (cfg_NodeID cfg)) (CreateTable cfg name) w (Ok tt) w'
    /\ w_meta w' !! storedTableName name = Some p /\ json_Unmarshal (p_Value p) = Ok (mkTable name (v + 1) 0)
    /\ seq_at (w_meta w') (v + 1)
    /\ forall k, k <> storedTableName name -> k <> sequenceKey -> w_meta w' !! k = w_meta w !! k.
Proof.
  intros Hok Hi Hn Hno Hs Hv. destruct (CreateTable_can cfg name v w Hok Hi Hn Hno Hs Hv) as (w' & p & ? & ? & ? & ? & ? & _).
  by exists w', p.
Qed.

(** C6. Leases exclude each other.  However the operations of all the nodes
    interleave, from a new cluster on, no call that a node makes replaces or
    removes an unexpired lease of another node.  Tables have no reserved
    names: to delete a table named like a lease would remove the lease. *)
Theorem lease_exclusive t s ts i n X (e : mgr_ev X) k x s' :
  rtc mgr_step (fresh t) (s, ts) -> ts !! i = Some (n, Vis e k) -> mgr_handles n s X e x s' ->
  lease_kept n s s'.
Proof.
  intros [g Hok]%pool_reachable_ok Hi Hx.
  destruct (pool_call_guar _ _ _ _ _ _ _ _ _ _ _ _ _ _ Hok Hi Hx) as (g' & [_ Hl] & _). exact Hl.
Qed.

(** The Raft shards of a table. *)
Definition shard_ids (t : TableInfo) : list Z := [tbl_ClusterID t; tbl_RecoverID t].

(** C5. Shards are not shared.  However the operations of all the nodes
    interleave, from a new cluster on, a table record is stored under the name
    it has, its shards have ids above the range of system shards, and two
    tables never have a shard in common, restored tables included.  The names
    that the operations are given are valid UTF-8, and none of the two forms
    whose key is not that of a table: sys/idseq, the sequence of the ids, and
    names that end in /lease.  The source does not refuse these; what happens
    then is [deleted_sequence_shares_shard]. *)
Theorem shard_ids_unique t s ts a b pa pb ta tb :
  rtc mgr_step (fresh t) (s, ts) -> name_ok a -> name_ok b -> a <> b ->
  w_meta s !! storedTableName a = Some pa -> json_Unmarshal (p_Value pa) = Ok ta ->
  w_meta s !! storedTableName b = Some pb -> json_Unmarshal (p_Value pb) = Ok tb ->
  tbl_Name ta = a /\ (forall id, id ∈ shard_ids ta -> id = 0 \/ tableIDsRangeStart < id)
  /\ (forall id, id ∈ shard_ids ta -> id ∈ shard_ids tb -> id = 0).
Proof.
  intros [g [(Hok & Hi & Hseq & Ht) _]]%pool_reachable_ok Ha Hb Hne Hpa Hta Hpb Htb. simpl in *.
  destruct (Ht a pa Ha Hpa) as (ta' & Hta' & Hna & Hca & Hra). destruct (Ht b pb Hb Hpb) as (tb' & Htb' & Hnb & Hcb & Hrb).
  assert (ta' = ta) as -> by congruence. assert (tb' = tb) as -> by congruence.
  assert (forall nm tab id, id_ok g nm (tbl_ClusterID tab) -> id_ok g nm (tbl_RecoverID tab) -> id ∈ shard_ids tab ->
    id = 0 \/ g !! id = Some nm) as Hids by (intros nm tab id ? ? [->|[->|[]%not_elem_of_nil]%elem_of_cons]%elem_of_cons; done).
  split; [done|]. split.
  - intros id Hid. destruct (Hids a ta id Hca Hra Hid) as [|Hg]; [by left|right].
    unfold seq_ok in Hseq. destruct (w_meta s !! sequenceKey) as [p|]; [|by rewrite Hseq, lookup_empty in Hg].
    destruct Hseq as (v & _ & _ & Hr). by destruct (Hr id a Hg).
  - intros id Hia Hib. destruct (Hids a ta id Hca Hra Hia) as [|Hga]; [done|].
    destruct (Hids b tb id Hcb Hrb Hib) as [|Hgb]; [done|]. congruence.
Qed.

(** *** The reserved names *)

Lemma DeleteTable_can n name w p :
  store_ok (w_meta w) (w_idx w) -> 0 <= w_idx w < 2 ^ 63 - 1 -> utf8_valid name = true ->
  w_meta w !! storedTableName name = Some p ->
  exec (mgr_handles n) (DeleteTable name) w (Ok tt)
    (mkWorld (delete (storedTableName name) (w_meta w)) (w_idx w + 1) (w_now w)).
Proof.
  intros Hok Hi Hn Hp. destruct (Hok _ p Hp) as (_ & Hv & _).
  assert (utf8_valid (storedTableName name) = true) as Hk by (by apply utf8_app).
  assert (is_uint64 (p_Ver p)) as Hr by (unfold is_uint64; lia).
  apply exec_bind. exists (Ok p), w. split; [by apply meta_Get|]. unfold rs_Delete.
  destruct (json_total (representable := fun u => Update_rep u = true)
              (mkUpdate UpdateOpDelete (mkPair (storedTableName name) [] (p_Ver p)))) as [b Hb].
  { unfold Update_rep. cbn [u_Op u_KVPair]. by apply Pair_rep_new. }
  rewrite Hb. cbn. exists (Ok (ResultCodeSuccess, res_get [] (json_Marshal (mkPair (storedTableName name) [] (w_idx w + 1))))).
  set (m' := delete (storedTableName name) (w_meta w)). exists (mkWorld m' (w_idx w + 1) (w_now w)). split; [|done].
  exists (m', w_idx w + 1). split; [|done]. left. eexists (w_idx w + 1), m', _. split; [cbn; lia|]. split; [|split; [done|by left]].
  unfold lfsm_entry. rewrite (update_roundtrip UpdateOpDelete (storedTableName name) [] (p_Ver p) b) by done.
  cbn [mbind res_bind u_KVPair u_Op p_Key p_Value p_Ver]. unfold MapStore_Get. rewrite Hp. cbn [p_Ver]. by rewrite Z.eqb_refl.
Qed.

(** A table named like the sequence of the ids can be deleted, and the ids
    start again: a table created before and one created after have a shard in
    common. *)
Theorem deleted_sequence_shares_shard cfg a b w :
  store_ok (w_meta w) (w_idx w) -> 0 <= w_idx w < 2 ^ 63 - 5 -> name_ok a -> name_ok b -> a <> b ->
  w_meta w !! storedTableName a = None -> w_meta w !! storedTableName b = None -> w_meta w !! sequenceKey = None ->
  exists w1 w2 w3 pa pb ta tb,
    exec (mgr_handles (cfg_NodeID cfg)) (CreateTable cfg a) w (Ok tt) w1
    /\ exec (mgr_handles (cfg_NodeID cfg)) (DeleteTable (str "sys/idseq")) w1 (Ok tt) w2
    /\ exec (mgr_handles (cfg_NodeID cfg)) (CreateTable cfg b) w2 (Ok tt) w3
    /\ w_meta w3 !! storedTableName a = Some pa /\ json_Unmarshal (p_Value pa) = Ok ta
    /\ w_meta w3 !! storedTableName b = Some pb /\ json_Unmarshal (p_Value pb) = Ok tb
    /\ tbl_ClusterID ta = tbl_ClusterID tb.
Proof.
  intros Hok Hi Ha Hb Hne Hna Hnb Hs. assert (storedTableName a <> storedTableName b) as Hab by (by intros ?%stored_inj).
  destruct (CreateTable_can cfg a tableIDsRangeStart w Hok) as (w1 & pa & H1 & Hpa & Hta & Hs1 & Hk1 & Hok1 & Hi1);
    [lia|done|done|unfold seq_at; by rewrite Hs|done|].
  assert (exists p, w_meta w1 !! sequenceKey = Some p) as [p Hp].
  { unfold seq_at in Hs1. destruct (w_meta w1 !! sequenceKey) as [p|]; [by exists p|]. by exfalso. }
  pose proof (DeleteTable_can (cfg_NodeID cfg) (str "sys/idseq") w1 p Hok1 ltac:(lia) eq_refl Hp) as H2.
  fold sequenceKey in H2. set (w2 := mkWorld _ _ _) in H2.
  assert (store_ok (w_meta w2) (w_idx w2)) as Hok2.
  { apply (store_ok_later _ (w_idx w1)); [|cbn; lia]. intros k q. cbn. intros [_ Hq]%lookup_delete_Some. by apply Hok1. }
  destruct (CreateTable_can cfg b tableIDsRangeStart w2 Hok2) as (w3 & pb & H3 & Hpb & Htb & _ & Hk3 & _);
    [cbn; lia|done| |unfold seq_at, w2; cbn; by rewrite lookup_delete_eq|done|].
  { cbn. rewrite lookup_delete_ne by (by apply seq_not_table). rewrite Hk1; [done|done|by apply not_eq_sym, seq_not_table]. }
  exists w1, w2, w3, pa, pb. eexists _, _. split_and!; try eassumption; [|done].
  rewrite Hk3; [|done|by apply not_eq_sym, seq_not_table]. cbn. by rewrite lookup_delete_ne by (by apply seq_not_table).
Qed.
End World.

(** ** Reconciliation *)

(** What one table adds. *)
Lemma table_ids_snoc tables u id :
  table_ids (tables ++ [u]) !! id
  = if decide (id <> 0 /\ id ∈ shard_ids u) then Some u else table_ids tables !! id.
Proof.
  unfold table_ids at 1. rewrite foldl_app. simpl. fold (table_ids tables).
  assert (id ∈ shard_ids u <-> id = tbl_ClusterID u \/ id = tbl_RecoverID u) as Hin
    by (unfold shard_ids; by rewrite elem_of_cons, list_elem_of_singleton).
  destruct (decide (id <> 0 /\ id ∈ shard_ids u)) as [[H0 Hid]|Hno]; [apply Hin in Hid|];
    destruct (decide (tbl_ClusterID u <> 0)) as [Hc|Hc], (decide (tbl_RecoverID u <> 0)) as [Hr|Hr];
    rewrite ?lookup_insert; repeat case_decide; try done; exfalso; try lia;
    apply Hno; (split; [lia|]); apply Hin; lia.
Qed.

Lemma table_ids_lookup tables id t :
  table_ids tables !! id = Some t -> t ∈ tables /\ id <> 0 /\ id ∈ shard_ids t.
Proof.
  induction tables as [|u tables IH] using rev_ind; [done|]. rewrite table_ids_snoc, elem_of_app.
  case_decide; [|intros Hin%IH; tauto]. intros [= ->]. split; [right; apply list_elem_of_here|done].
Qed.

Lemma table_ids_dom tables id t : t ∈ tables -> id <> 0 -> id ∈ shard_ids t -> is_Some (table_ids tables !! id).
Proof.
  intros Ht Hid Hin. induction tables as [|u tables IH] using rev_ind; [by apply not_elem_of_nil in Ht|].
  rewrite table_ids_snoc. case_decide as Hd; [done|]. apply elem_of_app in Ht as [Ht|Ht]; [by apply IH|].
  apply list_elem_of_singleton in Ht as ->. tauto.
Qed.

Lemma elem_of_tables (tables : gmap bytes TableInfo) t : t ∈ (map_to_list tables).*2 <-> exists name, tables !! name = Some t.
Proof.
  rewrite list_elem_of_fmap. split; [intros ([name u] & -> & H%elem_of_map_to_list); eauto|].
  intros [name H]. exists (name, t). split; [done|]. by apply elem_of_map_to_list.
Qed.

(** Reconciliation brings the shards of a node to the tables there are.
    Started are exactly the shards above the system range that a table has and
    that do not run, each with a table that it belongs to; stopped are exactly
    the running ones above the system range that no table has.  After that the
    shards above the system range that run are those that the tables have. *)
Theorem diffTables_correct tables raftInfo :
  let '(start, stop) := diffTables tables raftInfo in
  let wanted id := exists name t, tables !! name = Some t /\ id ∈ shard_ids t /\ id <> 0 in
  (forall id t, start !! id = Some t -> (exists name, tables !! name = Some t) /\ id ∈ shard_ids t)
  /\ (forall id, id ∈ stop -> id ∈ raftInfo /\ tableIDsRangeStart < id /\ ~ wanted id) /\ NoDup stop
  /\ (forall id, is_Some (start !! id) -> (id ∉ raftInfo) /\ tableIDsRangeStart < id)
  /\ (forall id, tableIDsRangeStart < id -> ((id ∈ raftInfo \/ is_Some (start !! id)) /\ id ∉ stop <-> wanted id)).
Proof.
  unfold diffTables. set (ids := table_ids _). cbv beta zeta. set (wanted := fun id => exists name t, tables !! name = Some t /\ id ∈ shard_ids t /\ id <> 0).
  assert (forall id, is_Some (ids !! id) <-> wanted id) as Hw.
  { intros id. split.
    - intros [t (Ht & ? & ?)%table_ids_lookup]. apply elem_of_tables in Ht as [name Ht]. by exists name, t.
    - intros (name & t & Ht & ? & ?). eapply table_ids_dom; [apply elem_of_tables; by eexists|done|done]. }
  assert (forall id, ids !! id = None <-> ~ wanted id) as Hn by (intros id; by rewrite <- Hw, eq_None_not_Some).
  split; [|split; [|split; [|split]]].
  - intros id t [(Ht & _ & ?)%table_ids_lookup _]%map_lookup_filter_Some. by rewrite <- elem_of_tables.
  - intros id ([? ?] & Hr%elem_of_elements)%list_elem_of_filter. rewrite elem_of_list_to_set in Hr.
    split; [done|]. split; [done|]. by apply Hn.
  - apply NoDup_filter, NoDup_elements.
  - intros id [t [_ [Hr ?]]%map_lookup_filter_Some]. simpl in *. by rewrite elem_of_list_to_set in Hr.
  - intros id Hid. rewrite list_elem_of_filter, elem_of_elements, elem_of_list_to_set, Hn, <- (Hw id).
    assert (is_Some (filter (fun x => (x.1 ∉ (list_to_set raftInfo : gset Z)) /\ tableIDsRangeStart < x.1) ids !! id)
      <-> is_Some (ids !! id) /\ (id ∉ raftInfo)) as ->.
    { split; [intros [t [? [Hr _]]%map_lookup_filter_Some]; simpl in Hr; rewrite elem_of_list_to_set in Hr; eauto|].
      intros [[t Ht] Hr]. exists t. apply map_lookup_filter_Some. simpl. by rewrite elem_of_list_to_set. }
    pose proof (Hw id) as Hwi. unfold wanted in Hwi. rewrite <- Hwi. 
    destruct (decide (id ∈ raftInfo)), (decide (is_Some (ids !! id))); tauto.
Qed.

(** ** Witnesses *)

#[export] Instance TableInfo_eq_dec : EqDecision TableInfo.
Proof. solve_decision. Defined.
#[export] Instance Lease_eq_dec : EqDecision Lease.
Proof. solve_decision. Defined.
#[export] Instance Cleanup_eq_dec : EqDecision Cleanup.
Proof. solve_decision. Defined.
#[export] Program Instance TableInfo_countable : Countable TableInfo :=
  inj_countable' (fun t => (tbl_Name t, tbl_ClusterID t, tbl_RecoverID t)) (fun x => mkTable x.1.1 x.1.2 x.2) _.
Next Obligation. by intros []. Qed.
#[export] Program Instance Lease_countable : Countable Lease :=
  inj_countable' (fun l => (l_ID l, l_Until l)) (fun x => mkLease x.1 x.2) _.
Next Obligation. by intros []. Qed.
#[export] Program Instance Cleanup_countable : Countable Cleanup :=
  inj_countable' (fun c => (c_Created c, c_ClusterID c, c_SMDataPath c)) (fun x => mkCleanup x.1.1 x.1.2 x.2) _.
Next Obligation. by intros []. Qed.

(** A codec that satisfies the laws. *)
Definition ex_mgrjson : ManagerJson := {|
  mj_kv := ex_kvjson;
  mj_table := countable_json Table_rep; mj_table_laws := countable_json_laws Table_rep;
  mj_lease := countable_json (fun _ => true); mj_lease_laws := countable_json_laws (fun _ => true);
  mj_cleanup := countable_json (fun _ => true); mj_cleanup_laws := countable_json_laws (fun _ => true)
|}.
Definition ex_cfg (n : Z) : ManagerConfig := mkConfig n 0 ∅ 0.
Definition ex_new : world := mkWorld ∅ 0 100.

Lemma ex_name_ok name : utf8_valid name && bool_decide (slash ∉ name) = true -> name_ok name.
Proof.
  intros [H1 H2%bool_decide_eq_true]%andb_true_iff. split; [done|]. intros [->|[a ->]]; apply H2.
  - by apply (bool_decide_unpack _).
  - apply elem_of_app. right. apply list_elem_of_here.
Qed.

Lemma ex_a_ok : name_ok (str "a").
Proof. by apply ex_name_ok. Qed.
Lemma ex_b_ok : name_ok (str "b").
Proof. by apply ex_name_ok. Qed.

Section Example.
#[local] Existing Instance ex_mgrjson.

Lemma ex_new_ok : store_ok (w_meta ex_new) (w_idx ex_new).
Proof. intros k p H. by apply (lookup_empty_Some k p) in H. Qed.

Lemma LeaseTable_available_witness :
  exists w', exec (mgr_handles 2) (LeaseTable (ex_cfg 2) (str "a") 50) ex_new (Ok tt) w'.
Proof.
  apply (LeaseTable_available (ex_cfg 2) (str "a") 50 ex_new); [exact ex_new_ok|done|exact ex_a_ok|done|].
  intros p H. by apply (lookup_empty_Some _ p) in H.
Defined.

Lemma LeaseTable_result_witness :
  exists w', exec (mgr_handles 2) (LeaseTable (ex_cfg 2) (str "a") 50) ex_new (Ok tt) w'
    /\ is_Some (w_meta w' !! leaseKey (str "a")).
Proof.
  destruct (LeaseTable_can (ex_cfg 2) (str "a") 50 ex_new ex_new_ok ltac:(done) ex_a_ok eq_refl) as (w' & H & _);
    [intros p H; by apply (lookup_empty_Some _ p) in H|].
  exists w'. split; [exact H|].
  destruct (LeaseTable_result (ex_cfg 2) (str "a") 50 ex_new _ w' ex_new_ok ltac:(done) ex_a_ok H) as [Hok _].
  destruct (Hok eq_refl) as (_ & b & _ & ->). rewrite lookup_insert_eq. by eexists.
Defined.

(** A program of a new cluster that runs alone. *)
Lemma ex_run {A} n (p : M mgr_ev A) w ts a w' :
  mgr_op n (run p) -> exec (mgr_handles n) p w a w' ->
  rtc mgr_step (w, ts) (w', ts ++ [(n, Ret tt)]).
Proof.
  intros Hop He. eapply rtc_l; [by apply pool_spawn|].
  assert (rtc mgr_step (w, ts ++ [(n, run p)]) (w', <[length ts := (n, Ret tt)]> (ts ++ [(n, run p)]))) as H.
  { apply (pool_exec mgr_handles mgr_env mgr_op n p (fun _ => Ret tt)) with (a := a); [done|].
    by rewrite lookup_app_r, Nat.sub_diag by lia. }
  by rewrite insert_app_r_alt, Nat.sub_diag in H by lia.
Qed.

(** Node 2 has leased the table, node 1 is about to return it. *)
Lemma lease_exclusive_witness :
  exists w k, rtc mgr_step (fresh 100) (w, [(2, Ret tt); (1, Vis (meta _ (MetaRead (QueryKey (leaseKey (str "a"))))) k)])
    /\ is_Some (w_meta w !! leaseKey (str "a")) /\ lease_kept 1 w w.
Proof.
  destruct (LeaseTable_can (ex_cfg 2) (str "a") 50 ex_new ex_new_ok ltac:(done) ex_a_ok eq_refl) as (w & H & Hl);
    [intros p H; by apply (lookup_empty_Some _ p) in H|].
  assert (rtc mgr_step (fresh 100) (w, [(2, Ret tt)] ++ [(1, run (ReturnTable (ex_cfg 1) (str "a")))])) as Hr.
  { eapply rtc_r; [exact (ex_run 2 _ ex_new [] _ w (op_LeaseTable 2 (ex_cfg 2) (str "a") 50 eq_refl eq_refl) H)|].
    apply pool_spawn. by apply (op_ReturnTable 1 (ex_cfg 1)). }
  eexists w, _. split; [exact Hr|]. split.
  - exact Hl.
  - eapply (lease_exclusive 100 w _ 1 1 _ _ _ (Err (ErrExternal 0)) w Hr); [reflexivity|].
    exists (w_meta w, w_idx w). split; [split; [done|]; right; by exists 0%nat|by destruct w].
Defined.

Lemma shard_ids_unique_witness :
  exists s ts pa pb ta tb, rtc mgr_step (fresh 100) (s, ts)
    /\ w_meta s !! storedTableName (str "a") = Some pa /\ json_Unmarshal (p_Value pa) = Ok ta
    /\ w_meta s !! storedTableName (str "b") = Some pb /\ json_Unmarshal (p_Value pb) = Ok tb
    /\ tbl_ClusterID ta = 10001 /\ (forall id, id ∈ shard_ids ta -> id ∈ shard_ids tb -> id = 0).
Proof.
  destruct (CreateTable_can (ex_cfg 1) (str "a") 10000 ex_new ex_new_ok ltac:(done) ex_a_ok eq_refl eq_refl ltac:(done))
    as (w1 & pa & H1 & Hpa & Hta & Hs1 & Hk1 & Hok1 & Hi1).
  destruct (CreateTable_can (ex_cfg 2) (str "b") 10001 w1 Hok1 ltac:(rewrite Hi1; done) ex_b_ok) as (w2 & pb & H2 & Hpb & Htb & Hs2 & Hk2 & _);
    [by rewrite Hk1|done|done|].
  assert (rtc mgr_step (fresh 100) (w2, [(1, Ret tt); (2, Ret tt)])) as Hr.
  { etrans; [exact (ex_run 1 _ ex_new [] _ w1 (op_CreateTable 1 (ex_cfg 1) (str "a") eq_refl ex_a_ok) H1)|].
    exact (ex_run 2 _ w1 _ _ w2 (op_CreateTable 2 (ex_cfg 2) (str "b") eq_refl ex_b_ok) H2). }
  assert (w_meta w2 !! storedTableName (str "a") = Some pa) as Hpa2 by (by rewrite Hk2).
  eexists w2, _, pa, pb, _, _. split; [exact Hr|]. do 4 (split; [eassumption|]). split; [done|].
  apply (shard_ids_unique 100 w2 _ (str "a") (str "b") pa pb _ _ Hr ex_a_ok ex_b_ok ltac:(done) Hpa2 Hta Hpb Htb).
Defined.

Lemma CreateTable_creates_witness :
  exists w', exec (mgr_handles 1) (CreateTable (ex_cfg 1) (str "a")) ex_new (Ok tt) w' /\ seq_at (w_meta w') 10001.
Proof.
  destruct (CreateTable_creates (ex_cfg 1) (str "a") 10000 ex_new ex_new_ok ltac:(done) ex_a_ok eq_refl eq_refl ltac:(done))
    as (w1 & pa & H1 & _ & _ & Hs & _). exists w1. by split.
Defined.
End Example.
