(* ===== verification/Replication.v ===== *)
(** * Replication of tables from a leader cluster to a follower cluster

    The services of the leader ([regattaserver/replication.go]): the list of
    tables, the stream of the log of a table and the stream of a snapshot.
    The worker of a follower ([replication/worker.go]), which asks for the log
    after the last command it has, proposes it to its own table, and falls
    back to a snapshot; the manager of the workers
    ([replication/replication.go]); the chunks of a snapshot stream
    ([replication/snapshot/snapshot.go]).

    The code is programs of calls: to the table manager, the log reader, the
    Raft host, the other side of a stream, files.  Metrics and logging are
    left out.  Timers and the goroutines that wait for them are outside the
    model, what they run on a tick is in it. *)

From S2P Require Import Prelude GoStd Effects Chunks Proto Codec Snapshot Table LogReader.

(** ** Messages ([replication.proto]) *)

Record ReplicateCommand := mkRCommand { rc_LeaderIndex : Z; rc_Command : Command }.

Definition ReplicateError_USE_SNAPSHOT : Z := 0.
Definition ReplicateError_LEADER_BEHIND : Z := 1.

Inductive RResponse :=
  | CommandsResponse (commands : list ReplicateCommand)
  | ErrorResponse (error : Z).
Record ReplicateResponse := mkRResponse { rr_LeaderIndex : Z; rr_Response : option RResponse }.
Record ReplicateRequest := mkRRequest { rreq_LeaderIndex : Z; rreq_Table : bytes }.

Definition Table_REPLICATED : Z := 0.
Record RTable := mkRTable { rt_Type : Z; rt_Name : bytes }.

Open Scope prog_scope.

(** ** The leader *)

Inductive leader_ev : Type -> Type :=
  | LGetTables : leader_ev (res (list TableInfo))
  | LGetTable (name : bytes) : leader_ev (res TableInfo)
  (** [ActiveTable.LocalIndex] and [ActiveTable.Snapshot] of the table of a
      shard; the latter gives the index and what it wrote to the file. *)
  | LLocal (shard : Z) (linearizable : bool) : leader_ev (res Z)
  | LTableSnapshot (shard : Z) : leader_ev (res (Z * bytes))
  | LQueryRaftLog (shard : Z) (r : LogRange) (maxSize : Z) : leader_ev (res (list rentry))
  (** Whether the deadline of the context has passed. *)
  | LPastDeadline : leader_ev bool
  | LSend (msg : ReplicateResponse) : leader_ev (res unit)
  | LSendChunk (chunk : SnapshotChunk) : leader_ev (res unit)
  (** The temporary file: create, write records, flush and sync, go to the
      start, read at most so many bytes of what is stored. *)
  | LTempFile : leader_ev (res unit)
  | LFileWrite (record : bytes) : leader_ev (res unit)
  | LFileSync : leader_ev (res unit)
  | LFileSeek : leader_ev (res unit)
  | LFileRead (max : Z) : leader_ev (bytes * option error).

(** [MetadataServer.Get]. *)
Definition MetadataServer_Get : M leader_ev (list RTable) :=
  tabs <~ perform LGetTables;
  match tabs with
  | Ok tabs => M_ret (map (fun tab => mkRTable Table_REPLICATED (tbl_Name tab)) tabs)
  | Err _ => M_err ErrStatusUnavailable
  | Panic => lift Panic
  end.

Definition errorResponseFactory (e : Z) : ReplicateResponse := mkRResponse 0 (Some (ErrorResponse e)).
Definition repErrUseSnapshot : ReplicateResponse := errorResponseFactory ReplicateError_USE_SNAPSHOT.
Definition repErrLeaderBehind : ReplicateResponse := errorResponseFactory ReplicateError_LEADER_BEHIND.

Definition DefaultMaxGRPCSize : Z := 4 * 1024 * 1024.
(** [NewLogServer], what it sets besides the services. *)
Definition NewLogServer (maxMessageSize : Z) : Z := if maxMessageSize =? 0 then DefaultMaxGRPCSize else maxMessageSize.

Section Leader.
(** [raftpb.EncodedEntry], the type of the entries with a proposal. *)
Context (EncodedEntry : Z).

Definition set_LeaderIndex (c : Command) (i : Z) : Command :=
  mkCommand (cmd_Table c) (cmd_Type c) (cmd_Kv c) (Some i) (cmd_Batch c) (cmd_Txn c) (cmd_RangeEnd c)
    (cmd_PrevKvs c) (cmd_Sequence c) (cmd_Count c) (cmd_unknownFields c).
Definition Command_dummy : Command :=
  mkCommand [] Command_DUMMY None None [] None None false [] false [].

(** [entryToCommand]; the first byte of the payload is the header of the
    encoding. *)
Definition entryToCommand (e : rentry) : res Command :=
  cmd ← (if negb (re_Type e =? EncodedEntry) then Ok Command_dummy
         else match re_Cmd e with
              | [] => Panic
              | _ :: b => Command_UnmarshalVT b Command_zero
              end);
  Ok (set_LeaderIndex cmd (re_Index e)).

Fixpoint entriesToCommands (entries : list rentry) : res (list ReplicateCommand) :=
  match entries with
  | [] => Ok []
  | e :: entries' =>
      cmd ← entryToCommand e;
      cmds ← entriesToCommands entries';
      Ok (mkRCommand (re_Index e) cmd :: cmds)
  end.

(** The loop of [Replicate]; in every round that does not end it the range
    gets shorter. *)
Fixpoint Replicate_loop (fuel : nat) (shard maxMessageSize appliedIndex : Z) (logRange : LogRange) : M leader_ev unit :=
  match fuel with
  | O => M_err ErrOutOfFuel
  | S fuel' =>
      past <~ perform LPastDeadline;
      if (past : bool) then M_ret tt else
      entries <~ perform (LQueryRaftLog shard logRange maxMessageSize);
      match entries with
      | Err e =>
          if decide (e = ErrLogBehind) then perform (LSend repErrLeaderBehind)
          else if decide (e = ErrLogAhead) then perform (LSend repErrUseSnapshot)
          else M_ret tt
      | Panic => lift Panic
      | Ok entries =>
          match last entries with
          | None =>
              appliedIndex <- perform (LLocal shard false);
              perform (LSend (mkRResponse appliedIndex None))
          | Some lastEntry =>
              commands <- lift (entriesToCommands entries);
              _ <- perform (LSend (mkRResponse appliedIndex (Some (CommandsResponse commands))));
              let next := uint64 (re_Index lastEntry + 1) in
              Replicate_loop fuel' shard maxMessageSize appliedIndex
                (mkRange (Z.min next (LastIndex logRange)) (LastIndex logRange))
          end
      end
  end.

(** [LogServer.Replicate]. *)
Definition Replicate (maxMessageSize : Z) (req : ReplicateRequest) : M leader_ev unit :=
  if rreq_LeaderIndex req =? 0 then M_err ErrStatusInvalidArgument else
  t <~ perform (LGetTable (rreq_Table req));
  match t with
  | Err _ => M_err ErrStatusUnavailable
  | Panic => lift Panic
  | Ok t =>
      appliedIndex <- perform (LLocal (tbl_ClusterID t) true);
      if uint64 (appliedIndex + 1) <? rreq_LeaderIndex req then perform (LSend repErrLeaderBehind) else
      let logRange := mkRange (rreq_LeaderIndex req) (uint64 (appliedIndex + 1)) in
      Replicate_loop (S (Z.to_nat (LastIndex logRange - FirstIndex logRange))) (tbl_ClusterID t) maxMessageSize
        appliedIndex logRange
  end.
End Leader.

(** *** Snapshot stream *)

(** [io.Copy] of the file, through a buffered reader, to the stream. *)
Definition leader_copy (emptyWrite : bool) (fuel : nat) : M leader_ev Z :=
  let send c := perform (LSendChunk c) in
  bufio_Copy emptyWrite (fun d => _ <- Writer_Write send d; M_ret tt)
    (Writer_ReadFrom (fun max => perform (LFileRead max)) send fuel 0).

(** [SnapshotServer.Stream]. *)
Definition Stream (emptyWrite : bool) (fuel : nat) (table : bytes) : M leader_ev unit :=
  t <~ perform (LGetTable table);
  match t with
  | Err _ => M_err ErrStatusUnavailable
  | Panic => lift Panic
  | Ok t =>
      _ <- perform LTempFile;
      '(index, _) <- perform (LTableSnapshot (tbl_ClusterID t));
      final <- lift (Command_MarshalVT (final_command table index));
      _ <- perform (LFileWrite final);
      _ <- perform LFileSync;
      _ <- perform LFileSeek;
      _ <- leader_copy emptyWrite fuel;
      M_ret tt
  end.

(** ** The worker of a follower *)

Definition desiredProposalSize : Z := 256 * 1024.

Inductive replicateResult :=
  | resultUnknown | resultLeaderBehind | resultLeaderAhead | resultFollowerLagging | resultFollowerTailing.

Inductive worker_ev : Type -> Type :=
  (** The table manager of the follower. *)
  | WLeaseTable (name : bytes) (lease : Z) : worker_ev (res unit)
  | WReturnTable (name : bytes) : worker_ev (res bool)
  | WGetTable (name : bytes) : worker_ev (res TableInfo)
  | WRestore (name : bytes) : worker_ev (res unit)
  (** [ActiveTable.LeaderIndex] and the Raft host. *)
  | WLeaderIndex (shard : Z) : worker_ev (res Z)
  | WPropose (shard : Z) (cmd : bytes) : worker_ev (res unit)
  (** The streams; [None] is [io.EOF]. *)
  | WReplicate (req : ReplicateRequest) : worker_ev (res unit)
  | WRecv : worker_ev (res (option ReplicateResponse))
  | WStream (table : bytes) : worker_ev (res unit)
  | WRecvChunk : worker_ev (res (option SnapshotChunk))
  (** The file that the snapshot is saved to and restored from. *)
  | WTempFile : worker_ev (res unit)
  | WFileWrite (data : bytes) : worker_ev (res unit)
  | WFileSync : worker_ev (res unit)
  | WFileSeek : worker_ev (res unit)
  (** [recoverySemaphore]. *)
  | WTryAcquire : worker_ev bool
  | WRelease : worker_ev unit.

Section Worker.
(** The fields of the worker that the methods use. *)
Context (table : bytes) (leaseInterval pollInterval : Z).

Definition sequence_command (seq : list Command) (leaderIndex : Z) : Command :=
  mkCommand [] Command_SEQUENCE None (Some leaderIndex) [] None None false seq false [].

(** [proposeBatch]: [seq] is the sequence that is being collected. *)
Fixpoint proposeBatch_go (shard : Z) (commands : list ReplicateCommand) (seq : list Command) (lastApplied : Z)
    : M worker_ev Z :=
  match commands with
  | [] => M_ret lastApplied
  | c :: commands' =>
      let seq := seq ++ [rc_Command c] in
      let cmd := sequence_command seq (rc_LeaderIndex c) in
      if (desiredProposalSize <=? Command_SizeVT cmd) || (len commands' =? 0) then
        buff <- lift (Command_MarshalVT cmd);
        _ <- perform (WPropose shard buff);
        proposeBatch_go shard commands' [] (rc_LeaderIndex c)
      else proposeBatch_go shard commands' seq lastApplied
  end.
Definition proposeBatch (shard : Z) (commands : list ReplicateCommand) : M worker_ev Z :=
  proposeBatch_go shard commands [] 0.

(** The loop of [do]; [fuel] bounds the number of messages. *)
Fixpoint do_loop (fuel : nat) (shard applied : Z) : M worker_ev replicateResult :=
  match fuel with
  | O => M_err ErrOutOfFuel
  | S fuel' =>
      r <- perform WRecv;
      match r with
      | None => M_ret resultUnknown
      | Some replicateRes =>
          match rr_Response replicateRes with
          | Some (CommandsResponse commands) =>
              applied <- proposeBatch shard commands;
              do_loop fuel' shard applied
          | Some (ErrorResponse e) =>
              if e =? ReplicateError_LEADER_BEHIND then M_ret resultLeaderBehind
              else if e =? ReplicateError_USE_SNAPSHOT then M_ret resultLeaderAhead
              else M_err (ErrExternal 0)
          | None =>
              if negb (applied =? 0) && (applied <? rr_LeaderIndex replicateRes) then M_ret resultFollowerLagging
              else M_ret resultFollowerTailing
          end
      end
  end.
Definition do (fuel : nat) (leaderIndex shard : Z) : M worker_ev replicateResult :=
  _ <- perform (WReplicate (mkRRequest (uint64 (leaderIndex + 1)) table));
  do_loop fuel shard 0.

Definition tableState : M worker_ev (Z * Z) :=
  t <- perform (WGetTable table);
  idx <- perform (WLeaderIndex (tbl_ClusterID t));
  M_ret (idx, tbl_ClusterID t).

(** The copy of the stream to the file. *)
Definition worker_copy (fuel : nat) : M worker_ev Z :=
  Reader_WriteTo (perform WRecvChunk) (fun d => perform (WFileWrite d)) fuel 0.

Definition recover (fuel : nat) : M worker_ev unit :=
  _ <- perform (WStream table);
  _ <- perform WTempFile;
  _ <- worker_copy fuel;
  _ <- perform WFileSync;
  _ <- perform WFileSeek;
  perform (WRestore table).

(** [Start]: the new value of [leased] on a tick of the lease routine. *)
Definition lease_tick : M worker_ev bool :=
  r <~ perform (WLeaseTable table (leaseInterval * 4));
  match r with Ok _ => M_ret true | Err _ => M_ret false | Panic => lift Panic end.

(** [Start]: a tick of the replication routine, with the time until the next
    one. *)
Definition replication_tick (fuel : nat) (leased : bool) : M worker_ev Z :=
  st <~ tableState;
  match st with
  | Panic => lift Panic
  | Err _ => M_ret pollInterval
  | Ok (idx, shard) =>
      if negb leased then M_ret pollInterval else
      r <~ do fuel idx shard;
      match r with
      | Panic => lift Panic
      | Err _ => M_ret pollInterval
      | Ok resultLeaderAhead =>
          acquired <~ perform WTryAcquire;
          if (acquired : bool) then
            r <~ recover fuel;
            _ <~ perform WRelease;
            match r with Panic => lift Panic | _ => M_ret pollInterval end
          else
            r <~ perform (WReturnTable table);
            match r with Panic => lift Panic | _ => M_ret pollInterval end
      | Ok resultFollowerLagging => M_ret 50
      | Ok _ => M_ret pollInterval
      end
  end.

(** [Close], after the routines have stopped. *)
Definition worker_Close : M worker_ev unit :=
  r <~ perform (WReturnTable table);
  match r with Panic => lift Panic | _ => M_ret tt end.
End Worker.

(** ** The manager of the workers ([replication.go]) *)

(** The registry of workers, by table name, is guarded by a read-write
    mutex. *)
Inductive rm_ev : Type -> Type :=
  | RMGetMetadata : rm_ev (res (list RTable))
  | RMCreateTable (name : bytes) : rm_ev (res unit)
  | RMGetTables : rm_ev (res (list TableInfo))
  | RMRLock : rm_ev unit
  | RMRUnlock : rm_ev unit
  | RMLock : rm_ev unit
  | RMUnlock : rm_ev unit
  | RMNames : rm_ev (list bytes)
  | RMHas (name : bytes) : rm_ev bool
  | RMAdd (name : bytes) : rm_ev unit
  | RMRemove (name : bytes) : rm_ev unit
  | RMStartWorker (name : bytes) : rm_ev unit
  | RMCloseWorker (name : bytes) : rm_ev unit.

Definition hasWorker (name : bytes) : prog rm_ev bool :=
  _ <~ perform RMRLock;
  ok <~ perform (RMHas name);
  _ <~ perform RMRUnlock;
  Ret ok.

Definition startWorker (name : bytes) : prog rm_ev unit :=
  _ <~ perform RMLock;
  _ <~ perform (RMAdd name);
  _ <~ perform (RMStartWorker name);
  perform RMUnlock.

Definition stopWorker (name : bytes) : prog rm_ev unit :=
  _ <~ perform RMLock;
  _ <~ perform (RMCloseWorker name);
  _ <~ perform (RMRemove name);
  perform RMUnlock.

Fixpoint reconcileTables_go (tables : list RTable) : M rm_ev unit :=
  match tables with
  | [] => M_ret tt
  | tabs :: tables' =>
      r <~ perform (RMCreateTable (rt_Name tabs));
      match r with
      | Err e => if decide (e = ErrTableExists) then reconcileTables_go tables' else M_err e
      | Panic => lift Panic
      | Ok _ => reconcileTables_go tables'
      end
  end.
Definition reconcileTables : M rm_ev unit :=
  response <- perform RMGetMetadata;
  reconcileTables_go response.

(** The two loops of [reconcileWorkers]. *)
Fixpoint startWorkers (tbs : list TableInfo) : prog rm_ev unit :=
  match tbs with
  | [] => Ret tt
  | tbl :: tbs' =>
      has <~ hasWorker (tbl_Name tbl);
      _ <~ (if (has : bool) then Ret tt else startWorker (tbl_Name tbl));
      startWorkers tbs'
  end.
Fixpoint stopWorkers (tbs : list TableInfo) (names : list bytes) : prog rm_ev unit :=
  match names with
  | [] => Ret tt
  | name :: names' =>
      _ <~ (if decide (name ∈ map tbl_Name tbs) then Ret tt else stopWorker name);
      stopWorkers tbs names'
  end.
Definition reconcileWorkers : M rm_ev unit :=
  tbs <- perform RMGetTables;
  _ <~ startWorkers tbs;
  _ <~ perform RMRLock;
  names <~ perform RMNames;
  _ <~ stopWorkers tbs names;
  _ <~ perform RMRUnlock;
  M_ret tt.

(** [Close], after the routine has stopped. *)
Fixpoint stopAll (names : list bytes) : prog rm_ev unit :=
  match names with
  | [] => Ret tt
  | name :: names' => _ <~ stopWorker name; stopAll names'
  end.
Definition rm_Close : prog rm_ev unit :=
  names <~ perform RMNames;
  stopAll names.
