(* ===== verification/ReplicationCorrect.v ===== *)
(** * Replication keeps the follower at a state of the leader

    The stream of the leader is a piece of its log, and a follower that was at
    the table of the leader at one index is at the table of the leader at a
    later one after any round of replication, whether the round completed,
    the stream broke or proposals failed. *)

From S2P Require Import Prelude Key Wire Proto Codec Pebble.
From S2P Require Import Query TableSpec QueryCorrect Command CommandCorrect Fsm FsmCorrect.
From S2P Require Import GoStd Effects Snapshot Table LogReader Replication.

Open Scope prog_scope.

(** ** Replaying commands *)

Definition replay : list Command -> kvmap -> res kvmap :=
  res_fold (fun kv c => '(kv, _) ← spec_command kv c; Ok kv).

Lemma replay_app a b kv : replay (a ++ b) kv = kv ← replay a kv; replay b kv.
Proof.
  unfold replay. revert kv. induction a as [|c a IH]; intros kv; simpl; [done|].
  destruct (spec_command kv c) as [[kv1 ?]| |]; simpl; [apply IH|done|done].
Qed.

Lemma replay_take n cs kv kv' : replay cs kv = Ok kv' -> exists kv1, replay (take n cs) kv = Ok kv1 /\ replay (drop n cs) kv1 = Ok kv'.
Proof. rewrite <- (take_drop n cs) at 1. rewrite replay_app. intros (kv1 & ? & ?)%bind_Ok_inv. eauto. Qed.

(** A sequence replays its commands. *)
Lemma spec_sequence seq i kv :
  match replay seq kv with
  | Ok kv' => exists rs, spec_command kv (sequence_command seq i) = Ok (kv', (true, rs))
  | Err e => spec_command kv (sequence_command seq i) = Err e
  | Panic => spec_command kv (sequence_command seq i) = Panic
  end.
Proof.
  change (spec_command kv (sequence_command seq i)) with
    ('(kv, rs) ← spec_steps (fun kv c => '(kv, (_, rs)) ← spec_command kv c; Ok (kv, rs)) seq kv;
     @Ok (kvmap * (bool * list ResponseOp.t)) (kv, (true, rs))).
  unfold replay. revert kv. induction seq as [|c seq IH]; intros kv; simpl; [eauto|].
  destruct (spec_command kv c) as [[kv1 [b rs]]| |]; simpl; [|done|done]. specialize (IH kv1).
  destruct (spec_steps _ seq kv1) as [[kv2 rs2]| |]; simpl in *; destruct (res_fold _ seq kv1); try done.
  destruct IH as [rs' [= -> ->]]. eauto.
Qed.

(** The leader index does not matter for what a command does. *)
Lemma spec_command_leader kv c i : spec_command kv (set_LeaderIndex c i) = spec_command kv c.
Proof. by destruct c. Qed.

Section Leader.
Context (EncodedEntry : Z).

(** ** The table of the leader *)

(** What an entry of the log does to the table of the leader: the state
    machine gets the payload of the entries with a proposal. *)
Definition apply_entry (kv : kvmap) (e : rentry) : res kvmap :=
  if negb (re_Type e =? EncodedEntry) then Ok kv else
  match re_Cmd e with
  | [] => Panic
  | _ :: b => c ← Command_UnmarshalVT b Command_zero; '(kv, _) ← spec_command kv c; Ok kv
  end.
Definition apply_log : list rentry -> kvmap -> res kvmap := res_fold apply_entry.

Lemma apply_log_app a b kv : apply_log (a ++ b) kv = kv ← apply_log a kv; apply_log b kv.
Proof.
  unfold apply_log. revert kv. induction a as [|e a IH]; intros kv; simpl; [done|].
  destruct (apply_entry kv e); simpl; [apply IH|done|done].
Qed.

Lemma entriesToCommands_cons e l cs :
  entriesToCommands EncodedEntry (e :: l) = Ok cs ->
  exists c cs', entryToCommand EncodedEntry e = Ok c /\ entriesToCommands EncodedEntry l = Ok cs'
    /\ cs = mkRCommand (re_Index e) c :: cs'.
Proof. simpl. intros (c & Hc & (cs' & Hcs & [= <-])%bind_Ok_inv)%bind_Ok_inv. eauto. Qed.

Lemma entry_applies e c kv :
  entryToCommand EncodedEntry e = Ok c -> apply_entry kv e = '(kv, _) ← spec_command kv c; Ok kv.
Proof.
  unfold entryToCommand, apply_entry. destruct (re_Type e =? EncodedEntry); cbn [negb].
  - destruct (re_Cmd e) as [|h b]; [done|]. intros (c0 & -> & [= <-])%bind_Ok_inv. by rewrite spec_command_leader.
  - by intros [= <-].
Qed.

Lemma replay_entries l cs kv :
  entriesToCommands EncodedEntry l = Ok cs -> replay (map rc_Command cs) kv = apply_log l kv.
Proof.
  unfold replay, apply_log. revert cs kv. induction l as [|e l IH]; intros cs kv.
  { by intros [= <-]. }
  intros (c & cs' & Hc & Hcs & ->)%entriesToCommands_cons. simpl. rewrite (entry_applies e c) by done.
  destruct (spec_command kv c) as [[kv1 ?]| |]; simpl; [by apply IH|done|done].
Qed.

Lemma entriesToCommands_app a b cs :
  entriesToCommands EncodedEntry (a ++ b) = Ok cs <->
  exists ca cb, entriesToCommands EncodedEntry a = Ok ca /\ entriesToCommands EncodedEntry b = Ok cb /\ cs = ca ++ cb.
Proof.
  revert cs. induction a as [|e a IH]; intros cs.
  { split; [intros H; by exists [], cs|]. by intros (ca & cb & [= <-] & ? & ->). }
  split.
  - intros (c & cs' & Hc & (ca & cb & Ha & Hb & ->)%IH & ->)%entriesToCommands_cons.
    exists (mkRCommand (re_Index e) c :: ca), cb. simpl. by rewrite Hc, Ha.
  - intros (ca & cb & (c & cs' & Hc & Ha & ->)%entriesToCommands_cons & Hb & ->). simpl. rewrite Hc. simpl.
    by rewrite (proj2 (IH (cs' ++ cb))) by eauto.
Qed.

(** ** The stream *)

Section Stream.
Context (first : Z) (log : list rentry).
Context (Hlog : consec first log) (Hfirst : 1 <= first) (Hmax : first + len log < 2 ^ 64).
Context (Hsize : forall e, e ∈ log -> len (re_Cmd e) < 2 ^ 63).

Definition no_fuel {A} (r : res A) : Prop := r <> Err ErrOutOfFuel.

(** The calls of [Replicate], for a log reader that serves a log, which
    [LogReader] shows of the cached one; the state is what has been sent. *)
Definition leader_handles (w : list ReplicateResponse) X (e : leader_ev X) : X -> list ReplicateResponse -> Prop :=
  match e with
  | LQueryRaftLog _ r _ => fun x w' => w' = w /\ no_fuel x
      /\ match x with Ok l => l = [] \/ (FirstIndex r < LastIndex r /\ served first log r l) | _ => True end
  | LSend msg => fun x w' => (x = Ok tt /\ w' = w ++ [msg]) \/ ((exists c, x = Err (ErrExternal c)) /\ w' = w)
  | LLocal _ _ => fun x w' => w' = w /\ no_fuel x /\ match x with Ok i => 0 <= i < 2 ^ 64 - 1 | _ => True end
  | _ => fun _ w' => w' = w
  end.

(** The commands of the messages. *)
Definition commands_of (m : ReplicateResponse) : list ReplicateCommand :=
  match rr_Response m with Some (CommandsResponse cs) => cs | _ => [] end.

(** The commands of a piece [l] of the log from [lo] on. *)
Definition piece (lo : Z) (cs : list ReplicateCommand) : Prop :=
  exists l, entriesToCommands EncodedEntry l = Ok cs /\ (l = [] \/ at_index first log lo l).

(** Messages with commands, and at most one other one at the end. *)
Inductive stream_shape : list ReplicateResponse -> Prop :=
  | shape_nil : stream_shape []
  | shape_end m : commands_of m = [] -> stream_shape [m]
  | shape_commands i cs ms : cs <> [] -> stream_shape ms -> stream_shape (mkRResponse i (Some (CommandsResponse cs)) :: ms).

Lemma piece_app lo l cs cs' :
  at_index first log lo l -> entriesToCommands EncodedEntry l = Ok cs -> piece (lo + len l) cs' -> piece lo (cs ++ cs').
Proof using.
  intros Hl Hcs (l' & Hcs' & [->|Hat]).
  - exists l. injection Hcs' as <-. rewrite app_nil_r. auto.
  - exists (l ++ l'). split; [apply entriesToCommands_app; eauto|]. right. by apply at_app.
Qed.

Lemma entriesToCommands_nonempty l cs : entriesToCommands EncodedEntry l = Ok cs -> l <> [] -> cs <> [].
Proof using. destruct l; [done|]. by intros (c & cs' & _ & _ & ->)%entriesToCommands_cons. Qed.

(** What is sent: a piece of the log from [lo] on, as a stream. *)
Definition streamed (lo : Z) (w w' : list ReplicateResponse) : Prop :=
  exists ms, w' = w ++ ms /\ stream_shape ms /\ piece lo (concat (map commands_of ms)).

Lemma streamed_nothing lo w : streamed lo w w.
Proof using. exists []. rewrite app_nil_r. split; [done|]. split; [constructor|]. exists []. auto. Qed.

Lemma streamed_last lo w m x w' : commands_of m = [] -> leader_handles w _ (LSend m) x w' -> streamed lo w w' /\ no_fuel x.
Proof using.
  intros Hm [[-> ->]|[[c ->] ->]]; (split; [|done]); [|apply streamed_nothing].
  exists [m]. simpl. rewrite Hm. split; [done|]. split; [by constructor|]. exists []. auto.
Qed.

Lemma streamed_commands lo l cs i w w' :
  at_index first log lo l -> l <> [] -> entriesToCommands EncodedEntry l = Ok cs ->
  streamed (lo + len l) (w ++ [mkRResponse i (Some (CommandsResponse cs))]) w' -> streamed lo w w'.
Proof using.
  intros Hat Hne Hcs (ms & -> & Hs & Hp). eexists. rewrite <- app_assoc. split; [done|].
  split; [constructor; [by eapply entriesToCommands_nonempty|done]|]. simpl. by eapply piece_app.
Qed.

Lemma entriesToCommands_fuel l :
  (forall e, e ∈ l -> len (re_Cmd e) < 2 ^ 63) -> no_fuel (entriesToCommands EncodedEntry l).
Proof using.
  induction l as [|e l IH]; intros Hl; [done|]. cbn [entriesToCommands]. apply bind_fuel.
  - specialize (Hl e (list_elem_of_here _ _)). unfold entryToCommand. apply bind_fuel; [|done].
    destruct (negb _); [done|]. destruct (re_Cmd e) as [|h b]; [done|].
    apply Command_Unmarshal_at_ok; rewrite len_cons in Hl; lia.
  - intros c. apply bind_fuel; [|done]. apply IH. intros x Hx. apply Hl. by apply list_elem_of_further.
Qed.

Lemma Replicate_loop_spec fuel shard max applied r w out w' :
  1 <= FirstIndex r <= LastIndex r -> LastIndex r < 2 ^ 64 ->
  exec leader_handles (Replicate_loop EncodedEntry fuel shard max applied r) w out w' ->
  streamed (FirstIndex r) w w' /\ (LastIndex r - FirstIndex r < Z.of_nat fuel -> no_fuel out).
Proof using Hlog Hfirst Hmax Hsize.
  revert r w. induction fuel as [|fuel IH]; intros r w H1 H2; cbn [Replicate_loop].
  { intros [<- <-]. split; [apply streamed_nothing|lia]. }
  assert (forall w1, no_fuel out -> w' = w1 -> streamed (FirstIndex r) w1 w' /\ (LastIndex r - FirstIndex r < Z.of_nat (S fuel) -> no_fuel out))
    as Hend by (intros w1 Ho ->; split; [apply streamed_nothing|done]).
  intros (past & w1 & -> & H). destruct past; [by destruct H as [<- <-]; apply Hend|].
  destruct H as (entries & w1 & (-> & Hnf & Hq) & H).
  destruct entries as [l|e|]; cbn [pbind] in H.
  - destruct (last l) as [e|] eqn:Hl.
    + apply exec_M_call in H as (x & w1 & [<- <-] & H).
      assert (no_fuel (entriesToCommands EncodedEntry l)) as Hf.
      { apply entriesToCommands_fuel. intros x Hx. apply Hsize. destruct Hq as [->|[_ [Hat _]]]; [done|].
        exact (at_in_log first log _ l x Hat Hx). }
      destruct (entriesToCommands EncodedEntry l) as [cs|e'|] eqn:Hcs; [|destruct H as [-> ->]; apply Hend; [intros [= ->]|]; by auto..].
      apply exec_M_call in H as (x & w1 & [[-> ->]|[[c ->] ->]]%exec_perform & H); [|destruct H as [-> ->]; by apply Hend].
      destruct Hq as [->|[Hr Hs]]; [done|]. assert (l <> []) as Hne by (by intros ->).
      rewrite (served_last first log Hlog r l e Hs Hl) in H. destruct Hs as [Hat Hlen].
      pose proof (at_bound first log _ _ Hat Hne). assert (0 < len l) by (destruct l; [done|]; rewrite len_cons; pose proof (len_nonneg l); lia).
      rewrite uint64_id in H by (unfold is_uint64; lia).
      apply IH in H as [Hst Hfu]; [|simpl; lia..]. simpl in *.
      replace (Z.min (FirstIndex r + len l - 1 + 1) (LastIndex r)) with (FirstIndex r + len l) in * by lia.
      split; [by eapply streamed_commands|]. intros. apply Hfu. lia.
    + apply exec_M_call in H as (x & w1 & (-> & Hnf' & Hi)%exec_perform & H).
      destruct x as [i|e|]; [|destruct H as [-> ->]; apply Hend; [intros [= ->]|]; by auto..].
      apply exec_perform in H. eapply streamed_last in H as [? ?]; eauto.
  - destruct (decide (e = ErrLogBehind)); [|destruct (decide (e = ErrLogAhead))].
    + apply exec_perform in H. eapply streamed_last in H as [? ?]; eauto.
    + apply exec_perform in H. eapply streamed_last in H as [? ?]; eauto.
    + destruct H as [<- <-]. by apply Hend.
  - destruct H as [<- <-]. by apply Hend.
Qed.

Lemma Replicate_spec max req w out w' :
  0 <= rreq_LeaderIndex req ->
  exec leader_handles (Replicate EncodedEntry max req) w out w' ->
  streamed (rreq_LeaderIndex req) w w' /\ no_fuel out.
Proof using Hlog Hfirst Hmax Hsize.
  intros H0. unfold Replicate. destruct (Z.eqb_spec (rreq_LeaderIndex req) 0).
  { intros [<- <-]. split; [apply streamed_nothing|done]. }
  intros (t & w1 & -> & H). destruct t as [t|e|]; cbn [pbind] in H; [|destruct H as [<- <-]; split; [apply streamed_nothing|done]..].
  apply exec_M_call in H as (x & w1 & (-> & Hnf & Hi)%exec_perform & H).
  destruct x as [i|e|]; [|destruct H as [-> ->]; split; [apply streamed_nothing|intros [= ->]; by apply Hnf]
    |destruct H as [-> ->]; split; [apply streamed_nothing|done]].
  rewrite uint64_id in H by (unfold is_uint64; lia).
  destruct (Z.ltb_spec (i + 1) (rreq_LeaderIndex req)).
  - apply exec_perform in H. eapply streamed_last; [|exact H]. done.
  - apply Replicate_loop_spec in H as [? Hf]; simpl in *; [|lia|lia]. split; [done|]. apply Hf. lia.
Qed.
End Stream.
End Leader.

(** ** The follower *)

Section Follower.
Context {P : PebbleOps} {L : PebbleLaws P} {H : PebbleHealthy P}.

(** What is left of the stream, the state machine of the shard and the index
    of the last entry it has applied. *)
Record fstate := mkF { f_stream : list ReplicateResponse; f_fsm : FSM; f_index : Z }.

(** The calls of [do].  The stream gives its messages in order and may break
    at any time.  A proposal whose call succeeds has been applied; one whose
    call fails has been applied or never is. *)
Definition follower_handles (s : fstate) X (e : worker_ev X) : X -> fstate -> Prop :=
  match e with
  | WRecv => fun x s' =>
      (exists m, f_stream s = m :: f_stream s' /\ x = Ok (Some m) /\ f_fsm s' = f_fsm s /\ f_index s' = f_index s)
      \/ (s' = s /\ f_stream s = [] /\ x = Ok None)
      \/ (s' = s /\ exists c, x = Err (ErrExternal c))
  | WPropose _ b => fun x s' =>
      (exists i p es, f_index s < i /\ is_uint64 i /\ Update (f_fsm s) [mkEntry i b 0 []] = Ok (p, es)
         /\ s' = mkF (f_stream s) p i /\ (x = Ok tt \/ exists c, x = Err (ErrExternal c)))
      \/ (s' = s /\ exists c, x = Err (ErrExternal c))
  | WReplicate _ => fun x s' => s' = s /\ no_fuel x
  | _ => fun _ s' => s' = s
  end.

(** The store of the follower represents the table [st]. *)
Definition holds (s : fstate) (st : tstate) : Prop := represents (db_view (fsm_pebble (f_fsm s))) st.

(** Commands that a leader sends: well formed, of a size that fits memory. *)
Definition command_ok (c : Command) : Prop := Command_wf c /\ Command_SizeVT c < 2 ^ 61.

Lemma sequence_size seq i :
  Command_SizeVT (sequence_command seq i)
  = scalar_size Command_SEQUENCE + optional_varint_size (Some i) + repeated_size Command_SizeVT seq.
Proof using.
  change (Command_SizeVT (sequence_command seq i)) with
    (0 + scalar_size Command_SEQUENCE + 0 + optional_varint_size (Some i) + 0 + 0 + 0 + 0 + repeated_size Command_SizeVT seq + 0 + 0).
  lia.
Qed.

Lemma optional_varint_bound i : 0 <= optional_varint_size (Some i) <= 11.
Proof using.
  cbn [optional_varint_size]. pose proof (uint64_range i) as Hr. unfold is_uint64 in Hr.
  pose proof (sov_pos (uint64 i) ltac:(lia)). pose proof (sov_le (uint64 i) 10 ltac:(lia) ltac:(lia)). lia.
Qed.

(** A sequence that is short of a proposal has room for one more command. *)
Lemma sequence_fits seq c i j :
  seq = [] \/ Command_SizeVT (sequence_command seq i) < desiredProposalSize -> Command_SizeVT c < 2 ^ 61 ->
  Command_SizeVT (sequence_command (seq ++ [c]) j) < 2 ^ 63.
Proof using.
  intros Hs Hc. rewrite sequence_size, repeated_size_app in *. pose proof (optional_varint_bound i). pose proof (optional_varint_bound j).
  destruct (Command_sized c) as [Hp _]. change (scalar_size Command_SEQUENCE) with 2 in *.
  assert (repeated_size Command_SizeVT seq < 2 ^ 62) as Hr by (destruct Hs as [->|Hs]; [done|unfold desiredProposalSize in Hs; lia]).
  unfold repeated_size at 2. unfold delimited_size. cbn [foldr]. pose proof (sov_le (Command_SizeVT c) 9 ltac:(lia) ltac:(lia)). lia.
Qed.

Lemma sequence_wf seq i : Forall Command_wf seq -> is_uint64 i -> Command_wf (sequence_command seq i).
Proof using. intros Hs Hi. constructor; try done. by intros j [= <-]. Qed.

Lemma sequence_roundtrip seq i :
  Forall Command_wf seq -> is_uint64 i -> Command_SizeVT (sequence_command seq i) < 2 ^ 63 ->
  exists b, Command_MarshalVT (sequence_command seq i) = Ok b /\ Command_UnmarshalVT b Command_zero = Ok (sequence_command seq i).
Proof using.
  intros Hs Hi Hl. exists (Command_Marshal (sequence_command seq i)). split; [by apply Command_MarshalVT_exact|].
  apply Command_roundtrip_at; [by apply sequence_wf|]. rewrite <- (Command_Marshal_len _ Hl) in Hl. unfold len in *. lia.
Qed.

Lemma Command_MarshalVT_fuel m : no_fuel (Command_MarshalVT m).
Proof using. unfold Command_MarshalVT, marshal_sized, no_fuel. by repeat case_match. Qed.

(** A proposal of a sequence that has been applied. *)
Lemma propose_applied s st seq i b j p es :
  holds s st -> is_uint64 j -> Command_UnmarshalVT b Command_zero = Ok (sequence_command seq i) ->
  Update (f_fsm s) [mkEntry j b 0 []] = Ok (p, es) ->
  exists st', holds (mkF (f_stream s) p j) st' /\ t_leader st' = i /\ replay seq (t_kv st) = Ok (t_kv st').
Proof using L H.
  intros Hst Hj Hb Hu. pose proof (Update_spec (f_fsm s) st [mkEntry j b 0 []] Hst ltac:(by constructor)) as Hspec.
  unfold spec_update in Hspec. cbn [collect] in Hspec. unfold spec_entry in Hspec. cbn [e_Cmd e_Index e_Data fst] in Hspec.
  rewrite Hb in Hspec. cbn [mbind res_bind] in Hspec. pose proof (spec_sequence seq i (t_kv st)) as Hs.
  destruct (replay seq (t_kv st)) as [kv| |]; [|rewrite Hs in Hspec; cbn [mbind res_bind] in Hspec; congruence..].
  destruct Hs as [rs Hs]. rewrite Hs in Hspec. cbn [mbind res_bind] in Hspec.
  destruct (if decide (rs = []) then _ else _) as [d| |]; cbn [mbind res_bind] in Hspec; [|congruence..].
  destruct Hspec as (p' & Hu' & Hr & _). rewrite Hu in Hu'. injection Hu' as <- _. eexists. split; [exact Hr|done].
Qed.

(** Commands with consecutive indices from [i] on. *)
Fixpoint consec_rc (i : Z) (cs : list ReplicateCommand) : Prop :=
  match cs with [] => True | c :: cs' => rc_LeaderIndex c = i /\ consec_rc (i + 1) cs' end.

(** [k] of the commands have been applied since [s0] was at [st]. *)
Definition advanced (st : tstate) (cs : list Command) (k : nat) (s : fstate) (st' : tstate) : Prop :=
  holds s st' /\ t_leader st' = t_leader st + Z.of_nat k /\ replay (take k cs) (t_kv st) = Ok (t_kv st').

Lemma advanced_trans st a b k s1 st1 s' st' :
  advanced st (a ++ b) (length a) s1 st1 -> advanced st1 b k s' st' -> advanced st (a ++ b) (length a + k) s' st'.
Proof using.
  intros (_ & L1 & R1) (H2 & L2 & R2). split; [done|]. split; [lia|].
  rewrite take_app_length in R1. rewrite take_app_add', replay_app, R1 by done. exact R2.
Qed.

Lemma proposeBatch_go_spec shard cmds seq la s st kv r s' :
  holds s st -> consec_rc (t_leader st + len seq + 1) cmds -> 0 <= t_leader st -> t_leader st + len seq + len cmds < 2 ^ 64 ->
  Forall command_ok seq -> Forall (fun c => command_ok (rc_Command c)) cmds ->
  (seq = [] \/ exists i, Command_SizeVT (sequence_command seq i) < desiredProposalSize) ->
  replay (seq ++ map rc_Command cmds) (t_kv st) = Ok kv ->
  exec follower_handles (proposeBatch_go shard cmds seq la) s r s' ->
  exists k st', (k <= length seq + length cmds)%nat /\ advanced st (seq ++ map rc_Command cmds) k s' st'
    /\ f_stream s' = f_stream s
    /\ (forall a, r = Ok a -> cmds <> [] -> k = (length seq + length cmds)%nat /\ a = t_leader st').
Proof using L H.
  revert seq la s st. induction cmds as [|c cmds IH]; intros seq la s st Hst Hc H0 Hmax Hseq Hcmds Hsz Hrep; cbn [proposeBatch_go].
  { intros [<- <-]. exists 0%nat, st. split; [lia|]. split; [|done]. split; [done|]. split; [lia|done]. }
  destruct Hc as [Hci Hc]. apply Forall_cons in Hcmds as [Hok Hcmds]. rewrite len_cons in Hmax. pose proof (len_nonneg cmds). pose proof (len_nonneg seq).
  assert (seq ++ map rc_Command (c :: cmds) = (seq ++ [rc_Command c]) ++ map rc_Command cmds) as Ecs by (by rewrite <- app_assoc).
  rewrite Ecs in *. set (seq' := seq ++ [rc_Command c]) in *.
  assert (Forall command_ok seq') as Hseq' by (apply Forall_app; auto).
  assert (len seq' = len seq + 1) as Hl by (unfold seq'; by rewrite len_app).
  assert (length seq' = S (length seq)) as Hl' by (unfold seq'; rewrite length_app; simpl; lia).
  replace (length seq + length (c :: cmds))%nat with (length seq' + length cmds)%nat by (simpl; lia).
  destruct ((desiredProposalSize <=? _) || (len cmds =? 0)) eqn:Hprop.
  - destruct (sequence_roundtrip seq' (rc_LeaderIndex c)) as (b & Hb & Hdec).
    { eapply Forall_impl; [exact Hseq'|]. by intros x []. }
    { unfold is_uint64. lia. }
    { destruct Hsz as [Hsz|[j Hsz]]; [eapply (sequence_fits seq _ 0)|eapply (sequence_fits seq _ j)]; try apply Hok; auto. }
    rewrite Hb. intros (x & s1 & [<- <-] & Hx)%exec_M_call. apply exec_M_call in Hx as (x & s1 & Hp%exec_perform & Hx).
    destruct (replay_take (length seq') _ _ _ Hrep) as (kv1 & Hkv1 & Hkv). rewrite take_app_length in Hkv1. rewrite drop_app_length in Hkv.
    assert (length seq' = Z.to_nat (rc_LeaderIndex c - t_leader st)) as Hn by (unfold len in *; lia).
    destruct Hp as [(i & p & es & _ & Hi & Hu & -> & Hres)|[-> [e ->]]].
    2: { destruct Hx as [-> ->]. exists 0%nat, st. split; [lia|]. split; [|done]. split; [done|]. split; [lia|done]. }
    destruct (propose_applied s st seq' _ b i p es Hst Hi Hdec Hu) as (st1 & Hst1 & Hl1 & Hr1).
    assert (advanced st (seq' ++ map rc_Command cmds) (length seq') (mkF (f_stream s) p i) st1) as Hadv1.
    { split; [done|]. rewrite take_app_length. split; [lia|done]. }
    destruct Hres as [->|[e ->]].
    2: { destruct Hx as [-> ->]. exists (length seq'), st1. split; [lia|]. split; [exact Hadv1|done]. }
    destruct (IH [] (rc_LeaderIndex c) (mkF (f_stream s) p i) st1 Hst1) as (k & st' & Hk & Hadv & Hstr & Hall);
      try done; try (change (len []) with 0; lia).
    + change (len []) with 0. by replace (t_leader st1 + 0 + 1) with (t_leader st + len seq + 1 + 1) by lia.
    + by left.
    + by assert (kv1 = t_kv st1) as <- by congruence.
    + exists (length seq' + k)%nat, st'. simpl in Hk. split; [lia|]. split; [by eapply advanced_trans|]. split; [done|].
      intros a Ha _. destruct cmds as [|c' cmds]; [|destruct (Hall a Ha) as [-> ->]; [discriminate|]; split; reflexivity].
      destruct Hx as [<- <-]. injection Ha as <-. simpl in Hk. assert (k = 0%nat) as -> by lia.
      split; [simpl; lia|]. destruct Hadv as (_ & Hlk & _). lia.
  - apply orb_false_iff in Hprop as [Hsmall%Z.leb_gt Hne%Z.eqb_neq]. intros Hx.
    destruct (IH seq' la s st Hst) as (k & st' & Hk & Hadv & Hstr & Hall); try done; try lia.
    + by replace (t_leader st + len seq' + 1) with (t_leader st + len seq + 1 + 1) by lia.
    + right. by exists (rc_LeaderIndex c).
    + exists k, st'. split; [done|]. split; [done|]. split; [done|]. intros a Ha _. apply Hall; [done|].
      by intros ->.
Qed.

Lemma advanced_prefix st a b k s st' :
  (k <= length a)%nat -> advanced st a k s st' -> advanced st (a ++ b) k s st'.
Proof using. intros Hk (? & ? & ?). split; [done|]. split; [done|]. by rewrite take_app_le. Qed.

Lemma advanced_none st cs s : holds s st -> advanced st cs 0 s st.
Proof using. intros Hs. split; [done|]. split; [lia|done]. Qed.

Lemma consec_rc_app i a b : consec_rc i (a ++ b) <-> consec_rc i a /\ consec_rc (i + len a) b.
Proof using.
  revert i. induction a as [|c a IH]; intros i; simpl.
  - change (len []) with 0. rewrite Z.add_0_r. tauto.
  - rewrite IH, len_cons. replace (i + 1 + len a) with (i + (1 + len a)) by lia. tauto.
Qed.

Lemma holds_stream s s1 st : f_fsm s1 = f_fsm s -> holds s st -> holds s1 st.
Proof using. unfold holds. by intros ->. Qed.

Definition ends_stream (r : res replicateResult) : Prop := r = Ok resultFollowerLagging \/ r = Ok resultFollowerTailing.

Lemma proposeBatch_fuel shard cmds seq la s (r : res Z) s' :
  exec follower_handles (proposeBatch_go shard cmds seq la) s r s' -> no_fuel r.
Proof using.
  revert seq la s. induction cmds as [|c cmds IH]; intros seq la s; cbn [proposeBatch_go]; [by intros [<- _]|].
  destruct (_ || _); [|apply IH]. intros (x & s1 & [<- <-] & Hx)%exec_M_call.
  pose proof (Command_MarshalVT_fuel (sequence_command (seq ++ [rc_Command c]) (rc_LeaderIndex c))) as Hm.
  destruct (Command_MarshalVT _) as [b|e|]; [|by destruct Hx as [-> _]; intros [= ->]|by destruct Hx as [-> _]].
  apply exec_M_call in Hx as (x & s1 & Hp%exec_perform & Hx).
  destruct Hp as [(i & p & es & _ & _ & _ & -> & [->|[e ->]])|[-> [e ->]]]; [by eapply IH|by destruct Hx as [-> _]..].
Qed.

Lemma do_loop_spec fuel shard applied ms s st kv r s' :
  let cs := concat (map commands_of ms) in
  f_stream s = ms -> stream_shape ms -> holds s st -> consec_rc (t_leader st + 1) cs ->
  0 <= t_leader st -> t_leader st + len cs < 2 ^ 64 -> Forall (fun c => command_ok (rc_Command c)) cs ->
  replay (map rc_Command cs) (t_kv st) = Ok kv ->
  exec follower_handles (do_loop fuel shard applied) s r s' ->
  exists k st', (k <= length cs)%nat /\ advanced st (map rc_Command cs) k s' st'
    /\ (ends_stream r -> k = length cs) /\ ((length ms < fuel)%nat -> no_fuel r).
Proof using L H.
  intros cs. subst cs. revert applied ms s st. induction fuel as [|fuel IH]; intros applied ms s st Hms Hsh Hst Hc H0 Hmax Hok Hrep; cbn [do_loop].
  { intros [<- <-]. exists 0%nat, st. split; [lia|]. split; [by apply advanced_none|]. split; [by intros [?|?]|lia]. }
  intros (x & s1 & Hx%exec_perform & Hrest)%exec_M_call.
  assert (forall s2 r2, f_fsm s2 = f_fsm s -> s' = s2 -> r = r2 -> ~ ends_stream r2 -> no_fuel r2 ->
    exists k st', (k <= length (concat (map commands_of ms)))%nat /\ advanced st (map rc_Command (concat (map commands_of ms))) k s' st'
    /\ (ends_stream r -> k = length (concat (map commands_of ms))) /\ ((length ms < S fuel)%nat -> no_fuel r)) as Hstop.
  { intros s2 r2 Hf -> -> Hne Hnf. exists 0%nat, st. split; [lia|].
    split; [apply advanced_none; by eapply holds_stream|]. done. }
  destruct Hx as [(m & Hm & -> & Hf & Hi)|[(-> & Hnil & ->)|(-> & c & ->)]].
  - assert (holds s1 st) as Hst1 by (by eapply holds_stream). rewrite Hm in Hms. subst ms. clear Hm.
    destruct s1 as [ms1 p1 i1]. cbn [f_stream f_fsm f_index] in *.
    inversion Hsh as [|? Hno E1|i cs0 ms' Hne Hsh' E1]; subst; cbn [map concat] in *.
    + rewrite Hno in *. destruct (rr_Response m) as [[cs0|e]|] eqn:Em.
      * unfold commands_of in Hno. rewrite Em in Hno. subst cs0. apply exec_M_call in Hrest as (x & s2 & [<- <-] & Hrest).
        destruct (IH 0 [] (mkF [] (f_fsm s) (f_index s)) st) as (k & st' & Hk & Hadv & Hend & Hfu); try done; [apply shape_nil|].
        exists k, st'. split; [done|]. split; [done|]. split; [done|]. simpl. intros. apply Hfu. simpl. lia.
      * repeat match type of Hrest with context [if ?b then _ else _] => destruct b end; destruct Hrest as [<- <-];
          (eapply (Hstop (mkF [] (f_fsm s) (f_index s))); [done|done|done|by intros [?|?]|done]).
      * exists 0%nat, st. destruct (_ && _); destruct Hrest as [<- <-]; (split; [lia|]); (split; [by apply advanced_none|done]).
    + cbn [rr_Response] in Hrest. change (commands_of (mkRResponse i (Some (CommandsResponse cs0)))) with cs0 in *.
      set (cs1 := concat (map commands_of ms1)) in *. rewrite map_app in *. apply consec_rc_app in Hc as [Hc0 Hc1].
      apply Forall_app in Hok as [Hok0 Hok1]. rewrite len_app in Hmax. rewrite length_app in *.
      destruct (replay_take (length (map rc_Command cs0)) _ _ _ Hrep) as (kv0 & Hr0 & Hr1).
      rewrite take_app_length in Hr0. rewrite drop_app_length in Hr1. pose proof (len_nonneg cs0). pose proof (len_nonneg cs1).
      apply exec_M_call in Hrest as (x & s2 & Hpb & Hrest).
      destruct (proposeBatch_go_spec shard cs0 [] 0 _ st kv0 x s2 Hst1) as (k0 & st0 & Hk0 & Hadv0 & Hstr0 & Hall0); try done.
      { change (len []) with 0. by rewrite Z.add_0_r. }
      { change (len []) with 0. lia. }
      { by left. }
      cbn [app length Nat.add f_stream] in *. destruct x as [a|e|].
      * destruct (Hall0 a eq_refl Hne) as [-> ->].
        assert (kv0 = t_kv st0) as -> by (destruct Hadv0 as (_ & _ & Hr'); rewrite take_ge in Hr' by (by rewrite length_map); congruence).
        destruct Hadv0 as (Hst2 & Hl0 & Hr0').
        destruct (IH (t_leader st0) ms1 s2 st0) as (k & st' & Hk & Hadv & Hend & Hfu); try done; fold cs1; try (unfold len in *; lia).
        { unfold len in Hc1. by replace (t_leader st0 + 1) with (t_leader st + 1 + Z.of_nat (length cs0)) by lia. }
        fold cs1 in Hk, Hadv, Hend. exists (length cs0 + k)%nat, st'. split; [lia|]. split.
        { rewrite <- (length_map rc_Command cs0). eapply advanced_trans; [|exact Hadv].
          rewrite length_map. split; [done|]. split; [done|]. by rewrite take_app_le by (by rewrite length_map). }
        split; [intros He; rewrite (Hend He); lia|]. simpl. intros. apply Hfu. lia.
      * destruct Hrest as [-> ->]. exists k0, st0. split; [lia|]. split; [apply advanced_prefix; [by rewrite length_map|done]|].
        split; [by intros [?|?]|]. intros _ [= ->]. by apply proposeBatch_fuel in Hpb.
      * destruct Hrest as [-> ->]. exists k0, st0. split; [lia|]. split; [apply advanced_prefix; [by rewrite length_map|done]|].
        split; [by intros [?|?]|done].
  - destruct Hrest as [<- <-]. eapply Hstop; try done. by intros [?|?].
  - destruct Hrest as [-> ->]. eapply Hstop; try done. by intros [?|?].
Qed.
End Follower.

(** ** A round of replication *)

Section Round.
Context (EncodedEntry first : Z) (log : list rentry) (kv0 : kvmap).

(** An entry that the tables of the leader have proposed. *)
Definition entry_ok (e : rentry) : Prop :=
  len (re_Cmd e) < 2 ^ 63
  /\ (re_Type e = EncodedEntry -> exists h b c, re_Cmd e = h :: b /\ Command_UnmarshalVT b Command_zero = Ok c
        /\ Command_wf c /\ Command_SizeVT c < 2 ^ 60).

(** The table of the leader at an index, from the table [kv0] at the index in
    front of the log. *)
Definition leader_at (i : Z) : res kvmap := apply_log EncodedEntry (take (Z.to_nat (i + 1 - first)) log) kv0.

Lemma set_LeaderIndex_ok c i : Command_wf c -> Command_SizeVT c < 2 ^ 60 -> is_uint64 i -> command_ok (set_LeaderIndex c i).
Proof.
  intros Hwf Hs Hi. split.
  - destruct Hwf. constructor; try done. by intros j [= <-].
  - destruct c as [t ty kv li b tx re pk sq ct u].
    assert (Command_SizeVT (set_LeaderIndex (mkCommand t ty kv li b tx re pk sq ct u) i)
      = Command_SizeVT (mkCommand t ty kv li b tx re pk sq ct u) - optional_varint_size li + optional_varint_size (Some i)) as ->
      by (cbn [set_LeaderIndex Command_SizeVT cmd_Table cmd_Type cmd_Kv cmd_Batch cmd_Txn cmd_RangeEnd cmd_PrevKvs cmd_Sequence cmd_Count cmd_unknownFields]; lia).
    pose proof (optional_varint_bound i). assert (0 <= optional_varint_size li); [|lia].
    destruct li as [j|]; [apply optional_varint_bound|done].
Qed.

Lemma entry_command e :
  entry_ok e -> is_uint64 (re_Index e) -> exists c, entryToCommand EncodedEntry e = Ok c /\ command_ok c.
Proof.
  intros [_ He] Hi. unfold entryToCommand. destruct (Z.eqb_spec (re_Type e) EncodedEntry) as [E|E]; cbn [negb].
  - destruct (He E) as (h & b & c & -> & -> & Hwf & Hs). eexists. split; [done|]. by apply set_LeaderIndex_ok.
  - eexists. split; [done|]. apply set_LeaderIndex_ok; [by constructor|by vm_compute|done].
Qed.

Lemma entries_commands i l cs :
  consec i l -> 0 <= i -> i + len l <= 2 ^ 64 -> Forall entry_ok l -> entriesToCommands EncodedEntry l = Ok cs ->
  consec_rc i cs /\ Forall (fun c => command_ok (rc_Command c)) cs /\ length cs = length l.
Proof.
  revert i cs. induction l as [|e l IH]; intros i cs; [by intros _ _ _ _ [= <-]|].
  intros [He Hl] Hi Hm [Hok Hoks]%Forall_cons (c & cs' & Hc & Hcs & ->)%entriesToCommands_cons.
  rewrite len_cons in Hm. pose proof (len_nonneg l).
  destruct (IH (i + 1) cs' Hl ltac:(lia) ltac:(lia) Hoks Hcs) as (H1 & H2 & H3).
  destruct (entry_command e Hok) as (c' & Hc' & Hcok); [unfold is_uint64; lia|].
  rewrite Hc in Hc'. injection Hc' as <-. split; [done|]. split; [by constructor|]. simpl. lia.
Qed.

Lemma entriesToCommands_length l cs : entriesToCommands EncodedEntry l = Ok cs -> length cs = length l.
Proof.
  revert cs. induction l as [|e l IH]; intros cs; [by intros [= <-]|].
  intros (c & cs' & _ & Hcs & ->)%entriesToCommands_cons. simpl. by rewrite (IH cs').
Qed.

Lemma shape_prefix ms ms' : stream_shape ms -> ms' `prefix_of` ms -> stream_shape ms'.
Proof.
  intros Hs. revert ms'. induction Hs as [|m Hm|i cs ms Hne Hs IH]; intros ms' Hp.
  - apply prefix_nil_inv in Hp as ->. constructor.
  - destruct ms' as [|m' ms']; [constructor|]. destruct Hp as [t [= <- E]]. symmetry in E. apply app_eq_nil in E as [-> _]. by constructor.
  - destruct ms' as [|m' ms']; [constructor|]. destruct Hp as [t [= <- ->]]. constructor; [done|]. apply IH. by eexists.
Qed.

Lemma entriesToCommands_prefix l a b :
  entriesToCommands EncodedEntry l = Ok (a ++ b) -> exists l', l' `prefix_of` l /\ entriesToCommands EncodedEntry l' = Ok a.
Proof.
  revert l. induction a as [|c a IH]; intros l H; [exists []; split; [apply prefix_nil|done]|].
  destruct l as [|e l]; [done|]. apply entriesToCommands_cons in H as (c' & cs' & Hc & Hcs & [= -> <-]).
  destruct (IH l Hcs) as (l' & Hp & Hl'). exists (e :: l'). split; [by apply prefix_cons|]. simpl. by rewrite Hc, Hl'.
Qed.

Lemma piece_prefix lo cs cs' :
  piece EncodedEntry first log lo cs -> cs' `prefix_of` cs -> piece EncodedEntry first log lo cs'.
Proof.
  intros (l & Hcs & Hl) [t ->]. destruct (entriesToCommands_prefix l cs' t Hcs) as (l' & Hp & Hl'). exists l'.
  split; [done|]. destruct Hl as [->|Hat]; [apply prefix_nil_inv in Hp; by left|right; by eapply at_prefix].
Qed.

Lemma commands_prefix ms' ms :
  ms' `prefix_of` ms -> concat (map commands_of ms') `prefix_of` concat (map commands_of ms).
Proof. intros [t ->]. rewrite map_app, concat_app. by eexists. Qed.

(** The table of the leader at an index further on. *)
Lemma leader_at_later i l k kv :
  first <= i + 1 -> at_index first log (i + 1) l -> leader_at i = Ok kv -> (k <= length l)%nat ->
  leader_at (i + Z.of_nat k) = apply_log EncodedEntry (take k l) kv.
Proof.
  intros Hi [_ [rest Hl]] Hkv Hk. unfold leader_at in *.
  replace (Z.to_nat (i + Z.of_nat k + 1 - first)) with (Z.to_nat (i + 1 - first) + k)%nat by lia.
  rewrite <- take_take_drop, apply_log_app, Hkv, Hl. simpl. by rewrite take_app_le.
Qed.

(** The whole of a piece of a log that the leader has applied can be applied. *)
Lemma leader_piece i l kv kv' :
  at_index first log (i + 1) l -> leader_at i = Ok kv -> apply_log EncodedEntry log kv0 = Ok kv' ->
  exists kv1, apply_log EncodedEntry l kv = Ok kv1.
Proof.
  intros [_ [rest Hl]] Hkv Hall. unfold leader_at in Hkv.
  rewrite <- (take_drop (Z.to_nat (i + 1 - first)) log), apply_log_app, Hkv in Hall. simpl in Hall.
  rewrite Hl, apply_log_app in Hall. apply bind_Ok_inv in Hall as (kv1 & ? & _). eauto.
Qed.
End Round.

(** The entries that the state machine of the leader is given. *)
Definition payloads (EncodedEntry : Z) (l : list rentry) : list Entry :=
  omap (fun e => if decide (re_Type e = EncodedEntry) then Some (mkEntry (re_Index e) (drop 1 (re_Cmd e)) 0 []) else None) l.

Lemma collect_payloads EncodedEntry l kv x s es :
  (forall e, e ∈ l -> re_Type e = EncodedEntry -> re_Cmd e <> []) ->
  collect spec_entry (payloads EncodedEntry l) (kv, x) = Ok (s, es) -> apply_log EncodedEntry l kv = Ok s.1.
Proof.
  unfold apply_log. revert kv x es. induction l as [|e l IH]; intros kv x es Hne; [by intros [= <- <-]|].
  assert (forall e, e ∈ l -> re_Type e = EncodedEntry -> re_Cmd e <> []) as Hne' by (intros; apply Hne; [by apply list_elem_of_further|done]).
  unfold payloads. cbn [omap list_omap res_fold].
  destruct (decide (re_Type e = EncodedEntry)) as [E|E].
  - specialize (Hne e (list_elem_of_here _ _) E). destruct (re_Cmd e) as [|h b] eqn:Eb; [done|].
    cbn [collect]. unfold spec_entry at 1. cbn [e_Cmd drop fst].
    intros ([[kv1 x1] e1] & (c & Hd & ([kv2 [ok rs]] & Hs & (d & _ & [= <- <- _])%bind_Ok_inv)%bind_Ok_inv)%bind_Ok_inv
      & ([s2 es2] & Hc & [= <- _])%bind_Ok_inv)%bind_Ok_inv.
    assert (apply_entry EncodedEntry kv e = Ok kv2) as ->.
    { unfold apply_entry. cbn [e_Cmd drop fst] in *. rewrite drop_0 in Hd. rewrite (proj2 (Z.eqb_eq _ _) E), Eb, Hd. cbn [negb mbind res_bind]. by rewrite Hs. }
    by eapply IH.
  - assert (apply_entry EncodedEntry kv e = Ok kv) as -> by (unfold apply_entry; by rewrite (proj2 (Z.eqb_neq _ _) E)).
    by eapply IH.
Qed.

(** The cached log reader answers as [leader_handles] says. *)
Lemma cached_reader_handles view SizeUpperLimit n s id first log r max l rd w :
  (forall g, slog_wf g -> shows g.1 g.2 (view g)) -> 0 <= n -> reachable view SizeUpperLimit n s ->
  logs s !! id = Some (first, log) -> 1 <= FirstIndex r <= LastIndex r ->
  Cached_QueryRaftLog (log_reader view (logs s)) SizeUpperLimit (reader s) id r max = Ok (l, rd) ->
  leader_handles first log w _ (LQueryRaftLog id r max) (Ok l) w.
Proof.
  intros Hv Hn Hs Hg Hr Hq. split; [done|]. split; [done|]. destruct (Z.eq_dec (FirstIndex r) (LastIndex r)) as [E|E].
  - unfold Cached_QueryRaftLog in Hq. rewrite (proj2 (Z.eqb_eq _ _) E) in Hq. injection Hq as <- _. by left.
  - apply (reachable_ok _ _ Hv) in Hs; [|done].
    assert (1 <= FirstIndex r < LastIndex r) as Hr' by lia.
    destruct (query_ok _ _ Hv _ _ _ _ _ _ Hs Hr' Hq) as (g & sh & sh' & Hg' & _ & (_ & Hans & _) & _).
    assert (Some g = Some (first, log)) as [= ->] by (etrans; [symmetry; exact Hg'|exact Hg]). cbn [fst] in Hans.
    destruct Hans as [->|Hans]; [by left|]. right. split; [lia|exact Hans].
Qed.

(** What a piece of the log gives the follower. *)
Lemma piece_facts EncodedEntry first log kv0 kvl i kv l cs :
  slog_wf (first, log) -> Forall (entry_ok EncodedEntry) log -> apply_log EncodedEntry log kv0 = Ok kvl ->
  leader_at EncodedEntry first log kv0 i = Ok kv -> 0 <= i -> i + len log < 2 ^ 64 - 1 -> first <= i + 1 ->
  entriesToCommands EncodedEntry l = Ok cs -> l = [] \/ at_index first log (i + 1) l ->
  consec_rc (i + 1) cs /\ Forall (fun c => command_ok (rc_Command c)) cs /\ i + len cs < 2 ^ 64
  /\ (exists kv1, replay (map rc_Command cs) kv = Ok kv1)
  /\ forall k, (k <= length cs)%nat ->
       leader_at EncodedEntry first log kv0 (i + Z.of_nat k) = replay (take k (map rc_Command cs)) kv.
Proof.
  intros (Hc & H1 & H2) Hok Hall Hkv Hi Hmax Hfi Hcs Hl. simpl in *. pose proof (len_nonneg log).
  destruct Hl as [->|Hat].
  { injection Hcs as <-. split; [done|]. split; [done|]. split; [change (len []) with 0; lia|]. split; [by eexists|].
    intros k Hk. simpl in Hk. replace (i + Z.of_nat k) with i by lia. by destruct k. }
  assert (length l <= length log)%nat as Hll.
  { destruct Hat as [_ [rest Hr]]. apply (f_equal length) in Hr. rewrite length_drop, length_app in Hr. lia. }
  assert (Forall (entry_ok EncodedEntry) l) as Hokl.
  { rewrite Forall_forall in *. intros e He. apply Hok. exact (at_in_log first log _ l e Hat He). }
  destruct (entries_commands EncodedEntry (i + 1) l cs) as (Hcc & Hco & Hlen); try done;
    [by apply (at_consec first log)|lia|unfold len in *; lia|].
  split; [done|]. split; [done|]. split; [unfold len in *; lia|]. split.
  - rewrite (replay_entries EncodedEntry l) by done. by eapply leader_piece.
  - intros k Hk. rewrite (leader_at_later EncodedEntry first log kv0 i l k kv) by (done || lia).
    rewrite firstn_map. symmetry. apply replay_entries.
    rewrite <- (take_drop k l) in Hcs. apply entriesToCommands_app in Hcs as (ca & cb & Ha & Hb & ->).
    rewrite Ha. f_equal. apply entriesToCommands_length in Ha. rewrite length_take_le in Ha by lia. by rewrite <- Ha, take_app_length.
Qed.

(** ** Claims *)

(** C9. The stream of [Replicate] is a piece of the log of the table, from the
    index asked for on, without gaps: messages with commands, each the command
    of its entry with the index of that entry, and at most one other message,
    at the end.  The loop ends by itself. *)
Theorem Replicate_serves_log EncodedEntry first log max req out msgs :
  slog_wf (first, log) -> (forall e, e ∈ log -> len (re_Cmd e) < 2 ^ 63) -> 0 <= rreq_LeaderIndex req ->
  exec (leader_handles first log) (Replicate EncodedEntry max req) [] out msgs ->
  out <> Err ErrOutOfFuel /\ stream_shape msgs
  /\ exists l, entriesToCommands EncodedEntry l = Ok (concat (map commands_of msgs))
     /\ (l = [] \/ at_index first log (rreq_LeaderIndex req) l).
Proof.
  intros (Hc & H1 & H2) Hsz H0 H. simpl in *.
  apply (Replicate_spec EncodedEntry first log Hc H1 H2 Hsz) in H as [(ms & -> & Hs & Hp) Hnf]; [|done].
  split; [exact Hnf|]. split; [exact Hs|exact Hp].
Qed.

(** C26. The table of the leader is its log: what the state machine of the
    leader represents after applying the proposals of a piece of the log is
    what [apply_log], against which replication is measured, computes. *)
Theorem leader_table {P : PebbleOps} {L : PebbleLaws P} {H : PebbleHealthy P} EncodedEntry p st l p' es :
  represents (db_view (fsm_pebble p)) st ->
  (forall e, e ∈ l -> is_uint64 (re_Index e) /\ (re_Type e = EncodedEntry -> re_Cmd e <> [])) ->
  Update p (payloads EncodedEntry l) = Ok (p', es) ->
  exists st', represents (db_view (fsm_pebble p')) st' /\ apply_log EncodedEntry l (t_kv st) = Ok (t_kv st').
Proof.
  intros Hst Hl Hu. assert (Forall (fun e => is_uint64 (e_Index e)) (payloads EncodedEntry l)) as Hidx.
  { apply Forall_forall. intros x (e & He & Hx)%list_elem_of_omap. case_decide; [|done]. injection Hx as <-. by apply Hl. }
  pose proof (Update_spec p st _ Hst Hidx) as Hspec. unfold spec_update in Hspec.
  destruct (collect spec_entry _ _) as [[[kv x] es1]| |] eqn:Hc; cbn [mbind res_bind] in Hspec; [|congruence..].
  destruct Hspec as (p1 & Hu1 & Hr & _). rewrite Hu in Hu1. injection Hu1 as <- _. eexists. split; [exact Hr|].
  eapply collect_payloads in Hc; [exact Hc|]. intros e He. by apply Hl.
Qed.

(** C2. A follower follows the leader.  If its table is the table that the
    leader had at the leader index it stores, then so it is after a round of
    replication, with a leader index that has not gone back: whether all of
    the stream of the leader arrived or it broke off, and whether proposals
    succeeded, failed, or were applied although their call failed.  When the
    round ends with the last message of the stream, everything that was sent
    has been applied. *)
Theorem replication_round {P : PebbleOps} {L : PebbleLaws P} {H : PebbleHealthy P}
    EncodedEntry first log kv0 kvl max table fuel shard s st out msgs r s' :
  slog_wf (first, log) -> Forall (entry_ok EncodedEntry) log -> apply_log EncodedEntry log kv0 = Ok kvl ->
  holds s st -> first - 1 <= t_leader st -> t_leader st + len log < 2 ^ 64 - 1 ->
  leader_at EncodedEntry first log kv0 (t_leader st) = Ok (t_kv st) ->
  exec (leader_handles first log) (Replicate EncodedEntry max (mkRRequest (uint64 (t_leader st + 1)) table)) [] out msgs ->
  f_stream s `prefix_of` msgs ->
  exec follower_handles (do table fuel (t_leader st) shard) s r s' ->
  exists st', holds s' st' /\ t_leader st <= t_leader st'
    /\ leader_at EncodedEntry first log kv0 (t_leader st') = Ok (t_kv st')
    /\ (ends_stream r -> t_leader st' = t_leader st + len (concat (map commands_of (f_stream s))))
    /\ ((length (f_stream s) < fuel)%nat -> r <> Err ErrOutOfFuel).
Proof.
  intros (Hc & H1 & H2) Hok Hall Hst Hge Hmax Hkv Hrep Hpre Hdo. simpl in *. pose proof (len_nonneg log).
  rewrite uint64_id in Hrep by (unfold is_uint64; lia).
  apply (Replicate_spec EncodedEntry first log Hc H1 H2) in Hrep as [(ms & -> & Hs & Hp) _]; simpl in *;
    [|rewrite Forall_forall in Hok; intros e He; by destruct (Hok e He)|lia].
  apply (shape_prefix _ _ Hs) in Hpre as Hsh. apply commands_prefix in Hpre.
  apply (piece_prefix EncodedEntry first log _ _ _ Hp) in Hpre as (l & Hcs & Hl).
  set (cs := concat (map commands_of (f_stream s))) in *. clear Hp Hs ms.
  destruct (piece_facts EncodedEntry first log kv0 kvl (t_leader st) (t_kv st) l cs) as (Hcc & Hco & Hcm & [kv1 Hkv1] & Hat);
    try done; try lia.
  destruct Hdo as (x & s1 & [-> Hnf] & Hdo).
  assert (forall e : res replicateResult, r = e -> s' = s -> ~ ends_stream e -> e <> Err ErrOutOfFuel ->
    exists st', holds s' st' /\ t_leader st <= t_leader st' /\ leader_at EncodedEntry first log kv0 (t_leader st') = Ok (t_kv st')
    /\ (ends_stream r -> t_leader st' = t_leader st + len cs) /\ ((length (f_stream s) < fuel)%nat -> r <> Err ErrOutOfFuel)) as Hfail.
  { intros e -> -> He Hf. by exists st. }
  destruct x as [[]|e|]; cbn [pbind] in Hdo; [|destruct Hdo as [<- <-]; eapply Hfail; try done; [by intros [?|?]|intros [= ->]; by apply Hnf]
    |destruct Hdo as [<- <-]; eapply Hfail; try done; by intros [?|?]].
  destruct (do_loop_spec fuel shard 0 (f_stream s) s st kv1 r s') as (k & st' & Hk & (Hst' & Hl' & Hr') & Hend & Hfu); try done; try lia.
  fold cs in Hk, Hr', Hend. exists st'. split; [done|]. split; [lia|]. split; [rewrite Hl', Hat by done; exact Hr'|].
  split; [|exact Hfu]. intros He. rewrite Hl', (Hend He). done.
Qed.

(** ** Witnesses *)

Definition ex_put : Command := mkCommand (str "t") Command_PUT (Some (mkKeyValue (str "a") 0 0 (str "v") [])) None [] None None false [] false [].
(** A log with a put and the entry of a new Raft leader. *)
Definition ex_log : list rentry := [mkREntry 1 1 2 (Byte.x00 :: Command_Marshal ex_put); mkREntry 2 2 0 []].
Definition ex_commands : list ReplicateCommand := res_get [] (entriesToCommands 2 ex_log).
Definition ex_msgs : list ReplicateResponse :=
  [mkRResponse 2 (Some (CommandsResponse ex_commands)); mkRResponse 2 None].

Lemma ex_log_wf : slog_wf (1, ex_log).
Proof. split; [simpl; tauto|]. unfold len. simpl. lia. Qed.

Lemma ex_entries : Forall (entry_ok 2) ex_log.
Proof.
  constructor; [|constructor; [|constructor]]; (split; [by vm_compute|]); [|done].
  intros _. exists Byte.x00, (Command_Marshal ex_put), ex_put. split; [done|]. split; [by vm_compute|]. split; [|by vm_compute].
  constructor; try done. intros k [= <-]. done.
Qed.

Lemma ex_stream :
  exec (leader_handles 1 ex_log) (Replicate 2 1000 (mkRRequest 1 (str "t"))) [] (Ok tt) ex_msgs.
Proof.
  exists (Ok (mkTable (str "t") 10001 0)), []. split; [done|]. cbn [pbind].
  exists (Ok 2), []. split; [by split|]. cbn -[entriesToCommands Replicate_loop]. change (Z.to_nat _) with 2%nat.
  cbn [Replicate_loop].
  exists false, []. split; [done|]. cbn [pbind perform].
  exists (Ok ex_log), []. split; [split; [done|]; split; [done|]; right; split; [done|]; split; [split; [done|]|]; done|].
  change (last ex_log) with (Some (mkREntry 2 2 0 [])). cbv iota beta.
  eapply exec_M_ok; [split; [by instantiate (1 := ex_commands); vm_compute|reflexivity]|].
  eapply exec_M_ok; [apply exec_call; by left|].
  exists false. eexists. split; [done|]. cbn [pbind perform]. exists (Ok []). eexists. split; [split; [done|]; split; [done|by left]|].
  eapply exec_M_ok; [apply exec_call; by instantiate (2 := 2)|]. apply exec_call. by left.
Qed.

Lemma Replicate_serves_log_witness :
  exec (leader_handles 1 ex_log) (Replicate 2 1000 (mkRRequest 1 (str "t"))) [] (Ok tt) ex_msgs /\ stream_shape ex_msgs.
Proof.
  split; [exact ex_stream|].
  apply (Replicate_serves_log 2 1 ex_log 1000 (mkRRequest 1 (str "t")) (Ok tt) ex_msgs ex_log_wf); [|simpl; lia|exact ex_stream].
  intros e He. pose proof ex_entries as Hok. rewrite Forall_forall in Hok. apply (Hok e He).
Defined.

(** The proposal of the follower and its state after it. *)
Definition ex_proposal : bytes := Command_Marshal (sequence_command (map rc_Command ex_commands) 2).
Definition ex_follower : fstate (P := mem_pebble) := mkF ex_msgs empty_fsm 0.
Definition ex_follower_after : FSM (P := mem_pebble) := (res_get (empty_fsm, []) (Update empty_fsm [mkEntry 1 ex_proposal 0 []])).1.

Lemma ex_applied : exists es, Update empty_fsm [mkEntry 1 ex_proposal 0 []] = Ok (ex_follower_after, es).
Proof.
  unfold ex_follower_after. assert (succeeds (Update empty_fsm [mkEntry 1 ex_proposal 0 []]) = true) as Hs by (vm_compute; reflexivity).
  destruct (Update empty_fsm _) as [[p es]| |]; [|discriminate Hs..]. exists es. reflexivity.
Qed.

Lemma ex_propose : exec follower_handles (proposeBatch 10001 ex_commands) (mkF [mkRResponse 2 None] empty_fsm 0) (Ok 2)
  (mkF [mkRResponse 2 None] ex_follower_after 1).
Proof.
  assert (ex_commands = [mkRCommand 1 (set_LeaderIndex ex_put 1); mkRCommand 2 (set_LeaderIndex Command_dummy 2)]) as E by (by vm_compute).
  unfold proposeBatch. rewrite E. cbn [proposeBatch_go]. replace (_ || _) with false by (vm_compute; reflexivity).
  replace (_ || _) with true by (vm_compute; reflexivity).
  eapply exec_M_ok; [split; [instantiate (1 := ex_proposal); vm_compute; reflexivity|reflexivity]|].
  eapply exec_M_ok; [|split; reflexivity]. apply exec_call. left. destruct ex_applied as [es Hes].
  exists 1, ex_follower_after, es. split; [reflexivity|]. split; [unfold is_uint64; lia|]. split; [exact Hes|].
  split; [reflexivity|left; reflexivity].
Qed.

Lemma ex_round :
  exec follower_handles (do (str "t") 5 0 10001) ex_follower (Ok resultFollowerTailing) (mkF [] ex_follower_after 1).
Proof.
  exists (Ok tt), ex_follower. split; [done|]. cbn [pbind perform].
  apply (exec_M_ok _ _ _ _ (Some (mkRResponse 2 (Some (CommandsResponse ex_commands)))) (mkF [mkRResponse 2 None] empty_fsm 0)).
  { apply exec_call. left. by eexists. }
  cbn [rr_Response].
  eapply (exec_M_ok _ _ _ _ 2 (mkF [mkRResponse 2 None] ex_follower_after 1)).
  { exact ex_propose. }
  apply (exec_M_ok _ _ _ _ (Some (mkRResponse 2 None)) (mkF [] ex_follower_after 1)).
  { apply exec_call. left. by eexists. }
  by split.
Qed.

Lemma ex_apply : apply_log 2 ex_log ∅ = Ok {[str "a" := str "v"]}.
Proof. apply (bool_decide_unpack _). vm_compute. exact I. Qed.

Lemma replication_round_witness :
  exec follower_handles (do (str "t") 5 0 10001) ex_follower (Ok resultFollowerTailing) (mkF [] ex_follower_after 1)
  /\ exists st', holds (L := mem_pebble_laws) (mkF [] ex_follower_after 1) st' /\ t_leader st' = 2
     /\ leader_at 2 1 ex_log ∅ (t_leader st') = Ok (t_kv st').
Proof.
  split; [exact ex_round|].
  destruct (replication_round (L := mem_pebble_laws) (H := mem_pebble_healthy) 2 1 ex_log ∅ {[str "a" := str "v"]} 1000 (str "t") 5 10001
    ex_follower empty_state (Ok tt) ex_msgs (Ok resultFollowerTailing) (mkF [] ex_follower_after 1)
    ex_log_wf ex_entries) as (st' & Hst & _ & Hkv & Hend & _);
    [exact ex_apply|exact empty_represents|simpl; lia|simpl; unfold len; simpl; lia|reflexivity|exact ex_stream|reflexivity|exact ex_round|].
  exists st'. split; [exact Hst|]. split; [|exact Hkv]. rewrite Hend by (by right). by vm_compute.
Defined.

Lemma leader_table_witness :
  exists p' es st', Update empty_fsm (payloads 2 ex_log) = Ok (p', es)
    /\ represents (db_view (PebbleLaws := mem_pebble_laws) (fsm_pebble p')) st' /\ apply_log 2 ex_log ∅ = Ok (t_kv st').
Proof.
  assert (succeeds (Update empty_fsm (payloads 2 ex_log)) = true) as Hs by (vm_compute; reflexivity).
  destruct (Update empty_fsm (payloads 2 ex_log)) as [[p' es]| |] eqn:Hu; [|discriminate Hs..]. exists p', es.
  destruct (leader_table (L := mem_pebble_laws) (H := mem_pebble_healthy) 2 empty_fsm empty_state ex_log p' es empty_represents)
    as (st' & ? & ?); [|exact Hu|exists st'; split; [reflexivity|split; assumption]].
  intros e He. apply elem_of_cons in He as [->|He]; [split; [unfold is_uint64; simpl; lia|done]|].
  apply list_elem_of_singleton in He as ->. split; [unfold is_uint64; simpl; lia|done].
Defined.
