(* ===== verification/ReplicationManager.v ===== *)
(** * The replication workers of a follower and the snapshot stream

    When the manager of the workers gets its workers in line with the tables,
    and that what the leader sends of a snapshot file is what the follower
    saves. *)

From S2P Require Import Prelude GoStd Effects Chunks Table Replication.

Open Scope prog_scope.

(** ** The registry and its lock *)

Record rmstate := mkRM { rm_registry : gset bytes; rm_readers : nat; rm_writer : bool }.

(** A goroutine that asks for a lock goes on when it can have it: a reader
    when there is no writer, a writer when there is nobody. *)
Definition rm_handles (tables : list TableInfo) (s : rmstate) X (e : rm_ev X) : X -> rmstate -> Prop :=
  match e with
  | RMGetTables => fun x s' => s' = s /\ (x = Ok tables \/ exists c, x = Err (ErrExternal c))
  | RMRLock => fun _ s' => rm_writer s = false /\ s' = mkRM (rm_registry s) (S (rm_readers s)) false
  | RMRUnlock => fun _ s' => exists n, rm_readers s = S n /\ s' = mkRM (rm_registry s) n (rm_writer s)
  | RMLock => fun _ s' => rm_writer s = false /\ rm_readers s = 0%nat /\ s' = mkRM (rm_registry s) 0 true
  | RMUnlock => fun _ s' => rm_writer s = true /\ s' = mkRM (rm_registry s) (rm_readers s) false
  | RMNames => fun x s' => s' = s /\ x ≡ₚ elements (rm_registry s)
  | RMHas name => fun x s' => s' = s /\ x = bool_decide (name ∈ rm_registry s)
  | RMAdd name => fun _ s' => s' = mkRM ({[name]} ∪ rm_registry s) (rm_readers s) (rm_writer s)
  | RMRemove name => fun _ s' => s' = mkRM (rm_registry s ∖ {[name]}) (rm_readers s) (rm_writer s)
  | _ => fun _ s' => s' = s
  end.

Definition table_names (tables : list TableInfo) : gset bytes := list_to_set (map tbl_Name tables).

Section Registry.
Context (tables : list TableInfo).

Lemma hasWorker_spec name reg out s' :
  exec (rm_handles tables) (hasWorker name) (mkRM reg 0 false) out s' <->
  out = bool_decide (name ∈ reg) /\ s' = mkRM reg 0 false.
Proof.
  split.
  - intros (x1 & s1 & [_ ->] & x2 & s2 & [-> ->] & x3 & s3 & (n & [= <-] & ->) & <- & <-). done.
  - intros [-> ->]. exists tt, (mkRM reg 1 false). split; [done|]. exists (bool_decide (name ∈ reg)), (mkRM reg 1 false). split; [done|].
    exists tt, (mkRM reg 0 false). split; [by exists 0%nat|done].
Qed.

Lemma startWorker_spec name reg out s' :
  exec (rm_handles tables) (startWorker name) (mkRM reg 0 false) out s' <-> s' = mkRM ({[name]} ∪ reg) 0 false.
Proof.
  split.
  - intros (x1 & s1 & (_ & _ & ->) & x2 & s2 & -> & x3 & s3 & -> & x4 & s4 & [_ ->] & _ & <-). done.
  - intros ->. exists tt, (mkRM reg 0 true). split; [done|]. exists tt, (mkRM ({[name]} ∪ reg) 0 true). split; [done|].
    exists tt, (mkRM ({[name]} ∪ reg) 0 true). split; [done|]. exists tt, (mkRM ({[name]} ∪ reg) 0 false). split; [done|].
    by destruct out.
Qed.

(** With a reader inside, a worker is never stopped. *)
Lemma stopWorker_blocks name reg n out s' : ~ exec (rm_handles tables) (stopWorker name) (mkRM reg (S n) false) out s'.
Proof. by intros (x & s & (_ & Hr & _) & _). Qed.

Lemma startWorkers_spec tbs reg out s' :
  exec (rm_handles tables) (startWorkers tbs) (mkRM reg 0 false) out s' <-> s' = mkRM (table_names tbs ∪ reg) 0 false.
Proof.
  unfold table_names. revert reg. induction tbs as [|t tbs IH]; intros reg; cbn [startWorkers map list_to_set].
  - rewrite (left_id_L ∅ (∪)). split; [by intros [_ <-]|intros ->; by destruct out].
  - split.
    + intros (b & s1 & [-> ->]%hasWorker_spec & ([] & s2 & H2 & H3)%exec_bind)%exec_bind.
      assert (s2 = mkRM ({[tbl_Name t]} ∪ reg) 0 false) as ->.
      { case_bool_decide as Hb; [|by apply startWorker_spec in H2]. destruct H2 as [_ <-].
        by rewrite (subseteq_union_1_L {[tbl_Name t]} reg) by (by apply singleton_subseteq_l). }
      apply IH in H3 as ->. f_equal. by rewrite !(assoc_L (∪)), (comm_L (∪) {[tbl_Name t]}).
    + intros ->. apply exec_bind. exists (bool_decide (tbl_Name t ∈ reg)), (mkRM reg 0 false). split; [by apply hasWorker_spec|].
      apply exec_bind. exists tt, (mkRM ({[tbl_Name t]} ∪ reg) 0 false). split.
      * case_bool_decide as Hb; [|by apply startWorker_spec]. split; [done|].
        by rewrite (subseteq_union_1_L {[tbl_Name t]} reg) by (by apply singleton_subseteq_l).
      * apply IH. f_equal. by rewrite !(assoc_L (∪)), (comm_L (∪) {[tbl_Name t]}).
Qed.

(** With a reader inside, the second loop ends only if there is nothing to
    stop. *)
Lemma stopWorkers_spec tbs names reg n out s' :
  exec (rm_handles tables) (stopWorkers tbs names) (mkRM reg (S n) false) out s' <->
  (forall name, name ∈ names -> name ∈ map tbl_Name tbs) /\ s' = mkRM reg (S n) false.
Proof.
  induction names as [|name names IH]; cbn [stopWorkers].
  - split; [intros [_ <-]; split; [by intros name ?%not_elem_of_nil|done]|]. intros [_ ->]. by destruct out.
  - split.
    + intros ([] & s1 & H1 & H2)%exec_bind. case_decide as Hd; [|by apply stopWorker_blocks in H1].
      destruct H1 as [_ <-]. apply IH in H2 as [Hn ->]. split; [|done]. by intros x [->|Hx]%elem_of_cons; [|apply Hn].
    + intros [Hn ->]. apply exec_bind. exists tt, (mkRM reg (S n) false). rewrite decide_True by (apply Hn, list_elem_of_here).
      split; [done|]. apply IH. split; [|done]. intros x Hx. by apply Hn, list_elem_of_further.
Qed.

Lemma reconcileWorkers_run reg s' :
  exec (rm_handles tables) reconcileWorkers (mkRM reg 0 false) (Ok tt) s' <->
  reg ⊆ table_names tables /\ s' = mkRM (table_names tables) 0 false.
Proof.
  unfold reconcileWorkers. split.
  - intros (x & s1 & (-> & Hx)%exec_perform & H)%exec_M_call. destruct Hx as [->|[c ->]]; [|by destruct H].
    apply exec_bind in H as ([] & s1 & ->%startWorkers_spec & H). destruct H as ([] & s1 & [_ ->] & H).
    destruct H as (names & s1 & [-> Hnames] & H). cbn [pbind perform] in H. apply exec_bind in H as ([] & s1 & [Hn ->]%stopWorkers_spec & H).
    destruct H as ([] & s1 & (n & [= <-] & ->) & _ & <-). simpl in *.
    assert (forall x, x ∈ table_names tables ∪ reg -> x ∈ table_names tables) as Hsub.
    { intros x Hx. apply elem_of_list_to_set, Hn. rewrite Hnames. by apply elem_of_elements. }
    split; [intros x Hx; apply Hsub, elem_of_union; by right|].
    f_equal. apply set_eq. intros x. split; [apply Hsub|]. intros Hx. apply elem_of_union. by left.
  - intros [Hsub ->]. eapply exec_M_ok; [apply exec_call; by split; [|left]|].
    apply exec_bind. eexists tt, _. split; [by apply startWorkers_spec|].
    rewrite (comm_L (∪) _ reg), (subseteq_union_1_L reg _ Hsub).
    exists tt, (mkRM (table_names tables) 1 false). split; [done|]. cbn [pbind perform].
    exists (elements (table_names tables)), (mkRM (table_names tables) 1 false). split; [by split|].
    apply exec_bind. exists tt, (mkRM (table_names tables) 1 false). split.
    + apply stopWorkers_spec. split; [|done]. intros x Hx%elem_of_elements. by apply elem_of_list_to_set in Hx.
    + exists tt, (mkRM (table_names tables) 0 false). split; [by exists 0%nat|done].
Qed.
End Registry.

(** ** Snapshot streams *)

(** The file that is left to read, and the chunks that have been sent. *)
Record sstate := mkS { s_file : bytes; s_sent : list SnapshotChunk }.

(** Reading and sending may fail. *)
Definition sender_handles (s : sstate) X (e : leader_ev X) : X -> sstate -> Prop :=
  match e with
  | LFileRead max => fun x s' => reads (fun _ _ => True) true s_file max s x s' /\ s_sent s' = s_sent s
  | LSendChunk ck => fun x s' =>
      (x = Ok tt /\ s' = mkS (s_file s) (s_sent s ++ [ck])) \/ (s' = s /\ exists c, x = Err (ErrExternal c))
  | _ => fun _ s' => s' = s
  end.

Lemma leader_copy_spec ew fuel s out s' :
  exec sender_handles (leader_copy ew fuel) s out s' ->
  (forall n, out = Ok n -> chunk_data (s_sent s') = chunk_data (s_sent s) ++ s_file s)
  /\ (Forall chunk_ok (s_sent s) -> Forall chunk_ok (s_sent s'))
  /\ ((length (s_file s) < fuel)%nat -> out <> Err ErrOutOfFuel).
Proof.
  assert (PreOrder (fun _ _ : sstate => True)) as Hpre by (split; done).
  intros H. eapply (Writer_ReadFrom_spec sender_handles (fun _ _ => True) true _ _ s_file s_sent) in H as (_ & H1 & H2 & H3).
  - split_and!; [done..|]. intros Hf. destruct H3 as [[n ->]|[(e & (_ & c & ->) & ->)|[_ ?]]]; [done|done|lia].
  - intros max s0 x s1 Hx%exec_perform. exact Hx.
  - intros c s0 x s1 Hx%exec_perform. split; [done|]. unfold failed. destruct Hx as [[-> ->]|[-> [e ->]]]; eauto 10.
Qed.

(** The chunks that are to come, what has been saved, and what the table was
    restored from. *)
Record rstate := mkR { r_chunks : list SnapshotChunk; r_saved : bytes; r_restored : option bytes }.

(** The stream ends with [io.EOF] when the leader has returned without an
    error and all chunks have arrived. *)
Definition recover_handles (complete : bool) (s : rstate) X (e : worker_ev X) : X -> rstate -> Prop :=
  match e with
  | WRecvChunk => fun x s' =>
      (exists c, r_chunks s = c :: r_chunks s' /\ r_saved s' = r_saved s /\ r_restored s' = r_restored s /\ x = Ok (Some c))
      \/ (complete = true /\ r_chunks s = [] /\ s' = s /\ x = Ok None)
      \/ (s' = s /\ exists c, x = Err (ErrExternal c))
  | WFileWrite d => fun x s' =>
      (x = Ok tt /\ s' = mkR (r_chunks s) (r_saved s ++ d) (r_restored s))
      \/ (r_chunks s' = r_chunks s /\ r_restored s' = r_restored s /\ exists c, x = Err (ErrExternal c))
  | WRestore _ => fun x s' =>
      s' = mkR (r_chunks s) (r_saved s) (Some (r_saved s)) /\ (x = Ok tt \/ exists c, x = Err (ErrExternal c))
  | WStream _ => fun x s' => s' = s /\ (x = Ok tt \/ exists c, x = Err (ErrExternal c))
  | WTempFile => fun x s' => s' = s /\ (x = Ok tt \/ exists c, x = Err (ErrExternal c))
  | WFileSync => fun x s' => s' = s /\ (x = Ok tt \/ exists c, x = Err (ErrExternal c))
  | WFileSeek => fun x s' => s' = s /\ (x = Ok tt \/ exists c, x = Err (ErrExternal c))
  | _ => fun _ s' => s' = s
  end.

Lemma worker_copy_spec complete fuel s out s' :
  exec (recover_handles complete) (worker_copy fuel) s out s' ->
  r_restored s' = r_restored s
  /\ (forall m, out = Ok m -> complete = true /\ r_saved s' = r_saved s ++ chunk_data (r_chunks s))
  /\ ((length (r_chunks s) < fuel)%nat -> out <> Err ErrOutOfFuel).
Proof.
  set (same := fun a b : rstate => r_restored b = r_restored a).
  assert (PreOrder same) as Hpre by (split; [by intros a|intros a b c Hab Hbc; unfold same in *; congruence]).
  intros H. eapply (Reader_WriteTo_spec _ same true _ _ r_chunks r_saved (fun _ => complete)) in H as (H1 & H2 & H3).
  - split_and!; [done..|]. intros Hf.
    destruct H3 as [[n ->]|[(e & [(_ & c & ->)|(_ & c & ->)] & ->)|[_ ?]]]; [done|done|done|lia].
  - intros s0 x s1 Hx%exec_perform. unfold same, failed.
    destruct Hx as [(c & ? & ? & ? & ->)|[(-> & ? & -> & ->)|(-> & c & ->)]]; split_and!; eauto 10.
  - intros d s0 x s1 Hx%exec_perform. unfold same, failed.
    destruct Hx as [[-> ->]|(? & ? & c & ->)]; split_and!; eauto 10.
Qed.

(** ** Claims *)

(** C34. [reconcileWorkers] brings the workers in line with the tables exactly
    when no worker has to be stopped: it starts the missing ones, but with a
    worker whose table is gone it never returns, because it waits for the
    write lock while it holds the read lock itself. *)
Theorem reconcileWorkers_returns tables reg :
  (exists s', exec (rm_handles tables) reconcileWorkers (mkRM reg 0 false) (Ok tt) s') <-> reg ⊆ table_names tables.
Proof.
  split; [by intros [s' [Hs _]%reconcileWorkers_run]|]. intros Hs. eexists. apply reconcileWorkers_run. by split.
Qed.

(** C30. A table is restored from the snapshot of the leader or not at all.
    The leader sends the file in chunks of at most a megabyte, however its
    reads cut it; the follower restores only from the whole file, byte for
    byte, and if the stream, the file or the leader fails it does not start
    to restore. *)
Theorem snapshot_transfer file table ew f1 f2 out sent r s' :
  exec sender_handles (leader_copy ew f1) (mkS file []) out sent ->
  exec (recover_handles (succeeds out)) (recover table f2) (mkR (s_sent sent) [] None) r s' ->
  Forall chunk_ok (s_sent sent)
  /\ (r_restored s' = None \/ r_restored s' = Some file) /\ (r = Ok tt -> r_restored s' = Some file)
  /\ ((length file < f1)%nat -> out <> Err ErrOutOfFuel) /\ ((length (s_sent sent) < f2)%nat -> r <> Err ErrOutOfFuel).
Proof.
  intros (Hall & Hck & Hf1)%leader_copy_spec Hrec. cbn [s_file s_sent] in *. split; [by apply Hck|].
  assert ((r_restored s' = None \/ r_restored s' = Some file) /\ (r = Ok tt -> r_restored s' = Some file)
    /\ ((length (s_sent sent) < f2)%nat -> r <> Err ErrOutOfFuel)) as (? & ? & ?); [|done].
  unfold recover in Hrec.
  do 2 (apply exec_M_call in Hrec as (x & s1 & [-> [->|[c ->]]]%exec_perform & Hrec);
    [|destruct Hrec as [-> ->]; split; [by left|done]]).
  apply exec_M_call in Hrec as (x & s1 & Hw & Hrec). apply worker_copy_spec in Hw as (Hr & Hsv & Hfu). cbn [r_chunks r_saved r_restored] in *.
  destruct x as [m|e|]; [|destruct Hrec as [-> ->]; split; [by left|]; split; [done|]; intros Hl [= ->]; by apply Hfu
    |destruct Hrec as [-> ->]; split; [by left|done]].
  destruct (Hsv m eq_refl) as [Hok Hsaved]. simpl in Hsaved.
  assert (r_saved s1 = file) as Hfile.
  { destruct out as [n| |]; [|done|done]. by rewrite Hsaved, (Hall n eq_refl). }
  do 2 (apply exec_M_call in Hrec as (x & s2 & [-> [->|[c ->]]]%exec_perform & Hrec);
    [|destruct Hrec as [-> ->]; rewrite Hr; split; [by left|done]]).
  apply exec_perform in Hrec as [-> [->|[c ->]]]; simpl; rewrite Hfile; (split; [by right|done]).
Qed.

(** ** Witnesses *)

Definition ex_chunk : SnapshotChunk := mkChunk (str "abc") 3.

Lemma ex_send : exec sender_handles (leader_copy false 5) (mkS (str "abc") []) (Ok 3) (mkS [] [ex_chunk]).
Proof.
  exists (str "abc", None), (mkS [] []). split; [split; [split; [done|left; by exists (str "abc")]|done]|]. cbn -[Writer_ReadFrom].
  exists (Ok tt), (mkS [] [ex_chunk]). split; [by left|]. cbn -[len].
  exists ([], Some ErrEOF), (mkS [] [ex_chunk]). split; [split; [split; [done|right; by left]|done]|]. done.
Qed.

Lemma ex_recover :
  exec (recover_handles true) (recover (str "t") 5) (mkR [ex_chunk] [] None) (Ok tt) (mkR [] (str "abc") (Some (str "abc"))).
Proof.
  eapply exec_M_ok; [apply exec_call; split; [done|by left]|]. eapply exec_M_ok; [apply exec_call; split; [done|by left]|].
  eapply (exec_M_ok _ _ _ _ 3 (mkR [] (str "abc") None)).
  { eapply (exec_M_ok _ _ _ _ (Some ex_chunk) (mkR [] [] None)); [apply exec_call; left; by exists ex_chunk|].
    eapply exec_M_ok; [apply exec_call; by left|]. eapply exec_M_ok; [apply exec_call; right; by left|done]. }
  eapply exec_M_ok; [apply exec_call; split; [done|by left]|]. eapply exec_M_ok; [apply exec_call; split; [done|by left]|].
  apply exec_call. split; [done|by left].
Qed.

Lemma snapshot_transfer_witness :
  exec (recover_handles true) (recover (str "t") 5) (mkR [ex_chunk] [] None) (Ok tt) (mkR [] (str "abc") (Some (str "abc")))
  /\ r_restored (mkR [] (str "abc") (Some (str "abc"))) = Some (str "abc").
Proof.
  split; [exact ex_recover|].
  destruct (snapshot_transfer (str "abc") (str "t") false 5 5 (Ok 3) _ (Ok tt) _ ex_send ex_recover) as (_ & _ & Hr & _).
  by apply Hr.
Defined.
