(* ===== verification/View.v ===== *)
(** * The view of the cluster ([storage/cluster/view.go])

    Every node collects what it hears of the shards: their members and their
    last known leader.  Updates come by gossip, in any order, late and more
    than once. *)

From S2P Require Import Prelude.

Definition noLeader : Z := 0.

(** [dragonboat.ShardView]; the members by replica id. *)
Record ShardView := mkShard {
  sv_ShardID : Z;
  sv_Nodes : gmap Z bytes;
  sv_ConfigChangeIndex : Z;
  sv_LeaderID : Z;
  sv_Term : Z
}.

#[export] Instance ShardView_eq_dec : EqDecision ShardView.
Proof. solve_decision. Defined.

(** [dragonboat.ShardInfo], the fields that are used. *)
Record ShardInfo := mkInfo {
  si_ShardID : Z; si_Nodes : gmap Z bytes; si_ConfigChangeIndex : Z; si_LeaderID : Z; si_Term : Z
}.

(** The map of [shardView]. *)
Abbreviation shardView := (gmap Z ShardView).
Definition newView : shardView := ∅.

Definition mergeShardInfo (current update : ShardView) : ShardView :=
  let current := if sv_ConfigChangeIndex current <? sv_ConfigChangeIndex update
                 then mkShard (sv_ShardID current) (sv_Nodes update) (sv_ConfigChangeIndex update) (sv_LeaderID current) (sv_Term current)
                 else current in
  if negb (sv_LeaderID update =? noLeader) && ((sv_LeaderID current =? noLeader) || (sv_Term current <? sv_Term update))
  then mkShard (sv_ShardID current) (sv_Nodes current) (sv_ConfigChangeIndex current) (sv_LeaderID update) (sv_Term update)
  else current.

Definition toShardViewList (input : list ShardInfo) : list ShardView :=
  map (fun ci => mkShard (si_ShardID ci) (si_Nodes ci) (si_ConfigChangeIndex ci) (si_LeaderID ci) (si_Term ci)) input.

Definition empty_shard (id : Z) : ShardView := mkShard id ∅ 0 0 0.

Definition update_one (v : shardView) (u : ShardView) : shardView :=
  let current := default (empty_shard (sv_ShardID u)) (v !! sv_ShardID u) in
  <[sv_ShardID u := mergeShardInfo current u]> v.
Definition update (v : shardView) (updates : list ShardView) : shardView := foldl update_one v updates.

(** [copy]: every shard, in the order that [rand.Shuffle] leaves. *)
Definition copy (shuffle : list ShardView -> list ShardView) (v : shardView) : list ShardView :=
  shuffle (map_to_list v).*2.
(** [shardInfo]; the zero value for an unknown shard. *)
Definition shardInfo (v : shardView) (id : Z) : ShardView := default (empty_shard 0) (v !! id).

Lemma update_app v us ws : update v (us ++ ws) = update (update v us) ws.
Proof. apply foldl_app. Qed.

(** ** What a view is after updates *)

(** The updates of one shard. *)
Definition about (id : Z) (us : list ShardView) : list ShardView := filter (fun u => sv_ShardID u = id) us.
Definition merged (id : Z) (us : list ShardView) : ShardView := foldl mergeShardInfo (empty_shard id) (about id us).

Lemma lookup_update us id :
  update newView us !! id = if decide (about id us = []) then None else Some (merged id us).
Proof.
  unfold update, merged, about. induction us as [|u us IH] using rev_ind; [done|].
  rewrite foldl_app, filter_app. cbn [foldl]. unfold update_one at 1. destruct (decide (sv_ShardID u = id)) as [E|E].
  - rewrite (filter_cons_True _ u) by done. rewrite filter_nil, foldl_app. cbn [foldl]. subst id. rewrite lookup_insert_eq.
    rewrite decide_False by (intros H; by apply app_eq_nil in H as [_ ?]). rewrite IH. case_decide as Hd; [|done]. by rewrite Hd.
  - rewrite (filter_cons_False _ u), filter_nil, app_nil_r by done. by rewrite lookup_insert_ne.
Qed.

(** ** Updates that come from one cluster *)

Section Truth.
(** The members by the index of the change that made them so, and the leader
    of a term, for every shard: Raft has one of each. *)
Context (members : Z -> Z -> gmap Z bytes) (leader : Z -> Z -> Z).

Definition consistent (u : ShardView) : Prop :=
  0 <= sv_ConfigChangeIndex u
  /\ (0 < sv_ConfigChangeIndex u -> sv_Nodes u = members (sv_ShardID u) (sv_ConfigChangeIndex u))
  /\ (sv_LeaderID u <> noLeader -> 0 < sv_Term u /\ sv_LeaderID u = leader (sv_ShardID u) (sv_Term u)).

(** The term whose leader an update names. *)
Definition led (u : ShardView) : Z := if sv_LeaderID u =? noLeader then 0 else sv_Term u.

(** What is known of the shard [id] when the latest change heard of is
    [change] and the latest term with a leader [term]. *)
Definition known (id change term : Z) : ShardView :=
  mkShard id (if change =? 0 then ∅ else members id change) change (if term =? 0 then noLeader else leader id term) term.
Definition terms_led (id term : Z) : Prop := 0 < term -> leader id term <> noLeader.

Lemma led_spec u : consistent u -> 0 <= led u /\ terms_led (sv_ShardID u) (led u).
Proof.
  intros (_ & _ & Hl). unfold led, terms_led. destruct (Z.eqb_spec (sv_LeaderID u) noLeader) as [E|E]; [lia|].
  destruct (Hl E) as [? <-]. split; [lia|done].
Qed.

Lemma merge_known id change term u :
  sv_ShardID u = id -> consistent u -> 0 <= change -> 0 <= term -> terms_led id term ->
  mergeShardInfo (known id change term) u = known id (Z.max change (sv_ConfigChangeIndex u)) (Z.max term (led u)).
Proof.
  intros <- (Hc & Hn & Hl) H1 H2 H3. unfold mergeShardInfo, led. cbn [known sv_ConfigChangeIndex].
  set (id := sv_ShardID u) in *. assert (Hid : forall c t, sv_ShardID (known id c t) = id) by done.
  assert (Hcfg : (if change <? sv_ConfigChangeIndex u
                  then mkShard (sv_ShardID (known id change term)) (sv_Nodes u) (sv_ConfigChangeIndex u) (sv_LeaderID (known id change term)) (sv_Term (known id change term))
                  else known id change term) = known id (Z.max change (sv_ConfigChangeIndex u)) term).
  { destruct (Z.ltb_spec change (sv_ConfigChangeIndex u)); [|by rewrite Z.max_l by lia].
    rewrite Z.max_r by lia. rewrite Hn by lia. unfold known. cbn. by rewrite (proj2 (Z.eqb_neq (sv_ConfigChangeIndex u) 0)) by lia. }
  rewrite Hcfg. cbn [known sv_LeaderID sv_Term sv_Nodes sv_ConfigChangeIndex sv_ShardID].
  destruct (Z.eqb_spec (sv_LeaderID u) noLeader) as [E|E]; cbn [negb andb]; [by rewrite (Z.max_l term) by lia|].
  destruct (Hl E) as [Ht Hlead]. destruct (Z.eqb_spec term 0) as [->|Hz].
  - rewrite Z.eqb_refl. cbn [orb]. rewrite (Z.max_r 0) by lia. unfold known. by rewrite (proj2 (Z.eqb_neq (sv_Term u) 0)), <- Hlead by lia.
  - rewrite (proj2 (Z.eqb_neq _ _) (H3 ltac:(lia))). cbn [orb]. destruct (Z.ltb_spec term (sv_Term u)); [|by rewrite (Z.max_l term) by lia].
    rewrite (Z.max_r term) by lia. unfold known. by rewrite (proj2 (Z.eqb_neq (sv_Term u) 0)), <- Hlead by lia.
Qed.

(** The latest change and the latest term with a leader among updates. *)
Definition max_change (us : list ShardView) : Z := foldr Z.max 0 (map sv_ConfigChangeIndex us).
Definition max_term (us : list ShardView) : Z := foldr Z.max 0 (map led us).

Lemma foldr_max_snoc (l : list Z) x : 0 <= x -> foldr Z.max 0 (l ++ [x]) = Z.max (foldr Z.max 0 l) x.
Proof. intros Hx. induction l as [|y l IH]; cbn; [lia|]. rewrite IH. lia. Qed.

Lemma foldr_max_in (l : list Z) : foldr Z.max 0 l = 0 \/ foldr Z.max 0 l ∈ l.
Proof.
  induction l as [|y l IH]; [by left|]. cbn. destruct (Z.max_spec y (foldr Z.max 0 l)) as [[? ->]|[? ->]].
  - destruct IH as [IH|IH]; [by left|right; by constructor].
  - right. constructor.
Qed.

Lemma foldr_max_le (l : list Z) x : x ∈ l -> x <= foldr Z.max 0 l.
Proof. induction 1; cbn; lia. Qed.

(** The maximum depends on which numbers occur, not on their order or count. *)
Lemma foldr_max_sub (l l' : list Z) : (forall x, x ∈ l -> x ∈ l') -> foldr Z.max 0 l <= foldr Z.max 0 l'.
Proof.
  intros H. destruct (foldr_max_in l) as [->|Hin].
  - clear H. induction l'; cbn; lia.
  - apply foldr_max_le, H, Hin.
Qed.

Lemma merged_known id us :
  Forall consistent us ->
  merged id us = known id (max_change (about id us)) (max_term (about id us))
  /\ terms_led id (max_term (about id us)) /\ 0 <= max_change (about id us) /\ 0 <= max_term (about id us).
Proof.
  intros Hall. unfold merged. assert (Ha : Forall (fun u => consistent u /\ sv_ShardID u = id) (about id us)).
  { apply Forall_forall. intros u [Hid Hin]%list_elem_of_filter. split; [|done]. by eapply Forall_forall in Hall. }
  revert Ha. generalize (about id us). clear us Hall. intros us. induction us as [|u us IH] using rev_ind; intros Ha.
  { repeat split; [|done|done]. unfold terms_led, max_term. cbn. lia. }
  apply Forall_app in Ha as [Ha [[Hu Hid] _]%Forall_cons]. destruct (IH Ha) as (E & Ht & Hc & Htt).
  destruct (led_spec u Hu) as [Hl0 Hl]. rewrite Hid in Hl. pose proof Hu as (Hc0 & _).
  unfold max_change, max_term in *. rewrite foldl_app, !map_app. cbn [map foldl]. rewrite !foldr_max_snoc, E by lia.
  split_and!; [by apply merge_known| |lia|lia].
  destruct (Z.max_spec (foldr Z.max 0 (map led us)) (led u)) as [[? ->]|[? ->]]; done.
Qed.

(** Views are equal when the updates say the same. *)
Lemma update_ext us vs :
  Forall consistent us -> Forall consistent vs ->
  (forall id, about id us = [] <-> about id vs = []) ->
  (forall id, max_change (about id us) = max_change (about id vs)) ->
  (forall id, max_term (about id us) = max_term (about id vs)) ->
  update newView us = update newView vs.
Proof.
  intros Hu Hv Hn Hc Ht. apply map_eq. intros id. rewrite !lookup_update.
  destruct (merged_known id us Hu) as [-> _], (merged_known id vs Hv) as [-> _]. rewrite Hc, Ht.
  specialize (Hn id). repeat case_decide; tauto.
Qed.

Lemma about_same us vs : (forall u, u ∈ us <-> u ∈ vs) -> forall id u, u ∈ about id us <-> u ∈ about id vs.
Proof. intros H id u. unfold about. rewrite !list_elem_of_filter, H. done. Qed.

Lemma map_same {A} (f : ShardView -> A) us vs :
  (forall u, u ∈ us <-> u ∈ vs) -> forall x, x ∈ map f us -> x ∈ map f vs.
Proof. intros H x (u & -> & Hu)%list_elem_of_fmap. apply list_elem_of_fmap. exists u. by rewrite <- H. Qed.

Lemma foldr_max_same (f : ShardView -> Z) us vs :
  (forall u, u ∈ us <-> u ∈ vs) -> foldr Z.max 0 (map f us) = foldr Z.max 0 (map f vs).
Proof. intros H. apply Z.le_antisymm; apply foldr_max_sub; apply map_same; [done|]. intros u. by rewrite H. Qed.

Lemma update_same us vs :
  Forall consistent us -> (forall u, u ∈ us <-> u ∈ vs) -> update newView us = update newView vs.
Proof.
  intros Hu H. assert (Hv : Forall consistent vs).
  { apply Forall_forall. intros u Hin%H. by eapply Forall_forall in Hu. }
  apply update_ext; try done.
  - intros id. pose proof (about_same us vs H id) as Hs.
    split; intros E; apply elem_of_nil_inv; intros x Hx; apply Hs in Hx; rewrite E in Hx; by apply not_elem_of_nil in Hx.
  - intros id. apply foldr_max_same, about_same, H.
  - intros id. apply foldr_max_same, about_same, H.
Qed.

Lemma known_consistent id change term :
  0 <= change -> 0 <= term -> consistent (known id change term).
Proof.
  intros Hc Ht. unfold consistent. cbn. split_and!; [done| |].
  - intros ?. by rewrite (proj2 (Z.eqb_neq change 0)) by lia.
  - destruct (Z.eqb_spec term 0); [done|]. intros _. split; [lia|done].
Qed.

Lemma led_known id term change : terms_led id term -> 0 <= term -> led (known id change term) = term.
Proof.
  intros H ?. unfold led. cbn. destruct (Z.eqb_spec term 0) as [->|?]; [done|]. by rewrite (proj2 (Z.eqb_neq _ _) (H ltac:(lia))).
Qed.

(** The one record of a shard in a copied view. *)
Lemma elem_about_copy shuffle us id u :
  Forall consistent us -> (forall l, shuffle l ≡ₚ l) ->
  u ∈ about id (copy shuffle (update newView us)) <-> about id us <> [] /\ u = merged id us.
Proof.
  intros Hu Hs. unfold copy. unfold about at 1. rewrite list_elem_of_filter, Hs, list_elem_of_fmap. split.
  - intros (Hid & [id' w] & -> & Hin%elem_of_map_to_list). cbn in *. rewrite lookup_update in Hin.
    case_decide; [done|]. injection Hin as <-. destruct (merged_known id' us Hu) as [E _].
    rewrite E in Hid. cbn in Hid. by subst id'.
  - intros [Hne ->]. split; [by destruct (merged_known id us Hu) as [-> _]|].
    exists (id, merged id us). split; [done|]. apply elem_of_map_to_list. rewrite lookup_update. by rewrite decide_False.
Qed.

Lemma max_copy (f : ShardView -> Z) shuffle us id m :
  Forall consistent us -> (forall l, shuffle l ≡ₚ l) -> 0 <= m -> (about id us = [] -> m = 0) ->
  f (merged id us) = m -> foldr Z.max 0 (map f (about id (copy shuffle (update newView us)))) = m.
Proof.
  intros Hu Hs Hm H0 Hf. pose proof (fun u => elem_about_copy shuffle us id u Hu Hs) as Hel.
  destruct (decide (about id us = [])) as [E|E].
  - rewrite (H0 E). assert (about id (copy shuffle (update newView us)) = []) as ->; [|done].
    apply elem_of_nil_inv. intros u Hin. by apply Hel in Hin as [? _].
  - rewrite (foldr_max_same f _ [merged id us]); [cbn; lia|].
    intros u. rewrite Hel, list_elem_of_singleton. tauto.
Qed.

Lemma copy_consistent shuffle us :
  Forall consistent us -> (forall l, shuffle l ≡ₚ l) -> Forall consistent (copy shuffle (update newView us)).
Proof.
  intros Hu Hs. apply Forall_forall. intros u Hin.
  assert (Ha : u ∈ about (sv_ShardID u) (copy shuffle (update newView us))) by by apply list_elem_of_filter.
  apply elem_about_copy in Ha as [_ ->]; [|done|done].
  destruct (merged_known (sv_ShardID u) us Hu) as (-> & _ & ? & ?). by apply known_consistent.
Qed.

Lemma max_app (f : ShardView -> Z) l l' :
  foldr Z.max 0 (map f (l ++ l')) = Z.max (foldr Z.max 0 (map f l)) (foldr Z.max 0 (map f l')).
Proof. induction l as [|x l IH]; cbn; [|rewrite IH; lia]. induction l'; cbn; lia. Qed.

Lemma update_copy shuffle us vs :
  Forall consistent us -> Forall consistent vs -> (forall l, shuffle l ≡ₚ l) ->
  update (update newView vs) (copy shuffle (update newView us)) = update newView (vs ++ us).
Proof.
  intros Hu Hv Hs. rewrite <- update_app. apply update_ext.
  - apply Forall_app; split; [done|by apply copy_consistent].
  - by apply Forall_app.
  - intros id. unfold about. rewrite !filter_app. fold (about id vs) (about id us).
    pose proof (fun u => elem_about_copy shuffle us id u Hu Hs) as Hel. fold (about id (copy shuffle (update newView us))) in *.
    split; intros [E1 E2]%app_eq_nil; rewrite E1; cbn; apply elem_of_nil_inv; intros u Hin.
    + assert (about id us <> []) by (intros E; rewrite E in Hin; by apply not_elem_of_nil in Hin).
      apply (not_elem_of_nil (merged id us)). rewrite <- E2. by apply Hel.
    + by apply Hel in Hin as [? _].
  - intros id. unfold about, max_change. rewrite !filter_app, !max_app. f_equal.
    destruct (merged_known id us Hu) as (E & _ & ? & ?).
    apply max_copy; [done|done|done| |by rewrite E]. intros E'. unfold about in E'. by rewrite E'.
  - intros id. unfold about, max_term. rewrite !filter_app, !max_app. f_equal.
    destruct (merged_known id us Hu) as (E & Ht & ? & ?).
    apply max_copy; [done|done|done| |rewrite E; by apply led_known]. intros E'. unfold about in E'. by rewrite E'.
Qed.

(** Gossip converges.  When the updates come from one cluster, where a
    configuration index fixes the members of a shard and a term its leader,
    a node's view depends on which updates it has heard of and not on their
    order or repetition; receiving another node's view, in whatever order it
    is copied, is the same as hearing the updates that node has heard; and the
    view of a shard is then the members of the latest change and the leader of
    the latest term that has one. *)
Theorem views_converge shuffle us vs ws :
  Forall consistent us -> Forall consistent vs -> (forall l, shuffle l ≡ₚ l) ->
  (forall u, u ∈ us <-> u ∈ ws) ->
  update newView us = update newView ws
  /\ update (update newView vs) (copy shuffle (update newView us)) = update newView (vs ++ us)
  /\ (forall id, about id us <> [] ->
       shardInfo (update newView us) id = known id (max_change (about id us)) (max_term (about id us))).
Proof.
  intros Hu Hv Hs Hw. split_and!; [by apply update_same|by apply update_copy|].
  intros id Hne. unfold shardInfo. rewrite lookup_update, decide_False by done. cbn. by destruct (merged_known id us Hu) as [-> _].
Qed.
End Truth.

(** Two terms of one shard, the second heard of first. *)
Definition ex_updates : list ShardView := [mkShard 7 {[1 := str "a"]} 3 1 4; mkShard 7 {[1 := str "a"; 2 := str "b"]} 5 0 6].
Definition ex_members (_ c : Z) : gmap Z bytes := if c =? 3 then {[1 := str "a"]} else {[1 := str "a"; 2 := str "b"]}.
Definition ex_leader (_ _ : Z) : Z := 1.

Lemma views_converge_witness :
  update newView ex_updates = update newView (rev ex_updates)
  /\ shardInfo (update newView ex_updates) 7 = mkShard 7 {[1 := str "a"; 2 := str "b"]} 5 1 4.
Proof.
  destruct (views_converge ex_members ex_leader (@rev _) ex_updates [] (rev ex_updates)) as (H1 & _ & H3).
  - apply Forall_cons; split; [|apply Forall_cons; split; [|by apply Forall_nil]]; unfold consistent, noLeader; cbn; split_and!; try done; lia.
  - by apply Forall_nil.
  - intros l. symmetry. apply Permutation_rev.
  - intros u. rewrite !list_elem_of_In. apply in_rev.
  - split; [done|]. rewrite H3 by done. reflexivity.
Defined.
