(* ===== verification/Paths.v ===== *)
(** * Paths below a directory

    Facts on [filepath.Join], [filepath.Clean] and [filepath.IsLocal] for the
    names that the program makes below a clean directory. *)

From S2P Require Import Prelude GoStd.

(** [filepath.IsLocal] on Unix. *)
Fixpoint local_go (depth : nat) (ts : list bytes) : bool :=
  match ts with
  | [] => true
  | t :: ts' =>
      if decide (t = [] \/ t = [dot]) then local_go depth ts'
      else if decide (t = [dot; dot]) then match depth with O => false | S d => local_go d ts' end
      else local_go (S depth) ts'
  end.
Definition IsLocal (p : bytes) : bool :=
  match p with
  | [] => false
  | c :: _ => negb (bool_decide (c = slash)) && local_go 0 (split_slash p)
  end.

(** The name of an entry of a directory. *)
Definition simple (n : bytes) : Prop := n <> [] /\ n <> [dot] /\ n <> [dot; dot] /\ slash ∉ n.
#[export] Instance simple_dec n : Decision (simple n).
Proof. unfold simple. apply _. Defined.

(** [k] is the path [p] or below it. *)
Definition under (p k : bytes) : bool := bool_decide (k = p) || HasPrefix k (p ++ [slash]).

Definition rooted (p : bytes) : bool := match p with c :: _ => bool_decide (c = slash) | [] => false end.
(** The path of the elements that [Clean] keeps, last first. *)
Definition render (r : bool) (kept : list bytes) : bytes :=
  let ts := join_slash (reverse kept) in
  if r then slash :: ts else match ts with [] => [dot] | _ => ts end.
Definition kept_of (p : bytes) : list bytes := foldl (clean_step (rooted p)) [] (split_slash p).

Lemma path_Clean_render p : path_Clean p = render (rooted p) (kept_of p).
Proof. done. Qed.

(** A cleaned path other than the root and the working directory. *)
Definition clean_dir (d : bytes) : Prop := path_Clean d = d /\ d <> [slash] /\ d <> [dot].

(** ** Splitting and joining *)

Lemma split_slash_nonempty s : split_slash s <> [].
Proof. induction s as [|c s IH]; cbn; [done|]. case_decide; [done|]. by destruct (split_slash s). Qed.

Lemma split_slash_app a b : split_slash (a ++ slash :: b) = split_slash a ++ split_slash b.
Proof.
  induction a as [|c a IH]; cbn [app split_slash]; [by rewrite decide_True|].
  case_decide; [by rewrite IH|]. rewrite IH. pose proof (split_slash_nonempty a). by destruct (split_slash a).
Qed.

Lemma split_slash_plain t : slash ∉ t -> split_slash t = [t].
Proof.
  induction t as [|c t IH]; intros Ht; [done|]. apply not_elem_of_cons in Ht as [Hc Ht].
  cbn. rewrite decide_False by done. by rewrite IH.
Qed.

Lemma split_join l : l <> [] -> Forall (fun t => slash ∉ t) l -> split_slash (join_slash l) = l.
Proof.
  intros Hne Hf. induction l as [|t l IH]; [done|]. apply Forall_cons in Hf as [Ht Hl].
  destruct l as [|t' l]; [by apply split_slash_plain|].
  change (join_slash (t :: t' :: l)) with (t ++ slash :: join_slash (t' :: l)).
  by rewrite split_slash_app, split_slash_plain, IH.
Qed.

Lemma join_slash_app l l' :
  l <> [] -> l' <> [] -> join_slash (l ++ l') = join_slash l ++ slash :: join_slash l'.
Proof.
  intros Hl Hl'. induction l as [|t l IH]; [done|]. destruct l as [|t' l]; [by destruct l'|].
  cbn [app]. change (join_slash (t :: t' :: l ++ l')) with (t ++ slash :: join_slash ((t' :: l) ++ l')).
  rewrite IH by done. change (join_slash (t :: t' :: l)) with (t ++ slash :: join_slash (t' :: l)). by rewrite <- app_assoc.
Qed.

Lemma join_slash_nonempty l : l <> [] -> Forall (fun t => t <> []) l -> join_slash l <> [].
Proof.
  intros Hne Hf. destruct l as [|t [|t' l]]; [done| |].
  - by apply Forall_cons in Hf as [? _].
  - cbn. intros [_ ?]%app_eq_nil. done.
Qed.

(** ** Joining *)

Lemma clean_step_simple r K t : simple t -> clean_step r K t = t :: K.
Proof. intros (? & ? & ? & _). unfold clean_step. by rewrite !decide_False. Qed.

Lemma clean_steps_simple r K l : Forall simple l -> foldl (clean_step r) K l = reverse l ++ K.
Proof.
  revert K. induction l as [|t l IH]; intros K Hf; [done|]. apply Forall_cons in Hf as [Ht Hl].
  cbn [foldl]. rewrite clean_step_simple, IH by done. by rewrite reverse_cons, <- app_assoc.
Qed.

Lemma clean_steps_nonempty r ts : forall K,
  Forall (fun t => t <> []) K -> Forall (fun t => t <> []) (foldl (clean_step r) K ts).
Proof.
  induction ts as [|t ts IH]; intros K HK; [done|]. cbn [foldl]. apply IH. unfold clean_step.
  repeat case_decide; try done.
  - destruct K as [|x K]; [destruct r; by repeat constructor|]. apply Forall_cons in HK as [? ?].
    case_decide; [|done]. by repeat (apply Forall_cons; split).
  - by apply Forall_cons.
Qed.

(** Local elements stay above what is there. *)
Lemma clean_steps_local r ts : forall l K,
  Forall (fun t => slash ∉ t) ts -> local_go (length l) ts = true -> Forall simple l ->
  exists l', foldl (clean_step r) (l ++ K) ts = l' ++ K /\ Forall simple l'
    /\ foldl (clean_step false) l ts = l'.
Proof.
  induction ts as [|t ts IH]; intros l K Hf Hl Hs; [by exists l|].
  apply Forall_cons in Hf as [Ht Hf]. cbn [local_go foldl] in *. unfold clean_step at 2 4.
  destruct (decide (t = [] \/ t = [dot])) as [[->| ->]|Hd].
  - rewrite !decide_True by done. by apply IH.
  - rewrite !(decide_False (P := [dot] = [])), !decide_True by done. by apply IH.
  - rewrite !(decide_False (P := t = [])), !(decide_False (P := t = [dot])) by tauto.
    destruct (decide (t = [dot; dot])) as [->|Hdd].
    + destruct l as [|x l]; [done|]. apply Forall_cons in Hs as [(? & ? & ? & ?) Hs]. cbn [app].
      rewrite !decide_False by done. by apply IH.
    + apply (IH (t :: l)); [done|done|]. apply Forall_cons. split; [|done]. unfold simple. tauto.
Qed.

Lemma split_slash_no_slash s : Forall (fun t => slash ∉ t) (split_slash s).
Proof.
  induction s as [|c s IH]; cbn.
  - apply Forall_singleton, not_elem_of_nil.
  - case_decide; [apply Forall_cons; split; [apply not_elem_of_nil|done]|].
    destruct (split_slash s) as [|t ts]; [apply Forall_singleton; by rewrite list_elem_of_singleton|].
    apply Forall_cons in IH as [Ht Hts]. apply Forall_cons. split; [|done]. rewrite not_elem_of_cons. done.
Qed.

Section Below.
Context (d : bytes) (Hd : clean_dir d).

Lemma dir_kept : d = render (rooted d) (kept_of d) /\ kept_of d <> [] /\ d <> [].
Proof using Hd.
  destruct Hd as (Hc & Hs & Hdt). rewrite path_Clean_render in Hc. split_and!; [done| |by intros ->].
  intros E. rewrite E in Hc. unfold render in Hc. cbn in Hc. destruct (rooted d); congruence.
Qed.

Lemma reverse_nonempty {A} (l : list A) : l <> [] -> reverse l <> [].
Proof using. intros H E. apply H. by rewrite <- (reverse_involutive l), E. Qed.

(** Elements above those of the directory. *)
Lemma render_above l : l <> [] -> render (rooted d) (l ++ kept_of d) = d ++ slash :: join_slash (reverse l).
Proof using Hd.
  destruct dir_kept as (E & Hk & _). intros Hl.
  assert (Hj : join_slash (reverse (kept_of d)) <> []).
  { apply join_slash_nonempty; [by apply reverse_nonempty|]. apply Forall_reverse, clean_steps_nonempty, Forall_nil. done. }
  unfold render in *. rewrite reverse_app, join_slash_app by (by apply reverse_nonempty). destruct (rooted d).
  - transitivity ((slash :: join_slash (reverse (kept_of d))) ++ slash :: join_slash (reverse l)); [done|by rewrite <- E].
  - transitivity (join_slash (reverse (kept_of d)) ++ slash :: join_slash (reverse l)).
    + by destruct (join_slash (reverse (kept_of d))).
    + f_equal. rewrite E at 2. by destruct (join_slash (reverse (kept_of d))).
Qed.

Lemma Join_clean q : q <> [] -> path_Join [d; q] = render (rooted d) (foldl (clean_step (rooted d)) (kept_of d) (split_slash q)).
Proof using Hd.
  destruct dir_kept as (_ & _ & Hne). intros Hq. unfold path_Join. rewrite !filter_cons_True by done.
  rewrite filter_nil. cbn [join_slash]. rewrite path_Clean_render.
  assert (Hr : rooted (d ++ slash :: q) = rooted d) by by destruct d. unfold kept_of at 1.
  by rewrite Hr, split_slash_app, foldl_app.
Qed.

Lemma Join_nil : path_Join [d; []] = d.
Proof using Hd.
  destruct dir_kept as (_ & _ & Hne). unfold path_Join. rewrite filter_cons_True, filter_cons_False, filter_nil by naive_solver.
  apply Hd.
Qed.

Lemma Join_simple n : simple n -> path_Join [d; n] = d ++ slash :: n.
Proof using Hd.
  intros Hn. pose proof Hn as (? & _ & _ & ?). rewrite Join_clean, split_slash_plain by done. cbn [foldl].
  rewrite clean_step_simple by done. apply (render_above [n]). done.
Qed.

(** A local name stays below the directory. *)
Lemma Join_local n :
  IsLocal n = true ->
  path_Join [d; path_Clean n] = if decide (path_Clean n = [dot]) then d else d ++ slash :: path_Clean n.
Proof using Hd.
  intros Hl. assert (Hr : rooted n = false /\ local_go 0 (split_slash n) = true).
  { destruct n as [|c n]; [done|]. cbn in Hl |- *. apply andb_true_iff in Hl as [H1 H2].
    split; [|done]. by apply negb_true_iff in H1. }
  destruct Hr as [Hr Hgo].
  destruct (clean_steps_local false (split_slash n) [] [] (split_slash_no_slash n) Hgo (Forall_nil_2 _)) as (l & _ & Hs & E).
  assert (Hc : path_Clean n = render false l) by (rewrite path_Clean_render; unfold kept_of; by rewrite Hr, E).
  destruct (decide (l = [])) as [->|Hne].
  - rewrite Hc. cbn. destruct dir_kept as (Ed & _ & _). rewrite Join_clean by done. rewrite decide_True by done. symmetry. exact Ed.
  - assert (Hsj : Forall simple (reverse l)) by by apply Forall_reverse.
    assert (Hj : split_slash (path_Clean n) = reverse l /\ path_Clean n = join_slash (reverse l)).
    { assert (join_slash (reverse l) <> []).
      { apply join_slash_nonempty; [by apply reverse_nonempty|]. eapply Forall_impl; [exact Hsj|]. by intros ? (? & _). }
      assert (path_Clean n = join_slash (reverse l)) as ->; [rewrite Hc; unfold render; by destruct (join_slash (reverse l))|].
      split; [|done]. apply split_join; [by apply reverse_nonempty|]. eapply Forall_impl; [exact Hsj|]. by intros ? (_ & _ & _ & ?). }
    destruct Hj as [Hsp Hj].
    assert (path_Clean n <> []) by (intros E'; rewrite E' in Hsp; cbn in Hsp; rewrite <- Hsp in Hsj; by apply Forall_cons in Hsj as [(? & _) _]).
    rewrite Join_clean, Hsp, clean_steps_simple, reverse_involutive, render_above, <- Hj by done.
    rewrite decide_False; [done|]. intros E'. rewrite E' in Hsp. cbn in Hsp. rewrite <- Hsp in Hsj. by apply Forall_cons in Hsj as [(_ & ? & _) _].
Qed.

(** Entries of the directory are apart from each other. *)
Lemma under_simple a b : simple a -> simple b -> under (path_Join [d; a]) (path_Join [d; b]) = true -> a = b.
Proof using Hd.
  intros Ha Hb. rewrite !Join_simple by done. unfold under. rewrite orb_true_iff, bool_decide_eq_true, HasPrefix_spec.
  intros [E|[t E]].
  - apply app_inv_head in E. by injection E.
  - rewrite <- !app_assoc in E. apply app_inv_head in E. injection E as ->. destruct Hb as (_ & _ & _ & Hb).
    exfalso. apply Hb. apply elem_of_app. right. apply list_elem_of_here.
Qed.

(** The name is an element of any path at or below it. *)
Lemma under_element n k : simple n -> under (path_Join [d; n]) k = true -> n ∈ split_slash k.
Proof using Hd.
  intros Hn. pose proof Hn as (_ & _ & _ & Hs). rewrite Join_simple by done. unfold under.
  rewrite orb_true_iff, bool_decide_eq_true, HasPrefix_spec. intros [->|[t ->]].
  - rewrite split_slash_app, elem_of_app, (split_slash_plain n), list_elem_of_singleton by done. by right.
  - rewrite <- !app_assoc. cbn [app]. rewrite split_slash_app, split_slash_app, !elem_of_app, (split_slash_plain n), list_elem_of_singleton by done.
    by right; left.
Qed.

(** The names of the entries of the directory on the way to a path. *)
Definition entry_of (k : bytes) : list bytes :=
  if HasPrefix k (d ++ [slash]) then
    match split_slash (drop (length d + 1) k) with
    | t :: _ => if decide (simple t) then [t] else []
    | [] => []
    end
  else [].

Lemma join_split k : join_slash (split_slash k) = k.
Proof using.
  induction k as [|c k IH]; [done|]. cbn [split_slash]. pose proof (split_slash_nonempty k). destruct (decide (c = slash)) as [->|].
  - destruct (split_slash k) as [|t ts] eqn:E; [done|]. rewrite <- IH. done.
  - destruct (split_slash k) as [|t ts]; [done|]. rewrite <- IH. by destruct ts.
Qed.

Lemma elem_of_entry_of n k : n ∈ entry_of k <-> simple n /\ under (path_Join [d; n]) k = true.
Proof using Hd.
  unfold entry_of. destruct (HasPrefix k (d ++ [slash])) eqn:E.
  - apply HasPrefix_spec in E as [m ->]. rewrite <- app_assoc. cbn [app].
    rewrite drop_app_ge, Nat.add_comm, Nat.add_sub by lia. cbn [drop]. rewrite drop_0.
    pose proof (join_split m) as Hj. destruct (split_slash m) as [|t ts] eqn:Em; [by apply split_slash_nonempty in Em|]. split.
    + case_decide as Ht; [|by intros ?%not_elem_of_nil]. intros ->%list_elem_of_singleton. split; [done|].
      rewrite Join_simple by done. unfold under. destruct ts as [|t' ts]; cbn in Hj; subst m; [by rewrite bool_decide_eq_true_2|].
      apply orb_true_iff. right. apply HasPrefix_spec. exists (join_slash (t' :: ts)). rewrite <- !app_assoc. done.
    + intros [Hn Hu]. pose proof Hn as (_ & _ & _ & Hs). rewrite Join_simple in Hu by done. unfold under in Hu.
      rewrite orb_true_iff, bool_decide_eq_true, HasPrefix_spec in Hu. assert (t = n) as ->.
      { destruct Hu as [Hu|[q Hu]].
        - apply app_inv_head in Hu. injection Hu as ->. rewrite split_slash_plain in Em by done. by injection Em.
        - rewrite <- !app_assoc in Hu. apply app_inv_head in Hu. injection Hu as ->. cbn [app] in Em.
          rewrite split_slash_app, split_slash_plain in Em by done. by injection Em. }
      rewrite decide_True by done. apply list_elem_of_here.
  - split; [by intros ?%not_elem_of_nil|]. intros [Hn Hu]. exfalso. apply not_true_iff_false in E. apply E.
    rewrite Join_simple in Hu by done. unfold under in Hu. rewrite orb_true_iff, bool_decide_eq_true, HasPrefix_spec in Hu.
    apply HasPrefix_spec. destruct Hu as [->|[q ->]]; [exists n|exists (n ++ [slash] ++ q)]; by rewrite <- !app_assoc.
Qed.

Lemma Join_inj a b : simple a -> simple b -> path_Join [d; a] = path_Join [d; b] -> a = b.
Proof using Hd.
  intros Ha Hb E. apply under_simple; [done|done|]. unfold under. by rewrite bool_decide_eq_true_2.
Qed.

Lemma Join_simple_ne n : simple n -> path_Join [d; n] <> d.
Proof using Hd. intros Hn E. rewrite Join_simple in E by done. apply (f_equal length) in E. rewrite length_app in E. cbn in E. lia. Qed.

(** A directory of the directory. *)
Lemma Join_clean_dir n : simple n -> clean_dir (path_Join [d; n]).
Proof using Hd.
  intros Hn. pose proof Hn as (Hne & Hn1 & _ & Hsl). destruct dir_kept as (_ & Hk & Hd0). split_and!.
  - rewrite Join_simple at 1 by done. rewrite path_Clean_render.
    assert (Hr : rooted (d ++ slash :: n) = rooted d) by by destruct d. unfold kept_of.
    rewrite Hr, split_slash_app, foldl_app. by rewrite Join_clean.
  - rewrite Join_simple by done. destruct d as [|c [|c' d']]; [done| |done]. cbn. intros [= -> ?].
  - rewrite Join_simple by done. destruct d as [|c [|c' d']]; [done| |done]. cbn. congruence.
Qed.

Lemma Clean_simple n : simple n -> path_Clean n = n.
Proof using.
  intros Hn. pose proof Hn as (Hne & _ & _ & Hs). rewrite path_Clean_render. unfold kept_of.
  rewrite split_slash_plain by done. cbn [foldl]. rewrite clean_step_simple by done. unfold render.
  change (join_slash (reverse [n])) with n. assert (rooted n = false) as ->; [|by destruct n].
  destruct n as [|c n]; [done|]. apply bool_decide_eq_false_2. intros ->. apply Hs, list_elem_of_here.
Qed.

Lemma IsLocal_simple n : simple n -> IsLocal n = true.
Proof using.
  intros Hn. pose proof Hn as (Hne & H1 & H2 & Hs). unfold IsLocal. destruct n as [|c n]; [done|].
  rewrite bool_decide_eq_false_2 by (intros ->; apply Hs, list_elem_of_here). rewrite split_slash_plain by done.
  cbn [local_go negb andb]. rewrite !decide_False by (try intros [?|?]; done). done.
Qed.

Lemma under_below k n : under (d ++ slash :: n) k = true -> under d k = true /\ k <> d.
Proof using.
  unfold under. rewrite !orb_true_iff, !bool_decide_eq_true, !HasPrefix_spec. intros [->|[t ->]].
  - split; [right; exists n; by rewrite <- app_assoc|]. intros E%(f_equal length). rewrite length_app in E. cbn in E. lia.
  - split; [right; exists (n ++ [slash] ++ t); by rewrite <- !app_assoc|].
    intros E%(f_equal length). rewrite !length_app in E. cbn in E. lia.
Qed.
End Below.

Lemma Join_three d a b : clean_dir d -> simple a -> simple b -> path_Join [d; a; b] = path_Join [path_Join [d; a]; b].
Proof.
  intros Hd Ha Hb. pose proof Ha as (Ha0 & _ & _ & Has). pose proof Hb as (Hb0 & _ & _ & Hbs).
  destruct (dir_kept d Hd) as (_ & _ & Hd0).
  rewrite (Join_simple (path_Join [d; a])), (Join_simple d) by (try apply Join_clean_dir; done).
  unfold path_Join at 1. rewrite !filter_cons_True, filter_nil by done. cbn [join_slash].
  rewrite path_Clean_render. assert (Hr : rooted (d ++ slash :: a ++ slash :: b) = rooted d) by by destruct d.
  unfold kept_of. rewrite Hr, split_slash_app, foldl_app, split_slash_app, (split_slash_plain a), (split_slash_plain b) by done.
  rewrite clean_steps_simple by (apply Forall_cons; split; [done|by apply Forall_singleton]). change (foldl (clean_step (rooted d)) [] (split_slash d)) with (kept_of d).
  rewrite (render_above d Hd (reverse ([a] ++ [b]))) by done. cbn. by rewrite <- app_assoc.
Qed.

(** The names of the entries of any directory are told apart. *)
Lemma Join_simple_inj d a b : simple a -> simple b -> path_Join [d; a] = path_Join [d; b] -> a = b.
Proof.
  assert (forall r K n, simple n -> render r (n :: K)
    = (if r then [slash] else []) ++ (match K with [] => [] | _ => join_slash (reverse K) ++ [slash] end) ++ n) as Hr.
  { intros r K n (Hn & _). unfold render. rewrite reverse_cons.
    destruct K as [|k K]; [destruct r, n; done|].
    rewrite join_slash_app by (done || apply reverse_nonempty; done). cbn [join_slash].
    destruct r; [by rewrite <- app_assoc|]. destruct (join_slash (reverse (k :: K))) as [|c l] eqn:E; by rewrite <- app_assoc. }
  assert (forall n, simple n -> exists r K, path_Join [d; n] = render r (n :: K) /\ r = rooted d /\ K = (if decide (d = []) then [] else kept_of d)) as Hj.
  { intros n Hn. pose proof Hn as (Hne & _ & _ & Hs). exists (rooted d), (if decide (d = []) then [] else kept_of d).
    split; [|done]. unfold path_Join. destruct (decide (d = [])) as [->|Hd].
    - rewrite filter_cons_False, filter_cons_True, filter_nil by naive_solver. cbn [join_slash].
      rewrite path_Clean_render. unfold kept_of. rewrite split_slash_plain by done. cbn [foldl].
      rewrite clean_step_simple by done. f_equal. destruct n as [|c n]; [done|]. cbn.
      apply bool_decide_eq_false_2. intros ->. apply Hs. left.
    - rewrite !filter_cons_True, filter_nil by done. cbn [join_slash]. rewrite path_Clean_render.
      assert (rooted (d ++ slash :: n) = rooted d) as -> by (by destruct d). f_equal.
      unfold kept_of. assert (rooted (d ++ slash :: n) = rooted d) as -> by (by destruct d).
      rewrite split_slash_app, (split_slash_plain n), foldl_app by done. cbn [foldl]. by apply clean_step_simple. }
  intros Ha Hb E. destruct (Hj a Ha) as (r & K & Ea & -> & ->). destruct (Hj b Hb) as (r & K & Eb & -> & ->).
  rewrite Ea, Eb, !Hr in E by done. by do 2 apply app_inv_head in E.
Qed.
