(* ===== verification/Md5.v ===== *)
(** * [crypto/md5]

    The digest that guards the name of the current store directory. *)

From S2P Require Import Prelude.

Definition u32 (z : Z) : Z := z mod 2 ^ 32.
Definition not32 (z : Z) : Z := Z.lxor z 0xffffffff.
Definition rotl32 (z s : Z) : Z := u32 (Z.lor (Z.shiftl z s) (Z.shiftr z (32 - s))).

Definition md5_K : list Z :=
  [0xd76aa478; 0xe8c7b756; 0x242070db; 0xc1bdceee; 0xf57c0faf; 0x4787c62a; 0xa8304613; 0xfd469501;
   0x698098d8; 0x8b44f7af; 0xffff5bb1; 0x895cd7be; 0x6b901122; 0xfd987193; 0xa679438e; 0x49b40821;
   0xf61e2562; 0xc040b340; 0x265e5a51; 0xe9b6c7aa; 0xd62f105d; 0x02441453; 0xd8a1e681; 0xe7d3fbc8;
   0x21e1cde6; 0xc33707d6; 0xf4d50d87; 0x455a14ed; 0xa9e3e905; 0xfcefa3f8; 0x676f02d9; 0x8d2a4c8a;
   0xfffa3942; 0x8771f681; 0x6d9d6122; 0xfde5380c; 0xa4beea44; 0x4bdecfa9; 0xf6bb4b60; 0xbebfbc70;
   0x289b7ec6; 0xeaa127fa; 0xd4ef3085; 0x04881d05; 0xd9d4d039; 0xe6db99e5; 0x1fa27cf8; 0xc4ac5665;
   0xf4292244; 0x432aff97; 0xab9423a7; 0xfc93a039; 0x655b59c3; 0x8f0ccc92; 0xffeff47d; 0x85845dd1;
   0x6fa87e4f; 0xfe2ce6e0; 0xa3014314; 0x4e0811a1; 0xf7537e82; 0xbd3af235; 0x2ad7d2bb; 0xeb86d391].
Definition md5_S : list Z := [7; 12; 17; 22; 5; 9; 14; 20; 4; 11; 16; 23; 6; 10; 15; 21].

Abbreviation md5_state := (Z * Z * Z * Z)%type.
Definition md5_init : md5_state := (0x67452301, 0xefcdab89, 0x98badcfe, 0x10325476).

(** One of the 64 operations on a block of sixteen words. *)
Definition md5_op (m : list Z) (s : md5_state) (i : nat) : md5_state :=
  let '(a, b, c, d) := s in
  let '(f, g) :=
    match (i / 16)%nat with
    | 0%nat => (Z.lor (Z.land b c) (Z.land (not32 b) d), i)
    | 1%nat => (Z.lor (Z.land d b) (Z.land (not32 d) c), (5 * i + 1)%nat)
    | 2%nat => (Z.lxor b (Z.lxor c d), (3 * i + 5)%nat)
    | _ => (Z.lxor c (Z.lor b (not32 d)), (7 * i)%nat)
    end in
  let f := u32 (f + a + nth i md5_K 0 + nth (g mod 16) m 0) in
  (d, u32 (b + rotl32 f (nth (4 * (i / 16) + i mod 4) md5_S 0)), b, c).

Fixpoint words (n : nat) (bs : bytes) : list Z :=
  match n with O => [] | S n' => le_Z (take 4 bs) :: words n' (drop 4 bs) end.

Definition md5_block (s : md5_state) (block : bytes) : md5_state :=
  let '(a, b, c, d) := s in
  let '(a', b', c', d') := foldl (md5_op (words 16 block)) s (seq 0 64) in
  (u32 (a + a'), u32 (b + b'), u32 (c + c'), u32 (d + d')).

Fixpoint md5_blocks (n : nat) (s : md5_state) (bs : bytes) : md5_state :=
  match n with O => s | S n' => md5_blocks n' (md5_block s (take 64 bs)) (drop 64 bs) end.

Definition md5_pad (bs : bytes) : bytes :=
  bs ++ Byte.x80 :: replicate ((119 - length bs mod 64) mod 64) Byte.x00 ++ PutUint64 (uint64 (8 * len bs)).

(** [h := md5.New(); h.Write(bs); h.Sum(nil)]. *)
Definition md5_Sum (bs : bytes) : bytes :=
  let p := md5_pad bs in
  let '(a, b, c, d) := md5_blocks (length p / 64) md5_init p in
  le_bytes 4 a ++ le_bytes 4 b ++ le_bytes 4 c ++ le_bytes 4 d.

Lemma md5_Sum_length bs : length (md5_Sum bs) = 16%nat.
Proof.
  unfold md5_Sum. destruct (md5_blocks _ _ _) as [[[a b] c] d]. by rewrite !length_app, !le_bytes_length.
Qed.

(** The vectors of RFC 1321. *)
Lemma md5_Sum_vectors :
  md5_Sum [] =
    [Byte.xd4; Byte.x1d; Byte.x8c; Byte.xd9; Byte.x8f; Byte.x00; Byte.xb2; Byte.x04; Byte.xe9; Byte.x80; Byte.x09; Byte.x98; Byte.xec; Byte.xf8; Byte.x42; Byte.x7e]
  /\ md5_Sum (str "abc") =
    [Byte.x90; Byte.x01; Byte.x50; Byte.x98; Byte.x3c; Byte.xd2; Byte.x4f; Byte.xb0; Byte.xd6; Byte.x96; Byte.x3f; Byte.x7d; Byte.x28; Byte.xe1; Byte.x7f; Byte.x72]
  /\ md5_Sum (str "12345678901234567890123456789012345678901234567890123456789012345678901234567890") =
    [Byte.x57; Byte.xed; Byte.xf4; Byte.xa2; Byte.x2b; Byte.xe3; Byte.xc9; Byte.x55; Byte.xac; Byte.x49; Byte.xda; Byte.x2e; Byte.x21; Byte.x07; Byte.xb6; Byte.x7a].
Proof. split_and!; vm_compute; reflexivity. Qed.
