(* ===== verification/Recovery.v ===== *)
(** * The life of a store: directories, opening, snapshots of replicas

    A replica keeps its store in a directory of a random name below the
    directory of the table; the file [current] holds the name in use.  A
    recovery from a snapshot builds a new store beside the old one and
    switches [current] by a rename ([pebble/dir.go], [Open], [Sync], [Close],
    [SaveSnapshot] and [RecoverFromSnapshot] of [storage/table/fsm/fsm.go] and
    the two recoverers [snapshot_snapshot.go] and [snapshot_checkpoint.go]).

    The code is a program over the calls of the file system and of the storage
    engine; [disk_handles] of [RecoveryCorrect] says what the calls do. *)

From S2P Require Import Prelude GoStd Paths Md5 Pebble Query Fsm Snapshot Effects.

Local Open Scope prog_scope.

(** ** What the storage engine does with files *)

Class StoreFiles (P : PebbleOps) := {
  (** [sstable.Writer] over a buffer in memory. *)
  sstWriter : Type;
  sst_NewWriter : sstWriter;
  sst_Set : sstWriter -> bytes -> bytes -> res sstWriter;
  sst_EstimatedSize : sstWriter -> Z;
  (** The bytes in the buffer after [Close]. *)
  sst_Close : sstWriter -> res bytes;
  (** [Ingest] of tables, given by their bytes. *)
  db_Ingest : DB -> list bytes -> res DB;
  (** [Open] of a directory with these files, by name; [Checkpoint]. *)
  db_Load : gmap bytes bytes -> res DB;
  db_Checkpoint : DB -> gmap bytes bytes
}.

(** [archive/tar]: the entries that the code reads and writes. *)
Inductive tar_type := TypeReg | TypeDir | TypeOther.
Record tar_entry := mkTar { tar_Name : bytes; tar_Typeflag : tar_type; tar_data : bytes }.
Class Tar := {
  tar_Write : list tar_entry -> bytes;
  (** The entries that [Next] gives, then the end or an error. *)
  tar_Read : bytes -> list tar_entry * option error
}.

(** ** Calls *)

Section Calls.
Context {P : PebbleOps}.

Inductive fs_ev : Type -> Type :=
  (** [vfs.FS] and [vfs.File]; [FStat] tells whether the path is a directory,
      [FReadAll] opens a file and reads it to its end. *)
  | FStat (path : bytes) : fs_ev (res bool)
  | FCreate (path : bytes) : fs_ev (res unit)
  | FWrite (path data : bytes) : fs_ev (res unit)
  | FSync (path : bytes) : fs_ev (res unit)
  | FClose (path : bytes) : fs_ev (res unit)
  | FReadAll (path : bytes) : fs_ev (res bytes)
  | FRename (old new : bytes) : fs_ev (res unit)
  | FRemoveAll (path : bytes) : fs_ev (res unit)
  | FList (path : bytes) : fs_ev (res (list bytes))
  | FMkdirAll (path : bytes) : fs_ev (res unit)
  | FOpenDir (path : bytes) : fs_ev (res unit)
  (** [rand.Uint64] and [time.Now().UnixNano()]. *)
  | FRand : fs_ev Z
  | FUnixNano : fs_ev Z
  (** Whether the stop channel is readable. *)
  | FStop : fs_ev bool
  (** The storage engine: [OpenDB], and the rest on an open store, given by
      its directory. *)
  | DOpen (dbdir : bytes) : fs_ev (res DB)
  | DIngest (dbdir : bytes) (files : list bytes) : fs_ev (res DB)
  | DFlush : fs_ev (res unit)
  | DCheckpoint (path : bytes) : fs_ev (res unit)
  | DClose (dbdir : bytes) : fs_ev (res unit)
  (** The fields of [FSM] that change: [pebble] with the directory of the
      store, the applied index and [closed]. *)
  | PLoad : fs_ev (option (bytes * DB))
  | PSwap (dbdir : bytes) (db : DB) : fs_ev (option (bytes * DB))
  | PApplied (idx : Z) : fs_ev unit
  | PClosed : fs_ev bool
  | PSetClosed : fs_ev unit.
End Calls.

(** ** Directories ([pebble/dir.go]) *)

Section Dir.
Context {P : PebbleOps}.
Abbreviation M := (Effects.M fs_ev).

Definition currentDBFilename : bytes := str "current".
Definition updatingDBFilename : bytes := str "current.updating".

Definition ErrIsNotDir : error := ErrExternal 20.

Definition syncDir (dir : bytes) : M unit :=
  isDir <- perform (FStat dir);
  if negb isDir then lift (Err ErrIsNotDir) else
  _ <- perform (FOpenDir (path_Clean dir));
  r <~ perform (FSync dir);
  _ <~ perform (FClose dir);
  lift r.

Definition IsNewRun (dir : bytes) : prog fs_ev bool :=
  r <~ perform (FStat (path_Join [dir; currentDBFilename]));
  Ret (match r with Err _ => true | _ => false end).

Definition GetNodeDBDirName (baseDir hostname name : bytes) : bytes := path_Join [baseDir; hostname; name].

(** [fmt.Sprintf("%d_%d", ...)]. *)
Definition GetNewRandomDBDirName : prog fs_ev bytes :=
  a <~ perform FRand;
  t <~ perform FUnixNano;
  Ret (FormatUint a ++ str "_" ++ FormatUint t).

Definition ReplaceCurrentDBFile (dir : bytes) : M unit :=
  let fp := path_Join [dir; currentDBFilename] in
  let tmpFp := path_Join [dir; updatingDBFilename] in
  _ <- perform (FRename tmpFp fp);
  syncDir dir.

Definition SaveCurrentDBDirName (dir dbdir : bytes) : M unit :=
  let h := md5_Sum dbdir in
  let fp := path_Join [dir; updatingDBFilename] in
  _ <- perform (FCreate fp);
  r <~ (_ <- perform (FWrite fp (take 8 h));
        _ <- perform (FWrite fp dbdir);
        perform (FSync fp));
  _ <~ perform (FClose fp);
  _ <~ syncDir dir;
  lift r.

(** What the bytes of [current] say; the empty name when they are damaged. *)
Definition current_content (data : bytes) : bytes :=
  if len data <=? 8 then []
  else
    let crc := take 8 data in
    let content := drop 8 data in
    let h := md5_Sum content in
    if negb (bool_decide (crc = take 8 h)) then [] else content.
Definition GetCurrentDBDirName (dir : bytes) : M bytes :=
  data <- perform (FReadAll (path_Join [dir; currentDBFilename]));
  M_ret (current_content data).

Definition CreateNodeDataDir (dir : bytes) : M unit :=
  _ <- perform (FMkdirAll dir);
  syncDir (path_Dir dir).

Definition cleanup_entry (dir dbdir fi : bytes) : M unit :=
  if decide (fi = currentDBFilename) then M_ret tt else
  let toDelete := path_Join [dir; fi] in
  if decide (toDelete = path_Join [dir; dbdir]) then M_ret tt else
  perform (FRemoveAll toDelete).
Definition CleanupNodeDataDir (dir : bytes) : M unit :=
  _ <- perform (FRemoveAll (path_Join [dir; updatingDBFilename]));
  dbdir <- GetCurrentDBDirName dir;
  files <- perform (FList dir);
  M_iter (cleanup_entry dir dbdir) files.
End Dir.

(** ** The state machine ([storage/table/fsm/fsm.go]) *)

(** The fields of [FSM] that do not change. *)
Record fsmConfig := mkFsmConfig {
  fc_clusterID : Z;
  fc_nodeID : Z;
  fc_dirname : bytes;
  fc_recoveryType : byte
}.

(** [New]; [stateMachineDir], the host's name and the type of recovery are
    those of the node. *)
Definition fsm_New (tableName stateMachineDir hostname : bytes) (srt : byte) (clusterID nodeID : Z) : fsmConfig :=
  mkFsmConfig clusterID nodeID
    (GetNodeDBDirName stateMachineDir hostname (tableName ++ str "-" ++ FormatUint clusterID)) srt.

Section FsmLife.
Context {P : PebbleOps} {F : StoreFiles P} {T : Tar}.
Abbreviation M := (Effects.M fs_ev).

Definition Open (p : fsmConfig) : M Z :=
  if fc_clusterID p <? 1 then lift (Err ErrInvalidClusterID) else
  if fc_nodeID p <? 1 then lift (Err ErrInvalidNodeID) else
  let dirname := fc_dirname p in
  _ <- CreateNodeDataDir dirname;
  randomDir <~ GetNewRandomDBDirName;
  new <~ IsNewRun dirname;
  dbdir <- (if (new : bool) then
              _ <- SaveCurrentDBDirName dirname randomDir;
              _ <- ReplaceCurrentDBFile dirname;
              M_ret (path_Join [dirname; randomDir])
            else
              _ <- CleanupNodeDataDir dirname;
              randomDir <- GetCurrentDBDirName dirname;
              _ <- perform (FStat (path_Join [dirname; randomDir]));
              M_ret (path_Join [dirname; randomDir]));
  db <- perform (DOpen dbdir);
  _ <~ perform (PSwap dbdir db);
  idx <- lift (readLocalIndex (read_db db) sysLocalIndex);
  _ <~ perform (PApplied idx);
  M_ret idx.

(** [Sync] and [Close]; a store that was never opened is a nil pointer. *)
Definition Sync : M unit :=
  old <~ perform PLoad;
  match old with None => lift Panic | Some _ => perform DFlush end.
Definition fsm_Close : M unit :=
  _ <~ perform PSetClosed;
  old <~ perform PLoad;
  match old with
  | None => M_ret tt
  | Some (dbdir, _) => _ <- perform DFlush; perform (DClose dbdir)
  end.

(** ** Saving *)

(** The contexts of the two recoverers. *)
Inductive snap_ctx :=
  | snapshotContext (snap : Reader)
  | checkpointContext (dir : bytes).

Definition fsm_prepare (dirname : bytes) (r : snapshotRecoverer) : M snap_ctx :=
  db <~ perform PLoad;
  match db with
  | None => lift Panic
  | Some (_, db) =>
      match r with
      | RSnapshot => M_ret (snapshotContext (read_db db))
      | RCheckpoint =>
          _ <- perform DFlush;
          name <~ GetNewRandomDBDirName;
          let dir := path_Join [dirname; str "checkpoint"; name] in
          _ <- perform (DCheckpoint dir);
          M_ret (checkpointContext dir)
      end
  end.

Definition maxBatchSize : Z := 16 * 1024 * 1024.

Section Save.
(** The writer of the caller: [Write] appends to it or fails. *)
Context {W : Type} (Write : W -> bytes -> res W).

(** [io.Copy] writes nothing when there is nothing to copy. *)
Definition copy_to (w : W) (data : bytes) : res W := if decide (data = []) then Ok w else Write w data.

Definition writeLenDelimited (from : bytes) (to : W) : res W :=
  (to ← Write to (PutUint64 (uint64 (len from)));
   copy_to to from)%stdpp.

(** The loop of [snapshot.save] over the iterator. *)
Fixpoint snapshot_save_go (stopc : nat -> bool) (n : nat) (entries : list (bytes * bytes)) (sw : sstWriter) (w : W)
    : res W :=
  match entries with
  | [] =>
      memfile ← sst_Close sw;
      writeLenDelimited memfile w
  | (k, v) :: entries' =>
      if stopc n then Err ErrSnapshotStopped else
      sw ← sst_Set sw k v;
      if maxBatchSize <=? sst_EstimatedSize sw then
        memfile ← sst_Close sw;
        w ← writeLenDelimited memfile w;
        snapshot_save_go stopc (S n) entries' sst_NewWriter w
      else snapshot_save_go stopc (S n) entries' sw w
  end%stdpp.
Definition snapshot_save (snap : Reader) (w : W) (stopc : nat -> bool) : res W :=
  snapshot_save_go stopc 0 (NewIter snap None) sst_NewWriter w.

(** The loop of [checkpoint.save]: the entries of the archive. *)
Fixpoint checkpoint_save_go (dir : bytes) (names : list bytes) : M (list tar_entry) :=
  match names with
  | [] => M_ret []
  | fn :: names' =>
      stop <~ perform FStop;
      if (stop : bool) then lift (Err ErrSnapshotStopped) else
      isDir <- perform (FStat (path_Join [dir; fn]));
      e <- (if (isDir : bool) then M_ret (mkTar fn TypeDir [])
            else data <- perform (FReadAll (path_Join [dir; fn])); M_ret (mkTar fn TypeReg data));
      es <- checkpoint_save_go dir names';
      M_ret (e :: es)
  end.
(** The directory is removed at the end whatever happens. *)
Definition checkpoint_save (dir : bytes) (w : W) : M W :=
  r <~ (names <- perform (FList dir);
        es <- checkpoint_save_go dir names;
        lift (Write w (tar_Write es)));
  _ <~ perform (FRemoveAll dir);
  lift r.

Definition fsm_save (r : snapshotRecoverer) (ctx : snap_ctx) (w : W) (stopc : nat -> bool) : M W :=
  match r, ctx with
  | RSnapshot, snapshotContext snap => lift (snapshot_save snap w stopc)
  | RCheckpoint, checkpointContext dir => checkpoint_save dir w
  | _, _ => lift Panic
  end.

Definition PrepareSnapshot (p : fsmConfig) : M snap_ctx :=
  r <- lift (getRecoverer (fc_recoveryType p));
  fsm_prepare (fc_dirname p) r.
Definition SaveSnapshot (p : fsmConfig) (ctx : snap_ctx) (w : W) (stopc : nat -> bool) : M W :=
  r <- lift (getRecoverer (fc_recoveryType p));
  w <- lift (Write w (getHeader r));
  fsm_save r ctx w stopc.
End Save.

(** ** Recovering *)

(** The largest slice that [make] gives before it panics. *)
Definition maxAlloc : Z := 2 ^ 48.

Definition ingest_name (dirname : bytes) (count : Z) : bytes :=
  path_Join [dirname; str "ingest-" ++ FormatUint count ++ str ".sst"].

(** [io.CopyBuffer] into a file. *)
Definition copy_file (name data : bytes) : M unit := if decide (data = []) then M_ret tt else perform (FWrite name data).

(** The loop that writes the tables of the stream to files; [None] when it is
    stopped.  Every round reads at least the eight bytes of a size. *)
Fixpoint snapshot_read (fuel : nat) (dirname : bytes) (r : bytes) (count : Z) (files : list bytes)
    : M (option (list bytes)) :=
  match fuel with
  | O => lift (Err ErrOutOfFuel)
  | S fuel' =>
      stop <~ perform FStop;
      if (stop : bool) then M_ret None else
      match ReadFull r 8 with
      | Err e => if decide (e = ErrEOF) then M_ret (Some files) else lift (Err e)
      | Panic => lift Panic
      | Ok (buf, r) =>
          size <- lift (Uint64 buf);
          if maxAlloc <? size then lift Panic else
          let name := ingest_name dirname count in
          _ <- perform (FCreate name);
          _ <- copy_file name (take (Z.to_nat size) r);
          _ <- perform (FSync name);
          _ <- perform (FClose name);
          snapshot_read fuel' dirname (drop (Z.to_nat size) r) (count + 1) (files ++ [name])
      end
  end.

(** The end of both recoverers: the switch to the new store. *)
Definition switch (dirname randomDirName dbdir : bytes) (db : DB) : M unit :=
  idx <- lift (readLocalIndex (read_db db) sysLocalIndex);
  _ <- SaveCurrentDBDirName dirname randomDirName;
  _ <- ReplaceCurrentDBFile dirname;
  old <~ perform (PSwap dbdir db);
  _ <~ perform (PApplied idx);
  _ <~ (match old with Some (olddir, _) => perform (DClose olddir) | None => M_ret tt end);
  CleanupNodeDataDir dirname.

Definition check_fsm (p : fsmConfig) : M unit :=
  closed <~ perform PClosed;
  if (closed : bool) then lift (Err ErrStateMachineClosed) else
  if fc_clusterID p <? 1 then lift (Err ErrInvalidClusterID) else
  if fc_nodeID p <? 1 then lift (Err ErrInvalidNodeID) else M_ret tt.

Definition snapshot_recover (p : fsmConfig) (r : bytes) : M unit :=
  let dirname := fc_dirname p in
  _ <- check_fsm p;
  randomDirName <~ GetNewRandomDBDirName;
  let dbdir := path_Join [dirname; randomDirName] in
  db <- perform (DOpen dbdir);
  files <- snapshot_read (S (length r)) dirname r 0 [];
  match files with
  | None =>
      _ <~ perform (DClose dbdir);
      _ <~ CleanupNodeDataDir dirname;
      lift (Err ErrSnapshotStopped)
  | Some files =>
      db <- perform (DIngest dbdir files);
      switch dirname randomDirName dbdir db
  end.

Definition ErrPathTraversal : error := ErrExternal 21.

(** The loop of [checkpoint.recover] over the archive. *)
Definition checkpoint_entry (dbdir : bytes) (header : tar_entry) : M unit :=
  if negb (IsLocal (tar_Name header)) then lift (Err ErrPathTraversal) else
  let target := path_Join [dbdir; path_Clean (tar_Name header)] in
  match tar_Typeflag header with
  | TypeDir =>
      r <~ perform (FStat target);
      match r with Err _ => perform (FMkdirAll target) | _ => M_ret tt end
  | TypeReg =>
      _ <- perform (FCreate target);
      _ <- copy_file target (tar_data header);
      _ <- perform (FSync target);
      perform (FClose target)
  | TypeOther => M_ret tt
  end.
Fixpoint checkpoint_read (dbdir : bytes) (headers : list tar_entry) (err : option error) : M unit :=
  stop <~ perform FStop;
  if (stop : bool) then lift (Err ErrSnapshotStopped) else
  match headers with
  | [] => match err with None => M_ret tt | Some e => lift (Err e) end
  | header :: headers' =>
      _ <- checkpoint_entry dbdir header;
      checkpoint_read dbdir headers' err
  end.

Definition checkpoint_recover (p : fsmConfig) (r : bytes) : M unit :=
  let dirname := fc_dirname p in
  _ <- check_fsm p;
  randomDirName <~ GetNewRandomDBDirName;
  let dbdir := path_Join [dirname; randomDirName] in
  _ <- perform (FMkdirAll dbdir);
  let '(headers, err) := tar_Read r in
  _ <- checkpoint_read dbdir headers err;
  db <- perform (DOpen dbdir);
  switch dirname randomDirName dbdir db.

Definition fsm_recover (rc : snapshotRecoverer) (p : fsmConfig) (r : bytes) : M unit :=
  match rc with RSnapshot => snapshot_recover p r | RCheckpoint => checkpoint_recover p r end.

Definition RecoverFromSnapshot (p : fsmConfig) (r : bytes) : M unit :=
  '(header, r) <- lift (ReadFull r 8);
  rc <- lift (getRecoverer (snapshotType header));
  fsm_recover rc p r.
End FsmLife.
