(* ===== verification/RecoveryCorrect.v ===== *)
(** * Crashes, recoveries and opening

    [disk] is what the calls of [Recovery] act on and what a running process
    sees of it; what a loss of power leaves is the subject of [PowerLoss].
    [cut_RecoverFromSnapshot] cuts a recovery off between any two calls and
    finds the old store or the store of the whole snapshot,
    [exec_RecoverFromSnapshot] follows one that returns, and [exec_Open] finds
    the store that [current] names. *)

From S2P Require Import Prelude GoStd Paths Md5 Pebble Query Fsm Snapshot Effects Recovery.

Local Open Scope prog_scope.
Local Opaque md5_Sum.

(** ** The disk *)

Section Disk.
Context {P : PebbleOps} {F : StoreFiles P}.

(** Files and stores by path; a store stands for the files that the storage
    engine keeps in its directory.  The memory of the process: the open store
    with its directory, the applied index, [closed]. *)
Record disk := mkDisk {
  d_files : gmap bytes bytes;
  d_dbs : gmap bytes DB;
  d_dirs : gset bytes;
  d_mem : option (bytes * DB);
  d_applied : Z;
  d_closed : bool
}.
Definition set_files (s : disk) (f : gmap bytes bytes) : disk :=
  mkDisk f (d_dbs s) (d_dirs s) (d_mem s) (d_applied s) (d_closed s).
Definition set_dbs (s : disk) (m : gmap bytes DB) : disk :=
  mkDisk (d_files s) m (d_dirs s) (d_mem s) (d_applied s) (d_closed s).
Definition add_dirs (s : disk) (ds : gset bytes) : disk :=
  mkDisk (d_files s) (d_dbs s) (ds ∪ d_dirs s) (d_mem s) (d_applied s) (d_closed s).
Definition set_mem (s : disk) (m : option (bytes * DB)) : disk :=
  mkDisk (d_files s) (d_dbs s) (d_dirs s) m (d_applied s) (d_closed s).
Definition set_applied (s : disk) (i : Z) : disk :=
  mkDisk (d_files s) (d_dbs s) (d_dirs s) (d_mem s) i (d_closed s).
Definition set_closed (s : disk) : disk :=
  mkDisk (d_files s) (d_dbs s) (d_dirs s) (d_mem s) (d_applied s) true.
(** What is left when the process ends. *)
Definition restarted (s : disk) : disk := mkDisk (d_files s) (d_dbs s) (d_dirs s) None 0 false.

Definition ENOENT : error := ErrExternal 2.
Definition EISDIR : error := ErrExternal 3.

Definition is_dir (s : disk) (p : bytes) : bool := bool_decide (p ∈ d_dirs s) || bool_decide (is_Some (d_dbs s !! p)).
Definition disk_Stat (s : disk) (p : bytes) : res bool :=
  if is_dir s p then Ok true
  else match d_files s !! p with Some _ => Ok false | None => Err ENOENT end.
Definition present (s : disk) (k : bytes) : Prop := is_dir s k = true \/ is_Some (d_files s !! k).

Definition disk_remove (s : disk) (p : bytes) : disk :=
  mkDisk (filter (fun kv => under p kv.1 = false) (d_files s)) (filter (fun kv => under p kv.1 = false) (d_dbs s))
    (filter (fun k => under p k = false) (d_dirs s)) (d_mem s) (d_applied s) (d_closed s).

(** A removal that did not get through: some of what is below the path is gone,
    and the stores there may be damaged. *)
Definition removed_some (s : disk) (p : bytes) (s' : disk) : Prop :=
  d_files s' ⊆ d_files s /\ dom (d_dbs s') ⊆ dom (d_dbs s) /\ d_dirs s' ⊆ d_dirs s
  /\ (forall k, under p k = false ->
       d_files s' !! k = d_files s !! k /\ d_dbs s' !! k = d_dbs s !! k /\ (k ∈ d_dirs s -> k ∈ d_dirs s'))
  /\ d_mem s' = d_mem s /\ d_applied s' = d_applied s /\ d_closed s' = d_closed s.

(** The files below a directory, by their paths in it, and back. *)
Definition below (p : bytes) (kv : bytes * bytes) : option (bytes * bytes) :=
  if HasPrefix kv.1 (p ++ [slash]) then Some (drop (length p + 1) kv.1, kv.2) else None.
Definition files_below (f : gmap bytes bytes) (p : bytes) : gmap bytes bytes :=
  list_to_map (omap (below p) (map_to_list f)).
Definition files_at (p : bytes) (f : gmap bytes bytes) : gmap bytes bytes :=
  kmap (fun n => p ++ slash :: n) f.

(** [os.MkdirAll]: the directory and those above it. *)
Definition made_dirs (p : bytes) (ds : gset bytes) : Prop := p ∈ ds /\ forall q, q ∈ ds -> under p q = true -> q = p.

(** A name of [GetNewRandomDBDirName]. *)
Definition db_dir_name (a t : Z) : bytes := FormatUint a ++ str "_" ++ FormatUint t.

(** The calls that may fail. *)
Context (faults : forall X, fs_ev X -> Prop).

(** What a call does when it does not fail.  The clock has moved on since any
    directory was named, so that a new name is not in use. *)
Definition disk_does (s : disk) {X} (e : fs_ev X) : X -> disk -> Prop :=
  match e in fs_ev X return X -> disk -> Prop with
  | FStat p => fun x s' => x = disk_Stat s p /\ s' = s
  | FCreate p => fun x s' =>
      if is_dir s p then x = Err EISDIR /\ s' = s else x = Ok tt /\ s' = set_files s (<[p := []]> (d_files s))
  | FWrite p b => fun x s' =>
      match d_files s !! p with
      | Some old => x = Ok tt /\ s' = set_files s (<[p := old ++ b]> (d_files s))
      | None => x = Err ENOENT /\ s' = s
      end
  | FSync _ => fun x s' => x = Ok tt /\ s' = s
  | FClose _ => fun x s' => x = Ok tt /\ s' = s
  | FReadAll p => fun x s' => x = match d_files s !! p with Some b => Ok b | None => Err ENOENT end /\ s' = s
  | FRename a b => fun x s' =>
      match d_files s !! a with
      | Some c => x = Ok tt /\ s' = set_files s (<[b := c]> (delete a (d_files s)))
      | None => x = Err ENOENT /\ s' = s
      end
  | FRemoveAll p => fun x s' => x = Ok tt /\ s' = disk_remove s p
  | FList p => fun x s' =>
      exists l, x = Ok l /\ s' = s
        /\ forall n, n ∈ l <-> simple n /\ exists k, present s k /\ under (path_Join [p; n]) k = true
  | FMkdirAll p => fun x s' => x = Ok tt /\ exists ds, made_dirs p ds /\ s' = add_dirs s ds
  | FOpenDir _ => fun x s' => x = Ok tt /\ s' = s
  | FRand => fun x s' => is_uint64 x /\ s' = s
  | FUnixNano => fun x s' =>
      0 <= x < 2 ^ 63 /\ s' = s
      /\ forall a k, is_uint64 a -> present s k -> db_dir_name a x ∉ split_slash k
  | FStop => fun _ s' => s' = s
  | DOpen p => fun x s' =>
      match d_dbs s !! p with
      | Some db => x = Ok db /\ s' = s
      | None => match db_Load (files_below (d_files s) p) with
                | Ok db => x = Ok db /\ s' = set_dbs s (<[p := db]> (d_dbs s))
                | r => x = r /\ s' = s
                end
      end
  | DIngest p names => fun x s' =>
      exists db bs, d_dbs s !! p = Some db /\ mapM (fun n => d_files s !! n) names = Some bs
        /\ match db_Ingest db bs with
           | Ok db' => x = Ok db'
               /\ s' = set_dbs (set_files s (foldr delete (d_files s) names)) (<[p := db']> (d_dbs s))
           | r => x = r /\ s' = s
           end
  | DFlush => fun x s' =>
      match d_mem s with
      | Some (p, db) => x = Ok tt /\ s' = set_dbs s (<[p := db]> (d_dbs s))
      | None => x = Panic /\ s' = s
      end
  | DCheckpoint p => fun x s' =>
      match d_mem s with
      | Some (_, db) =>
          x = Ok tt
          /\ exists ds, made_dirs p ds /\ s' = add_dirs (set_files s (files_at p (db_Checkpoint db) ∪ d_files s)) ds
      | None => x = Panic /\ s' = s
      end
  | DClose _ => fun x s' => x = Ok tt /\ s' = s
  | PLoad => fun x s' => x = d_mem s /\ s' = s
  | PSwap p db => fun x s' => x = d_mem s /\ s' = set_mem s (Some (p, db))
  | PApplied i => fun _ s' => s' = set_applied s i
  | PClosed => fun x s' => x = d_closed s /\ s' = s
  | PSetClosed => fun _ s' => s' = set_closed s
  end.

(** A failed call.  A call that reads or syncs leaves things as they are;
    another may have done some of its work, or all of it: a file may have been
    created or written in part, a rename may have happened, a store that was
    being made or extended may be there with anything in it. *)
Definition disk_fails (s : disk) {X} (e : fs_ev X) : X -> disk -> Prop :=
  match e in fs_ev X return X -> disk -> Prop with
  | FCreate p => fun x s' =>
      x = Err (ErrExternal 1) /\ (s' = s \/ (is_dir s p = false /\ s' = set_files s (<[p := []]> (d_files s))))
  | FWrite p b => fun x s' =>
      x = Err (ErrExternal 1)
      /\ exists old b', d_files s !! p = Some old /\ s' = set_files s (<[p := old ++ b']> (d_files s))
  | FRename a b => fun x s' =>
      x = Err (ErrExternal 1)
      /\ (s' = s \/ exists c, d_files s !! a = Some c /\ s' = set_files s (<[b := c]> (delete a (d_files s))))
  | FRemoveAll p => fun x s' => x = Err (ErrExternal 1) /\ removed_some s p s'
  | FMkdirAll p => fun x s' =>
      x = Err (ErrExternal 1) /\ exists ds, (forall q, q ∈ ds -> under p q = true -> q = p) /\ s' = add_dirs s ds
  | DOpen p => fun x s' =>
      x = Err (ErrExternal 1)
      /\ (s' = s \/ (d_dbs s !! p = None /\ exists db, s' = set_dbs s (<[p := db]> (d_dbs s))))
  | DIngest p names => fun x s' =>
      x = Err (ErrExternal 1)
      /\ (s' = s \/ exists db moved, moved ⊆ names
            /\ s' = set_dbs (set_files s (foldr delete (d_files s) moved)) (<[p := db]> (d_dbs s)))
  | DCheckpoint p => fun x s' =>
      x = Err (ErrExternal 1)
      /\ exists f ds, (forall q, q ∈ ds -> under p q = true -> q = p)
           /\ s' = add_dirs (set_files s (files_at p f ∪ d_files s)) ds
  | FStat _ => fun x s' => x = Err (ErrExternal 1) /\ s' = s
  | FSync _ => fun x s' => x = Err (ErrExternal 1) /\ s' = s
  | FClose _ => fun x s' => x = Err (ErrExternal 1) /\ s' = s
  | FReadAll _ => fun x s' => x = Err (ErrExternal 1) /\ s' = s
  | FList _ => fun x s' => x = Err (ErrExternal 1) /\ s' = s
  | FOpenDir _ => fun x s' => x = Err (ErrExternal 1) /\ s' = s
  | DFlush => fun x s' => x = Err (ErrExternal 1) /\ s' = s
  | DClose _ => fun x s' => x = Err (ErrExternal 1) /\ s' = s
  | _ => fun _ _ => False
  end.

Definition disk_handles (s : disk) (X : Type) (e : fs_ev X) (x : X) (s' : disk) : Prop :=
  disk_does s e x s' \/ (faults X e /\ disk_fails s e x s').
End Disk.

(** ** Names *)

Definition ingest_file (count : Z) : bytes := str "ingest-" ++ FormatUint count ++ str ".sst".

(** A directory name that is no other file of the program. *)
Definition db_name (n : bytes) : Prop :=
  simple n /\ n <> currentDBFilename /\ n <> updatingDBFilename /\ forall i, n <> ingest_file i.

Lemma FormatUint_head n : exists c l, FormatUint n = c :: l /\ between 48 57 c = true.
Proof.
  destruct (FormatUint n) as [|c l] eqn:E; [by apply digits_go_nonempty in E|].
  exists c, l. split; [done|]. apply (FormatUint_digits n). rewrite E. apply list_elem_of_here.
Qed.

Lemma digits_no_slash n : slash ∉ FormatUint n.
Proof. intros H%FormatUint_digits. done. Qed.

Lemma db_dir_name_ok a t : db_name (db_dir_name a t).
Proof.
  unfold db_dir_name. destruct (FormatUint_head a) as (c & l & E & Hc). pose proof (digits_no_slash a) as Ha.
  pose proof (digits_no_slash t) as Ht. rewrite E in *. cbn [app]. unfold db_name, simple. split_and!; try done.
  - intros [= -> ?]. done.
  - intros [= -> ?]. done.
  - apply not_elem_of_cons in Ha as [? ?]. rewrite not_elem_of_cons, elem_of_app. split; [done|].
    intros [?|[?|?]%elem_of_cons]; [done|done|by apply Ht].
  - intros [= -> ?]. done.
  - intros [= -> ?]. done.
  - intros i [= -> ?]. done.
Qed.

Lemma current_simple : simple currentDBFilename.
Proof. by apply (bool_decide_unpack _). Qed.
Lemma updating_simple : simple updatingDBFilename.
Proof. by apply (bool_decide_unpack _). Qed.

Lemma ingest_file_ok count : simple (ingest_file count) /\ ingest_file count <> currentDBFilename.
Proof.
  unfold ingest_file, simple. split_and!; try done. rewrite !not_elem_of_app. split_and!; [|apply digits_no_slash|].
  all: by apply (bool_decide_unpack _).
Qed.

Lemma FormatUint_inj a b : is_uint64 a -> is_uint64 b -> FormatUint a = FormatUint b -> a = b.
Proof. intros Ha Hb E. apply ParseUint_FormatUint in Ha, Hb. rewrite E in Ha. congruence. Qed.

Lemma ingest_file_inj a b : is_uint64 a -> is_uint64 b -> ingest_file a = ingest_file b -> a = b.
Proof. intros Ha Hb E%app_inv_head%app_inv_tail. by apply FormatUint_inj. Qed.

(** What [SaveCurrentDBDirName] writes is what [GetCurrentDBDirName] reads. *)
Definition current_data (n : bytes) : bytes := take 8 (md5_Sum n) ++ n.

Lemma current_content_data n : n <> [] -> current_content (current_data n) = n.
Proof.
  intros Hn. apply len_pos in Hn. unfold current_content, current_data. pose proof (md5_Sum_length n) as Hl.
  assert (Ht : length (take 8 (md5_Sum n)) = 8%nat) by (rewrite length_take; lia).
  rewrite len_app. unfold len at 1. rewrite Ht.
  rewrite (proj2 (Z.leb_gt _ _)) by lia. rewrite take_app_length', drop_app_length' by done.
  by rewrite bool_decide_eq_true_2.
Qed.

(** ** Files of a directory *)

Lemma HasPrefix_slash p k : HasPrefix k (p ++ [slash]) = true <-> exists n, k = p ++ slash :: n.
Proof. rewrite HasPrefix_spec. split; intros [n ->]; exists n; by rewrite <- app_assoc. Qed.

Lemma lookup_files_below f p n : files_below f p !! n = f !! (p ++ slash :: n).
Proof.
  assert (Hb : forall k v, below p (k, v) = Some (n, v) <-> k = p ++ slash :: n).
  { intros k v. unfold below. cbn [fst snd]. destruct (HasPrefix k (p ++ [slash])) eqn:E.
    - apply HasPrefix_slash in E as [m ->]. rewrite drop_app_ge, Nat.add_comm, Nat.add_sub by lia. cbn [drop]. rewrite drop_0.
      split; [by intros [= ->]|]. intros E%app_inv_head. by injection E as ->.
    - split; [done|]. intros ->. by rewrite (proj2 (HasPrefix_slash p _)) in E by eauto. }
  assert (Hin : forall v, (n, v) ∈ omap (below p) (map_to_list f) <-> f !! (p ++ slash :: n) = Some v).
  { intros v. rewrite list_elem_of_omap. split.
    - intros ([k w] & Hk%elem_of_map_to_list & E). assert (w = v) as -> by (unfold below in E; cbn in E; case_match; congruence).
      apply Hb in E as ->. done.
    - intros Hv. exists (p ++ slash :: n, v). split; [by apply elem_of_map_to_list|by apply Hb]. }
  unfold files_below. destruct (list_to_map _ !! n) as [v|] eqn:E.
  - apply elem_of_list_to_map_2 in E. symmetry. by apply Hin.
  - destruct (f !! (p ++ slash :: n)) as [v|] eqn:Ev; [|done]. exfalso.
    apply not_elem_of_list_to_map in E. apply E. apply list_elem_of_fmap. exists (n, v). split; [done|by apply Hin].
Qed.

Lemma files_below_insert f p n v : files_below (<[p ++ slash :: n := v]> f) p = <[n := v]> (files_below f p).
Proof.
  apply map_eq. intros m. rewrite lookup_files_below. destruct (decide (n = m)) as [->|Hne].
  - by rewrite !lookup_insert_eq.
  - rewrite !lookup_insert_ne by (try intros [=]%app_inv_head; done). by rewrite lookup_files_below.
Qed.

#[export] Instance files_at_inj p : Inj (=) (=) (fun n : bytes => p ++ slash :: n).
Proof. intros a b E%app_inv_head. by injection E. Qed.

Lemma lookup_files_at p f n : files_at p f !! (p ++ slash :: n) = f !! n.
Proof. apply (lookup_kmap (fun n : bytes => p ++ slash :: n)). Qed.

(** ** What the calls leave alone *)

Ltac conj_inv :=
  repeat match goal with H : _ /\ _ |- _ => destruct H | H : exists _, _ |- _ => destruct H end.

Section Safety.
Context {P : PebbleOps} {F : StoreFiles P} {T : Tar} (faults : forall X, fs_ev X -> Prop).
Context (dir : bytes) (Hd : clean_dir dir).
Local Abbreviation handles := (disk_handles faults).
Local Abbreviation exec := (exec handles).
Local Abbreviation cut := (cut handles).
Local Abbreviation keeps := (keeps handles).
Local Abbreviation cur := (path_Join [dir; currentDBFilename]).
Local Abbreviation upd := (path_Join [dir; updatingDBFilename]).
Local Abbreviation at_dir n := (path_Join [dir; n]).

(** The store in use: [current] names a directory that has it. *)
Definition holds (n : bytes) (db : DB) (s : disk) : Prop :=
  db_name n /\ current_content <$> d_files s !! cur = Some n /\ d_dbs s !! at_dir n = Some db.

(** A property of what is on the disk at [current] and at store directories. *)
Definition on_disk (J : disk -> Prop) : Prop :=
  forall s s', d_files s' !! cur = d_files s !! cur -> d_dbs s' = d_dbs s -> J s -> J s'.

Lemma holds_on_disk n db : on_disk (holds n db).
Proof using. intros s s' Hf Hb (? & ? & ?). split_and!; [done|by rewrite Hf|by rewrite Hb]. Qed.

(** The calls that change nothing, and those that change nothing of it. *)
Definition still {X} (e : fs_ev X) : bool :=
  match e with
  | FStat _ | FSync _ | FClose _ | FReadAll _ | FList _ | FOpenDir _ | FRand | FUnixNano | FStop | DClose _ | PLoad | PClosed => true
  | _ => false
  end.
Definition quiet {X} (e : fs_ev X) : bool :=
  match e with FMkdirAll _ | PSwap _ _ | PApplied _ | PSetClosed => true | _ => false end.

Lemma still_same {X} (e : fs_ev X) s x s' : still e = true -> handles s X e x s' -> s' = s.
Proof using. intros Hq [H|[_ H]]; destruct e; try done; cbn in H; conj_inv; by subst. Qed.

Lemma quiet_same {X} (e : fs_ev X) s x s' :
  quiet e = true -> handles s X e x s' -> d_files s' = d_files s /\ d_dbs s' = d_dbs s.
Proof using. intros Hq [H|[_ H]]; destruct e; try done; cbn in H; conj_inv; by subst. Qed.

Lemma keeps_still J {X} (e : fs_ev X) : still e = true -> keeps J (perform e) (fun _ => True).
Proof using. intros Hq. apply keeps_call. intros s x s' Hs H. by rewrite (still_same e s x s' Hq H). Qed.

Lemma keeps_quiet J {X} (e : fs_ev X) :
  quiet e = true -> on_disk J -> keeps J (perform e) (fun _ => True).
Proof using.
  intros Hq HJ. apply keeps_call. intros s x s' Hs H. split; [|done].
  destruct (quiet_same e s x s' Hq H) as [E1 E2]. apply (HJ s); [|done|done]. by rewrite E1.
Qed.

Lemma keeps_syncDir J d : keeps J (syncDir d) (fun _ => True).
Proof using.
  apply keeps_seq; [by apply keeps_still|]. intros [|]; [|exact I].
  apply keeps_seq; [by apply keeps_still|]. intros _. apply keeps_then; [by apply keeps_still|]. intros r.
  apply keeps_then; [by apply keeps_still|intros _; exact I].
Qed.

(** Writing a file other than [current] and stores. *)
Lemma keeps_create J p : on_disk J -> p <> cur -> keeps J (perform (FCreate p)) (fun _ => True).
Proof using.
  intros HJ Hp. apply keeps_call. intros s x s' Hs [H|[_ H]]; cbn in H; split; try done.
  - destruct (is_dir s p); destruct H as [_ ->]; [done|]. apply (HJ s); [|done|done]. cbn. by rewrite lookup_insert_ne.
  - destruct H as [_ [->|[_ ->]]]; [done|]. apply (HJ s); [|done|done]. cbn. by rewrite lookup_insert_ne.
Qed.

Lemma keeps_write J p b : on_disk J -> p <> cur -> keeps J (perform (FWrite p b)) (fun _ => True).
Proof using.
  intros HJ Hp. apply keeps_call. intros s x s' Hs [H|[_ H]]; cbn in H; split; try done.
  - destruct (d_files s !! p); destruct H as [_ ->]; [|done]. apply (HJ s); [|done|done]. cbn. by rewrite lookup_insert_ne.
  - destruct H as (_ & old & b' & _ & ->). apply (HJ s); [|done|done]. cbn. by rewrite lookup_insert_ne.
Qed.

Lemma keeps_copy J p b : on_disk J -> p <> cur -> keeps J (copy_file p b) (fun _ => True).
Proof using. intros HJ Hp. unfold copy_file. case_decide; [exact I|by apply keeps_write]. Qed.

Lemma Join_ne a b : simple a -> simple b -> a <> b -> at_dir a <> at_dir b.
Proof using Hd. intros Ha Hb Hab E. apply Hab. by eapply Join_inj. Qed.
Lemma Join_apart a b : simple a -> simple b -> a <> b -> under (at_dir a) (at_dir b) = false.
Proof using Hd. intros Ha Hb Hab. apply not_true_is_false. intros E. apply Hab. by eapply under_simple. Qed.

Lemma keeps_Save J n : on_disk J -> keeps J (SaveCurrentDBDirName dir n) (fun _ => True).
Proof using Hd.
  intros HJ. assert (upd <> cur) by by apply Join_ne; [apply updating_simple|apply current_simple|].
  apply keeps_seq; [by apply keeps_create|]. intros _. apply keeps_then.
  - apply keeps_seq; [by apply keeps_write|]. intros _. apply keeps_seq; [by apply keeps_write|]. intros _. by apply keeps_still.
  - intros r. apply keeps_then; [by apply keeps_still|]. intros _. apply keeps_then; [apply keeps_syncDir|intros _; exact I].
Qed.

Lemma lookup_removed s p k :
  under p k = false -> d_files (disk_remove s p) !! k = d_files s !! k /\ d_dbs (disk_remove s p) !! k = d_dbs s !! k.
Proof using.
  intros Hk. cbn. split; rewrite map_lookup_filter.
  - destruct (d_files s !! k); cbn; [by rewrite option_guard_True|done].
  - destruct (d_dbs s !! k); cbn; [by rewrite option_guard_True|done].
Qed.

Lemma disk_remove_some s p : removed_some s p (disk_remove s p).
Proof using.
  split_and!; try done; cbn.
  - apply map_filter_subseteq.
  - intros k. rewrite !elem_of_dom. intros [x [Hx _]%map_lookup_filter_Some]. by exists x.
  - intros k. by rewrite elem_of_filter; intros [_ ?].
  - intros k Hk. destruct (lookup_removed s p k Hk). split_and!; [done|done|]. by rewrite elem_of_filter.
Qed.

(** A removal, whether it gets through or not. *)
Lemma remove_some p s x s' : handles s _ (FRemoveAll p) x s' -> removed_some s p s'.
Proof using. intros [[_ ->]|[_ [_ H]]]; [apply disk_remove_some|done]. Qed.

Lemma keeps_remove n db p :
  under p cur = false -> under p (at_dir n) = false -> keeps (holds n db) (perform (FRemoveAll p)) (fun _ => True).
Proof using.
  intros Hc Hn. apply keeps_call. intros s x s' Hs H%remove_some. split; [|done]. destruct H as (_ & _ & _ & Hk & _).
  destruct Hs as (? & ? & ?). split_and!; [done|by rewrite (proj1 (Hk _ Hc))|by rewrite (proj1 (proj2 (Hk _ Hn)))].
Qed.

Lemma keeps_GetCurrent n db : keeps (holds n db) (GetCurrentDBDirName dir) (fun r => forall a, r = Ok a -> a = n).
Proof using.
  apply keeps_bind, keeps_call. intros s x s' Hs [[-> ->]|[_ [-> ->]]]; split; try done.
  destruct Hs as (_ & Hc & _). destruct (d_files s !! cur) as [data|] eqn:E; cbn in *; [|done]. intros a [= <-]. congruence.
Qed.

Lemma keeps_List n db : keeps (holds n db) (perform (FList dir)) (fun r => forall l, r = Ok l -> Forall simple l).
Proof using.
  apply keeps_call. intros s x s' Hs [H|[_ [-> ->]]]; [|done]. destruct H as (l & -> & -> & Hl). split; [done|].
  intros l' [= <-]. apply Forall_forall. intros fi Hfi. by apply Hl in Hfi as [? _].
Qed.

(** The cleanup leaves the store in use. *)
Lemma keeps_Cleanup n db : db_name n -> keeps (holds n db) (CleanupNodeDataDir dir) (fun _ => True).
Proof using Hd.
  intros (Hn & Hnc & Hnu & _). apply keeps_seq.
  { apply keeps_remove; apply Join_apart; try done; apply updating_simple || apply current_simple || done. }
  intros _. apply keeps_M_bind. eapply keeps_mono; [|apply keeps_GetCurrent]. intros r Hr dbdir ->.
  rewrite (Hr dbdir) by done. clear Hr. apply keeps_M_bind. eapply keeps_mono; [|apply keeps_List].
  intros r' Hl files ->. specialize (Hl files eq_refl). apply keeps_iter. intros fi Hfi.
  eapply Forall_forall in Hl; [|done]. unfold cleanup_entry. case_decide; [exact I|]. case_decide as Hne; [exact I|].
  apply keeps_remove; apply Join_apart; try done; [apply current_simple|]. by intros ->.
Qed.

(** ** The switch *)

Lemma exec_syncDir d s x s' : exec (syncDir d) s x s' -> s' = s.
Proof using. intros H. by apply (keeps_exec handles (fun t => t = s) _ _ s x s' (keeps_syncDir _ d) eq_refl) in H as [-> _]. Qed.

Lemma exec_still {X} (e : fs_ev X) s x s' : still e = true -> exec (perform e) s x s' -> s' = s.
Proof using. intros He H%exec_perform. by eapply still_same. Qed.

Lemma exec_create p s s' : exec (perform (FCreate p)) s (Ok tt) s' -> s' = set_files s (<[p := []]> (d_files s)).
Proof using. intros [H|[_ H]]%exec_perform; cbn in H; [|by destruct H]. destruct (is_dir s p); by destruct H. Qed.

Lemma exec_write p b s s' :
  exec (perform (FWrite p b)) s (Ok tt) s' -> exists old, d_files s !! p = Some old /\ s' = set_files s (<[p := old ++ b]> (d_files s)).
Proof using. intros [H|[_ H]]%exec_perform; cbn in H; [|by destruct H]. destruct (d_files s !! p); destruct H; eauto; done. Qed.

Lemma exec_Save n s s' :
  exec (SaveCurrentDBDirName dir n) s (Ok tt) s' -> s' = set_files s (<[upd := current_data n]> (d_files s)).
Proof using.
  unfold SaveCurrentDBDirName. intros ([] & s1 & H1%exec_create & H)%exec_M_bind.
  apply exec_bind in H as (r & s2 & H2 & H). apply exec_bind in H as (c & s3 & ->%exec_still & H); [|done].
  apply exec_bind in H as (c' & s4 & ->%exec_syncDir & H). destruct H as [-> <-].
  apply exec_M_bind in H2 as ([] & s5 & (old & Ho & ->)%exec_write & H2).
  apply exec_M_bind in H2 as ([] & s6 & (old' & Ho' & ->)%exec_write & H2). apply exec_still in H2; [|done]. subst s2 s1.
  cbn in *. rewrite lookup_insert_eq in Ho. injection Ho as <-. rewrite lookup_insert_eq in Ho'. injection Ho' as <-.
  unfold set_files. cbn. by rewrite !insert_insert_eq.
Qed.

(** The rename makes the new name current at once. *)
Lemma cut_Replace n s s' :
  d_files s !! upd = Some (current_data n) -> cut (ReplaceCurrentDBFile dir) s s' ->
  s' = s \/ s' = set_files s (<[cur := current_data n]> (delete upd (d_files s))).
Proof using.
  intros Hu [H|([] & s1 & H1 & H)]%cut_M_bind.
  - destruct H as [->|(x & s1 & Hx & H)]; [by left|]. assert (s' = s1) as -> by by destruct H.
    destruct Hx as [Hx|[_ [_ [->|(c & Hc & ->)]]]]; [|by left|right; by rewrite Hu in Hc; injection Hc as <-].
    cbn [disk_does] in Hx. rewrite Hu in Hx. destruct Hx as [_ ->]. by right.
  - apply exec_perform in H1 as [H1|[_ [? _]]]; [|done]. cbn [disk_does] in H1. rewrite Hu in H1. destruct H1 as [_ ->].
    right. exact (keeps_cut handles (fun t => t = _) _ _ _ s' (keeps_syncDir _ dir) eq_refl H).
Qed.
Lemma exec_Replace n s s' :
  d_files s !! upd = Some (current_data n) -> exec (ReplaceCurrentDBFile dir) s (Ok tt) s' ->
  s' = set_files s (<[cur := current_data n]> (delete upd (d_files s))).
Proof using.
  intros Hu ([] & s1 & H1 & ->%exec_syncDir)%exec_M_bind. apply exec_perform in H1 as [H1|[_ [? _]]]; [|done].
  cbn [disk_does] in H1. rewrite Hu in H1. by destruct H1.
Qed.

Lemma holds_switched n db s :
  db_name n -> d_dbs s !! at_dir n = Some db -> holds n db (set_files s (<[cur := current_data n]> (delete upd (d_files s)))).
Proof using.
  intros Hn Hdb. split_and!; [done| |done]. cbn. rewrite lookup_insert_eq. cbn. rewrite current_content_data; [done|].
  apply Hn.
Qed.

Lemma keeps_finish n db idx (olddir : option (bytes * DB)) :
  db_name n ->
  keeps (holds n db) (
    _ <~ perform (PApplied idx);
    _ <~ (match olddir with Some (d, _) => perform (DClose d) | None => M_ret tt end);
    CleanupNodeDataDir dir) (fun _ => True).
Proof using Hd.
  intros Hn. apply keeps_then; [apply keeps_quiet; [done|apply holds_on_disk]|]. intros [].
  apply keeps_then; [destruct olddir as [[d ?]|]; [by apply keeps_still|exact I]|]. intros _. by apply keeps_Cleanup.
Qed.

(** Before the switch the old store is in use, after it the new one. *)
Lemma cut_switch n0 db0 n1 db1 s s' :
  db_name n1 -> holds n0 db0 s -> d_dbs s !! at_dir n1 = Some db1 ->
  cut (switch dir n1 (at_dir n1) db1) s s' -> holds n0 db0 s' \/ holds n1 db1 s'.
Proof using Hd.
  intros Hn Hs Hdb [H|(idx & s1 & Hi & H)]%cut_M_bind.
  { destruct H as [<-|[]]. by left. }
  destruct Hi as [_ <-]. apply cut_M_bind in H as [H|([] & s2 & ->%exec_Save & H)].
  { left. eapply (keeps_cut handles); [|exact Hs|exact H]. apply keeps_Save, holds_on_disk. }
  assert (Hup : upd <> cur) by by apply Join_ne; [apply updating_simple|apply current_simple|].
  apply cut_M_bind in H as [H|([] & s3 & H3 & H)].
  - apply (cut_Replace n1) in H; [|cbn; by rewrite lookup_insert_eq]. destruct H as [->| ->].
    + left. apply (holds_on_disk _ _ s); [|reflexivity|exact Hs]. cbn. by rewrite lookup_insert_ne.
    + right. by apply holds_switched.
  - apply (exec_Replace n1) in H3 as ->; [|cbn; by rewrite lookup_insert_eq]. right.
    pose proof (holds_switched n1 db1 (set_files s (<[upd := current_data n1]> (d_files s))) Hn Hdb) as Hsw.
    eapply (keeps_cut handles (holds n1 db1)); [|exact Hsw|exact H].
    apply keeps_then; [apply keeps_quiet; [done|apply holds_on_disk]|]. intros old. by apply keeps_finish.
Qed.

(** The memory is not touched by a cleanup. *)
Lemma keeps_Cleanup_mem m i : keeps (fun t => d_mem t = m /\ d_applied t = i) (CleanupNodeDataDir dir) (fun _ => True).
Proof using.
  assert (Hr : forall p, keeps (fun t => d_mem t = m /\ d_applied t = i) (perform (FRemoveAll p)) (fun _ => True)).
  { intros p. apply keeps_call. intros s x s' Hs (_ & _ & _ & _ & -> & -> & _)%remove_some. done. }
  apply keeps_seq; [apply Hr|]. intros _. apply keeps_seq; [apply keeps_seq; [by apply keeps_still|intros ?; exact I]|]. intros dbdir.
  apply keeps_seq; [by apply keeps_still|]. intros files. apply keeps_iter. intros fi _. unfold cleanup_entry.
  case_decide; [exact I|]. case_decide; [exact I|apply Hr].
Qed.

Lemma exec_switch n0 db0 n1 db1 s s' :
  db_name n1 -> holds n0 db0 s -> d_dbs s !! at_dir n1 = Some db1 ->
  exec (switch dir n1 (at_dir n1) db1) s (Ok tt) s' ->
  holds n1 db1 s' /\ d_mem s' = Some (at_dir n1, db1) /\ readLocalIndex (read_db db1) sysLocalIndex = Ok (d_applied s').
Proof using Hd.
  intros Hn Hs Hdb (idx & s1 & [Hidx <-] & H)%exec_M_bind.
  apply exec_M_bind in H as ([] & s2 & ->%exec_Save & H).
  apply exec_M_bind in H as ([] & s3 & H3 & H). apply (exec_Replace n1) in H3 as ->; [|cbn; by rewrite lookup_insert_eq].
  pose proof (holds_switched n1 db1 (set_files s (<[upd := current_data n1]> (d_files s))) Hn Hdb) as Hsw.
  set (s4 := set_files _ _) in *. apply exec_bind in H as (old & s5 & [[_ ->]|[_ []]]%exec_perform & H).
  apply exec_bind in H as ([] & s6 & [->|[_ []]]%exec_perform & H).
  apply exec_bind in H as (c & s7 & Hc & H).
  assert (s7 = set_applied (set_mem s4 (Some (at_dir n1, db1))) idx) as ->.
  { destruct old as [[d ?]|]; [by apply exec_still in Hc|by destruct Hc]. }
  pose proof (fun J => keeps_exec handles _ _ _ _ _ _ (keeps_Cleanup_mem (Some (at_dir n1, db1)) idx) J H) as Hm.
  destruct Hm as [[-> ->] _]; [done|].
  split; [|done]. apply (keeps_exec handles _ _ _ _ _ _ (keeps_Cleanup n1 db1 Hn)) in H as [? _]; [done|].
  by apply (holds_on_disk _ _ s4).
Qed.

(** ** Reading the tables of a snapshot *)

(** The tables in a stream. *)
Fixpoint frames (fuel : nat) (r : bytes) : list bytes :=
  match fuel with
  | O => []
  | S fuel' =>
      match ReadFull r 8 with
      | Ok (buf, r) =>
          match Uint64 buf with
          | Ok size => take (Z.to_nat size) r :: frames fuel' (drop (Z.to_nat size) r)
          | _ => []
          end
      | _ => []
      end
  end.

Lemma frames_length fuel r : (length (frames fuel r) <= fuel)%nat.
Proof using.
  revert r. induction fuel as [|fuel IH]; intros r; [done|]. cbn [frames].
  destruct (ReadFull r 8) as [[buf r']| |]; [|cbn [length]; lia..].
  destruct (Uint64 buf) as [size| |]; cbn [length]; [|lia..]. specialize (IH (drop (Z.to_nat size) r')). lia.
Qed.

Fixpoint ingest_names (count : Z) (n : nat) : list bytes :=
  match n with O => [] | S n' => ingest_name dir count :: ingest_names (count + 1) n' end.

Lemma elem_of_ingest_names k count n :
  k ∈ ingest_names count n -> exists i, count <= i < count + Z.of_nat n /\ k = ingest_name dir i.
Proof using.
  revert count. induction n as [|n IH]; intros count; [by intros ?%not_elem_of_nil|]. intros [->|Hk]%elem_of_cons.
  - exists count. split; [lia|done].
  - destruct (IH _ Hk) as (i & ? & ->). exists i. split; [lia|done].
Qed.

Lemma ingest_name_inj a b : is_uint64 a -> is_uint64 b -> ingest_name dir a = ingest_name dir b -> a = b.
Proof using Hd.
  intros Ha Hb E. apply ingest_file_inj; [done..|]. eapply Join_inj; [exact Hd|apply ingest_file_ok..|exact E].
Qed.
Lemma ingest_name_cur i : ingest_name dir i <> cur.
Proof using Hd. destruct (ingest_file_ok i) as [? ?]. by apply Join_ne; [|apply current_simple|]. Qed.

Lemma keeps_read J fuel r count files : on_disk J -> keeps J (snapshot_read fuel dir r count files) (fun _ => True).
Proof using Hd.
  intros HJ. revert r count files. induction fuel as [|fuel IH]; intros r count files; [exact I|]. cbn [snapshot_read].
  apply keeps_then; [by apply keeps_still|]. intros [|]; [exact I|].
  destruct (ReadFull r 8) as [[buf r']|e|]; [|case_decide; exact I|exact I].
  apply keeps_seq; [exact I|]. intros size. destruct (maxAlloc <? size); [exact I|].
  apply keeps_seq; [apply keeps_create; [done|apply ingest_name_cur]|]. intros _.
  apply keeps_seq; [apply keeps_copy; [done|apply ingest_name_cur]|]. intros _.
  apply keeps_seq; [by apply keeps_still|]. intros _. apply keeps_seq; [by apply keeps_still|]. intros _. apply IH.
Qed.

(** Creating a file and copying into it. *)
Lemma exec_create_copy p b s s1 s2 :
  exec (perform (FCreate p)) s (Ok tt) s1 -> exec (copy_file p b) s1 (Ok tt) s2 ->
  s2 = set_files s (<[p := b]> (d_files s)).
Proof using.
  intros ->%exec_create H. unfold copy_file in H. case_decide as Hb; [subst b; by destruct H as [_ <-]|].
  apply exec_write in H as (old & Ho & ->). cbn in *. rewrite lookup_insert_eq in Ho. injection Ho as <-.
  unfold set_files. cbn. by rewrite insert_insert_eq.
Qed.

Lemma exec_read fuel : forall r count files s fs s',
  exec (snapshot_read fuel dir r count files) s (Ok (Some fs)) s' -> 0 <= count -> count + Z.of_nat fuel < 2 ^ 64 ->
  let bs := frames fuel r in let names := ingest_names count (length bs) in
  fs = files ++ names /\ (exists f, s' = set_files s f) /\ (forall k, k ∉ names -> d_files s' !! k = d_files s !! k)
  /\ Forall2 (fun n b => d_files s' !! n = Some b) names bs.
Proof using Hd.
  induction fuel as [|fuel IH]; intros r count files s fs s' H H0 Hc; [by destruct H|]. cbn [snapshot_read frames] in *.
  apply exec_bind in H as (stop & s1 & ->%exec_still & H); [|done]. destruct stop; [by destruct H|].
  destruct (ReadFull r 8) as [[buf r']|e|]; [|case_decide; destruct H as [H <-]; [|done]|by destruct H].
  - apply exec_M_bind in H as (size & s2 & [-> <-] & H). destruct (maxAlloc <? size); [by destruct H|].
    apply exec_M_bind in H as ([] & s3 & H3 & H). apply exec_M_bind in H as ([] & s4 & H4 & H).
    pose proof (exec_create_copy _ _ _ _ _ H3 H4) as ->. clear s3 H3 H4.
    apply exec_M_bind in H as ([] & s5 & ->%exec_still & H); [|done].
    apply exec_M_bind in H as ([] & s6 & ->%exec_still & H); [|done].
    apply IH in H as (-> & (f & ->) & Hoff & Hall); [|lia..]. cbn [length ingest_names].
    assert (Hnin : ingest_name dir count ∉ ingest_names (count + 1) (length (frames fuel (drop (Z.to_nat size) r')))).
    { intros (i & Hi & E)%elem_of_ingest_names. pose proof (frames_length fuel (drop (Z.to_nat size) r')).
      apply ingest_name_inj in E; unfold is_uint64; lia. }
    split_and!; [by rewrite <- app_assoc|by exists f| |].
    + intros k [? ?]%not_elem_of_cons. rewrite Hoff by done. cbn. by rewrite lookup_insert_ne.
    + constructor; [|done]. rewrite Hoff by done. cbn. by rewrite lookup_insert_eq.
  - injection H as <-. cbn. split_and!; [by rewrite app_nil_r|exists (d_files s); by destruct s|done|constructor].
Qed.

(** ** Unpacking a checkpoint *)

Definition archive_put (m : gmap bytes bytes) (h : tar_entry) : gmap bytes bytes :=
  match tar_Typeflag h with TypeReg => <[path_Clean (tar_Name h) := tar_data h]> m | _ => m end.
(** The regular files of an archive by their cleaned names. *)
Definition archive_files (hs : list tar_entry) : gmap bytes bytes := foldl archive_put ∅ hs.

Lemma target_under n h :
  simple n -> IsLocal (tar_Name h) = true -> under (at_dir n) (path_Join [at_dir n; path_Clean (tar_Name h)]) = true.
Proof using Hd.
  intros Hn Hl. rewrite (Join_local (at_dir n)) by (try apply Join_clean_dir; done). unfold under.
  case_decide; [by rewrite bool_decide_eq_true_2|]. rewrite (proj2 (HasPrefix_slash _ _)) by eauto. apply orb_true_r.
Qed.

Lemma target_cur n h :
  db_name n -> IsLocal (tar_Name h) = true -> path_Join [at_dir n; path_Clean (tar_Name h)] <> cur.
Proof using Hd.
  intros (Hn & Hc & _) Hl E. pose proof (target_under n h Hn Hl) as Hu. rewrite E in Hu.
  apply Hc. apply (under_simple dir Hd); [done|apply current_simple|done].
Qed.

Lemma keeps_checkpoint_read J n hs err :
  db_name n -> on_disk J -> keeps J (checkpoint_read (at_dir n) hs err) (fun _ => True).
Proof using Hd.
  intros Hn HJ. induction hs as [|h hs IH]; cbn [checkpoint_read].
  - apply keeps_then; [by apply keeps_still|]. intros [|]; [exact I|]. destruct err; exact I.
  - apply keeps_then; [by apply keeps_still|]. intros [|]; [exact I|]. apply keeps_seq; [|intros _; exact IH].
    unfold checkpoint_entry. destruct (IsLocal (tar_Name h)) eqn:Hl; [|exact I]. cbn [negb].
    pose proof (target_cur n h Hn Hl) as Ht. destruct (tar_Typeflag h); [| |exact I].
    + apply keeps_seq; [by apply keeps_create|]. intros _. apply keeps_seq; [by apply keeps_copy|]. intros _.
      apply keeps_seq; [by apply keeps_still|]. intros _. by apply keeps_still.
    + apply keeps_then; [by apply keeps_still|]. intros [?|?|]; [exact I|by apply keeps_quiet|exact I].
Qed.

Lemma exec_checkpoint_entry n h s s' :
  simple n -> at_dir n ∈ d_dirs s -> exec (checkpoint_entry (at_dir n) h) s (Ok tt) s' ->
  at_dir n ∈ d_dirs s' /\ d_dbs s' = d_dbs s
  /\ files_below (d_files s') (at_dir n) = archive_put (files_below (d_files s) (at_dir n)) h.
Proof using Hd.
  intros Hn Hin H. unfold checkpoint_entry, archive_put in *. destruct (IsLocal (tar_Name h)) eqn:Hl; [|by destruct H].
  cbn [negb] in H. pose proof (Join_local (at_dir n) (Join_clean_dir dir Hd n Hn) _ Hl) as Et.
  destruct (tar_Typeflag h).
  - apply exec_M_bind in H as ([] & s1 & H1 & H). apply exec_M_bind in H as ([] & s2 & H2 & H).
    pose proof (exec_create_copy _ _ _ _ _ H1 H2) as ->.
    apply exec_M_bind in H as ([] & s3 & ->%exec_still & H); [|done]. apply exec_still in H as ->; [|done].
    split_and!; [done|done|]. cbn [d_files set_files]. rewrite Et. case_decide as Hdot; [|apply files_below_insert].
    rewrite Et in H1. apply exec_perform in H1 as [H1|[_ [? _]]]; [|done]. cbn [disk_does] in H1. unfold is_dir in H1.
    rewrite bool_decide_eq_true_2 in H1 by done. by destruct H1.
  - apply exec_bind in H as (r & s1 & ->%exec_still & H); [|done].
    assert (Hs : s' = s \/ exists ds, s' = add_dirs s ds).
    { destruct r; [left; by destruct H as [_ <-]| |left; by destruct H as [_ <-]]. apply exec_perform in H as [(_ & ds & _ & ->)|[_ [? _]]]; [|done]. right. eauto. }
    destruct Hs as [->|[ds ->]]; [done|]. cbn. split_and!; [set_solver|done|done].
  - by destruct H as [_ <-].
Qed.

Lemma exec_checkpoint_read n hs err : forall s s',
  simple n -> at_dir n ∈ d_dirs s -> exec (checkpoint_read (at_dir n) hs err) s (Ok tt) s' ->
  err = None /\ d_dbs s' = d_dbs s
  /\ files_below (d_files s') (at_dir n) = foldl archive_put (files_below (d_files s) (at_dir n)) hs.
Proof using Hd.
  induction hs as [|h hs IH]; intros s s' Hn Hin H; cbn [checkpoint_read] in H;
    apply exec_bind in H as (stop & s1 & ->%exec_still & H); try done; (destruct stop; [by destruct H|]).
  - destruct err; by destruct H as [? <-].
  - apply exec_M_bind in H as ([] & s2 & H2 & H). apply exec_checkpoint_entry in H2 as (H3 & H4 & H5); [|done|done].
    apply IH in H as (-> & -> & ->); [|done|done]. by rewrite H4, H5.
Qed.

(** ** Recovering *)

Lemma exec_random s n s' :
  exec GetNewRandomDBDirName s n s' ->
  s' = s /\ db_name n /\ forall k, present s k -> under (at_dir n) k = false.
Proof using Hd.
  intros (a & s1 & Ha & H)%exec_bind. apply exec_bind in H as (t & s2 & Ht & [<- <-]).
  apply exec_perform in Ha as [[Ha ->]|[_ []]]. apply exec_perform in Ht as [(Ht & -> & Hf)|[_ []]].
  pose proof (db_dir_name_ok a t) as Hn. split_and!; [done|done|]. intros k Hk. apply not_true_is_false. intros Hu.
  apply (Hf a k); [done|done|]. apply (under_element dir Hd); [apply Hn|done].
Qed.

Lemma keeps_random J : keeps J GetNewRandomDBDirName (fun _ => True).
Proof using. apply keeps_then; [by apply keeps_still|]. intros a. apply keeps_then; [by apply keeps_still|]. intros t. exact I. Qed.

Lemma keeps_check J p : keeps J (check_fsm p) (fun _ => True).
Proof using. apply keeps_then; [by apply keeps_still|]. intros [|]; [exact I|]. repeat case_match; exact I. Qed.

Lemma exec_check p s x s' : exec (check_fsm p) s x s' -> s' = s.
Proof using. intros H. by apply (keeps_exec handles (fun t => t = s) _ _ s x s' (keeps_check _ p) eq_refl) in H as [-> _]. Qed.

(** Opening, whether it gets through or not; and ingesting below. *)
Lemma open_some p s x s' :
  handles s _ (DOpen p) x s' -> s' = s \/ (d_dbs s !! p = None /\ exists db, s' = set_dbs s (<[p := db]> (d_dbs s))).
Proof using.
  intros [H|[_ [_ H]]]; [|done]. cbn [disk_does] in H. destruct (d_dbs s !! p) eqn:E; [by left; destruct H as [_ ->]|].
  destruct (db_Load _); destruct H as [_ ->]; [right; eauto|by left..].
Qed.

Lemma keeps_open n db p : keeps (holds n db) (perform (DOpen p)) (fun _ => True).
Proof using.
  apply keeps_call. intros s x s' Hs [->|(Hp & db' & ->)]%open_some; [done|]. split; [|done]. destruct Hs as (? & ? & Hdb). split_and!; [done|done|]. cbn. rewrite lookup_insert_ne; [done|]. congruence.
Qed.

(** A new directory has neither a store nor files. *)
Lemma fresh_dir n s :
  (forall k, present s k -> under (at_dir n) k = false) ->
  d_dbs s !! at_dir n = None /\ files_below (d_files s) (at_dir n) = ∅.
Proof using.
  intros Hf. assert (Hself : under (at_dir n) (at_dir n) = true) by (unfold under; by rewrite bool_decide_eq_true_2). split.
  - destruct (d_dbs s !! at_dir n) eqn:E; [|done]. assert (Hp : present s (at_dir n)); [|apply Hf in Hp; congruence].
    left. unfold is_dir. rewrite (bool_decide_eq_true_2 (is_Some _)) by (rewrite E; eauto). apply orb_true_r.
  - apply map_empty. intros m. rewrite lookup_files_below. destruct (d_files s !! _) eqn:E; [|done].
    assert (Hp : present s (at_dir n ++ slash :: m)) by (right; rewrite E; eauto). apply Hf in Hp.
    unfold under in Hp. rewrite (proj2 (HasPrefix_slash _ _)) in Hp by eauto. by rewrite orb_true_r in Hp.
Qed.

Lemma fresh_ne n n0 db0 s :
  (forall k, present s k -> under (at_dir n) k = false) -> holds n0 db0 s -> n <> n0.
Proof using. intros [Hf _]%fresh_dir (_ & _ & Hdb) ->. congruence. Qed.

Lemma exec_open_new n s db s' :
  d_dbs s !! at_dir n = None -> exec (perform (DOpen (at_dir n))) s (Ok db) s' ->
  db_Load (files_below (d_files s) (at_dir n)) = Ok db /\ s' = set_dbs s (<[at_dir n := db]> (d_dbs s)).
Proof using.
  intros Hn [H|[_ [? _]]]%exec_perform; [|done]. cbn [disk_does] in H. rewrite Hn in H.
  destruct (db_Load _); destruct H as [[= <-] ->]; done.
Qed.

Lemma lookup_foldr_delete {V} (m : gmap bytes V) ks k : k ∉ ks -> foldr delete m ks !! k = m !! k.
Proof using. induction ks as [|k' ks IH]; [done|]. intros [? ?]%not_elem_of_cons. cbn. rewrite lookup_delete_ne by done. auto. Qed.

(** The store that a snapshot stream is built into. *)
Definition built (rc : snapshotRecoverer) (r : bytes) (db1 : DB) : Prop :=
  match rc with
  | RSnapshot => exists db, db_Load ∅ = Ok db /\ db_Ingest db (frames (S (length r)) r) = Ok db1
  | RCheckpoint => (tar_Read r).2 = None /\ db_Load (archive_files (tar_Read r).1) = Ok db1
  end.

(** The state before the switch: the old store in use, the new one beside it. *)
Definition ready (rc : snapshotRecoverer) (r n0 : bytes) (db0 : DB) (n1 : bytes) (db1 : DB) (s : disk) : Prop :=
  db_name n1 /\ holds n0 db0 s /\ d_dbs s !! at_dir n1 = Some db1 /\ built rc r db1.

Lemma ingest_names_cur count n : cur ∉ ingest_names count n.
Proof using Hd. intros (i & _ & E)%elem_of_ingest_names. by apply (ingest_name_cur i). Qed.

Lemma ingest_some p names s x s' :
  handles s _ (DIngest p names) x s' ->
  s' = s \/ exists db moved, moved ⊆ names /\ s' = set_dbs (set_files s (foldr delete (d_files s) moved)) (<[p := db]> (d_dbs s)).
Proof using.
  intros [H|[_ [_ H]]]; [|done]. destruct H as (db & bs & _ & _ & H).
  destruct (db_Ingest db bs); destruct H as [_ ->]; [right; eauto|by left..].
Qed.

Lemma keeps_ingest n0 db0 n count k :
  simple n0 -> simple n -> n <> n0 -> keeps (holds n0 db0) (perform (DIngest (at_dir n) (ingest_names count k))) (fun _ => True).
Proof using Hd.
  intros Hn0 Hn Hne. apply keeps_call. intros s x s' Hs [->|(db' & moved & Hm & ->)]%ingest_some; [done|]. split; [|done].
  destruct Hs as (? & Hc & Hdb). split_and!; [done| |].
  - cbn. rewrite lookup_foldr_delete; [done|]. intros Hin%Hm. by apply ingest_names_cur in Hin.
  - cbn. rewrite lookup_insert_ne by by apply Join_ne. done.
Qed.

(** From the new directory to the ingested store. *)
Lemma exec_ingest n0 db0 n db r s1 fs s2 db1 s3 :
  db_name n -> n <> n0 -> len r < 2 ^ 63 -> holds n0 db0 s1 -> d_dbs s1 !! at_dir n = Some db -> db_Load ∅ = Ok db ->
  exec (snapshot_read (S (length r)) dir r 0 []) s1 (Ok (Some fs)) s2 ->
  exec (perform (DIngest (at_dir n) fs)) s2 (Ok db1) s3 -> ready RSnapshot r n0 db0 n db1 s3.
Proof using Hd.
  intros Hn Hne Hr Hs Hdb Hl H2 H3. pose proof Hs as ((Hn0 & _) & _). pose proof Hn as [Hsn _].
  pose proof (keeps_exec handles _ _ _ _ _ _ (keeps_read (holds n0 db0) (S (length r)) r 0 [] (holds_on_disk n0 db0)) Hs H2) as [Hs2 _].
  apply exec_read in H2 as (-> & (f & ->) & _ & Hall); [|lia|unfold len in Hr; lia]. cbn [app] in *.
  pose proof (keeps_exec handles _ _ _ _ _ _ (keeps_ingest n0 db0 n _ _ Hn0 Hsn Hne) Hs2 H3) as [Hs3 _].
  split_and!; [done|done| |].
  all: apply exec_perform in H3 as [(db' & bs & Hdb' & Hbs & H3)|[_ [? _]]]; [|done]; cbn in Hdb'; rewrite Hdb in Hdb'; injection Hdb' as <-.
  all: rewrite (proj2 (mapM_Some _ _ _) Hall) in Hbs; injection Hbs as <-.
  all: destruct (db_Ingest db _) eqn:Ei; destruct H3 as [[= ->] ->].
  - cbn. by rewrite lookup_insert_eq.
  - by exists db.
Qed.

Section Recover.
Context (p : fsmConfig) (Hp : fc_dirname p = dir) (r : bytes) (Hr : len r < 2 ^ 63).

Lemma cut_snapshot_recover n0 db0 s s' :
  holds n0 db0 s -> cut (snapshot_recover p r) s s' ->
  holds n0 db0 s' \/ exists n1 db1, holds n1 db1 s' /\ built RSnapshot r db1.
Proof using Hd Hp Hr.
  intros Hs. unfold snapshot_recover. rewrite Hp. intros [H|([] & s1 & ->%exec_check & H)]%cut_M_bind.
  { left. eapply (keeps_cut handles); [apply keeps_check|exact Hs|exact H]. }
  apply cut_bind in H as [H|(n & s1 & (-> & Hn & Hf)%exec_random & H)].
  { left. eapply (keeps_cut handles); [apply keeps_random|exact Hs|exact H]. }
  pose proof (fresh_ne n n0 db0 s Hf Hs) as Hne. pose proof (fresh_dir n s Hf) as [Hnone Hempty].
  pose proof Hs as ((Hn0 & _) & _). pose proof Hn as [Hsn _].
  apply cut_M_bind in H as [H|(db & s2 & H2 & H)].
  { left. eapply (keeps_cut handles); [apply keeps_open|exact Hs|exact H]. }
  pose proof (keeps_exec handles _ _ _ _ _ _ (keeps_open n0 db0 _) Hs H2) as [Hs2 _].
  apply exec_open_new in H2 as [Hl ->]; [|done]. rewrite Hempty in Hl. pose proof (keeps_read (holds n0 db0) (S (length r)) r 0 [] (holds_on_disk n0 db0)) as Hk.
  apply cut_M_bind in H as [H|([fs|] & s3 & H3 & H)].
  - left. eapply (keeps_cut handles); [exact Hk|exact Hs2|exact H].
  - pose proof (keeps_exec handles _ _ _ _ _ _ Hk Hs2 H3) as [Hs3 _].
    apply cut_M_bind in H as [H|(db1 & s4 & H4 & H)].
    + left. pose proof H3 as (-> & _)%exec_read; [|lia|unfold len in Hr; lia].
      eapply (keeps_cut handles); [by apply keeps_ingest|exact Hs3|exact H].
    + destruct (exec_ingest n0 db0 n db r _ fs s3 db1 s4 Hn Hne Hr Hs2) as (_ & Hh & Hdb & Hb); try done.
      { cbn. by rewrite lookup_insert_eq. }
      apply (cut_switch n0 db0) in H as [H|H]; [by left| |done..]. right. by exists n, db1.
  - pose proof (keeps_exec handles _ _ _ _ _ _ Hk Hs2 H3) as [Hs3 _]. left.
    eapply (keeps_cut handles); [|exact Hs3|exact H]. apply keeps_then; [by apply keeps_still|]. intros ?.
    apply keeps_then; [apply keeps_Cleanup; apply Hs|]. intros ?. exact I.
Qed.

(** The outcome of a recovery. *)
Definition recovered (rc : snapshotRecoverer) (s' : disk) : Prop :=
  exists n1 db1, holds n1 db1 s' /\ built rc r db1 /\ d_mem s' = Some (at_dir n1, db1)
    /\ readLocalIndex (read_db db1) sysLocalIndex = Ok (d_applied s').

Lemma ready_switched rc n0 db0 n1 db1 s s' :
  ready rc r n0 db0 n1 db1 s -> exec (switch dir n1 (at_dir n1) db1) s (Ok tt) s' -> recovered rc s'.
Proof using Hd.
  intros (Hn & Hs & Hdb & Hb) H. apply (exec_switch n0 db0) in H as (? & ? & ?); [|done..]. by exists n1, db1.
Qed.

Lemma exec_snapshot_recover n0 db0 s s' :
  holds n0 db0 s -> exec (snapshot_recover p r) s (Ok tt) s' -> recovered RSnapshot s'.
Proof using Hd Hp Hr.
  intros Hs. unfold snapshot_recover. rewrite Hp. intros ([] & s1 & ->%exec_check & H)%exec_M_bind.
  apply exec_bind in H as (n & s1 & (-> & Hn & Hf)%exec_random & H).
  pose proof (fresh_ne n n0 db0 s Hf Hs) as Hne. pose proof (fresh_dir n s Hf) as [Hnone Hempty].
  apply exec_M_bind in H as (db & s2 & H2 & H).
  pose proof (keeps_exec handles _ _ _ _ _ _ (keeps_open n0 db0 _) Hs H2) as [Hs2 _].
  apply exec_open_new in H2 as [Hl ->]; [|done]. rewrite Hempty in Hl.
  apply exec_M_bind in H as ([fs|] & s3 & H3 & H).
  - apply exec_M_bind in H as (db1 & s4 & H4 & H). eapply ready_switched; [|exact H].
    eapply exec_ingest; [done|exact Hne|done|exact Hs2| |exact Hl|exact H3|exact H4]. cbn. by rewrite lookup_insert_eq.
  - apply exec_bind in H as (c & s4 & _ & H). apply exec_bind in H as (c' & s5 & _ & [? _]). done.
Qed.

(** The state in which the unpacked checkpoint is opened. *)
Lemma unpacked n0 db0 n s s2 s3 :
  db_name n -> holds n0 db0 s -> (forall k, present s k -> under (at_dir n) k = false) ->
  exec (perform (FMkdirAll (at_dir n))) s (Ok tt) s2 ->
  exec (checkpoint_read (at_dir n) (tar_Read r).1 (tar_Read r).2) s2 (Ok tt) s3 ->
  holds n0 db0 s3 /\ d_dbs s3 !! at_dir n = None /\ (tar_Read r).2 = None
  /\ files_below (d_files s3) (at_dir n) = archive_files (tar_Read r).1.
Proof using Hd.
  clear Hp Hr. intros Hn Hs Hf H2 H3. pose proof (fresh_dir n s Hf) as [Hnone Hempty]. pose proof Hn as [Hsn _].
  pose proof (keeps_exec handles _ _ _ _ _ _ (keeps_quiet (holds n0 db0) (FMkdirAll (at_dir n)) eq_refl (holds_on_disk n0 db0)) Hs H2) as [Hs2 _].
  pose proof (keeps_exec handles _ _ _ _ _ _ (keeps_checkpoint_read (holds n0 db0) n (tar_Read r).1 (tar_Read r).2 Hn (holds_on_disk n0 db0)) Hs2 H3) as [Hs3 _].
  apply exec_perform in H2 as [(_ & ds & [Hin _] & ->)|[_ [? _]]]; [|done]. apply exec_checkpoint_read in H3 as (He & Hdbs & Hfs); [|done|].
  - split_and!; [done|by rewrite Hdbs|done|]. rewrite Hfs. cbn [add_dirs d_files]. by rewrite Hempty.
  - cbn. set_solver.
Qed.

Lemma unpacked_ready n0 db0 n s3 db s4 :
  db_name n -> holds n0 db0 s3 -> d_dbs s3 !! at_dir n = None -> (tar_Read r).2 = None ->
  files_below (d_files s3) (at_dir n) = archive_files (tar_Read r).1 ->
  exec (perform (DOpen (at_dir n))) s3 (Ok db) s4 -> ready RCheckpoint r n0 db0 n db s4.
Proof using.
  intros Hn Hs Hnone He Hfs H. pose proof (keeps_exec handles _ _ _ _ _ _ (keeps_open n0 db0 _) Hs H) as [Hs4 _].
  apply exec_open_new in H as [Hl ->]; [|done]. rewrite Hfs in Hl. split_and!; [done|done|cbn; by rewrite lookup_insert_eq|done].
Qed.

Lemma cut_checkpoint_recover n0 db0 s s' :
  holds n0 db0 s -> cut (checkpoint_recover p r) s s' ->
  holds n0 db0 s' \/ exists n1 db1, holds n1 db1 s' /\ built RCheckpoint r db1.
Proof using Hd Hp.
  intros Hs. unfold checkpoint_recover. rewrite Hp. intros [H|([] & s1 & ->%exec_check & H)]%cut_M_bind.
  { left. eapply (keeps_cut handles); [apply keeps_check|exact Hs|exact H]. }
  apply cut_bind in H as [H|(n & s1 & (-> & Hn & Hf)%exec_random & H)].
  { left. eapply (keeps_cut handles); [apply keeps_random|exact Hs|exact H]. }
  pose proof (keeps_quiet (holds n0 db0) (FMkdirAll (at_dir n)) eq_refl (holds_on_disk n0 db0)) as Hk1.
  apply cut_M_bind in H as [H|([] & s2 & H2 & H)]; [left; by apply (keeps_cut handles _ _ _ _ _ Hk1 Hs)|].
  pose proof (keeps_exec handles _ _ _ _ _ _ Hk1 Hs H2) as [Hs2 _].
  pose proof (fun s3 H3 => unpacked n0 db0 n s s2 s3 Hn Hs Hf H2 H3) as Hun. destruct (tar_Read r) as [hs err] eqn:Er.
  apply cut_M_bind in H as [H|([] & s3 & H3 & H)].
  { left. eapply (keeps_cut handles); [|exact Hs2|exact H]. apply keeps_checkpoint_read; [done|apply holds_on_disk]. }
  destruct (Hun s3 H3) as (Hs3 & Hnone & He & Hfs). apply cut_M_bind in H as [H|(db1 & s4 & H4 & H)].
  { left. eapply (keeps_cut handles); [apply keeps_open|exact Hs3|exact H]. }
  destruct (unpacked_ready n0 db0 n s3 db1 s4) as (_ & Hh & Hdb & Hb); rewrite ?Er; try done.
  apply (cut_switch n0 db0) in H as [H|H]; [by left| |done..]. right. by exists n, db1.
Qed.

Lemma exec_checkpoint_recover n0 db0 s s' :
  holds n0 db0 s -> exec (checkpoint_recover p r) s (Ok tt) s' -> recovered RCheckpoint s'.
Proof using Hd Hp.
  intros Hs. unfold checkpoint_recover. rewrite Hp. intros ([] & s1 & ->%exec_check & H)%exec_M_bind.
  apply exec_bind in H as (n & s1 & (-> & Hn & Hf)%exec_random & H). apply exec_M_bind in H as ([] & s2 & H2 & H).
  pose proof (fun s3 H3 => unpacked n0 db0 n s s2 s3 Hn Hs Hf H2 H3) as Hun. destruct (tar_Read r) as [hs err] eqn:Er.
  apply exec_M_bind in H as ([] & s3 & H3 & H). destruct (Hun s3 H3) as (Hs3 & Hnone & He & Hfs).
  apply exec_M_bind in H as (db1 & s4 & H4 & H). eapply ready_switched; [|exact H].
  eapply unpacked_ready; rewrite ?Er; [done|exact Hs3|done|done|done|exact H4].
Qed.
End Recover.

Lemma cut_RecoverFromSnapshot p stream n0 db0 s s' :
  fc_dirname p = dir -> len stream < 2 ^ 63 -> holds n0 db0 s -> cut (RecoverFromSnapshot p stream) s s' ->
  holds n0 db0 s'
  \/ exists rc n1 db1, getRecoverer (snapshotType (take 8 stream)) = Ok rc /\ holds n1 db1 s' /\ built rc (drop 8 stream) db1.
Proof using Hd.
  intros Hp Hl Hs. unfold RecoverFromSnapshot, ReadFull. change (8 <=? 0) with false. cbv iota.
  destruct (len stream =? 0); [intros [<-|[]]; by left|]. destruct (len stream <? 8); [intros [<-|[]]; by left|].
  change (Z.to_nat 8) with 8%nat. set (hd := take 8 stream). set (r := drop 8 stream).
  intros [H|([h r'] & s1 & [E <-] & H)]%cut_M_bind; [destruct H as [<-|[]]; by left|]. injection E as <- <-.
  apply cut_M_bind in H as [H|(rc & s1 & [Hrc <-] & H)]; [destruct H as [<-|[]]; by left|].
  assert (Hr : len r < 2 ^ 63) by (unfold r, len in *; rewrite length_drop; lia).
  destruct rc; cbn [fsm_recover] in H.
  - destruct (cut_snapshot_recover p Hp r Hr n0 db0 s s' Hs H) as [H'|(n1 & db1 & H' & Hb)]; [by left|].
    right. by exists RSnapshot, n1, db1.
  - destruct (cut_checkpoint_recover p Hp r n0 db0 s s' Hs H) as [H'|(n1 & db1 & H' & Hb)]; [by left|].
    right. by exists RCheckpoint, n1, db1.
Qed.

Lemma exec_RecoverFromSnapshot p stream n0 db0 s s' :
  fc_dirname p = dir -> len stream < 2 ^ 63 -> holds n0 db0 s -> exec (RecoverFromSnapshot p stream) s (Ok tt) s' ->
  exists rc, getRecoverer (snapshotType (take 8 stream)) = Ok rc /\ recovered (drop 8 stream) rc s'.
Proof using Hd.
  intros Hp Hl Hs. unfold RecoverFromSnapshot, ReadFull. change (8 <=? 0) with false. cbv iota.
  destruct (len stream =? 0); [by intros [? _]|]. destruct (len stream <? 8); [by intros [? _]|].
  change (Z.to_nat 8) with 8%nat. set (hd := take 8 stream). set (r := drop 8 stream).
  intros ([h r'] & s1 & [E <-] & H)%exec_M_bind. injection E as <- <-. apply exec_M_bind in H as (rc & s1 & [Hrc <-] & H).
  assert (Hr : len r < 2 ^ 63) by (unfold r, len in *; rewrite length_drop; lia).
  exists rc. split; [done|]. destruct rc; cbn [fsm_recover] in H.
  - by apply (exec_snapshot_recover p Hp r Hr n0 db0) in H.
  - by apply (exec_checkpoint_recover p Hp r n0 db0) in H.
Qed.

(** ** Opening *)

Section Open.
(** The file system tells truly whether [current] is there. *)
Context (Hstat : ~ faults (res bool) (FStat cur)).

Lemma keeps_IsNewRun n db : keeps (holds n db) (IsNewRun dir) (fun b => b = false).
Proof using Hstat.
  apply keeps_bind, keeps_call. intros s x s' Hs [[-> ->]|[Hf _]]; [|by apply Hstat in Hf].
  split; [done|]. destruct Hs as (_ & Hc & _). cbn [Effects.keeps]. unfold disk_Stat. destruct (is_dir s cur); [done|].
  by destruct (d_files s !! cur).
Qed.

Lemma keeps_Create n db : keeps (holds n db) (CreateNodeDataDir dir) (fun _ => True).
Proof using.
  apply keeps_seq; [apply keeps_quiet; [done|apply holds_on_disk]|]. intros _. apply keeps_syncDir.
Qed.

Lemma keeps_Open p n db : fc_dirname p = dir -> db_name n -> keeps (holds n db) (Open p) (fun _ => True).
Proof using Hd Hstat.
  intros Hp Hn. unfold Open. rewrite Hp. destruct (fc_clusterID p <? 1); [exact I|]. destruct (fc_nodeID p <? 1); [exact I|].
  apply keeps_seq; [apply keeps_Create|]. intros _. apply keeps_then; [apply keeps_random|]. intros rn.
  apply keeps_bind. eapply keeps_mono; [|apply keeps_IsNewRun]. intros b ->. apply keeps_seq.
  - apply keeps_seq; [by apply keeps_Cleanup|]. intros _. apply keeps_seq; [|intros ?].
    { eapply keeps_mono; [|apply keeps_GetCurrent]. done. }
    apply keeps_seq; [by apply keeps_still|]. intros ?. exact I.
  - intros dbdir. apply keeps_seq; [apply keeps_open|]. intros db'.
    apply keeps_then; [apply keeps_quiet; [done|apply holds_on_disk]|]. intros ?. apply keeps_seq; [exact I|]. intros idx.
    apply keeps_then; [apply keeps_quiet; [done|apply holds_on_disk]|]. intros ?. exact I.
Qed.

Lemma exec_Open p n db s idx s' :
  fc_dirname p = dir -> holds n db s -> exec (Open p) s (Ok idx) s' ->
  holds n db s' /\ d_mem s' = Some (at_dir n, db) /\ d_applied s' = idx
  /\ readLocalIndex (read_db db) sysLocalIndex = Ok idx.
Proof using Hd Hstat.
  intros Hp Hs H. pose proof Hs as (Hn & _). split.
  { by apply (keeps_exec handles _ _ _ _ _ _ (keeps_Open p n db Hp Hn) Hs) in H as [? _]. }
  unfold Open in H. rewrite Hp in H. destruct (fc_clusterID p <? 1); [by destruct H|]. destruct (fc_nodeID p <? 1); [by destruct H|].
  apply exec_M_bind in H as ([] & s1 & H1 & H). apply (keeps_exec handles _ _ _ _ _ _ (keeps_Create n db) Hs) in H1 as [Hs1 _].
  apply exec_bind in H as (rn & s2 & (-> & _)%exec_random & H).
  apply exec_bind in H as (b & s3 & H3 & H). apply (keeps_exec handles _ _ _ _ _ _ (keeps_IsNewRun n db) Hs1) in H3 as [Hs3 ->].
  apply exec_M_bind in H as (dbdir & s4 & H4 & H).
  assert (dbdir = at_dir n /\ holds n db s4) as [-> Hs4].
  { apply exec_M_bind in H4 as ([] & s5 & H5 & H4). apply (keeps_exec handles _ _ _ _ _ _ (keeps_Cleanup n db Hn) Hs3) in H5 as [Hs5 _].
    apply exec_M_bind in H4 as (rd & s6 & H6 & H4). apply (keeps_exec handles _ _ _ _ _ _ (keeps_GetCurrent n db) Hs5) in H6 as [Hs6 E].
    apply exec_M_bind in H4 as (isd & s7 & ->%exec_still & H4); [|done]. destruct H4 as [[= <-] <-]. by rewrite (E rd). }
  apply exec_M_bind in H as (db' & s5 & H5 & H). apply exec_perform in H5 as [H5|[_ [? _]]]; [|done].
  cbn [disk_does] in H5. pose proof Hs4 as (_ & _ & Hdb). rewrite Hdb in H5. destruct H5 as [[= ->] ->].
  apply exec_bind in H as (old & s6 & [[_ ->]|[_ []]]%exec_perform & H).
  apply exec_M_bind in H as (i & s7 & [Hi <-] & H). apply exec_bind in H as ([] & s8 & [->|[_ []]]%exec_perform & H).
  destruct H as [[= ->] <-]. done.
Qed.
End Open.
End Safety.
