(* ===== verification/PowerLoss.v ===== *)
(** * Power loss

    [RecoveryCorrect] says what the calls of [Recovery] do to what a running
    process sees.  When the power goes, what has not been synced may be lost:
    beside the disk that is seen, [unsynced] keeps what may be found instead.
    A file that is written is torn until it is synced itself; a file that is
    created, renamed or removed may be found as it was before until its
    directory is synced; and so may the directory of a new store.  The storage
    engine syncs its own directory, not the one above, and its store is only as
    good as the files it was made of.

    The main lemma, [RecoverFromSnapshot_settled], follows a recovery: at every
    point, whatever [current] may be found to hold names a store that is there
    to stay, and it is the old one or the one of the whole snapshot. *)

From S2P Require Import Prelude GoStd Paths Md5 Pebble Query Fsm Snapshot Effects Recovery RecoveryCorrect.

Local Open Scope prog_scope.
Local Opaque md5_Sum.
#[local] Arguments path_Join : simpl never.
#[local] Arguments currentDBFilename : simpl never.
#[local] Arguments updatingDBFilename : simpl never.

Section Power.
Context {P : PebbleOps} {F : StoreFiles P}.

(** What is not on stable storage: files with torn contents; what else a path
    may be found to hold; stores whose directory may be missing; stores made
    of torn files, or by a call that failed. *)
Record unsynced := mkUnsynced {
  u_torn : bytes -> Prop;
  u_ent : bytes -> option bytes -> Prop;
  u_new : bytes -> Prop;
  u_bad : bytes -> Prop
}.
Definition all_synced : unsynced := mkUnsynced (fun _ => False) (fun _ _ => False) (fun _ => False) (fun _ => False).

(** What may be found at a path after a power loss; a torn file may be
    anything. *)
Definition found (s : disk) (u : unsynced) (q : bytes) (c : option bytes) : Prop :=
  c = d_files s !! q \/ u_torn u q \/ u_ent u q c.

(** A disk that may be found; of directories and of other stores nothing is
    said.  What a process leaves when it ends alone is one of them. *)
Definition survives (s : disk) (u : unsynced) (t : disk) : Prop :=
  restarted t = t /\ (forall q, found s u q (d_files t !! q))
  /\ forall q db, d_dbs s !! q = Some db -> ~ u_new u q -> ~ u_bad u q -> d_dbs t !! q = Some db.

Lemma restarted_survives s u : survives s u (restarted s).
Proof using. split; [done|]. split; [by left|done]. Qed.

(** The entries of a directory. *)
Definition child (p q : bytes) : Prop := exists n, simple n /\ q = path_Join [p; n].

(** What is not synced after a call with a result. *)
Definition after_call (s : disk) (u : unsynced) {X} (e : fs_ev X) : X -> unsynced :=
  match e in fs_ev X return X -> unsynced with
  | FCreate p => fun _ =>
      mkUnsynced (fun q => q = p \/ u_torn u q) (fun q c => u_ent u q c \/ (q = p /\ found s u q c)) (u_new u) (u_bad u)
  | FWrite p _ => fun _ => mkUnsynced (fun q => q = p \/ u_torn u q) (u_ent u) (u_new u) (u_bad u)
  | FSync p => fun x =>
      match x with
      | Ok _ => mkUnsynced (fun q => u_torn u q /\ q <> p) (fun q c => u_ent u q c /\ ~ child p q)
                  (fun q => u_new u q /\ ~ child p q) (u_bad u)
      | _ => u
      end
  | FRename a b => fun _ =>
      mkUnsynced (fun q => u_torn u q \/ (q = b /\ u_torn u a)) (fun q c => u_ent u q c \/ ((q = a \/ q = b) /\ found s u q c))
        (u_new u) (u_bad u)
  | FRemoveAll p => fun _ =>
      mkUnsynced (u_torn u) (fun q c => u_ent u q c \/ (under p q = true /\ found s u q c)) (u_new u) (u_bad u)
  | DOpen p => fun x =>
      match d_dbs s !! p with
      | Some _ => u
      | None => mkUnsynced (u_torn u) (u_ent u) (fun q => q = p \/ u_new u q)
          (fun q => if decide (q = p)
                    then ~ is_Ok x \/ exists k, is_Some (d_files s !! k) /\ under p k = true /\ u_torn u k
                    else u_bad u q)
      end
  | DIngest p names => fun x =>
      mkUnsynced (u_torn u) (fun q c => u_ent u q c \/ (q ∈ names /\ found s u q c)) (u_new u)
        (fun q => u_bad u q \/ (q = p /\ (~ is_Ok x \/ exists k, k ∈ names /\ u_torn u k)))
  | DCheckpoint p => fun _ =>
      mkUnsynced (fun q => under p q = true \/ u_torn u q) (fun q c => u_ent u q c \/ (under p q = true /\ found s u q c))
        (u_new u) (u_bad u)
  | _ => fun _ => u
  end.

(** The disk with what is not synced. *)
Local Abbreviation pdisk := (disk * unsynced)%type.
Definition power_handles (faults : forall X, fs_ev X -> Prop) (w : pdisk) (X : Type) (e : fs_ev X) (x : X) (w' : pdisk) : Prop :=
  disk_handles faults w.1 X e x w'.1 /\ w'.2 = after_call w.1 w.2 e x.

Lemma exec_disk faults {A} (p : prog fs_ev A) w a w' :
  exec (power_handles faults) p w a w' -> exec (disk_handles faults) p w.1 a w'.1.
Proof using.
  revert w. induction p as [x|X e k IH]; intros w; cbn; [by intros [-> ->]|].
  intros (x & w1 & [Hx _] & H). exists x, w1.1. split; [done|by apply IH].
Qed.
Lemma cut_disk faults {A} (p : prog fs_ev A) w w' :
  cut (power_handles faults) p w w' -> cut (disk_handles faults) p w.1 w'.1.
Proof using.
  revert w. induction p as [x|X e k IH]; intros w; cbn; [by intros [->|[]]; left|].
  intros [->|(x & w1 & [Hx _] & H)]; [by left|]. right. exists x, w1.1. split; [done|by apply IH].
Qed.
Lemma cut_power faults {A} (p : prog fs_ev A) s u s' :
  cut (disk_handles faults) p s s' -> exists u', cut (power_handles faults) p (s, u) (s', u').
Proof using.
  revert s u. induction p as [x|X e k IH]; intros s u; cbn; [intros [->|[]]; exists u; by left|].
  intros [->|(x & s1 & Hx & H)]; [exists u; by left|]. destruct (IH x s1 (after_call s u e x) H) as [u' Hu].
  exists u'. right. exists x, (s1, after_call s u e x). by split.
Qed.
End Power.

(** ** What stays settled *)

Section Settled.
Context {P : PebbleOps} {F : StoreFiles P} {T : Tar} (faults : forall X, fs_ev X -> Prop).
Context (dir : bytes) (Hd : clean_dir dir).
Local Abbreviation pdisk := (disk * unsynced)%type.
Local Abbreviation handles := (power_handles faults).
Local Abbreviation exec := (exec handles).
Local Abbreviation cut := (cut handles).
Local Abbreviation keeps := (keeps handles).
Local Abbreviation cur := (path_Join [dir; currentDBFilename]).
Local Abbreviation upd := (path_Join [dir; updatingDBFilename]).
Local Abbreviation at_dir n := (path_Join [dir; n]).

(** A store that is there to stay. *)
Definition stable (q : bytes) (db : DB) (w : pdisk) : Prop :=
  d_dbs w.1 !! q = Some db /\ ~ u_new w.2 q /\ ~ u_bad w.2 q.

(** Whatever [current] may be found to hold names a store that is there to
    stay, one of those that [Pick] allows. *)
Definition settled (Pick : bytes -> DB -> Prop) (w : pdisk) : Prop :=
  forall c, found w.1 w.2 cur c ->
    exists data db, c = Some data /\ db_name (current_content data) /\ Pick (current_content data) db
      /\ stable (at_dir (current_content data)) db w.
Definition only (n : bytes) (db : DB) (n' : bytes) (db' : DB) : Prop := n' = n /\ db' = db.

(** The store of the replica is safe from power loss. *)
Definition durable (n : bytes) (db : DB) (w : pdisk) : Prop := settled (only n db) w /\ dir ∈ d_dirs w.1.

Lemma settled_mono (Pick Pick' : bytes -> DB -> Prop) w :
  (forall n db, Pick n db -> Pick' n db) -> settled Pick w -> settled Pick' w.
Proof using. intros HP Hw c (data & db & ? & ? & ? & ?)%Hw. exists data, db. auto. Qed.

Lemma settled_survives Pick s u t : settled Pick (s, u) -> survives s u t -> exists n db, Pick n db /\ holds dir n db t.
Proof using.
  intros Hw (_ & Hf & Hb). destruct (Hw _ (Hf cur)) as (data & db & E & Hn & Hp & Hs & H1 & H2).
  exists (current_content data), db. split; [done|]. split_and!; [done|by rewrite E|]. by apply Hb.
Qed.

Lemma settled_holds n db w : settled (only n db) w -> holds dir n db w.1.
Proof using.
  intros Hw. destruct (Hw (d_files w.1 !! cur)) as (data & db' & E & Hn & [<- ->] & Hs & _); [by left|].
  split_and!; [done|by rewrite E|done].
Qed.

Lemma settled_not_torn Pick w : settled Pick w -> ~ u_torn w.2 cur.
Proof using. intros Hw Ht. destruct (Hw None) as (data & db & ? & _); [by right; left|done]. Qed.

(** A disk on which everything is synced. *)
Lemma settled_synced n db t : holds dir n db t -> settled (only n db) (t, all_synced).
Proof using.
  intros (Hn & Hc & Hdb) c [->|[[]|[]]]. cbn [fst snd] in *. destruct (d_files t !! cur) as [data|]; [|done].
  injection Hc as Hc. exists data, db. rewrite Hc. split; [done|]. split; [done|]. split; [done|]. split; [done|]. by split; intros [].
Qed.

(** A step after which nothing more may be found at [current], and the stores
    are as stable as before. *)
Lemma settled_step Pick w w' :
  (forall c, found w'.1 w'.2 cur c -> found w.1 w.2 cur c) ->
  (forall n db, db_name n -> Pick n db -> stable (at_dir n) db w -> stable (at_dir n) db w') ->
  settled Pick w -> settled Pick w'.
Proof using.
  intros Hf Hs Hw c Hc. destruct (Hw c (Hf c Hc)) as (data & db & ? & ? & ? & ?). exists data, db. auto.
Qed.

(** ** Calls that write no store and remove nothing *)

Definition plain X (e : fs_ev X) : Prop :=
  match e with
  | FCreate p | FWrite p _ => p <> cur
  | FRename _ _ | FRemoveAll _ | DOpen _ | DIngest _ _ | DFlush | DCheckpoint _ => False
  | _ => True
  end.

(** What they leave. *)
Record plain_after (w w' : pdisk) : Prop := {
  pa_found c : found w'.1 w'.2 cur c -> found w.1 w.2 cur c;
  pa_dbs : d_dbs w'.1 = d_dbs w.1;
  pa_dirs : d_dirs w.1 ⊆ d_dirs w'.1;
  pa_new q : u_new w'.2 q -> u_new w.2 q;
  pa_bad q : u_bad w'.2 q -> u_bad w.2 q
}.
#[local] Instance plain_after_preorder : PreOrder plain_after.
Proof using.
  split; [by split|]. intros w1 w2 w3 [] []. split; [auto|congruence|by etrans|auto|auto].
Qed.

(** Files other than [current] that are created or written. *)
Lemma plain_file p (s s' : disk) u u' :
  p <> cur -> (s' = s \/ exists c, s' = set_files s (<[p := c]> (d_files s))) ->
  (u_torn u' cur -> u_torn u cur) -> (forall c, u_ent u' cur c -> u_ent u cur c) -> u_new u' = u_new u -> u_bad u' = u_bad u ->
  plain_after (s, u) (s', u').
Proof using.
  intros Hp Hs Ht He Hn Hb. assert (d_files s' !! cur = d_files s !! cur /\ d_dbs s' = d_dbs s /\ d_dirs s' = d_dirs s) as (E1 & E2 & E3).
  { destruct Hs as [->|[c ->]]; [done|]. cbn. by rewrite lookup_insert_ne. }
  split; cbn; [|done|by rewrite E3|by rewrite Hn|by rewrite Hb].
  intros c [->|[?|?]]; [left; congruence|right; left; auto|right; right; auto].
Qed.

Lemma plain_call X (e : fs_ev X) w x w' : plain X e -> handles w X e x w' -> plain_after w w'.
Proof using.
  destruct w as [s u], w' as [s' u']. intros He [Hx Hu]. cbn in Hx, Hu. subst u'.
  destruct (still e) eqn:Es; [|destruct (quiet e) eqn:Eq].
  - apply still_same in Hx as ->; [|done]. destruct e; try done. cbn. destruct x; [|done..].
    split; cbn; [|done|done|by intros q [? _]..|done]. intros c [?|[[? _]|[? _]]]; [by left|by right; left|by right; right].
  - apply quiet_same in Hx as Hq; [|done]. destruct Hq as [E1 E2].
    assert (Hdirs : d_dirs s ⊆ d_dirs s').
    { clear Hd. destruct Hx as [Hx|[_ Hx]]; destruct e; try done; cbn in Hx; conj_inv; subst; cbn; set_solver. }
    assert (after_call s u e x = u) as -> by by destruct e.
    split; cbn; [|done|done|done|done]. unfold found. by rewrite E1.
  - destruct e; try done; cbn [plain] in He.
    + apply (plain_file path); [done| | | |done|done]; cbn.
      * destruct Hx as [Hx|[_ [_ [->|[_ ->]]]]]; [cbn in Hx|by left|eauto]. destruct (is_dir s path); destruct Hx as [_ ->]; eauto.
      * by intros [?|?].
      * by intros c [?|[? _]].
    + apply (plain_file path); [done| | |done|done|done]; cbn.
      * destruct Hx as [Hx|[_ (_ & old & b' & _ & ->)]]; [cbn in Hx|eauto]. destruct (d_files s !! path); destruct Hx as [_ ->]; eauto.
      * by intros [?|?].
Qed.

Lemma plain_settled Pick w w' : plain_after w w' -> settled Pick w -> settled Pick w'.
Proof using.
  intros [H1 H2 _ H4 H5]. apply settled_step; [done|]. intros n db _ _ (? & ? & ?). split_and!; [by rewrite H2|auto|auto].
Qed.

(** A program of plain calls, run or cut off. *)
Lemma plain_keeps w {A} (p : prog fs_ev A) : calls plain p -> keeps (plain_after w) p (fun _ => True).
Proof using. apply calls_keeps. intros X e w1 x w2 He H1 H2. etrans; [done|]. by eapply plain_call. Qed.
Lemma exec_plain {A} (p : prog fs_ev A) w a w' : calls plain p -> exec p w a w' -> plain_after w w'.
Proof using. intros Hp H. by apply (keeps_exec handles _ _ _ _ _ _ (plain_keeps w p Hp)) in H as [? _]. Qed.
Lemma cut_plain {A} (p : prog fs_ev A) w w' : calls plain p -> cut p w w' -> plain_after w w'.
Proof using. intros Hp H. by apply (keeps_cut handles _ _ _ _ _ (plain_keeps w p Hp)) in H. Qed.

Lemma plain_syncDir d : calls plain (syncDir d).
Proof using.
  apply calls_M_bind; [done|]. intros [|]; [|exact I]. apply calls_M_bind; [done|]. intros _.
  apply calls_bind; [done|]. intros r. by apply calls_bind.
Qed.
Lemma plain_random : calls plain GetNewRandomDBDirName.
Proof using. apply calls_bind; [done|]. intros a. by apply calls_bind. Qed.
Lemma plain_check p : calls plain (check_fsm p).
Proof using. apply calls_bind; [done|]. intros [|]; [exact I|]. repeat case_match; exact I. Qed.
Lemma plain_copy p b : p <> cur -> calls plain (copy_file p b).
Proof using. intros Hp. unfold copy_file. by case_decide. Qed.

Lemma upd_ne : upd <> cur.
Proof using Hd. by apply Join_ne; [|apply updating_simple|apply current_simple|]. Qed.

Lemma plain_Save n : calls plain (SaveCurrentDBDirName dir n).
Proof using Hd.
  pose proof upd_ne as Hu. apply calls_M_bind; [done|]. intros _. apply calls_bind.
  - apply calls_M_bind; [done|]. intros _. by apply calls_M_bind.
  - intros r. apply calls_bind; [done|]. intros _. by apply calls_bind; [apply plain_syncDir|].
Qed.

Lemma plain_read fuel r count files : calls plain (snapshot_read fuel dir r count files).
Proof using Hd.
  revert r count files. induction fuel as [|fuel IH]; intros r count files; [exact I|]. cbn [snapshot_read].
  apply calls_bind; [done|]. intros [|]; [exact I|].
  destruct (ReadFull r 8) as [[buf r']|e|]; [|case_decide; exact I|exact I].
  apply calls_M_bind; [exact I|]. intros size. destruct (maxAlloc <? size); [exact I|].
  pose proof (ingest_name_cur dir Hd count) as Hc.
  apply calls_M_bind; [done|]. intros _. apply calls_M_bind; [by apply plain_copy|]. intros _.
  apply calls_M_bind; [done|]. intros _. apply calls_M_bind; [done|]. intros _. apply IH.
Qed.

Lemma plain_checkpoint_read n hs err : db_name n -> calls plain (checkpoint_read (at_dir n) hs err).
Proof using Hd.
  intros Hn. induction hs as [|h hs IH]; cbn [checkpoint_read]; (apply calls_bind; [done|]); (intros [|]; [exact I|]).
  - by destruct err.
  - apply calls_M_bind; [|done]. unfold checkpoint_entry. destruct (IsLocal (tar_Name h)) eqn:Hl; [|exact I]. cbn [negb].
    pose proof (target_cur dir Hd n h Hn Hl) as Ht. destruct (tar_Typeflag h); [| |exact I].
    + apply calls_M_bind; [done|]. intros _. apply calls_M_bind; [by apply plain_copy|]. intros _. by apply calls_M_bind.
    + apply calls_bind; [done|]. by intros [?|?|].
Qed.

(** ** Removing, opening and ingesting *)

Lemma settled_remove Pick p w x w' :
  under p cur = false -> (forall n db, Pick n db -> under p (at_dir n) = false) ->
  handles w _ (FRemoveAll p) x w' -> settled Pick w -> settled Pick w'.
Proof using.
  intros Hc Hn [Hx Hu]. apply remove_some in Hx as (_ & _ & _ & Hk & _). apply settled_step.
  - intros c. unfold found. rewrite Hu, (proj1 (Hk _ Hc)). cbn. intros [?|[?|[?|[? _]]]]; auto; congruence.
  - intros n db _ HP (H1 & H2 & H3). unfold stable. rewrite Hu. split; [|done].
    by rewrite (proj1 (proj2 (Hk _ (Hn n db HP)))).
Qed.

Lemma settled_open Pick p w x w' : handles w _ (DOpen p) x w' -> settled Pick w -> settled Pick w'.
Proof using.
  intros [Hx Hu]. apply open_some in Hx. apply settled_step.
  - intros c. unfold found. assert (d_files w'.1 = d_files w.1) as -> by (destruct Hx as [->|(_ & db & ->)]; done).
    rewrite Hu. cbn. by destruct (d_dbs w.1 !! p).
  - intros n db _ _ (H1 & H2 & H3). unfold stable. rewrite Hu. cbn.
    destruct (d_dbs w.1 !! p) eqn:Ep.
    + destruct Hx as [->|[? _]]; [done|congruence].
    + assert (at_dir n <> p) by congruence. cbn. rewrite decide_False by done. split; [|by split; [intros [?|?]|]].
      destruct Hx as [->|(_ & db' & ->)]; [done|]. cbn. by rewrite lookup_insert_ne.
Qed.

Lemma settled_ingest Pick p names w x w' :
  cur ∉ names -> (forall n db, db_name n -> Pick n db -> p <> at_dir n) ->
  handles w _ (DIngest p names) x w' -> settled Pick w -> settled Pick w'.
Proof using.
  intros Hc Hn [Hx Hu]. apply ingest_some in Hx. apply settled_step.
  - intros c. unfold found. assert (d_files w'.1 !! cur = d_files w.1 !! cur) as ->.
    { destruct Hx as [->|(db & moved & Hm & ->)]; [done|]. cbn. rewrite lookup_foldr_delete; [done|]. by intros ?%Hm. }
    rewrite Hu. cbn. intros [?|[?|[?|[? _]]]]; auto; done.
  - intros n db Hdb HP (H1 & H2 & H3). specialize (Hn n db Hdb HP). unfold stable. rewrite Hu. cbn. split; [|split; [done|]].
    + destruct Hx as [->|(db' & moved & Hm & ->)]; [done|]. cbn. by rewrite lookup_insert_ne.
    + intros [?|[? _]]; [done|]. by subst p.
Qed.

Lemma keeps_plain Pick {A} (p : prog fs_ev A) : calls plain p -> keeps (settled Pick) p (fun _ => True).
Proof using. apply calls_keeps. intros X e w x w' He Hw Hx. eapply plain_settled; [by eapply plain_call|done]. Qed.

Lemma keeps_plain_durable n db {A} (p : prog fs_ev A) : calls plain p -> keeps (durable n db) p (fun _ => True).
Proof using.
  apply calls_keeps. intros X e w x w' He [Hw Hin] Hx. pose proof (plain_call _ _ _ _ _ He Hx) as Hp.
  split; [by eapply plain_settled|by apply (pa_dirs _ _ Hp)].
Qed.

Lemma keeps_remove_durable n db fi :
  simple fi -> db_name n -> fi <> currentDBFilename -> fi <> n ->
  keeps (durable n db) (perform (FRemoveAll (at_dir fi))) (fun _ => True).
Proof using Hd.
  intros Hf [Hn _] Hc Hne. apply keeps_call. intros w x w' [Hw Hin] Hx. split; [|done]. split.
  - revert Hx Hw. apply settled_remove; [apply (Join_apart dir Hd); [done|apply current_simple|done]|].
    intros n' db' [-> _]. by apply (Join_apart dir Hd).
  - destruct Hx as [Hx _]. apply remove_some in Hx as (_ & _ & _ & Hk & _). apply Hk; [|done].
    apply not_true_is_false. rewrite (Join_simple dir Hd) by done. intros [_ ?]%under_below. done.
Qed.

Lemma keeps_Cleanup_durable n db : db_name n -> keeps (durable n db) (CleanupNodeDataDir dir) (fun _ => True).
Proof using Hd.
  intros Hn. pose proof Hn as (_ & _ & Hnu & _). apply keeps_seq; [by apply keeps_remove_durable; [apply updating_simple|..]|].
  intros _. apply keeps_M_bind. apply (keeps_mono handles _ _ (fun r => forall a, r = Ok a -> a = n)).
  - intros r Hr dbdir ->. rewrite (Hr dbdir) by done. apply keeps_M_bind. apply keeps_call. intros w x w' Hw Hx.
    split; [by eapply (keeps_plain_durable n db (perform (FList dir)))|]. intros files ->. apply keeps_iter. intros fi Hfi.
    assert (simple fi) as Hs.
    { destruct Hx as [[(l & [= <-] & _ & Hl)|[_ [? _]]] _]; [|done]. by apply Hl in Hfi as [? _]. }
    unfold cleanup_entry. case_decide; [exact I|]. case_decide as Hne; [exact I|]. apply keeps_remove_durable; try done. by intros ->.
  - apply keeps_bind, keeps_call. intros w x w' Hw Hx.
    split; [by eapply (keeps_plain_durable n db (perform (FReadAll cur)))|].
    destruct (settled_holds _ _ _ (proj1 Hw)) as (_ & Hc & _). destruct Hx as [[[-> _]|[_ [-> _]]] _]; [|done].
    destruct (d_files w.1 !! cur) as [data|]; cbn in *; [|done]. intros a [= <-]. congruence.
Qed.

(** ** The switch *)

(** The directory of the replica can be synced. *)
Definition syncs : Prop :=
  ~ faults _ (FStat dir) /\ ~ faults _ (FOpenDir (path_Clean dir)) /\ ~ faults _ (FSync dir).

(** A call that changes nothing that is seen, and nothing that is not synced. *)
Lemma still_pair {X} (e : fs_ev X) w x w' :
  still e = true -> (forall p, ~ match e with FSync q => q = p | _ => False end) -> handles w X e x w' -> w' = w.
Proof using.
  destruct w as [s u], w' as [s' u']. intros He Hs [Hx Hu]. cbn in Hx, Hu. apply still_same in Hx as ->; [|done]. subst u'.
  destruct e; try done. by destruct (Hs path).
Qed.

Lemma exec_syncDir_synced w x w' :
  syncs -> dir ∈ d_dirs w.1 -> exec (syncDir dir) w x w' ->
  x = Ok tt /\ w' = (w.1, after_call w.1 w.2 (FSync dir) (Ok tt)).
Proof using.
  intros (S1 & S2 & S3) Hin. unfold syncDir. intros (r & w1 & H1%exec_perform & H)%exec_M_call.
  pose proof H1 as ->%still_pair; [|done|by intros ? ?]. destruct H1 as [[[-> _]|[? _]] _]; [|done].
  unfold disk_Stat, is_dir in H. rewrite bool_decide_eq_true_2 in H by done. cbn [orb negb] in H.
  apply exec_M_call in H as (r & w1 & H1%exec_perform & H). pose proof H1 as ->%still_pair; [|done|by intros ? ?].
  destruct H1 as [[[-> _]|[? _]] _]; [|done]. apply exec_bind in H as (r & w1 & H1%exec_perform & H).
  apply exec_bind in H as (c & w2 & H2%exec_perform & [<- <-]). apply still_pair in H2 as ->; [|done|by intros ? ?].
  destruct H1 as [[[-> E]|[? _]] Hu]; [|done]. split; [done|]. destruct w1. cbn in *. by subst.
Qed.

Lemma exec_Save_synced n w w' :
  syncs -> dir ∈ d_dirs w.1 -> exec (SaveCurrentDBDirName dir n) w (Ok tt) w' ->
  ~ u_torn w'.2 upd /\ forall m, simple m -> ~ u_new w'.2 (at_dir m).
Proof using Hd.
  intros Hsy Hin ([] & w1 & H1 & H)%exec_M_bind. pose proof upd_ne as Hne.
  apply exec_bind in H as (r & w2 & H2 & H). apply exec_bind in H as (c & w3 & H3%exec_perform & H).
  apply still_pair in H3 as ->; [|done|by intros ? ?]. apply exec_bind in H as (c' & w4 & H4 & [-> <-]).
  apply exec_M_bind in H2 as ([] & w5 & H5 & H2). apply exec_M_bind in H2 as ([] & w6 & H6 & H7).
  assert (plain_after w w2) as P2.
  { etrans; [|etrans; [|etrans]]; (eapply exec_plain; [apply calls_perform|eassumption]); done. }
  apply exec_syncDir_synced in H4 as [_ ->]; [|done|by apply (pa_dirs _ _ P2)].
  apply exec_perform in H7 as [_ Hu]. cbn. rewrite Hu. cbn. split; [tauto|]. intros m Hm [_ []]. by exists m.
Qed.

Definition either (n0 : bytes) (db0 : DB) (n1 : bytes) (db1 : DB) (n : bytes) (db : DB) : Prop :=
  only n0 db0 n db \/ only n1 db1 n db.

(** Before the rename: the old store settled, the name of the new one synced. *)
Record staged (n0 : bytes) (db0 : DB) (n1 : bytes) (db1 : DB) (w : pdisk) : Prop := {
  staged_old : settled (only n0 db0) w;
  staged_new : stable (at_dir n1) db1 w;
  staged_upd : d_files w.1 !! upd = Some (current_data n1);
  staged_synced : ~ u_torn w.2 upd;
  staged_dir : dir ∈ d_dirs w.1
}.

(** After it: [current] holds the new name, the directory is not synced. *)
Record renamed (n1 : bytes) (db1 : DB) (w : pdisk) : Prop := {
  renamed_cur : d_files w.1 !! cur = Some (current_data n1);
  renamed_synced : ~ u_torn w.2 cur;
  renamed_new : stable (at_dir n1) db1 w;
  renamed_dir : dir ∈ d_dirs w.1
}.

Lemma rename_settled n0 db0 n1 db1 w x w' :
  db_name n1 -> staged n0 db0 n1 db1 w -> handles w _ (FRename upd cur) x w' ->
  settled (either n0 db0 n1 db1) w' /\ (x = Ok tt -> renamed n1 db1 w').
Proof using.
  intros Hn [Hold Hnew Hu Hs Hdir] [Hx Hw]. pose proof (settled_not_torn _ _ Hold) as Ht.
  set (s1 := set_files w.1 (<[cur := current_data n1]> (delete upd (d_files w.1)))).
  assert ((w'.1 = w.1 \/ w'.1 = s1) /\ (x = Ok tt -> w'.1 = s1)) as [Hs' Hok].
  { destruct Hx as [Hx|[_ [-> Hx]]]; cbn [disk_does] in *; [rewrite Hu in Hx; destruct Hx as [_ ->]; auto|].
    split; [|done]. destruct Hx as [->|(c & Hc & ->)]; [by left|]. rewrite Hu in Hc. injection Hc as <-. by right. }
  assert (forall q db, stable q db w -> stable q db w') as Hst.
  { intros q db (? & ? & ?). unfold stable. rewrite Hw. cbn. split; [|done]. by destruct Hs' as [->| ->]. }
  split.
  - intros c Hc. assert (found w.1 w.2 cur c \/ c = Some (current_data n1)) as [Hc'| ->].
    { destruct Hc as [Hc|[Hc|Hc]]; [|rewrite Hw in Hc; cbn in Hc; tauto|rewrite Hw in Hc; cbn in Hc; unfold found; tauto].
      subst c. destruct Hs' as [->| ->]; [left; by left|]. right. cbn. by rewrite lookup_insert_eq. }
    + destruct (Hold c Hc') as (data & db & ? & ? & ? & ?). exists data, db. split_and!; auto. by left.
    + exists (current_data n1), db1. rewrite current_content_data by apply Hn. split_and!; auto. by right.
  - intros ->. specialize (Hok eq_refl). split; [|rewrite Hw; cbn; tauto|by apply Hst|by rewrite Hok].
    rewrite Hok. cbn. by rewrite lookup_insert_eq.
Qed.

(** The sync of the directory settles the new store. *)
Lemma sync_durable n1 db1 w :
  db_name n1 -> renamed n1 db1 w -> durable n1 db1 (w.1, after_call w.1 w.2 (FSync dir) (Ok tt)).
Proof using.
  intros Hn [Hc Ht (? & ? & ?) Hin]. split; [|done]. intros c [->|[[Hx _]|[_ Hx]]]; cbn in *; [|done|].
  - exists (current_data n1), db1. rewrite current_content_data by apply Hn. split_and!; try done. unfold stable; cbn. split_and!; tauto.
  - destruct Hx. exists currentDBFilename. split; [apply current_simple|done].
Qed.

(** Saving the name of a new store that is not damaged. *)
Lemma Save_staged n0 db0 n1 db1 w w' :
  syncs -> db_name n1 -> settled (only n0 db0) w -> dir ∈ d_dirs w.1 -> d_dbs w.1 !! at_dir n1 = Some db1 -> ~ u_bad w.2 (at_dir n1) ->
  exec (SaveCurrentDBDirName dir n1) w (Ok tt) w' -> staged n0 db0 n1 db1 w'.
Proof using Hd.
  intros Hsy Hn Hw Hin Hdb Hbad H. pose proof (exec_plain _ _ _ _ (plain_Save n1) H) as Hp.
  destruct (exec_Save_synced n1 w w' Hsy Hin H) as [Ht Hnew]. apply exec_disk, exec_Save in H as E.
  split; [by eapply plain_settled| |rewrite E; cbn; by rewrite lookup_insert_eq|done|by apply (pa_dirs _ _ Hp)].
  split_and!; [by rewrite (pa_dbs _ _ Hp)|apply Hnew, Hn|]. by intros ?%(pa_bad _ _ Hp).
Qed.

(** What follows the switch. *)
Lemma keeps_finish_durable n db idx :
  db_name n ->
  keeps (durable n db) (
    old <~ perform (PSwap (at_dir n) db);
    _ <~ perform (PApplied idx);
    _ <~ (match old with Some (d, _) => perform (DClose d) | None => M_ret tt end);
    CleanupNodeDataDir dir) (fun _ => True).
Proof using Hd.
  intros Hn. apply keeps_then; [by apply keeps_plain_durable|]. intros old. apply keeps_then; [by apply keeps_plain_durable|]. intros _.
  apply keeps_then; [destruct old as [[d ?]|]; by apply keeps_plain_durable|]. intros _. by apply keeps_Cleanup_durable.
Qed.

Lemma switch_settled n0 db0 n1 db1 w :
  syncs -> db_name n1 -> settled (only n0 db0) w -> dir ∈ d_dirs w.1 -> d_dbs w.1 !! at_dir n1 = Some db1 -> ~ u_bad w.2 (at_dir n1) ->
  (forall w', cut (switch dir n1 (at_dir n1) db1) w w' -> settled (either n0 db0 n1 db1) w')
  /\ (forall w', exec (switch dir n1 (at_dir n1) db1) w (Ok tt) w' -> durable n1 db1 w').
Proof using Hd.
  intros Hsy Hn Hw Hin Hdb Hbad.
  assert (Hl : forall w', settled (only n0 db0) w' -> settled (either n0 db0 n1 db1) w').
  { intros w'. apply settled_mono. by left. }
  assert (Hr : forall w', durable n1 db1 w' -> settled (either n0 db0 n1 db1) w').
  { intros w' [H _]. revert H. apply settled_mono. by right. }
  assert (Hsave : forall w', exec (SaveCurrentDBDirName dir n1) w (Ok tt) w' -> staged n0 db0 n1 db1 w').
  { intros w'. by apply Save_staged. }
  assert (Hsync : forall w2 w3 x w4, exec (SaveCurrentDBDirName dir n1) w (Ok tt) w2 ->
    handles w2 _ (FRename upd cur) (Ok tt) w3 -> exec (syncDir dir) w3 x w4 -> durable n1 db1 w4).
  { intros w2 w3 x w4 H2%Hsave H3 H4. apply (rename_settled n0 db0 n1 db1) in H3 as [_ H3]; [|done|done]. specialize (H3 eq_refl).
    apply exec_syncDir_synced in H4 as [_ ->]; [by apply sync_durable|done|apply H3]. }
  split; intros w' H.
  - apply cut_M_bind in H as [[<-|[]]|(idx & w1 & [_ <-] & H)]; [by apply Hl|].
    apply cut_M_bind in H as [H|([] & w2 & H2 & H)]; [apply Hl; eapply plain_settled; [by eapply cut_plain; [apply plain_Save|]|done]|].
    pose proof (Hsave w2 H2) as Hst. apply cut_M_bind in H as [H|([] & w3 & H3 & H)].
    + apply cut_M_bind in H as [[<-|(x & w3 & H3 & H)]|([] & w3 & H3%exec_perform & H)].
      * apply Hl, Hst.
      * destruct H as [<-|[]]. by eapply rename_settled in H3 as [? _].
      * apply (rename_settled n0 db0 n1 db1) in H3 as [Hs3 _]; [|done|done].
        eapply plain_settled; [eapply cut_plain; [apply (plain_syncDir dir)|exact H]|exact Hs3].
    + apply exec_M_bind in H3 as ([] & w4 & H4%exec_perform & H3). apply Hr.
      eapply (keeps_cut handles); [by apply keeps_finish_durable|by eapply Hsync|exact H].
  - apply exec_M_bind in H as (idx & w1 & [_ <-] & H). apply exec_M_bind in H as ([] & w2 & H2 & H).
    apply exec_M_bind in H as ([] & w3 & H3 & H). apply exec_M_bind in H3 as ([] & w4 & H4%exec_perform & H3).
    eapply (keeps_exec handles) in H as [? _]; [done|by apply keeps_finish_durable|by eapply Hsync].
Qed.

(** ** Building the new store *)

(** A file that was created, written and synced. *)
Lemma exec_file_synced q b w w1 w2 w3 :
  exec (perform (FCreate q)) w (Ok tt) w1 -> exec (copy_file q b) w1 (Ok tt) w2 -> exec (perform (FSync q)) w2 (Ok tt) w3 ->
  forall k, u_torn w3.2 k -> u_torn w.2 k /\ k <> q.
Proof using.
  intros [_ H1]%exec_perform H2 [_ H3]%exec_perform k. rewrite H3. cbn. intros [Hk Hne]. split; [|done].
  assert (k = q \/ u_torn w1.2 k) as [?|Hk1]; [|done|rewrite H1 in Hk1; cbn in Hk1; tauto].
  unfold copy_file in H2. case_decide; [destruct H2 as [_ <-]; by right|].
  apply exec_perform in H2 as [_ H2]. by rewrite H2 in Hk.
Qed.

Lemma exec_read_synced fuel : forall r count files w fs w',
  exec (snapshot_read fuel dir r count files) w (Ok (Some fs)) w' -> (forall k, k ∈ files -> ~ u_torn w.2 k) ->
  forall k, k ∈ fs -> ~ u_torn w'.2 k.
Proof using.
  induction fuel as [|fuel IH]; intros r count files w fs w' H Hf; [by destruct H|]. cbn [snapshot_read] in H.
  apply exec_bind in H as (stop & w1 & H1%exec_perform & H). apply still_pair in H1 as ->; [|done|by intros ? ?].
  destruct stop; [by destruct H|].
  destruct (ReadFull r 8) as [[buf r']|e|]; [|case_decide; destruct H as [H <-]; [by injection H as <-|done]|by destruct H].
  apply exec_M_bind in H as (size & w2 & [_ <-] & H). destruct (maxAlloc <? size); [by destruct H|].
  apply exec_M_bind in H as ([] & w3 & H3 & H). apply exec_M_bind in H as ([] & w4 & H4 & H).
  apply exec_M_bind in H as ([] & w5 & H5 & H). apply exec_M_bind in H as ([] & w6 & H6%exec_perform & H).
  apply still_pair in H6 as ->; [|done|by intros ? ?]. eapply IH; [exact H|].
  intros k Hk Ht. destruct (exec_file_synced _ _ _ _ _ _ H3 H4 H5 k Ht) as [Ht' Hne].
  apply elem_of_app in Hk as [Hk|Hk%list_elem_of_singleton]; [by eapply Hf|done].
Qed.

(** No file below a directory is torn. *)
Definition whole (q : bytes) (w : pdisk) : Prop :=
  forall k, is_Some (d_files w.1 !! k) -> under q k = true -> ~ u_torn w.2 k.

Lemma exec_checkpoint_entry_whole q h w w' :
  exec (checkpoint_entry q h) w (Ok tt) w' -> whole q w -> whole q w'.
Proof using.
  unfold checkpoint_entry. destruct (IsLocal (tar_Name h)); [|by intros [? _]]. cbn [negb]. destruct (tar_Typeflag h).
  - intros H Hw. apply exec_M_bind in H as ([] & w1 & H1 & H). apply exec_M_bind in H as ([] & w2 & H2 & H).
    apply exec_M_bind in H as ([] & w3 & H3 & H%exec_perform). apply still_pair in H as ->; [|done|by intros ? ?].
    intros k Hk Hu Ht. destruct (exec_file_synced _ _ _ _ _ _ H1 H2 H3 k Ht) as [Ht' Hne].
    apply exec_disk in H1, H2. pose proof (exec_create_copy _ _ _ _ _ _ H1 H2) as E.
    apply exec_disk in H3. apply exec_still in H3; [|done]. rewrite H3, E in Hk. cbn in Hk. rewrite lookup_insert_ne in Hk by done.
    by apply (Hw k).
  - intros H Hw. apply exec_bind in H as (x & w1 & H1%exec_perform & H). apply still_pair in H1 as ->; [|done|by intros ? ?].
    destruct x as [?|?|]; [by destruct H as [_ <-]| |by destruct H as [_ <-]]. apply exec_perform in H as [Hx Hu].
    apply quiet_same in Hx as [E _]; [|done]. intros k. rewrite E, Hu. apply Hw.
  - by intros [_ <-].
Qed.

Lemma exec_checkpoint_read_whole q hs err : forall w w',
  exec (checkpoint_read q hs err) w (Ok tt) w' -> whole q w -> whole q w'.
Proof using.
  induction hs as [|h hs IH]; intros w w' H Hw; cbn [checkpoint_read] in H;
    apply exec_bind in H as (stop & w1 & H1%exec_perform & H); apply still_pair in H1 as ->; try done; try (by intros ? ?);
    (destruct stop; [by destruct H|]).
  - destruct err; by destruct H as [_ <-].
  - apply exec_M_bind in H as ([] & w2 & H2 & H). eapply IH; [exact H|]. by eapply exec_checkpoint_entry_whole.
Qed.

(** A store that was opened in a new directory is not damaged if its files
    are whole. *)
Lemma open_new_good n w db w' :
  d_dbs w.1 !! at_dir n = None -> whole (at_dir n) w -> handles w _ (DOpen (at_dir n)) (Ok db) w' ->
  ~ u_bad w'.2 (at_dir n) /\ d_dirs w'.1 = d_dirs w.1.
Proof using.
  intros Hn Hw [Hx Hu]. rewrite Hu. cbn. rewrite Hn. cbn. rewrite decide_True by done. split.
  - intros [Hk|(k & Hk & Hun & Ht)]; [by destruct Hk; eexists|by apply (Hw k)].
  - by apply open_some in Hx as [->|(_ & db' & ->)].
Qed.

Lemma keeps_open_settled Pick q : keeps (settled Pick) (perform (DOpen q)) (fun _ => True).
Proof using. apply keeps_call. intros w x w' Hw Hx. split; [by eapply settled_open|done]. Qed.

Lemma keeps_open_durable n db q : keeps (durable n db) (perform (DOpen q)) (fun _ => True).
Proof using.
  apply keeps_call. intros w x w' [Hw Hin] Hx. split; [|done]. split; [by eapply settled_open|].
  destruct Hx as [Hx _]. by apply open_some in Hx as [->|(_ & db' & ->)].
Qed.

Lemma keeps_ingest_settled n0 db0 n count k :
  db_name n -> n <> n0 ->
  keeps (settled (only n0 db0)) (perform (DIngest (at_dir n) (ingest_names dir count k))) (fun _ => True).
Proof using Hd.
  intros [Hn _] Hne. apply keeps_call. intros w x w' Hw Hx. split; [|done]. revert Hx Hw. apply settled_ingest.
  - by apply ingest_names_cur.
  - intros n' db' [Hn' _] [-> _]. by apply (Join_ne dir Hd).
Qed.

(** ** Recovering *)

Section Recover.
Context (p : fsmConfig) (Hp : fc_dirname p = dir) (r : bytes) (Hr : len r < 2 ^ 63) (Hsy : syncs).

(** The store in use before, or that of the whole snapshot. *)
Definition old_or_built (rc : snapshotRecoverer) (n0 : bytes) (db0 : DB) (n : bytes) (db : DB) : Prop :=
  only n0 db0 n db \/ built rc r db.

Lemma settled_old rc n0 db0 w : settled (only n0 db0) w -> settled (old_or_built rc n0 db0) w.
Proof using. apply settled_mono. by left. Qed.

(** The new store is complete, and the switch is next. *)
Record complete (rc : snapshotRecoverer) (n0 : bytes) (db0 : DB) (n : bytes) (db : DB) (w : pdisk) : Prop := {
  complete_name : db_name n;
  complete_old : settled (only n0 db0) w;
  complete_dir : dir ∈ d_dirs w.1;
  complete_db : d_dbs w.1 !! at_dir n = Some db;
  complete_good : ~ u_bad w.2 (at_dir n);
  complete_built : built rc r db
}.

Lemma complete_switch rc n0 db0 n db w :
  complete rc n0 db0 n db w ->
  (forall w', cut (switch dir n (at_dir n) db) w w' -> settled (old_or_built rc n0 db0) w')
  /\ (forall w', exec (switch dir n (at_dir n) db) w (Ok tt) w' -> exists n1 db1, built rc r db1 /\ durable n1 db1 w').
Proof using Hd Hsy.
  intros [Hn Hw Hin Hdb Hg Hb]. destruct (switch_settled n0 db0 n db w Hsy Hn Hw Hin Hdb Hg) as [Hc He]. split.
  - intros w' H%Hc. revert H. apply settled_mono. intros n' db' [?|[_ ->]]; [by left|by right].
  - intros w' H%He. by exists n, db.
Qed.

(** A name of a new directory: nothing is there, so nothing is torn. *)
Lemma random_new n0 db0 w n w' :
  settled (only n0 db0) w -> dir ∈ d_dirs w.1 -> exec GetNewRandomDBDirName w n w' ->
  db_name n /\ (forall k, present w'.1 k -> under (at_dir n) k = false)
  /\ settled (only n0 db0) w' /\ dir ∈ d_dirs w'.1 /\ n <> n0 /\ whole (at_dir n) w'.
Proof using Hd.
  clear Hp Hr. intros Hw Hin H. pose proof (exec_plain _ _ _ _ plain_random H) as Hpa.
  apply exec_disk, (exec_random _ dir Hd) in H as (E & Hn & Hf). rewrite <- E in Hf.
  assert (settled (only n0 db0) w') as Hw' by by eapply plain_settled. split_and!; try done; [by apply (pa_dirs _ _ Hpa)| |].
  - eapply fresh_ne; [exact Hf|by apply settled_holds].
  - intros k Hk Hu. rewrite Hf in Hu; [done|by right].
Qed.

Lemma snapshot_complete n0 db0 n w1 db w2 fs w3 db1 w4 :
  db_name n -> (forall k, present w1.1 k -> under (at_dir n) k = false) -> settled (only n0 db0) w1 -> dir ∈ d_dirs w1.1 ->
  n <> n0 -> whole (at_dir n) w1 ->
  exec (perform (DOpen (at_dir n))) w1 (Ok db) w2 -> exec (snapshot_read (S (length r)) dir r 0 []) w2 (Ok (Some fs)) w3 ->
  exec (perform (DIngest (at_dir n) fs)) w3 (Ok db1) w4 -> complete RSnapshot n0 db0 n db1 w4.
Proof using Hd Hr.
  intros Hn Hf Hw1 Hin Hne Hwh H2 H3 H4. destruct (fresh_dir _ n w1.1 Hf) as [Hnone Hempty].
  pose proof (keeps_exec handles _ _ _ _ _ _ (keeps_open_settled _ _) Hw1 H2) as [Hw2 _].
  destruct (open_new_good n w1 db w2 Hnone Hwh (exec_perform _ _ _ _ _ H2)) as [Hg2 Hd2].
  apply exec_disk, exec_open_new in H2 as [Hl E2]; [|done]. rewrite Hempty in Hl.
  pose proof (exec_plain _ _ _ _ (plain_read _ _ _ _) H3) as P3. pose proof (plain_settled _ _ _ P3 Hw2) as Hw3.
  pose proof (exec_read_synced _ _ _ _ _ _ _ H3 (fun k Hk _ => not_elem_of_nil k Hk)) as Hsync.
  pose proof (exec_disk _ _ _ _ _ H3) as H3'. pose proof (exec_disk _ _ _ _ _ H4) as H4'.
  assert (ready dir RSnapshot r n0 db0 n db1 w4.1) as (_ & _ & Hdb & Hb).
  { eapply (exec_ingest faults dir Hd n0 db0 n db r w2.1 fs w3.1); try done; [by apply settled_holds|].
    rewrite E2. cbn. by rewrite lookup_insert_eq. }
  apply (exec_read faults dir Hd) in H3' as (Efs & _); [|lia|unfold len in Hr; lia]. cbn in Efs.
  split; [done| | |done| |done].
  - rewrite Efs in H4. by eapply (keeps_exec handles) in H4 as [? _]; [|by apply keeps_ingest_settled|].
  - apply exec_perform in H4' as Hi. apply ingest_some in Hi as [->|(? & ? & _ & ->)]; cbn; apply (pa_dirs _ _ P3); by rewrite Hd2.
  - apply exec_perform in H4 as [_ Hu]. rewrite Hu. cbn. intros [?%(pa_bad _ _ P3)|[_ [Hk|(k & Hk & Ht)]]]; [done| |].
    + destruct Hk. by eexists.
    + by apply (Hsync k).
Qed.

Lemma snapshot_recover_settled n0 db0 w :
  settled (only n0 db0) w -> dir ∈ d_dirs w.1 ->
  (forall w', cut (snapshot_recover p r) w w' -> settled (old_or_built RSnapshot n0 db0) w')
  /\ (forall w', exec (snapshot_recover p r) w (Ok tt) w' ->
        exists n1 db1, built RSnapshot r db1 /\ durable n1 db1 w').
Proof using Hd Hp Hr Hsy.
  intros Hw Hin. pose proof (fun w' => settled_old RSnapshot n0 db0 w') as Hold. unfold snapshot_recover. rewrite Hp. split; intros w' H.
  - apply cut_M_bind in H as [H|([] & w1 & H1 & H)]; [apply Hold; eapply plain_settled; [by eapply cut_plain; [apply plain_check|]|done]|].
    pose proof (exec_plain _ _ _ _ (plain_check p) H1) as P1. apply cut_bind in H as [H|(n & w2 & H2 & H)].
    { apply Hold. eapply plain_settled; [etrans; [exact P1|by eapply cut_plain; [apply plain_random|]]|done]. }
    apply (random_new n0 db0) in H2 as (Hn & Hf & Hw2 & Hin2 & Hne & Hwh); [|by eapply plain_settled|by apply (pa_dirs _ _ P1)].
    apply cut_M_bind in H as [H|(db & w3 & H3 & H)]; [apply Hold; by eapply (keeps_cut handles); [apply keeps_open_settled| |]|].
    pose proof (keeps_exec handles _ _ _ _ _ _ (keeps_open_settled _ _) Hw2 H3) as [Hw3 _].
    apply cut_M_bind in H as [H|([fs|] & w4 & H4 & H)].
    + apply Hold. eapply plain_settled; [by eapply cut_plain; [apply plain_read|]|done].
    + pose proof (plain_settled _ _ _ (exec_plain _ _ _ _ (plain_read _ _ _ _) H4) Hw3) as Hw4.
      pose proof (fun db1 w5 => snapshot_complete n0 db0 n w2 db w3 fs w4 db1 w5 Hn Hf Hw2 Hin2 Hne Hwh H3 H4) as Hcomp.
      apply cut_M_bind in H as [H|(db1 & w5 & H5%Hcomp & H)]; [|by eapply complete_switch in H5 as [? _]; auto].
      apply exec_disk, (exec_read faults dir Hd) in H4 as (-> & _); [|lia|unfold len in Hr; lia].
      apply Hold. by eapply (keeps_cut handles); [apply keeps_ingest_settled|..].
    + pose proof (plain_settled _ _ _ (exec_plain _ _ _ _ (plain_read _ _ _ _) H4) Hw3) as Hw4.
      assert (dir ∈ d_dirs w4.1) as Hin4.
      { apply (pa_dirs _ _ (exec_plain _ _ _ _ (plain_read _ _ _ _) H4)). apply exec_perform in H3 as [Hx _].
        by apply open_some in Hx as [->|(_ & db' & ->)]. }
      apply Hold. eapply (keeps_cut handles (durable n0 db0)); [|by split|exact H]. apply keeps_then; [by apply keeps_plain_durable|]. intros _.
      apply keeps_then; [|intros _; exact I]. apply keeps_Cleanup_durable, (settled_holds _ _ _ Hw).
  - apply exec_M_bind in H as ([] & w1 & H1 & H). pose proof (exec_plain _ _ _ _ (plain_check p) H1) as P1.
    apply exec_bind in H as (n & w2 & H2 & H).
    apply (random_new n0 db0) in H2 as (Hn & Hf & Hw2 & Hin2 & Hne & Hwh); [|by eapply plain_settled|by apply (pa_dirs _ _ P1)].
    apply exec_M_bind in H as (db & w3 & H3 & H). apply exec_M_bind in H as ([fs|] & w4 & H4 & H).
    + apply exec_M_bind in H as (db1 & w5 & H5 & H).
      apply (snapshot_complete n0 db0 n w2 db w3 fs w4 db1 w5) in H5; try done. by eapply complete_switch in H5 as [_ ?]; eauto.
    + apply exec_bind in H as (c & w5 & _ & H). apply exec_bind in H as (c' & w6 & _ & [? _]). done.
Qed.

Lemma plain_Mkdir q : calls plain (perform (FMkdirAll q)).
Proof using. done. Qed.

Lemma checkpoint_complete n0 db0 n w1 w2 w3 db w4 :
  db_name n -> (forall k, present w1.1 k -> under (at_dir n) k = false) -> settled (only n0 db0) w1 -> dir ∈ d_dirs w1.1 ->
  whole (at_dir n) w1 ->
  exec (perform (FMkdirAll (at_dir n))) w1 (Ok tt) w2 ->
  exec (checkpoint_read (at_dir n) (tar_Read r).1 (tar_Read r).2) w2 (Ok tt) w3 ->
  exec (perform (DOpen (at_dir n))) w3 (Ok db) w4 -> complete RCheckpoint n0 db0 n db w4.
Proof using Hd.
  intros Hn Hf Hw1 Hin Hwh H2 H3 H4. pose proof (exec_plain _ _ _ _ (plain_Mkdir _) H2) as P2.
  pose proof (exec_plain _ _ _ _ (plain_checkpoint_read n _ _ Hn) H3) as P3.
  assert (whole (at_dir n) w3) as Hwh3.
  { eapply exec_checkpoint_read_whole; [exact H3|]. apply exec_perform in H2 as [Hx Hu]. apply quiet_same in Hx as [E _]; [|done].
    intros k. rewrite E, Hu. apply Hwh. }
  pose proof (plain_settled _ _ _ P3 (plain_settled _ _ _ P2 Hw1)) as Hw3.
  destruct (unpacked faults dir Hd r n0 db0 n w1.1 w2.1 w3.1) as (Hs3 & Hnone & He & Hfs);
    [done|by apply settled_holds|done|by apply exec_disk|by apply exec_disk|].
  destruct (open_new_good n w3 db w4 Hnone Hwh3 (exec_perform _ _ _ _ _ H4)) as [Hg Hd4].
  destruct (unpacked_ready faults dir r n0 db0 n w3.1 db w4.1) as (_ & _ & Hdb & Hb); try done; [by apply exec_disk|].
  split; try done.
  - by eapply (keeps_exec handles) in H4 as [? _]; [|apply keeps_open_settled|].
  - rewrite Hd4. by apply (pa_dirs _ _ P3), (pa_dirs _ _ P2).
Qed.

Lemma checkpoint_recover_settled n0 db0 w :
  settled (only n0 db0) w -> dir ∈ d_dirs w.1 ->
  (forall w', cut (checkpoint_recover p r) w w' -> settled (old_or_built RCheckpoint n0 db0) w')
  /\ (forall w', exec (checkpoint_recover p r) w (Ok tt) w' ->
        exists n1 db1, built RCheckpoint r db1 /\ durable n1 db1 w').
Proof using Hd Hp Hsy.
  intros Hw Hin. pose proof (fun w' => settled_old RCheckpoint n0 db0 w') as Hold. unfold checkpoint_recover. rewrite Hp.
  pose proof (checkpoint_complete n0 db0) as Hcomp. destruct (tar_Read r) as [hs err]. cbn [fst snd] in Hcomp. split; intros w' H.
  - apply cut_M_bind in H as [H|([] & w1 & H1 & H)]; [apply Hold; eapply plain_settled; [by eapply cut_plain; [apply plain_check|]|done]|].
    pose proof (exec_plain _ _ _ _ (plain_check p) H1) as P1. apply cut_bind in H as [H|(n & w2 & H2 & H)].
    { apply Hold. eapply plain_settled; [etrans; [exact P1|by eapply cut_plain; [apply plain_random|]]|done]. }
    apply (random_new n0 db0) in H2 as (Hn & Hf & Hw2 & Hin2 & Hne & Hwh); [|by eapply plain_settled|by apply (pa_dirs _ _ P1)].
    apply cut_M_bind in H as [H|([] & w3 & H3 & H)]; [apply Hold; eapply plain_settled; [by eapply cut_plain; [apply plain_Mkdir|]|done]|].
    pose proof (exec_plain _ _ _ _ (plain_Mkdir _) H3) as P3. apply cut_M_bind in H as [H|([] & w4 & H4 & H)].
    { apply Hold. eapply plain_settled; [etrans; [exact P3|by eapply cut_plain; [by apply plain_checkpoint_read|]]|done]. }
    pose proof (exec_plain _ _ _ _ (plain_checkpoint_read n _ _ Hn) H4) as P4.
    apply cut_M_bind in H as [H|(db & w5 & H5 & H)].
    + apply Hold. eapply (keeps_cut handles); [apply keeps_open_settled|eapply plain_settled; [etrans; [exact P3|exact P4]|done]|exact H].
    + apply (Hcomp n w2 w3 w4 db w5) in H5; try done. by eapply complete_switch in H5 as [? _]; auto.
  - apply exec_M_bind in H as ([] & w1 & H1 & H). pose proof (exec_plain _ _ _ _ (plain_check p) H1) as P1.
    apply exec_bind in H as (n & w2 & H2 & H).
    apply (random_new n0 db0) in H2 as (Hn & Hf & Hw2 & Hin2 & Hne & Hwh); [|by eapply plain_settled|by apply (pa_dirs _ _ P1)].
    apply exec_M_bind in H as ([] & w3 & H3 & H). apply exec_M_bind in H as ([] & w4 & H4 & H).
    apply exec_M_bind in H as (db & w5 & H5 & H). apply (Hcomp n w2 w3 w4 db w5) in H5; try done.
    by eapply complete_switch in H5 as [_ ?]; eauto.
Qed.
End Recover.

(** The type of the snapshot and the rest of the stream. *)
Lemma RecoverFromSnapshot_settled p stream n0 db0 w :
  fc_dirname p = dir -> len stream < 2 ^ 63 -> syncs -> settled (only n0 db0) w -> dir ∈ d_dirs w.1 ->
  (forall w', cut (RecoverFromSnapshot p stream) w w' ->
     settled (fun n db => only n0 db0 n db
       \/ exists rc, getRecoverer (snapshotType (take 8 stream)) = Ok rc /\ built rc (drop 8 stream) db) w')
  /\ (forall w', exec (RecoverFromSnapshot p stream) w (Ok tt) w' ->
     exists rc n1 db1, getRecoverer (snapshotType (take 8 stream)) = Ok rc /\ built rc (drop 8 stream) db1
       /\ durable n1 db1 w').
Proof using Hd.
  intros Hp Hl Hsy Hw Hin. set (Pick := fun n db => _). assert (settled Pick w) as Hold by (revert Hw; apply settled_mono; by left).
  unfold RecoverFromSnapshot, ReadFull. change (8 <=? 0) with false. cbv iota.
  destruct (len stream =? 0); [split; [by intros w' [<-|[]]|by intros w' [? _]]|].
  destruct (len stream <? 8); [split; [by intros w' [<-|[]]|by intros w' [? _]]|].
  change (Z.to_nat 8) with 8%nat. set (r := drop 8 stream) in *.
  assert (Hr : len r < 2 ^ 63) by (unfold r, len in *; rewrite length_drop; lia).
  assert (Hrec : forall rc, (forall w', cut (fsm_recover rc p r) w w' -> settled (old_or_built r rc n0 db0) w')
    /\ (forall w', exec (fsm_recover rc p r) w (Ok tt) w' -> exists n1 db1, built rc r db1 /\ durable n1 db1 w')).
  { intros [|]; [by apply snapshot_recover_settled|by apply checkpoint_recover_settled]. }
  split; intros w' H.
  - apply cut_M_bind in H as [[<-|[]]|([h r'] & w1 & [E <-] & H)]; [done|]. injection E as <- <-.
    apply cut_M_bind in H as [[<-|[]]|(rc & w1 & [Hrc <-] & H)]; [done|].
    apply Hrec in H. revert H. apply settled_mono. intros n db [?|?]; [by left|right; eauto].
  - apply exec_M_bind in H as ([h r'] & w1 & [E <-] & H). injection E as <- <-.
    apply exec_M_bind in H as (rc & w1 & [Hrc <-] & H). apply Hrec in H as (n1 & db1 & ? & ?). by exists rc, n1, db1.
Qed.

(** ** Opening *)

(** Opening keeps the store in use settled, and makes it durable.  The file
    system has to tell truly whether [current] is there. *)
Lemma Open_settled p n db w :
  ~ faults (res bool) (FStat cur) -> fc_dirname p = dir -> settled (only n db) w ->
  (forall w', cut (Open p) w w' -> settled (only n db) w') /\ (forall idx w', exec (Open p) w (Ok idx) w' -> durable n db w').
Proof using Hd.
  intros Hstat Hp Hw. destruct (settled_holds _ _ _ Hw) as (Hn & _). unfold Open. rewrite Hp.
  destruct (fc_clusterID p <? 1); [split; [by intros w' [<-|[]]|by intros idx w' [? _]]|].
  destruct (fc_nodeID p <? 1); [split; [by intros w' [<-|[]]|by intros idx w' [? _]]|].
  assert (calls plain (CreateNodeDataDir dir)) as Hpl by (apply calls_M_bind; [done|intros _; apply plain_syncDir]).
  assert (forall w', exec (CreateNodeDataDir dir) w (Ok tt) w' -> durable n db w') as Hcreate.
  { intros w' H. split; [eapply plain_settled; [by eapply exec_plain|done]|]. apply exec_M_bind in H as ([] & w1 & H1 & H).
    apply (pa_dirs _ _ (exec_plain _ _ _ _ (plain_syncDir _) H)). apply exec_perform in H1 as [[(_ & ds & [Hds _] & ->)|[_ [? _]]] _]; [|done].
    cbn. set_solver +Hds. }
  match goal with |- context [M_bind (CreateNodeDataDir dir) ?f] => assert (keeps (durable n db) (f tt) (fun _ => True)) as Hk end.
  { apply keeps_then; [apply keeps_plain_durable, plain_random|]. intros rn. apply keeps_bind, keeps_bind, keeps_call.
    intros w1 x w' Hw1 Hx. split; [by eapply (keeps_plain_durable n db (perform (FStat cur)))|].
    destruct Hx as [[[-> _]|[Hf _]] _]; [|by apply Hstat in Hf]. destruct (settled_holds _ _ _ (proj1 Hw1)) as (_ & Hc & _).
    assert (exists b, disk_Stat w1.1 cur = Ok b) as [b ->].
    { unfold disk_Stat. destruct (is_dir w1.1 cur); [eauto|]. destruct (d_files w1.1 !! cur); [eauto|done]. }
    cbn [keeps]. apply keeps_seq.
    - apply keeps_seq; [by apply keeps_Cleanup_durable|]. intros _. apply keeps_plain_durable, calls_M_bind; [by apply calls_M_bind|].
      intros rd. by apply calls_M_bind.
    - intros dbdir. apply keeps_seq; [apply keeps_open_durable|]. intros db'. apply keeps_plain_durable, calls_bind; [done|]. intros _.
      apply calls_M_bind; [done|]. intros idx. by apply calls_bind. }
  split.
  - intros w' [H|([] & w1 & H1%Hcreate & H)]%cut_M_bind; [eapply plain_settled; [by eapply cut_plain|done]|].
    by apply (keeps_cut handles _ _ _ _ _ Hk H1) in H as [? _].
  - intros idx w' ([] & w1 & H1%Hcreate & H)%exec_M_bind. by apply (keeps_exec handles _ _ _ _ _ _ Hk H1) in H as [? _].
Qed.
End Settled.
