(* ===== verification/RecoveryTheorems.v ===== *)
(** * A replica's store survives

    The theorems on [Recovery]: a recovery that is cut off anywhere, by the end
    of the process or by a loss of power, leaves the old store or the whole new
    one, which a restarted process opens; a saved snapshot is recovered to the
    same store; a recovery without faults returns; and three ways in which a
    store is lost. *)

From S2P Require Import Prelude GoStd Paths Md5 Pebble Query Fsm Snapshot Effects Recovery RecoveryCorrect PowerLoss.

Local Open Scope prog_scope.
Local Opaque md5_Sum.

(** ** What is relied on of the storage engine and of tar *)

Class StoreFilesLaws (P : PebbleOps) {L : PebbleLaws P} {F : StoreFiles P} := {
  (** What has been set, and what a closed table holds. *)
  sst_contents : sstWriter -> list (bytes * bytes);
  sst_table : bytes -> list (bytes * bytes) -> Prop;
  sst_New_spec : sst_contents sst_NewWriter = [];
  sst_Set_spec w k v w' : sst_Set w k v = Ok w' -> sst_contents w' = sst_contents w ++ [(k, v)];
  sst_Close_spec w b : sst_Close w = Ok b -> sst_table b (sst_contents w) /\ len b <= maxAlloc;
  (** A new directory has an empty store; tables that do not overlap are
      added to it. *)
  db_Load_new db : db_Load ∅ = Ok db -> db_view db = ∅;
  db_Ingest_spec db bs ess db' :
    Forall2 sst_table bs ess -> StronglySorted entry_lt (concat ess) -> db_Ingest db bs = Ok db' ->
    db_view db' = list_to_map (concat ess) ∪ db_view db;
  (** A checkpoint is a flat directory with the same store. *)
  db_Checkpoint_names db n : is_Some (db_Checkpoint db !! n) -> simple n;
  db_Checkpoint_spec db db' : db_Load (db_Checkpoint db) = Ok db' -> db_view db' = db_view db
}.

(** The storage engine does not fail. *)
Class StoreFilesHealthy (P : PebbleOps) {L : PebbleLaws P} {F : StoreFiles P} {S : StoreFilesLaws P} := {
  db_Load_ok : is_Ok (db_Load ∅);
  db_Ingest_ok db bs ess :
    Forall2 sst_table bs ess -> StronglySorted entry_lt (concat ess) -> is_Ok (db_Ingest db bs);
  db_Checkpoint_ok db : is_Ok (db_Load (db_Checkpoint db))
}.

Class TarLaws (T : Tar) := {
  tar_roundtrip es : Forall (fun e => simple (tar_Name e)) es -> tar_Read (tar_Write es) = (es, None)
}.

(** ** The stream of a snapshot *)

Definition append_to (w b : bytes) : res bytes := Ok (w ++ b).

Lemma writeLenDelimited_frame b w :
  len b <= maxAlloc -> writeLenDelimited append_to b w = Ok (w ++ frame b).
Proof.
  intros Hb. unfold writeLenDelimited, append_to, copy_to, frame. cbn [mbind res_bind].
  pose proof (len_nonneg b). unfold maxAlloc in Hb. rewrite uint64_id by (unfold is_uint64; lia).
  case_decide as E; [subst b|]; by rewrite <- ?app_assoc, ?app_nil_r.
Qed.

Section Stream.
Context {P : PebbleOps} {L : PebbleLaws P} {F : StoreFiles P} {S : StoreFilesLaws P} {T : Tar}.

(** The tables of a stream that holds the entries, in order. *)
Definition tables_of (entries : list (bytes * bytes)) (bs : list bytes) : Prop :=
  exists ess, Forall2 sst_table bs ess /\ concat ess = entries /\ Forall (fun b => len b <= maxAlloc) bs.

Lemma snapshot_save_go_spec stopc entries : forall n sw w out,
  snapshot_save_go append_to stopc n entries sw w = Ok out ->
  exists bs, out = w ++ concat (map frame bs) /\ tables_of (sst_contents sw ++ entries) bs.
Proof.
  induction entries as [|[k v] entries IH]; intros n sw w out; cbn [snapshot_save_go].
  - intros (b & Hb & H)%bind_Ok_inv. apply sst_Close_spec in Hb as [Ht Hl]. rewrite writeLenDelimited_frame in H by done.
    injection H as <-. exists [b]. cbn [map concat]. rewrite !app_nil_r. split; [done|]. exists [sst_contents sw].
    cbn [concat]. split_and!; [by apply Forall2_cons; split; [|apply Forall2_nil]|by rewrite app_nil_r|by apply Forall_singleton].
  - destruct (stopc n); [done|]. intros (sw' & Hw & H)%bind_Ok_inv. apply sst_Set_spec in Hw.
    destruct (maxBatchSize <=? sst_EstimatedSize sw').
    + apply bind_Ok_inv in H as (b & Hb & H). apply sst_Close_spec in Hb as [Ht Hl]. apply bind_Ok_inv in H as (w' & Hw' & H).
      rewrite writeLenDelimited_frame in Hw' by done. injection Hw' as <-.
      apply IH in H as (bs & -> & ess & Hall & Hc & Hsz). exists (b :: bs). cbn. rewrite <- app_assoc. split; [done|].
      exists (sst_contents sw' :: ess). cbn [concat]. split_and!; [by constructor| |by constructor].
      by rewrite Hc, Hw, sst_New_spec, <- app_assoc.
    + apply IH in H as (bs & -> & Htab). exists bs. split; [done|]. by rewrite Hw, <- app_assoc in Htab.
Qed.

Lemma ReadFull_frame b rest :
  len b <= maxAlloc -> ReadFull (frame b ++ rest) 8 = Ok (PutUint64 (len b), b ++ rest).
Proof using.
  intros _. unfold frame. rewrite <- app_assoc, <- (PutUint64_len (len b)) at 1. apply ReadFull_app. done.
Qed.

Lemma Uint64_len (b : bytes) : len b <= maxAlloc -> Uint64 (PutUint64 (len b)) = Ok (len b).
Proof using. intros Hb. apply Uint64_PutUint64. pose proof (len_nonneg b). unfold maxAlloc in Hb. unfold is_uint64. lia. Qed.

Lemma frames_concat bs : forall fuel,
  Forall (fun b => len b <= maxAlloc) bs -> (length bs < fuel)%nat -> frames fuel (concat (map frame bs)) = bs.
Proof using.
  induction bs as [|b bs IH]; intros fuel Hall Hf; (destruct fuel as [|fuel]; [cbn in Hf; lia|]); [done|].
  apply Forall_cons in Hall as [Hb Hall]. cbn [map concat frames]. rewrite ReadFull_frame, Uint64_len by done.
  unfold len. rewrite Nat2Z.id, take_app_length, drop_app_length, IH; [done|done|cbn in Hf; lia].
Qed.

Lemma frames_enough bs : (length bs <= length (concat (map frame bs)))%nat.
Proof using.
  induction bs as [|b bs IH]; [done|]. cbn [map concat length]. rewrite length_app.
  assert (length (frame b) = 8 + length b)%nat by (unfold frame; rewrite length_app; f_equal; apply le_bytes_length). lia.
Qed.

(** A store is its entries in order. *)
Lemma entries_view db : list_to_map (NewIter (read_db db) None) = db_view db.
Proof using.
  apply map_eq. intros k. pose proof (NewIter_sorted (read_db db) None) as Hs.
  assert (Hnd : NoDup (NewIter (read_db db) None).*1).
  { induction Hs as [|[k' v'] l Hs IH Hall]; [constructor|]. cbn. constructor; [|done].
    intros ([k2 v2] & E & Hin)%list_elem_of_fmap. cbn in E. subst k2. eapply Forall_forall in Hall; [|exact Hin].
    by apply (irreflexivity bytes_lt k') in Hall. }
  destruct (db_view db !! k) as [v|] eqn:E.
  - apply elem_of_list_to_map_1; [done|]. apply (NewIter_spec _ (db_view db)); [apply view_db|done].
  - apply not_elem_of_list_to_map_1. intros ([k' v] & Ek & Hin)%list_elem_of_fmap. cbn in Ek. subst k'.
    apply (NewIter_spec _ (db_view db)) in Hin as [Hin _]; [congruence|apply view_db].
Qed.

(** The store built from a stream of its entries. *)
Lemma built_view db bs db1 :
  tables_of (NewIter (read_db db) None) bs -> built RSnapshot (concat (map frame bs)) db1 -> db_view db1 = db_view db.
Proof using S.
  intros (ess & Hall & Hc & Hsz) (db' & Hl & Hi). rewrite frames_concat in Hi; [|done|pose proof (frames_enough bs); lia].
  apply (db_Ingest_spec _ _ ess) in Hi; [|done|rewrite Hc; apply NewIter_sorted].
  by rewrite Hi, Hc, (db_Load_new db'), entries_view, map_union_empty.
Qed.

Lemma view_index db db1 :
  db_view db1 = db_view db -> readLocalIndex (read_db db1) sysLocalIndex = readLocalIndex (read_db db) sysLocalIndex.
Proof using.
  intros E. unfold readLocalIndex. by rewrite !(Get_spec _ _ _ (view_db _)), E.
Qed.
End Stream.

(** ** The archive of a checkpoint *)

Section Checkpoint.
Context {P : PebbleOps} {L : PebbleLaws P} {F : StoreFiles P} {S : StoreFilesLaws P} {T : Tar} (faults : forall X, fs_ev X -> Prop).
Local Abbreviation handles := (disk_handles faults).
Local Abbreviation exec := (exec handles).

(** A directory with the files of a checkpoint and nothing else. *)
Definition has_checkpoint (ck : bytes) (db : DB) (s : disk) : Prop :=
  (forall n, d_files s !! (ck ++ slash :: n) = db_Checkpoint db !! n)
  /\ (forall k, is_dir s k = true -> under ck k = true -> k = ck).

Lemma checkpoint_simple : simple (str "checkpoint").
Proof using. by apply (bool_decide_unpack _). Qed.

Lemma under_slash p k : under p k = true -> k = p \/ exists n, k = p ++ slash :: n.
Proof using.
  unfold under. rewrite orb_true_iff, bool_decide_eq_true, HasPrefix_slash. done.
Qed.

Lemma exec_prepare_checkpoint dirname s ctx s' dbdir db :
  clean_dir dirname -> d_mem s = Some (dbdir, db) -> exec (fsm_prepare dirname RCheckpoint) s (Ok ctx) s' ->
  exists ck, ctx = checkpointContext ck /\ clean_dir ck /\ has_checkpoint ck db s'.
Proof using.
  intros Hd Hm. unfold fsm_prepare. intros (o & s1 & H1 & H)%exec_bind. apply exec_perform in H1 as [[-> ->]|[_ []]].
  rewrite Hm in H. apply exec_M_bind in H as ([] & s2 & H2 & H).
  assert (d_mem s2 = Some (dbdir, db)) as Hm2.
  { apply exec_perform in H2 as [H2|[_ [? _]]]; [|done]. cbn [disk_does] in H2. rewrite Hm in H2. by destruct H2 as [_ ->]. }
  pose proof (Join_clean_dir dirname Hd _ checkpoint_simple) as Hd2.
  apply exec_bind in H as (n & s3 & H3 & H). apply (exec_random _ _ Hd2) in H3 as (-> & [Hn _] & Hf).
  rewrite (Join_three dirname _ n Hd checkpoint_simple Hn) in H. set (ck := path_Join [path_Join [dirname; str "checkpoint"]; n]) in *.
  apply exec_M_bind in H as ([] & s4 & H4 & [[= <-] <-]). exists ck. split; [done|]. split; [by apply Join_clean_dir|].
  apply exec_perform in H4 as [H4|[_ [? _]]]; [|done]. cbn [disk_does] in H4. rewrite Hm2 in H4.
  destruct H4 as (_ & ds & [_ Hds] & ->). destruct (fresh_dir _ n s2 Hf) as [_ Hnone]. fold ck in Hnone. split.
  - intros m. cbn. destruct (db_Checkpoint db !! m) as [c|] eqn:E.
    + apply lookup_union_Some_l. by rewrite lookup_files_at.
    + rewrite lookup_union_r by by rewrite lookup_files_at. rewrite <- lookup_files_below, Hnone. done.
  - intros k Hk Hu. unfold is_dir in Hk. cbn in Hk. apply orb_true_iff in Hk as [Hk%bool_decide_eq_true|Hk].
    + apply elem_of_union in Hk as [Hk|Hk]; [by apply Hds|]. rewrite Hf in Hu; [done|]. left. unfold is_dir. by rewrite bool_decide_eq_true_2.
    + rewrite Hf in Hu; [done|]. left. unfold is_dir. by rewrite Hk, orb_true_r.
Qed.

Lemma checkpoint_listed ck db s l s' :
  clean_dir ck -> has_checkpoint ck db s -> exec (perform (FList ck)) s (Ok l) s' ->
  s' = s /\ forall n, n ∈ l <-> is_Some (db_Checkpoint db !! n).
Proof using S.
  intros Hck [Hfiles Hdirs] [H|[_ [? _]]]%exec_perform; [|done]. destruct H as (l' & [= <-] & -> & Hl). split; [done|].
  intros n. rewrite Hl. split.
  - intros (Hn & k & Hk & Hu). rewrite (Join_simple ck Hck) in Hu by done. destruct (under_below ck k n Hu) as [Hu' Hne].
    destruct Hk as [Hk|Hk]; [by apply Hdirs in Hk|]. apply under_slash in Hu' as [->|[m ->]]; [done|].
    rewrite Hfiles in Hk. assert (n = m) as ->; [|done].
    pose proof (db_Checkpoint_names db m Hk). apply (under_simple ck Hck); [done|done|]. by rewrite !Join_simple.
  - intros Hs. pose proof (db_Checkpoint_names db n Hs) as Hn. split; [done|]. exists (ck ++ slash :: n). split.
    + right. by rewrite Hfiles.
    + rewrite (Join_simple ck Hck) by done. unfold under. by rewrite bool_decide_eq_true_2.
Qed.

Definition regular (db : DB) (n : bytes) : tar_entry := mkTar n TypeReg (default [] (db_Checkpoint db !! n)).

Lemma exec_checkpoint_save_go ck db l : forall s es s',
  clean_dir ck -> has_checkpoint ck db s -> (forall n, n ∈ l -> is_Some (db_Checkpoint db !! n)) ->
  exec (checkpoint_save_go ck l) s (Ok es) s' -> es = map (regular db) l.
Proof using S.
  induction l as [|n l IH]; intros s es s' Hck Hc Hl H; cbn [checkpoint_save_go] in H; [by destruct H as [[= <-] _]|].
  apply exec_bind in H as (stop & s1 & H1 & H). apply (exec_still faults) in H1 as ->; [|done]. destruct stop; [by destruct H|].
  pose proof (Hl n (list_elem_of_here _ _)) as Hn. pose proof (db_Checkpoint_names db n Hn) as Hsn.
  apply exec_M_bind in H as (isDir & s2 & H2 & H). apply exec_perform in H2 as [[H2 ->]|[_ [? _]]]; [|done].
  pose proof Hc as [Hfiles Hdirs]. rewrite (Join_simple ck Hck) in * by done. unfold disk_Stat in H2.
  destruct (is_dir s (ck ++ slash :: n)) eqn:Ed.
  { assert (E : ck ++ slash :: n = ck); [|apply (f_equal length) in E; rewrite length_app in E; cbn in E; lia].
    apply Hdirs; [done|]. unfold under. rewrite (proj2 (HasPrefix_slash _ _)) by eauto. apply orb_true_r. }
  rewrite Hfiles in H2. destruct (db_Checkpoint db !! n) as [c|] eqn:Ec; [|by destruct Hn]. injection H2 as ->.
  apply exec_M_bind in H as (e & s3 & H3 & H). apply exec_M_bind in H3 as (data & s4 & H4 & [[= <-] <-]).
  apply exec_perform in H4 as [[H4 ->]|[_ [? _]]]; [|done]. rewrite Hfiles, Ec in H4. injection H4 as ->.
  apply exec_M_bind in H as (es' & s5 & H5 & [[= <-] _]). apply IH in H5 as ->; [|done|done|].
  - cbn. unfold regular. by rewrite Ec.
  - intros m Hm. apply Hl. by apply list_elem_of_further.
Qed.

Lemma archive_regular db l : forall m,
  (forall n, n ∈ l -> is_Some (db_Checkpoint db !! n)) ->
  forall n, foldl archive_put m (map (regular db) l) !! n = if decide (n ∈ l) then db_Checkpoint db !! n else m !! n.
Proof using S.
  induction l as [|n0 l IH]; intros m Hl n; [by rewrite decide_False by apply not_elem_of_nil|]. cbn [map foldl].
  pose proof (Hl n0 (list_elem_of_here _ _)) as Hn0.
  rewrite IH by (intros n' ?; apply Hl; by apply list_elem_of_further).
  change (archive_put m (regular db n0)) with (<[path_Clean n0 := default [] (db_Checkpoint db !! n0)]> m).
  rewrite Clean_simple by by apply (db_Checkpoint_names db). destruct (decide (n ∈ l)).
  - rewrite decide_True; [done|]. by apply list_elem_of_further.
  - destruct (decide (n = n0)) as [->|Hne].
    + rewrite lookup_insert_eq, decide_True by apply list_elem_of_here. by destruct Hn0 as [c ->].
    + rewrite lookup_insert_ne, decide_False by (rewrite ?not_elem_of_cons; done). done.
Qed.

(** The archive that a checkpoint is saved as, and what it is unpacked to. *)
Definition archive_of (db : DB) (l : list bytes) : Prop := forall n, n ∈ l <-> is_Some (db_Checkpoint db !! n).

Lemma exec_checkpoint_save ck db s w out s' :
  clean_dir ck -> has_checkpoint ck db s -> exec (checkpoint_save append_to ck w) s (Ok out) s' ->
  exists l, out = w ++ tar_Write (map (regular db) l) /\ archive_of db l.
Proof using S.
  intros Hck Hc H. unfold checkpoint_save in H. apply exec_bind in H as (x & s1 & H1 & H).
  apply exec_bind in H as (c & s2 & _ & [-> _]). apply exec_M_bind in H1 as (l & s3 & H3 & H1).
  apply (checkpoint_listed ck db) in H3 as [-> Hl]; [|done|done]. apply exec_M_bind in H1 as (es & s4 & H4 & [[= <-] _]).
  apply (exec_checkpoint_save_go ck db) in H4 as ->; [|done|done|intros n; apply Hl]. by exists l.
Qed.

Lemma archive_read {TL : TarLaws T} db l :
  archive_of db l -> tar_Read (tar_Write (map (regular db) l)) = (map (regular db) l, None).
Proof using S.
  intros Hl. apply tar_roundtrip, Forall_forall. intros e (n & -> & Hn)%list_elem_of_fmap. apply (db_Checkpoint_names db). by apply Hl.
Qed.
Lemma archive_unpacked db l : archive_of db l -> archive_files (map (regular db) l) = db_Checkpoint db.
Proof using S.
  intros Hl. apply map_eq. intros n. unfold archive_files. rewrite archive_regular by (intros ?; apply Hl).
  case_decide as Hn; [done|]. rewrite (Hl n) in Hn. symmetry. by apply eq_None_not_Some.
Qed.
End Checkpoint.

(** ** Runs without faults *)

Section Runs.
Context {P : PebbleOps} {L : PebbleLaws P} {F : StoreFiles P} {T : Tar} (faults : forall X, fs_ev X -> Prop).
Context (dir : bytes) (Hd : clean_dir dir).
Local Abbreviation handles := (disk_handles faults).
Local Abbreviation exec := (exec handles).
Local Abbreviation cur := (path_Join [dir; currentDBFilename]).
Local Abbreviation upd := (path_Join [dir; updatingDBFilename]).
Local Abbreviation at_dir n := (path_Join [dir; n]).

Lemma does {X} (e : fs_ev X) s x s' : disk_does s e x s' -> exec (perform e) s x s'.
Proof using. intros H. apply exec_call. by left. Qed.

(** The directory is there and the names of its files are not directories. *)
Definition tidy (s : disk) : Prop :=
  is_dir s dir = true /\ is_dir s upd = false /\ forall i, is_dir s (ingest_name dir i) = false.
(** The clock gives a name that is not in use. *)
Definition clock (s : disk) : Prop :=
  exists a t, is_uint64 a /\ 0 <= t < 2 ^ 63 /\ forall a' k, is_uint64 a' -> present s k -> db_dir_name a' t ∉ split_slash k.

Lemma can_syncDir d s : is_dir s d = true -> exec (syncDir d) s (Ok tt) s.
Proof using.
  intros Hd'. eapply exec_M_ok; [apply does; cbn; unfold disk_Stat; by rewrite Hd'|]. cbn [negb].
  eapply exec_M_ok; [by apply does|]. apply exec_bind. exists (Ok tt), s. split; [by apply does|].
  apply exec_bind. exists (Ok tt), s. split; [by apply does|done].
Qed.

Lemma can_create p s : is_dir s p = false -> exec (perform (FCreate p)) s (Ok tt) (set_files s (<[p := []]> (d_files s))).
Proof using. intros Hp. apply does. cbn. by rewrite Hp. Qed.
Lemma can_write p b old s :
  d_files s !! p = Some old -> exec (perform (FWrite p b)) s (Ok tt) (set_files s (<[p := old ++ b]> (d_files s))).
Proof using. intros Hp. apply does. cbn. by rewrite Hp. Qed.

Lemma can_create_copy p b s :
  is_dir s p = false ->
  exists s1 s2, exec (perform (FCreate p)) s (Ok tt) s1 /\ exec (copy_file p b) s1 (Ok tt) s2
    /\ s2 = set_files s (<[p := b]> (d_files s)).
Proof using.
  intros Hp. set (s1 := set_files s (<[p := []]> (d_files s))).
  exists s1, (set_files s (<[p := b]> (d_files s))). split; [by apply can_create|]. split; [|done].
  unfold copy_file. case_decide as Hb; [by subst b|].
  assert (E : set_files s (<[p := b]> (d_files s)) = set_files s1 (<[p := [] ++ b]> (d_files s1))).
  { unfold set_files. cbn. by rewrite insert_insert_eq. }
  rewrite E. apply (can_write _ _ []). cbn. by rewrite lookup_insert_eq.
Qed.

Lemma can_Save n s :
  is_dir s dir = true -> is_dir s upd = false ->
  exec (SaveCurrentDBDirName dir n) s (Ok tt) (set_files s (<[upd := current_data n]> (d_files s))).
Proof using.
  intros Hdir Hu. eapply exec_M_ok; [by apply can_create|]. set (s1 := set_files s _).
  assert (Hw : exec (_ <- perform (FWrite upd (take 8 (md5_Sum n))); _ <- perform (FWrite upd n); perform (FSync upd)) s1 (Ok tt)
                 (set_files s (<[upd := current_data n]> (d_files s)))).
  { eapply exec_M_ok; [apply (can_write _ _ []); cbn; by rewrite lookup_insert_eq|].
    eapply exec_M_ok; [apply (can_write _ _ (take 8 (md5_Sum n))); cbn; by rewrite lookup_insert_eq|].
    apply does. split; [done|]. unfold set_files. cbn. by rewrite !insert_insert_eq. }
  apply exec_bind. exists (Ok tt), (set_files s (<[upd := current_data n]> (d_files s))). split; [exact Hw|].
  apply exec_bind. exists (Ok tt), (set_files s (<[upd := current_data n]> (d_files s))). split; [by apply does|].
  apply exec_bind. exists (Ok tt), (set_files s (<[upd := current_data n]> (d_files s))). split; [by apply can_syncDir|done].
Qed.

Lemma can_Replace n s :
  is_dir s dir = true -> d_files s !! upd = Some (current_data n) ->
  exec (ReplaceCurrentDBFile dir) s (Ok tt) (set_files s (<[cur := current_data n]> (delete upd (d_files s)))).
Proof using.
  intros Hdir Hu. eapply exec_M_ok; [apply does; cbn [disk_does]; by rewrite Hu|]. by apply can_syncDir.
Qed.

Lemma can_list s : exists l, disk_does s (FList dir) (Ok l) s.
Proof using Hd.
  set (keys := elements (dom (d_files s) ∪ dom (d_dbs s) ∪ d_dirs s)).
  exists (keys ≫= entry_of dir), (keys ≫= entry_of dir). split_and!; [done|done|]. intros n. rewrite list_elem_of_bind. split.
  - intros (k & Hn & Hk). apply elem_of_entry_of in Hn as [Hn Hu]; [|done]. split; [done|]. exists k. split; [|done].
    unfold keys in Hk. rewrite elem_of_elements, !elem_of_union, !elem_of_dom in Hk. unfold present, is_dir.
    destruct Hk as [[Hk|Hk]|Hk]; [by right|left; rewrite orb_true_iff, !bool_decide_eq_true; by right|].
    left. rewrite orb_true_iff, !bool_decide_eq_true. by left.
  - intros (Hn & k & Hk & Hu). exists k. split; [by apply elem_of_entry_of|].
    unfold keys. rewrite elem_of_elements, !elem_of_union, !elem_of_dom. unfold present, is_dir in Hk.
    rewrite orb_true_iff, !bool_decide_eq_true in Hk. tauto.
Qed.

Lemma can_cleanup_entries dbdir l : forall s, exists s', exec (M_iter (cleanup_entry dir dbdir) l) s (Ok tt) s'.
Proof using.
  induction l as [|fi l IH]; intros s; [by exists s|]. cbn [M_iter].
  assert (He : exists s1, exec (cleanup_entry dir dbdir fi) s (Ok tt) s1).
  { unfold cleanup_entry. case_decide; [by exists s|]. case_decide; [by exists s|]. eexists. by apply does. }
  destruct He as [s1 He]. destruct (IH s1) as [s2 Hs2]. exists s2. by eapply exec_M_ok.
Qed.

Lemma can_Cleanup s : is_Some (d_files s !! cur) -> exists s', exec (CleanupNodeDataDir dir) s (Ok tt) s'.
Proof using Hd.
  intros [data Hc]. assert (Hc' : d_files (disk_remove s upd) !! cur = Some data).
  { rewrite (proj1 (lookup_removed s upd cur (Join_apart dir Hd _ _ updating_simple current_simple ltac:(done)))). done. }
  destruct (can_list (disk_remove s upd)) as [l Hl]. destruct (can_cleanup_entries (current_content data) l (disk_remove s upd)) as [s' Hs'].
  exists s'. eapply exec_M_ok; [by apply does|]. eapply exec_M_ok.
  { eapply exec_M_ok; [apply does; cbn [disk_does]; by rewrite Hc'|done]. }
  eapply exec_M_ok; [apply does; exact Hl|exact Hs'].
Qed.

Lemma can_random s : clock s -> exists n, exec GetNewRandomDBDirName s n s.
Proof using.
  intros (a & t & Ha & Ht & Hf). exists (db_dir_name a t). apply exec_bind. exists a, s. split; [by apply does|].
  apply exec_bind. exists t, s. split; [by apply does|done].
Qed.

Lemma can_switch n db idx s :
  is_dir s dir = true -> is_dir s upd = false -> readLocalIndex (read_db db) sysLocalIndex = Ok idx ->
  exists s', exec (switch dir n (at_dir n) db) s (Ok tt) s'.
Proof using Hd.
  intros Hdir Hu Hi. set (s1 := set_files s (<[upd := current_data n]> (d_files s))).
  set (s2 := set_files s1 (<[cur := current_data n]> (delete upd (d_files s1)))).
  set (s3 := set_applied (set_mem s2 (Some (at_dir n, db))) idx).
  destruct (can_Cleanup s3) as [s' Hs']; [cbn; rewrite lookup_insert_eq; eauto|]. exists s'.
  eapply exec_M_ok; [done|]. eapply exec_M_ok; [by apply can_Save|].
  eapply exec_M_ok; [apply (can_Replace n); [done|cbn; by rewrite lookup_insert_eq]|].
  apply exec_bind. exists (d_mem s), (set_mem s2 (Some (at_dir n, db))). split; [by apply does|].
  apply exec_bind. exists tt, s3. split; [by apply does|]. apply exec_bind. exists (Ok tt), s3. split; [|exact Hs'].
  destruct (d_mem s) as [[d ?]|]; [by apply does|done].
Qed.

Lemma can_read bs : forall fuel count files s,
  Forall (fun b => len b <= maxAlloc) bs -> (length bs < fuel)%nat -> tidy s ->
  exists s', exec (snapshot_read fuel dir (concat (map frame bs)) count files) s
    (Ok (Some (files ++ ingest_names dir count (length bs)))) s' /\ tidy s'.
Proof using.
  induction bs as [|b bs IH]; intros fuel count files s Hall Hf Ht; (destruct fuel as [|fuel]; [cbn in Hf; lia|]).
  - exists s. split; [|done]. cbn [snapshot_read map concat]. apply exec_bind. exists false, s. split; [by apply does|].
    cbn. by rewrite app_nil_r.
  - apply Forall_cons in Hall as [Hb Hall]. cbn [snapshot_read map concat].
    destruct (can_create_copy (ingest_name dir count) b s) as (s1 & s2 & H1 & H2 & ->); [apply Ht|].
    destruct (IH fuel (count + 1) (files ++ [ingest_name dir count]) (set_files s (<[ingest_name dir count := b]> (d_files s))))
      as (s' & Hs' & Ht'); [done|cbn in Hf; lia|done|]. exists s'. split; [|done].
    apply exec_bind. exists false, s. split; [by apply does|]. cbn [ingest_names length]. rewrite ReadFull_frame by done.
    eapply exec_M_ok; [split; [by apply Uint64_len|done]|]. rewrite (proj2 (Z.ltb_ge _ _)) by done.
    replace (Z.to_nat (len b)) with (length b) by (unfold len; lia). rewrite take_app_length, drop_app_length.
    eapply exec_M_ok; [exact H1|]. eapply exec_M_ok; [exact H2|]. eapply exec_M_ok; [by apply does|].
    eapply exec_M_ok; [by apply does|]. by rewrite <- app_assoc in Hs'.
Qed.
End Runs.

(** ** Crashes *)


(** What a recovery or an opening that returns leaves is on stable storage
    again. *)
Theorem recovered_durable {P : PebbleOps} {F : StoreFiles P} {T : Tar} (faults : forall X, fs_ev X -> Prop) p stream n0 db0 w w' :
  clean_dir (fc_dirname p) -> len stream < 2 ^ 63 -> syncs faults (fc_dirname p) -> durable (fc_dirname p) n0 db0 w ->
  exec (power_handles faults) (RecoverFromSnapshot p stream) w (Ok tt) w' ->
  exists n db, durable (fc_dirname p) n db w' /\ exists rc, getRecoverer (snapshotType (take 8 stream)) = Ok rc /\ built rc (drop 8 stream) db.
Proof.
  intros Hd Hl Hsy [Hw Hin] H. destruct (RecoverFromSnapshot_settled faults _ Hd p stream n0 db0 w eq_refl Hl Hsy Hw Hin) as [_ He].
  apply He in H as (rc & n1 & db1 & Hrc & Hb & Hdur). exists n1, db1. eauto.
Qed.
Theorem opened_durable {P : PebbleOps} {F : StoreFiles P} {T : Tar} (faults : forall X, fs_ev X -> Prop) p n db t idx w' :
  clean_dir (fc_dirname p) -> ~ faults _ (FStat (path_Join [fc_dirname p; currentDBFilename])) -> holds (fc_dirname p) n db t ->
  exec (power_handles faults) (Open p) (t, all_synced) (Ok idx) w' -> durable (fc_dirname p) n db w'.
Proof.
  intros Hd Hstat Hh H. destruct (Open_settled faults _ Hd p n db (t, all_synced) Hstat eq_refl (settled_synced _ _ _ _ Hh)) as [_ He]. by apply He in H.
Qed.

(** ** Round trip *)

Lemma getHeader_type rc : getRecoverer (snapshotType (getHeader rc)) = Ok rc /\ length (getHeader rc) = 8%nat.
Proof. by destruct rc. Qed.

Section Roundtrip.
Context {P : PebbleOps} {L : PebbleLaws P} {F : StoreFiles P} {S : StoreFilesLaws P} {T : Tar} {TL : TarLaws T}.

(** What is saved of a store. *)
Definition saved (rc : snapshotRecoverer) (db : DB) (r : bytes) : Prop :=
  match rc with
  | RSnapshot => exists bs, r = concat (map frame bs) /\ tables_of (NewIter (read_db db) None) bs
  | RCheckpoint => exists l, r = tar_Write (map (regular db) l) /\ archive_of db l
  end.

Lemma exec_saved faults p dbdir db s0 ctx s1 m stopc out s2 rc :
  clean_dir (fc_dirname p) -> d_mem s0 = Some (dbdir, db) -> getRecoverer (fc_recoveryType p) = Ok rc ->
  exec (disk_handles faults) (PrepareSnapshot p) s0 (Ok ctx) s1 ->
  exec (disk_handles faults) (SaveSnapshot append_to p ctx [] stopc) (set_mem s1 m) (Ok out) s2 ->
  exists r, out = getHeader rc ++ r /\ saved rc db r.
Proof using S.
  intros Hd Hm Hrc Hprep Hsave. unfold PrepareSnapshot in Hprep. unfold SaveSnapshot in Hsave. rewrite Hrc in *.
  apply exec_M_bind in Hprep as (rc' & s' & [[= <-] <-] & Hprep). apply exec_M_bind in Hsave as (rc' & s' & [[= <-] <-] & Hsave).
  apply exec_M_bind in Hsave as (w & s' & [[= <-] <-] & Hsave). cbn [app] in Hsave. destruct rc.
  - unfold fsm_prepare in Hprep. apply exec_bind in Hprep as (o & s' & [[-> ->]|[_ []]]%exec_perform & Hprep).
    rewrite Hm in Hprep. destruct Hprep as [[= <-] <-]. cbn [fsm_save] in Hsave. destruct Hsave as [Hsave _].
    unfold snapshot_save in Hsave. apply snapshot_save_go_spec in Hsave as (bs & -> & Ht). rewrite sst_New_spec in Ht.
    eexists. split; [done|]. by exists bs.
  - apply (exec_prepare_checkpoint faults _ _ _ _ dbdir db) in Hprep as (ck & -> & Hck & Hc); [|done|done]. cbn [fsm_save] in Hsave.
    apply (exec_checkpoint_save faults ck db) in Hsave as (l & -> & Hl); [|done|done]. eexists. split; [done|]. by exists l.
Qed.

(** What is saved builds the store that was there when it was prepared. *)
Lemma saved_builds rc db r db1 : saved rc db r -> built rc r db1 -> db_view db1 = db_view db.
Proof using S TL.
  destruct rc.
  - intros (bs & -> & Ht) Hb. by eapply built_view.
  - intros (l & -> & Hl) [_ Hb]. rewrite archive_read in Hb by done. cbn [fst] in Hb. rewrite archive_unpacked in Hb by done. by eapply db_Checkpoint_spec.
Qed.

(** C8. Snapshots of replicas round trip, for both types of recovery.  Save a
    snapshot of a replica, whatever is applied to it between [PrepareSnapshot]
    and [SaveSnapshot], and recover another replica from it: if
    [RecoverFromSnapshot] returns, the replica has exactly the keys and values
    that were there when the snapshot was prepared, its applied index is
    theirs, and [current] names the new store. *)
Theorem snapshot_roundtrip faults p dbdir db s0 ctx s1 m stopc out s2 p' n0 db0 t t' rc :
  clean_dir (fc_dirname p) -> d_mem s0 = Some (dbdir, db) -> getRecoverer (fc_recoveryType p) = Ok rc ->
  exec (disk_handles faults) (PrepareSnapshot p) s0 (Ok ctx) s1 ->
  exec (disk_handles faults) (SaveSnapshot append_to p ctx [] stopc) (set_mem s1 m) (Ok out) s2 ->
  clean_dir (fc_dirname p') -> len out < 2 ^ 63 -> holds (fc_dirname p') n0 db0 t ->
  exec (disk_handles faults) (RecoverFromSnapshot p' out) t (Ok tt) t' ->
  exists n1 db1, holds (fc_dirname p') n1 db1 t' /\ d_mem t' = Some (path_Join [fc_dirname p'; n1], db1)
    /\ db_view db1 = db_view db /\ readLocalIndex (read_db db) sysLocalIndex = Ok (d_applied t').
Proof using S TL.
  intros Hd Hm Hrc Hprep Hsave Hd' Hl Ht Hrec.
  destruct (exec_saved faults p dbdir db s0 ctx s1 m stopc out s2 rc Hd Hm Hrc Hprep Hsave) as (r & -> & Hb).
  apply (exec_RecoverFromSnapshot faults _ Hd' p' _ n0 db0) in Hrec as (rc' & Hrc' & n1 & db1 & Hh & Hbuilt & Hmem & Hi); [|done..].
  destruct (getHeader_type rc) as [Hty Hlen]. rewrite take_app_length' in Hrc' by done. rewrite Hty in Hrc'. injection Hrc' as <-.
  rewrite drop_app_length' in Hbuilt by done. apply (saved_builds rc db) in Hbuilt; [|done]. exists n1, db1.
  split_and!; [done|done|done|]. by rewrite <- (view_index db db1).
Qed.
End Roundtrip.

(** ** Recoveries return *)

Section Returns.
Context {P : PebbleOps} {L : PebbleLaws P} {F : StoreFiles P} {S : StoreFilesLaws P} {H : StoreFilesHealthy P}.
Context {T : Tar} {TL : TarLaws T}.
Context (faults : forall X, fs_ev X -> Prop) (p : fsmConfig).
Local Abbreviation dir := (fc_dirname p).
Local Abbreviation exec := (exec (disk_handles faults)).
Context (Hd : clean_dir dir) (Hcluster : 1 <= fc_clusterID p) (Hnode : 1 <= fc_nodeID p).

Lemma can_check s : d_closed s = false -> exec (check_fsm p) s (Ok tt) s.
Proof using Hcluster Hnode.
  intros Hc. apply exec_bind. exists false, s. split; [apply does; by rewrite <- Hc|].
  by rewrite !(proj2 (Z.ltb_ge _ _)).
Qed.

Lemma can_open_new n s :
  d_dbs s !! path_Join [dir; n] = None -> files_below (d_files s) (path_Join [dir; n]) = ∅ ->
  exists db, db_Load ∅ = Ok db /\ exec (perform (DOpen (path_Join [dir; n]))) s (Ok db) (set_dbs s (<[path_Join [dir; n] := db]> (d_dbs s))).
Proof using H.
  intros Hn He. destruct db_Load_ok as [db Hdb]. exists db. split; [done|]. apply does. cbn [disk_does]. by rewrite Hn, He, Hdb.
Qed.

Lemma tidy_new n db s : db_name n -> tidy dir s -> tidy dir (set_dbs s (<[path_Join [dir; n] := db]> (d_dbs s))).
Proof using Hd.
  intros (Hs & _ & Hu & Hi) (H1 & H2 & H3).
  assert (Hdir : forall k, path_Join [dir; n] <> k -> is_dir (set_dbs s (<[path_Join [dir; n] := db]> (d_dbs s))) k = is_dir s k).
  { intros k Hk. unfold is_dir. cbn. by rewrite lookup_insert_ne. }
  split_and!.
  - rewrite Hdir; [done|]. by apply Join_simple_ne.
  - rewrite Hdir; [done|]. apply (Join_ne dir Hd n updatingDBFilename); [done|apply updating_simple|done].
  - intros i. rewrite Hdir; [done|]. apply (Join_ne dir Hd n (ingest_file i)); [done|apply ingest_file_ok|apply Hi].
Qed.

Lemma can_ingest n db bs ess s :
  d_dbs s !! path_Join [dir; n] = Some db -> Forall2 sst_table bs ess -> StronglySorted entry_lt (concat ess) ->
  Forall2 (fun k b => d_files s !! k = Some b) (ingest_names dir 0 (length bs)) bs ->
  exists db1 f, exec (perform (DIngest (path_Join [dir; n]) (ingest_names dir 0 (length bs)))) s (Ok db1)
    (set_dbs (set_files s f) (<[path_Join [dir; n] := db1]> (d_dbs s))).
Proof using H.
  intros Hdb Ht Hs Hf. destruct (db_Ingest_ok db bs ess Ht Hs) as [db1 Hi]. exists db1, (foldr delete (d_files s) (ingest_names dir 0 (length bs))).
  apply does. exists db, bs. split; [done|]. split; [by apply mapM_Some|]. by rewrite Hi.
Qed.

Lemma can_recover n0 db0 s db bs :
  holds dir n0 db0 s -> tidy dir s -> clock s -> d_closed s = false ->
  tables_of (NewIter (read_db db) None) bs -> len (concat (map frame bs)) < 2 ^ 63 ->
  is_Ok (readLocalIndex (read_db db) sysLocalIndex) ->
  exists s', exec (snapshot_recover p (concat (map frame bs))) s (Ok tt) s'.
Proof using H Hd Hcluster Hnode T.
  intros Hs Ht Hcl Hclosed Htab Hlen [idx Hidx]. destruct (can_random faults s Hcl) as [n Hn].
  pose proof (exec_random faults _ Hd _ _ _ Hn) as (_ & Hname & Hf). destruct (fresh_dir _ n s Hf) as [Hnone Hempty].
  destruct (can_open_new n s Hnone Hempty) as (dbn & Hl & Hopen). set (s1 := set_dbs s _) in Hopen.
  pose proof (tidy_new n dbn s Hname Ht) as Ht1. fold s1 in Ht1. pose proof (frames_enough bs) as Hfe.
  pose proof Htab as (ess & Hall & Hc & Hsz). set (r := concat (map frame bs)) in *.
  destruct (can_read faults dir bs (Datatypes.S (length r)) 0 [] s1) as (s2 & Hread & Ht2); [done|lia|done|]. fold r in Hread. cbn [app] in Hread.
  pose proof Hread as (_ & (f & ->) & _ & Hfiles)%(exec_read faults _ Hd); [|lia|unfold len in Hlen; lia].
  unfold r in Hfiles. rewrite frames_concat in Hfiles by (try done; fold r; lia). fold r in Hfiles.
  destruct (can_ingest n dbn bs ess (set_files s1 f)) as (db1 & f' & Hing); [cbn; by rewrite lookup_insert_eq|done|rewrite Hc; apply NewIter_sorted|done|].
  assert (Hb : built RSnapshot r db1).
  { eapply (exec_ingest faults dir Hd n0 db0 n dbn r s1); [done|by eapply fresh_ne|done| |cbn; by rewrite lookup_insert_eq|done|exact Hread|exact Hing].
    by apply (keeps_exec _ _ _ _ _ _ _ (keeps_open faults dir n0 db0 _) Hs) in Hopen as [? _]. }
  apply (built_view db) in Hb; [|done]. pose proof (tidy_new n db1 (set_files (set_files s1 f) f') Hname Ht2) as (Hdir & Hupd & _).
  destruct (can_switch faults dir Hd n db1 idx _ Hdir Hupd) as [s' Hsw]; [by rewrite (view_index db)|]. exists s'.
  unfold snapshot_recover. eapply exec_M_ok; [by apply can_check|]. apply exec_bind. exists n, s. split; [done|].
  eapply exec_M_ok; [exact Hopen|]. eapply exec_M_ok; [exact Hread|]. eapply exec_M_ok; [exact Hing|exact Hsw].
Qed.

Lemma can_Open n db idx s :
  holds dir n db s -> dir ∈ d_dirs s -> is_dir s (path_Dir dir) = true -> clock s ->
  readLocalIndex (read_db db) sysLocalIndex = Ok idx -> exists s', exec (Open p) s (Ok idx) s'.
Proof using Hd Hcluster Hnode.
  intros Hs Hin Hup Hcl Hidx. pose proof Hs as (Hn & Hc & Hdb).
  assert (Hmk : add_dirs s {[dir]} = s).
  { destruct s. unfold add_dirs. cbn in *. f_equal. by apply subseteq_union_1_L, singleton_subseteq_l. }
  destruct (can_random faults s Hcl) as [rn Hrn]. destruct (d_files s !! path_Join [dir; currentDBFilename]) as [data|] eqn:Ec; [|done].
  destruct (can_Cleanup faults dir Hd s) as [s1 Hclean]; [rewrite Ec; eauto|].
  pose proof (keeps_exec _ _ _ _ _ _ _ (keeps_Cleanup faults dir Hd n db Hn) Hs Hclean) as [Hs1 _]. pose proof Hs1 as (_ & Hc1 & Hdb1).
  exists (set_applied (set_mem s1 (Some (path_Join [dir; n], db))) idx). unfold Open. rewrite !(proj2 (Z.ltb_ge _ _)) by done.
  eapply exec_M_ok.
  { eapply exec_M_ok; [apply does; split; [done|]; exists {[dir]}; split; [|symmetry; exact Hmk]|by apply can_syncDir].
    split; [by apply elem_of_singleton|]. by intros q Hq%elem_of_singleton _. }
  apply exec_bind. exists rn, s. split; [done|]. apply exec_bind. exists false, s. split.
  { apply exec_bind. exists (disk_Stat s (path_Join [dir; currentDBFilename])), s. split; [by apply does|].
    unfold disk_Stat. rewrite Ec. by destruct (is_dir s (path_Join [dir; currentDBFilename])). }
  eapply exec_M_ok.
  { eapply exec_M_ok; [exact Hclean|]. destruct (d_files s1 !! path_Join [dir; currentDBFilename]) as [data1|] eqn:Ec1; [|done].
    injection Hc1 as Hc1. eapply exec_M_ok; [eapply exec_M_ok; [apply does; cbn [disk_does]; by rewrite Ec1|done]|]. rewrite Hc1.
    assert (Hst : disk_Stat s1 (path_Join [dir; n]) = Ok true).
    { unfold disk_Stat, is_dir. by rewrite (bool_decide_eq_true_2 (is_Some _)), orb_true_r by (rewrite Hdb1; eauto). }
    apply (exec_M_ok _ _ _ s1 true s1); [by apply does|done]. }
  eapply exec_M_ok; [apply does; cbn [disk_does]; by rewrite Hdb1|].
  apply exec_bind. exists (d_mem s1), (set_mem s1 (Some (path_Join [dir; n], db))). split; [by apply does|].
  eapply exec_M_ok; [done|]. apply exec_bind. eexists tt, _. split; [by apply does|done].
Qed.

Lemma made_one q : made_dirs q {[q]}.
Proof using. split; [by apply elem_of_singleton|]. by intros k Hk%elem_of_singleton. Qed.

(** Saving a checkpoint. *)
Lemma can_save_go ck db l s :
  clean_dir ck -> has_checkpoint ck db s -> (forall n, n ∈ l -> is_Some (db_Checkpoint db !! n)) ->
  exec (checkpoint_save_go ck l) s (Ok (map (regular db) l)) s.
Proof using S.
  intros Hck Hc Hl. induction l as [|n l IH]; [done|]. cbn [checkpoint_save_go map].
  pose proof (Hl n (list_elem_of_here _ _)) as Hn. pose proof (db_Checkpoint_names db n Hn) as Hsn. pose proof Hc as [Hfiles Hdirs].
  apply exec_bind. exists false, s. split; [by apply does|]. destruct Hn as [c Hn].
  assert (Hstat : disk_Stat s (path_Join [ck; n]) = Ok false).
  { unfold disk_Stat. rewrite (Join_simple ck Hck) by done. rewrite Hfiles, Hn. destruct (is_dir s _) eqn:Ed; [|done]. exfalso.
    apply (Join_simple_ne ck Hck n Hsn). rewrite (Join_simple ck Hck) by done. apply Hdirs; [done|].
    unfold under. rewrite (proj2 (HasPrefix_slash _ _)) by eauto. apply orb_true_r. }
  eapply exec_M_ok; [apply does; by rewrite <- Hstat|]. eapply exec_M_ok.
  { eapply exec_M_ok; [apply does; cbn [disk_does]; rewrite (Join_simple ck Hck) by done; by rewrite Hfiles, Hn|done]. }
  eapply exec_M_ok; [apply IH; intros k ?; by apply Hl, list_elem_of_further|]. unfold regular. by rewrite Hn.
Qed.

Lemma can_save_checkpoint p0 dbdir db t0 m stopc :
  clean_dir (fc_dirname p0) -> d_mem t0 = Some (dbdir, db) -> getRecoverer (fc_recoveryType p0) = Ok RCheckpoint ->
  clock (set_dbs t0 (<[dbdir := db]> (d_dbs t0))) ->
  exists ctx t1 out t2, exec (PrepareSnapshot p0) t0 (Ok ctx) t1
    /\ exec (SaveSnapshot append_to p0 ctx [] stopc) (set_mem t1 m) (Ok out) t2.
Proof using S.
  intros Hd0 Hm Hrc Hcl. set (s1 := set_dbs t0 _) in Hcl. destruct (can_random faults s1 Hcl) as [n Hn].
  set (ck := path_Join [fc_dirname p0; str "checkpoint"; n]).
  set (t1 := add_dirs (set_files s1 (files_at ck (db_Checkpoint db) ∪ d_files s1)) {[ck]}).
  assert (Hprep : exec (fsm_prepare (fc_dirname p0) RCheckpoint) t0 (Ok (checkpointContext ck)) t1).
  { apply exec_bind. exists (d_mem t0), t0. split; [by apply does|]. rewrite Hm.
    eapply exec_M_ok; [apply does; cbn [disk_does]; by rewrite Hm|]. apply exec_bind. exists n, s1. split; [exact Hn|].
    eapply exec_M_ok; [|done]. apply does. cbn [disk_does d_mem s1 set_dbs]. rewrite Hm. split; [done|].
    exists {[ck]}. split; [apply made_one|done]. }
  pose proof Hprep as (ck' & [= <-] & Hck & Hc)%(exec_prepare_checkpoint faults _ _ _ _ dbdir db); [|done|done].
  assert (has_checkpoint ck db (set_mem t1 m)) as Hc' by exact Hc.
  destruct (can_list ck Hck (set_mem t1 m)) as [l Hl]. apply (does faults) in Hl.
  destruct (checkpoint_listed faults ck db _ _ _ Hck Hc' Hl) as [_ Hlin].
  exists (checkpointContext ck), t1, (getHeader RCheckpoint ++ tar_Write (map (regular db) l)), (disk_remove (set_mem t1 m) ck). split.
  - eapply exec_M_ok; [by rewrite Hrc|exact Hprep].
  - eapply exec_M_ok; [by rewrite Hrc|]. eapply exec_M_ok; [done|]. apply exec_bind.
    exists (Ok (getHeader RCheckpoint ++ tar_Write (map (regular db) l))), (set_mem t1 m). split.
    { eapply exec_M_ok; [exact Hl|]. eapply exec_M_ok; [apply can_save_go; [done|done|intros k; apply Hlin]|done]. }
    apply exec_bind. exists (Ok tt), (disk_remove (set_mem t1 m) ck). split; [by apply does|done].
Qed.

(** Unpacking the files of a checkpoint into a directory that has nothing
    else. *)
Definition room (q : bytes) (s : disk) : Prop := forall k, is_dir s k = true -> under q k = true -> k = q.

Lemma can_checkpoint_read n db l : forall s,
  simple n -> (forall m, m ∈ l -> is_Some (db_Checkpoint db !! m)) -> room (path_Join [dir; n]) s ->
  exists f, exec (checkpoint_read (path_Join [dir; n]) (map (regular db) l) None) s (Ok tt) (set_files s f).
Proof using Hd S.
  induction l as [|m l IH]; intros s Hn Hl Hroom; cbn [map checkpoint_read].
  { exists (d_files s). apply exec_bind. exists false, s. split; [by apply does|]. by destruct s. }
  pose proof (db_Checkpoint_names db m (Hl m (list_elem_of_here _ _))) as Hm. pose proof (Join_clean_dir dir Hd n Hn) as Hnd.
  set (b := default [] (db_Checkpoint db !! m)).
  destruct (can_create_copy faults (path_Join [path_Join [dir; n]; m]) b s) as (s1 & s2 & H1 & H2 & ->).
  { destruct (is_dir s _) eqn:E; [|done]. exfalso. apply (Join_simple_ne _ Hnd m Hm), (Hroom _ E).
    rewrite (Join_simple _ Hnd) by done. unfold under. rewrite (proj2 (HasPrefix_slash _ _)) by eauto. apply orb_true_r. }
  destruct (IH (set_files s (<[path_Join [path_Join [dir; n]; m] := b]> (d_files s)))) as [f Hf];
    [done|intros k ?; by apply Hl, list_elem_of_further|done|]. exists f.
  apply exec_bind. exists false, s. split; [by apply does|]. eapply exec_M_ok; [|exact Hf].
  unfold checkpoint_entry. cbn [regular tar_Name tar_Typeflag tar_data]. rewrite IsLocal_simple, Clean_simple by done. cbn [negb].
  eapply exec_M_ok; [exact H1|]. eapply exec_M_ok; [exact H2|]. eapply exec_M_ok; by apply does.
Qed.

Lemma can_unpack n0 db0 n s db l :
  db_name n -> holds dir n0 db0 s -> tidy dir s -> (forall k, present s k -> under (path_Join [dir; n]) k = false) -> archive_of db l ->
  exists s2 s3, exec (perform (FMkdirAll (path_Join [dir; n]))) s (Ok tt) s2
    /\ exec (checkpoint_read (path_Join [dir; n]) (map (regular db) l) None) s2 (Ok tt) s3 /\ tidy dir s3.
Proof using Hd S.
  intros (Hn & _ & Hnu & Hni) Hs Ht Hf Hl. set (q := path_Join [dir; n]) in *. set (s2 := add_dirs s {[q]}).
  assert (Hdir : forall k, k <> q -> is_dir s2 k = is_dir s k).
  { intros k Hk. unfold is_dir, s2. cbn. f_equal. apply bool_decide_ext. rewrite elem_of_union, elem_of_singleton. tauto. }
  destruct (can_checkpoint_read n db l s2) as [f Hread]; [done|intros m; apply Hl| |].
  { intros k Hk Hu. destruct (decide (k = q)) as [->|Hne]; [done|]. rewrite Hdir in Hk by done. rewrite Hf in Hu; [done|by left]. }
  exists s2, (set_files s2 f). split; [apply does; split; [done|]; eexists; split; [apply made_one|done]|]. split; [done|].
  destruct Ht as (H1 & H2 & H3). split_and!.
  - change (is_dir s2 dir = true). rewrite Hdir; [done|]. apply not_eq_sym. by apply Join_simple_ne.
  - change (is_dir s2 (path_Join [dir; updatingDBFilename]) = false). rewrite Hdir; [done|].
    apply not_eq_sym, (Join_ne dir Hd); [done|apply updating_simple|done].
  - intros i. change (is_dir s2 (ingest_name dir i) = false). rewrite Hdir; [done|].
    apply not_eq_sym, (Join_ne dir Hd n (ingest_file i)); [done|apply ingest_file_ok|apply Hni].
Qed.

Lemma can_recover_checkpoint n0 db0 s db l :
  holds dir n0 db0 s -> tidy dir s -> clock s -> d_closed s = false -> archive_of db l ->
  is_Ok (readLocalIndex (read_db db) sysLocalIndex) ->
  exists s', exec (checkpoint_recover p (tar_Write (map (regular db) l))) s (Ok tt) s'.
Proof using H Hd Hcluster Hnode TL.
  intros Hs Ht Hcl Hclosed Hl [idx Hidx]. destruct (can_random faults s Hcl) as [n Hn].
  pose proof (exec_random faults _ Hd _ _ _ Hn) as (_ & Hname & Hf).
  destruct (can_unpack n0 db0 n s db l Hname Hs Ht Hf Hl) as (s2 & s3 & H2 & H3 & Ht3).
  destruct (unpacked faults dir Hd (tar_Write (map (regular db) l)) n0 db0 n s s2 s3) as (Hs3 & Hnone & _ & Hfs);
    [done|done|done|done|by rewrite archive_read|]. rewrite archive_read in Hfs by done. cbn [fst] in Hfs. rewrite archive_unpacked in Hfs by done.
  destruct (db_Checkpoint_ok db) as [db1 Hload]. set (s4 := set_dbs s3 (<[path_Join [dir; n] := db1]> (d_dbs s3))).
  assert (Hopen : exec (perform (DOpen (path_Join [dir; n]))) s3 (Ok db1) s4).
  { apply does. cbn [disk_does]. by rewrite Hnone, Hfs, Hload. }
  destruct (tidy_new n db1 s3 Hname Ht3) as (Hdir & Hupd & _).
  destruct (can_switch faults dir Hd n db1 idx s4 Hdir Hupd) as [s' Hsw]; [by rewrite (view_index db) by by eapply db_Checkpoint_spec|].
  exists s'. unfold checkpoint_recover. eapply exec_M_ok; [by apply can_check|]. apply exec_bind. exists n, s. split; [done|].
  eapply exec_M_ok; [exact H2|]. rewrite archive_read by done. eapply exec_M_ok; [exact H3|]. eapply exec_M_ok; [exact Hopen|exact Hsw].
Qed.

Lemma can_RecoverFromSnapshot n0 db0 s db rc r :
  holds dir n0 db0 s -> tidy dir s -> clock s -> d_closed s = false -> is_Ok (readLocalIndex (read_db db) sysLocalIndex) ->
  saved rc db r -> (rc = RSnapshot -> len r < 2 ^ 63) ->
  exists s', exec (RecoverFromSnapshot p (getHeader rc ++ r)) s (Ok tt) s'.
Proof using H Hd Hcluster Hnode TL.
  intros Hs Ht Hcl Hclosed Hidx Hsaved Hlen.
  assert (exists s', exec (fsm_recover rc p r) s (Ok tt) s') as [s' Hs'].
  { destruct rc.
    - destruct Hsaved as (bs & -> & Htab). eapply can_recover; try done. by apply Hlen.
    - destruct Hsaved as (l & -> & Hl). by eapply can_recover_checkpoint. }
  exists s'. unfold RecoverFromSnapshot. replace 8 with (len (getHeader rc)) by (by destruct rc).
  rewrite ReadFull_app by by destruct rc. eapply exec_M_ok; [done|].
  eapply exec_M_ok; [split; [apply (getHeader_type rc)|done]|]. exact Hs'.
Qed.

(** C27. Recoveries and openings return, for both types of recovery.  From a
    directory with a store in use, with a file system and a storage engine
    that do not fail, [Open] has a run that returns the index of the store,
    and [RecoverFromSnapshot] has a run that returns for every stream that
    [PrepareSnapshot] and [SaveSnapshot] have made on another replica. *)
Theorem recovery_returns n0 db0 idx0 s faults0 p0 dbdir db t0 ctx t1 m stopc out t2 rc :
  holds dir n0 db0 s -> tidy dir s -> dir ∈ d_dirs s -> is_dir s (path_Dir dir) = true -> clock s -> d_closed s = false ->
  readLocalIndex (read_db db0) sysLocalIndex = Ok idx0 -> is_Ok (readLocalIndex (read_db db) sysLocalIndex) ->
  clean_dir (fc_dirname p0) -> d_mem t0 = Some (dbdir, db) -> getRecoverer (fc_recoveryType p0) = Ok rc ->
  Effects.exec (disk_handles faults0) (PrepareSnapshot p0) t0 (Ok ctx) t1 ->
  Effects.exec (disk_handles faults0) (SaveSnapshot append_to p0 ctx [] stopc) (set_mem t1 m) (Ok out) t2 ->
  (rc = RSnapshot -> len out < 2 ^ 63) ->
  (exists s', exec (Open p) s (Ok idx0) s') /\ (exists s', exec (RecoverFromSnapshot p out) s (Ok tt) s').
Proof using H Hd Hcluster Hnode TL.
  intros Hs Ht Hin Hup Hcl Hclosed Hidx0 Hidx Hd0 Hm Hrc Hprep Hsave Hlen. split; [by eapply can_Open|].
  destruct (exec_saved faults0 p0 dbdir db t0 ctx t1 m stopc out t2 rc Hd0 Hm Hrc Hprep Hsave) as (r & -> & Hsaved).
  eapply can_RecoverFromSnapshot; try done. intros E%Hlen. rewrite len_app in E. pose proof (len_nonneg (getHeader rc)). lia.
Qed.
End Returns.

(** ** How a directory is lost *)

Section Lost.
Context {P : PebbleOps} {F : StoreFiles P} {T : Tar} (faults : forall X, fs_ev X -> Prop) (dir : bytes) (Hd : clean_dir dir).
Local Abbreviation exec := (exec (disk_handles faults)).

(** Removals only remove. *)
Lemma removed_none s q k : d_dbs s !! k = None -> d_dbs (disk_remove s q) !! k = None.
Proof using. intros Hk. cbn. rewrite map_lookup_filter, Hk. done. Qed.

Lemma cleanup_entry_none dbdir fi s s' k :
  d_dbs s !! k = None -> exec (cleanup_entry dir dbdir fi) s (Ok tt) s' -> d_dbs s' !! k = None.
Proof using.
  intros Hk H. unfold cleanup_entry in H. case_decide; [by destruct H as [_ <-]|]. case_decide; [by destruct H as [_ <-]|].
  apply exec_perform in H as [[_ ->]|[_ [? _]]]; [|done]. by apply removed_none.
Qed.

Lemma cleanup_entries_none dbdir l : forall s s' fi,
  exec (M_iter (cleanup_entry dir dbdir) l) s (Ok tt) s' ->
  fi ∈ l \/ d_dbs s !! path_Join [dir; fi] = None -> fi <> currentDBFilename -> path_Join [dir; fi] <> path_Join [dir; dbdir] ->
  d_dbs s' !! path_Join [dir; fi] = None.
Proof using.
  induction l as [|x l IH]; intros s s' fi H Hfi Hc Hne; cbn [M_iter] in H.
  { destruct H as [_ <-]. destruct Hfi as [?%not_elem_of_nil|?]; done. }
  apply exec_M_bind in H as ([] & s1 & H1 & H). apply (IH s1 s'); [done| |done|done].
  destruct (decide (fi = x)) as [->|Hx].
  - right. unfold cleanup_entry in H1. rewrite !decide_False in H1 by done. apply exec_perform in H1 as [[_ ->]|[_ [? _]]]; [|done].
    cbn. rewrite map_lookup_filter. destruct (d_dbs s !! _); cbn; [|done]. rewrite option_guard_False; [done|].
    unfold under. by rewrite bool_decide_eq_true_2.
  - destruct Hfi as [[?|?]%elem_of_cons|Hnone]; [done|by left|]. right. by eapply cleanup_entry_none.
Qed.

(** C36. A damaged [current] file loses the replica.  When [current] is short
    or its checksum does not match, [GetCurrentDBDirName] returns an empty name
    and no error, and the cleanup of [Open] then removes every store directory
    of the replica, the one in use included. *)
Theorem damaged_current_loses_stores data s s' n :
  d_files s !! path_Join [dir; currentDBFilename] = Some data -> current_content data = [] ->
  exec (CleanupNodeDataDir dir) s (Ok tt) s' -> db_name n -> d_dbs s' !! path_Join [dir; n] = None.
Proof using Hd.
  intros Hc Hdam Hrun (Hn & Hcur & Hupd & _). unfold CleanupNodeDataDir in Hrun.
  apply exec_M_bind in Hrun as ([] & s1 & [[_ ->]|[_ [? _]]]%exec_perform & Hrun); [|done].
  assert (Hc' : d_files (disk_remove s (path_Join [dir; updatingDBFilename])) !! path_Join [dir; currentDBFilename] = Some data).
  { rewrite (proj1 (lookup_removed s _ _ (Join_apart dir Hd _ _ updating_simple current_simple ltac:(done)))). done. }
  set (s1 := disk_remove s _) in *. apply exec_M_bind in Hrun as (dbdir & s2 & H2 & Hrun).
  apply exec_M_bind in H2 as (data' & s3 & H3 & [[= <-] <-]). apply exec_perform in H3 as [[H3 ->]|[_ [? _]]]; [|done].
  rewrite Hc' in H3. injection H3 as ->. rewrite Hdam in Hrun.
  apply exec_M_bind in Hrun as (l & s4 & H4 & Hrun). apply exec_perform in H4 as [(l' & [= <-] & -> & Hl)|[_ [? _]]]; [|done].
  eapply cleanup_entries_none; [exact Hrun| |done|].
  - destruct (d_dbs s1 !! path_Join [dir; n]) eqn:E; [left|by right]. apply Hl. split; [done|]. exists (path_Join [dir; n]). split.
    + left. unfold is_dir. rewrite (bool_decide_eq_true_2 (is_Some _)) by (rewrite E; eauto). apply orb_true_r.
    + unfold under. by rewrite bool_decide_eq_true_2.
  - rewrite (Join_nil dir Hd). by apply Join_simple_ne.
Qed.

(** [current] names a directory that does not exist. *)
Definition dangling (n : bytes) (s : disk) : Prop :=
  current_content <$> d_files s !! path_Join [dir; currentDBFilename] = Some n
  /\ disk_Stat s (path_Join [dir; n]) = Err ENOENT.

Lemma Stat_removed s q s' k : removed_some s q s' -> disk_Stat s k = Err ENOENT -> disk_Stat s' k = Err ENOENT.
Proof using.
  intros (Hf & Hb & Hds & _). unfold disk_Stat, is_dir.
  destruct (bool_decide (k ∈ d_dirs s)) eqn:E1; [done|]. destruct (bool_decide (is_Some (d_dbs s !! k))) eqn:E2; [done|].
  apply bool_decide_eq_false in E1, E2. rewrite !bool_decide_eq_false_2.
  - cbn. destruct (d_files s !! k) eqn:E3; [done|]. by rewrite (lookup_weaken_None _ _ _ E3 Hf).
  - rewrite <- elem_of_dom. intros Hin%Hb. by rewrite elem_of_dom in Hin.
  - by intros ?%Hds.
Qed.

Lemma keeps_remove_dangling n q :
  under q (path_Join [dir; currentDBFilename]) = false ->
  keeps (disk_handles faults) (dangling n) (perform (FRemoveAll q)) (fun _ => True).
Proof using.
  intros Hq. apply keeps_call. intros s x s' [Hc Hs] Hx%remove_some. split; [|done].
  split; [|by eapply Stat_removed]. destruct Hx as (_ & _ & _ & Hk & _). by rewrite (proj1 (Hk _ Hq)).
Qed.

Lemma keeps_Cleanup_dangling n : keeps (disk_handles faults) (dangling n) (CleanupNodeDataDir dir) (fun _ => True).
Proof using Hd.
  apply keeps_seq; [apply keeps_remove_dangling, Join_apart; [done|apply updating_simple|apply current_simple|done]|]. intros _.
  apply keeps_seq; [apply keeps_seq; [by apply keeps_still|intros ?; exact I]|]. intros dbdir. apply keeps_M_bind.
  apply keeps_call. intros s x s' Hs [(l & -> & -> & Hl)|[_ [-> ->]]]; [|done]. split; [done|]. intros l' [= <-].
  apply keeps_iter. intros fi [Hfi _]%Hl. unfold cleanup_entry. case_decide; [exact I|]. case_decide; [exact I|].
  apply keeps_remove_dangling, Join_apart; [done|done|apply current_simple|done].
Qed.

Lemma Stat_below n s ds : simple n -> made_dirs dir ds -> disk_Stat (add_dirs s ds) (path_Join [dir; n]) = disk_Stat s (path_Join [dir; n]).
Proof using Hd.
  intros Hn [_ Hds]. unfold disk_Stat, is_dir. cbn. destruct (decide (path_Join [dir; n] ∈ ds)) as [Hin|Hin].
  - exfalso. apply (Join_simple_ne dir Hd n Hn), Hds; [done|]. rewrite (Join_simple dir Hd) by done.
    unfold under. rewrite (proj2 (HasPrefix_slash _ _)) by eauto. apply orb_true_r.
  - assert (bool_decide (path_Join [dir; n] ∈ ds ∪ d_dirs s) = bool_decide (path_Join [dir; n] ∈ d_dirs s)) as ->; [|done].
    apply bool_decide_ext. rewrite elem_of_union. tauto.
Qed.

(** Such a replica cannot be opened. *)
Lemma dangling_Open p n s x s' :
  (forall q, ~ faults (res bool) (FStat q)) -> fc_dirname p = dir -> simple n -> dangling n s ->
  exec (Open p) s x s' -> forall idx, x <> Ok idx.
Proof using Hd.
  intros Hstat Hp Hn Hs H idx ->. unfold Open in H. rewrite Hp in H.
  destruct (fc_clusterID p <? 1); [by destruct H|]. destruct (fc_nodeID p <? 1); [by destruct H|].
  apply exec_M_bind in H as ([] & s1 & H1 & H). assert (Hs1 : dangling n s1).
  { apply exec_M_bind in H1 as ([] & s2 & [(_ & ds & Hds & ->)|[_ [? _]]]%exec_perform & H2); [|done].
    apply exec_syncDir in H2 as ->. destruct Hs as [? ?]. split; [done|by rewrite Stat_below]. }
  apply exec_bind in H as (rn & s2 & H2 & H). apply (exec_random _ _ Hd) in H2 as (-> & _).
  apply exec_bind in H as (b & s3 & H3 & H). assert (b = false /\ s3 = s1) as [-> ->].
  { apply exec_bind in H3 as (y & s4 & [[-> ->]|[Hf _]]%exec_perform & [<- <-]); [|by apply Hstat in Hf]. split; [|done].
    destruct Hs1 as [Hc _]. unfold disk_Stat. destruct (is_dir s1 _); [done|]. by destruct (d_files s1 !! _). }
  apply exec_M_bind in H as (dbdir & s4 & H4 & _). apply exec_M_bind in H4 as ([] & s5 & H5 & H4).
  apply (keeps_exec _ _ _ _ _ _ _ (keeps_Cleanup_dangling n) Hs1) in H5 as [[Hc5 Hst5] _].
  apply exec_M_bind in H4 as (rd & s6 & H6 & H4). apply exec_M_bind in H6 as (data & s7 & [[Hdata ->]|[_ [? _]]]%exec_perform & [[= <-] <-]); [|done].
  destruct (d_files s5 !! _) as [d5|] eqn:E5; [|done]. injection Hdata as ->. injection Hc5 as Hc5. rewrite Hc5 in H4.
  apply exec_M_bind in H4 as (isd & s8 & [[Hx _]|[_ [? _]]]%exec_perform & _); [|done]. rewrite Hst5 in Hx. done.
Qed.

(** After the switch to a name that is not in use. *)
Lemma switched_dangling n s :
  db_name n -> (forall k, present s k -> under (path_Join [dir; n]) k = false) ->
  let f := <[path_Join [dir; updatingDBFilename] := current_data n]> (d_files s) in
  dangling n (restarted (set_files (set_files s f)
    (<[path_Join [dir; currentDBFilename] := current_data n]> (delete (path_Join [dir; updatingDBFilename]) f)))).
Proof using Hd.
  intros (Hn & Hnc & Hnu & _) Hf f. split.
  { cbn. rewrite lookup_insert_eq. cbn. by rewrite current_content_data by apply Hn. }
  assert (Hnp : ~ present s (path_Join [dir; n])).
  { intros Hpr%Hf. unfold under in Hpr. by rewrite bool_decide_eq_true_2 in Hpr. }
  assert (Hne : forall x, simple x -> n <> x -> path_Join [dir; x] <> path_Join [dir; n]) by (intros x Hx ?; by apply (Join_ne dir Hd)).
  unfold disk_Stat, present in *. set (s' := restarted _).
  change (is_dir s' (path_Join [dir; n])) with (is_dir s (path_Join [dir; n])). destruct (is_dir s (path_Join [dir; n])); [tauto|].
  cbn. rewrite lookup_insert_ne, lookup_delete_ne by (apply Hne; (apply current_simple || apply updating_simple || done)).
  unfold f. rewrite lookup_insert_ne by (apply Hne; [apply updating_simple|done]).
  destruct (d_files s !! path_Join [dir; n]); [exfalso; apply Hnp; right; eauto|done].
Qed.

(** A crash of the first [Open] can lose the replica.  In a new directory
    [Open] makes [current] name the new store before the store is there; cut
    off in between, the replica can never be opened again: [Open] does not
    find the directory and returns an error. *)
Theorem first_open_window p n s :
  (forall q, ~ faults (res bool) (FStat q)) -> fc_dirname p = dir -> 1 <= fc_clusterID p -> 1 <= fc_nodeID p ->
  dir ∈ d_dirs s -> is_dir s (path_Dir dir) = true -> is_dir s (path_Join [dir; updatingDBFilename]) = false ->
  disk_Stat s (path_Join [dir; currentDBFilename]) = Err ENOENT -> exec GetNewRandomDBDirName s n s ->
  exists s', cut (disk_handles faults) (Open p) s s'
    /\ forall x s'', exec (Open p) (restarted s') x s'' -> forall idx, x <> Ok idx.
Proof using Hd.
  intros Hstat Hp Hcl Hno Hin Hup Hupd Hnew Hrn. pose proof (exec_random _ _ Hd _ _ _ Hrn) as (_ & Hn & Hf).
  set (s1 := set_files s (<[path_Join [dir; updatingDBFilename] := current_data n]> (d_files s))).
  set (s2 := set_files s1 (<[path_Join [dir; currentDBFilename] := current_data n]> (delete (path_Join [dir; updatingDBFilename]) (d_files s1)))).
  assert (Hdir : is_dir s dir = true) by (unfold is_dir; by rewrite bool_decide_eq_true_2).
  assert (Hmk : add_dirs s {[dir]} = s).
  { destruct s. unfold add_dirs. cbn in *. f_equal. by apply subseteq_union_1_L, singleton_subseteq_l. }
  exists s2. split.
  - unfold Open. rewrite Hp, !(proj2 (Z.ltb_ge _ _)) by done. apply (cut_M_after _ _ _ s tt s).
    { eapply exec_M_ok; [apply does; split; [done|]; exists {[dir]}; split; [|symmetry; exact Hmk]|by apply can_syncDir].
      split; [by apply elem_of_singleton|]. by intros q Hq%elem_of_singleton _. }
    eapply cut_after; [exact Hrn|]. apply (cut_after _ _ _ s true s).
    { apply exec_bind. exists (Err ENOENT), s. split; [apply does; by rewrite <- Hnew|done]. }
    cbv iota. eapply cut_M_after; [|apply cut_here]. eapply exec_M_ok; [by apply can_Save|].
    eapply exec_M_ok; [apply (can_Replace _ _ n); [done|cbn; by rewrite lookup_insert_eq]|done].
  - intros x s'' H. eapply (dangling_Open p n); [done|done|apply Hn| |exact H]. by apply switched_dangling.
Qed.

Lemma power_does {X} (e : fs_ev X) s u x s' :
  disk_does s e x s' -> Effects.exec (power_handles faults) (perform e) (s, u) x (s', after_call s u e x).
Proof using. intros Hx. apply exec_call. split; [by left|done]. Qed.

(** The sync of the directory in [SaveCurrentDBDirName] may fail unnoticed:
    the name of the new store is saved all the same, and the directory of the
    store is still not on stable storage. *)
Lemma unsynced_Save n s u q :
  faults _ (FSync dir) -> is_dir s dir = true -> is_dir s (path_Join [dir; updatingDBFilename]) = false ->
  u_new u q -> ~ child (path_Join [dir; updatingDBFilename]) q ->
  exists u', Effects.exec (power_handles faults) (SaveCurrentDBDirName dir n) (s, u) (Ok tt)
    (set_files s (<[path_Join [dir; updatingDBFilename] := current_data n]> (d_files s)), u') /\ u_new u' q.
Proof using.
  intros Hf Hdir Hupd Hq Hc. set (upd := path_Join [dir; updatingDBFilename]) in *.
  set (s1 := set_files s (<[upd := []]> (d_files s))). set (s2 := set_files s1 (<[upd := [] ++ take 8 (md5_Sum n)]> (d_files s1))).
  set (s3 := set_files s (<[upd := current_data n]> (d_files s))).
  assert (E3 : s3 = set_files s2 (<[upd := ([] ++ take 8 (md5_Sum n)) ++ n]> (d_files s2))).
  { unfold s3, s2, s1, set_files. cbn. by rewrite !insert_insert_eq. }
  set (u1 := after_call s u (FCreate upd) (Ok tt)). set (u2 := after_call s1 u1 (FWrite upd (take 8 (md5_Sum n))) (Ok tt)).
  set (u3 := after_call s2 u2 (FWrite upd n) (Ok tt)). exists (after_call s3 u3 (FSync upd) (Ok tt)). split; [|by cbn].
  assert (disk_Stat s3 dir = Ok true) as Hst by (unfold disk_Stat; by rewrite (Hdir : is_dir s3 dir = true)).
  eapply exec_M_ok; [apply (power_does (FCreate upd) s u (Ok tt) s1); cbn; by rewrite Hupd|]. apply exec_bind.
  exists (Ok tt), (s3, after_call s3 u3 (FSync upd) (Ok tt)). split.
  { eapply exec_M_ok; [apply (power_does _ s1 u1 (Ok tt) s2); cbn; by rewrite lookup_insert_eq|].
    eapply exec_M_ok; [apply (power_does _ s2 u2 (Ok tt) s3); cbn [disk_does]; rewrite E3; cbn; by rewrite lookup_insert_eq|].
    by apply power_does. }
  clear E3. clearbody s3 u3. set (v := after_call s3 u3 (FSync upd) (Ok tt)).
  apply exec_bind. exists (Ok tt), (s3, v). split; [by apply (power_does (FClose upd) s3 v (Ok tt) s3)|].
  apply exec_bind. exists (Err (ErrExternal 1)), (s3, v). split; [|done].
  apply (exec_M_ok _ _ _ _ true (s3, v)); [apply (power_does (FStat dir) s3 v (Ok true) s3); by rewrite <- Hst|]. cbn [negb].
  apply (exec_M_ok _ _ _ _ tt (s3, v)); [by apply (power_does (FOpenDir (path_Clean dir)) s3 v (Ok tt) s3)|].
  apply exec_bind. exists (Err (ErrExternal 1)), (s3, v). split; [apply exec_call; split; [by right|done]|].
  apply exec_bind. exists (Ok tt), (s3, v). split; [by apply (power_does (FClose dir) s3 v (Ok tt) s3)|done].
Qed.

(** So a loss of power right after the rename can leave [current] naming a
    store that is not there. *)
Theorem ignored_sync_loses_store n db idx s u :
  faults _ (FSync dir) -> db_name n -> is_dir s dir = true -> is_dir s (path_Join [dir; updatingDBFilename]) = false ->
  readLocalIndex (read_db db) sysLocalIndex = Ok idx -> u_new u (path_Join [dir; n]) ->
  exists s' u' t, cut (power_handles faults) (switch dir n (path_Join [dir; n]) db) (s, u) (s', u') /\ survives s' u' t
    /\ current_content <$> d_files t !! path_Join [dir; currentDBFilename] = Some n /\ d_dbs t !! path_Join [dir; n] = None.
Proof using Hd.
  intros Hf Hn Hdir Hupd Hi Hnew. set (upd := path_Join [dir; updatingDBFilename]) in *. set (cur := path_Join [dir; currentDBFilename]).
  destruct (unsynced_Save n s u (path_Join [dir; n]) Hf Hdir Hupd Hnew) as (u1 & Hsave & Hnew1).
  { intros (m & Hm & E). pose proof Hn as [Hs _]. rewrite (Join_simple dir Hd n Hs) in E.
    rewrite (Join_simple _ (Join_clean_dir dir Hd _ updating_simple)), (Join_simple dir Hd) in E by (done || apply updating_simple).
    rewrite <- app_assoc in E. apply app_inv_head in E. cbn [app] in E. assert (n = updatingDBFilename ++ slash :: m) as E' by congruence.
    apply Hs. rewrite E'. apply elem_of_app. right. left. }
  set (s1 := set_files s _) in Hsave. set (s2 := set_files s1 (<[cur := current_data n]> (delete upd (d_files s1)))).
  exists s2, (after_call s1 u1 (FRename upd cur) (Ok tt)), (mkDisk (d_files s2) (delete (path_Join [dir; n]) (d_dbs s2)) (d_dirs s2) None 0 false).
  split_and!.
  - eapply cut_M_after; [by split|]. eapply cut_M_after; [exact Hsave|].
    assert (Effects.exec (power_handles faults) (perform (FRename upd cur)) (s1, u1) (Ok tt) (s2, after_call s1 u1 (FRename upd cur) (Ok tt))) as Hr.
    { apply power_does. cbn [disk_does]. unfold s1. cbn [d_files set_files]. by rewrite lookup_insert_eq. }
    eapply cut_within. eapply cut_M_after; [exact Hr|apply cut_here].
  - split; [done|]. split; [intros q; by left|]. intros q db' Hq Hq1 _. cbn in *. rewrite lookup_delete_ne; [done|]. by intros <-.
  - cbn. rewrite lookup_insert_eq. cbn. rewrite current_content_data; [done|apply Hn].
  - cbn. by rewrite lookup_delete_eq.
Qed.
End Lost.

(** ** A store in memory *)

Definition enc {A} `{Countable A} (a : A) : bytes := pos_bytes (encode a).
Definition dec {A} `{Countable A} (b : bytes) : option A := p ← bytes_pos b; decode p.
Lemma dec_enc {A} `{Countable A} (a : A) : dec (enc a) = Some a.
Proof. unfold dec, enc. rewrite bytes_pos_bytes. apply decode_encode. Qed.

Definition MANIFEST : bytes := str "MANIFEST".
Definition mem_entries_of (b : bytes) : list (bytes * bytes) := default [] (dec b).

Definition mem_Close (w : list (bytes * bytes)) : res bytes :=
  if len (enc w) <=? maxAlloc then Ok (enc w) else Err (ErrExternal 5).
Lemma mem_Close_spec w b : mem_Close w = Ok b -> b = enc w /\ len b <= maxAlloc.
Proof. unfold mem_Close. destruct (Z.leb_spec (len (enc w)) maxAlloc); [|done]. by intros [= <-]. Qed.
Definition mem_Ingest (db : gmap bytes bytes) (bs : list bytes) : res (gmap bytes bytes) :=
  Ok (list_to_map (concat (map mem_entries_of bs)) ∪ db).
Definition mem_Load (f : gmap bytes bytes) : res (gmap bytes bytes) :=
  if decide (f = ∅) then Ok ∅
  else match f !! MANIFEST with Some b => Ok (list_to_map (mem_entries_of b)) | None => Err ENOENT end.
Definition mem_Checkpoint (db : gmap bytes bytes) : gmap bytes bytes := {[ MANIFEST := enc (map_to_list db) ]}.

Lemma mem_Load_Checkpoint db : mem_Load (mem_Checkpoint db) = Ok db.
Proof.
  unfold mem_Load, mem_Checkpoint. rewrite decide_False by apply map_non_empty_singleton. rewrite lookup_singleton_eq.
  unfold mem_entries_of. rewrite dec_enc. f_equal. apply list_to_map_to_list.
Qed.

#[export] Instance mem_files : StoreFiles mem_pebble := {
  sstWriter := list (bytes * bytes);
  sst_NewWriter := [];
  sst_Set w k v := Ok (w ++ [(k, v)]);
  sst_EstimatedSize w := len w;
  sst_Close := mem_Close;
  db_Ingest := mem_Ingest;
  db_Load := mem_Load;
  db_Checkpoint := mem_Checkpoint
}.

#[export] Instance mem_files_laws : StoreFilesLaws mem_pebble.
Proof.
  refine {| sst_contents := fun w : @sstWriter mem_pebble mem_files => w; sst_table := fun b es => b = enc es |}.
  - done.
  - by intros w k v w' [= <-].
  - exact mem_Close_spec.
  - intros db. cbn. unfold mem_Load. rewrite decide_True by done. intros [= <-]. done.
  - intros db bs ess db' Hall _ [= <-]. cbn. f_equal. f_equal. f_equal.
    induction Hall as [|b es bs ess -> _ IH]; [done|]. cbn. rewrite IH. unfold mem_entries_of. by rewrite dec_enc.
  - intros db n [c Hc]. cbn in Hc. apply lookup_singleton_Some in Hc as [<- _]. by apply (bool_decide_unpack _).
  - intros db db' Hl. change (mem_Load (mem_Checkpoint db) = Ok db') in Hl. rewrite mem_Load_Checkpoint in Hl. by injection Hl.
Defined.

#[export] Instance mem_files_healthy : StoreFilesHealthy mem_pebble.
Proof.
  split; [exists ∅; cbn; unfold mem_Load; by rewrite decide_True|intros db bs ess _ _; by eexists|].
  intros db. exists db. exact (mem_Load_Checkpoint db).
Defined.

Definition tar_tuple (e : tar_entry) : bytes * nat * bytes :=
  (tar_Name e, match tar_Typeflag e with TypeReg => 0%nat | TypeDir => 1%nat | TypeOther => 2%nat end, tar_data e).
Definition tuple_tar (t : bytes * nat * bytes) : tar_entry :=
  mkTar t.1.1 (match t.1.2 with 0%nat => TypeReg | 1%nat => TypeDir | _ => TypeOther end) t.2.

#[export] Instance mem_tar : Tar := {
  tar_Write es := enc (map tar_tuple es);
  tar_Read b := match dec b with Some ts => (map tuple_tar ts, None) | None => ([], Some (ErrExternal 6)) end
}.
#[export] Instance mem_tar_laws : TarLaws mem_tar.
Proof.
  split. intros es _.
  change (match dec (enc (map tar_tuple es)) with Some ts => (map tuple_tar ts, None) | None => ([], Some (ErrExternal 6)) end = (es, None)).
  rewrite dec_enc. f_equal. rewrite map_map.
  induction es as [|[n [] d] es IH]; [done|..]; cbn; by rewrite IH.
Defined.

(** ** Examples *)

Definition ex_p : fsmConfig := mkFsmConfig 1 1 (str "/d") RecoveryTypeSnapshot.
Definition ex_name : bytes := db_dir_name 1 1.
Definition ex_old : gmap bytes bytes := {[ sysLocalIndex := PutUint64 3 ]}.
Definition ex_db : gmap bytes bytes := <[ str "k" := str "v" ]> {[ sysLocalIndex := PutUint64 5 ]}.
Definition no_faults (X : Type) (e : fs_ev (P := mem_pebble) X) : Prop := False.

Definition ex_dirs : gset bytes := {[ str "/d"; str "/" ]}.
Definition ex_disk : disk (P := mem_pebble) :=
  mkDisk {[ str "/d/current" := current_data ex_name ]} {[ str "/d/1_1" := ex_old ]} ex_dirs None 0 false.
Definition ex_stream : bytes := res_get [] (snapshot_save append_to (read_db (PebbleOps := mem_pebble) ex_db) [] (fun _ => false)).

Lemma ex_stream_saved : snapshot_save append_to (read_db (PebbleOps := mem_pebble) ex_db) [] (fun _ => false) = Ok ex_stream /\ len ex_stream < 2 ^ 63.
Proof.
  assert (E : succeeds (snapshot_save append_to (read_db (PebbleOps := mem_pebble) ex_db) [] (fun _ => false)) = true) by (vm_compute; reflexivity).
  split.
  - unfold ex_stream. by destruct (snapshot_save _ _ _ _).
  - apply Z.ltb_lt. vm_compute. reflexivity.
Qed.

Lemma ex_clean : clean_dir (str "/d").
Proof. by apply (bool_decide_unpack _). Qed.
Lemma ex_paths :
  path_Join [str "/d"; currentDBFilename] = str "/d/current" /\ path_Join [str "/d"; ex_name] = str "/d/1_1"
  /\ path_Join [str "/d"; updatingDBFilename] = str "/d/current.updating" /\ path_Dir (str "/d") = str "/".
Proof. split_and!; vm_compute; reflexivity. Qed.

Lemma ex_holds : holds (fc_dirname ex_p) ex_name ex_old ex_disk.
Proof.
  destruct ex_paths as (E1 & E2 & _). change (fc_dirname ex_p) with (str "/d"). split_and!; [apply db_dir_name_ok| |].
  - rewrite E1. cbn [ex_disk d_files]. rewrite lookup_singleton_eq.
    change (Some (current_content (current_data ex_name)) = Some ex_name). rewrite current_content_data; [done|apply (db_dir_name_ok 1 1)].
  - rewrite E2. cbn [ex_disk d_dbs]. apply lookup_singleton_eq.
Qed.

(** The paths that are in use. *)
Lemma ex_present f k :
  present (mkDisk f {[ str "/d/1_1" := ex_old ]} ex_dirs None 0 false) k \/ present (mkDisk f ∅ ex_dirs None 0 false) k ->
  k = str "/d/1_1" \/ k = str "/d" \/ k = str "/" \/ is_Some (f !! k).
Proof.
  unfold present, is_dir, ex_dirs. cbn [d_dirs d_dbs d_files]. rewrite !orb_true_iff, !bool_decide_eq_true, elem_of_union, !elem_of_singleton.
  rewrite lookup_empty. intros [[[[?|?]|[x [<- _]%lookup_singleton_Some]]|?]|[[[?|?]|[x ?]]|?]]; auto; done.
Qed.

(** A name of the second nanosecond ends in a 2. *)
Lemma ex_clock f db :
  db = {[ str "/d/1_1" := ex_old ]} \/ db = ∅ -> (forall k, is_Some (f !! k) -> k = str "/d/current") ->
  clock (mkDisk (P := mem_pebble) f db ex_dirs None 0 false).
Proof.
  intros Hdb Hf. exists 2, 2. unfold is_uint64. split_and!; [lia|lia|lia|lia|]. intros a k _ Hk.
  assert (Hlast : last (db_dir_name a 2) = Some Byte.x32).
  { unfold db_dir_name. rewrite app_assoc. change (FormatUint 2) with [Byte.x32]. apply last_snoc. }
  assert (Hk' : k = str "/d/1_1" \/ k = str "/d" \/ k = str "/" \/ k = str "/d/current").
  { destruct (ex_present f k) as [?|[?|[?|?%Hf]]]; [|by auto..]. destruct Hdb as [->| ->]; auto. }
  clear Hk Hf Hdb. intros Hin.
  assert (Hall : Forall (fun t => last t <> Some Byte.x32) (split_slash k)).
  { destruct Hk' as [->|[->|[->| ->]]]; by apply (bool_decide_unpack _). }
  eapply Forall_forall in Hall; [|exact Hin]. done.
Qed.

Lemma ex_tidy : tidy (fc_dirname ex_p) ex_disk.
Proof.
  destruct ex_paths as (_ & _ & E3 & _). change (fc_dirname ex_p) with (str "/d").
  assert (Hno : forall k, k <> str "/d" -> k <> str "/" -> k <> str "/d/1_1" -> is_dir ex_disk k = false).
  { intros k H1 H2 H3. unfold is_dir, ex_disk, ex_dirs. cbn [d_dirs d_dbs].
    rewrite bool_decide_eq_false_2, lookup_singleton_ne by (try done; rewrite elem_of_union, !elem_of_singleton; tauto). done. }
  split_and!.
  - unfold is_dir. rewrite bool_decide_eq_true_2; [done|]. unfold ex_disk, ex_dirs. cbn [d_dirs]. set_solver.
  - rewrite E3. apply Hno; by apply (bool_decide_unpack _).
  - intros i. unfold ingest_name. fold (ingest_file i). rewrite (Join_simple _ ex_clean) by apply ingest_file_ok. by apply Hno.
Qed.

Lemma ex_ok : is_Ok (readLocalIndex (read_db (PebbleOps := mem_pebble) ex_db) sysLocalIndex)
  /\ readLocalIndex (read_db (PebbleOps := mem_pebble) ex_old) sysLocalIndex = Ok 3.
Proof. split; [exists 5|]; vm_compute; reflexivity. Qed.

Lemma ex_files k : is_Some (d_files ex_disk !! k) -> k = str "/d/current".
Proof. cbn [ex_disk d_files]. by intros [x [<- _]%lookup_singleton_Some]. Qed.

Lemma ex_stream_of : saved RSnapshot (P := mem_pebble) ex_db ex_stream.
Proof.
  destruct ex_stream_saved as [Hs _]. apply snapshot_save_go_spec in Hs as (bs & E & Ht). exists bs. split; [exact E|exact Ht].
Qed.

Lemma ex_recovery_run : exists s', exec (disk_handles no_faults) (RecoverFromSnapshot ex_p (getHeader RSnapshot ++ ex_stream)) ex_disk (Ok tt) s'.
Proof.
  destruct ex_stream_saved as [_ Hl]. destruct ex_ok as [Hi _].
  eapply (can_RecoverFromSnapshot no_faults ex_p ex_clean ltac:(cbn; lia) ltac:(cbn; lia) ex_name ex_old ex_disk ex_db);
    [exact ex_holds|exact ex_tidy| |done|exact Hi|exact ex_stream_of|intros _; exact Hl].
  apply ex_clock; [by left|exact ex_files].
Qed.



Lemma snapshot_roundtrip_witness :
  exists t' n1 db1, holds (P := mem_pebble) (fc_dirname ex_p) n1 db1 t' /\ db_view db1 = ex_db.
Proof.
  destruct ex_recovery_run as [t' Hrun]. set (s0 := mkDisk (P := mem_pebble) ∅ ∅ ∅ (Some ([], ex_db)) 0 false).
  destruct (snapshot_roundtrip (P := mem_pebble) no_faults ex_p [] ex_db s0 (snapshotContext (P := mem_pebble) (read_db (PebbleOps := mem_pebble) ex_db)) s0 None (fun _ => false)
              (getHeader RSnapshot ++ ex_stream) (set_mem s0 None) ex_p ex_name ex_old ex_disk t' RSnapshot) as (n1 & db1 & Hh & _ & Hv & _).
  - exact ex_clean.
  - reflexivity.
  - reflexivity.
  - eapply exec_M_ok; [split; reflexivity|]. apply exec_bind. exists (Some ([], ex_db)), s0. split; [apply does; split; reflexivity|split; reflexivity].
  - eapply exec_M_ok; [split; reflexivity|]. eapply exec_M_ok; [split; reflexivity|].
    split; [vm_compute; reflexivity|reflexivity].
  - exact ex_clean.
  - apply Z.ltb_lt. vm_compute. reflexivity.
  - exact ex_holds.
  - exact Hrun.
  - exists t', n1, db1. split; [exact Hh|exact Hv].
Defined.

(** Another replica, of which a checkpoint is saved. *)
Definition ex_p0 : fsmConfig := mkFsmConfig 1 2 (str "/d") RecoveryTypeCheckpoint.
Definition ex_source : disk (P := mem_pebble) := mkDisk ∅ ∅ ex_dirs (Some (str "/d/1_1", ex_old)) 3 false.

Lemma ex_source_clock : clock (set_dbs ex_source (<[ str "/d/1_1" := ex_old ]> (d_dbs ex_source))).
Proof.
  destruct (ex_clock ∅ {[ str "/d/1_1" := ex_old ]}) as (a & t & Ha & Ht & Hf);
    [by left|intros k [x Hx]; by rewrite lookup_empty in Hx|].
  exists a, t. split; [done|]. split; [done|]. intros a' k Ha' Hk. apply Hf; [done|exact Hk].
Qed.

Lemma recovery_returns_witness :
  exists out s1 s2, exec (disk_handles no_faults) (Open ex_p) ex_disk (Ok 3) s1
    /\ exec (disk_handles no_faults) (RecoverFromSnapshot ex_p out) ex_disk (Ok tt) s2.
Proof.
  destruct ex_ok as [_ Hi0]. destruct ex_paths as (_ & _ & _ & E4).
  assert (Hdirs : forall k, k = str "/d" \/ k = str "/" -> k ∈ ex_dirs).
  { intros k Hk. unfold ex_dirs. rewrite elem_of_union, !elem_of_singleton. exact Hk. }
  destruct (can_save_checkpoint (P := mem_pebble) no_faults ex_p0 (str "/d/1_1") ex_old ex_source None (fun _ => false)
              ex_clean eq_refl eq_refl ex_source_clock) as (ctx & t1 & out & t2 & Hprep & Hsave).
  destruct (recovery_returns no_faults ex_p ex_clean ltac:(cbn; lia) ltac:(cbn; lia) ex_name ex_old 3 ex_disk
              no_faults ex_p0 (str "/d/1_1") ex_old ex_source ctx t1 None (fun _ => false) out t2 RCheckpoint) as [[s1 Hopen] [s2 Hrec]].
  - exact ex_holds.
  - exact ex_tidy.
  - apply Hdirs. by left.
  - change (fc_dirname ex_p) with (str "/d"). rewrite E4. unfold is_dir. rewrite bool_decide_eq_true_2; [reflexivity|]. apply Hdirs. by right.
  - apply ex_clock; [by left|exact ex_files].
  - reflexivity.
  - exact Hi0.
  - by exists 3.
  - exact ex_clean.
  - reflexivity.
  - reflexivity.
  - exact Hprep.
  - exact Hsave.
  - discriminate.
  - exists out, s1, s2. split; [exact Hopen|exact Hrec].
Defined.

(** A [current] file that was cut short. *)
Definition ex_damaged : disk (P := mem_pebble) := mkDisk {[ str "/d/current" := str "x" ]} {[ str "/d/1_1" := ex_old ]} ex_dirs None 0 false.

Lemma damaged_current_loses_stores_witness :
  is_Some (d_dbs ex_damaged !! str "/d/1_1")
  /\ exists s', exec (disk_handles no_faults) (CleanupNodeDataDir (str "/d")) ex_damaged (Ok tt) s' /\ d_dbs s' !! str "/d/1_1" = None.
Proof.
  destruct ex_paths as (E1 & E2 & _). split; [by exists ex_old|].
  assert (Hc : d_files ex_damaged !! path_Join [str "/d"; currentDBFilename] = Some (str "x")) by (rewrite E1; apply lookup_singleton_eq).
  destruct (can_Cleanup no_faults (str "/d") ex_clean ex_damaged) as [s' Hrun]; [rewrite Hc; eauto|].
  exists s'. split; [exact Hrun|]. rewrite <- E2.
  apply (damaged_current_loses_stores no_faults (str "/d") ex_clean (str "x") ex_damaged s' ex_name Hc); [reflexivity|exact Hrun|].
  apply db_dir_name_ok.
Defined.

Definition ex_new : disk (P := mem_pebble) := mkDisk ∅ ∅ ex_dirs None 0 false.

Lemma first_open_window_witness :
  exists s', cut (disk_handles no_faults) (Open ex_p) ex_new s'
    /\ forall x s'', exec (disk_handles no_faults) (Open ex_p) (restarted s') x s'' -> forall idx, x <> Ok idx.
Proof.
  destruct ex_paths as (E1 & _ & E3 & E4).
  destruct (can_random no_faults ex_new) as [n Hn].
  { apply ex_clock; [by right|]. intros k [x Hx]. by rewrite lookup_empty in Hx. }
  assert (Hdir : forall k, k <> str "/d" -> k <> str "/" -> is_dir ex_new k = false).
  { intros k H1 H2. unfold is_dir, ex_new, ex_dirs. cbn [d_dirs d_dbs].
    rewrite bool_decide_eq_false_2, lookup_empty by (rewrite elem_of_union, !elem_of_singleton; tauto). done. }
  apply (first_open_window no_faults (str "/d") ex_clean ex_p n ex_new).
  - intros q [].
  - reflexivity.
  - cbn. lia.
  - cbn. lia.
  - unfold ex_new, ex_dirs. cbn [d_dirs]. set_solver.
  - rewrite E4. unfold is_dir. rewrite bool_decide_eq_true_2; [reflexivity|]. unfold ex_new, ex_dirs. cbn [d_dirs]. set_solver.
  - rewrite E3. apply Hdir; by apply (bool_decide_unpack _).
  - rewrite E1. unfold disk_Stat. rewrite Hdir by (by apply (bool_decide_unpack _)). cbn [ex_new d_files]. by rewrite lookup_empty.
  - exact Hn.
Defined.
