(* ===== verification/Backup.v ===== *)
(** * Backups ([replication/backup/backup.go], [regattaserver/maintenance.go])

    The maintenance service of a server: the reset of tables on a follower,
    the backup and the restore of a table on a leader; and its client, which
    backs up all tables of a server to files with a manifest of their
    checksums, and restores the tables of a manifest.

    Client and server are programs of calls.  The temporary file of the server
    is compressed with snappy, a library that gives back what it was given;
    the manifest is JSON.  Logging and timeouts are left out. *)

From S2P Require Import Prelude GoStd Effects Chunks Md5 Table Replication.

Open Scope prog_scope.

(** ** Messages ([regatta.proto]) *)

(** [RestoreMessage]: its [Data] is a [RestoreInfo], a chunk or nothing. *)
Inductive RestoreMessage :=
  | RestoreMessage_Info (table : bytes)
  | RestoreMessage_Chunk (chunk : SnapshotChunk)
  | RestoreMessage_None.
Record ResetRequest := mkReset { rst_Table : bytes; rst_ResetAll : bool }.

Definition GetInfo (m : RestoreMessage) : option bytes :=
  match m with RestoreMessage_Info t => Some t | _ => None end.
Definition GetChunk (m : RestoreMessage) : option SnapshotChunk :=
  match m with RestoreMessage_Chunk c => Some c | _ => None end.

(** ** The service *)

Inductive maint_ev : Type -> Type :=
  | MGetTables : maint_ev (res (list TableInfo))
  | MGetTable (name : bytes) : maint_ev (res TableInfo)
  (** [ActiveTable.Reset]; [ActiveTable.Snapshot] to the temporary file. *)
  | MReset (shard : Z) : maint_ev (res unit)
  | MTableSnapshot (shard : Z) : maint_ev (res unit)
  (** [Tables.Restore] from the temporary file. *)
  | MTablesRestore (name : bytes) : maint_ev (res unit)
  (** The temporary file: create, flush and sync, go to the start, read and
      write what is stored, close and remove. *)
  | MTempFile : maint_ev (res unit)
  | MFileSync : maint_ev (res unit)
  | MFileSeek : maint_ev (res unit)
  | MFileRead (max : Z) : maint_ev (bytes * option error)
  | MFileWrite (data : bytes) : maint_ev (res unit)
  | MFileRemove : maint_ev unit
  (** The stream; no message is [io.EOF]. *)
  | MSendChunk (chunk : SnapshotChunk) : maint_ev (res unit)
  | MRecv : maint_ev (res (option RestoreMessage))
  | MSendAndClose : maint_ev (res unit).

(** The closure [reset] of [Reset]. *)
Definition resetTable (name : bytes) : M maint_ev unit :=
  t <- perform (MGetTable name);
  perform (MReset (tbl_ClusterID t)).

(** [ResetServer.Reset]. *)
Definition ResetServer_Reset (req : ResetRequest) : M maint_ev unit :=
  if rst_ResetAll req then
    tables <- perform MGetTables;
    M_iter (fun table => resetTable (tbl_Name table)) tables
  else if len (rst_Table req) =? 0 then M_err ErrStatusInvalidArgument
  else resetTable (rst_Table req).

(** [snapshot.NewTemp] with the deferred close and removal of the file. *)
Definition withTempFile {A} (body : M maint_ev A) : M maint_ev A :=
  _ <- perform MTempFile;
  r <~ body;
  _ <~ perform MFileRemove;
  lift r.

(** [BackupServer.Backup]. *)
Definition BackupServer_Backup (emptyWrite : bool) (fuel : nat) (table : bytes) : M maint_ev unit :=
  t <- perform (MGetTable table);
  withTempFile (
    _ <- perform (MTableSnapshot (tbl_ClusterID t));
    _ <- perform MFileSync;
    _ <- perform MFileSeek;
    let send c := perform (MSendChunk c) in
    _ <- bufio_Copy emptyWrite (fun d => _ <- Writer_Write send d; M_ret tt)
           (Writer_ReadFrom (fun max => perform (MFileRead max)) send fuel 0);
    M_ret tt).

(** [backupReader.Read] into a buffer of [cap] bytes: what is copied to it. *)
Definition backupReader_Read (cap : Z) : M maint_ev bytes :=
  m <- perform MRecv;
  match m with
  | None => M_err ErrEOF
  | Some m =>
      match GetChunk m with
      | None => M_err ErrChunkExpected
      | Some chunk =>
          if cap <? int64 (ck_Len chunk) then M_err ErrShortBuffer
          else M_ret (take (Z.to_nat cap) (ck_Data chunk))
      end
  end.

(** [backupReader.WriteTo], to the temporary file. *)
Fixpoint backupReader_WriteTo (fuel : nat) (n : Z) : M maint_ev Z :=
  match fuel with
  | O => M_err ErrOutOfFuel
  | S fuel' =>
      m <- perform MRecv;
      match m with
      | None => M_ret n
      | Some m =>
          match GetChunk m with
          | None => M_err ErrChunkExpected
          | Some chunk =>
              _ <- perform (MFileWrite (ck_Data chunk));
              backupReader_WriteTo fuel' (n + len (ck_Data chunk))
          end
      end
  end.

(** [BackupServer.Restore]. *)
Definition BackupServer_Restore (fuel : nat) : M maint_ev unit :=
  msg <- perform MRecv;
  match msg with
  | None => M_err ErrEOF
  | Some msg =>
      match GetInfo msg with
      | None => M_err ErrInfoExpected
      | Some table =>
          withTempFile (
            _ <- backupReader_WriteTo fuel 0;
            _ <- perform MFileSync;
            _ <- perform MFileSeek;
            _ <- perform (MTablesRestore table);
            perform MSendAndClose)
      end
  end.

(** ** The client *)

Definition manifestFileName : bytes := str "manifest.json".
Definition defaultSnapshotChunkSize : Z := 2 * 1024 * 1024.
(** The buffer of [io.Copy]. *)
Definition copyBufferSize : Z := 32 * 1024.

Record ManifestTable := mkMT { mt_Name : bytes; mt_Type : bytes; mt_FileName : bytes; mt_MD5 : bytes }.
(** [Manifest]; times are nanoseconds. *)
Record Manifest := mkManifest { mf_Started : Z; mf_Finished : Z; mf_Tables : list ManifestTable }.

#[export] Instance ManifestTable_eq_dec : EqDecision ManifestTable.
Proof. solve_decision. Defined.

(** [manifestTables.Less]; the sort is by name. *)
Definition manifestTables_le (a b : ManifestTable) : Prop := bytes_le (mt_Name a) (mt_Name b).
#[export] Instance manifestTables_le_dec a b : Decision (manifestTables_le a b).
Proof. unfold manifestTables_le. apply _. Defined.
Definition sortTables (l : list ManifestTable) : list ManifestTable := merge_sort manifestTables_le l.

(** [Table_Type.String]. *)
Definition Table_LOCAL : Z := 1.
Definition Table_Type_String (t : Z) : bytes :=
  if t =? Table_REPLICATED then str "REPLICATED"
  else if t =? Table_LOCAL then str "LOCAL"
  else if t <? 0 then str "-" ++ FormatUint (- t) else FormatUint t.

(** [hex.EncodeToString]. *)
Definition hex_digit (d : Z) : byte := Z_byte (if d <? 10 then 48 + d else 87 + d).
Definition hex_EncodeToString (bs : bytes) : bytes :=
  concat (map (fun b => [hex_digit (byte_Z b / 16); hex_digit (byte_Z b mod 16)]) bs).

(** [json.Encoder.Encode] writes the value and a newline, [json.Decoder.Decode]
    reads the first value of a stream. *)
Definition newline : byte := Byte.x0a.
Class ManifestJson := {
  mfj :: Json Manifest; manifest_rep : Manifest -> Prop; mfj_laws :: JsonLaws Manifest manifest_rep;
  json_Decode : bytes -> res Manifest;
  json_Decode_line m b : json_Marshal m = Ok b -> json_Decode (b ++ [newline]) = json_Unmarshal b
}.

Inductive backup_ev : Type -> Type :=
  | BNow : backup_ev Z
  (** [os.Stat]: whether it is a directory. *)
  | BStat (dir : bytes) : backup_ev (res bool)
  (** [MetadataClient.Get]. *)
  | BMetadata : backup_ev (res (list RTable))
  (** [MaintenanceClient.Backup] and the stream of chunks. *)
  | BBackup (table : bytes) : backup_ev (res unit)
  | BRecvChunk : backup_ev (res (option SnapshotChunk))
  (** [MaintenanceClient.Restore] and its stream. *)
  | BRestore : backup_ev (res unit)
  | BSend (msg : RestoreMessage) : backup_ev (res unit)
  | BCloseAndRecv : backup_ev (res unit)
  (** Files that are written. *)
  | BCreate (path : bytes) : backup_ev (res unit)
  | BWrite (path data : bytes) : backup_ev (res unit)
  | BSync (path : bytes) : backup_ev (res unit)
  (** Files that are read. *)
  | BOpen (path : bytes) : backup_ev (res unit)
  | BRead (path : bytes) (max : Z) : backup_ev (bytes * option error)
  | BReadAll (path : bytes) : backup_ev (res bytes)
  | BSeek (path : bytes) : backup_ev (res unit)
  (** The md5 hash: a fresh or reset one, a write, the sum. *)
  | BHashReset : backup_ev unit
  | BHashWrite (data : bytes) : backup_ev unit
  | BHashSum : backup_ev bytes.

Section Client.
Context {J : ManifestJson} (Dir : bytes) (emptyWrite : bool) (fuel : nat).

Definition checkDir : M backup_ev unit :=
  if decide (Dir = []) then M_ret tt else
  isDir <- perform (BStat Dir);
  if (isDir : bool) then M_ret tt else M_err ErrNotDirectory.

(** A write to the hash, which does not fail. *)
Definition hash_write (data : bytes) : M backup_ev unit := x <~ perform (BHashWrite data); M_ret x.

(** A write to [io.MultiWriter(hash, sf)]. *)
Definition multi_write (path data : bytes) : M backup_ev unit :=
  _ <- hash_write data;
  perform (BWrite path data).

Definition bak (name : bytes) : bytes := name ++ str ".bak".

(** The body of the loop of [Backup]. *)
Definition backupTable (t : RTable) : M backup_ev ManifestTable :=
  _ <- perform (BBackup (rt_Name t));
  let fName := bak (rt_Name t) in
  let path := path_Join [Dir; fName] in
  _ <- perform (BCreate path);
  _ <~ perform BHashReset;
  _ <- Reader_WriteTo (perform BRecvChunk) (multi_write path) fuel 0;
  _ <- perform (BSync path);
  sum <~ perform BHashSum;
  M_ret (mkMT (rt_Name t) (Table_Type_String (rt_Type t)) fName (hex_EncodeToString sum)).

Fixpoint backupTables (ts : list RTable) (acc : list ManifestTable) : M backup_ev (list ManifestTable) :=
  match ts with
  | [] => M_ret acc
  | t :: ts' => mt <- backupTable t; backupTables ts' (acc ++ [mt])
  end.

(** [Backup.Backup]; the unfinished manifest that comes with an error is left
    out. *)
Definition Backup_Backup : M backup_ev Manifest :=
  started <~ perform BNow;
  _ <- checkDir;
  tables <- perform BMetadata;
  tables <- backupTables tables [];
  finished <~ perform BNow;
  let manifest := mkManifest started finished (sortTables tables) in
  let path := path_Join [Dir; manifestFileName] in
  _ <- perform (BCreate path);
  b <- lift (json_Marshal manifest);
  _ <- perform (BWrite path (b ++ [newline]));
  _ <- perform (BSync path);
  M_ret manifest.

(** [Writer.Write] of the client. *)
Definition backup_Writer_Write (p : bytes) : M backup_ev unit :=
  perform (BSend (RestoreMessage_Chunk (mkChunk p (uint64 (len p))))).

(** The body of the loop of [Restore]. *)
Definition restoreTable (table : ManifestTable) : M backup_ev unit :=
  _ <~ perform BHashReset;
  let path := path_Join [Dir; mt_FileName table] in
  _ <- perform (BOpen path);
  _ <- io_Copy copyBufferSize (fun max => perform (BRead path max)) hash_write fuel 0;
  sum <~ perform BHashSum;
  if decide (hex_EncodeToString sum <> mt_MD5 table) then M_err ErrChecksumMismatch else
  _ <- perform (BSeek path);
  _ <- perform BRestore;
  _ <- perform (BSend (RestoreMessage_Info (mt_Name table)));
  _ <- bufio_Copy emptyWrite backup_Writer_Write
         (io_Copy defaultSnapshotChunkSize (fun max => perform (BRead path max)) backup_Writer_Write fuel 0);
  perform BCloseAndRecv.

(** [Backup.Restore]. *)
Definition Backup_Restore : M backup_ev unit :=
  _ <- checkDir;
  let path := path_Join [Dir; manifestFileName] in
  _ <- perform (BOpen path);
  b <- perform (BReadAll path);
  manifest <- lift (json_Decode b);
  M_iter restoreTable (mf_Tables manifest).
End Client.
