(* ===== verification/BackupCorrect.v ===== *)
(** * Backups: what comes back

    The servers and the client of [Backup] run against a file system, a
    stream and tables that may fail at any call.  A restore gives every table
    of the manifest the stream of the backup, and nothing that does not match
    the manifest reaches a table. *)

From S2P Require Import Prelude GoStd Effects Chunks Md5 Table Replication Paths Backup.

Open Scope prog_scope.
Local Opaque md5_Sum.

(** A snappy stream: what was written comes back; nothing written is nothing
    stored. *)
Class Snappy := {
  compress : bytes -> bytes;
  decompress : bytes -> res bytes;
  decompress_compress b : decompress (compress b) = Ok b;
  compress_nil : compress [] = []
}.

Definition fails {A} (faults : bool) (x : res A) : Prop := exists e, failed faults e /\ x = Err e.

Lemma fails_false {A} (x : res A) : ~ fails false x.
Proof. by intros (e & [? _] & _). Qed.
Lemma fails_Err {A B} faults e : fails faults (Err e : res A) -> fails faults (Err e : res B).
Proof. intros (e' & He & [= <-]). by exists e. Qed.
Lemma fails_not_Ok {A} faults (x : res A) : fails faults x -> ~ is_Ok x.
Proof. intros (e & _ & ->) [a [=]]. Qed.

(** ** The server *)

(** The messages to be received and whether the client has closed its side;
    the temporary file: records not yet flushed, what is stored, what is left
    to read; the chunks sent; the stream that the snapshot wrote; the tables
    restored, with the streams they were restored from. *)
Record mstate := mkMS {
  ms_in : list RestoreMessage;
  ms_records : bytes;
  ms_file : bytes;
  ms_rest : bytes;
  ms_out : list SnapshotChunk;
  ms_snap : option bytes;
  ms_restored : list (bytes * bytes)
}.
Definition ms_start (msgs : list RestoreMessage) : mstate := mkMS msgs [] [] [] [] None [].

Section Server.
Context {SN : Snappy} (faults : bool).

Definition m_handles (s : mstate) X (e : maint_ev X) : X -> mstate -> Prop :=
  let '(mkMS inp recs file rest out snap restored) := s in
  match e with
  | MGetTables => fun x s' => s' = s /\ (is_Ok x \/ fails faults x)
  | MGetTable _ => fun x s' => s' = s /\ (is_Ok x \/ fails faults x)
  | MReset _ => fun x s' => s' = s /\ (is_Ok x \/ fails faults x)
  | MTableSnapshot _ => fun x s' =>
      exists st, s' = mkMS inp (recs ++ st) file rest out (Some st) restored /\ (x = Ok tt \/ fails faults x)
  | MTablesRestore name => fun x s' =>
      (exists st, decompress rest = Ok st /\ x = Ok tt /\ s' = mkMS inp recs file [] out snap (restored ++ [(name, st)]))
      \/ (s' = s /\ fails faults x)
      \/ (s' = s /\ ~ is_Ok (decompress rest) /\ exists c, x = Err (ErrExternal c))
  | MTempFile => fun x s' => (x = Ok tt /\ s' = mkMS inp [] [] [] out snap restored) \/ (s' = s /\ fails faults x)
  | MFileSync => fun x s' => (x = Ok tt /\ s' = mkMS inp [] (file ++ compress recs) rest out snap restored) \/ (s' = s /\ fails faults x)
  | MFileSeek => fun x s' => (x = Ok tt /\ s' = mkMS inp recs file file out snap restored) \/ (s' = s /\ fails faults x)
  | MFileRead max => fun x s' =>
      exists rest', s' = mkMS inp recs file rest' out snap restored /\ reads (fun _ _ => True) faults ms_rest max s x s'
  | MFileWrite d => fun x s' => (x = Ok tt /\ s' = mkMS inp recs (file ++ d) rest out snap restored) \/ (s' = s /\ fails faults x)
  | MFileRemove => fun _ s' => s' = mkMS inp [] [] [] out snap restored
  | MSendChunk c => fun x s' => (x = Ok tt /\ s' = mkMS inp recs file rest (out ++ [c]) snap restored) \/ (s' = s /\ fails faults x)
  | MRecv => fun x s' =>
      (exists m inp', inp = m :: inp' /\ x = Ok (Some m) /\ s' = mkMS inp' recs file rest out snap restored)
      \/ (inp = [] /\ x = Ok None /\ s' = s) \/ (s' = s /\ fails faults x)
  | MSendAndClose => fun x s' => s' = s /\ (x = Ok tt \/ fails faults x)
  end.

(** Splits a run into its first call, which succeeds or fails, and the rest. *)
Ltac m_call H :=
  let x := fresh "x" in let s := fresh "s" in let Hx := fresh "Hx" in
  apply exec_M_call in H as (x & s & Hx%exec_perform & H); cbn in Hx.

Definition m_same (a b : mstate) : Prop :=
  ms_in b = ms_in a /\ ms_records b = ms_records a /\ ms_file b = ms_file a /\ ms_snap b = ms_snap a /\ ms_restored b = ms_restored a.
#[local] Instance m_same_preorder : PreOrder m_same.
Proof. split; [by intros a|]. unfold m_same. intros a b c. intuition congruence. Qed.

Lemma server_copy_spec ew fuel s out s' :
  exec m_handles (bufio_Copy ew (fun d => _ <- Writer_Write (fun c => perform (MSendChunk c)) d; M_ret tt)
    (Writer_ReadFrom (fun max => perform (MFileRead max)) (fun c => perform (MSendChunk c)) fuel 0)) s out s' ->
  m_same s s'
  /\ (forall n, out = Ok n -> chunk_data (ms_out s') = chunk_data (ms_out s) ++ ms_rest s)
  /\ (Forall chunk_ok (ms_out s) -> Forall chunk_ok (ms_out s'))
  /\ (is_Ok out \/ fails faults out \/ (out = Err ErrOutOfFuel /\ (fuel <= length (ms_rest s))%nat)).
Proof.
  apply (Writer_ReadFrom_spec m_handles m_same faults _ _ ms_rest ms_out).
  - intros max [] x s1 (rest' & -> & _ & Hr)%exec_perform. split; [split; [done|exact Hr]|done].
  - intros c [] x s1 [[-> ->]|[-> Hf]]%exec_perform; cbn; split_and!; try done; [by left|by right].
Qed.

(** What a client receives that asks for a table. *)
Lemma serve_backup ew fuel name out s' :
  exec m_handles (BackupServer_Backup ew fuel name) (ms_start []) out s' ->
  Forall chunk_ok (ms_out s') /\ ms_restored s' = []
  /\ (out = Ok tt -> exists st, ms_snap s' = Some st /\ chunk_data (ms_out s') = compress st)
  /\ (out = Ok tt \/ fails faults out \/ out = Err ErrOutOfFuel).
Proof.
  unfold BackupServer_Backup, withTempFile, ms_start. intros H. m_call H. destruct Hx as [-> [[t ->]|(e & He & ->)]].
  2: { destruct H as [-> ->]. split_and!; try done. right. left. by exists e. }
  m_call H. destruct Hx as [[-> ->]|[-> (e & He & ->)]].
  2: { destruct H as [-> ->]. split_and!; try done. right. left. by exists e. }
  apply exec_bind in H as (r & s1 & H & H').
  assert (Forall chunk_ok (ms_out s1) /\ ms_restored s1 = []
    /\ (r = Ok tt -> exists st, ms_snap s1 = Some st /\ chunk_data (ms_out s1) = compress st)
    /\ (r = Ok tt \/ fails faults r \/ r = Err ErrOutOfFuel)) as Hbody.
  { m_call H. destruct Hx as (st & -> & [->|(e & He & ->)]).
    2: { destruct H as [-> ->]. split_and!; try done. right. left. by exists e. }
    m_call H. destruct Hx as [[-> ->]|[-> (e & He & ->)]].
    2: { destruct H as [-> ->]. split_and!; try done. right. left. by exists e. }
    m_call H. destruct Hx as [[-> ->]|[-> (e & He & ->)]].
    2: { destruct H as [-> ->]. split_and!; try done. right. left. by exists e. }
    apply exec_M_call in H as (x & s2 & Hx & H). apply server_copy_spec in Hx as ((_ & _ & _ & Hsnap & Hres) & Hok & Hck & Hout).
    destruct x as [n|e|].
    - destruct H as [<- <-]. split_and!; [by apply Hck|done| |by left]. intros _. exists st. split; [done|]. by rewrite (Hok n).
    - destruct H as [-> ->]. split_and!; [by apply Hck|done|done|].
      destruct Hout as [[n [=]]|[Hf|[[= ->] _]]]; [right; left; by eapply fails_Err|by right; right].
    - destruct H as [-> ->]. destruct Hout as [[n [=]]|[(e & _ & [=])|[[=] _]]]. }
  destruct H' as (x & s2 & Hx & <- & <-). destruct s1. cbn in Hx. subst s2. exact Hbody.
Qed.

Definition chunk_payload (m : RestoreMessage) : bytes := match GetChunk m with Some c => ck_Data c | None => [] end.
Definition payload (msgs : list RestoreMessage) : bytes := concat (map chunk_payload msgs).
Lemma payload_chunks cs : payload (map RestoreMessage_Chunk cs) = chunk_data cs.
Proof. unfold payload, chunk_data. by rewrite map_map. Qed.

Lemma backupReader_WriteTo_spec cs fuel n recs file rest snap out s' :
  exec m_handles (backupReader_WriteTo fuel n) (mkMS (map RestoreMessage_Chunk cs) recs file rest [] snap []) out s' ->
  (forall m, out = Ok m -> s' = mkMS [] recs (file ++ chunk_data cs) rest [] snap [])
  /\ ms_restored s' = []
  /\ (is_Ok out \/ fails faults out \/ (out = Err ErrOutOfFuel /\ (fuel <= length cs)%nat)).
Proof.
  revert cs n file. induction fuel as [|fuel IH]; intros cs n file; cbn [backupReader_WriteTo]; intros H.
  { destruct H as [<- <-]. split_and!; try done. right. right. split; [done|lia]. }
  m_call H. destruct Hx as [(m & inp' & Hi & -> & ->)|[(Hi & -> & ->)|[-> (e & He & ->)]]].
  - destruct cs as [|c cs]; [done|]. injection Hi as <- <-. cbn [GetChunk] in H. m_call H.
    destruct Hx as [[-> ->]|[-> (e & He & ->)]].
    + apply IH in H as (H1 & H2 & H3). split_and!; [|done|].
      * intros k Hk. rewrite (H1 k Hk). unfold chunk_data. simpl. by rewrite <- app_assoc.
      * destruct H3 as [?|[?|[-> ?]]]; [by left|by right; left|]. right. right. split; [done|simpl; lia].
    + destruct H as [-> ->]. split_and!; try done. right. left. by exists e.
  - destruct cs; [|done]. destruct H as [<- <-]. unfold chunk_data. simpl. rewrite app_nil_r.
    split_and!; [done|done|left; by eexists].
  - destruct H as [-> ->]. split_and!; try done. right. left. by exists e.
Qed.

(** What happens to a table whose stream a client has sent and closed. *)
Lemma serve_restore fuel name cs out s' :
  exec m_handles (BackupServer_Restore fuel) (ms_start (RestoreMessage_Info name :: map RestoreMessage_Chunk cs)) out s' ->
  (ms_restored s' = [] \/ exists st, decompress (chunk_data cs) = Ok st /\ ms_restored s' = [(name, st)])
  /\ (out = Ok tt -> ms_restored s' <> [])
  /\ (is_Ok (decompress (chunk_data cs)) -> out = Ok tt \/ fails faults out \/ out = Err ErrOutOfFuel).
Proof.
  unfold BackupServer_Restore, withTempFile, ms_start. intros H. m_call H.
  destruct Hx as [(m & inp' & Hi & -> & ->)|[(Hi & _)|[-> (e & He & ->)]]]; [|done|].
  2: { destruct H as [-> ->]. split_and!; [by left|done|]. intros _. right. left. by exists e. }
  injection Hi as <- <-. cbn [GetInfo] in H. m_call H. destruct Hx as [[-> ->]|[-> (e & He & ->)]].
  2: { destruct H as [-> ->]. split_and!; [by left|done|]. intros _. right. left. by exists e. }
  apply exec_bind in H as (r & s1 & H & H').
  assert ((ms_restored s1 = [] \/ exists st, decompress (chunk_data cs) = Ok st /\ ms_restored s1 = [(name, st)])
    /\ (r = Ok tt -> ms_restored s1 <> [])
    /\ (is_Ok (decompress (chunk_data cs)) -> r = Ok tt \/ fails faults r \/ r = Err ErrOutOfFuel)) as Hbody.
  { apply exec_M_call in H as (x & s2 & (Hok & Hres & Hout)%backupReader_WriteTo_spec & H). destruct x as [n|e|].
    2: { destruct H as [-> ->]. split_and!; [by left|done|]. intros _.
         destruct Hout as [[n [=]]|[Hf|[[= ->] _]]]; [right; left; by eapply fails_Err|by right; right]. }
    2: { destruct Hout as [[n [=]]|[(e & _ & [=])|[[=] _]]]. }
    rewrite (Hok n eq_refl) in H. cbn [app] in H. m_call H. destruct Hx as [[-> ->]|[-> (e & He & ->)]].
    2: { destruct H as [-> ->]. split_and!; [by left|done|]. intros _. right. left. by exists e. }
    m_call H. destruct Hx as [[-> ->]|[-> (e & He & ->)]].
    2: { destruct H as [-> ->]. split_and!; [by left|done|]. intros _. right. left. by exists e. }
    rewrite compress_nil, app_nil_r in H. m_call H.
    destruct Hx as [(st & Hst & -> & ->)|[[-> (e & He & ->)]|(-> & Hn & e & ->)]].
    - apply exec_perform in H as [-> Hx]. cbn. split_and!; [right; by exists st|done|]. intros _.
      destruct Hx as [->|?]; [by left|by right; left].
    - destruct H as [-> ->]. split_and!; [by left|done|]. intros _. right. left. by exists e.
    - destruct H as [-> ->]. by split_and!; [left| |]. }
  destruct H' as (x & s2 & Hx & <- & <-). destruct s1. cbn in Hx. subst s2. exact Hbody.
Qed.
End Server.

(** ** The client *)

(** The file system of the client and what is left to read of the open file;
    the bytes given to the hash; the chunks of the backup stream still to come
    and whether the server ended it without an error; the messages sent on
    the restore stream; the tables that were backed up, with their streams;
    the tables that were restored, with the streams they were restored
    from. *)
Record bworld := mkB {
  b_files : gmap bytes bytes;
  b_rest : bytes;
  b_hash : bytes;
  b_chunks : list SnapshotChunk;
  b_complete : bool;
  b_sent : list RestoreMessage;
  b_snaps : list (bytes * bytes);
  b_restored : list (bytes * bytes)
}.

Section Client.
Context {SN : Snappy} {J : ManifestJson} (faults : bool).
(** The tables of the server; a bound on the chunks and the bytes of a
    stream. *)
Context (tables : list RTable) (limit : nat).

(** The calls of the client, the server at the other end of the streams
    included.  A run of the server is one whose loops are not cut off; what
    the server does with a restore stream is done when the client has closed
    it, since before that it only collects chunks. *)
Definition b_handles (s : bworld) X (e : backup_ev X) : X -> bworld -> Prop :=
  let '(mkB files rest hash chunks complete sent snaps restored) := s in
  match e with
  | BNow => fun _ s' => s' = s
  | BStat _ => fun x s' => s' = s /\ (x = Ok true \/ (faults = true /\ x = Ok false) \/ fails faults x)
  | BMetadata => fun x s' => s' = s /\ (x = Ok tables \/ fails faults x)
  | BBackup name => fun x s' =>
      (s' = s /\ fails faults x)
      \/ (x = Ok tt /\ exists ew fuel out ms,
           exec (m_handles faults) (BackupServer_Backup ew fuel name) (ms_start []) out ms /\ out <> Err ErrOutOfFuel
           /\ (length (ms_out ms) <= limit)%nat /\ (length (chunk_data (ms_out ms)) <= limit)%nat
           /\ s' = mkB files rest hash (ms_out ms) (succeeds out) sent
                (snaps ++ match ms_snap ms with Some st => [(name, st)] | None => [] end) restored)
  | BRecvChunk => fun x s' =>
      (exists c chunks', chunks = c :: chunks' /\ x = Ok (Some c) /\ s' = mkB files rest hash chunks' complete sent snaps restored)
      \/ (chunks = [] /\ complete = true /\ x = Ok None /\ s' = s)
      \/ (chunks = [] /\ complete = false /\ (exists c, x = Err (ErrExternal c)) /\ s' = s)
      \/ (s' = s /\ fails faults x)
  | BRestore => fun x s' =>
      (x = Ok tt /\ s' = mkB files rest hash chunks complete [] snaps restored) \/ (s' = s /\ fails faults x)
  | BSend m => fun x s' =>
      (x = Ok tt /\ s' = mkB files rest hash chunks complete (sent ++ [m]) snaps restored) \/ (s' = s /\ fails faults x)
  | BCloseAndRecv => fun x s' =>
      (s' = s /\ fails faults x)
      \/ exists fuel out ms,
           exec (m_handles faults) (BackupServer_Restore fuel) (ms_start sent) out ms /\ out <> Err ErrOutOfFuel
           /\ s' = mkB files rest hash chunks complete sent snaps (restored ++ ms_restored ms)
           /\ ((x = Ok tt /\ out = Ok tt) \/ fails faults x \/ (out <> Ok tt /\ exists c, x = Err (ErrExternal c)))
  | BCreate p => fun x s' =>
      (x = Ok tt /\ s' = mkB (<[p := []]> files) rest hash chunks complete sent snaps restored) \/ (s' = s /\ fails faults x)
  | BWrite p d => fun x s' =>
      exists d', s' = mkB (<[p := default [] (files !! p) ++ d']> files) rest hash chunks complete sent snaps restored
        /\ ((x = Ok tt /\ d' = d) \/ fails faults x)
  | BSync _ => fun x s' => s' = s /\ (x = Ok tt \/ fails faults x)
  | BOpen p => fun x s' =>
      (exists c, files !! p = Some c /\ x = Ok tt /\ s' = mkB files c hash chunks complete sent snaps restored)
      \/ (s' = s /\ files !! p = None /\ exists c, x = Err (ErrExternal c))
      \/ (s' = s /\ fails faults x)
  | BRead p max => fun x s' =>
      exists rest', s' = mkB files rest' hash chunks complete sent snaps restored
        /\ reads (fun _ _ => True) faults b_rest max s x s'
  | BReadAll p => fun x s' =>
      (x = Ok rest /\ s' = mkB files [] hash chunks complete sent snaps restored) \/ (s' = s /\ fails faults x)
  | BSeek p => fun x s' =>
      (exists c, files !! p = Some c /\ x = Ok tt /\ s' = mkB files c hash chunks complete sent snaps restored)
      \/ (s' = s /\ fails faults x)
  | BHashReset => fun _ s' => s' = mkB files rest [] chunks complete sent snaps restored
  | BHashWrite d => fun _ s' => s' = mkB files rest (hash ++ d) chunks complete sent snaps restored
  | BHashSum => fun x s' => s' = s /\ x = md5_Sum hash
  end.

Ltac b_call H :=
  let x := fresh "x" in let s := fresh "s" in let Hx := fresh "Hx" in
  apply exec_M_call in H as (x & s & Hx%exec_perform & H); cbn [b_handles] in Hx.
Ltac b_do H :=
  let x := fresh "x" in let s := fresh "s" in let Hx := fresh "Hx" in
  destruct H as (x & s & Hx & H); cbn [b_handles] in Hx; cbn [pbind] in H.

Definition content (p : bytes) (w : bworld) : bytes := default [] (b_files w !! p).

(** What a copy from the stream to the file [p] leaves alone. *)
Definition recv_same (p : bytes) (a b : bworld) : Prop :=
  b_snaps b = b_snaps a /\ b_restored b = b_restored a /\ (forall q, q <> p -> b_files b !! q = b_files a !! q)
  /\ (is_Some (b_files a !! p) -> is_Some (b_files b !! p)).
#[local] Instance recv_same_preorder p : PreOrder (recv_same p).
Proof.
  split; [by intros a|]. intros a b c (H1 & H2 & H3 & H4) (H5 & H6 & H7 & H8).
  split_and!; [congruence|congruence| |auto]. intros q Hq. rewrite H7, H3 by done. done.
Qed.

Lemma recv_chunk p s x s' :
  exec b_handles (perform BRecvChunk) s x s' ->
  recv_same p s s' /\ content p s' = content p s /\ b_hash s' = b_hash s /\ b_complete s' = b_complete s
  /\ ((exists c, b_chunks s = c :: b_chunks s' /\ x = Ok (Some c))
      \/ (b_complete s = true /\ b_chunks s = [] /\ b_chunks s' = [] /\ x = Ok None)
      \/ (exists e, failed faults e /\ x = Err e)
      \/ (b_complete s = false /\ b_chunks s = [] /\ exists e, x = Err (ErrExternal e))).
Proof.
  intros Hx%exec_perform. destruct s. cbn in Hx.
  destruct Hx as [(c & ch & -> & -> & ->)|[(-> & -> & -> & ->)|[(-> & -> & [c ->] & ->)|[-> Hx]]]]; (split; [by unfold recv_same|]); split_and!; cbn; eauto 10.
Qed.

Lemma write_chunk p d s x s' :
  exec b_handles (multi_write p d) s x s' ->
  recv_same p s s' /\ b_chunks s' = b_chunks s /\ b_complete s' = b_complete s
  /\ ((x = Ok tt /\ content p s' = content p s ++ d /\ b_hash s' = b_hash s ++ d) \/ exists e, failed faults e /\ x = Err e).
Proof.
  intros H. destruct s. destruct H as ([] & s1 & -> & H). cbn in H. destruct H as (y & s2 & (d' & -> & Hd) & -> & <-).
  unfold content. cbn. split_and!; [|done..|].
  - split_and!; cbn; [done..| |].
    + intros q Hq. by rewrite lookup_insert_ne.
    + intros _. by rewrite lookup_insert_eq.
  - rewrite lookup_insert_eq. destruct Hd as [[-> ->]|?]; [by left|by right].
Qed.

(** The copy fills the hash and the file alike. *)
Lemma client_copy_spec p fuel s out s' :
  exec b_handles (Reader_WriteTo (perform BRecvChunk) (multi_write p) fuel 0) s out s' ->
  recv_same p s s'
  /\ (forall m, out = Ok m -> b_complete s = true
        /\ content p s' = content p s ++ chunk_data (b_chunks s) /\ b_hash s' = b_hash s ++ chunk_data (b_chunks s))
  /\ (is_Ok out \/ fails faults out \/ b_complete s = false \/ (fuel <= length (b_chunks s))%nat).
Proof.
  intros H. pose proof H as H'.
  apply (Reader_WriteTo_spec _ (recv_same p) faults _ _ b_chunks (content p) b_complete) in H as (H1 & H2 & H3).
  1: apply (Reader_WriteTo_spec _ (recv_same p) faults _ _ b_chunks b_hash b_complete) in H' as (_ & H2' & _).
  - split; [done|]. split.
    + intros m Hm. destruct (H2 m Hm) as [? ?]. destruct (H2' m Hm) as [? ?]. done.
    + destruct H3 as [?|[(e & [He|[He _]] & ->)|[_ ?]]]; [by left|right; left; by exists e|by right; right; left|by right; right; right].
  - intros s0 x s1 (? & ? & ? & ? & ?)%(recv_chunk p). done.
  - intros d s0 x s1 (? & ? & ? & Hx)%write_chunk. destruct Hx as [(? & ? & ?)|?]; eauto 10.
  - intros s0 x s1 (? & ? & ? & ? & ?)%(recv_chunk p). done.
  - intros d s0 x s1 (? & ? & ? & Hx)%write_chunk. destruct Hx as [(? & ? & ?)|?]; eauto 10.
Qed.

(** *** Backup *)

Definition entry_of_table (t : RTable) (st : bytes) : ManifestTable :=
  mkMT (rt_Name t) (Table_Type_String (rt_Type t)) (bak (rt_Name t)) (hex_EncodeToString (md5_Sum (compress st))).

(** A table is backed up to its file, and only to it. *)
Lemma backupTable_spec dir fuel t s out s' :
  (limit < fuel)%nat -> exec b_handles (backupTable dir fuel t) s out s' ->
  let p := path_Join [dir; bak (rt_Name t)] in
  (forall q, q <> p -> b_files s' !! q = b_files s !! q)
  /\ (forall mt, out = Ok mt -> exists st, b_snaps s' = b_snaps s ++ [(rt_Name t, st)]
        /\ b_files s' !! p = Some (compress st) /\ (length (compress st) <= limit)%nat /\ mt = entry_of_table t st)
  /\ (is_Ok out \/ fails faults out \/ faults = true).
Proof.
  intros Hfuel H p. unfold backupTable in H. destruct s as [files rest hash chunks complete sent snaps restored].
  b_call H. destruct Hx as [[-> (e & He & ->)]|(-> & ew & f & o & ms & Hsrv & Hof & Hl1 & Hl2 & ->)].
  { destruct H as [-> ->]. split_and!; [done|done|]. right. left. by exists e. }
  apply serve_backup in Hsrv as (_ & _ & Hsnap & Ho).
  b_call H. destruct Hx as [[-> ->]|[-> (e & He & ->)]].
  2: { destruct H as [-> ->]. split_and!; [done|done|]. right. left. by exists e. }
  b_do H. subst s. apply exec_M_call in H as (r & s1 & Hc & H). fold p in Hc, H.
  apply client_copy_spec in Hc as ((Hsn & Hre & Hq & Hp) & Hok & Hout). unfold content in Hok. cbn [b_files b_snaps b_restored b_complete b_chunks b_hash] in *.
  assert (forall q, q <> p -> b_files s1 !! q = files !! q) as Hq'.
  { intros q Hne. rewrite Hq by done. by rewrite lookup_insert_ne. }
  destruct r as [n|e|].
  - destruct (Hok n eq_refl) as (Hcomp & Hfile & Hhash). rewrite lookup_insert_eq in Hfile, Hp.
    destruct (Hp (mk_is_Some _ _ eq_refl)) as [c Hc]. rewrite Hc in Hfile. cbn in Hfile.
    destruct o as [[]|?|]; [|done|done]. destruct (Hsnap eq_refl) as (st & Hst & Hdata). rewrite Hst in Hsn.
    b_call H. destruct s1. cbn in Hx, Hq', Hc, Hhash, Hsn. destruct Hx as [-> [->|(e & He & ->)]].
    2: { destruct H as [-> ->]. split_and!; [done|done|]. right. left. by exists e. }
    destruct H as (sum & s1 & [-> ->] & <- & <-). cbn. split_and!; [done| |left; by eexists].
    intros mt [= <-]. exists st. rewrite Hdata in *. split_and!; [done|by rewrite Hc, Hfile|done|].
    unfold entry_of_table. by rewrite Hhash.
  - destruct H as [-> ->]. split_and!; [done|done|]. destruct Hout as [[n E]|[Hf|[Hcf|Hle]]]; [done|right; left; by eapply fails_Err| |lia].
    right. right. destruct Ho as [->|[(e' & [Hfl _] & _)|Ho]]; done.
  - destruct H as [-> ->]. split_and!; [done|done|]. destruct Hout as [[n E]|[(e & _ & E)|[Hcf|Hle]]]; [done|done| |lia].
    right. right. destruct Ho as [->|[(e' & [Hfl _] & _)|Ho]]; done.
Qed.

Lemma bak_simple name : slash ∉ name -> simple (bak name).
Proof.
  intros Hn. unfold bak. split_and!; [by destruct name|by destruct name as [|? [|]]|by destruct name as [|? [|? [|]]]|].
  rewrite elem_of_app. intros [?|Hs]; [done|]. revert Hs. by apply (bool_decide_unpack (slash ∉ str ".bak")).
Qed.
Lemma bak_manifest name : bak name <> manifestFileName.
Proof.
  unfold bak. intros E. apply (f_equal reverse) in E. rewrite reverse_app in E. done.
Qed.
Lemma bak_inj a b : bak a = bak b -> a = b.
Proof. unfold bak. apply app_inv_tail. Qed.

Definition bak_path (dir name : bytes) : bytes := path_Join [dir; bak name].
Lemma bak_path_inj dir a b : slash ∉ a -> slash ∉ b -> bak_path dir a = bak_path dir b -> a = b.
Proof. intros ? ? ?%Join_simple_inj; [by apply bak_inj|by apply bak_simple..]. Qed.
Lemma bak_path_manifest dir a : slash ∉ a -> bak_path dir a <> path_Join [dir; manifestFileName].
Proof. intros ? ?%Join_simple_inj; [by eapply bak_manifest|by apply bak_simple|by apply (bool_decide_unpack (simple manifestFileName))]. Qed.

(** A table, with the stream of its backup, whose file is there. *)
Definition backed_up (dir : bytes) (w : bworld) (x : RTable * bytes) : Prop :=
  b_files w !! bak_path dir (rt_Name x.1) = Some (compress x.2) /\ (length (compress x.2) <= limit)%nat.

Definition snap_of (x : RTable * bytes) : bytes * bytes := (rt_Name x.1, x.2).
Definition mt_of (x : RTable * bytes) : ManifestTable := entry_of_table x.1 x.2.

Lemma backupTables_spec dir fuel ts acc s out s' :
  (limit < fuel)%nat -> NoDup (map rt_Name ts) -> Forall (fun t => slash ∉ rt_Name t) ts ->
  exec b_handles (backupTables dir fuel ts acc) s out s' ->
  (forall q, q ∉ map (fun t => bak_path dir (rt_Name t)) ts -> b_files s' !! q = b_files s !! q)
  /\ (forall mts, out = Ok mts -> exists ps, ps.*1 = ts /\ b_snaps s' = b_snaps s ++ map snap_of ps
        /\ mts = acc ++ map mt_of ps /\ Forall (backed_up dir s') ps)
  /\ (is_Ok out \/ faults = true).
Proof.
  intros Hfuel. revert acc s. induction ts as [|t ts IH]; intros acc s Hnd Hsl; cbn [backupTables map].
  { intros [<- <-]. split_and!; [done| |left; by eexists]. intros mts [= <-]. exists []. cbn. by rewrite !app_nil_r. }
  inversion Hnd as [|?? Hni Hnd']; subst. apply Forall_cons in Hsl as [Hs Hsl].
  intros (x & s1 & H1 & H)%exec_M_call. apply backupTable_spec in H1 as (Hq & Hok & Hout); [|done].
  destruct x as [mt|e|].
  - destruct (Hok mt eq_refl) as (st & Hsn & Hf & Hlen & ->). apply IH in H as (Hq2 & Hok2 & Hout2); [|done..].
    split_and!; [| |done].
    + intros q Hn. apply not_elem_of_cons in Hn as [Hn1 Hn2]. by rewrite Hq2, Hq.
    + intros mts Hm. destruct (Hok2 mts Hm) as (ps & <- & Hsn2 & -> & Hps). exists ((t, st) :: ps). cbn [fmap list_fmap map].
      split_and!; [done|by rewrite Hsn2, Hsn, <- app_assoc|by rewrite <- app_assoc|]. constructor; [|done].
      split; [|done]. rewrite Hq2; [done|]. intros (t' & E & Ht')%list_elem_of_fmap. apply bak_path_inj in E; [|done|].
      * apply Hni. cbn in E. rewrite E. by apply list_elem_of_fmap_2.
      * rewrite Forall_forall in Hsl. by apply Hsl.
  - destruct H as [-> ->]. split_and!; [|done|].
    + intros q Hn. apply not_elem_of_cons in Hn as [Hn1 Hn2]. by apply Hq.
    + right. destruct Hout as [[n E]|[(e' & [? _] & _)|?]]; done.
  - destruct H as [-> ->]. split_and!; [|done|].
    + intros q Hn. apply not_elem_of_cons in Hn as [Hn1 Hn2]. by apply Hq.
    + right. destruct Hout as [[n E]|[(e' & [? _] & _)|?]]; done.
Qed.

(** The files of a backup: one for every table, and the manifest. *)
Definition backup_files (dir : bytes) (ps : list (RTable * bytes)) (m : Manifest) (w : bworld) : Prop :=
  Forall (backed_up dir w) ps
  /\ exists b, json_Marshal m = Ok b /\ b_files w !! path_Join [dir; manifestFileName] = Some (b ++ [newline]).

Lemma checkDir_spec dir s out s' :
  exec b_handles (checkDir dir) s out s' -> s' = s /\ (out = Ok tt \/ faults = true).
Proof.
  unfold checkDir. destruct (decide (dir = [])); [by intros [<- <-]; auto|]. intros H. b_call H. destruct s.
  destruct Hx as [-> [->|[[? ->]|(e & [? _] & ->)]]]; destruct H as [? ?]; subst; auto.
Qed.

Lemma Backup_spec dir fuel s out s' :
  (limit < fuel)%nat -> NoDup (map rt_Name tables) -> Forall (fun t => slash ∉ rt_Name t) tables ->
  exec b_handles (Backup_Backup dir fuel) s out s' ->
  (forall m, out = Ok m -> exists ps, ps.*1 = tables /\ b_snaps s' = b_snaps s ++ map snap_of ps
     /\ mf_Tables m = sortTables (map mt_of ps) /\ backup_files dir ps m s')
  /\ ((forall m : Manifest, is_Ok (json_Marshal m)) -> faults = false -> is_Ok out).
Proof.
  intros Hfuel Hnd Hsl H. unfold Backup_Backup in H.
  assert (forall w x w', b_handles w Z BNow x w' -> w' = w) as Hnow by (by intros []).
  assert (forall w x w', b_handles w _ BMetadata x w' -> w' = w /\ (x = Ok tables \/ faults = true /\ ~ is_Ok x)) as Hmeta.
  { intros [] x w' [-> [->|(e & [? _] & ->)]]; split; [done|by left|done|right; split; [done|by intros [? [=]]]]. }
  destruct H as (t0 & s0 & ->%Hnow & H). cbn [pbind] in H.
  apply exec_M_call in H as (x1 & s1 & [-> Hx1]%checkDir_spec & H).
  destruct x1 as [[]|e|]; [|destruct H as [-> ->]; split; [done|]; destruct Hx1 as [?|?]; congruence..].
  apply exec_M_call in H as (x1 & s1 & [-> Hx2]%exec_perform%Hmeta & H).
  destruct x1 as [ts|e|]; [|destruct H as [-> ->]; split; [done|]; destruct Hx2 as [?|[? _]]; congruence..].
  destruct Hx2 as [[= ->]|[_ []]]; [|by eexists].
  apply exec_M_call in H as (x1 & s1 & (Hq & Hok & Hout)%backupTables_spec & H); [|done..].
  destruct x1 as [mts|e|]; [|destruct H as [-> ->]; split; [done|]; destruct Hout as [[? [=]]|?]; congruence..].
  destruct (Hok mts eq_refl) as (ps & Hps & Hsn & -> & Hall). cbn [app] in H.
  destruct H as (t1 & s2 & ->%Hnow & H). cbn [pbind] in H. rewrite <- Hps in Hsl.
  set (m := mkManifest _ _ _) in H. set (p := path_Join [dir; manifestFileName]) in H.
  destruct s1 as [files rest hash chunks complete sent snaps restored].
  b_call H. destruct Hx as [[-> ->]|[-> (e & [He _] & ->)]]; [|destruct H as [-> ->]; split; [done|congruence]].
  apply exec_M_call in H as (x1 & s1 & Hx & H). cbn in Hx. destruct Hx as [<- <-].
  destruct (json_Marshal m) as [b|e|] eqn:Em;
    [|destruct H as [-> ->]; split; [done|]; intros Hj _; by destruct (Hj m) as [? ?]; congruence..].
  b_call H. destruct Hx as (d' & -> & [[-> ->]|(e & [He _] & ->)]); [|destruct H as [-> ->]; split; [done|congruence]].
  b_call H. destruct Hx as [-> [->|(e & [He _] & ->)]]; [|destruct H as [-> ->]; split; [done|congruence]].
  destruct H as [<- <-]. split; [|intros; by eexists]. intros m' [= <-]. exists ps. split_and!; [done|done|done|]. split.
  - rewrite Forall_fmap in Hsl. pose proof (proj2 (Forall_and _ _) (conj Hsl Hall)) as Hb. eapply Forall_impl; [exact Hb|].
    intros x [Hx [Hf Hl]]. split; [|done]. cbn.
    assert (bak_path dir (rt_Name x.1) <> p) as Hne by (by apply bak_path_manifest).
    by rewrite !lookup_insert_ne.
  - exists b. split; [done|]. cbn. by rewrite !lookup_insert_eq.
Qed.

(** *** Restore *)

(** What the loop over the tables leaves alone. *)
Definition read_same (a b : bworld) : Prop :=
  b_files b = b_files a /\ b_restored b = b_restored a /\ b_sent b = b_sent a.
#[local] Instance read_same_preorder : PreOrder read_same.
Proof. split; [by intros a|]. unfold read_same. intros a b c. intuition congruence. Qed.

Lemma hash_copy_spec p fuel s out s' :
  exec b_handles (io_Copy copyBufferSize (fun max => perform (BRead p max)) hash_write fuel 0) s out s' ->
  read_same s s' /\ (forall n, out = Ok n -> b_hash s' = b_hash s ++ b_rest s)
  /\ (is_Ok out \/ fails faults out \/ (out = Err ErrOutOfFuel /\ (fuel <= length (b_rest s))%nat)).
Proof.
  apply (io_Copy_spec _ read_same faults copyBufferSize _ _ b_rest b_hash).
  - intros max [] x s1 (rest' & -> & _ & Hr)%exec_perform. split; [split; [done|exact Hr]|done].
  - intros d [] x s1 _ ([] & s2 & -> & <- & <-). split_and!; [done..|by left].
Qed.

Definition send_same (a b : bworld) : Prop :=
  b_files b = b_files a /\ b_restored b = b_restored a
  /\ exists cs, b_sent b = b_sent a ++ map RestoreMessage_Chunk cs.
#[local] Instance send_same_preorder : PreOrder send_same.
Proof.
  split; [intros a; split_and!; [done..|]; exists []; by rewrite app_nil_r|].
  intros a b c (H1 & H2 & cs1 & H3) (H4 & H5 & cs2 & H6). split_and!; [congruence..|].
  exists (cs1 ++ cs2). by rewrite H6, H3, map_app, app_assoc.
Qed.

Lemma payload_app a b : payload (a ++ b) = payload a ++ payload b.
Proof. unfold payload. by rewrite map_app, concat_app. Qed.

Lemma upload_spec ew p fuel s out s' :
  exec b_handles (bufio_Copy ew backup_Writer_Write
    (io_Copy defaultSnapshotChunkSize (fun max => perform (BRead p max)) backup_Writer_Write fuel 0)) s out s' ->
  send_same s s' /\ (forall n, out = Ok n -> payload (b_sent s') = payload (b_sent s) ++ b_rest s)
  /\ (is_Ok out \/ fails faults out \/ (out = Err ErrOutOfFuel /\ (fuel <= length (b_rest s))%nat)).
Proof.
  apply (bufio_Copy_spec _ send_same faults defaultSnapshotChunkSize _ _ b_rest (fun w => payload (b_sent w))); [| |done].
  - intros max [] x s1 (rest' & -> & _ & Hr)%exec_perform. split; [split; [|exact Hr]|done].
    split_and!; [done..|]. exists []. by rewrite app_nil_r.
  - intros d [] x s1 _ [[-> ->]|[-> Hf]]%exec_perform; cbn [b_rest b_sent]; (split; [|split; [done|]]).
    + split_and!; [done..|]. by exists [mkChunk d (uint64 (len d))].
    + left. split; [done|]. rewrite payload_app. unfold payload at 2. cbn. by rewrite app_nil_r.
    + split_and!; [done..|]. exists []. by rewrite app_nil_r.
    + by right.
Qed.

(** A table of a manifest whose file is there and has the right checksum. *)
Definition checked (dir : bytes) (files : gmap bytes bytes) (t : ManifestTable) (c : bytes) : Prop :=
  files !! path_Join [dir; mt_FileName t] = Some c /\ hex_EncodeToString (md5_Sum c) = mt_MD5 t.

(** A call that fails ends the run. *)
Ltac stop H Hf :=
  destruct H as [-> ->]; cbn [b_files b_restored]; split_and!; [done|by left|done|];
  intros ???; split; [by right|]; intros _; split; [done|by right].

(** A table is restored from its file when the checksum is right, and from
    nothing else. *)
Lemma restoreTable_spec dir ew fuel t s out s' :
  exec b_handles (restoreTable dir ew fuel t) s out s' ->
  b_files s' = b_files s
  /\ (b_restored s' = b_restored s
      \/ exists c st, checked dir (b_files s) t c /\ decompress c = Ok st /\ b_restored s' = b_restored s ++ [(mt_Name t, st)])
  /\ (out = Ok tt -> b_restored s' <> b_restored s)
  /\ (forall c, b_files s !! path_Join [dir; mt_FileName t] = Some c -> (length c < fuel)%nat ->
        (checked dir (b_files s) t c -> is_Ok (decompress c) -> out = Ok tt \/ faults = true)
        /\ (~ checked dir (b_files s) t c -> b_restored s' = b_restored s /\ (out = Err ErrChecksumMismatch \/ faults = true))).
Proof.
  intros H. unfold restoreTable in H. set (p := path_Join [dir; mt_FileName t]) in *.
  destruct s as [files rest hash chunks complete sent snaps restored]. b_do H. subst s.
  b_call H. destruct Hx as [(c & Hc & -> & ->)|[(-> & Hc & e & ->)|[-> (e & [Hf _] & ->)]]]; [| |stop H Hf].
  2: { destruct H as [-> ->]. cbn [b_files b_restored]. split_and!; [done|by left|done|]. congruence. }
  apply exec_M_call in H as (x1 & s1 & Hcp & H). apply hash_copy_spec in Hcp as ((Hf1 & Hr1 & Hs1) & Hh & Hout).
  cbn [b_files b_restored b_sent b_hash b_rest app] in *.
  assert (forall c', files !! p = Some c' -> c' = c) as Hcc by congruence.
  destruct x1 as [n|e|].
  2: { destruct H as [-> ->]. split_and!; [done|by left|done|]. intros c' ->%Hcc Hl.
       destruct Hout as [[? E]|[(? & [? _] & _)|[_ ?]]]; [done| |lia]. split; [by right|]. intros _. split; [done|by right]. }
  2: { destruct Hout as [[? E]|[(? & _ & E)|[E _]]]; done. }
  b_do H. destruct s1 as [files1 rest1 hash1 chunks1 complete1 sent1 snaps1 restored1].
  cbn [b_files b_restored b_sent b_hash b_rest] in *. destruct Hx as [-> ->]. subst files1 restored1 sent1. rewrite (Hh n eq_refl) in H.
  destruct (decide (hex_EncodeToString (md5_Sum c) <> mt_MD5 t)) as [Hbad|Hgood%dec_stable].
  { destruct H as [<- <-]. cbn. split_and!; [done|by left|done|]. intros c' Hc' _. pose proof (Hcc c' Hc') as ->.
    split; [intros [_ ?]; done|]. intros _. split; [done|by left]. }
  assert (checked dir files t c) as Hck by done.
  b_call H. destruct Hx as [(c2 & ->%Hcc & -> & ->)|[-> (e & [Hf _] & ->)]]; [|stop H Hf].
  b_call H. destruct Hx as [[-> ->]|[-> (e & [Hf _] & ->)]]; [|stop H Hf].
  b_call H. destruct Hx as [[-> ->]|[-> (e & [Hf _] & ->)]]; [|stop H Hf].
  cbn [app] in H. apply exec_M_call in H as (x1 & s1 & Hup & H). apply upload_spec in Hup as ((Hf2 & Hr2 & cs & Hs2) & Hp & Hout2).
  cbn [b_files b_restored b_sent b_rest] in *.
  destruct x1 as [n1|e|].
  2: { destruct H as [-> ->]. split_and!; [done|by left|done|]. intros c' ->%Hcc Hl.
       destruct Hout2 as [[? E]|[(? & [? _] & _)|[_ ?]]]; [done| |lia]. split; [by right|]. by intros []. }
  2: { destruct Hout2 as [[? E]|[(? & _ & E)|[E _]]]; done. }
  specialize (Hp n1 eq_refl). rewrite Hs2, payload_app, payload_chunks in Hp. unfold payload in Hp. cbn in Hp.
  destruct s1 as [files2 rest2 hash2 chunks2 complete2 sent2 snaps2 restored2]. cbn [b_files b_restored b_sent] in *. subst files2 restored2 sent2.
  apply exec_perform in H. cbn [b_handles] in H.
  destruct H as [[-> (e & [Hf _] & ->)]|(f & o & ms & Hsrv & Hof & -> & Hx)].
  { cbn. split_and!; [done|by left|done|]. intros c' ->%Hcc Hl. split; [by right|by intros []]. }
  apply serve_restore in Hsrv as (Hres & Hne & Hlive). rewrite Hp in *. cbn [b_files b_restored].
  split_and!; [done| | |].
  - destruct Hres as [->|(st & Hst & ->)]; [left; by rewrite app_nil_r|]. right. by exists c, st.
  - intros ->. destruct Hx as [[_ Ho]|[(? & _ & [=])|[_ [? [=]]]]]. intros E. apply (Hne Ho). by apply (app_inv_head restored); rewrite app_nil_r.
  - intros c' ->%Hcc Hl. split; [|by intros []]. intros _ Hd.
    destruct Hx as [[? _]|[(? & [? _] & _)|[Ho _]]]; [by left|by right|]. destruct (Hlive Hd) as [?|[(? & [? _] & _)|?]]; [done|by right|done].
Qed.

(** What a table is restored from. *)
Definition restored_from (dir : bytes) (files : gmap bytes bytes) (t : ManifestTable) (r : bytes * bytes) : Prop :=
  r.1 = mt_Name t /\ exists c, checked dir files t c /\ decompress c = Ok r.2.

(** The tables [l] of a manifest are restored one by one from checked files;
    all of them when there are no faults and the files are as they should
    be. *)
Definition restore_outcome (dir : bytes) (fuel : nat) (l : list ManifestTable) (s : bworld) (out : res unit) (s' : bworld) : Prop :=
  (exists l1 l2 rs, l = l1 ++ l2 /\ Forall2 (restored_from dir (b_files s)) l1 rs
     /\ b_restored s' = b_restored s ++ rs /\ (out = Ok tt -> l2 = []))
  /\ (Forall (fun t => exists c, checked dir (b_files s) t c /\ is_Ok (decompress c) /\ (length c < fuel)%nat) l ->
      out = Ok tt \/ faults = true).

Lemma restoreTables_spec dir ew fuel l s out s' :
  exec b_handles (M_iter (restoreTable dir ew fuel) l) s out s' -> restore_outcome dir fuel l s out s'.
Proof.
  revert s. induction l as [|t l IH]; intros s; cbn [M_iter].
  { intros [<- <-]. split; [|auto]. exists [], [], []. split_and!; [done|constructor|by rewrite app_nil_r|done]. }
  intros (x & s1 & (Hf & Hres & Hne & Hlive)%restoreTable_spec & H)%exec_M_call.
  assert (x <> Ok tt -> out <> Ok tt /\ s' = s1) as Hx.
  { destruct x as [[]|e|]; [done|by destruct H as [-> ->]..]. }
  destruct (decide (x = Ok tt)) as [->|Hbad].
  - apply IH in H as ((l1 & l2 & rs & -> & Hall & Hr & Hok) & Hlive2). rewrite Hf in *. split.
    + destruct Hres as [?|(c & st & Hc & Hst & Hr1)]; [by destruct (Hne eq_refl)|].
      exists (t :: l1), l2, ((mt_Name t, st) :: rs). split_and!; [done| |by rewrite Hr, Hr1, <- app_assoc|done].
      constructor; [|done]. split; [done|]. by exists c.
    + intros [_ Hl]%Forall_cons. by apply Hlive2.
  - destruct (Hx Hbad) as [Hno ->]. split.
    + destruct Hres as [Hr|(c & st & Hc & Hst & Hr)].
      * exists [], (t :: l), []. rewrite app_nil_r. by split_and!.
      * exists [t], l, [(mt_Name t, st)]. split_and!; [done| |done|done]. constructor; [|constructor]. split; [done|]. by exists c.
    + intros [(c & Hc & Hd & Hl) _]%Forall_cons. right. destruct (Hlive c (proj1 Hc) Hl) as [H1 _].
      by destruct (H1 Hc Hd).
Qed.

Lemma Restore_spec dir ew fuel s m out s' b :
  b_files s !! path_Join [dir; manifestFileName] = Some b -> json_Decode b = Ok m ->
  exec b_handles (Backup_Restore dir ew fuel) s out s' -> restore_outcome dir fuel (mf_Tables m) s out s'.
Proof.
  intros Hb Hm H. unfold Backup_Restore in H.
  assert (forall s2, b_restored s2 = b_restored s -> out <> Ok tt -> s' = s2 -> faults = true ->
    restore_outcome dir fuel (mf_Tables m) s out s') as Hstop.
  { intros s2 Hr Hno -> Hf. split; [|by right]. exists [], (mf_Tables m), []. rewrite app_nil_r. by split_and!. }
  apply exec_M_call in H as (x & s1 & [-> Hx]%checkDir_spec & H).
  destruct x as [[]|e|]; [|destruct H as [-> ->]; destruct Hx as [?|?]; [done|by eapply Hstop]..].
  destruct s as [files rest hash chunks complete sent snaps restored]. cbn [b_files b_restored] in *.
  b_call H. destruct Hx0 as [(c & Hc & -> & ->)|[(_ & ? & _)|[-> (e & [Hf _] & ->)]]]; [|congruence|].
  2: { destruct H as [-> ->]. by refine (Hstop _ _ _ eq_refl Hf). }
  b_call H. destruct Hx0 as [[-> ->]|[-> (e & [Hf _] & ->)]].
  2: { destruct H as [-> ->]. by refine (Hstop _ _ _ eq_refl Hf). }
  replace c with b in H by congruence. apply exec_M_call in H as (x & s1 & Hx1 & H). cbn in Hx1. destruct Hx1 as [<- <-].
  rewrite Hm in H. by apply restoreTables_spec in H.
Qed.
End Client.

(** ** Reset *)

Section Reset.
Context (tables : list TableInfo) (Hnd : NoDup (map tbl_Name tables)).

(** The shards that have been reset. *)
Definition reset_handles (s : list Z) X (e : maint_ev X) : X -> list Z -> Prop :=
  match e with
  | MGetTables => fun x s' => s' = s /\ (x = Ok tables \/ ~ is_Ok x)
  | MGetTable name => fun x s' =>
      s' = s /\ ((exists t, t ∈ tables /\ tbl_Name t = name /\ x = Ok t) \/ ~ is_Ok x)
  | MReset shard => fun x s' => (x = Ok tt /\ s' = s ++ [shard]) \/ (s' = s /\ ~ is_Ok x)
  | _ => fun _ s' => s' = s
  end.

Lemma resetTable_spec t s s' :
  t ∈ tables -> exec reset_handles (resetTable (tbl_Name t)) s (Ok tt) s' -> s' = s ++ [tbl_ClusterID t].
Proof using Hnd.
  intros Ht (x & s1 & Hx%exec_perform & H)%exec_M_bind. destruct Hx as [-> [(t' & Ht' & Hn & [= ->])|[]]]; [|by eexists].
  assert (t' = t) as ->.
  { apply list_elem_of_lookup in Ht as [i Hi], Ht' as [j Hj]. assert (i = j) as ->; [|congruence].
    eapply (NoDup_lookup _ _ _ (tbl_Name t)); [exact Hnd|by rewrite list_lookup_fmap, Hi|rewrite list_lookup_fmap, Hj; cbn; by rewrite Hn]. }
  apply exec_perform in H as [[_ ->]|[_ []]]; [done|by eexists].
Qed.

(** A reset of all tables that succeeds has reset every table once, in the
    order of the list; a request that names no table is refused. *)
Lemma reset_all name s s' :
  exec reset_handles (ResetServer_Reset (mkReset name true)) s (Ok tt) s' -> s' = s ++ map tbl_ClusterID tables.
Proof using Hnd.
  intros (x & s1 & Hx%exec_perform & H)%exec_M_bind. destruct Hx as [-> [[= ->]|[]]]; [|by eexists].
  assert (forall l, l ⊆ tables -> forall s, exec reset_handles (M_iter (fun t => resetTable (tbl_Name t)) l) s (Ok tt) s' ->
    s' = s ++ map tbl_ClusterID l) as Hl; [|by apply Hl in H].
  clear H s. induction l as [|t l IH]; intros Hsub s; cbn [M_iter]; [intros [_ <-]; by rewrite app_nil_r|].
  intros (x & s1 & Hx & H)%exec_M_bind. destruct x. apply resetTable_spec in Hx as ->; [|apply Hsub; left].
  apply IH in H as ->; [by rewrite <- app_assoc|]. intros y Hy. apply Hsub. by right.
Qed.

Lemma reset_nothing s out s' :
  exec reset_handles (ResetServer_Reset (mkReset [] false)) s out s' -> out = Err ErrStatusInvalidArgument /\ s' = s.
Proof using. by intros [<- <-]. Qed.
End Reset.

(** ** Claims *)

Section Claims.
Context {SN : Snappy} {J : ManifestJson}.

Lemma checked_backed_up dir limit (w : bworld) x :
  backed_up limit dir w x -> checked dir (b_files w) (mt_of x) (compress x.2) /\ is_Ok (decompress (compress x.2)).
Proof. intros [Hf _]. split; [by split|]. rewrite decompress_compress. by eexists. Qed.

Lemma restored_backed_up dir limit (w : bworld) x r :
  backed_up limit dir w x -> restored_from dir (b_files w) (mt_of x) r -> r = snap_of x.
Proof.
  intros [Hf _] (Hn & c & [Hc _] & Hd). destruct r as [n st]. cbn in *. unfold bak_path in Hf.
  rewrite Hf in Hc. injection Hc as <-. rewrite decompress_compress in Hd. injection Hd as <-. by rewrite Hn.
Qed.

(** C13. Backup and restore: a restore from the files of a backup gives every
    table of the backed-up server, under its name, exactly the stream that its
    snapshot wrote, however the streams and the files were cut into chunks and
    whatever calls failed on the way; a failed restore has given some tables
    their stream and others nothing.  Where no call fails, the backup and the
    restore both succeed. *)
Theorem backup_restore f1 f2 tables limit dir fuel ew w out w1 :
  NoDup (map rt_Name tables) -> Forall (fun t => slash ∉ rt_Name t) tables -> (limit < fuel)%nat ->
  exec (b_handles f1 tables limit) (Backup_Backup dir fuel) w out w1 ->
  (f1 = false -> (forall m : Manifest, is_Ok (json_Marshal m)) -> is_Ok out)
  /\ forall m w2 r w3, out = Ok m -> manifest_rep m -> b_files w2 = b_files w1 ->
     exec (b_handles f2 tables limit) (Backup_Restore dir ew fuel) w2 r w3 ->
     exists new rs, b_snaps w1 = b_snaps w ++ new /\ new.*1 = map rt_Name tables
       /\ b_restored w3 = b_restored w2 ++ rs /\ rs ⊆ new /\ (r = Ok tt -> rs ≡ₚ new) /\ (f2 = false -> r = Ok tt).
Proof.
  intros Hnd Hsl Hfuel Hb. apply Backup_spec in Hb as [Hok Hlive]; [|done..]. split; [auto|].
  intros m w2 r w3 Hm Hrep Hfiles Hr. destruct (Hok m Hm) as (ps & Hps & Hsn & Hmt & Hall & b & Hj & Hman).
  eapply (Restore_spec f2 tables limit dir ew fuel w2 m) in Hr as [(l1 & l2 & rs & Hl & HF & Hres & Hl2) Hrl];
    [|by rewrite Hfiles|rewrite (json_Decode_line m); [by eapply json_roundtrip|done]].
  assert (mf_Tables m ≡ₚ map mt_of ps) as Hperm by (rewrite Hmt; apply merge_sort_Permutation).
  apply Permutation_map_inv in Hperm as (ps' & Hps' & Hpp). rewrite Hps' in *.
  assert (Forall (backed_up limit dir w2) ps') as Hall'.
  { rewrite <- Hpp. eapply Forall_impl; [exact Hall|]. intros x [? ?]. split; [by rewrite Hfiles|done]. }
  apply map_eq_app in Hl as (ps1 & ps2 & -> & <- & <-).
  assert (rs = map snap_of ps1) as ->.
  { apply Forall_app in Hall' as [Ha _]. clear -Ha HF. revert rs HF. induction Ha as [|x ps1 Hx _ IH]; intros rs HF.
    - by inversion HF.
    - inversion HF as [|?? r rs' Hr Hrs]; subst. cbn. f_equal; [by eapply restored_backed_up|by apply IH]. }
  exists (map snap_of ps), (map snap_of ps1). split_and!; [done| |done| | |].
  - rewrite <- Hps, <- !list_fmap_compose. done.
  - intros x (y & -> & Hy)%list_elem_of_fmap. apply list_elem_of_fmap_2. rewrite Hpp. apply elem_of_app. by left.
  - intros ->. specialize (Hl2 eq_refl). apply map_eq_nil in Hl2 as ->. rewrite app_nil_r in *. by rewrite Hpp.
  - intros ->. destruct (Hrl) as [?|?]; [|done|done]. apply Forall_map. eapply Forall_impl; [exact Hall'|].
    intros x Hx. destruct (checked_backed_up _ _ _ _ Hx). exists (compress x.2). split_and!; [done..|]. destruct Hx. lia.
Qed.

(** C14. Nothing but what the manifest vouches for is restored: when the file
    of a table is missing or its checksum is not that of the manifest, the
    restore fails, no table from that one on is touched, and the tables before
    it got the contents of files with the right checksums. *)
Theorem restore_rejects_corruption faults tables limit dir ew fuel w b m before t after out w' :
  b_files w !! path_Join [dir; manifestFileName] = Some b -> json_Decode b = Ok m ->
  mf_Tables m = before ++ t :: after -> (forall c, ~ checked dir (b_files w) t c) ->
  exec (b_handles faults tables limit) (Backup_Restore dir ew fuel) w out w' ->
  out <> Ok tt
  /\ exists good rs, good `prefix_of` before /\ Forall2 (restored_from dir (b_files w)) good rs
       /\ b_restored w' = b_restored w ++ rs.
Proof.
  intros Hb Hd Hm Hbad H. eapply Restore_spec in H as [(l1 & l2 & rs & Hl & HF & Hres & Hok) _]; [|done..].
  assert (t ∉ l1) as Ht.
  { intros Hin. apply list_elem_of_lookup in Hin as [i Hi]. destruct (Forall2_lookup_l _ _ _ _ _ HF Hi) as (r & _ & _ & c & Hc & _).
    by apply (Hbad c). }
  rewrite Hm in Hl. assert (exists k, before = l1 ++ k) as [k Hk].
  { apply app_eq_inv in Hl as [(k & -> & Hk)|(k & -> & Hk)]; [by exists k|].
    destruct k as [|t' k]; [exists []; by rewrite !app_nil_r|]. injection Hk as <- _. destruct Ht. apply elem_of_app. right. left. }
  split.
  - intros ->. specialize (Hok eq_refl) as ->. rewrite app_nil_r in Hl. subst l1. apply Ht, elem_of_app. right. left.
  - exists l1, rs. split_and!; [by exists k|done|done].
Qed.
End Claims.

(** ** Witnesses *)

#[local] Instance Manifest_table_countable : Countable ManifestTable.
Proof.
  apply (inj_countable' (fun t => (mt_Name t, mt_Type t, mt_FileName t, mt_MD5 t)) (fun '(a, b, c, d) => mkMT a b c d)).
  by intros [].
Defined.
#[local] Instance Manifest_eq_dec : EqDecision Manifest.
Proof. solve_decision. Defined.
#[local] Instance Manifest_countable : Countable Manifest.
Proof. apply (inj_countable' (fun m => (mf_Started m, mf_Finished m, mf_Tables m)) (fun '(a, b, c) => mkManifest a b c)). by intros []. Defined.

Definition ex_manifest_json : ManifestJson.
Proof.
  refine {| mfj := countable_json (fun _ : Manifest => true); manifest_rep := fun _ => true = true;
    mfj_laws := countable_json_laws (fun _ => true);
    json_Decode := fun b => @json_Unmarshal _ (countable_json (fun _ : Manifest => true)) (removelast b) |}.
  intros m b _. by rewrite removelast_last.
Defined.
Definition ex_snappy : Snappy.
Proof. by refine {| compress := fun b => b; decompress := fun b => Ok b |}. Defined.
#[local] Existing Instances ex_manifest_json ex_snappy.

Definition ex_table : RTable := mkRTable Table_REPLICATED (str "t").
Definition ex_stream_chunk : SnapshotChunk := mkChunk (str "s") 1.
Definition ex_start : bworld := mkB ∅ [] [] [] false [] [] [].
Definition ex_mf : Manifest := mkManifest 1 2 [entry_of_table ex_table (str "s")].
Definition ex_mf_file : bytes := res_get [] (json_Marshal ex_mf) ++ [newline].
Definition ex_backup_files : gmap bytes bytes := <[manifestFileName := ex_mf_file]> {[str "t.bak" := str "s"]}.

Ltac next x s := exists x, s; split; [cbn|cbn -[md5_Sum hex_EncodeToString json_Marshal Writer_ReadFrom Reader_WriteTo io_Copy backupReader_WriteTo]].

Lemma ex_serve_backup :
  exec (m_handles false) (BackupServer_Backup false 5 (str "t")) (ms_start []) (Ok tt)
    (mkMS [] [] [] [] [ex_stream_chunk] (Some (str "s")) []).
Proof.
  next (Ok (mkTable (str "t") 10001 0)) (ms_start []); [split; [done|left; by eexists]|].
  next (Ok tt) (ms_start []); [by left|].
  next (Ok tt) (mkMS [] (str "s") [] [] [] (Some (str "s")) []); [exists (str "s"); split; [done|by left]|].
  next (Ok tt) (mkMS [] [] (str "s") [] [] (Some (str "s")) []); [by left|].
  next (Ok tt) (mkMS [] [] (str "s") (str "s") [] (Some (str "s")) []); [by left|].
  next (str "s", @None error) (mkMS [] [] (str "s") [] [] (Some (str "s")) []).
  { exists []. split; [done|]. split; [done|]. left. by exists (str "s"). }
  next (Ok tt) (mkMS [] [] (str "s") [] [ex_stream_chunk] (Some (str "s")) []); [by left|].
  next (@nil byte, Some ErrEOF) (mkMS [] [] (str "s") [] [ex_stream_chunk] (Some (str "s")) []).
  { exists []. split; [done|]. split; [done|]. right. by left. }
  next tt (mkMS [] [] [] [] [ex_stream_chunk] (Some (str "s")) []); [done|]. done.
Qed.

Lemma ex_serve_restore :
  exec (m_handles false) (BackupServer_Restore 5) (ms_start [RestoreMessage_Info (str "t"); RestoreMessage_Chunk ex_stream_chunk])
    (Ok tt) (mkMS [] [] [] [] [] None [(str "t", str "s")]).
Proof.
  next (Ok (Some (RestoreMessage_Info (str "t")))) (ms_start [RestoreMessage_Chunk ex_stream_chunk]); [left; eauto|].
  next (Ok tt) (ms_start [RestoreMessage_Chunk ex_stream_chunk]); [by left|].
  next (Ok (Some (RestoreMessage_Chunk ex_stream_chunk))) (ms_start []); [left; eauto|].
  next (Ok tt) (mkMS [] [] (str "s") [] [] None []); [by left|].
  next (Ok (@None RestoreMessage)) (mkMS [] [] (str "s") [] [] None []); [right; by left|].
  next (Ok tt) (mkMS [] [] (str "s") [] [] None []); [by left|].
  next (Ok tt) (mkMS [] [] (str "s") (str "s") [] None []); [by left|].
  next (Ok tt) (mkMS [] [] (str "s") [] [] None [(str "t", str "s")]); [left; by exists (str "s")|].
  next (Ok tt) (mkMS [] [] (str "s") [] [] None [(str "t", str "s")]); [split; [done|by left]|].
  next tt (mkMS [] [] [] [] [] None [(str "t", str "s")]); [done|]. done.
Qed.

Definition ex_backed_up : bworld := mkB ex_backup_files [] (str "s") [] true [] [(str "t", str "s")] [].

Lemma ex_backup : exec (b_handles false [ex_table] 5) (Backup_Backup [] 10) ex_start (Ok ex_mf) ex_backed_up.
Proof.
  next 1 ex_start; [done|].
  next (Ok [ex_table]) ex_start; [split; [done|by left]|].
  next (Ok tt) (mkB ∅ [] [] [ex_stream_chunk] true [] [(str "t", str "s")] []).
  { right. split; [done|]. exists false, 5%nat, (Ok tt), (mkMS [] [] [] [] [ex_stream_chunk] (Some (str "s")) []).
    split_and!; [exact ex_serve_backup|done|cbn; lia|cbn; lia|done]. }
  next (Ok tt) (mkB {[str "t.bak" := []]} [] [] [ex_stream_chunk] true [] [(str "t", str "s")] []); [by left|].
  next tt (mkB {[str "t.bak" := []]} [] [] [ex_stream_chunk] true [] [(str "t", str "s")] []); [done|].
  next (Ok (Some ex_stream_chunk)) (mkB {[str "t.bak" := []]} [] [] [] true [] [(str "t", str "s")] []); [left; eauto|].
  next tt (mkB {[str "t.bak" := []]} [] (str "s") [] true [] [(str "t", str "s")] []); [done|].
  next (Ok tt) (mkB {[str "t.bak" := str "s"]} [] (str "s") [] true [] [(str "t", str "s")] []).
  { exists (str "s"). split; [by vm_compute|by left]. }
  next (Ok (@None SnapshotChunk)) (mkB {[str "t.bak" := str "s"]} [] (str "s") [] true [] [(str "t", str "s")] []); [right; by left|].
  next (Ok tt) (mkB {[str "t.bak" := str "s"]} [] (str "s") [] true [] [(str "t", str "s")] []); [split; [done|by left]|].
  next (md5_Sum (str "s")) (mkB {[str "t.bak" := str "s"]} [] (str "s") [] true [] [(str "t", str "s")] []); [done|].
  next 2 (mkB {[str "t.bak" := str "s"]} [] (str "s") [] true [] [(str "t", str "s")] []); [done|].
  next (Ok tt) (mkB (<[manifestFileName := []]> {[str "t.bak" := str "s"]}) [] (str "s") [] true [] [(str "t", str "s")] []); [left; by vm_compute|].
  change (json_Marshal (mkManifest 1 2 _)) with (json_Marshal ex_mf).
  next (Ok tt) ex_backed_up; [exists ex_mf_file; split; [by vm_compute|by left]|].
  next (Ok tt) ex_backed_up; [split; [done|by left]|]. done.
Qed.

Definition ex_world (rest hash : bytes) (sent : list RestoreMessage) (restored : list (bytes * bytes)) : bworld :=
  mkB ex_backup_files rest hash [] true sent [(str "t", str "s")] restored.

Lemma ex_restore :
  exec (b_handles false [ex_table] 5) (Backup_Restore [] false 10) ex_backed_up (Ok tt)
    (ex_world [] (str "s") [RestoreMessage_Info (str "t"); RestoreMessage_Chunk ex_stream_chunk] [(str "t", str "s")]).
Proof.
  eapply exec_M_ok; [by split|].
  eapply (exec_M_ok _ _ _ _ tt (ex_world ex_mf_file (str "s") [] [])).
  { apply exec_call. left. exists ex_mf_file. split; [by vm_compute|done]. }
  eapply (exec_M_ok _ _ _ _ ex_mf_file (ex_world [] (str "s") [] [])); [apply exec_call; by left|].
  eapply (exec_M_ok _ _ _ _ ex_mf (ex_world [] (str "s") [] [])); [split; [by vm_compute|done]|].
  next tt (ex_world [] [] [] []); [done|].
  next (Ok tt) (ex_world (str "s") [] [] []); [left; exists (str "s"); split; [by vm_compute|done]|].
  next (str "s", @None error) (ex_world [] [] [] []).
  { exists []. split; [done|]. split; [done|]. left. by exists (str "s"). }
  next tt (ex_world [] (str "s") [] []); [done|].
  next (@nil byte, Some ErrEOF) (ex_world [] (str "s") [] []).
  { exists []. split; [done|]. split; [done|]. right. by left. }
  next (md5_Sum (str "s")) (ex_world [] (str "s") [] []); [done|].
  rewrite decide_False by auto.
  next (Ok tt) (ex_world (str "s") (str "s") [] []); [left; exists (str "s"); split; [by vm_compute|done]|].
  next (Ok tt) (ex_world (str "s") (str "s") [] []); [by left|].
  next (Ok tt) (ex_world (str "s") (str "s") [RestoreMessage_Info (str "t")] []); [by left|].
  next (str "s", @None error) (ex_world [] (str "s") [RestoreMessage_Info (str "t")] []).
  { exists []. split; [done|]. split; [done|]. left. by exists (str "s"). }
  next (Ok tt) (ex_world [] (str "s") [RestoreMessage_Info (str "t"); RestoreMessage_Chunk ex_stream_chunk] []); [by left|].
  next (@nil byte, Some ErrEOF) (ex_world [] (str "s") [RestoreMessage_Info (str "t"); RestoreMessage_Chunk ex_stream_chunk] []).
  { exists []. split; [done|]. split; [done|]. right. by left. }
  next (Ok tt) (ex_world [] (str "s") [RestoreMessage_Info (str "t"); RestoreMessage_Chunk ex_stream_chunk] [(str "t", str "s")]); [|done].
  right. exists 5%nat, (Ok tt), (mkMS [] [] [] [] [] None [(str "t", str "s")]). split_and!; [exact ex_serve_restore|done|done|by left].
Qed.

Lemma backup_restore_witness :
  exists new rs, b_snaps ex_backed_up = b_snaps ex_start ++ new /\ new.*1 = map rt_Name [ex_table]
    /\ [(str "t", str "s")] = b_restored ex_backed_up ++ rs /\ rs ⊆ new /\ (Ok tt = Ok tt -> rs ≡ₚ new) /\ (false = false -> Ok tt = Ok tt).
Proof.
  destruct (backup_restore false false [ex_table] 5 [] 10 false ex_start (Ok ex_mf) ex_backed_up) as [_ H].
  - apply NoDup_singleton.
  - constructor; [|constructor]. by apply (bool_decide_unpack (slash ∉ str "t")).
  - lia.
  - exact ex_backup.
  - exact (H ex_mf ex_backed_up (Ok tt) _ eq_refl eq_refl eq_refl ex_restore).
Defined.

(** The file of the table has been changed. *)
Definition ex_damaged (rest hash : bytes) : bworld :=
  mkB (<[str "t.bak" := str "x"]> ex_backup_files) rest hash [] true [] [] [].

Lemma ex_sums_differ : hex_EncodeToString (md5_Sum (str "x")) <> hex_EncodeToString (md5_Sum (str "s")).
Proof. apply (bool_decide_unpack (hex_EncodeToString (md5_Sum (str "x")) <> hex_EncodeToString (md5_Sum (str "s")))). by vm_compute. Qed.

Lemma ex_restore_damaged :
  exec (b_handles false [ex_table] 5) (Backup_Restore [] false 10) (ex_damaged [] []) (Err ErrChecksumMismatch) (ex_damaged [] (str "x")).
Proof.
  eapply exec_M_ok; [by split|].
  eapply (exec_M_ok _ _ _ _ tt (ex_damaged ex_mf_file [])).
  { apply exec_call. left. exists ex_mf_file. split; [by vm_compute|done]. }
  eapply (exec_M_ok _ _ _ _ ex_mf_file (ex_damaged [] [])); [apply exec_call; by left|].
  eapply (exec_M_ok _ _ _ _ ex_mf (ex_damaged [] [])); [split; [by vm_compute|done]|].
  next tt (ex_damaged [] []); [done|].
  next (Ok tt) (ex_damaged (str "x") []); [left; exists (str "x"); split; [by vm_compute|done]|].
  next (str "x", @None error) (ex_damaged [] []).
  { exists []. split; [done|]. split; [done|]. left. by exists (str "x"). }
  next tt (ex_damaged [] (str "x")); [done|].
  next (@nil byte, Some ErrEOF) (ex_damaged [] (str "x")).
  { exists []. split; [done|]. split; [done|]. right. by left. }
  next (md5_Sum (str "x")) (ex_damaged [] (str "x")); [done|].
  by rewrite decide_True by exact ex_sums_differ.
Qed.

Lemma restore_rejects_corruption_witness :
  Err ErrChecksumMismatch <> Ok tt
  /\ exists good rs, good `prefix_of` [] /\ Forall2 (restored_from [] (b_files (ex_damaged [] []))) good rs
       /\ b_restored (ex_damaged [] (str "x")) = b_restored (ex_damaged [] []) ++ rs.
Proof.
  refine (restore_rejects_corruption false [ex_table] 5 [] false 10 (ex_damaged [] []) ex_mf_file ex_mf []
    (entry_of_table ex_table (str "s")) [] (Err ErrChecksumMismatch) _ _ _ eq_refl _ ex_restore_damaged).
  - by vm_compute.
  - by vm_compute.
  - intros c [Hc Hm]. assert (c = str "x") as -> by (vm_compute in Hc; by injection Hc).
    by apply ex_sums_differ.
Defined.
