(* ===== verification/BackupTable.v ===== *)
(** * A table that is backed up and restored

    The stream of a backup is that of the snapshot of the table alone: unlike
    the stream of the replication it has no closing command.  Read into an
    empty table it gives back the keys and their values. *)

From S2P Require Import Prelude Key Wire Proto Codec Pebble.
From S2P Require Import Query Command Fsm TableSpec QueryCorrect CommandCorrect FsmCorrect Snapshot.

#[local] Arguments Command_Marshal : simpl never.
#[local] Arguments Command_SizeVT : simpl never.

Definition entry_kvs (es : list (bytes * bytes)) : list KeyValue := map (fun e => mkKeyValue e.1 0 0 e.2 []) es.

Lemma put_kvs tn es : map cmd_Kv (map (put_command tn) es) = map Some (entry_kvs es).
Proof. unfold entry_kvs. by rewrite !map_map. Qed.

Section Backup.
Context (tn : bytes) (kv : kvmap) (max : Z).
Let es := snapshot_entries kv.
Context (Hes : Forall (fun e => len tn + len e.1 + len e.2 <= 3 * 1024 * 1024) es).
Context (Hn : len es < 2 ^ 59) (Htn : len tn <= 1024 * 1024) (Hmax : max < 2 ^ 60).
Context (Htot : total_size (map (put_command tn) es) < max / 2).

(** The command that a restore proposes. *)
Definition restored_batch : Command :=
  batch_of (default [] (cmd_Table <$> last (map (put_command tn) es))) None (map Some (entry_kvs es)).

Lemma restored_batch_size : Command_SizeVT restored_batch < 2 ^ 62.
Proof using Hes Htn Hmax Htot.
  assert (max / 2 <= 2 ^ 59) by (apply Z.div_le_upper_bound; lia).
  pose proof (restored_kvs_size tn es Hes) as Hk. rewrite put_kvs in Hk.
  unfold restored_batch, batch_of, Command_SizeVT, embedded_size, optional_size, bool_size, optional_varint_size.
  change (scalar_size Command_PUT_BATCH) with 2. change (len (@nil byte)) with 0. change (repeated_size _ []) with 0.
  assert (len (default [] (cmd_Table <$> last (map (put_command tn) es))) <= 1024 * 1024) as Ht.
  { destruct (last (map (put_command tn) es)) as [c|] eqn:E; [|done]. apply last_Some_elem_of, list_elem_of_fmap in E as (e & -> & _). done. }
  pose proof (nonempty_size_le (default [] (cmd_Table <$> last (map (put_command tn) es)))). lia.
Qed.

Lemma apply_restored_batch i :
  let prop := Command_Marshal restored_batch in
  exists data, spec_update empty_state [mkEntry i prop 0 []] = Ok (mkTState (delete [] kv) i 0, [mkEntry i prop 1 data]).
Proof using Hes Hn Htn Hmax Htot.
  intros prop. pose proof restored_batch_size as Hsize.
  assert (len prop < 2 ^ 62) as Hlen.
  { unfold prop. rewrite Command_Marshal_len; [done|]. eapply Z.lt_trans; [exact Hsize|done]. }
  assert (Command_UnmarshalVT prop Command_zero = Ok restored_batch) as Hdec.
  { apply Command_roundtrip_at; [|fold prop; unfold len in Hlen |- *; lia]. constructor; try done.
    apply Forall_forall. intros x (y & -> & Hy)%list_elem_of_fmap. exists y. split; [done|].
    apply list_elem_of_fmap in Hy as (e & -> & _). by repeat split. }
  assert (spec_command ∅ restored_batch = Ok (delete [] kv, (true, map (fun _ => put_response PutResp_zero) (entry_kvs es)))) as Hcmd.
  { unfold restored_batch, batch_of. cbn [spec_command]. change (Command_PUT_BATCH =? Command_PUT) with false.
    change (Command_PUT_BATCH =? Command_DELETE) with false. change (Command_PUT_BATCH =? Command_PUT_BATCH) with true.
    cbv iota. rewrite mapM_id_Some. unfold entry_kvs at 1. rewrite foldl_insert_entries.
    - unfold es at 1. by rewrite snapshot_entries_map, (right_id_L ∅ (∪)).
    - apply sorted_NoDup, StronglySorted_filter, sorted_entries_sorted. }
  unfold spec_update, empty_state. cbn [collect]. unfold spec_entry. cbn [e_Cmd t_kv fst]. rewrite Hdec.
  cbn [mbind res_bind]. rewrite Hcmd. cbn [mbind res_bind]. case_decide; [by eexists|].
  unfold CommandResult_MarshalVT. rewrite marshal_sized_exact; [|apply CommandResult_sized|].
  - eexists. cbn [mbind res_bind e_Index]. done.
  - eapply Z.le_lt_trans; [apply results_size|]. unfold entry_kvs, len in *. rewrite length_map. lia.
Qed.
End Backup.

(** The stream that [ActiveTable.Snapshot] writes. *)
Lemma snapshot_stream {P : PebbleOps} {L : PebbleLaws P} (p : FSM) st :
  represents (db_view (fsm_pebble p)) st ->
  let es := snapshot_entries (t_kv st) in
  Forall (fun e => len (fsm_tableName p) + len e.1 + len e.2 <= 3 * 1024 * 1024) es ->
  Lookup (fun f b => Ok (sf_Write f b)) p (LSnapshot [] (fun _ => false))
  = Ok (LSnapshotResponse (t_index st) (framed (map (put_command (fsm_tableName p)) es)))
  /\ Forall restorable (map (put_command (fsm_tableName p)) es).
Proof.
  intros [<- Hwf Hi _] es Hes.
  assert (Forall restorable (map (put_command (fsm_tableName p)) es)) as Hr.
  { apply Forall_map. eapply Forall_impl; [exact Hes|]. intros e. apply put_command_restorable. }
  split; [|done]. cbn [Lookup]. rewrite (commandSnapshot_spec _ _ (db_view (fsm_pebble p))); [|apply view_db|done|].
  - rewrite Hi. cbn [mbind res_bind]. by rewrite file_framed.
  - eapply Forall_impl; [exact Hes|]. intros e. unfold small_entry. lia.
Qed.

(** C15. Backing up a table and restoring it: the stream that a backup stores for
    a table, read into an empty table, restores every key with its value,
    provided the stream stays below half of the in-memory log size; only the
    empty key is not kept.  The restored table has no leader index, so that
    it is the table of a leader. *)
Theorem backup_table {P Q : PebbleOps} {L : PebbleLaws P} {L' : PebbleLaws Q} {H : PebbleHealthy Q}
    (p : FSM (P := P)) (q : FSM (P := Q)) st max i :
  represents (db_view (fsm_pebble p)) st -> represents (db_view (fsm_pebble q)) empty_state ->
  let tn := fsm_tableName p in
  let es := snapshot_entries (t_kv st) in
  Forall (fun e => len tn + len e.1 + len e.2 <= 3 * 1024 * 1024) es ->
  len es < 2 ^ 59 -> is_uint64 i -> len tn <= 1024 * 1024 -> max < 2 ^ 60 ->
  total_size (map (put_command tn) es) < max / 2 ->
  exists stream prop r q',
    Lookup (fun f b => Ok (sf_Write f b)) p (LSnapshot [] (fun _ => false)) = Ok (LSnapshotResponse (t_index st) stream)
    /\ readIntoTable max stream = Ok [prop] /\ Update q [mkEntry i prop 0 []] = Ok (q', [r])
    /\ represents (db_view (fsm_pebble q')) (mkTState (delete [] (t_kv st)) i 0).
Proof.
  intros Hp Hq tn es Hes Hn Hi Ht Hm Htot. destruct (snapshot_stream p st Hp Hes) as [Hstream Hr].
  fold tn es in Hstream, Hr.
  destruct (apply_restored_batch tn (t_kv st) max Hes Hn Ht Hm Htot i) as [data Hspec].
  pose proof (restored_batch_size tn (t_kv st) max Hes Ht Hm Htot) as Hsize.
  set (prop := Command_Marshal (restored_batch tn (t_kv st))) in *.
  pose proof (Update_spec q empty_state [mkEntry i prop 0 []] Hq) as HU. rewrite Hspec in HU.
  destruct HU as (q' & HU & Hrep & _); [by constructor|].
  exists (framed (map (put_command tn) es)), prop, (mkEntry i prop 1 data), q'. split; [done|]. split; [|done].
  unfold readIntoTable. rewrite readIntoTable_loop by (done || (pose proof (framed_length _ Hr); lia)).
  rewrite restore_loop_small by (done || simpl; lia). cbn [rs_table rs_batch rs_leader restore_init app].
  rewrite put_kvs.
  assert ((match last (map (put_command tn) es) with Some c => cmd_LeaderIndex c | None => None end) = None) as ->.
  { destruct (last (map (put_command tn) es)) as [c|] eqn:E; [|done].
    by apply last_Some_elem_of, list_elem_of_fmap in E as (e & -> & _). }
  cbn [mapM]. fold es in prop. rewrite Command_MarshalVT_exact; [done|]. eapply Z.lt_trans; [exact Hsize|done].
Qed.

Lemma backup_table_witness :
  exists stream prop r q',
    Lookup (fun f b => Ok (sf_Write f b)) two_keys (LSnapshot [] (fun _ => false)) = Ok (LSnapshotResponse 7 stream)
    /\ readIntoTable (1024 * 1024) stream = Ok [prop] /\ Update empty_fsm [mkEntry 1 prop 0 []] = Ok (q', [r])
    /\ represents (db_view (PebbleLaws := mem_pebble_laws) (fsm_pebble q')) (mkTState (delete [] (t_kv two_keys_state)) 1 0).
Proof.
  apply (backup_table (H := mem_pebble_healthy) two_keys empty_fsm two_keys_state (1024 * 1024) 1);
    [exact two_keys_represents|exact empty_represents| |reflexivity| | | |reflexivity].
  - apply Forall_forall. intros [k v]. unfold snapshot_entries. rewrite list_elem_of_filter, elem_of_sorted_entries.
    simpl. rewrite lookup_insert_Some, lookup_singleton_Some.
    intros [_ [[<- <-]|[_ [<- <-]]]]; vm_compute; congruence.
  - vm_compute; split; congruence.
  - vm_compute; congruence.
  - reflexivity.
Defined.
