(* ===== verification/Dns.v ===== *)
(** * Addresses of the members ([storage/cluster/dns])

    The members of the gossip cluster are given as addresses, some of which
    have to be looked up first: [dns+host:port], [dnssrv+host] and
    [dnssrvnoa+host].  The resolver keeps the last answer for every address.
    What the source uses of [net] and [strings] comes first. *)

From S2P Require Import Prelude GoStd Effects.

(** ** net and strings *)

Definition colon : byte := Byte.x3a.
Definition lbracket : byte := Byte.x5b.
Definition rbracket : byte := Byte.x5d.
Definition plus : byte := Byte.x2b.

(** [strings.IndexByte], and the index of the last occurrence. *)
Fixpoint IndexByte (s : bytes) (c : byte) : option nat :=
  match s with
  | [] => None
  | b :: s' => if decide (b = c) then Some 0%nat else S <$> IndexByte s' c
  end.
Fixpoint LastIndexByte (s : bytes) (c : byte) : option nat :=
  match s with
  | [] => None
  | b :: s' => match LastIndexByte s' c with
               | Some i => Some (S i)
               | None => if decide (b = c) then Some 0%nat else None
               end
  end.

(** [net.SplitHostPort]. *)
Definition SplitHostPort (hostport : bytes) : res (bytes * bytes) :=
  match LastIndexByte hostport colon with
  | None => Err ErrMissingPort
  | Some i =>
      '(host, j, k) ← (if decide (head hostport = Some lbracket) then
          match IndexByte hostport rbracket with
          | None => Err ErrMissingBracket
          | Some end_ =>
              if decide (S end_ = length hostport) then Err ErrMissingPort
              else if decide (S end_ = i) then Ok (take (end_ - 1) (drop 1 hostport), 1%nat, S end_)
              else if decide (hostport !! S end_ = Some colon) then Err ErrTooManyColons
              else Err ErrMissingPort
          end
        else
          let host := take i hostport in
          if decide (colon ∈ host) then Err ErrTooManyColons else Ok (host, 0%nat, 0%nat));
      if decide (lbracket ∈ drop j hostport) then Err ErrUnexpectedBracket
      else if decide (rbracket ∈ drop k hostport) then Err ErrUnexpectedBracket
      else Ok (host, drop (S i) hostport)
  end.

(** [net.JoinHostPort]. *)
Definition JoinHostPort (host port : bytes) : bytes :=
  if decide (colon ∈ host) then [lbracket] ++ host ++ [rbracket; colon] ++ port
  else host ++ [colon] ++ port.

(** [strings.Split(s, "//")]. *)
Fixpoint split_slashes (s : bytes) : list bytes :=
  match s with
  | [] => [[]]
  | c :: s' =>
      let skip := match split_slashes s' with [] => [[c]] | x :: xs => (c :: x) :: xs end in
      match s' with
      | d :: s'' => if decide (c = slash /\ d = slash) then [] :: split_slashes s'' else skip
      | [] => skip
      end
  end.

(** ** Queries ([dns.go]) *)

(** [GetQTypeName]: what precedes and what follows the first plus. *)
Definition GetQTypeName (addr : bytes) : bytes * bytes :=
  match IndexByte addr plus with
  | None => ([], addr)
  | Some i => (take i addr, drop (S i) addr)
  end.
Definition IsDynamicNode (addr : bytes) : bool := negb (bool_decide ((GetQTypeName addr).1 = [])).

Definition QType_A : bytes := str "dns".
Definition QType_SRV : bytes := str "dnssrv".
Definition QType_SRVNoA : bytes := str "dnssrvnoa".

(** [ipLookupResolver]: the addresses, as [IPAddr.String] writes them, and the
    targets with their ports; an error may come with answers. *)
Inductive lookup_ev : Type -> Type :=
  | LookupIPAddr (host : bytes) : lookup_ev (list bytes * option error)
  | LookupSRV (name : bytes) : lookup_ev (list (bytes * Z) * option error).

Definition dnsIdNotFound (err : option error) : bool := bool_decide (err = Some ErrDNSNotFound).

Definition appendScheme (scheme host : bytes) : bytes :=
  if decide (scheme = []) then host else scheme ++ [slash; slash] ++ host.

Open Scope prog_scope.

(** An error other than not found ends the lookup. *)
Definition check_lookup (err : option error) : M lookup_ev unit :=
  match err with
  | Some e => if dnsIdNotFound err then M_ret tt else M_err e
  | None => M_ret tt
  end.

Section Resolve.
Context (scheme port : bytes).

Fixpoint resolve_records (noA : bool) (recs : list (bytes * Z)) (acc : list bytes) : M lookup_ev (list bytes) :=
  match recs with
  | [] => M_ret acc
  | (target, recPort) :: recs' =>
      let resPort := if decide (port = []) then FormatUint recPort else port in
      if noA then resolve_records noA recs' (acc ++ [appendScheme scheme (JoinHostPort target resPort)])
      else
        x <~ perform (LookupIPAddr target);
        let '(resIPs, err) := x in
        _ <- check_lookup err;
        resolve_records noA recs' (acc ++ map (fun ip => appendScheme scheme (JoinHostPort ip resPort)) resIPs)
  end.
End Resolve.

(** The scheme and the rest of a name. *)
Definition split_scheme (name : bytes) : bytes * bytes :=
  match split_slashes name with
  | scheme :: rest :: _ => (scheme, rest)
  | _ => ([], name)
  end.

(** [dnsResolver.Resolve]. *)
Definition dnsResolver_Resolve (name qtype : bytes) : M lookup_ev (list bytes) :=
  let '(scheme, name) := split_scheme name in
  let '(host, port) := match SplitHostPort name with Ok hp => hp | _ => (name, []) end in
  if decide (qtype = QType_A) then
    if decide (port = []) then M_err ErrMissingPort else
    x <~ perform (LookupIPAddr host);
    let '(ips, err) := x in
    _ <- check_lookup err;
    M_ret (map (fun ip => appendScheme scheme (JoinHostPort ip port)) ips)
  else if decide (qtype = QType_SRV \/ qtype = QType_SRVNoA) then
    x <~ perform (LookupSRV host);
    let '(recs, err) := x in
    _ <- check_lookup err;
    resolve_records scheme port (bool_decide (qtype = QType_SRVNoA)) recs []
  else M_err ErrInvalidLookupScheme.

(** ** The cache ([resolver.go]) *)

Abbreviation dns_cache := (gmap bytes (list bytes)).

(** The interface [resolver]. *)
Inductive resolver_ev : Type -> Type :=
  | Resolve (name qtype : bytes) : resolver_ev (res (list bytes)).

(** The loop of [Resolver.Resolve]: the new cache and the failed lookups. *)
Fixpoint resolve_addrs (cache : dns_cache) (addrs : list bytes) (resolvedAddrs : dns_cache) (lookupErrs : list error)
    : M resolver_ev (dns_cache * list error) :=
  match addrs with
  | [] => M_ret (resolvedAddrs, lookupErrs)
  | addr :: addrs' =>
      let '(qtype, name) := GetQTypeName addr in
      if decide (qtype = []) then resolve_addrs cache addrs' (<[name := [name]]> resolvedAddrs) lookupErrs
      else
        r <~ perform (Resolve name qtype);
        match r with
        | Ok resolved => resolve_addrs cache addrs' (<[addr := resolved]> resolvedAddrs) lookupErrs
        | Err e => resolve_addrs cache addrs' (<[addr := default [] (cache !! addr)]> resolvedAddrs) (lookupErrs ++ [e])
        | Panic => lift Panic
        end
  end.
Definition NewResolver : dns_cache := ∅.
Definition Resolver_Resolve (cache : dns_cache) (addrs : list bytes) : M resolver_ev (dns_cache * list error) :=
  resolve_addrs cache addrs ∅ [].

(** [Resolver.Addresses]; the order of a Go map is not specified, the model
    fixes one. *)
Definition Resolver_Addresses (cache : dns_cache) : list bytes := concat (map_to_list cache).*2.

(** [discoverMembers] of the cluster: the addresses as they are given, and
    those that are looked up. *)
Definition discoverMembers (cache : dns_cache) (members : list bytes) : M resolver_ev (dns_cache * list bytes) :=
  if decide (members = []) then M_ret (cache, []) else
  let resolve := filter (fun m => IsDynamicNode m = true) members in
  let ms := filter (fun m => IsDynamicNode m = false) members in
  '(cache, _) <- Resolver_Resolve cache resolve;
  M_ret (cache, ms ++ Resolver_Addresses cache).

(** ** Lemmas *)

Lemma IndexByte_spec s c i :
  IndexByte s c = Some i <-> exists a b, s = a ++ c :: b /\ length a = i /\ c ∉ a.
Proof.
  revert i. induction s as [|x s IH]; intros i; cbn [IndexByte].
  { split; [done|]. intros (a & b & E & _). by destruct a. }
  case_decide as Hx.
  - subst x. split; [intros [= <-]; exists [], s; split_and!; [done..|apply not_elem_of_nil]|].
    intros (a & b & E & <- & Hn). destruct a as [|y a]; [done|]. injection E as <- _. destruct Hn. left.
  - rewrite fmap_Some. split.
    + intros (j & (a & b & -> & <- & Hn)%IH & ->). exists (x :: a), b. split_and!; [done..|]. apply not_elem_of_cons. auto.
    + intros (a & b & E & <- & Hn). destruct a as [|y a]; [injection E as -> _; done|]. injection E as <- E.
      apply not_elem_of_cons in Hn as [_ Hn]. exists (length a). split; [|done]. apply IH. by exists a, b.
Qed.

Lemma IndexByte_None s c : IndexByte s c = None <-> c ∉ s.
Proof.
  induction s as [|x s IH]; cbn [IndexByte]; [split; [intros _; apply not_elem_of_nil|done]|].
  rewrite not_elem_of_cons. case_decide as Hx; [split; [done|intros [? _]; congruence]|].
  rewrite fmap_None, IH. split; [auto|tauto].
Qed.

Lemma LastIndexByte_app a c b : c ∉ b -> LastIndexByte (a ++ c :: b) c = Some (length a).
Proof.
  intros Hb. assert (LastIndexByte b c = None) as Hn.
  { induction b as [|x b IH]; [done|]. apply not_elem_of_cons in Hb as [Hx Hb]. cbn. rewrite IH by done.
    by rewrite decide_False by congruence. }
  induction a as [|x a IH]; cbn; [by rewrite Hn, decide_True|]. by rewrite IH.
Qed.

(** A host and a port that are joined come apart again, IPv6 addresses
    included. *)
Lemma SplitHostPort_JoinHostPort host port :
  lbracket ∉ host -> rbracket ∉ host -> colon ∉ port -> lbracket ∉ port -> rbracket ∉ port ->
  SplitHostPort (JoinHostPort host port) = Ok (host, port).
Proof.
  intros Hl Hr Hc Hl' Hr'. unfold JoinHostPort. destruct (decide (colon ∈ host)) as [Hin|Hin].
  - cbn [app]. unfold SplitHostPort.
    assert (LastIndexByte (lbracket :: host ++ rbracket :: colon :: port) colon = Some (length host + 2)%nat) as ->.
    { replace (lbracket :: host ++ rbracket :: colon :: port) with ((lbracket :: host ++ [rbracket]) ++ colon :: port)
        by (cbn [app]; by rewrite <- app_assoc).
      rewrite LastIndexByte_app by done. f_equal. cbn [length]. rewrite length_app. cbn [length]. lia. }
    cbn [head]. rewrite decide_True by done.
    assert (IndexByte (lbracket :: host ++ rbracket :: colon :: port) rbracket = Some (S (length host))) as ->.
    { apply IndexByte_spec. exists (lbracket :: host), (colon :: port). split_and!; [done..|]. apply not_elem_of_cons. done. }
    rewrite decide_False by (cbn; rewrite length_app; cbn; lia). rewrite decide_True by lia. cbn [mbind res_bind].
    assert (forall n, drop (S n) (lbracket :: host ++ rbracket :: colon :: port) = drop n (host ++ rbracket :: colon :: port)) as Hdr by done.
    rewrite !Hdr, drop_0. replace (S (length host) - 1)%nat with (length host) by lia. rewrite take_app_length.
    assert (drop (S (length host)) (host ++ rbracket :: colon :: port) = colon :: port) as ->.
    { rewrite drop_app_ge by lia. by replace (S (length host) - length host)%nat with 1%nat by lia. }
    rewrite decide_False by (rewrite elem_of_app, !elem_of_cons; intuition discriminate).
    rewrite decide_False by (rewrite !elem_of_cons; intuition discriminate).
    rewrite drop_app_ge by lia. by replace (length host + 2 - length host)%nat with 2%nat by lia.
  - cbn [app]. unfold SplitHostPort. rewrite LastIndexByte_app by done.
    rewrite decide_False by (destruct host as [|x host]; [done|]; intros [= ->]; destruct Hl; left).
    rewrite take_app_length, decide_False by done. cbn [mbind res_bind]. rewrite !drop_0.
    rewrite decide_False by (rewrite elem_of_app, !elem_of_cons; intuition discriminate).
    rewrite decide_False by (rewrite elem_of_app, !elem_of_cons; intuition discriminate).
    assert (drop (S (length host)) (host ++ colon :: port) = port) as ->; [|done].
    rewrite drop_app_ge by lia. by replace (S (length host) - length host)%nat with 1%nat by lia.
Qed.

(** An address is its query type and its name. *)
Lemma GetQTypeName_spec q n : plus ∉ q -> GetQTypeName (q ++ plus :: n) = (q, n).
Proof.
  intros Hq. unfold GetQTypeName. rewrite (proj2 (IndexByte_spec _ _ (length q))) by (by exists q, n).
  rewrite take_app_length, drop_app_ge by lia. by replace (S (length q) - length q)%nat with 1%nat by lia.
Qed.

(** *** What a lookup gives *)

(** A name server with fixed answers. *)
Definition server_handles (ips : bytes -> list bytes * option error) (srv : bytes -> list (bytes * Z) * option error)
    (s : unit) X (e : lookup_ev X) : X -> unit -> Prop :=
  match e with
  | LookupIPAddr host => fun x _ => x = ips host
  | LookupSRV name => fun x _ => x = srv name
  end.

(** The addresses of the targets, with the given port or their own. *)
Definition srv_addresses (ips : bytes -> list bytes * option error) (scheme port : bytes) (noA : bool) (rec : bytes * Z) : list bytes :=
  let resPort := if decide (port = []) then FormatUint rec.2 else port in
  map (fun h => appendScheme scheme (JoinHostPort h resPort)) (if noA then [rec.1] else (ips rec.1).1).

Lemma resolve_records_spec ips srv scheme port noA recs acc s s' out :
  exec (server_handles ips srv) (resolve_records scheme port noA recs acc) s (Ok out) s' ->
  out = acc ++ mbind (srv_addresses ips scheme port noA) recs.
Proof.
  revert acc s. induction recs as [|[target p] recs IH]; intros acc s; cbn [resolve_records].
  { intros [[= <-] _]. by rewrite app_nil_r. }
  destruct noA.
  - intros ->%IH. unfold srv_addresses at 2. cbn. by rewrite <- app_assoc.
  - intros ([l err] & s1 & Hx%exec_perform & H)%exec_bind. cbn in Hx. apply exec_M_bind in H as (? & s2 & _ & H).
    apply IH in H as ->. unfold srv_addresses at 2. cbn. rewrite <- Hx. cbn. by rewrite <- app_assoc.
Qed.

(** *** What the cache remembers *)

(** A round of lookups that have the answers of [look]. *)
Definition look_handles (look : bytes -> bytes -> res (list bytes)) (s : unit) X (e : resolver_ev X) : X -> unit -> Prop :=
  match e with Resolve name qtype => fun x s' => x = look name qtype end.

Definition look_addr (look : bytes -> bytes -> res (list bytes)) (addr : bytes) : res (list bytes) :=
  let '(qtype, name) := GetQTypeName addr in look name qtype.

(** What a round leaves in the cache for an address that is looked up. *)
Definition remembered (look : bytes -> bytes -> res (list bytes)) (old : list bytes) (addr : bytes) : list bytes :=
  match look_addr look addr with Ok l => l | _ => old end.

Lemma resolve_addrs_spec look cache addrs acc errs s out s' :
  (forall n q, look n q <> Panic) -> Forall (fun a => IsDynamicNode a = true) addrs ->
  exec (look_handles look) (resolve_addrs cache addrs acc errs) s out s' ->
  exists cache' errs', out = Ok (cache', errs')
    /\ (forall a, a ∈ addrs -> cache' !! a = Some (remembered look (default [] (cache !! a)) a))
    /\ (forall a, a ∉ addrs -> cache' !! a = acc !! a).
Proof.
  intros Hlook Hdyn. revert acc errs s. induction Hdyn as [|addr addrs Hd _ IH]; intros acc errs s; cbn [resolve_addrs].
  { intros [<- _]. exists acc, errs. split_and!; [done|by intros a ?%not_elem_of_nil|done]. }
  set (new := remembered look (default [] (cache !! addr)) addr) in *.
  assert (forall errs1 s1, exec (look_handles look) (resolve_addrs cache addrs (<[addr := new]> acc) errs1) s1 out s' ->
    exists cache' errs', out = Ok (cache', errs')
    /\ (forall a, a ∈ addr :: addrs -> cache' !! a = Some (remembered look (default [] (cache !! a)) a))
    /\ (forall a, a ∉ addr :: addrs -> cache' !! a = acc !! a)) as Hnext.
  { intros errs1 s1 (cache' & errs' & -> & H1 & H2)%IH. exists cache', errs'. split_and!; [done| |].
    - intros a Ha. destruct (decide (a ∈ addrs)) as [?|Hn]; [by apply H1|]. apply elem_of_cons in Ha as [->|?]; [|done].
      rewrite H2 by done. by rewrite lookup_insert_eq.
    - intros a [Hne Hn]%not_elem_of_cons. rewrite H2 by done. by rewrite lookup_insert_ne. }
  unfold new, remembered, look_addr, IsDynamicNode in *. destruct (GetQTypeName addr) as [qtype name]. cbn [fst] in *.
  rewrite negb_true_iff, bool_decide_eq_false in Hd. rewrite decide_False by done.
  intros (x & s1 & Hx & H). cbn in Hx. subst x. destruct (look name qtype) eqn:El; [by eapply Hnext..|by destruct (Hlook name qtype)].
Qed.

(** The cache after rounds of lookups of the same addresses, oldest first. *)
Inductive resolved (addrs : list bytes) : list (bytes -> bytes -> res (list bytes)) -> dns_cache -> Prop :=
  | resolved_none : resolved addrs [] NewResolver
  | resolved_round looks look cache cache' errs s s' :
      resolved addrs looks cache ->
      exec (look_handles look) (Resolver_Resolve cache addrs) s (Ok (cache', errs)) s' ->
      resolved addrs (looks ++ [look]) cache'.

(** The answer to the last lookup that succeeded. *)
Definition last_answer (addr : bytes) (looks : list (bytes -> bytes -> res (list bytes))) : list bytes :=
  foldl (fun old look => remembered look old addr) [] looks.

Lemma resolved_lookup addrs looks cache addr :
  Forall (fun a => IsDynamicNode a = true) addrs -> Forall (fun look : bytes -> bytes -> res (list bytes) => forall n q, look n q <> Panic) looks ->
  resolved addrs looks cache -> addr ∈ addrs -> default [] (cache !! addr) = last_answer addr looks.
Proof.
  intros Hd Hp H Ha. revert Hp. induction H as [|looks look cache cache' errs s s' _ IH Hx]; intros Hp; [done|].
  apply Forall_app in Hp as [Hp [Hl _]%Forall_cons]. apply resolve_addrs_spec in Hx as (c & e & [= <- <-] & H1 & _); [|done..].
  rewrite (H1 addr Ha). unfold last_answer. rewrite foldl_app. cbn. by rewrite IH.
Qed.

(** C35. The members that are joined: after any rounds of lookups, some of which
    fail, [discoverMembers] gives the static addresses as they are and, for
    every address that is looked up, the answer of its last lookup that
    succeeded; nothing else.  In particular a name server that stops answering
    takes no known member away. *)
Theorem members_remembered members looks look cache s out s' :
  Forall (fun l : bytes -> bytes -> res (list bytes) => forall n q, l n q <> Panic) (looks ++ [look]) ->
  resolved (filter (fun m => IsDynamicNode m = true) members) looks cache ->
  exec (look_handles look) (discoverMembers cache members) s out s' ->
  exists cache' ms, out = Ok (cache', ms)
    /\ (members <> [] -> resolved (filter (fun m => IsDynamicNode m = true) members) (looks ++ [look]) cache')
    /\ forall a, a ∈ ms <-> exists m, m ∈ members /\ (if IsDynamicNode m then a ∈ last_answer m (looks ++ [look]) else a = m).
Proof.
  intros Hp Hr H. unfold discoverMembers in H. case_decide as Hm.
  { destruct H as [<- _]. exists cache, []. split_and!; [done..|]. subst members. intros a. split.
    - by intros ?%not_elem_of_nil.
    - by intros (m & ?%not_elem_of_nil & _). }
  set (dyn := filter (fun m => IsDynamicNode m = true) members) in *.
  assert (Forall (fun a => IsDynamicNode a = true) dyn) as Hd.
  { apply Forall_forall. intros a [? _]%list_elem_of_filter. done. }
  pose proof (proj1 (Forall_app _ _ _) Hp) as [_ [Hl _]%Forall_cons].
  apply exec_M_call in H as (x & s1 & Hx & H). pose proof Hx as Hx'.
  apply resolve_addrs_spec in Hx as (cache' & errs & -> & H1 & H2); [|done..]. destruct H as [<- <-].
  assert (resolved dyn (looks ++ [look]) cache') as Hr' by (by eapply resolved_round).
  exists cache', (filter (fun m => IsDynamicNode m = false) members ++ Resolver_Addresses cache'). split_and!; [done..|].
  intros a. rewrite elem_of_app, list_elem_of_filter. unfold Resolver_Addresses.
  rewrite (list_elem_of_In (concat _)), in_concat. split.
  - intros [[Hs Ha]|(l & Hl' & Ha)]; [exists a; by rewrite Hs|].
    apply list_elem_of_In, list_elem_of_fmap in Hl' as ([m l'] & -> & Hin%elem_of_map_to_list). cbn in *.
    assert (m ∈ dyn) as Hmd.
    { destruct (decide (m ∈ dyn)) as [?|Hn]; [done|]. rewrite H2 in Hin by done. done. }
    pose proof (resolved_lookup dyn _ cache' m Hd Hp Hr' Hmd) as E. rewrite Hin in E. cbn in E. subst l'.
    apply list_elem_of_filter in Hmd as [Hdm Hmm]. exists m. rewrite Hdm. split; [done|]. by apply list_elem_of_In.
  - intros (m & Hmm & Ha). destruct (IsDynamicNode m) eqn:Em; [|by subst; left]. right.
    assert (m ∈ dyn) as Hmd by (by apply list_elem_of_filter).
    exists (last_answer m (looks ++ [look])). split; [|by apply list_elem_of_In]. apply list_elem_of_In, list_elem_of_fmap.
    exists (m, last_answer m (looks ++ [look])). split; [done|]. apply elem_of_map_to_list.
    rewrite <- (resolved_lookup dyn _ cache' m Hd Hp Hr' Hmd). by rewrite (H1 m Hmd).
Qed.

(** A name that is looked up twice, the second time in vain. *)
Definition ex_member : bytes := str "dns+node:7000".
Definition ex_look (_ _ : bytes) : res (list bytes) := Ok [str "10.0.0.1:7000"].
Definition ex_no_look (_ _ : bytes) : res (list bytes) := Err (ErrExternal 1).

Definition ex_cached : dns_cache := {[ex_member := [str "10.0.0.1:7000"]]}.

Lemma ex_resolved : resolved (filter (fun m => IsDynamicNode m = true) [ex_member; str "10.0.0.2:7000"]) [ex_look] ex_cached.
Proof.
  apply (resolved_round _ [] ex_look NewResolver ex_cached [] tt tt); [constructor|].
  exists (Ok [str "10.0.0.1:7000"]), tt. split; [done|]. by split.
Qed.

Lemma ex_discover :
  exec (look_handles ex_no_look) (discoverMembers ex_cached [ex_member; str "10.0.0.2:7000"]) tt
    (Ok (ex_cached, [str "10.0.0.2:7000"; str "10.0.0.1:7000"])) tt.
Proof.
  assert (Resolver_Addresses ex_cached = [str "10.0.0.1:7000"]) as Ha.
  { unfold Resolver_Addresses, ex_cached. by rewrite map_to_list_singleton. }
  exists (Err (ErrExternal 1)), tt. split; [done|].
  change (exec (look_handles ex_no_look) (Ret (Ok (ex_cached, [str "10.0.0.2:7000"] ++ Resolver_Addresses ex_cached)))
    tt (Ok (ex_cached, [str "10.0.0.2:7000"; str "10.0.0.1:7000"])) tt).
  rewrite Ha. split; reflexivity.
Qed.

Lemma members_remembered_witness :
  exists cache' ms, Ok (ex_cached, [str "10.0.0.2:7000"; str "10.0.0.1:7000"]) = Ok (cache', ms)
    /\ ([ex_member; str "10.0.0.2:7000"] <> [] ->
        resolved (filter (fun m => IsDynamicNode m = true) [ex_member; str "10.0.0.2:7000"]) ([ex_look] ++ [ex_no_look]) cache')
    /\ forall a, a ∈ ms <-> exists m, m ∈ [ex_member; str "10.0.0.2:7000"]
         /\ (if IsDynamicNode m then a ∈ last_answer m ([ex_look] ++ [ex_no_look]) else a = m).
Proof.
  refine (members_remembered [ex_member; str "10.0.0.2:7000"] [ex_look] ex_no_look ex_cached tt _ tt _ ex_resolved ex_discover).
  by repeat constructor.
Defined.
