(* ===== verification/Cluster.v ===== *)
(** * The gossip cluster ([storage/cluster/cluster.go])

    Nodes exchange the states of their shards and send each other messages
    over a gossip library (memberlist), of which the source is the delegate:
    [LocalState] and [MergeRemoteState] exchange views, [NotifyMsg] hands a
    message to the routine that dispatches it to listeners.  The library is
    outside the model: what it does with a node is the steps of
    [ClusterCorrect].  Logging is left out. *)

From S2P Require Import Prelude GoStd Effects View Dns.

Open Scope prog_scope.

(** ** Data *)

Record Message := mkMessage { msg_Key : bytes; msg_Payload : bytes }.

#[export] Instance Message_eq_dec : EqDecision Message.
Proof. solve_decision. Defined.
#[export] Instance Message_countable : Countable Message.
Proof. apply (inj_countable' (fun m => (msg_Key m, msg_Payload m)) (fun '(k, p) => mkMessage k p)). by intros []. Defined.

(** [Info], the fields that are used. *)
Record Info := mkClusterInfo {
  in_NodeHostID : bytes; in_NodeID : Z; in_RaftAddress : bytes; in_ClientAddress : bytes;
  in_ShardInfoList : list ShardInfo
}.

Record NodeMeta := mkNodeMeta {
  nm_ID : bytes; nm_NodeID : Z; nm_ClientAddress : bytes; nm_RaftAddress : bytes; nm_MemberAddress : bytes
}.
Definition NodeMeta_zero : NodeMeta := mkNodeMeta [] 0 [] [] [].

#[export] Instance NodeMeta_eq_dec : EqDecision NodeMeta.
Proof. solve_decision. Defined.

(** [memberlist.Node], the fields that are used, and [Node]. *)
Record mlNode := mkMlNode { mn_Name : bytes; mn_Meta : bytes }.
Record Node := mkNode { nd_Node : mlNode; nd_Meta : NodeMeta }.

(** A shard that JSON can represent. *)
Definition shard_ok (s : ShardView) : bool :=
  let u64 z := (0 <=? z) && (z <? 2 ^ 64) in
  u64 (sv_ShardID s) && u64 (sv_ConfigChangeIndex s) && u64 (sv_LeaderID s) && u64 (sv_Term s)
  && forallb (fun '(i, a) => u64 i && utf8_valid a) (map_to_list (sv_Nodes s)).
Definition meta_ok (m : NodeMeta) : bool :=
  utf8_valid (nm_ID m) && (0 <=? nm_NodeID m) && (nm_NodeID m <? 2 ^ 64) && utf8_valid (nm_ClientAddress m)
  && utf8_valid (nm_RaftAddress m) && utf8_valid (nm_MemberAddress m).

(** What is encoded as JSON: [clusterState], messages (the payload, as bytes,
    in base 64) and the meta data of a node.  A decoder that fails may have
    filled part of the value. *)
Class ClusterJson := {
  cj_state :: Json (list ShardView); cj_state_laws :: JsonLaws (list ShardView) (fun l => forallb shard_ok l = true);
  cj_state_partial : bytes -> list ShardView; cj_state_partial_ok b : forallb shard_ok (cj_state_partial b) = true;
  cj_message :: Json Message; cj_message_laws :: JsonLaws Message (fun m => utf8_valid (msg_Key m) = true);
  cj_meta :: Json NodeMeta; cj_meta_laws :: JsonLaws NodeMeta (fun m => meta_ok m = true);
  cj_meta_partial : bytes -> NodeMeta
}.

(** ** Messages *)

Definition Message_Name (m : Message) : bytes := msg_Key m.
(** [Invalidates]: the other broadcast by its name, if it has one. *)
Definition Message_Invalidates (m : Message) (b : option bytes) : bool :=
  match b with Some name => bool_decide (Message_Name m = name) | None => false end.

Section Cluster.
Context {J : ClusterJson}.

Definition Message_Message (m : Message) : bytes := res_get [] (json_Marshal m).

(** ** The delegate *)

Definition delegate_NodeMeta (meta : NodeMeta) : bytes := res_get [] (json_Marshal meta).

(** [NotifyMsg]: what is put into the channel. *)
Definition NotifyMsg (bs : bytes) : option Message :=
  match json_Unmarshal (A := Message) bs with Ok m => Some m | _ => None end.

(** [LocalState]: the view with the shards of the node, and its encoding. *)
Definition LocalState (shuffle : list ShardView -> list ShardView) (infos : list ShardInfo) (v : shardView) : shardView * bytes :=
  let v := update v (toShardViewList infos) in
  (v, res_get [] (json_Marshal (copy shuffle v))).

Definition MergeRemoteState (buf : bytes) (v : shardView) : shardView :=
  let remote := match json_Unmarshal (A := list ShardView) buf with Ok l => l | _ => cj_state_partial buf end in
  update v remote.

Definition toNode (node : mlNode) : Node :=
  mkNode node (match json_Unmarshal (A := NodeMeta) (mn_Meta node) with Ok m => m | _ => cj_meta_partial (mn_Meta node) end).

(** ** Starting ([New]) *)

(** [memberlist.Config], the fields that are set. *)
Record mlConfig := mkMlConfig {
  mc_Name : bytes; mc_BindAddr : bytes; mc_BindPort : Z; mc_AdvertiseAddr : bytes; mc_AdvertisePort : Z
}.

(** The value of [strconv.Atoi], whose error is not looked at. *)
Definition Atoi (s : bytes) : Z :=
  let '(neg, ds) := match s with
                    | c :: ds => if decide (c = Byte.x2d) then (true, ds) else if decide (c = Byte.x2b) then (false, ds) else (false, s)
                    | [] => (false, [])
                    end in
  match ParseUint ds with
  | Ok un => if neg then Z.max (- un) (- 2 ^ 63) else Z.min un (2 ^ 63 - 1)
  | Err ErrRange => if neg then - 2 ^ 63 else 2 ^ 63 - 1
  | _ => 0
  end.

(** [New], with the configuration that the library starts from: the
    configuration it is given and the meta data of the node. *)
Definition cluster_New (default_ : mlConfig) (bindAddr advAddr : bytes) (info : Info) : res (mlConfig * NodeMeta) :=
  let name := in_NodeHostID info ++ str "/" ++ FormatUint (in_NodeID info) in
  '(host, port) ← SplitHostPort bindAddr;
  '(aAddr, aPort) ← (if decide (advAddr <> []) then
                       '(aHost, aPort) ← SplitHostPort bindAddr; Ok (aHost, Atoi aPort)
                     else Ok (mc_AdvertiseAddr default_, mc_AdvertisePort default_));
  Ok (mkMlConfig name host (Atoi port) aAddr aPort,
      mkNodeMeta (in_NodeHostID info) (in_NodeID info) (in_ClientAddress info) (in_RaftAddress info) bindAddr).
End Cluster.

(** ** Calls of the library *)

Inductive cluster_ev : Type -> Type :=
  | CResolver {X} (e : resolver_ev X) : cluster_ev X
  | CInfo : cluster_ev (list ShardInfo)
  (** The view is shared between the delegate and the cluster. *)
  | CUpdateView (us : list ShardView) : cluster_ev unit
  | CUpdateNode : cluster_ev (res unit)
  | CJoin (addrs : list bytes) : cluster_ev (res Z)
  | CNumQueued : cluster_ev Z
  | CNumMembers : cluster_ev Z
  (** Milliseconds. *)
  | CNow : cluster_ev Z
  | CSleep (ms : Z) : cluster_ev unit
  | CLeave : cluster_ev (res unit)
  | CStop : cluster_ev unit
  | CShutdown : cluster_ev (res unit).

(** [Notify]. *)
Definition Notify : prog cluster_ev unit :=
  infos <~ perform CInfo;
  _ <~ perform (CUpdateView (toShardViewList infos));
  _ <~ perform CUpdateNode;
  Ret tt.

(** The calls of one kind as calls of another. *)
Fixpoint translate {E F : Type -> Type} (f : forall X, E X -> F X) {A} (p : prog E A) : prog F A :=
  match p with
  | Ret a => Ret a
  | Vis e k => Vis (f _ e) (fun x => translate f (k x))
  end.

(** A round of joining: the addresses are resolved and joined.  The result
    says whether joining succeeded; [discover] stops when it fails. *)
Definition join_round (cache : dns_cache) (members : list bytes) : M cluster_ev (dns_cache * bool) :=
  '(cache, addrs) <- translate (fun X e => CResolver e) (discoverMembers cache members);
  r <~ perform (CJoin addrs);
  M_ret (cache, succeeds r).

(** [Start], whose error is not looked at. *)
Definition cluster_Start (cache : dns_cache) (join : list bytes) : M cluster_ev dns_cache :=
  '(cache, _) <- join_round cache join;
  M_ret cache.

(** The field [addrs], which [New] leaves empty and nothing sets; a tick of
    [discover]. *)
Definition New_addrs : list bytes := [].
Definition discover_tick (cache : dns_cache) : M cluster_ev (dns_cache * bool) := join_round cache New_addrs.

(** [Close]: waits for queued broadcasts, at most ten seconds. *)
Fixpoint drain (fuel : nat) (waitTimeout : Z) : M cluster_ev unit :=
  match fuel with
  | O => M_err ErrOutOfFuel
  | S fuel' =>
      queued <~ perform CNumQueued;
      if negb (0 <? queued) then M_ret tt else
      members <~ perform CNumMembers;
      if negb (1 <? members) then M_ret tt else
      now <~ perform CNow;
      if negb (now <? waitTimeout) then M_ret tt else
      _ <~ perform (CSleep 250);
      drain fuel' waitTimeout
  end.
Definition cluster_Close (fuel : nat) : M cluster_ev unit :=
  now <~ perform CNow;
  _ <- drain fuel (now + 10 * 1000);
  _ <~ perform CNumQueued;
  _ <- perform CLeave;
  _ <~ perform CStop;
  perform CShutdown.

(** ** Listeners *)

(** A listener: the channel, of which it handles one message at a time, the
    messages it has handled, and how many messages had been offered to the
    listeners of its kind before it was registered. *)
Record listener := mkListener { l_ch : list Message; l_handled : list Message; l_from : nat }.

(** Where the routine [dispatch] is: waiting; with a message; delivering it to
    the listener of its key, with the lock of the key listeners; between the
    two; delivering it to the listeners of the prefixes that are left, with
    the lock of the prefix listeners. *)
Inductive dispatcher :=
  | DIdle
  | DTaken (m : Message)
  | DKey (m : Message)
  | DMid (m : Message)
  | DPrefix (m : Message) (prefixes : list bytes).

(** The cluster: the channel [msgs], the routine, the listeners by key and by
    prefix; and the messages that were offered to them so far. *)
Record cstate := mkC {
  c_msgs : list Message;
  c_disp : dispatcher;
  c_keys : gmap bytes listener;
  c_prefixes : gmap bytes listener;
  c_keyed : list Message;
  c_prefixed : list Message
}.
Definition c_init : cstate := mkC [] DIdle ∅ ∅ [] [].

Definition push (m : Message) (l : listener) : listener := mkListener (l_ch l ++ [m]) (l_handled l) (l_from l).
Definition listener_handle (l : listener) : listener :=
  match l_ch l with m :: ch => mkListener ch (l_handled l ++ [m]) (l_from l) | [] => l end.

(** [WatchKey] and [WatchPrefix]: a new listener in place of an earlier one. *)
Definition WatchKey (k : bytes) (keyed : list Message) (ks : gmap bytes listener) : gmap bytes listener :=
  <[k := mkListener [] [] (length keyed)]> ks.
Definition WatchPrefix (p : bytes) (prefixed : list Message) (ps : gmap bytes listener) : gmap bytes listener :=
  <[p := mkListener [] [] (length prefixed)]> ps.

(** A send blocks while the channel, which holds one message, is full; a range
    over a map visits its keys in any order. *)
Inductive c_step : cstate -> cstate -> Prop :=
  | step_notify m d ks ps ck cp : c_step (mkC [] d ks ps ck cp) (mkC [m] d ks ps ck cp)
  | step_take m ms ks ps ck cp : c_step (mkC (m :: ms) DIdle ks ps ck cp) (mkC ms (DTaken m) ks ps ck cp)
  | step_key_lock ms m ks ps ck cp :
      c_step (mkC ms (DTaken m) ks ps ck cp) (mkC ms (if decide (is_Some (ks !! msg_Key m)) then DKey m else DMid m) ks ps (ck ++ [m]) cp)
  | step_key_send ms m l ks ps ck cp :
      ks !! msg_Key m = Some l -> l_ch l = [] ->
      c_step (mkC ms (DKey m) ks ps ck cp) (mkC ms (DMid m) (<[msg_Key m := push m l]> ks) ps ck cp)
  | step_prefix_lock ms m order ks ps ck cp :
      order ≡ₚ filter (fun p => HasPrefix (msg_Key m) p = true) (map_to_list ps).*1 ->
      c_step (mkC ms (DMid m) ks ps ck cp) (mkC ms (DPrefix m order) ks ps ck (cp ++ [m]))
  | step_prefix_send ms m p order l ks ps ck cp :
      ps !! p = Some l -> l_ch l = [] ->
      c_step (mkC ms (DPrefix m (p :: order)) ks ps ck cp) (mkC ms (DPrefix m order) ks (<[p := push m l]> ps) ck cp)
  | step_prefix_done ms m ks ps ck cp : c_step (mkC ms (DPrefix m []) ks ps ck cp) (mkC ms DIdle ks ps ck cp)
  | step_handle_key ms d k l ks ps ck cp :
      ks !! k = Some l -> c_step (mkC ms d ks ps ck cp) (mkC ms d (<[k := listener_handle l]> ks) ps ck cp)
  | step_handle_prefix ms d p l ks ps ck cp :
      ps !! p = Some l -> c_step (mkC ms d ks ps ck cp) (mkC ms d ks (<[p := listener_handle l]> ps) ck cp)
  (** Registering a listener takes the write lock. *)
  | step_watch_key ms d k ks ps ck cp :
      (forall m, d <> DKey m) ->
      c_step (mkC ms d ks ps ck cp) (mkC ms d (WatchKey k ck ks) ps ck cp)
  | step_watch_prefix ms d p ks ps ck cp :
      (forall m o, d <> DPrefix m o) ->
      c_step (mkC ms d ks ps ck cp) (mkC ms d ks (WatchPrefix p cp ps) ck cp).
