(* ===== verification/ClusterCorrect.v ===== *)
(** * The gossip cluster: views, messages, starting and closing

    What the nodes of a cluster know of its shards when the states they send
    each other arrive in any order, late and more than once; that a listener
    gets every message of its key or prefix once and in order; what addresses
    a node listens on and advertises; how long closing a node waits before it
    leaves. *)

From S2P Require Import Prelude GoStd Effects View Dns Cluster.

Open Scope prog_scope.

(** ** Listeners *)

Definition has_key (k : bytes) (m : Message) : Prop := msg_Key m = k.
Definition has_prefix (p : bytes) (m : Message) : Prop := HasPrefix (msg_Key m) p = true.

(** The messages that are to reach a listener. *)
Definition due (P : Message -> Prop) `{forall m, Decision (P m)} (offered : list Message) (l : listener) : list Message :=
  filter P (drop (l_from l) offered).

(** What the routine still has to send to a listener. *)
Definition key_pending (d : dispatcher) (k : bytes) : list Message :=
  match d with DKey m => if decide (msg_Key m = k) then [m] else [] | _ => [] end.
Definition prefix_pending (d : dispatcher) (p : bytes) : list Message :=
  match d with DPrefix m order => if decide (p ∈ order) then [m] else [] | _ => [] end.

#[local] Instance has_key_dec k m : Decision (has_key k m).
Proof. unfold has_key. apply _. Defined.
#[local] Instance has_prefix_dec p m : Decision (has_prefix p m).
Proof. unfold has_prefix. apply _. Defined.

Definition serves (P : Message -> Prop) `{forall m, Decision (P m)} (offered pending : list Message) (l : listener) : Prop :=
  l_handled l ++ l_ch l ++ pending = due P offered l /\ (length (l_ch l) <= 1)%nat /\ (l_from l <= length offered)%nat.

Record c_inv (s : cstate) : Prop := {
  inv_keys k l : c_keys s !! k = Some l -> serves (has_key k) (c_keyed s) (key_pending (c_disp s) k) l;
  inv_prefixes p l : c_prefixes s !! p = Some l -> serves (has_prefix p) (c_prefixed s) (prefix_pending (c_disp s) p) l;
  inv_order m order : c_disp s = DPrefix m order -> NoDup order
}.

Section Serves.
Context (P : Message -> Prop) `{forall m, Decision (P m)}.

Lemma due_snoc offered l m :
  (l_from l <= length offered)%nat -> due P (offered ++ [m]) l = due P offered l ++ (if decide (P m) then [m] else []).
Proof.
  intros Hf. unfold due. rewrite drop_app_le by done. by rewrite filter_app.
Qed.

(** The three things that happen to a listener. *)
Lemma serves_offer offered l m :
  serves P offered [] l -> serves P (offered ++ [m]) (if decide (P m) then [m] else []) l.
Proof.
  intros (E & Hc & Hf). rewrite app_nil_r in E. split_and!; [|done|rewrite length_app; lia].
  rewrite due_snoc, <- E by done. by rewrite <- app_assoc.
Qed.
Lemma serves_push offered l m : l_ch l = [] -> serves P offered [m] l -> serves P offered [] (push m l).
Proof. intros El (E & Hc & Hf). split_and!; [|by cbn; rewrite El|done]. cbn. rewrite El in *. cbn in *. done. Qed.
Lemma serves_handle offered pending l : serves P offered pending l -> serves P offered pending (listener_handle l).
Proof.
  intros (E & Hc & Hf). unfold listener_handle. destruct (l_ch l) as [|m ch] eqn:El;
    [unfold serves; by rewrite El|].
  split_and!; cbn in *; [|lia|done]. unfold due in *. cbn. rewrite <- E. by rewrite <- app_assoc.
Qed.
Lemma serves_new offered : serves P offered [] (mkListener [] [] (length offered)).
Proof. split_and!; [|cbn; lia|done]. unfold due. cbn. by rewrite drop_all. Qed.
End Serves.

(** Updating one listener. *)
Lemma insert_listener (Q : bytes -> listener -> Prop) (ls : gmap bytes listener) k l :
  (forall k' l', k' <> k -> ls !! k' = Some l' -> Q k' l') -> Q k l -> forall k' l', <[k := l]> ls !! k' = Some l' -> Q k' l'.
Proof. intros Ho Hk k' l' [[<- <-]|[Hne Hl]]%lookup_insert_Some; [done|]. by apply Ho. Qed.

Lemma c_step_inv s s' : c_inv s -> c_step s s' -> c_inv s'.
Proof.
  intros [Hk Hp Ho] Hs. destruct Hs as [m d ks ps ck cp|m ms ks ps ck cp|ms m ks ps ck cp|ms m l ks ps ck cp Hl Hch
    |ms m order ks ps ck cp Hord|ms m p order l ks ps ck cp Hl Hch|ms m ks ps ck cp|ms d k l ks ps ck cp Hl
    |ms d p l ks ps ck cp Hl|ms d k ks ps ck cp Hd|ms d p ks ps ck cp Hd]; cbn in *; try done.
  - (* the key listeners are locked *)
    split; cbn.
    + intros k l Hl. pose proof (serves_offer (has_key k) ck l m (Hk k l Hl)) as Hs. unfold has_key in Hs at 2.
      destruct (decide (is_Some (ks !! msg_Key m))) as [Hsome|Hnone]; cbn.
      * exact Hs.
      * rewrite decide_False in Hs; [done|]. intros E. apply Hnone. rewrite E. by exists l.
    + intros p l Hl. specialize (Hp p l Hl). by destruct (decide (is_Some _)).
    + intros m' order'. by destruct (decide (is_Some _)).
  - split; cbn; [|done|done]. apply insert_listener.
    + intros k' l' Hne Hl'. specialize (Hk k' l' Hl'). cbn in Hk. by rewrite decide_False in Hk.
    + specialize (Hk _ l Hl). cbn in Hk. rewrite decide_True in Hk by done. by apply serves_push.
  - split; cbn; [done| |].
    + intros p l Hl. pose proof (serves_offer (has_prefix p) cp l m (Hp p l Hl)) as Hs.
      assert (has_prefix p m <-> p ∈ order) as Hiff.
      { rewrite Hord, list_elem_of_filter. split; [|by intros []]. intros Hpm. split; [done|].
        apply list_elem_of_fmap. exists (p, l). split; [done|]. by apply elem_of_map_to_list. }
      unfold prefix_pending. by destruct (decide (has_prefix p m)), (decide (p ∈ order)); try tauto.
    + intros m' order' [= <- <-]. rewrite Hord. apply NoDup_filter, NoDup_fst_map_to_list.
  - specialize (Ho m (p :: order) eq_refl). inversion Ho as [|?? Hn Hnd]; subst. split; cbn; [done| |by intros ?? [= <- <-]].
    apply insert_listener.
    + intros p' l' Hne Hl'. specialize (Hp p' l' Hl').
      destruct (decide (p' ∈ order)) as [Hin|Hin].
      * rewrite decide_True in Hp by (by right). done.
      * rewrite decide_False in Hp; [done|]. by intros [?|?]%elem_of_cons.
    + specialize (Hp p l Hl). rewrite decide_True in Hp by left. rewrite decide_False by done. by apply serves_push.
  - split; cbn; [|done|done]. apply insert_listener; [auto|]. by apply serves_handle, Hk.
  - split; cbn; [done| |done]. apply insert_listener; [auto|]. by apply serves_handle, Hp.
  - split; cbn; [|done|done]. apply insert_listener; [auto|].
    assert (key_pending d k = []) as ->; [|apply serves_new]. destruct d; try done. by destruct (Hd m).
  - split; cbn; [done| |done]. apply insert_listener; [auto|].
    assert (prefix_pending d p = []) as ->; [|apply serves_new]. destruct d; try done. by destruct (Hd m prefixes).
Qed.

(** C17. Listeners get their messages: in every state the cluster can reach, a
    listener of a key has handled, in order and each once, the messages with
    that key that were dispatched since it was registered, but for at most one
    in its channel and one that is being sent to it; and so has a listener of
    a prefix with the messages whose key starts with the prefix. *)
Theorem listeners_served s :
  rtc c_step c_init s ->
  (forall k l, c_keys s !! k = Some l -> exists sending,
     l_handled l ++ l_ch l ++ sending = filter (fun m => msg_Key m = k) (drop (l_from l) (c_keyed s))
     /\ (length (l_ch l) <= 1)%nat /\ (sending = [] \/ exists m, sending = [m] /\ c_disp s = DKey m))
  /\ (forall p l, c_prefixes s !! p = Some l -> exists sending,
     l_handled l ++ l_ch l ++ sending = filter (fun m => HasPrefix (msg_Key m) p = true) (drop (l_from l) (c_prefixed s))
     /\ (length (l_ch l) <= 1)%nat /\ (sending = [] \/ exists m order, sending = [m] /\ c_disp s = DPrefix m order)).
Proof.
  intros Hr. assert (c_inv s) as [Hk Hp _].
  { assert (c_inv c_init) as H0 by (split; cbn; [by intros ?? ?%lookup_empty_Some..|done]).
    revert H0. generalize c_init Hr. clear. induction 1 as [|s1 s2 s3 Hs _ IH]; [done|]. intros H. by apply IH, (c_step_inv s1). }
  split.
  - intros k l Hl. destruct (Hk k l Hl) as (E & Hc & _). eexists. split; [exact E|]. split; [done|].
    unfold key_pending. destruct (c_disp s); auto. case_decide; eauto.
  - intros p l Hl. destruct (Hp p l Hl) as (E & Hc & _). eexists. split; [exact E|]. split; [done|].
    unfold prefix_pending. destruct (c_disp s); auto. case_decide; eauto.
Qed.

(** A message that has been handled. *)
Definition ex_msg : Message := mkMessage (str "a") (str "x").
Definition ex_served : cstate := mkC [] (DPrefix ex_msg []) {[str "a" := mkListener [] [ex_msg] 0]} ∅ [ex_msg] [ex_msg].

Lemma ex_served_reachable : rtc c_step c_init ex_served.
Proof.
  eapply rtc_l; [apply (step_watch_key _ _ (str "a")); done|]. eapply rtc_l; [apply (step_notify ex_msg)|].
  eapply rtc_l; [apply step_take|]. eapply rtc_l; [apply step_key_lock|].
  unfold WatchKey; rewrite decide_True by (rewrite lookup_insert_eq; eauto).
  eapply rtc_l; [by eapply step_key_send; [apply lookup_insert_eq|]|].
  eapply rtc_l; [by eapply (step_prefix_lock _ _ [])|].
  eapply rtc_l; [eapply step_handle_key, lookup_insert_eq|]. rewrite !insert_insert_eq. apply rtc_refl.
Qed.

Lemma listeners_served_witness :
  exists sending, [ex_msg] ++ [] ++ sending = filter (fun m => msg_Key m = str "a") (drop 0 (c_keyed ex_served))
    /\ (length (@nil Message) <= 1)%nat /\ (sending = [] \/ exists m, sending = [m] /\ c_disp ex_served = DKey m).
Proof. exact (proj1 (listeners_served ex_served ex_served_reachable) (str "a") (mkListener [] [ex_msg] 0) (lookup_singleton_eq _ _)). Defined.

(** ** Views *)

(** Every shard is stored under its id, with numbers of 64 bits and addresses
    that JSON can represent. *)
Definition view_wf (v : shardView) : Prop := forall id s, v !! id = Some s -> sv_ShardID s = id /\ shard_ok s = true.
Definition info_ok (i : ShardInfo) : bool := forallb shard_ok (toShardViewList [i]).

Lemma forallb_Forall {A} (f : A -> bool) l : forallb f l = true <-> Forall (fun x => f x = true) l.
Proof. rewrite forallb_forall, Forall_forall. by setoid_rewrite list_elem_of_In. Qed.

Lemma toShardViewList_Forall (P : ShardView -> Prop) infos :
  Forall (fun i => Forall P (toShardViewList [i])) infos -> Forall P (toShardViewList infos).
Proof. induction 1 as [|i infos Hi _ IH]; constructor; [by inversion Hi|done]. Qed.

Lemma shard_ok_merge a b : shard_ok a = true -> shard_ok b = true -> shard_ok (mergeShardInfo a b) = true.
Proof.
  unfold mergeShardInfo. intros Ha Hb.
  destruct (sv_ConfigChangeIndex a <? sv_ConfigChangeIndex b), (negb _ && _); unfold shard_ok in *;
    cbn [sv_ShardID sv_Nodes sv_ConfigChangeIndex sv_LeaderID sv_Term]; rewrite !andb_true_iff in *; tauto.
Qed.

Lemma shard_ok_empty id : 0 <= id < 2 ^ 64 -> shard_ok (empty_shard id) = true.
Proof.
  intros [H1 H2]. unfold shard_ok. cbn [empty_shard sv_ShardID sv_ConfigChangeIndex sv_LeaderID sv_Term sv_Nodes].
  rewrite map_to_list_empty, (proj2 (Z.leb_le _ _) H1), (proj2 (Z.ltb_lt _ _) H2). done.
Qed.

Lemma mergeShardInfo_id a b : sv_ShardID (mergeShardInfo a b) = sv_ShardID a.
Proof. unfold mergeShardInfo. by destruct (_ <? _), (negb _ && _). Qed.

Lemma update_wf v us : view_wf v -> Forall (fun u => shard_ok u = true) us -> view_wf (update v us).
Proof.
  intros Hv Hus. revert v Hv. induction Hus as [|u us Hu _ IH]; intros v Hv; [done|]. cbn. apply IH. unfold update_one.
  intros id s [[<- <-]|[_ Hs]]%lookup_insert_Some; [|by apply Hv].
  assert (0 <= sv_ShardID u < 2 ^ 64) as Hr.
  { unfold shard_ok in Hu. rewrite !andb_true_iff in Hu. destruct Hu as [[[[[H1 H2] _] _] _] _]. by apply Z.leb_le in H1; apply Z.ltb_lt in H2. }
  destruct (v !! sv_ShardID u) as [c|] eqn:E; cbn.
  - destruct (Hv _ _ E) as [Hid Hok]. rewrite mergeShardInfo_id. split; [done|]. by apply shard_ok_merge.
  - rewrite mergeShardInfo_id. split; [done|]. apply shard_ok_merge; [by apply shard_ok_empty|done].
Qed.

Lemma newView_wf : view_wf newView.
Proof. unfold newView. by intros id s ?%lookup_empty_Some. Qed.

Lemma copy_ok shuffle v : (forall l, shuffle l ≡ₚ l) -> view_wf v -> forallb shard_ok (copy shuffle v) = true.
Proof.
  intros Hs Hv. apply forallb_Forall. unfold copy. rewrite Hs. apply Forall_fmap, Forall_forall.
  intros [id s] Hin%elem_of_map_to_list. by destruct (Hv _ _ Hin).
Qed.

Lemma copy_map shuffle v :
  (forall l, shuffle l ≡ₚ l) -> view_wf v -> list_to_map ((fun u => (sv_ShardID u, u)) <$> copy shuffle v) = v.
Proof.
  intros Hsh Hv. assert ((fun u => (sv_ShardID u, u)) <$> (map_to_list v).*2 = map_to_list v) as E.
  { rewrite <- (list_fmap_id (map_to_list v)) at 2. rewrite <- list_fmap_compose. apply list_fmap_ext. intros i [id u] Hin.
    apply list_elem_of_lookup_2, elem_of_map_to_list, Hv in Hin as [Hid _]. cbn. by rewrite Hid. }
  unfold copy. rewrite <- (list_to_map_to_list v) at 2. rewrite <- E at 2. apply list_to_map_proper; [|by rewrite Hsh].
  rewrite Hsh, E. apply NoDup_fst_map_to_list.
Qed.

(** The members and the index are those of an update with the highest index;
    without an index above zero the shard has none. *)
Definition newest_config (us : list ShardView) (e : ShardView) : Prop :=
  (forall u, u ∈ us -> sv_ConfigChangeIndex u <= sv_ConfigChangeIndex e)
  /\ ((sv_ConfigChangeIndex e = 0 /\ sv_Nodes e = ∅)
      \/ exists u, u ∈ us /\ sv_ConfigChangeIndex e = sv_ConfigChangeIndex u /\ sv_Nodes e = sv_Nodes u).
(** The leader and the term are those of an update with the highest term among
    the updates that name a leader, if there is one. *)
Definition newest_leader (us : list ShardView) (e : ShardView) : Prop :=
  (forall u, u ∈ us -> sv_LeaderID u <> noLeader -> sv_LeaderID e <> noLeader /\ sv_Term u <= sv_Term e)
  /\ ((sv_LeaderID e = noLeader /\ sv_Term e = 0)
      \/ exists u, u ∈ us /\ sv_LeaderID u <> noLeader /\ sv_LeaderID e = sv_LeaderID u /\ sv_Term e = sv_Term u).

Lemma elem_of_snoc (us : list ShardView) u w : w ∈ us ++ [u] <-> w ∈ us \/ w = u.
Proof. by rewrite elem_of_app, list_elem_of_singleton. Qed.

Lemma newest_config_merge us e u :
  newest_config us e -> newest_config (us ++ [u]) (mergeShardInfo e u).
Proof.
  intros [Hle Hin]. unfold newest_config, mergeShardInfo. setoid_rewrite elem_of_snoc.
  destruct (Z.ltb_spec (sv_ConfigChangeIndex e) (sv_ConfigChangeIndex u)) as [H|H], (negb _ && _); cbn; split.
  all: try (intros w [Hw| ->]; [specialize (Hle w Hw)|]; lia).
  1,2: right; exists u; auto.
  all: destruct Hin as [?|(w & ? & ?)]; [by left|right; exists w; auto].
Qed.

Lemma newest_leader_merge us e u :
  newest_leader us e -> newest_leader (us ++ [u]) (mergeShardInfo e u).
Proof.
  intros [Hle Hin]. unfold newest_leader, mergeShardInfo. setoid_rewrite elem_of_snoc.
  set (c := if _ <? _ then _ else e). assert (sv_LeaderID c = sv_LeaderID e /\ sv_Term c = sv_Term e) as [El Et].
  { unfold c. by destruct (_ <? _). }
  assert (Hkeep : (sv_LeaderID c = noLeader /\ sv_Term c = 0)
      \/ exists w, (w ∈ us \/ w = u) /\ sv_LeaderID w <> noLeader /\ sv_LeaderID c = sv_LeaderID w /\ sv_Term c = sv_Term w).
  { rewrite El, Et. destruct Hin as [?|(w & ? & ?)]; [by left|right; exists w; auto]. }
  destruct (Z.eqb_spec (sv_LeaderID u) noLeader) as [Eu|Eu]; cbn [negb andb].
  { split; [|done]. rewrite El, Et. intros w [Hw| ->] Hl; [by apply Hle|done]. }
  destruct (Z.eqb_spec (sv_LeaderID c) noLeader) as [Ec|Ec]; cbn [orb]; [|destruct (Z.ltb_spec (sv_Term c) (sv_Term u)) as [Ht|Ht]].
  - cbn. split; [|right; exists u; auto]. intros w [Hw| ->] Hl; [|done]. by destruct (Hle w Hw Hl); congruence.
  - cbn. split; [|right; exists u; auto]. intros w [Hw| ->] Hl; [|done]. destruct (Hle w Hw Hl). split; [done|lia].
  - split; [|done]. intros w [Hw| ->] Hl; [|done]. rewrite El, Et. by apply Hle.
Qed.

Lemma merged_newest id us :
  newest_config (about id us) (merged id us) /\ newest_leader (about id us) (merged id us).
Proof.
  unfold merged. generalize (about id us). clear us. intros us. induction us as [|u us [IHc IHl]] using rev_ind.
  { split; (split; [by intros ? ?%not_elem_of_nil|by left]). }
  rewrite foldl_app. split; [by apply newest_config_merge|by apply newest_leader_merge].
Qed.

Section Gossip.
Context {J : ClusterJson} {N : Type} `{EqDecision N}.
(** What the Raft host of a node may report of its shards; what may arrive at
    a node when some states have been sent. *)
Context (reports : ShardInfo -> Prop) (arrives : list bytes -> bytes -> Prop).

Record gstate := mkG { g_views : N -> shardView; g_sent : list bytes }.
Definition g_init : gstate := mkG (fun _ => newView) [].
Definition set_view (views : N -> shardView) (n : N) (v : shardView) : N -> shardView :=
  fun m => if decide (m = n) then v else views m.

(** The library asks a node for its state, gives it the state of another, or
    the node is told that something has changed. *)
Inductive g_step : gstate -> gstate -> Prop :=
  | g_local n infos shuffle views sent :
      Forall reports infos -> (forall l, shuffle l ≡ₚ l) ->
      let '(v, b) := LocalState shuffle infos (views n) in
      g_step (mkG views sent) (mkG (set_view views n v) (sent ++ [b]))
  | g_merge n b views sent :
      arrives sent b -> g_step (mkG views sent) (mkG (set_view views n (MergeRemoteState b (views n))) sent)
  | g_notify n infos views sent :
      Forall reports infos ->
      g_step (mkG views sent) (mkG (set_view views n (update (views n) (toShardViewList infos))) sent).

(** An invariant of one view that holds of all. *)
Lemma set_view_all (P : shardView -> Prop) views n v : (forall m, P (views m)) -> P v -> forall m, P (set_view views n v m).
Proof. intros H Hv m. unfold set_view. by case_decide. Qed.

Lemma sent_state shuffle v : (forall l, shuffle l ≡ₚ l) -> view_wf v ->
  json_Unmarshal (A := list ShardView) (res_get [] (json_Marshal (copy shuffle v))) = Ok (copy shuffle v).
Proof.
  intros Hs Hv. destruct (json_total (copy shuffle v) (copy_ok _ _ Hs Hv)) as [b Hb]. rewrite Hb.
  eapply json_roundtrip; [by apply copy_ok|done].
Qed.

(** The states gossip reaches, with every update each node has been given so
    far: by its Raft host, or in the bytes that arrived, whatever they are. *)
Definition remote_updates (b : bytes) : list ShardView :=
  match json_Unmarshal (A := list ShardView) b with Ok l => l | _ => cj_state_partial b end.
Definition hears (heard : N -> list ShardView) (n : N) (us : list ShardView) : N -> list ShardView :=
  fun m => if decide (m = n) then heard n ++ us else heard m.

Inductive g_history : gstate -> (N -> list ShardView) -> Prop :=
  | h_init : g_history g_init (fun _ => [])
  | h_local n infos shuffle views sent heard :
      g_history (mkG views sent) heard -> Forall reports infos -> (forall l, shuffle l ≡ₚ l) ->
      let '(v, b) := LocalState shuffle infos (views n) in
      g_history (mkG (set_view views n v) (sent ++ [b])) (hears heard n (toShardViewList infos))
  | h_merge n b views sent heard :
      g_history (mkG views sent) heard -> arrives sent b ->
      g_history (mkG (set_view views n (MergeRemoteState b (views n))) sent) (hears heard n (remote_updates b))
  | h_notify n infos views sent heard :
      g_history (mkG views sent) heard -> Forall reports infos ->
      g_history (mkG (set_view views n (update (views n) (toShardViewList infos))) sent) (hears heard n (toShardViewList infos)).

Lemma history_of s : rtc g_step g_init s -> exists heard, g_history s heard.
Proof.
  intros Hr. assert (exists heard, g_history g_init heard) as H0 by (eexists; constructor).
  revert H0. generalize g_init Hr. clear. induction 1 as [|s1 s2 s3 Hs _ IH]; [done|].
  intros [heard Hh]. apply IH. destruct Hs as [n infos shuffle views sent Hi Hs|n b views sent Ha|n infos views sent Hi].
  - eexists. exact (h_local n infos shuffle views sent heard Hh Hi Hs).
  - eexists. exact (h_merge n b views sent heard Hh Ha).
  - eexists. exact (h_notify n infos views sent heard Hh Hi).
Qed.

Definition of_shards (us : list ShardView) : Prop := Forall (fun u => shard_ok u = true) us.

Lemma remote_updates_ok b : of_shards (remote_updates b).
Proof.
  apply forallb_Forall. unfold remote_updates.
  destruct (json_Unmarshal b) as [l| |] eqn:E; [by apply json_decoded in E|apply cj_state_partial_ok..].
Qed.
Lemma infos_ok infos :
  (forall i, reports i -> info_ok i = true) -> Forall reports infos -> of_shards (toShardViewList infos).
Proof.
  intros Hrep Hi. apply toShardViewList_Forall. eapply Forall_impl; [exact Hi|]. intros i ?%Hrep. by apply forallb_Forall.
Qed.

(** What is known of a history: the views are those of the updates heard, and
    what was sent is the view of a node at some time before. *)
Record history_ok (s : gstate) (heard : N -> list ShardView) : Prop := {
  history_views n : g_views s n = update newView (heard n);
  history_shards n : of_shards (heard n);
  history_sent b : b ∈ g_sent s -> exists n us shuffle, us `prefix_of` heard n /\ (forall l, shuffle l ≡ₚ l)
    /\ b = res_get [] (json_Marshal (copy shuffle (update newView us)))
}.

Lemma history_hears views sent heard n us :
  history_ok (mkG views sent) heard -> of_shards us ->
  history_ok (mkG (set_view views n (update (views n) us)) sent) (hears heard n us).
Proof.
  intros [Hv Hs Hb] Hus. cbn in *. unfold set_view, hears. split; cbn.
  - intros m. case_decide; [|done]. by rewrite Hv, update_app.
  - intros m. case_decide; [|done]. apply Forall_app. by split; [apply Hs|].
  - intros b (m & ws & shuffle & Hp & Hw)%Hb. exists m, ws, shuffle. split; [|done].
    case_decide as E; [|done]. subst m. by apply prefix_app_r.
Qed.

Lemma history_inv s heard :
  (forall i, reports i -> info_ok i = true) -> g_history s heard -> history_ok s heard.
Proof.
  intros Hrep. induction 1 as [|n infos shuffle views sent heard Hh IH Hi Hs|n b views sent heard Hh IH Ha|n infos views sent heard Hh IH Hi].
  - split; cbn; [done|by constructor|by intros b ?%not_elem_of_nil].
  - pose proof (history_hears _ _ _ n _ IH (infos_ok _ Hrep Hi)) as [Hv Ho Hb]. cbn in *. split; cbn; [done|done|].
    intros b [Hin|Hin%list_elem_of_singleton]%elem_of_app; [by apply Hb|]. subst b.
    exists n, (hears heard n (toShardViewList infos) n), shuffle. split; [done|]. split; [done|].
    rewrite <- Hv. unfold set_view. by rewrite decide_True.
  - exact (history_hears _ _ _ n _ IH (remote_updates_ok b)).
  - exact (history_hears _ _ _ n _ IH (infos_ok _ Hrep Hi)).
Qed.

(** C38. Views are well formed and hold the newest of what was heard: whatever
    bytes arrive at the nodes of a cluster, and whatever the Raft hosts
    report, a view holds every shard that was heard of, and no other, under its
    own id, with 64-bit numbers and addresses that JSON can represent; the
    members are those of an update with the highest configuration index heard,
    and the leader and the term those of an update with the highest term among
    the updates that name a leader.  Every state that was sent can be decoded,
    to the shards of a view that a node has had. *)
Theorem views_typed s heard :
  (forall i, reports i -> info_ok i = true) -> g_history s heard ->
  (forall n, view_wf (g_views s n))
  /\ (forall n id, match g_views s n !! id with
                   | None => about id (heard n) = []
                   | Some e => about id (heard n) <> [] /\ newest_config (about id (heard n)) e /\ newest_leader (about id (heard n)) e
                   end)
  /\ forall b, b ∈ g_sent s -> exists n us l, us `prefix_of` heard n
       /\ json_Unmarshal (A := list ShardView) b = Ok l
       /\ list_to_map ((fun u => (sv_ShardID u, u)) <$> l) = update newView us.
Proof.
  intros Hrep Hh. destruct (history_inv _ _ Hrep Hh) as [Hv Ho Hb]. split_and!.
  - intros n. rewrite Hv. apply update_wf; [apply newView_wf|apply Ho].
  - intros n id. rewrite Hv, lookup_update. case_decide; [done|]. split; [done|]. apply merged_newest.
  - intros b (n & us & shuffle & Hp & Hs & ->)%Hb. exists n, us, (copy shuffle (update newView us)). split; [done|].
    assert (view_wf (update newView us)).
    { apply update_wf; [apply newView_wf|]. destruct Hp as [ws Hp]. specialize (Ho n). rewrite Hp in Ho. by apply Forall_app in Ho as [? _]. }
    split; [by apply sent_state|by apply copy_map].
Qed.
End Gossip.

(** *** One cluster *)

Section Truth.
Context {J : ClusterJson} {N : Type} `{EqDecision N}.
Context (members : Z -> Z -> gmap Z bytes) (leader : Z -> Z -> Z).

(** The Raft hosts report of one cluster, and what arrives was sent. *)
Definition truthful (i : ShardInfo) : Prop := info_ok i = true /\ Forall (consistent members leader) (toShardViewList [i]).
Definition was_sent (sent : list bytes) (b : bytes) : Prop := b ∈ sent.

Definition facts (us : list ShardView) : Prop := Forall (consistent members leader) us /\ Forall (fun u => shard_ok u = true) us.

Lemma facts_app us vs : facts us -> facts vs -> facts (us ++ vs).
Proof. intros [] []. split; by apply Forall_app. Qed.

Lemma facts_infos infos : Forall truthful infos -> facts (toShardViewList infos).
Proof.
  intros Hi. split; apply toShardViewList_Forall; (eapply Forall_impl; [exact Hi|]); intros i [Hok Hc]; [done|].
  by apply forallb_Forall.
Qed.

Lemma facts_wf us : facts us -> view_wf (update newView us).
Proof. intros [_ Hok]. by apply update_wf; [apply newView_wf|]. Qed.

(** Receiving the state of a node that has heard [us]. *)
Lemma merge_facts shuffle us vs :
  facts us -> facts vs -> (forall l, shuffle l ≡ₚ l) ->
  MergeRemoteState (res_get [] (json_Marshal (copy shuffle (update newView us)))) (update newView vs) = update newView (vs ++ us).
Proof.
  intros Hu Hv Hs. unfold MergeRemoteState. rewrite sent_state by (done || by apply facts_wf).
  destruct Hu, Hv. by eapply update_copy.
Qed.

(** Every view is that of a node that has heard some facts, and every state
    that was sent is that of such a view. *)
Record heard_all (s : gstate (N := N)) (heard : N -> list ShardView) : Prop := {
  heard_views n : g_views s n = update newView (heard n);
  heard_facts n : facts (heard n);
  heard_sent b : b ∈ g_sent s -> exists us shuffle, facts us /\ (forall l, shuffle l ≡ₚ l)
    /\ b = res_get [] (json_Marshal (copy shuffle (update newView us)))
}.

(** A node hears more. *)
Lemma hear views sent heard n us sent' :
  heard_all (mkG views sent) heard -> facts us ->
  (forall b, b ∈ sent' -> b ∈ sent \/ exists us shuffle, facts us /\ (forall l, shuffle l ≡ₚ l)
    /\ b = res_get [] (json_Marshal (copy shuffle (update newView us)))) ->
  heard_all (mkG (set_view views n (update newView (heard n ++ us))) sent') (fun m => if decide (m = n) then heard n ++ us else heard m).
Proof.
  intros [Hv Hf Hs] Hus Hsent. cbn in *. split; cbn.
  - intros m. unfold set_view. by case_decide.
  - intros m. case_decide; [by apply facts_app|done].
  - intros b [Hb|Hb]%Hsent; [by apply Hs|done].
Qed.

Lemma heard_step s s' heard :
  heard_all s heard -> g_step truthful was_sent s s' ->
  exists heard', heard_all s' heard' /\ forall n, exists us, heard' n = heard n ++ us.
Proof.
  intros Hh Hstep.
  destruct Hstep as [n infos shuffle views sent Hi Hsh|n b views sent Hb|n infos views sent Hi].
  1: pose proof (facts_infos infos Hi) as Hus; set (us := toShardViewList infos) in *;
     assert (update (views n) us = update newView (heard n ++ us)) as E by (rewrite update_app; by rewrite <- (heard_views _ _ Hh n)).
  2: destruct (heard_sent _ _ Hh b Hb) as (us & shuffle & Hus & Hsh & ->);
     assert (MergeRemoteState (res_get [] (json_Marshal (copy shuffle (update newView us)))) (views n) = update newView (heard n ++ us)) as E
       by (rewrite <- merge_facts with (shuffle := shuffle) by (done || apply (heard_facts _ _ Hh)); by rewrite <- (heard_views _ _ Hh n)).
  3: pose proof (facts_infos infos Hi) as Hus; set (us := toShardViewList infos) in *;
     assert (update (views n) us = update newView (heard n ++ us)) as E by (rewrite update_app; by rewrite <- (heard_views _ _ Hh n)).
  all: exists (fun m => if decide (m = n) then heard n ++ us else heard m).
  all: split; [|intros m; case_decide; [subst; by exists us|exists []; by rewrite app_nil_r]].
  - cbn. fold us. rewrite E. apply (hear views sent); [done..|].
    intros b [Hb|Hb%list_elem_of_singleton]%elem_of_app; [by left|]. right. exists (heard n ++ us), shuffle.
    split_and!; [apply facts_app; [apply (heard_facts _ _ Hh)|done]|done|done].
  - cbn. rewrite E. apply (hear views sent); auto.
  - cbn. rewrite E. apply (hear views sent); auto.
Qed.

Lemma heard_steps s s' heard :
  heard_all s heard -> rtc (g_step truthful was_sent) s s' ->
  exists heard', heard_all s' heard' /\ forall n, exists us, heard' n = heard n ++ us.
Proof.
  intros Hh Hr. revert heard Hh. induction Hr as [s|s1 s2 s3 Hs _ IH]; intros heard Hh.
  { exists heard. split; [done|]. intros n. exists []. by rewrite app_nil_r. }
  destruct (heard_step _ _ _ Hh Hs) as (h2 & Hh2 & H12). destruct (IH h2 Hh2) as (h3 & Hh3 & H23).
  exists h3. split; [done|]. intros n. destruct (H12 n) as [us Hus], (H23 n) as [vs Hvs].
  exists (us ++ vs). by rewrite Hvs, Hus, app_assoc.
Qed.

(** C16. What the nodes of a cluster know is true and does not go back: in every
    state that gossip can reach, where states arrive in any order, late, more
    than once or never, the view of a shard on a node is the members of some
    configuration of the shard and the leader of some term of it; and the
    configuration and the term do not decrease. *)
Theorem gossip_truthful (s s' : gstate (N := N)) (n : N) id e :
  rtc (g_step truthful was_sent) g_init s -> rtc (g_step truthful was_sent) s s' -> g_views s n !! id = Some e ->
  (exists change term, e = known members leader id change term /\ 0 <= change /\ 0 <= term /\ terms_led leader id term)
  /\ exists e', g_views s' n !! id = Some e' /\ sv_ConfigChangeIndex e <= sv_ConfigChangeIndex e' /\ sv_Term e <= sv_Term e'.
Proof.
  intros Hr Hr' He. assert (heard_all g_init (fun _ : N => [])) as H0.
  { split; cbn; [done|by intros; split|by intros b ?%not_elem_of_nil]. }
  destruct (heard_steps _ _ _ H0 Hr) as (heard & Hh & _). destruct (heard_steps _ _ _ Hh Hr') as (heard' & Hh' & Hmore).
  rewrite (heard_views _ _ Hh n), lookup_update in He. case_decide as Hne; [done|]. injection He as <-.
  destruct (merged_known members leader id (heard n) (proj1 (heard_facts _ _ Hh n))) as (E & Ht & Hc & Htt).
  split; [by exists (max_change (about id (heard n))), (max_term (about id (heard n)))|].
  destruct (Hmore n) as [us Hus]. rewrite (heard_views _ _ Hh' n), lookup_update.
  assert (about id (heard' n) = about id (heard n) ++ about id us) as Ha by (rewrite Hus; apply filter_app).
  rewrite decide_False by (rewrite Ha; intros [? _]%app_eq_nil; done). eexists. split; [done|].
  destruct (merged_known members leader id (heard' n) (proj1 (heard_facts _ _ Hh' n))) as (E' & _).
  rewrite E, E'. cbn. rewrite Ha. unfold max_change, max_term. rewrite !max_app. lia.
Qed.

(** C37. An exchange of states brings two nodes together: after each has sent the
    other its state and merged the one it got, both have the same view, that
    of a node that has heard everything the two had heard and what their Raft
    hosts reported. *)
Theorem exchange_agrees shuffle1 shuffle2 infos1 infos2 us vs :
  facts us -> facts vs -> Forall truthful infos1 -> Forall truthful infos2 ->
  (forall l, shuffle1 l ≡ₚ l) -> (forall l, shuffle2 l ≡ₚ l) ->
  let '(v1, b1) := LocalState shuffle1 infos1 (update newView us) in
  let '(v2, b2) := LocalState shuffle2 infos2 (update newView vs) in
  MergeRemoteState b2 v1 = MergeRemoteState b1 v2
  /\ MergeRemoteState b2 v1 = update newView (us ++ vs ++ toShardViewList infos1 ++ toShardViewList infos2).
Proof.
  intros Hu Hv Hi1%facts_infos Hi2%facts_infos Hs1 Hs2. unfold LocalState. rewrite <- !update_app.
  pose proof (facts_app _ _ Hu Hi1) as H1. pose proof (facts_app _ _ Hv Hi2) as H2. rewrite !merge_facts by done.
  assert (forall l l', facts l -> (forall u, u ∈ l <-> u ∈ l') -> update newView l = update newView l') as Hsame.
  { intros l l' [Hl _] Hin. by eapply update_same. }
  split; apply Hsame; try (by apply facts_app); intros u; rewrite !elem_of_app; tauto.
Qed.
End Truth.

(** ** Starting and closing *)

Lemma FormatUint_plain n c : c ∈ FormatUint n -> c <> colon /\ c <> lbracket /\ c <> rbracket.
Proof. intros Hc%FormatUint_digits. by split_and!; intros ->. Qed.

Lemma Atoi_FormatUint n : 0 <= n < 2 ^ 63 -> Atoi (FormatUint n) = n.
Proof.
  intros Hn. unfold Atoi. pose proof (ParseUint_FormatUint n ltac:(unfold is_uint64; lia)) as Hp.
  destruct (FormatUint n) as [|c ds] eqn:E; [done|].
  assert (between 48 57 c = true) as Hc by (apply (FormatUint_digits n); rewrite E; left).
  rewrite decide_False by (by intros ->). rewrite decide_False by (by intros ->). rewrite Hp. lia.
Qed.

(** C40. Where a node listens and what it advertises: given the address of a
    host and a port, a node binds to that host and port.  When an address to
    advertise is given too, it is not looked at, whatever it is: the node
    advertises the address it binds to. *)
Theorem advertise_ignored default_ host port advAddr info :
  lbracket ∉ host -> rbracket ∉ host -> 0 <= port < 2 ^ 16 ->
  exists cfg meta, cluster_New default_ (JoinHostPort host (FormatUint port)) advAddr info = Ok (cfg, meta)
    /\ mc_BindAddr cfg = host /\ mc_BindPort cfg = port /\ nm_MemberAddress meta = JoinHostPort host (FormatUint port)
    /\ (advAddr <> [] -> mc_AdvertiseAddr cfg = host /\ mc_AdvertisePort cfg = port).
Proof.
  intros Hl Hr Hp. unfold cluster_New.
  rewrite SplitHostPort_JoinHostPort; [|done|done|intros ?%FormatUint_plain; tauto..].
  cbn [mbind res_bind]. rewrite Atoi_FormatUint by lia. case_decide as Ha; cbn; eexists _, _; split_and!; done.
Qed.

Lemma advertise_ignored_witness :
  exists cfg meta, cluster_New (mkMlConfig [] [] 7946 [] 7946) (JoinHostPort (str "0.0.0.0") (FormatUint 7432)) (str "10.0.0.5:7000")
      (mkClusterInfo (str "nhid-1") 1 (str "10.0.0.5:5012") [] []) = Ok (cfg, meta)
    /\ mc_BindAddr cfg = str "0.0.0.0" /\ mc_BindPort cfg = 7432
    /\ nm_MemberAddress meta = JoinHostPort (str "0.0.0.0") (FormatUint 7432)
    /\ (str "10.0.0.5:7000" <> [] -> mc_AdvertiseAddr cfg = str "0.0.0.0" /\ mc_AdvertisePort cfg = 7432).
Proof.
  apply (advertise_ignored (mkMlConfig [] [] 7946 [] 7946) (str "0.0.0.0") 7432 (str "10.0.0.5:7000")).
  - by apply (bool_decide_unpack (lbracket ∉ str "0.0.0.0")).
  - by apply (bool_decide_unpack (rbracket ∉ str "0.0.0.0")).
  - lia.
Defined.

(** Discovery after the start joins nobody: the addresses it would use are
    never set. *)
Lemma discover_joins_nobody cache : discover_tick cache = Vis (CJoin []) (fun r => M_ret (cache, succeeds r)).
Proof. done. Qed.

(** A clock that a sleep advances, and the calls made so far with their
    answers. *)
Inductive call := | called {X} (e : cluster_ev X) (x : X).

Definition clock_handles (t : Z) X (e : cluster_ev X) : X -> Z -> Prop :=
  match e with
  | CNow => fun x t' => t <= x /\ t' = x
  | CSleep ms => fun _ t' => t + ms <= t'
  | _ => fun _ t' => t <= t'
  end.
Definition close_handles (s : Z * list call) X (e : cluster_ev X) (x : X) (s' : Z * list call) : Prop :=
  clock_handles s.1 X e x s'.1 /\ s'.2 = s.2 ++ [called e x].

(** The calls of a wait until [deadline]: it ends when nothing is queued, when
    no other member is left, or at the deadline, and sleeps otherwise. *)
Inductive waited (deadline : Z) : nat -> list call -> Prop :=
  | waited_sent q : q <= 0 -> waited deadline 0 [called CNumQueued q]
  | waited_alone q k : 0 < q -> k <= 1 -> waited deadline 0 [called CNumQueued q; called CNumMembers k]
  | waited_late q k now :
      0 < q -> 1 < k -> deadline <= now ->
      waited deadline 0 [called CNumQueued q; called CNumMembers k; called CNow now]
  | waited_more q k now sleeps l :
      0 < q -> 1 < k -> now < deadline -> waited deadline sleeps l ->
      waited deadline (S sleeps) (called CNumQueued q :: called CNumMembers k :: called CNow now :: called (CSleep 250) tt :: l).

Lemma drain_returns fuel t s out s' :
  (0 < fuel)%nat -> t - s.1 <= 250 * (Z.of_nat fuel - 1) -> exec close_handles (drain fuel t) s out s' ->
  out = Ok tt /\ exists sleeps l, waited t sleeps l /\ (sleeps < fuel)%nat /\ s'.2 = s.2 ++ l.
Proof.
  revert s. induction fuel as [|fuel IH]; intros s H0 Hf; cbn [drain]; [lia|].
  intros (q & s1 & [T1 L1] & H). cbn in T1, H.
  destruct (Z.ltb_spec 0 q) as [Hq|Hq]; cbn [negb] in H.
  2: { destruct H as [-> <-]. split; [done|]. exists O. eexists. split; [by apply (waited_sent _ q)|]. by split; [lia|]. }
  destruct H as (k & s2 & [T2 L2] & H). cbn in T2, H.
  destruct (Z.ltb_spec 1 k) as [Hk|Hk]; cbn [negb] in H.
  2: { destruct H as [-> <-]. split; [done|]. exists O. eexists. split; [by apply (waited_alone _ q k)|].
       split; [lia|]. by rewrite L2, L1, <- app_assoc. }
  destruct H as (now & s3 & [[T3 E3] L3] & H). cbn in H.
  destruct (Z.ltb_spec now t) as [Hn|Hn]; cbn [negb] in H.
  2: { destruct H as [-> <-]. split; [done|]. exists O. eexists. split; [by apply (waited_late _ q k now)|].
       split; [lia|]. by rewrite L3, L2, L1, <- !app_assoc. }
  destruct H as ([] & s4 & [T4 L4] & H). cbn in T4, H. destruct fuel as [|fuel]; [lia|].
  apply IH in H as (-> & sleeps & l & Hw & Hs & L); [|lia|lia]. split; [done|].
  exists (S sleeps). eexists. split; [by apply (waited_more _ q k now sleeps l)|]. split; [lia|].
  by rewrite L, L4, L3, L2, L1, <- !app_assoc.
Qed.

(** C39. Closing a node ends and leaves the cluster: whatever the answers of the
    library, Close waits, sleeping at most forty times, until no broadcast is
    queued, no other member is left or ten seconds have passed, and not
    longer; then it leaves, exactly once.  If leaving fails that is the
    result, and the routines are not stopped; if it succeeds Close stops the
    routines, shuts the library down, and returns what the shutdown returns. *)
Theorem close_returns t out t' calls :
  exec close_handles (cluster_Close 41) (t, []) out (t', calls) ->
  exists now sleeps wait q lv,
    waited (now + 10 * 1000) sleeps wait /\ (sleeps <= 40)%nat
    /\ match lv with
       | Ok _ => calls = called CNow now :: wait ++ [called CNumQueued q; called CLeave lv; called CStop tt; called CShutdown out]
       | _ => out = lv /\ calls = called CNow now :: wait ++ [called CNumQueued q; called CLeave lv]
       end.
Proof.
  intros (now & s1 & [[T1 E1] L1] & H). cbn [pbind] in H. apply exec_M_call in H as (x & s2 & Hx & H).
  apply drain_returns in Hx as (-> & sleeps & wait & Hw & Hs & L2); [|lia|lia].
  destruct H as (q & s3 & [_ L3] & H). cbn [pbind] in H. apply exec_M_call in H as (x & s4 & [_ L4]%exec_perform & H).
  exists now, sleeps, wait, q, x. split; [done|]. split; [lia|]. rewrite L3, L2, L1 in L4.
  destruct x as [[]|e|]; [|by destruct H as [-> <-]; rewrite <- !app_assoc in L4..].
  destruct H as ([] & s5 & [_ L5] & H). apply exec_perform in H as [_ L6].
  cbn in L6. by rewrite L6, L5, L4, <- !app_assoc.
Qed.

(** One broadcast is queued when Close starts, and sent after a sleep. *)
Definition ex_calls : list call :=
  [called CNow 0; called CNumQueued 1; called CNumMembers 3; called CNow 1; called (CSleep 250) tt;
   called CNumQueued 0; called CNumQueued 0; called CLeave (Ok tt); called CStop tt; called CShutdown (Ok tt)].
Lemma ex_close : exec close_handles (cluster_Close 41) (0, []) (Ok tt) (251, ex_calls).
Proof.
  exists 0, (0, take 1 ex_calls). split; [done|]. exists 1, (0, take 2 ex_calls). split; [done|].
  exists 3, (0, take 3 ex_calls). split; [done|]. exists 1, (1, take 4 ex_calls). split; [done|].
  exists tt, (251, take 5 ex_calls). split; [done|]. exists 0, (251, take 6 ex_calls). split; [done|].
  exists 0, (251, take 7 ex_calls). split; [done|]. exists (Ok tt), (251, take 8 ex_calls). split; [done|].
  exists tt, (251, take 9 ex_calls). split; [done|]. by exists (Ok tt), (251, ex_calls).
Qed.
Lemma close_returns_witness :
  exists now sleeps wait q lv,
    waited (now + 10 * 1000) sleeps wait /\ (sleeps <= 40)%nat
    /\ match lv with
       | Ok _ => ex_calls = called CNow now :: wait ++ [called CNumQueued q; called CLeave lv; called CStop tt; called CShutdown (Ok tt)]
       | _ => Ok tt = lv /\ ex_calls = called CNow now :: wait ++ [called CNumQueued q; called CLeave lv]
       end.
Proof. exact (close_returns 0 (Ok tt) 251 ex_calls ex_close). Defined.

(** ** Witnesses *)

#[local] Instance ShardView_countable : Countable ShardView.
Proof.
  apply (inj_countable' (fun s => (sv_ShardID s, sv_Nodes s, sv_ConfigChangeIndex s, sv_LeaderID s, sv_Term s))
    (fun '(a, b, c, d, e) => mkShard a b c d e)). by intros [].
Defined.
#[local] Instance NodeMeta_countable : Countable NodeMeta.
Proof.
  apply (inj_countable' (fun m => (nm_ID m, nm_NodeID m, nm_ClientAddress m, nm_RaftAddress m, nm_MemberAddress m))
    (fun '(a, b, c, d, e) => mkNodeMeta a b c d e)). by intros [].
Defined.

Definition ex_cluster_json : ClusterJson.
Proof.
  refine {|
    cj_state := countable_json (fun l : list ShardView => forallb shard_ok l); cj_state_laws := countable_json_laws _;
    cj_state_partial := fun _ => [];
    cj_message := countable_json (fun m : Message => utf8_valid (msg_Key m)); cj_message_laws := countable_json_laws _;
    cj_meta := countable_json meta_ok; cj_meta_laws := countable_json_laws _;
    cj_meta_partial := fun _ => NodeMeta_zero |}.
  done.
Defined.
#[local] Existing Instance ex_cluster_json.

Definition ex_info : ShardInfo := mkInfo 7 {[1 := str "a"]} 3 1 4.
Lemma ex_info_truthful : truthful ex_members ex_leader ex_info.
Proof.
  split; [by vm_compute|]. apply Forall_cons; split; [|by apply Forall_nil].
  unfold consistent, noLeader; cbn; split_and!; try done; lia.
Qed.

Definition ex_g1 : gstate (N := bool) :=
  mkG (set_view (g_views g_init) true (update newView (toShardViewList [ex_info]))) [].
Lemma ex_g_step : g_step (truthful ex_members ex_leader) was_sent g_init ex_g1.
Proof. apply (g_notify _ _ true [ex_info]). apply Forall_singleton, ex_info_truthful. Qed.

(** A node hears of a shard and sends its state; bytes that are no state
    arrive at it, and its state at the other. *)
Definition ex_sent : bytes := (LocalState id [] (g_views ex_g1 true)).2.
Definition ex_heard : bool -> list ShardView :=
  hears (hears (hears (hears (fun _ => []) true (toShardViewList [ex_info])) true (toShardViewList [])) true (remote_updates (str "{")))
    false (remote_updates ex_sent).
Definition ex_g4 : gstate (N := bool) :=
  let v1 := (LocalState id [] (g_views ex_g1 true)).1 in
  let views2 := set_view (g_views ex_g1) true v1 in
  let views3 := set_view views2 true (MergeRemoteState (str "{") (views2 true)) in
  mkG (set_view views3 false (MergeRemoteState ex_sent (views3 false))) [ex_sent].

Lemma ex_g_history : g_history (truthful ex_members ex_leader) (fun _ _ => True) ex_g4 ex_heard.
Proof.
  apply h_merge; [|done]. apply h_merge; [|done].
  apply (h_local _ _ true [] id (g_views ex_g1) [] (hears (fun _ => []) true (toShardViewList [ex_info]))); [|done|done].
  apply (h_notify _ _ true [ex_info] (fun _ => newView) []); [constructor|]. apply Forall_singleton, ex_info_truthful.
Qed.

Lemma views_typed_witness :
  (newest_config (about 7 (ex_heard true)) (mkShard 7 {[1 := str "a"]} 3 1 4)
   /\ newest_leader (about 7 (ex_heard true)) (mkShard 7 {[1 := str "a"]} 3 1 4))
  /\ exists n us l, us `prefix_of` ex_heard n /\ json_Unmarshal (A := list ShardView) ex_sent = Ok l
       /\ list_to_map ((fun u => (sv_ShardID u, u)) <$> l) = update newView us.
Proof.
  destruct (views_typed (truthful ex_members ex_leader) (fun _ _ => True) ex_g4 ex_heard) as (_ & Hn & Hs).
  - by intros i [? _].
  - exact ex_g_history.
  - split; [exact (proj2 (Hn true 7))|]. apply Hs. left.
Defined.

Lemma gossip_truthful_witness :
  (exists change term, mkShard 7 {[1 := str "a"]} 3 1 4 = known ex_members ex_leader 7 change term /\ 0 <= change /\ 0 <= term /\ terms_led ex_leader 7 term)
  /\ exists e', g_views ex_g1 true !! 7 = Some e' /\ 3 <= sv_ConfigChangeIndex e' /\ 4 <= sv_Term e'.
Proof.
  exact (gossip_truthful ex_members ex_leader ex_g1 ex_g1 true 7 (mkShard 7 {[1 := str "a"]} 3 1 4)
    (rtc_once _ _ ex_g_step) (rtc_refl _ _) eq_refl).
Defined.

Lemma exchange_agrees_witness :
  let '(v1, b1) := LocalState id [ex_info] (update newView []) in
  let '(v2, b2) := LocalState id [] (update newView []) in
  MergeRemoteState b2 v1 = MergeRemoteState b1 v2
  /\ MergeRemoteState b2 v1 = update newView ([] ++ [] ++ toShardViewList [ex_info] ++ toShardViewList []).
Proof.
  refine (exchange_agrees ex_members ex_leader id id [ex_info] [] [] [] _ _ _ _ _ _); try done.
  apply Forall_singleton, ex_info_truthful.
Defined.
