(* ===== verification/Config.v ===== *)
(** * Configuration ([storage/config.go], [storage/table/config.go], [cmd])

    The configurations of a node, what is made of them for the Raft library
    ([createNodeHost], [tableRaftConfig], [metaRaftConfig]), and how the two
    commands that run a node fill them from its settings ([cmd/leader.go],
    [cmd/follower.go], [cmd/common.go]).  Settings are looked up by name in
    viper, which is an argument. *)

From S2P Require Import Prelude GoStd Fsm.

(** ** Records *)

Inductive LogDBImplementation := Tan | PebbleDB.

(** [TableConfig] and [MetaConfig]; the file system is left out. *)
Record TableConfig := mkTableConfig {
  tc_ElectionRTT : Z; tc_HeartbeatRTT : Z; tc_SnapshotEntries : Z; tc_CompactionOverhead : Z; tc_MaxInMemLogSize : Z;
  tc_DataDir : bytes; tc_BlockCacheSize : Z; tc_TableCacheSize : Z; tc_RecoveryType : byte
}.
Record MetaConfig := mkMetaConfig {
  mt_ElectionRTT : Z; mt_HeartbeatRTT : Z; mt_SnapshotEntries : Z; mt_CompactionOverhead : Z; mt_MaxInMemLogSize : Z
}.
Record GossipConfig := mkGossipConfig {
  gc_BindAddress : bytes; gc_AdvertiseAddress : bytes; gc_InitialMembers : list bytes
}.
(** [storage.Config]. *)
Record Config := mkStorageConfig {
  cf_ClientAddress : bytes; cf_NodeID : Z; cf_InitialMembers : gmap Z bytes;
  cf_WALDir : bytes; cf_NodeHostDir : bytes; cf_RTTMillisecond : Z; cf_RaftAddress : bytes; cf_ListenAddress : bytes;
  cf_EnableMetrics : bool; cf_MaxSendQueueSize : Z; cf_MaxReceiveQueueSize : Z; cf_NotifyCommit : bool;
  cf_Gossip : GossipConfig; cf_Table : TableConfig; cf_Meta : MetaConfig;
  cf_LogDBImplementation : LogDBImplementation; cf_LogCacheSize : Z
}.
(** [table.Config]. *)
Record tableManagerConfig := mkTableManagerConfig { tm_NodeID : Z; tm_Table : TableConfig; tm_Meta : MetaConfig }.

(** ** The Raft library *)

(** [config.LogDBConfig] and [config.NodeHostConfig], the fields that are set. *)
Record LogDBConfig := mkLogDBConfig { ld_KVRecycleLogFileNum : Z; ld_KVMaxBytesForLevelBase : Z }.
Record NodeHostConfig := mkNodeHostConfig {
  nh_WALDir : bytes; nh_NodeHostDir : bytes; nh_RTTMillisecond : Z; nh_RaftAddress : bytes; nh_ListenAddress : bytes;
  nh_EnableMetrics : bool; nh_MaxReceiveQueueSize : Z; nh_MaxSendQueueSize : Z;
  nh_tan : bool; nh_LogDB : LogDBConfig
}.

Definition buildLogDBConfig : LogDBConfig := mkLogDBConfig 4 (128 * 1024 * 1024).

(** [createNodeHost]: the configuration of the host. *)
Definition createNodeHost (cfg : Config) : NodeHostConfig :=
  mkNodeHostConfig (cf_WALDir cfg) (cf_NodeHostDir cfg) (cf_RTTMillisecond cfg) (cf_RaftAddress cfg) (cf_ListenAddress cfg)
    true (cf_MaxReceiveQueueSize cfg) (cf_MaxSendQueueSize cfg)
    (match cf_LogDBImplementation cfg with Tan => true | PebbleDB => false end) buildLogDBConfig.

(** [config.Config] of a replica, the fields that are set. *)
Inductive CompressionType := NoCompression | Snappy.
Record RaftConfig := mkRaftConfig {
  rf_ReplicaID : Z; rf_ShardID : Z; rf_CheckQuorum : bool; rf_PreVote : bool; rf_OrderedConfigChange : bool;
  rf_ElectionRTT : Z; rf_HeartbeatRTT : Z; rf_SnapshotEntries : Z; rf_CompactionOverhead : Z; rf_MaxInMemLogSize : Z;
  rf_SnapshotCompressionType : CompressionType
}.

Definition metaFSMClusterID : Z := 1000.

Definition tableRaftConfig (nodeID clusterID : Z) (cfg : TableConfig) : RaftConfig :=
  mkRaftConfig nodeID clusterID true false true (tc_ElectionRTT cfg) (tc_HeartbeatRTT cfg) (tc_SnapshotEntries cfg)
    (tc_CompactionOverhead cfg) (tc_MaxInMemLogSize cfg) Snappy.
Definition metaRaftConfig (nodeID : Z) (cfg : MetaConfig) : RaftConfig :=
  mkRaftConfig nodeID metaFSMClusterID true true true (mt_ElectionRTT cfg) (mt_HeartbeatRTT cfg) (mt_SnapshotEntries cfg)
    (mt_CompactionOverhead cfg) (mt_MaxInMemLogSize cfg) NoCompression.

(** ** Settings *)

(** Viper: the value of a setting, read at a type. *)
Record Viper := mkViper {
  GetString : bytes -> bytes;
  GetUint64 : bytes -> Z;
  GetInt : bytes -> Z;
  GetInt64 : bytes -> Z;
  (** Nanoseconds. *)
  GetDuration : bytes -> Z;
  GetStringSlice : bytes -> list bytes;
  (** The entries in the order in which the map is visited. *)
  GetStringMapString : bytes -> list (bytes * bytes)
}.

Definition toRecoveryType (windows : bool) (s : bytes) : byte :=
  if decide (s = str "snapshot") then RecoveryTypeSnapshot
  else if decide (s = str "checkpoint") then RecoveryTypeCheckpoint
  else if windows then RecoveryTypeSnapshot else RecoveryTypeCheckpoint.

Fixpoint parseInitialMembers_go (members : list (bytes * bytes)) (initialMembers : gmap Z bytes) : res (gmap Z bytes) :=
  match members with
  | [] => Ok initialMembers
  | (kStr, v) :: members' => kUint ← ParseUint kStr; parseInitialMembers_go members' (<[kUint := v]> initialMembers)
  end.
Definition parseInitialMembers (members : list (bytes * bytes)) : res (gmap Z bytes) := parseInitialMembers_go members ∅.

(** [Duration.Milliseconds], which truncates towards zero. *)
Definition Milliseconds (d : Z) : Z := Z.quot d 1000000.

Section Settings.
Context (windows : bool) (v : Viper).

(** [log.Panic] ends the command. *)
Definition or_panic {A} (r : res A) : res A := match r with Err _ => Panic | _ => r end.

Definition logdb_of (s : bytes) : res LogDBImplementation :=
  if decide (s = str "pebble") then Ok PebbleDB else if decide (s = str "tan") then Ok Tan else Panic.

Definition gossip_of : GossipConfig :=
  mkGossipConfig (GetString v (str "memberlist.address")) (GetString v (str "memberlist.advertise-address"))
    (GetStringSlice v (str "memberlist.members")).
Definition table_of : TableConfig :=
  mkTableConfig (GetUint64 v (str "raft.election-rtt")) (GetUint64 v (str "raft.heartbeat-rtt"))
    (GetUint64 v (str "raft.snapshot-entries")) (GetUint64 v (str "raft.compaction-overhead"))
    (GetUint64 v (str "raft.max-in-mem-log-size")) (GetString v (str "raft.state-machine-dir"))
    (GetInt64 v (str "storage.block-cache-size")) (GetInt v (str "storage.table-cache-size"))
    (toRecoveryType windows (GetString v (str "raft.snapshot-recovery-type"))).
Definition meta_of : MetaConfig :=
  mkMetaConfig (GetUint64 v (str "raft.election-rtt")) (GetUint64 v (str "raft.heartbeat-rtt"))
    (GetUint64 v (str "raft.snapshot-entries")) (GetUint64 v (str "raft.compaction-overhead"))
    (GetUint64 v (str "raft.max-in-mem-log-size")).

(** The configuration a leader makes; a follower sets no size of the log cache. *)
Definition leader_config : res Config :=
  members ← or_panic (parseInitialMembers (GetStringMapString v (str "raft.initial-members")));
  logdb ← logdb_of (GetString v (str "raft.logdb"));
  Ok (mkStorageConfig [] (GetUint64 v (str "raft.node-id")) members
        (GetString v (str "raft.wal-dir")) (GetString v (str "raft.node-host-dir"))
        (uint64 (Milliseconds (GetDuration v (str "raft.rtt"))))
        (GetString v (str "raft.address")) (GetString v (str "raft.listen-address")) true
        (GetUint64 v (str "raft.max-send-queue-size")) (GetUint64 v (str "raft.max-recv-queue-size")) false
        gossip_of table_of meta_of logdb (GetInt v (str "replication.log-cache-size"))).
Definition follower_config : res Config :=
  members ← or_panic (parseInitialMembers (GetStringMapString v (str "raft.initial-members")));
  logdb ← logdb_of (GetString v (str "raft.logdb"));
  Ok (mkStorageConfig [] (GetUint64 v (str "raft.node-id")) members
        (GetString v (str "raft.wal-dir")) (GetString v (str "raft.node-host-dir"))
        (uint64 (Milliseconds (GetDuration v (str "raft.rtt"))))
        (GetString v (str "raft.address")) (GetString v (str "raft.listen-address")) true
        (GetUint64 v (str "raft.max-send-queue-size")) (GetUint64 v (str "raft.max-recv-queue-size")) false
        gossip_of table_of meta_of logdb 0).
End Settings.

(** ** Options of the storage engine ([pebble/pebble.go]) *)

(** [pebble.LevelOptions], what is set; a filter has a number of bits per key. *)
Record LevelOptions := mkLevel {
  lo_BlockSize : Z; lo_FilterPolicy : option Z; lo_IndexBlockSize : Z; lo_TargetFileSize : Z
}.
(** [pebble.Options], the scalars and the levels. *)
Record PebbleOptions := mkPebbleOptions {
  po_L0CompactionFileThreshold : Z; po_L0StopWritesThreshold : Z; po_LBaseMaxBytes : Z; po_Levels : list LevelOptions;
  po_MemTableSize : Z; po_MemTableStopWritesThreshold : Z; po_DisableWAL : bool; po_MaxOpenFiles : Z
}.

(** The loop over the levels. *)
Fixpoint level_options (n : nat) (sz : Z) : list LevelOptions :=
  match n with
  | O => []
  | S n' => mkLevel (32 * 1024) (Some 10) (256 * 1024) sz :: level_options n' (sz * 2)
  end.
Definition drop_last_filter (ls : list LevelOptions) : list LevelOptions :=
  alter (fun o => mkLevel (lo_BlockSize o) None (lo_IndexBlockSize o) (lo_TargetFileSize o)) (length ls - 1)%nat ls.
Definition DefaultOptions : PebbleOptions :=
  mkPebbleOptions 8 256 (64 * 1024 * 1024) (drop_last_filter (level_options 7 (16 * 1024 * 1024)))
    (16 * 1024 * 1024) 4 true 1000.
(** [OpenDB]: the options are applied in order. *)
Definition OpenDB_options (options : list (PebbleOptions -> PebbleOptions)) : PebbleOptions :=
  foldl (fun opts f => f opts) DefaultOptions options.

(** ** Workers of the replication ([replication/replication.go], [replication/worker.go]) *)

(** [WorkerConfig] and [Config]; times are nanoseconds. *)
Record WorkerConfig := mkWorkerConfig {
  wc_PollInterval : Z; wc_LeaseInterval : Z; wc_LogRPCTimeout : Z; wc_SnapshotRPCTimeout : Z;
  wc_MaxRecoveryInFlight : Z; wc_MaxSnapshotRecv : Z
}.
Record replicationConfig := mkReplicationConfig { rc_ReconcileInterval : Z; rc_Workers : WorkerConfig }.

(** The conversion [int64] of a 64-bit number. *)
Definition to_int64 (z : Z) : Z := if uint64 z <? 2 ^ 63 then uint64 z else uint64 z - 2 ^ 64.
Definition replication_config (v : Viper) : replicationConfig :=
  mkReplicationConfig (GetDuration v (str "replication.reconcile-interval"))
    (mkWorkerConfig (GetDuration v (str "replication.poll-interval")) (GetDuration v (str "replication.lease-interval"))
       (GetDuration v (str "replication.log-rpc-timeout")) (GetDuration v (str "replication.snapshot-rpc-timeout"))
       (to_int64 (GetUint64 v (str "replication.max-recovery-in-flight")))
       (GetUint64 v (str "replication.max-snapshot-recv-bytes-per-second"))).

(** [worker.Start]: how long it sleeps first; [rand.Intn] panics when there is
    no number to draw. *)
Definition Start_delay (Intn : Z -> Z) (pollInterval : Z) : res Z :=
  let n := Milliseconds pollInterval in
  if n <=? 0 then Panic else Ok (Intn n * 1000000).

(** ** Tokens of the maintenance API *)

(** [authFunc]; [AuthFromMD] of the middleware library gets the token of a
    scheme from the meta data of a request. *)
Definition authFunc {MD} (AuthFromMD : MD -> bytes -> res bytes) (token : bytes) (md : MD) : res unit :=
  if decide (token = []) then Ok tt else
  t ← AuthFromMD md (str "bearer");
  if decide (token <> t) then Err ErrStatusUnauthenticated else Ok tt.

(** [tokenCredentials.GetRequestMetadata]. *)
Definition GetRequestMetadata (t : bytes) : list (bytes * bytes) :=
  if decide (t <> []) then [(str "authorization", str "Bearer " ++ t)] else [].

(** ** Properties *)

(** Files double in size from level to level, and only the last level has no
    filter. *)
Lemma DefaultOptions_levels i o :
  po_Levels DefaultOptions !! i = Some o ->
  lo_TargetFileSize o = 2 ^ (24 + Z.of_nat i) /\ (lo_FilterPolicy o = None <-> i = 6%nat).
Proof. do 7 (destruct i as [|i]; [by intros [= <-]|]). by destruct i. Qed.

(** A worker waits less than the interval at which it polls; one that polls
    more often than every millisecond panics when it is started. *)
Lemma Start_delay_spec Intn pollInterval :
  (forall n, 0 < n -> 0 <= Intn n < n) ->
  match Start_delay Intn pollInterval with
  | Ok d => 0 <= d < pollInterval
  | Err _ => False
  | Panic => pollInterval < 1000000
  end.
Proof.
  intros Hr. unfold Start_delay, Milliseconds. set (n := Z.quot pollInterval 1000000).
  pose proof (Z.quot_rem pollInterval 1000000 ltac:(lia)) as E. pose proof (Z.rem_bound_abs pollInterval 1000000 ltac:(lia)).
  fold n in E. destruct (Z.leb_spec n 0) as [Hn|Hn]; [lia|]. specialize (Hr n Hn).
  pose proof (Z.rem_nonneg pollInterval 1000000 ltac:(lia)). nia.
Qed.

Lemma parseInitialMembers_go_spec members acc :
  match parseInitialMembers_go members acc with
  | Ok m => exists ids, Forall2 (fun kv i => ParseUint (fst kv) = Ok i) members ids
      /\ m = list_to_map (reverse (zip ids members.*2)) ∪ acc
  | Err e => exists kv, kv ∈ members /\ ParseUint (fst kv) = Err e
  | Panic => exists kv, kv ∈ members /\ ParseUint (fst kv) = Panic
  end.
Proof.
  revert acc. induction members as [|[k a] members IH]; intros acc; cbn.
  { exists []. split; [constructor|]. symmetry. apply map_empty_union. }
  destruct (ParseUint k) as [i|e|] eqn:E; cbn; [|exists (k, a); split; [left|done]..].
  specialize (IH (<[i := a]> acc)). destruct (parseInitialMembers_go _ _) as [m|e|].
  - destruct IH as (ids & HF & ->). exists (i :: ids). split; [by constructor|].
    change (zip (i :: ids) (a :: members.*2)) with ((i, a) :: zip ids members.*2). rewrite reverse_cons, list_to_map_app. cbn [list_to_map foldr uncurry fst snd]. rewrite <- map_union_assoc. f_equal. by rewrite insert_empty, insert_union_singleton_l.
  - destruct IH as (kv & Hin & He). exists kv. split; [by right|done].
  - destruct IH as (kv & Hin & He). exists kv. split; [by right|done].
Qed.

(** The members of a cluster do not depend on the order in which the settings
    are visited when no two settings have the same number. *)
Lemma parseInitialMembers_members members m ids :
  parseInitialMembers members = Ok m -> Forall2 (fun kv i => ParseUint (fst kv) = Ok i) members ids -> NoDup ids ->
  m = list_to_map (zip ids members.*2).
Proof.
  intros Hp HF Hnd. pose proof (parseInitialMembers_go_spec members ∅) as H.
  change (parseInitialMembers_go members ∅) with (parseInitialMembers members) in H. rewrite Hp in H.
  destruct H as (ids' & HF' & ->). rewrite map_union_empty.
  assert (ids' = ids) as ->.
  { clear -HF HF'. revert ids' HF'. induction HF as [|x y l k Hx _ IH]; intros ids' HF'; inversion HF'; subst; [done|].
    f_equal; [congruence|by apply IH]. }
  apply list_to_map_proper; [|by rewrite reverse_Permutation].
  apply Forall2_length in HF. rewrite fmap_reverse, fst_zip by (rewrite length_fmap; lia). by rewrite reverse_Permutation.
Qed.

(** What a middleware that reads bearer tokens does with the meta data of a
    client: the token of the header, an error without one. *)
Record bearer_laws (AuthFromMD : list (bytes * bytes) -> bytes -> res bytes) : Prop := {
  bearer_token t : t <> [] -> AuthFromMD [(str "authorization", str "Bearer " ++ t)] (str "bearer") = Ok t;
  bearer_none : exists e, AuthFromMD [] (str "bearer") = Err e
}.

(** C28. The token decides who may use the maintenance API: a server with a
    token accepts exactly the requests of clients that were given the same
    token, and one without accepts everybody; whoever is refused gets an
    error, and no request panics. *)
Theorem token_decides AuthFromMD (server client : bytes) :
  bearer_laws AuthFromMD ->
  authFunc AuthFromMD server (GetRequestMetadata client) = Ok tt /\ (server = [] \/ server = client)
  \/ (exists e, authFunc AuthFromMD server (GetRequestMetadata client) = Err e) /\ server <> [] /\ server <> client.
Proof.
  intros [Ht [e He]]. unfold authFunc, GetRequestMetadata.
  destruct (decide (server = [])) as [|Hs]; [by left; split; [|left]|].
  destruct (decide (client <> [])) as [Hc|Hc].
  - rewrite Ht by done. cbn. destruct (decide (server <> client)) as [Hn|Hn].
    + right. by split; [eexists|].
    + left. split; [done|]. right. by apply dec_stable.
  - rewrite He. cbn. apply dec_stable in Hc as ->. right. by split; [eexists|].
Qed.

Definition ex_AuthFromMD (md : list (bytes * bytes)) (scheme : bytes) : res bytes :=
  match md with
  | (_, v) :: _ => if decide (take 7 v = str "Bearer ") then Ok (drop 7 v) else Err ErrStatusUnauthenticated
  | [] => Err ErrStatusUnauthenticated
  end.
Lemma ex_bearer : bearer_laws ex_AuthFromMD.
Proof. split; [done|by eexists]. Qed.
Lemma token_decides_witness :
  authFunc ex_AuthFromMD (str "secret") (GetRequestMetadata (str "guess")) <> Ok tt.
Proof. by destruct (token_decides ex_AuthFromMD (str "secret") (str "guess") ex_bearer) as [[_ [?|?]]|[[e ->] _]]. Defined.
