(* ===== verification/Engine.v ===== *)
(** * The storage engine ([storage/engine.go], [util/sync.go])

    The engine of a node is what the KV server calls: it looks the table of a
    request up, calls the table, and puts the shard, the replica and what the
    node knows of the shard's leader into the header of the response.  It also
    passes the events of the Raft library on to the log reader, and says what
    the node tells its cluster of itself.  The table manager's answer to the
    lookup is an argument. *)

From S2P Require Import Prelude Proto Pebble Query Command Fsm TableSpec QueryCorrect CommandCorrect FsmCorrect.
From S2P Require Import Table LogReader GoStd Effects View Cluster Config.

(** ** Requests *)

(** [withDefaultTimeout]; a context is its deadline, in milliseconds. *)
Definition defaultQueryTimeout : Z := 5 * 1000.
Definition withDefaultTimeout {Req Resp} (now : Z) (ctx : option Z) (req : Req) (f : option Z -> Req -> res Resp) : res Resp :=
  let ctx := match ctx with None => Some (now + defaultQueryTimeout) | Some _ => ctx end in
  f ctx req.

Section Engine.
Context {P : PebbleOps} {W : Type} {R : RaftOps (W := W)}.
(** The configured node, the lookup of the table manager, and the view of the
    cluster, time and context when a request is served. *)
Context (cfg : Config) (GetTable : bytes -> res TableInfo) (view : shardView) (now : Z) (ctx : option Z).

Definition Engine_getHeader (header : option ResponseHeader) (shardID : Z) : ResponseHeader :=
  let header := default (mkResponseHeader 0 0 0 0 0) header in
  let info := shardInfo view shardID in
  mkResponseHeader shardID (cf_NodeID cfg) (rh_Revision header) (sv_Term info) (sv_LeaderID info).

Definition Engine_Range (h : Host) (req : RangeRequest) : res RangeResponse :=
  t ← GetTable (rq_Table req);
  rng ← withDefaultTimeout now ctx req (fun _ => Range t h);
  Ok (mkRangeResponse (Some (Engine_getHeader None (tbl_ClusterID t))) (rp_Kvs rng) (rp_More rng) (rp_Count rng)).

Definition Engine_Put (h : Host) (req : PutRequest) : res (Host * PutResponse) :=
  t ← GetTable (pq_Table req);
  '(h, put) ← withDefaultTimeout now ctx req (fun _ => Put t h);
  Ok (h, mkPutResponse (Some (Engine_getHeader (pp_Header put) (tbl_ClusterID t))) (pp_PrevKv put)).

Definition Engine_Delete (h : Host) (req : DeleteRangeRequest) : res (Host * DeleteRangeResponse) :=
  t ← GetTable (dq_Table req);
  '(h, del) ← withDefaultTimeout now ctx req (fun _ => Delete t h);
  Ok (h, mkDeleteRangeResponse (Some (Engine_getHeader (dp_Header del) (tbl_ClusterID t))) (dp_Deleted del) (dp_PrevKvs del)).

Definition Engine_Txn (h : Host) (req : TxnRequest) : res (Host * TxnResponse) :=
  t ← GetTable (txr_Table req);
  '(h, tx) ← withDefaultTimeout now ctx req (fun _ => table_Txn t h);
  Ok (h, mkTxnResponse (Some (Engine_getHeader (txs_Header tx) (tbl_ClusterID t))) (txs_Succeeded tx) (txs_Responses tx)).
End Engine.

(** ** A map behind a lock ([SyncMap]) *)

(** The map, which is nil until something is stored. *)
Section SyncMap.
Context {V : Type}.
Definition SyncMap := option (gmap Z V).
Definition sm_make (s : SyncMap) : gmap Z V := default ∅ s.

Definition Load (s : SyncMap) (key : Z) : option V :=
  match s with None => None | Some m => m !! key end.
Definition Store (s : SyncMap) (key : Z) (val : V) : SyncMap := Some (<[key := val]> (sm_make s)).
Definition ComputeIfAbsent (s : SyncMap) (key : Z) (valFunc : Z -> V) : SyncMap * V :=
  let m := sm_make s in
  match m !! key with
  | Some v => (Some m, v)
  | None => let v := valFunc key in (Some (<[key := v]> m), v)
  end.
(** Deleting from a nil map does nothing. *)
Definition sm_Delete (s : SyncMap) (key : Z) : SyncMap := delete key <$> s.
End SyncMap.
Arguments SyncMap : clear implicits.

(** ** Events *)

(** [logreader.Interface], the two implementations. *)
Inductive reader_interface := RSimple | RCached (l : Cached).

(** [New]: the reader by the configured size of the cache. *)
Definition New_LogReader (cfg : Config) : reader_interface :=
  if 0 <? cf_LogCacheSize cfg then RCached (mkCached (cf_LogCacheSize cfg) ∅) else RSimple.
(** [New]: the configuration of the table manager. *)
Definition New_manager_config (cfg : Config) : tableManagerConfig :=
  mkTableManagerConfig (cf_NodeID cfg) (cf_Table cfg) (cf_Meta cfg).

(** [unimplementedLogReader], which [Simple] embeds, ignores events. *)
Definition on_cached (f : Cached -> Cached) (l : reader_interface) : reader_interface :=
  match l with RSimple => RSimple | RCached l => RCached (f l) end.

(** [raftio.NodeInfo] and the part of [raftio.EntryInfo] that is used. *)
Record NodeInfo := mkNodeInfo { ni_ShardID : Z; ni_ReplicaID : Z }.

Definition Engine_NodeDeleted (cfg : Config) (info : NodeInfo) (l : reader_interface) : reader_interface :=
  if ni_ReplicaID info =? cf_NodeID cfg then on_cached (fun l => NodeDeleted l (ni_ShardID info)) l else l.
Definition Engine_NodeReady (cfg : Config) (info : NodeInfo) (l : reader_interface) : reader_interface :=
  if ni_ReplicaID info =? cf_NodeID cfg then on_cached (fun l => NodeReady l (ni_ShardID info)) l else l.
Definition Engine_LogCompacted (cfg : Config) (info : NodeInfo) (l : reader_interface) : reader_interface :=
  if ni_ReplicaID info =? cf_NodeID cfg then on_cached (fun l => LogCompacted l (ni_ShardID info)) l else l.

(** [clusterInfo]: what the node tells of itself; the host has an id and the
    shards it runs. *)
Definition clusterInfo (cfg : Config) (hostID : bytes) (shards : list ShardInfo) : Info :=
  mkClusterInfo hostID (cf_NodeID cfg) (cf_RaftAddress cfg) [] shards.

(** [New]: the host, which the library makes, gives its id and the shards it
    runs; the parts of the engine that the configuration decides. *)
Record engine_parts := mkEngineParts {
  ep_manager : tableManagerConfig; ep_reader : reader_interface; ep_memberlist : mlConfig; ep_meta : NodeMeta
}.
Definition Engine_New (NewNodeHost : NodeHostConfig -> res (bytes * list ShardInfo)) (default_ : mlConfig) (cfg : Config)
    : res engine_parts :=
  '(hostID, shards) ← NewNodeHost (createNodeHost cfg);
  '(ml, meta) ← cluster_New default_ (gc_BindAddress (cf_Gossip cfg)) (gc_AdvertiseAddress (cf_Gossip cfg))
                  (clusterInfo cfg hostID shards);
  Ok (mkEngineParts (New_manager_config cfg) (New_LogReader cfg) ml meta).

(** [Start] and [Close], as calls of the parts. *)
Inductive engine_ev : Type -> Type :=
  | ClusterStart (members : list bytes) : engine_ev unit
  | ManagerStart : engine_ev (res unit)
  | ManagerClose : engine_ev unit
  | NodeHostClose : engine_ev unit.
Definition Engine_Start (cfg : Config) : M engine_ev unit :=
  Vis (ClusterStart (gc_InitialMembers (cf_Gossip cfg))) (fun _ => perform ManagerStart).
Definition Engine_Close : M engine_ev unit :=
  Vis ManagerClose (fun _ => Vis NodeHostClose (fun _ => M_ret tt)).

(** A node tells its cluster no address for clients, whatever is configured. *)
Lemma client_address_dropped NewNodeHost default_ cfg parts :
  Engine_New NewNodeHost default_ cfg = Ok parts -> nm_ClientAddress (ep_meta parts) = [].
Proof.
  intros ([hostID shards] & _ & ([ml meta] & HN & [= <-])%bind_Ok_inv)%bind_Ok_inv. unfold cluster_New in HN.
  apply bind_Ok_inv in HN as ([host port] & _ & ([a p] & _ & [= _ <-])%bind_Ok_inv). done.
Qed.

(** ** Properties *)

(** A method of a table always gets a deadline. *)
Lemma withDefaultTimeout_deadline {Req Resp} now ctx (req : Req) (f : option Z -> Req -> res Resp) :
  exists d, withDefaultTimeout now ctx req f = f (Some d) req /\ (ctx = Some d \/ ctx = None /\ d = now + 5000).
Proof. destruct ctx as [d|]; [exists d; auto|]. exists (now + 5000). auto. Qed.

(** A [SyncMap] is the map it holds, or the empty one. *)
Lemma SyncMap_refines {V} (s : SyncMap V) k (v : V) f :
  Load s k = sm_make s !! k
  /\ sm_make (Store s k v) = <[k := v]> (sm_make s)
  /\ sm_make (sm_Delete s k) = delete k (sm_make s)
  /\ (let '(s', x) := ComputeIfAbsent s k f in
      sm_make s' = <[k := x]> (sm_make s) /\ x = default (f k) (sm_make s !! k)).
Proof.
  split_and!; [by destruct s; cbn; rewrite ?lookup_empty|done|destruct s; cbn; [done|by rewrite delete_empty]|].
  unfold ComputeIfAbsent. destruct (sm_make s !! k) as [x|] eqn:E; cbn; [|done]. by rewrite insert_id.
Qed.

(** The events of the cached reader are operations of its [SyncMap]. *)
Lemma cached_events_SyncMap l id :
  shardCache (NodeDeleted l id) = sm_make (sm_Delete (Some (shardCache l)) id)
  /\ shardCache (NodeReady l id) = sm_make (ComputeIfAbsent (Some (shardCache l)) id (fun _ => newCache (ShardCacheSize l))).1
  /\ shardCache (LogCompacted l id) = sm_make (Store (Some (shardCache l)) id (newCache (ShardCacheSize l))).
Proof. split_and!; [done| |done]. unfold NodeReady, ComputeIfAbsent. cbn. by destruct (_ !! id). Qed.

Inductive raft_event := EvReady (i : NodeInfo) | EvDeleted (i : NodeInfo) | EvCompacted (i : NodeInfo).
Definition ev_info (e : raft_event) : NodeInfo := match e with EvReady i | EvDeleted i | EvCompacted i => i end.
Definition engine_event (cfg : Config) (l : reader_interface) (e : raft_event) : reader_interface :=
  match e with
  | EvReady i => Engine_NodeReady cfg i l
  | EvDeleted i => Engine_NodeDeleted cfg i l
  | EvCompacted i => Engine_LogCompacted cfg i l
  end.
Definition concerns (cfg : Config) (id : Z) (e : raft_event) : bool :=
  (ni_ReplicaID (ev_info e) =? cf_NodeID cfg) && (ni_ShardID (ev_info e) =? id).
Definition has_cache (l : reader_interface) (id : Z) : Prop :=
  match l with RSimple => False | RCached l => is_Some (shardCache l !! id) end.

(** What an event does to the cache of a shard. *)
Lemma engine_event_lookup cfg c e : exists c', engine_event cfg (RCached c) e = RCached c' /\ ShardCacheSize c' = ShardCacheSize c
  /\ forall id, shardCache c' !! id =
       if concerns cfg id e then
         match e with
         | EvReady _ => Some (default (newCache (ShardCacheSize c)) (shardCache c !! id))
         | EvDeleted _ => None
         | EvCompacted _ => Some (newCache (ShardCacheSize c))
         end
       else shardCache c !! id.
Proof.
  unfold engine_event, Engine_NodeReady, Engine_NodeDeleted, Engine_LogCompacted, concerns.
  destruct e as [[s r]|[s r]|[s r]]; cbn; (destruct (r =? cf_NodeID cfg); cbn; [|by exists c]);
    eexists; (split; [done|]); (split; [try done|intros id; destruct (Z.eqb_spec s id) as [->|Hn]]); cbn.
  - unfold NodeReady. by destruct (shardCache c !! s).
  - unfold NodeReady. destruct (shardCache c !! id) eqn:E; cbn; [done|by rewrite lookup_insert_eq].
  - unfold NodeReady. destruct (shardCache c !! s); cbn; [done|by rewrite lookup_insert_ne].
  - by rewrite lookup_delete_eq.
  - by rewrite lookup_delete_ne.
  - by rewrite lookup_insert_eq.
  - by rewrite lookup_insert_ne.
Qed.

(** The log reader serves the shards of the node: after any events of the
    Raft host, those of other replicas included, a shard has a cache exactly
    if the last event of the node's own replica of it is not its removal, and
    every cache has the configured size. *)
Theorem caches_follow_replicas cfg events l :
  0 < cf_LogCacheSize cfg -> l = foldl (engine_event cfg) (New_LogReader cfg) events ->
  (forall id, has_cache l id <->
     exists e, last (filter (fun e => concerns cfg id e = true) events) = Some e /\ forall i, e <> EvDeleted i)
  /\ exists c, l = RCached c /\ ShardCacheSize c = cf_LogCacheSize cfg
     /\ forall id sh, shardCache c !! id = Some sh -> size sh = cf_LogCacheSize cfg.
Proof.
  intros Hsz ->. induction events as [|e events IH] using rev_ind.
  { unfold New_LogReader. rewrite (proj2 (Z.ltb_lt _ _) Hsz). cbn. split.
    - intros id. rewrite lookup_empty. split; [by intros []|by intros (? & ? & _)].
    - eexists. split_and!; [done..|]. intros id sh. cbn [shardCache]. by rewrite lookup_empty. }
  rewrite foldl_app. cbn [foldl]. destruct IH as (Hc & c & El & Hcs & Hall). rewrite El in *.
  destruct (engine_event_lookup cfg c e) as (c' & -> & Hs' & Hl). split.
  - intros id. cbn. rewrite Hl, filter_app. destruct (concerns cfg id e) eqn:E.
    + rewrite filter_cons_True, filter_nil, last_snoc by done.
      destruct e; (split; [intros [? ?]; try done; eexists; (split; [done|]); done|intros (? & [= <-] & Hn); try (by eexists); by edestruct Hn]).
    + rewrite filter_cons_False, filter_nil, app_nil_r by congruence. apply (Hc id).
  - exists c'. split_and!; [done|congruence|]. intros id sh. rewrite Hl. destruct (concerns cfg id e); [|by apply Hall].
    destruct e; [|done|by intros [= <-]]. intros [= <-]. destruct (shardCache c !! id) eqn:E; cbn; [by eapply Hall|done].
Qed.

Definition ex_config (size : Z) : Config :=
  mkStorageConfig [] 1 ∅ [] (str "/data") 50 (str "127.0.0.1:5012") [] true 0 0 false (mkGossipConfig (str "127.0.0.1:7432") [] [])
    (mkTableConfig 20 1 10000 5000 6291456 (str "/tables") 16777216 1024 RecoveryTypeCheckpoint)
    (mkMetaConfig 20 1 10000 5000 6291456) Tan size.
Lemma caches_follow_replicas_witness :
  has_cache (foldl (engine_event (ex_config 8)) (New_LogReader (ex_config 8)) [EvReady (mkNodeInfo 10001 1); EvDeleted (mkNodeInfo 10001 2)]) 10001.
Proof.
  apply (proj2 (proj1 (caches_follow_replicas (ex_config 8) [EvReady (mkNodeInfo 10001 1); EvDeleted (mkNodeInfo 10001 2)] _
    ltac:(reflexivity) eq_refl) 10001)).
  by exists (EvReady (mkNodeInfo 10001 1)).
Defined.

(** ** The KV service over the engine and the tables *)

Section Service.
Context {P : PebbleOps} {L : PebbleLaws P} {HH : PebbleHealthy P} {W : Type} {Write : W -> bytes -> res W}.
Context {R : RaftOps (W := W)} {RL : RaftLaws Write R}.
Context (cfg : Config) (GetTable : bytes -> res TableInfo).

(** What a reply says of the calls below it. *)
Lemma to_reply_Ok {A} (r : res A) a : to_reply r = Reply a -> r = Ok a.
Proof. destruct r; cbn; [by intros [= ->]|by case_decide|done]. Qed.

Lemma KVServer_Put_inv {S} (storage : PutRequest -> res (S * PutResponse)) req r :
  KVServer_Put storage req = Reply r -> storage req = Ok r /\ pq_Key req <> [].
Proof.
  unfold KVServer_Put. destruct (_ =? 0); [done|]. destruct (len (pq_Key req) =? 0) eqn:E; [done|].
  intros H%to_reply_Ok. split; [done|]. intros H0. by rewrite H0 in E.
Qed.
Lemma KVServer_Range_inv storage req r : KVServer_Range storage req = Reply r -> storage req = Ok r.
Proof. unfold KVServer_Range. repeat (case_match; [done|]). apply to_reply_Ok. Qed.

Lemma Put_other t h req h' resp id :
  Put t h req = Ok (h', resp) -> id <> tbl_ClusterID t -> shard h' id = shard h id.
Proof using RL.
  unfold Put. intros H Hid. repeat (case_match; [done|]).
  apply bind_Ok_inv in H as ([h2 [r rev]] & Hp & [= <- _]). by eapply proposeTable_other.
Qed.

Lemma Engine_Put_inv view now ctx h req h' resp :
  Engine_Put cfg GetTable view now ctx h req = Ok (h', resp) ->
  exists t put, GetTable (pq_Table req) = Ok t /\ Put t h req = Ok (h', put)
    /\ resp = mkPutResponse (Some (Engine_getHeader cfg view (pp_Header put) (tbl_ClusterID t))) (pp_PrevKv put).
Proof.
  intros (t & Ht & ([h2 put] & Hp & [= <- <-])%bind_Ok_inv)%bind_Ok_inv. by exists t, put.
Qed.

(** C18. A put, from the service to the state machine: when the server replies
    to a put, the table of the request maps the key to the value and every
    other key to what it was, no shard but the one of the table has changed,
    and the response has the pair that was replaced, if it was asked for, the
    shard, the replica that served it, the revision of the change, and the
    leader and term the node knows of. *)
Theorem server_put view now ctx h req h' resp t p st :
  GetTable (pq_Table req) = Ok t -> shard h (tbl_ClusterID t) = Some p -> represents (db_view (fsm_pebble p)) st ->
  len (pq_Table req) < 2 ^ 60 -> (forall d v, t_kv st !! d = Some v -> len d + len v < 2 ^ 61) ->
  KVServer_Put (Engine_Put cfg GetTable view now ctx h) req = Reply (h', resp) ->
  exists p' rev, shard h' (tbl_ClusterID t) = Some p'
    /\ represents (db_view (fsm_pebble p')) (mkTState (<[pq_Key req := pq_Value req]> (t_kv st)) rev (t_leader st))
    /\ (forall id, id <> tbl_ClusterID t -> shard h' id = shard h id)
    /\ pp_PrevKv resp = (if pq_PrevKv req then prev_of (t_kv st) (pq_Key req) else None)
    /\ pp_Header resp = Some (mkResponseHeader (tbl_ClusterID t) (cf_NodeID cfg) rev
         (sv_Term (shardInfo view (tbl_ClusterID t))) (sv_LeaderID (shardInfo view (tbl_ClusterID t)))).
Proof using L HH RL.
  intros Ht Hp Hrep Htl Hlen [H _]%KVServer_Put_inv. apply Engine_Put_inv in H as (t' & put & Ht' & HP & ->).
  rewrite Ht in Ht'. injection Ht' as <-.
  destruct (Put_spec t h req h' put p st Hp Hrep Htl Hlen HP) as (p' & rev & Hp' & Hrep' & ->).
  exists p', rev. split_and!; [done|done| |done|done]. intros id Hid. by eapply Put_other.
Qed.

(** C19. Read your writes, through the service: after a put that the server
    replied to, a linearizable range request for the key, served with whatever
    the node then knows of its cluster, is answered with the value that was
    put and the shard and replica that served it.  The header has no revision:
    the one of the table is not looked up. *)
Theorem server_put_then_range view now ctx h req h' presp view' now' ctx' rreq resp t p st :
  GetTable (pq_Table req) = Ok t -> shard h (tbl_ClusterID t) = Some p -> represents (db_view (fsm_pebble p)) st ->
  len (pq_Table req) < 2 ^ 60 -> (forall d v, t_kv st !! d = Some v -> len d + len v < 2 ^ 61) ->
  KVServer_Put (Engine_Put cfg GetTable view now ctx h) req = Reply (h', presp) ->
  rq_Table rreq = pq_Table req -> rq_Key rreq = pq_Key req -> rq_RangeEnd rreq = None -> rq_Linearizable rreq = true ->
  rq_KeysOnly rreq = false -> rq_CountOnly rreq = false ->
  KVServer_Range (Engine_Range cfg GetTable view' now' ctx' h') rreq = Reply resp ->
  resp = mkRangeResponse
    (Some (mkResponseHeader (tbl_ClusterID t) (cf_NodeID cfg) 0
       (sv_Term (shardInfo view' (tbl_ClusterID t))) (sv_LeaderID (shardInfo view' (tbl_ClusterID t)))))
    [mkKeyValue (pq_Key req) 0 0 (pq_Value req) []] false 1.
Proof using L HH RL.
  intros Ht Hp Hrep Htl Hlen [H _]%KVServer_Put_inv Htab Hk Hre Hlin Hko Hco HR%KVServer_Range_inv.
  apply Engine_Put_inv in H as (t' & put & Ht' & HP & _). rewrite Ht in Ht'. injection Ht' as <-.
  unfold Engine_Range in HR. rewrite Htab, Ht in HR. cbn [mbind res_bind] in HR.
  apply bind_Ok_inv in HR as (rng & Hr & [= <-]). unfold withDefaultTimeout in Hr.
  by rewrite (Put_then_Range t h req h' put p st rreq rng Hp Hrep Htl Hlen HP Hk Hre Hlin Hko Hco Hr).
Qed.
End Service.

Definition ex_GetTable (name : bytes) : res TableInfo := if decide (name = str "t") then Ok table1 else Err ErrTableNotFound.
Definition ex_view : shardView := {[1 := mkShard 1 ∅ 1 3 7]}.
Definition ex_put := KVServer_Put (Engine_Put (R := mem_raft) (ex_config 0) ex_GetTable ex_view 0 None empty_fsm) put_a.

Lemma empty_state_short d v : t_kv empty_state !! d = Some v -> len d + len v < 2 ^ 61.
Proof. unfold empty_state. cbn [t_kv]. by rewrite lookup_empty. Qed.

Lemma server_put_witness :
  match ex_put with
  | Reply (h', resp) => exists rev, pp_Header resp = Some (mkResponseHeader 1 1 rev 7 3)
  | _ => False
  end.
Proof.
  assert (match ex_put with Reply _ => true | _ => false end = true) as Hok by (vm_compute; reflexivity).
  destruct ex_put as [[h' resp]|c|] eqn:E; [|discriminate Hok|discriminate Hok].
  destruct (server_put (HH := mem_pebble_healthy) (RL := mem_raft_laws) (ex_config 0) ex_GetTable ex_view 0 None empty_fsm put_a h' resp
    table1 empty_fsm empty_state) as (p' & rev & _ & _ & _ & _ & Hh);
    [reflexivity|reflexivity|exact empty_represents|reflexivity|exact empty_state_short|exact E|].
  exists rev. exact Hh.
Defined.

Lemma server_put_then_range_witness :
  match ex_put with
  | Reply (h', _) =>
      match KVServer_Range (Engine_Range (R := mem_raft) (ex_config 0) ex_GetTable ex_view 0 None h') get_a with
      | Reply resp => resp = mkRangeResponse (Some (mkResponseHeader 1 1 0 7 3)) [mkKeyValue (str "a") 0 0 (str "1") []] false 1
      | _ => False
      end
  | _ => False
  end.
Proof.
  assert (match ex_put with
          | Reply (h', _) => match KVServer_Range (Engine_Range (R := mem_raft) (ex_config 0) ex_GetTable ex_view 0 None h') get_a with
                             | Reply _ => true | _ => false end
          | _ => false end = true) as Hok by (vm_compute; reflexivity).
  destruct ex_put as [[h' presp]|c|] eqn:E; [|discriminate Hok|discriminate Hok].
  destruct (KVServer_Range _ get_a) as [resp|c|] eqn:E2; [|discriminate Hok|discriminate Hok].
  refine (server_put_then_range (HH := mem_pebble_healthy) (RL := mem_raft_laws) (ex_config 0) ex_GetTable ex_view 0 None empty_fsm put_a
    h' presp ex_view 0 None get_a resp table1 empty_fsm empty_state _ _ empty_represents _ empty_state_short E _ _ _ _ _ _ E2);
    reflexivity.
Defined.
