(* ===== verification/ManagerLife.v ===== *)
(** * The life of the table manager ([storage/table/manager.go])

    [Start] runs a routine that waits until the metadata shard has a leader
    and then starts the routines that reconcile and clean up tables and lets
    [WaitUntilReady] return; [Close] ends them all.  The routines are a step
    relation on where each of them is and on the two channels that are closed.
    The rounds of the loops are the programs of [Manager]. *)

From S2P Require Import Prelude GoStd Table Manager Config.

(** ** Making a manager *)

(** What [NewManager] sets; times are nanoseconds. *)
Record manager_fields := mkManagerFields {
  mg_reconcileInterval : Z; mg_cleanupInterval : Z; mg_cleanupGracePeriod : Z; mg_cleanupTimeout : Z;
  mg_members : gmap Z bytes; mg_cfg : tableManagerConfig; mg_store : Z; mg_tables : gmap bytes TableInfo
}.
Definition Second : Z := 1000000000.
Definition NewManager (members : gmap Z bytes) (cfg : tableManagerConfig) : manager_fields :=
  mkManagerFields (30 * Second) (30 * Second) (5 * 60 * Second) (5 * 60 * Second) members cfg metaFSMClusterID ∅.
(** What the operations of [Manager] use of it. *)
Definition manager_config (m : manager_fields) : ManagerConfig :=
  mkConfig (tm_NodeID (mg_cfg m)) (tc_MaxInMemLogSize (tm_Table (mg_cfg m))) (mg_members m) (mg_cleanupGracePeriod m).

(** ** Starting shards *)

(** [Start]: the members and the configuration that the replica is started
    with; one that has been started before takes its members from its log. *)
Definition Start_replica (hasNodeInfo : bool) (members : gmap Z bytes) (cfg : tableManagerConfig) : gmap Z bytes * RaftConfig :=
  if hasNodeInfo then (∅, metaRaftConfig (tm_NodeID cfg) (tm_Meta cfg)) else (members, metaRaftConfig (tm_NodeID cfg) (tm_Meta cfg)).
(** [startTable], likewise for a table. *)
Definition startTable_replica (hasNodeInfo : bool) (members : gmap Z bytes) (cfg : tableManagerConfig) (id : Z) : gmap Z bytes * RaftConfig :=
  if hasNodeInfo then (∅, tableRaftConfig (tm_NodeID cfg) id (tm_Table cfg)) else (members, tableRaftConfig (tm_NodeID cfg) id (tm_Table cfg)).

(** ** The cache of active tables *)

Definition cacheTable (tables : gmap bytes TableInfo) (tbl : TableInfo) : gmap bytes TableInfo := <[tbl_Name tbl := tbl]> tables.
Definition clearTable (tables : gmap bytes TableInfo) (clusterID : Z) : gmap bytes TableInfo :=
  filter (fun '(_, activeTable) => tbl_ClusterID activeTable <> clusterID) tables.

(** ** Routines *)

(** A loop: in a round, between rounds, returned. *)
Inductive loop := NotStarted | Round | Waiting | Returned.
(** The routine of [Start]: polling, between the calls once there is a leader,
    returned. *)
Inductive starter := Polling | StartCleanup | CloseReady | StarterReturned.

Record life := mkLife {
  lf_starter : starter;
  lf_reconcile : loop;
  lf_cleanup : loop;
  lf_ready : bool;      (** [readyChan] is closed *)
  lf_closed : bool;     (** [closed] is closed *)
  lf_leader : bool;     (** the metadata shard has a leader that is known *)
  lf_elected : bool;    (** it has had one *)
  lf_panic : bool;      (** a closed channel was closed *)
  lf_closes : nat       (** how often [Close] was called *)
}.
(** After [NewManager] and [Start]. *)
Definition life_init : life := mkLife Polling NotStarted NotStarted false false false false false 0.

(** A step of a loop: a round, a tick, or the end. *)
Inductive loop_step (closed : bool) : loop -> loop -> Prop :=
  | loop_round : loop_step closed Round Waiting
  | loop_tick : loop_step closed Waiting Round
  | loop_return : closed = true -> loop_step closed Waiting Returned.
Definition reconcileLoop := loop_step.
Definition cleanupLoop := loop_step.

(** [Close] closes a channel, which panics if it is closed. *)
Definition manager_Close (s : life) : life :=
  mkLife (lf_starter s) (lf_reconcile s) (lf_cleanup s) (lf_ready s) true (lf_leader s) (lf_elected s)
    (lf_panic s || lf_closed s) (S (lf_closes s)).

Inductive life_step : life -> life -> Prop :=
  (** The leader comes and goes. *)
  | life_leader b st r c rd cl le el p n :
      life_step (mkLife st r c rd cl le el p n) (mkLife st r c rd cl b (el || b) p n)
  (** A tick of [Start]'s routine, which may find no leader; its end. *)
  | life_poll r c rd cl el p n :
      life_step (mkLife Polling r c rd cl true el p n) (mkLife StartCleanup Round c rd cl true el p n)
  | life_poll_none r c rd cl el p n :
      life_step (mkLife Polling r c rd cl false el p n) (mkLife Polling r c rd cl false el p n)
  | life_poll_closed r c rd le el p n :
      life_step (mkLife Polling r c rd true le el p n) (mkLife StarterReturned r c rd true le el p n)
  | life_start_cleanup r c rd cl le el p n :
      life_step (mkLife StartCleanup r c rd cl le el p n) (mkLife CloseReady r Round rd cl le el p n)
  | life_close_ready r c rd cl le el p n :
      life_step (mkLife CloseReady r c rd cl le el p n) (mkLife StarterReturned r c true cl le el (p || rd) n)
  | life_reconcile st r r' c rd cl le el p n :
      reconcileLoop cl r r' -> life_step (mkLife st r c rd cl le el p n) (mkLife st r' c rd cl le el p n)
  | life_cleanup st r c c' rd cl le el p n :
      cleanupLoop cl c c' -> life_step (mkLife st r c rd cl le el p n) (mkLife st r c' rd cl le el p n)
  | life_close s : life_step s (manager_Close s).

(** What [WaitUntilReady] may return: a [select] of two channels. *)
Inductive WaitUntilReady (s : life) : res unit -> Prop :=
  | wait_ready : lf_ready s = true -> WaitUntilReady s (Ok tt)
  | wait_closed : lf_closed s = true -> WaitUntilReady s (Err ErrManagerClosed).

(** ** Properties *)

Lemma clearTable_lookup tables id name t :
  clearTable tables id !! name = Some t <-> tables !! name = Some t /\ tbl_ClusterID t <> id.
Proof. unfold clearTable. apply map_lookup_filter_Some. Qed.

(** The ids of tables are above the range that holds the metadata shard. *)
Lemma table_shard_not_meta has members cfg id has' :
  10000 < id -> rf_ShardID (startTable_replica has members cfg id).2 <> rf_ShardID (Start_replica has' members cfg).2.
Proof. unfold startTable_replica, Start_replica. destruct has, has'; cbn; unfold metaFSMClusterID; lia. Qed.

Definition started (l : loop) : bool := match l with NotStarted => false | _ => true end.

(** Where the routines are by how far the starter is. *)
Record life_inv (s : life) : Prop := {
  inv_starter : match lf_starter s with
                | Polling => started (lf_reconcile s) = false /\ started (lf_cleanup s) = false /\ lf_ready s = false
                | StartCleanup => started (lf_reconcile s) = true /\ started (lf_cleanup s) = false /\ lf_ready s = false
                | CloseReady => started (lf_reconcile s) = true /\ started (lf_cleanup s) = true /\ lf_ready s = false
                | StarterReturned => started (lf_reconcile s) = lf_ready s /\ started (lf_cleanup s) = lf_ready s
                                     /\ (lf_ready s = false -> lf_closed s = true)
                end;
  inv_elected : lf_leader s = true \/ started (lf_reconcile s) = true -> lf_elected s = true;
  inv_returned : lf_reconcile s = Returned \/ lf_cleanup s = Returned -> lf_closed s = true;
  inv_closed : lf_closed s = true -> (1 <= lf_closes s)%nat;
  inv_panic : lf_panic s = true -> (2 <= lf_closes s)%nat
}.

Lemma loop_step_started cl l l' : loop_step cl l l' -> started l = true /\ started l' = true.
Proof. by intros []. Qed.
Lemma loop_step_returned cl l l' : loop_step cl l l' -> l' = Returned -> cl = true.
Proof. by intros []. Qed.

Lemma life_step_inv s s' : life_inv s -> life_step s s' -> life_inv s'.
Proof.
  intros [Hs He Hr Hc Hp] Hst.
  destruct Hst as [b st r c rd cl le el p n|r c rd cl el p n|r c rd cl el p n|r c rd le el p n|r c rd cl le el p n
    |r c rd cl le el p n|st r r' c rd cl le el p n Hl|st r c c' rd cl le el p n Hl|[st r c rd cl le el p n]]; cbn in *.
  - split; cbn; try done. intros [->|H]; [by rewrite orb_true_r|]. by rewrite He by (by right).
  - destruct Hs as (Hr1 & Hc1 & ->). split; cbn; try done; [by intros _; apply He; left|intros [?|?]; [done|by apply Hr; right]].
  - by split.
  - destruct Hs as (Hr1 & Hc1 & ->). by split.
  - destruct Hs as (Hr1 & Hc1 & ->). split; cbn; try done. intros [?|?]; [by apply Hr; left|done].
  - destruct Hs as (Hr1 & Hc1 & ->). rewrite orb_false_r. by split.
  - destruct (loop_step_started _ _ _ Hl) as [H1 H2]. rewrite H1 in *.
    split; cbn; rewrite ?H2; try done. intros [H|H]; [by eapply loop_step_returned|by apply Hr; right].
  - destruct (loop_step_started _ _ _ Hl) as [H1 H2]. rewrite H1 in *.
    split; cbn; rewrite ?H2; try done. intros [H|H]; [by apply Hr; left|by eapply loop_step_returned].
  - split; cbn; try done; [destruct st; try done; by destruct Hs as (? & ? & _)|lia|]. intros [H|H]%orb_prop; [apply Hp in H|apply Hc in H]; lia.
Qed.

Lemma life_reachable s : rtc life_step life_init s -> life_inv s.
Proof.
  intros Hr. assert (life_inv life_init) as H0 by (split; cbn; try done; by intros [?|?]).
  revert H0. induction Hr as [|s1 s2 s3 Hs _ IH]; [done|]. intros Hi. apply IH. by eapply life_step_inv.
Qed.

(** After [Close] a loop that was started can return, and so can the starter. *)
Lemma loop_ends l : started l = true -> rtc (loop_step true) l Returned.
Proof.
  destruct l; [done|intros _..].
  - eapply rtc_l; [constructor|]. by eapply rtc_once, loop_return.
  - by eapply rtc_once, loop_return.
  - done.
Qed.
Lemma loops_end st r c rd le el p n :
  started r = true -> started c = true -> rtc life_step (mkLife st r c rd true le el p n) (mkLife st Returned Returned rd true le el p n).
Proof.
  intros Hr%loop_ends Hc%loop_ends. transitivity (mkLife st Returned c rd true le el p n).
  - clear Hc. induction Hr as [|x y z H _ IH]; [done|]. eapply rtc_l; [by apply life_reconcile|done].
  - clear Hr. induction Hc as [|x y z H _ IH]; [done|]. eapply rtc_l; [by apply life_cleanup|done].
Qed.
Lemma life_ends s : life_inv s -> lf_closed s = true -> exists s', rtc life_step s s' /\ lf_starter s' = StarterReturned
  /\ (lf_reconcile s' = Returned /\ lf_cleanup s' = Returned \/ lf_reconcile s' = NotStarted /\ lf_cleanup s' = NotStarted).
Proof.
  intros [Hs _ _ _ _]. destruct s as [st r c rd cl le el p n]; cbn in *. intros ->. destruct st.
  - destruct Hs as (Hr & Hc & _). eexists. split; [apply rtc_once, life_poll_closed|]. split; [done|]. right. by destruct r, c.
  - destruct Hs as (Hr & _). exists (mkLife StarterReturned Returned Returned true true le el (p || rd) n). split; [|split; [done|by left]].
    eapply rtc_l; [apply life_start_cleanup|]. eapply rtc_l; [apply life_close_ready|]. by apply loops_end.
  - destruct Hs as (Hr & Hc & _). exists (mkLife StarterReturned Returned Returned true true le el (p || rd) n). split; [|split; [done|by left]].
    eapply rtc_l; [apply life_close_ready|]. by apply loops_end.
  - destruct Hs as (Hr & Hc & _). destruct rd.
    + eexists. split; [by apply loops_end|]. split; [done|by left].
    + eexists. split; [done|]. split; [done|]. right. by destruct r, c.
Qed.

(** C29. The life of the manager: whatever the order in which its routines run,
    [WaitUntilReady] succeeds only when the metadata shard has had a leader and
    the routines that reconcile and clean up run, or have run until [Close]; it
    fails only after [Close]; no routine returns before [Close]; after [Close]
    every routine that was started can return; and nothing panics unless
    [Close] is called twice. *)
Theorem manager_lifecycle s :
  rtc life_step life_init s ->
  (WaitUntilReady s (Ok tt) -> lf_elected s = true /\ started (lf_reconcile s) = true /\ started (lf_cleanup s) = true)
  /\ (forall e, WaitUntilReady s (Err e) -> e = ErrManagerClosed /\ (1 <= lf_closes s)%nat)
  /\ (lf_reconcile s = Returned \/ lf_cleanup s = Returned -> (1 <= lf_closes s)%nat)
  /\ (lf_panic s = true -> (2 <= lf_closes s)%nat)
  /\ (lf_closed s = true -> exists s', rtc life_step s s' /\ lf_starter s' = StarterReturned
        /\ (lf_reconcile s' = Returned /\ lf_cleanup s' = Returned \/ lf_reconcile s' = NotStarted /\ lf_cleanup s' = NotStarted)).
Proof.
  intros Hi%life_reachable. pose proof (life_ends s Hi) as Hend. destruct Hi as [Hs He Hr Hc Hp]. split_and!; [| | | |done].
  - intros H. inversion H as [Hrd|]. destruct (lf_starter s); [by destruct Hs as (_ & _ & ?); congruence..|].
    destruct Hs as (H1 & H2 & _). rewrite Hrd in *. split_and!; [|done..]. apply He. by right.
  - intros e H. inversion H. auto.
  - auto.
  - done.
Qed.

Definition ex_life : life := mkLife StarterReturned Round Round true false true true false 0.
Lemma ex_life_reachable : rtc life_step life_init ex_life.
Proof.
  eapply rtc_l; [apply (life_leader true)|]. eapply rtc_l; [apply life_poll|]. eapply rtc_l; [apply life_start_cleanup|].
  eapply rtc_l; [apply life_close_ready|]. done.
Qed.
Lemma manager_lifecycle_witness : lf_elected ex_life = true /\ started (lf_reconcile ex_life) = true /\ started (lf_cleanup ex_life) = true.
Proof. exact (proj1 (manager_lifecycle ex_life ex_life_reachable) (wait_ready ex_life eq_refl)). Defined.
